(* ===== verification/_CoqProject ===== *)
-Q . S2P
Prelude.v
GoFloat.v
Breaker.v
KubeRetry.v
HealthEvent.v
BreakerStore.v
StateManager.v
AnnotationMap.v
Dedup.v
DrainInformers.v
DrainConfig.v
Drain.v
XidBurst.v
CounterEval.v
EventRecord.v
NicQuarantine.v
NodeLock.v
Query.v
StoreScan.v
Supersession.v
Residual.v
ColdStart.v
NodeSession.v
NodePatch.v
RuleEval.v
Quarantine.v
NodeCache.v
QuarantineSpec.v
QuarantineSession.v
NodeInformer.v
QuarantineDemo.v
GoText.v
NodeCondition.v
ConditionSpec.v
Connector.v
NodeEvents.v
ConnectorDemo.v
Interaction.v
RemediationState.v
Remediation.v
RemediationSpec.v
RemediationCheckpoint.v
RemediationCap.v
RemediationDemo.v
