(* ===== verification/Prelude.v ===== *)
(** * NVSentinel: a verification development

    NVSentinel detects hardware faults on the GPU nodes of a Kubernetes cluster
    and takes faulty nodes out of service.  Health monitors turn readings into
    health events; platform-connectors receives, transforms and stores them;
    health-events-analyzer derives events from patterns; fault-quarantine cordons
    nodes and remembers on them which faults are open, guarded by a circuit
    breaker; node-drainer evicts the workload of a quarantined node;
    fault-remediation and janitor repair it.  The parts meet in the stored event,
    the labels and annotations of the node, and a config map.

    This library translates the decision-making Go code of these parts to Rocq
    functions and proves what each part promises to the next.

    ** Files

    - [Prelude]: Go strings, 64-bit integers, durations and times; results
      ([(T, error)]) with their bind; the visiting order of Go maps as a class
      ([MapRange]) with the law that it lists the entries of the map; the hint
      database [nvs]; generic lemmas on lists, length-prefixed text and grouping.
    - [GoFloat]: binary64 as the code uses it (conversion, arithmetic, ceiling,
      comparison), on [SpecFloat].
    - [HealthEvent]: the messages of [data-models/pkg/protos] and
      [data-models/pkg/model].
    - [Breaker]: the sliding-window circuit breaker,
      [fault-quarantine/pkg/breaker].  [slidingWindowBreaker] is the struct, one
      definition per method; its Kubernetes client is the class
      [K8sClientOperations].
    - [KubeRetry]: an API server with versioned objects that other clients change
      between calls, and client-go's conflict retry, as interfaces with laws.
    - [BreakerStore]: the config-map operations of
      [fault-quarantine/pkg/informer/k8s_client.go], which implement the breaker's
      client.
    - [StateManager]: the node state label, [commons/pkg/statemanager].
    - [AnnotationMap]: the record of open faults on a node,
      [fault-quarantine/pkg/healthEventsAnnotation].  Stored values are pointers
      (address and event), because compaction groups keys by pointer.
    - [Dedup]: the deduplicating transformer,
      [platform-connectors/pkg/transformers/dedup].
    - [DrainInformers], [DrainConfig], [Drain]: node-drainer's view of the pods
      ([pkg/informers]), its configuration ([pkg/config]) and its decision
      ([pkg/evaluator], with [commons/pkg/drain]).  The cluster is a function from
      the number of the request to what the caches hold, so every look may see a
      different cluster.
    - [XidBurst]: the XID burst detector,
      [health-events-analyzer/pkg/analyzer/xid_burst_detector.go].
    - [CounterEval]: the counter evaluator of the NIC monitor,
      [health-monitors/nic-health-monitor/pkg/checks/counter/evaluator.go].
    - [EventRecord]: what one delivered event does to the record of open faults,
      the interface the clients of [AnnotationMap] are proved against.
    - [NicQuarantine]: the two ends of the pipeline together, the events of the
      counter evaluator delivered to the annotation map.
    - [NodeLock]: the lease-based lock of [commons/pkg/distributedlock] and the
      way the janitor controllers contend for a node.
    - [Query], [StoreScan]: the query builder of [store-client/pkg/query] with
      both renderings, and the batched scan of the MongoDB health-event store.
    - [Supersession], [Residual], [ColdStart]: fault-quarantine's replay of the
      stored events after a restart ([pkg/coldstart]): which stored event is
      superseded by a newer one, what part of it is still open, and the loop that
      delivers the rest.
    - [NodeSession]: what a quarantine session does to a node (taints, cordon,
      labels, annotations), [fault-quarantine/pkg/informer/k8s_client.go].  A
      mutation is a function on [Node]; [UpdateNode] is the class [NodeAPI].
    - [NodePatch]: [UpdateNode] itself, [commons/pkg/kubeclient/nodepatch.go]: the
      merge patch, its retries and the versions of pending writes.  It implements
      [NodeAPI] over an API server with other writers.
    - [RuleEval]: rule sets and the actions they ask for,
      [fault-quarantine/pkg/evaluator] and the rule part of the reconciler; the
      order in which concurrent evaluations finish is the class [Scheduler].
    - [Quarantine]: the event handlers and the handlers of manual changes of
      [fault-quarantine/pkg/reconciler/reconciler.go].
    - [NodeCache], [NodeInformer]: the pruned node cache
      ([fault-quarantine/pkg/nodecache]), and the informer's counts and its
      detection of an operator's changes
      ([fault-quarantine/pkg/informer/node_informer.go]).
    - [QuarantineSpec], [QuarantineSession], [QuarantineDemo]: the theorems about
      [Quarantine] (the record of faults and the dry run; whole sessions) and a
      concrete cluster.
    - [GoText]: the functions of [strings] on texts of single-byte characters.
    - [NodeCondition], [Connector], [NodeEvents]: the Kubernetes connector of
      platform-connectors ([pkg/connectors/kubernetes]): the text of a condition
      and the merging of events into it, the conditional write of conditions and
      its retries, and Kubernetes Events with their memory and the batch loop.
      [ConditionSpec]: conditions as lists of faults; [ConnectorDemo]: a concrete
      server.
    - [Interaction]: handlers as programs of calls with arbitrary answers, and
      rules for what such a program calls and ends with.
    - [RemediationState], [Remediation]: fault-remediation ([pkg/config],
      [pkg/common], [pkg/annotation], [pkg/crstatus], [pkg/remediation],
      [pkg/reconciler]): the record of remediations on a node, and every handler as
      a program of calls.  [RemediationSpec], [RemediationCheckpoint],
      [RemediationCap]: its theorems; [RemediationDemo]: a concrete cluster.

    Definitions keep the names of the source.  A method that changes its receiver
    returns the new state; a lock makes a method one step; a loop is a structural
    recursion or a fold, so nothing runs out of fuel (a retry has the number of
    steps of its backoff).  Two loops have fuel: the closure of the residual
    search, whose 257 rounds exceed the at most 256 sets its guard lets through,
    and the batched scan, for which any fuel above the number of matching records
    is proved enough.  Integers keep their width where the code can
    overflow; [time.Sub] saturates.  Clock readings, the visiting order of maps
    and the answers of the cluster are arguments, so a theorem holds for all of
    them.  Logs, metrics and tracing are left out.

    ** What the theorems show

    - Breaker: after any chronological history the window counts exactly the
      distinct nodes cordoned in it; a check trips exactly at one of the two
      bounds, or, where no GPU node is counted, on any cordon in the window; a trip
      latches; every sequence of operations keeps the ring and its
      index consistent; thresholds computed in binary64 stay between 0 and the
      fleet size; a forced state is what a restarted breaker reads back through
      conflicting writers.
    - Node label: an update or conditional removal acts on the version it read;
      the accepted transitions are the documented state machine, in which
      remediation follows a drain.
    - Annotation map: adding and removing change exactly the keys they should
      under every map order; compaction keeps what is stored and leaves each
      stored event spelling out its own keys, so encoding and decoding gives the
      same record; a replaced GPU is still recovered by its slot.
    - Deduplication: only repeats inside the window are demoted, a recovery
      reopens, the memory is bounded, and the buckets implement one map.
    - Drain: a drain is reported as done only if nothing was left to evict in the
      namespaces whose configured mode the evaluator knows (an entry with an unknown
      mode is accepted and drains nothing) or among the pods the policies select, or
      another event's recorded drain covers the entity; the shrunk pod cache answers every question as the full objects would.
    - XID bursts: the bursts are the runs between boundaries, an event triggers
      exactly when its code reaches the threshold on one of its GPUs, and GPUs do
      not influence each other.
    - Counters: outside the baseline poll after a reboot each counter behaves as a
      reference automaton with exact differences, and its breach and recovery events alternate.
    - Both ends: with one monitored port per device a held breach stays on the
      node's record under every sequence of readings; with two ports per device
      recoveries of other ports can erase it.
    - Node lock: at most one controller works on a node under any interleaving, if
      the lease is read from the server; an example shows that reads from a stale
      cache break exclusion.
    - Store: a query without empty disjunctions selects the same records in Mongo form
      as by its meaning, its SQL placeholders number the arguments in order, and a batched scan visits
      every matching record once, oldest first.
    - Cold start: a stored event is dropped or projected exactly when newer events
      cover it; the projection names exactly the uncovered keys, up to its limit; the
      replay leaves each key as processing the newest unresolved event about it does,
      except the UUID of a replaced GPU, which the replay misses (an example).
    - Reconciler: with a current view the record after an event is the one the
      event prescribes; a session, however long, that is not a dry run and has no
      validation client ends with the taints and the schedulability the node had
      before it; a dry run changes neither, nor a
      label but one; the actions do not depend on the order in which concurrent
      rule evaluations finish, unless rule sets of equal priority disagree on a
      taint's effect.  Examples show what a lagging cache does.
    - Node access: a patch carries exactly the mutation's changes to the node,
      whoever else writes, and taints or the cordon only onto the version they
      were computed from; the pruned cache is enough for every mutation and every
      rule; the counts the breaker divides by are exact; fault-quarantine never
      takes its own writes for an operator's, and an operator's uncordon ends the
      session once, leaving its taints.
    - Kubernetes connector: a condition is a printed list of open faults, and a
      batch adds to and removes from that list, for faults whose texts a recovery
      cannot mistake; its text is as many whole entries as fit, a cut one exactly
      filling the maximum, or the cut mark, which alone may exceed it; an entry
      shortened to fit is still found by duplicates and recoveries; a condition
      write replaces exactly what it read; an occurrence of an Event is counted
      once, and announced if the write is reported as done.
    - Remediation: no resource is created while one that covers the event may be
      at work; a waiting event changes nothing and is tried again; the attempt
      limit holds for any number of interleaved runs with stale caches and lost
      answers; an event is checkpointed only after its outcome is stored.  The attempt
      counter is an unbounded integer.

    Where a model has parameters with laws (map order, API server, codec of
    recovery slots, label selectors), the [*Demo] modules instantiate them and
    apply the theorems to concrete runs.

    ** What is not modelled, and what comes next

    Kubernetes, MongoDB and PostgreSQL clients, CEL, JSON and TOML decoding, sysfs
    and NVML are third-party code or I/O and enter as parameters.  Nil entries of
    repeated message fields and enum numbers without a name are not representable.
    The decoding of stored documents ([eventutil.ParseHealthEventFromEvent]) is JSON
    and protobuf code and a parameter too.  A check of the breaker and the merging of
    one rule set's actions are single steps: cordons recorded between the client
    calls of a check, and two evaluations racing on the cordon-reason label, are not
    interleaved.
    Next in the plan: the transactional poll and state file of the NIC monitor;
    the node-drainer reconciler and queue; the janitor's state machines; the start of
    fault-remediation; gang coordination and the store client's resume tokens. *)

From stdpp Require Import gmap strings list fin_maps pretty sorting.
From Stdlib Require Import ZArith Lia Ascii.

Set Default Goal Selector "!".

(** ** Scope and notations *)

Declare Scope go_scope.
Delimit Scope go_scope with go.

(** Boolean string equality of the source, [a == b] on Go strings. *)
Definition go_eqb (a b : string) : bool := bool_decide (a = b).

Notation "a ==s b" := (go_eqb a b) (at level 70, no associativity) : go_scope.
Notation "a <>s b" := (negb (go_eqb a b)) (at level 70, no associativity) : go_scope.

Open Scope go_scope.

(** ** Machine integers of the source

    [int], [int64] and [time.Duration] are 64-bit two's complement;
    [uint64] is 64-bit unsigned.  Values are kept in [Z] and every operation
    that can leave the range wraps. *)

Definition min_int64 : Z := - 2 ^ 63.
Definition max_int64 : Z := 2 ^ 63 - 1.
Definition wrap_int64 (z : Z) : Z := (z + 2 ^ 63) `mod` 2 ^ 64 - 2 ^ 63.
Definition wrap_uint64 (z : Z) : Z := z `mod` 2 ^ 64.
Definition in_int64 (z : Z) : Prop := (min_int64 <= z <= max_int64)%Z.
Definition in_uint64 (z : Z) : Prop := (0 <= z < 2 ^ 64)%Z.

(** ** Time

    [time.Time] is a count of nanoseconds from a fixed origin that is a
    multiple of one second, [time.Duration] a count of nanoseconds. *)

Definition Nanosecond : Z := 1.
Definition Millisecond : Z := 1000000.
Definition Second : Z := 1000000000.
Definition Minute : Z := 60 * Second.
Definition Hour : Z := 60 * Minute.

(** [Time.Sub]: the difference, saturated to the range of [Duration]. *)
Definition time_sub (t u : Z) : Z := Z.max min_int64 (Z.min max_int64 (t - u)).

(** [Time.Truncate]: down to a multiple of [d]; unchanged for [d <= 0]. *)
Definition time_truncate (t d : Z) : Z := if (d <=? 0)%Z then t else (t - t `mod` d)%Z.

(** ** Results

    A Go function that returns [(T, error)] returns a [result].  A run-time
    panic, where a definition models it, is the [None] of an option around the
    whole result. *)

Abbreviation error := string (only parsing).

Inductive result (A : Type) : Type :=
| Ok (a : A)
| Err (e : error).
Arguments Ok {A} a.
Arguments Err {A} e.

(** [fmt.Errorf] of a context and a wrapped error. *)
Definition wrapf (context : string) (e : error) : error := context +:+ ": " +:+ e.

(** Sequencing, and the wrapping of an error on the way out. *)
Definition rbind {A B} (r : result A) (k : A -> result B) : result B :=
  match r with Ok a => k a | Err e => Err e end.

Notation "'let?' x ':=' r 'in' k" := (rbind r (fun x => k))
  (at level 200, x name, r at level 100, k at level 200) : go_scope.

Definition rwrap {A} (context : string) (r : result A) : result A :=
  match r with Ok a => Ok a | Err e => Err (wrapf context e) end.

(** A filter whose predicate can fail: the first failure ends the loop. *)
Fixpoint rfilter {A} (f : A -> result bool) (l : list A) : result (list A) :=
  match l with
  | [] => Ok []
  | x :: l' =>
      let? b := f x in
      let? r := rfilter f l' in
      Ok (if b then x :: r else r)
  end.

(** The first element on which a fallible test holds. *)
Fixpoint rexists {A} (f : A -> result bool) (l : list A) : result bool :=
  match l with
  | [] => Ok false
  | x :: l' => let? b := f x in if b then Ok true else rexists f l'
  end.

(** ** Automation *)

Create HintDb nvs discriminated.
Create Rewrite HintDb nvs_rw.

(** Case analysis on the matches and conditionals of the hypotheses. *)
Ltac break_match_hyp :=
  match goal with
  | H : context [ match ?x with _ => _ end ] |- _ =>
      lazymatch type of x with
      | sumbool _ _ => destruct x
      | _ => destruct x eqn:?
      end
  end.

(** Case analysis on the matches and conditionals of the goal. *)
Ltac break_match_goal :=
  match goal with
  | |- context [ match ?x with _ => _ end ] =>
      lazymatch type of x with
      | sumbool _ _ => destruct x
      | _ => destruct x eqn:?
      end
  end.

Ltac break_match := first [ break_match_goal | break_match_hyp ].

(** Turn boolean tests of the source into propositions. *)
Ltac to_prop :=
  repeat match goal with
  | H : (_ && _)%bool = true |- _ => apply andb_true_iff in H as [? ?]
  | H : (_ || _)%bool = false |- _ => apply orb_false_iff in H as [? ?]
  | H : negb _ = true |- _ => apply negb_true_iff in H
  | H : negb _ = false |- _ => apply negb_false_iff in H
  | H : bool_decide _ = true |- _ => apply bool_decide_eq_true in H
  | H : bool_decide _ = false |- _ => apply bool_decide_eq_false in H
  | H : go_eqb _ _ = true |- _ => unfold go_eqb in H
  | H : go_eqb _ _ = false |- _ => unfold go_eqb in H
  | H : (_ =? _)%Z = true |- _ => apply Z.eqb_eq in H
  | H : (_ =? _)%Z = false |- _ => apply Z.eqb_neq in H
  | H : (_ <? _)%Z = true |- _ => apply Z.ltb_lt in H
  | H : (_ <? _)%Z = false |- _ => apply Z.ltb_ge in H
  | H : (_ <=? _)%Z = true |- _ => apply Z.leb_le in H
  | H : (_ <=? _)%Z = false |- _ => apply Z.leb_gt in H
  end.

(** ** Integers *)

Lemma go_eqb_true a b : (a ==s b) = true <-> a = b.
Proof. apply bool_decide_eq_true. Qed.

Lemma go_eqb_false a b : (a ==s b) = false <-> a <> b.
Proof. apply bool_decide_eq_false. Qed.

Lemma go_eqb_refl a : (a ==s a) = true.
Proof. by apply go_eqb_true. Qed.

Lemma wrap_int64_id z : in_int64 z -> wrap_int64 z = z.
Proof.
  unfold in_int64, min_int64, max_int64, wrap_int64. intros H.
  rewrite Z.mod_small; lia.
Qed.

Lemma wrap_int64_over z : (2 ^ 63 <= z < 2 ^ 63 + 2 ^ 64)%Z -> wrap_int64 z = (z - 2 ^ 64)%Z.
Proof.
  unfold wrap_int64. intros H.
  replace (z + 2 ^ 63)%Z with (z - 2 ^ 63 + 1 * 2 ^ 64)%Z by lia.
  rewrite Z.mod_add, Z.mod_small by lia. lia.
Qed.

Lemma wrap_int64_add_l a b : wrap_int64 (wrap_int64 a + b) = wrap_int64 (a + b).
Proof.
  unfold wrap_int64. f_equal.
  replace ((a + 2 ^ 63) `mod` 2 ^ 64 - 2 ^ 63 + b + 2 ^ 63)%Z
    with ((a + 2 ^ 63) `mod` 2 ^ 64 + b)%Z by lia.
  rewrite Z.add_mod_idemp_l by lia. f_equal. lia.
Qed.

Lemma wrap_uint64_id z : in_uint64 z -> wrap_uint64 z = z.
Proof. unfold in_uint64, wrap_uint64. intros H. apply Z.mod_small; lia. Qed.

Lemma wrap_uint64_range z : in_uint64 (wrap_uint64 z).
Proof. unfold in_uint64, wrap_uint64. apply Z.mod_pos_bound. lia. Qed.

Lemma time_sub_nonpos t u : (time_sub t u <= 0 <-> t <= u)%Z.
Proof. unfold time_sub, min_int64, max_int64. lia. Qed.

Lemma time_sub_exact t u : in_int64 (t - u) -> time_sub t u = (t - u)%Z.
Proof. unfold time_sub, in_int64. lia. Qed.

(** Saturation never changes a comparison with a value inside the range. *)
Lemma time_sub_ltb t u d :
  (min_int64 < d <= max_int64)%Z -> ((time_sub t u <? d) = (t - u <? d))%Z.
Proof.
  unfold time_sub, min_int64, max_int64. intros H.
  destruct (Z.ltb_spec (t - u) d), (Z.ltb_spec (Z.max (- 2 ^ 63) (Z.min (2 ^ 63 - 1) (t - u))) d); lia.
Qed.

Lemma time_truncate_spec t d :
  (0 < d)%Z -> (time_truncate t d <= t < time_truncate t d + d)%Z.
Proof.
  intros Hd. unfold time_truncate. destruct (Z.leb_spec d 0); [lia|].
  pose proof (Z.mod_pos_bound t d Hd). lia.
Qed.

#[export] Hint Resolve wrap_uint64_range : nvs.
#[export] Hint Rewrite go_eqb_refl : nvs_rw.

(** ** Maps *)

Lemma map_filter_none `{Countable K} {A} (P : K * A -> Prop) `{!forall x, Decision (P x)}
    (m : gmap K A) :
  (forall i x, m !! i = Some x -> ~ P (i, x)) -> filter P m = ∅.
Proof.
  intros Hn. apply map_empty. intros i. apply map_lookup_filter_None. naive_solver.
Qed.

(** ** Boolean searches of slices *)

Lemma existsb_elem {A} (f : A -> bool) l : existsb f l = true <-> exists x, x ∈ l /\ f x = true.
Proof. rewrite existsb_exists. by setoid_rewrite list_elem_of_In. Qed.

Lemma existsb_none {A} (f : A -> bool) l : existsb f l = false <-> forall x, x ∈ l -> f x = false.
Proof.
  rewrite <- not_true_iff_false, existsb_elem. split.
  - intros Hn x Hx. apply not_true_iff_false. eauto.
  - intros Hf (x & Hx & Ht). by rewrite Hf in Ht.
Qed.

Lemma forallb_elem {A} (f : A -> bool) l : forallb f l = true <-> forall x, x ∈ l -> f x = true.
Proof. rewrite forallb_forall. by setoid_rewrite list_elem_of_In. Qed.

(** ** Fallible loops *)

(** A fold whose steps commute does not depend on the order. *)
Lemma fold_left_perm {A B} (f : B -> A -> B) l1 l2 :
  l1 ≡ₚ l2 -> (forall x y b, x ∈ l1 -> y ∈ l1 -> f (f b x) y = f (f b y) x) ->
  forall b, fold_left f l1 b = fold_left f l2 b.
Proof.
  induction 1 as [|x l1 l2 _ IH|x y l|l1 l2 l3 H12 IH1 H23 IH2]; intros Hc b; simpl; [done| | |].
  - apply IH. intros. apply Hc; by right.
  - f_equal. apply Hc; [by left|]. right. by left.
  - rewrite IH1 by done. apply IH2. intros x y b'. rewrite <- H12. apply Hc.
Qed.

Lemma existsb_perm {A} (f : A -> bool) l1 l2 : l1 ≡ₚ l2 -> existsb f l1 = existsb f l2.
Proof. intros Hp. apply eq_true_iff_eq. rewrite !existsb_elem. by setoid_rewrite Hp. Qed.

(** Two filters that agree on the elements of the list. *)
Lemma filter_agree {A} (P Q : A -> Prop) `{!forall x, Decision (P x), !forall x, Decision (Q x)} (l : list A) :
  (forall x, x ∈ l -> P x <-> Q x) -> filter P l = filter Q l.
Proof.
  induction l as [|x l IH]; intros Hl; [done|]. rewrite !filter_cons, IH by (intros; apply Hl; by right).
  specialize (Hl x (list_elem_of_here _ _)). repeat case_decide; tauto.
Qed.

Lemma filter_all {A} (P : A -> Prop) `{!forall x, Decision (P x)} (l : list A) :
  (forall x, x ∈ l -> P x) -> filter P l = l.
Proof.
  induction l as [|x l IH]; intros Hl; [done|]. rewrite filter_cons, IH by (intros; apply Hl; by right).
  rewrite decide_True; [done|]. apply Hl, list_elem_of_here.
Qed.

Lemma filter_none {A} (P : A -> Prop) `{!forall x, Decision (P x)} (l : list A) :
  (forall x, x ∈ l -> ~ P x) -> filter P l = [].
Proof.
  induction l as [|x l IH]; intros Hl; [done|]. rewrite filter_cons, IH by (intros; apply Hl; by right).
  rewrite decide_False; [done|]. apply Hl, list_elem_of_here.
Qed.

Lemma rfilter_Ok {A} (f : A -> result bool) l r :
  rfilter f l = Ok r -> forall x, x ∈ r <-> x ∈ l /\ f x = Ok true.
Proof.
  revert r. induction l as [|y l IH]; intros r; simpl; [intros [= <-]; set_solver|].
  destruct (f y) as [b|] eqn:Hy; [|done]. simpl. destruct (rfilter f l) as [r'|]; [|done].
  simpl. intros [= <-] x. specialize (IH r' eq_refl x). destruct b; rewrite !elem_of_cons, ?IH.
  - split; [intros [->|[? ?]]; auto|]. intros [[->|Hx] Hf]; auto.
  - split; [intros [? ?]; auto|]. intros [[->|Hx] Hf]; [congruence|auto].
Qed.

(** A loop succeeds only when its test does on every element. *)
Lemma rfilter_total {A} (f : A -> result bool) l :
  (exists r, rfilter f l = Ok r) <-> forall x, x ∈ l -> exists b, f x = Ok b.
Proof.
  induction l as [|y l IH]; simpl.
  - split; [set_solver|eauto].
  - destruct (f y) as [b|] eqn:Hy; simpl.
    + destruct (rfilter f l) as [r|]; simpl.
      * split; [|eauto]. intros _ x [->|Hx]%elem_of_cons; [eauto|]. apply IH; eauto.
      * split; [naive_solver|]. intros Hall. destruct (proj2 IH) as [r Hr]; [|done].
        intros x Hx. apply Hall. by right.
    + split; [naive_solver|]. intros Hall. destruct (Hall y) as [b Hb]; [by left|]. congruence.
Qed.

Lemma rfilter_map {A B} (f : A -> result bool) (g : B -> result bool) (h : A -> B) l :
  (forall x, x ∈ l -> f x = g (h x)) ->
  rfilter g (map h l) = match rfilter f l with Ok r => Ok (map h r) | Err e => Err e end.
Proof.
  induction l as [|x l IH]; intros Hfg; simpl; [done|].
  rewrite <- Hfg by by left. rewrite IH by (intros y Hy; apply Hfg; by right).
  destruct (f x) as [[]|]; simpl; [..|done]; by destruct (rfilter f l).
Qed.

(** ** Lists whose elements are pairwise related *)

Lemma FOP_app {A} (R : A -> A -> Prop) l1 l2 :
  ForallOrdPairs R l1 -> ForallOrdPairs R l2 -> (forall x y, x ∈ l1 -> y ∈ l2 -> R x y) ->
  ForallOrdPairs R (l1 ++ l2).
Proof.
  intros H1 H2 H12. induction H1 as [|x l1 Hx H1 IH]; [done|]. simpl. constructor.
  - apply Forall_app. split; [done|]. apply Forall_forall. intros y Hy. apply H12; [by left|done].
  - apply IH. intros y z Hy Hz. apply H12; [by right|done].
Qed.

Lemma FOP_bind {A B} (R : B -> B -> Prop) (f : A -> list B) l :
  (forall x, x ∈ l -> ForallOrdPairs R (f x)) ->
  ForallOrdPairs (fun x y => forall a b, a ∈ f x -> b ∈ f y -> R a b) l ->
  ForallOrdPairs R (l ≫= f).
Proof.
  intros Hf Hl. induction Hl as [|x l Hx Hl IH]; simpl; [constructor|].
  rewrite Forall_forall in Hx. apply FOP_app.
  - apply Hf. by left.
  - apply IH. intros y Hy. apply Hf. by right.
  - intros a b Ha (y & Hb & Hy)%list_elem_of_bind. by apply (Hx y Hy).
Qed.

Lemma FOP_lookup {A} (R : A -> A -> Prop) l :
  (forall a b x y, l !! a = Some x -> l !! b = Some y -> a <> b -> R x y) -> ForallOrdPairs R l.
Proof.
  induction l as [|x l IH]; intros Hl; constructor.
  - apply Forall_forall. intros y [b Hb]%list_elem_of_lookup. by apply (Hl 0 (S b)).
  - apply IH. intros a b y z Ha Hb Hab. apply (Hl (S a) (S b)); [done..|lia].
Qed.

Lemma FOP_NoDup_fst {A B} (l : list (A * B)) :
  NoDup l.*1 -> ForallOrdPairs (fun x y => x ∈ l /\ y ∈ l /\ x.1 <> y.1) l.
Proof.
  intros Hnd. apply FOP_lookup. intros a b x y Ha Hb Hab.
  split; [by eapply list_elem_of_lookup_2|]. split; [by eapply list_elem_of_lookup_2|].
  intros He. apply Hab. eapply (NoDup_lookup _ _ _ x.1 Hnd).
  - by rewrite list_lookup_fmap, Ha.
  - by rewrite list_lookup_fmap, Hb, He.
Qed.

Lemma FOP_impl {A} (R S : A -> A -> Prop) l :
  (forall x y, R x y -> S x y) -> ForallOrdPairs R l -> ForallOrdPairs S l.
Proof.
  intros HRS. induction 1 as [|x l Hx Hl IH]; constructor; [|done].
  by eapply Forall_impl; [exact Hx|auto].
Qed.

(** ** Length-prefixed encodings

    Several components turn a list of strings into one key with
    [strconv.Itoa(len(v)) + ":" + v] per element. *)

Definition itoa (n : nat) : string := pretty (N.of_nat n).

(** Split a string after its first [n] characters. *)
Fixpoint split_at (n : nat) (s : string) : option (string * string) :=
  match n, s with
  | O, _ => Some (""%string, s)
  | S n', String c s' =>
      match split_at n' s' with Some (a, b) => Some (String c a, b) | None => None end
  | S _, EmptyString => None
  end.

Lemma split_at_app s rest : split_at (String.length s) (s +:+ rest) = Some (s, rest).
Proof. induction s as [|c s IH]; simpl; [done|]. by rewrite IH. Qed.

(** The prefix of a string before the first [sep]. *)
Fixpoint before_sep (sep : Ascii.ascii) (s : string) : option (string * string) :=
  match s with
  | EmptyString => None
  | String c s' =>
      if decide (c = sep) then Some (""%string, s')
      else match before_sep sep s' with Some (a, b) => Some (String c a, b) | None => None end
  end.

Fixpoint no_char (sep : Ascii.ascii) (s : string) : Prop :=
  match s with
  | EmptyString => True
  | String c s' => c <> sep /\ no_char sep s'
  end.

Lemma before_sep_app sep s rest :
  no_char sep s -> before_sep sep (s +:+ String sep rest) = Some (s, rest).
Proof.
  induction s as [|c s IH]; simpl; [by rewrite decide_True|].
  intros [Hc Hs]. by rewrite decide_False, IH.
Qed.

(** [strings.Split] on a one-character separator. *)
Fixpoint split_on (sep : Ascii.ascii) (s : string) : list string :=
  match s with
  | EmptyString => [""%string]
  | String c rest =>
      if decide (c = sep) then ""%string :: split_on sep rest
      else match split_on sep rest with
           | p :: ps => String c p :: ps
           | [] => [String c ""]
           end
  end.

(** [strings.Join]. *)
Fixpoint join (sep : string) (l : list string) : string :=
  match l with
  | [] => ""
  | [s] => s
  | s :: rest => s +:+ sep +:+ join sep rest
  end.

(** [strings.TrimSpace], on ASCII text. *)
Definition is_space (c : Ascii.ascii) : bool :=
  let n := Ascii.nat_of_ascii c in ((9 <=? n) && (n <=? 13) || (n =? 32))%nat.

Fixpoint trim_left (s : string) : string :=
  match s with
  | String c s' => if is_space c then trim_left s' else s
  | EmptyString => s
  end.

Fixpoint trim_right (s : string) : string :=
  match s with
  | EmptyString => ""
  | String c s' =>
      match trim_right s' with
      | EmptyString => if is_space c then "" else String c ""
      | t => String c t
      end
  end.

Definition TrimSpace (s : string) : string := trim_right (trim_left s).

(** [strings.ToLower] on ASCII text. *)
Definition is_upper (c : Ascii.ascii) : bool :=
  let n := Ascii.nat_of_ascii c in (65 <=? n)%nat && (n <=? 90)%nat.
Definition lower (c : Ascii.ascii) : Ascii.ascii :=
  if is_upper c then Ascii.ascii_of_nat (Ascii.nat_of_ascii c + 32) else c.
Fixpoint to_lower (s : string) : string :=
  match s with EmptyString => ""%string | String c rest => String (lower c) (to_lower rest) end.

(** [strings.Contains] of one character. *)
Fixpoint has_char (sep : Ascii.ascii) (s : string) : bool :=
  match s with
  | EmptyString => false
  | String c rest => if decide (c = sep) then true else has_char sep rest
  end.

Definition colon : Ascii.ascii := ":"%char.

Lemma pretty_N_go_no_colon x s : no_char colon s -> no_char colon (pretty_N_go x s).
Proof.
  revert s. induction (N.lt_wf_0 x) as [x _ IH]; intros s Hs.
  destruct (decide (0 < x)%N) as [Hx|Hx].
  - rewrite pretty_N_go_step by done. apply IH; [by apply N.div_lt|].
    split; [|done]. unfold pretty_N_char. by repeat case_match.
  - replace x with 0%N by lia. by rewrite pretty_N_go_0.
Qed.

Lemma itoa_no_colon n : no_char colon (itoa n).
Proof.
  unfold itoa, pretty, pretty_N. case_decide; [done|]. by apply pretty_N_go_no_colon.
Qed.

Lemma itoa_inj n m : itoa n = itoa m -> n = m.
Proof. unfold itoa. intros H%(inj pretty). lia. Qed.

(** One element, with the separator [suf] after it. *)
Definition frame (suf v : string) : string := itoa (String.length v) +:+ ":" +:+ v +:+ suf.

Fixpoint frames (suf : string) (l : list string) : string :=
  match l with [] => ""%string | v :: l' => frame suf v +:+ frames suf l' end.

Lemma string_app_assoc (a b c : string) : (a +:+ b) +:+ c = a +:+ (b +:+ c).
Proof. induction a as [|x a IH]; [done|]. exact (f_equal (String x) IH). Qed.

Lemma string_app_nil_r (a : string) : a +:+ "" = a.
Proof. induction a as [|x a IH]; [done|]. exact (f_equal (String x) IH). Qed.

Lemma string_app_inj_l (a b c : string) : a +:+ b = a +:+ c -> b = c.
Proof. induction a as [|x a IH]; [done|]. intros H. apply IH. by injection H. Qed.

Lemma frame_inj suf v1 v2 r1 r2 :
  frame suf v1 +:+ r1 = frame suf v2 +:+ r2 -> v1 = v2 /\ r1 = r2.
Proof.
  unfold frame. rewrite !string_app_assoc. intros H.
  pose proof (before_sep_app colon _ (v1 +:+ suf +:+ r1) (itoa_no_colon (String.length v1))) as H1.
  pose proof (before_sep_app colon _ (v2 +:+ suf +:+ r2) (itoa_no_colon (String.length v2))) as H2.
  change (String colon ?x) with (":" +:+ x) in H1, H2.
  rewrite H in H1. rewrite H1 in H2. injection H2 as Hl Hr.
  apply itoa_inj in Hl. pose proof (split_at_app v1 (suf +:+ r1)) as S1.
  pose proof (split_at_app v2 (suf +:+ r2)) as S2.
  rewrite Hl, Hr, S2 in S1. injection S1 as -> Hs. by apply string_app_inj_l in Hs.
Qed.

Lemma frames_inj suf l1 l2 : frames suf l1 = frames suf l2 -> l1 = l2.
Proof.
  assert (Hne : forall v r, frame suf v +:+ r <> ""%string).
  { intros v r He. apply (f_equal (before_sep colon)) in He. unfold frame in He.
    rewrite !string_app_assoc in He.
    pose proof (before_sep_app colon _ (v +:+ suf +:+ r) (itoa_no_colon (String.length v))) as H1.
    change (String colon ?x) with (":" +:+ x) in H1. by rewrite H1 in He. }
  revert l2. induction l1 as [|v1 l1 IH]; intros [|v2 l2] H; simpl in H; [done| | |].
  - by apply eq_sym, Hne in H.
  - by apply Hne in H.
  - apply frame_inj in H as [-> H]. f_equal. auto.
Qed.

(** ** Go maps

    [for k, v := range m] visits the entries of a map once each, in an order
    the language leaves open: the order is a parameter, and the theorems hold
    for every order that is a permutation of the entries. *)

Class MapRange := {
  range : forall (K V : Type) (E : EqDecision K) (C : Countable K), gmap K V -> list (K * V) }.
#[global] Arguments range {_ K V E C} m.

Class MapRangeLaws `{MapRange} :=
  range_perm : forall K V `{Countable K} (m : gmap K V), range m ≡ₚ map_to_list m.

(** One particular order. *)
Definition list_range : MapRange := {| range K V E C := map_to_list |}.

Lemma list_range_laws : @MapRangeLaws list_range.
Proof. by intros ?????. Qed.

Lemma elem_of_range `{MapRangeLaws} `{Countable K} {V} (m : gmap K V) k v :
  (k, v) ∈ range m <-> m !! k = Some v.
Proof. rewrite range_perm. apply elem_of_map_to_list. Qed.

Lemma NoDup_range `{MapRangeLaws} `{Countable K} {V} (m : gmap K V) : NoDup (range m).*1.
Proof. rewrite range_perm. apply NoDup_fst_map_to_list. Qed.

(** The loops that group the elements of a slice in a map: the entry under
    [f x] is created by [init] when missing and extended by [upd]. *)
Definition group_fold `{Countable K} {A B} (f : A -> K) (init : A -> B) (upd : B -> A -> B)
    (l : list A) : gmap K B :=
  fold_left (fun m x => <[f x := upd (default (init x) (m !! f x)) x]> m) l ∅.

(** What the loop leaves under [g]: the elements sent to [g], in order. *)
Lemma group_fold_lookup `{Countable K} {A B} (f : A -> K) (init : A -> B) (upd : B -> A -> B) l g :
  group_fold f init upd l !! g =
  match filter (fun x => f x = g) l with
  | [] => None
  | x :: xs => Some (fold_left upd (x :: xs) (init x))
  end.
Proof.
  unfold group_fold. induction l as [|x l IH] using rev_ind; [done|].
  rewrite fold_left_app, filter_app. simpl.
  destruct (decide (f x = g)) as [<-|Hne].
  - rewrite lookup_insert_eq, filter_cons_True, filter_nil, IH by done.
    destruct (filter _ l) as [|y ys]; [done|].
    simpl. by rewrite fold_left_app.
  - rewrite lookup_insert_ne, filter_cons_False, filter_nil, app_nil_r by done. done.
Qed.

(** The plain grouping loop [m[f x] = append(m[f x], x)]. *)
Definition group_by `{Countable K} {A} (f : A -> K) (l : list A) : gmap K (list A) :=
  group_fold f (fun _ => []) (fun ys x => ys ++ [x]) l.

Lemma fold_left_snoc {A} (l : list A) ys : fold_left (fun ys x => ys ++ [x]) l ys = ys ++ l.
Proof.
  revert ys. induction l as [|x l IH]; intros ys; simpl; [by rewrite app_nil_r|].
  by rewrite IH, <- app_assoc.
Qed.

Lemma group_by_lookup `{Countable K} {A} (f : A -> K) (l : list A) g ys :
  group_by f l !! g = Some ys <-> ys = filter (fun x => f x = g) l /\ ys <> [].
Proof.
  unfold group_by. rewrite group_fold_lookup.
  destruct (filter _ l) as [|x xs]; [naive_solver|].
  rewrite fold_left_snoc. naive_solver.
Qed.
