(* ===== verification/GoFloat.v ===== *)
(** * Binary64 arithmetic of the source

    [float64] of Go is IEEE 754 binary64.  The model is the Standard
    Library's executable specification of floating-point numbers
    ([SpecFloat], round to nearest even); this file fixes the format, adds
    the operations the source uses that the specification lacks (conversion
    from and to [int], [math.Ceil], the order on values) and proves the facts
    the components need about them.  Nothing here is an axiom: the primitive
    floats of the kernel are not used. *)

From stdpp Require Import base numbers.
From Stdlib Require Import ZArith Lia SpecFloat.
From S2P Require Import Prelude.

Open Scope Z_scope.

Abbreviation float64 := spec_float.

Definition f64_prec : Z := 53.
Definition f64_emax : Z := 1024.

Definition f64_zero : float64 := S754_zero false.

(** [float64(n)] for an integer [n], rounded to nearest even. *)
Definition f64_of_int (n : Z) : float64 := binary_normalize f64_prec f64_emax n 0 false.

Definition f64_mul : float64 -> float64 -> float64 := SFmul f64_prec f64_emax.
Definition f64_div : float64 -> float64 -> float64 := SFdiv f64_prec f64_emax.
Definition f64_add : float64 -> float64 -> float64 := SFadd f64_prec f64_emax.

Definition f64_is_nan (x : float64) : bool :=
  match x with S754_nan => true | _ => false end.

(** [math.IsInf(x, 0)]: either infinity. *)
Definition f64_is_inf (x : float64) : bool :=
  match x with S754_infinity _ => true | _ => false end.

(** The signed mantissa of a finite number. *)
Definition signed_mantissa (s : bool) (m : positive) : Z := cond_Zopp s (Zpos m).

(** Comparison of the exact values [m1 * 2^e1] and [m2 * 2^e2]. *)
Definition compare_exact (z1 e1 z2 e2 : Z) : comparison :=
  let e := Z.min e1 e2 in Z.compare (z1 * 2 ^ (e1 - e)) (z2 * 2 ^ (e2 - e)).

(** The order of the source on [float64]: by value, [None] when unordered. *)
Definition f64_compare (x y : float64) : option comparison :=
  match x, y with
  | S754_nan, _ | _, S754_nan => None
  | S754_infinity sx, S754_infinity sy =>
      Some (if Bool.eqb sx sy then Eq else if sx then Lt else Gt)
  | S754_infinity sx, _ => Some (if sx then Lt else Gt)
  | _, S754_infinity sy => Some (if sy then Gt else Lt)
  | S754_zero _, S754_zero _ => Some Eq
  | S754_zero _, S754_finite sy my ey => Some (compare_exact 0 0 (signed_mantissa sy my) ey)
  | S754_finite sx mx ex, S754_zero _ => Some (compare_exact (signed_mantissa sx mx) ex 0 0)
  | S754_finite sx mx ex, S754_finite sy my ey =>
      Some (compare_exact (signed_mantissa sx mx) ex (signed_mantissa sy my) ey)
  end.

(** [x > y], [x < y], [x <= y] and [x == y] of the source; all false on NaN. *)
Definition f64_gtb (x y : float64) : bool :=
  match f64_compare x y with Some Gt => true | _ => false end.
Definition f64_ltb (x y : float64) : bool :=
  match f64_compare x y with Some Lt => true | _ => false end.
Definition f64_leb (x y : float64) : bool :=
  match f64_compare x y with Some Lt | Some Eq => true | _ => false end.
Definition f64_eqb (x y : float64) : bool :=
  match f64_compare x y with Some Eq => true | _ => false end.

(** [math.Ceil]: the least integral value not below [x]; special values and
    the sign of zero are kept. *)
Definition f64_ceil (x : float64) : float64 :=
  match x with
  | S754_finite s m e =>
      if 0 <=? e then x
      else binary_normalize f64_prec f64_emax (- (- signed_mantissa s m / 2 ^ (- e))) 0 s
  | _ => x
  end.

(** The integer part of a finite number, toward zero. *)
Definition f64_trunc (x : float64) : Z :=
  match x with
  | S754_finite s m e =>
      if 0 <=? e then signed_mantissa s m * 2 ^ e
      else Z.quot (signed_mantissa s m) (2 ^ (- e))
  | _ => 0
  end.

(** [int(x)].  A value outside the range of [int] has an
    implementation-defined result: the one of amd64, the least integer. *)
Definition f64_to_int (x : float64) : Z :=
  match x with
  | S754_nan | S754_infinity _ => min_int64
  | _ =>
      let z := f64_trunc x in
      if (min_int64 <=? z) && (z <=? max_int64) then z else min_int64
  end.

(** ** Facts *)

Lemma digits2_pos_bounds p :
  2 ^ (Zpos (digits2_pos p) - 1) <= Zpos p < 2 ^ Zpos (digits2_pos p).
Proof.
  induction p as [p IH|p IH|]; simpl digits2_pos; [| |simpl; lia].
  all: rewrite Pos2Z.inj_succ.
  all: replace (Z.succ (Zpos (digits2_pos p)) - 1) with (Zpos (digits2_pos p) - 1 + 1) by lia.
  all: unfold Z.succ; rewrite !Z.pow_add_r by lia; lia.
Qed.

Lemma pos_iter_xO m d : Zpos (Pos.iter xO m d) = Zpos m * 2 ^ Zpos d.
Proof.
  induction d as [|d IH] using Pos.peano_ind; [simpl; lia|].
  rewrite Pos.iter_succ, Pos2Z.inj_succ, Z.pow_succ_r by lia.
  rewrite Pos2Z.inj_xO, IH. lia.
Qed.

Lemma digits2_shift m d :
  Zpos (digits2_pos (Pos.iter xO m d)) = Zpos (digits2_pos m) + Zpos d.
Proof.
  induction d as [|d IH] using Pos.peano_ind; [simpl; lia|].
  rewrite Pos.iter_succ. simpl digits2_pos. lia.
Qed.

(** No bit is shifted out of a mantissa that already has the precision. *)
Lemma binary_round_aux_canonical s m e :
  Zpos (digits2_pos m) = 53 -> -1074 <= e <= 971 ->
  binary_round_aux f64_prec f64_emax s (Zpos m) e loc_Exact = S754_finite s m e.
Proof.
  intros Hd He.
  assert (Hf : fexp f64_prec f64_emax (Zpos (digits2_pos m) + e) - e = 0).
  { unfold fexp, emin, f64_prec, f64_emax. lia. }
  unfold binary_round_aux, shr_fexp. simpl Zdigits2. rewrite Hf. simpl.
  rewrite Hf. simpl.
  destruct (Z.leb_spec e (f64_emax - f64_prec)); [done|]. unfold f64_emax, f64_prec in *. lia.
Qed.

(** Integers below [2^53] convert without rounding. *)
Lemma f64_of_int_exact n :
  0 < n < 2 ^ 53 ->
  exists m e, f64_of_int n = S754_finite false m e /\ e <= 0 /\ Zpos m = n * 2 ^ (- e).
Proof.
  intros Hn. destruct n as [|n|n]; try lia.
  pose proof (digits2_pos_bounds n) as Hb.
  assert (Hd : Zpos (digits2_pos n) <= 53).
  { destruct (Z.le_gt_cases (Zpos (digits2_pos n)) 53); [done|].
    pose proof (Z.pow_le_mono_r 2 53 (Zpos (digits2_pos n) - 1)). lia. }
  unfold f64_of_int, binary_normalize, binary_round, shl_align.
  set (d := Zpos (digits2_pos n)) in *.
  assert (Hf : fexp f64_prec f64_emax (d + 0) = d - 53).
  { unfold fexp, emin, f64_prec, f64_emax. lia. }
  rewrite Hf. destruct (d - 53 - 0) as [|k|k] eqn:Hk; [| lia |].
  - exists n, 0. rewrite binary_round_aux_canonical by lia. split_and!; [done|lia|]. lia.
  - exists (Pos.iter xO n k), (d - 53).
    rewrite binary_round_aux_canonical.
    + split_and!; [done|lia|]. rewrite pos_iter_xO. repeat f_equal. lia.
    + rewrite digits2_shift. fold d. lia.
    + pose proof (Pos2Z.is_pos (digits2_pos n)). lia.
Qed.

Lemma f64_of_int_0 : f64_of_int 0 = f64_zero.
Proof. done. Qed.

(** A finite number not above [float64(n)] truncates to at most [n]. *)
Lemma f64_trunc_le x n :
  0 <= n < 2 ^ 53 -> f64_gtb x (f64_of_int n) = false ->
  f64_trunc x <= n.
Proof.
  intros Hn Hgt. destruct x as [s|s| |s m e]; simpl; try lia.
  destruct s.
  { unfold signed_mantissa, cond_Zopp. destruct (Z.leb_spec 0 e).
    - pose proof (Z.pow_pos_nonneg 2 e). lia.
    - pose proof (Z.pow_pos_nonneg 2 (- e)).
      rewrite Z.quot_opp_l by lia. pose proof (Z.quot_pos (Zpos m) (2 ^ (- e))). lia. }
  unfold signed_mantissa, cond_Zopp in *.
  assert (Hle : Zpos m * 2 ^ (e - Z.min e 0) <= n * 2 ^ (- Z.min e 0)).
  { destruct (Z.eq_dec n 0) as [->|Hn0].
    - rewrite f64_of_int_0 in Hgt. unfold f64_gtb in Hgt. simpl in Hgt.
      unfold compare_exact, signed_mantissa, cond_Zopp in Hgt.
      destruct (_ ?= _) eqn:Hc in Hgt; [| |done].
      + apply Z.compare_eq_iff in Hc. lia.
      + rewrite Z.compare_lt_iff in Hc. lia.
    - destruct (f64_of_int_exact n) as (mn & en & Hof & Hen & Hmn); [lia|].
      rewrite Hof in Hgt. unfold f64_gtb in Hgt. simpl in Hgt.
      unfold compare_exact, signed_mantissa, cond_Zopp in Hgt. rewrite Hmn in Hgt.
      set (a := Z.min e en) in *.
      assert (Hc : Zpos m * 2 ^ (e - a) <= n * 2 ^ (- en) * 2 ^ (en - a)).
      { destruct (_ ?= _) eqn:Hc in Hgt; [| |done].
        - apply Z.compare_eq_iff in Hc. lia.
        - rewrite Z.compare_lt_iff in Hc. lia. }
      rewrite <- Z.mul_assoc, <- Z.pow_add_r in Hc by lia.
      replace (- en + (en - a)) with (- Z.min e 0 + (Z.min e 0 - a)) in Hc by lia.
      replace (e - a) with (e - Z.min e 0 + (Z.min e 0 - a)) in Hc by lia.
      rewrite !Z.pow_add_r, !Z.mul_assoc in Hc by lia.
      apply Z.mul_le_mono_pos_r in Hc; [done|]. apply Z.pow_pos_nonneg; lia. }
  destruct (Z.leb_spec 0 e).
  - rewrite Z.min_r in Hle by lia. rewrite Z.sub_0_r in Hle. simpl in Hle. lia.
  - rewrite Z.min_l, Z.sub_diag in Hle by lia.
    rewrite Z.quot_div_nonneg by (try apply Z.pow_pos_nonneg; lia).
    apply Z.div_le_upper_bound; [apply Z.pow_pos_nonneg; lia|]. lia.
Qed.

Lemma f64_trunc_pos s m e : s = false -> 0 <= f64_trunc (S754_finite s m e).
Proof.
  intros ->. simpl. unfold signed_mantissa, cond_Zopp. destruct (Z.leb_spec 0 e).
  - pose proof (Z.pow_pos_nonneg 2 e). lia.
  - apply Z.quot_pos; [lia|]. apply Z.pow_pos_nonneg; lia.
Qed.

(** ** Signs

    Numbers that are zero or have the sign bit clear; the class the threshold
    computation stays in. *)
Definition f64_nonneg (x : float64) : Prop :=
  match x with
  | S754_zero _ | S754_infinity false | S754_finite false _ _ => True
  | _ => False
  end.

Lemma shr_1_nonneg r : 0 <= shr_m r -> 0 <= shr_m (shr_1 r).
Proof. destruct r as [[|[p|p|]|p] ? ?]; simpl; lia. Qed.

Lemma iter_pos_shr_nonneg p r : 0 <= shr_m r -> 0 <= shr_m (iter_pos shr_1 p r).
Proof.
  revert r. induction p as [p IH|p IH|]; intros r H; simpl; auto using shr_1_nonneg.
Qed.

Lemma shr_fexp_nonneg m e l :
  0 <= m -> 0 <= shr_m (fst (shr_fexp f64_prec f64_emax m e l)).
Proof.
  intros H. unfold shr_fexp, shr.
  assert (Hr : shr_m (shr_record_of_loc m l) = m) by (destruct l as [|[]]; done).
  destruct (_ - _)%Z; simpl; rewrite ?Hr; try done. apply iter_pos_shr_nonneg. by rewrite Hr.
Qed.

Lemma round_nearest_even_nonneg m l : 0 <= m -> 0 <= round_nearest_even m l.
Proof. intros. destruct l as [|[]]; simpl; try lia. destruct (Z.even m); lia. Qed.

Lemma binary_round_aux_nonneg m e l :
  0 <= m -> f64_nonneg (binary_round_aux f64_prec f64_emax false m e l).
Proof.
  intros H. unfold binary_round_aux.
  destruct (shr_fexp _ _ m e l) as [r1 e1] eqn:H1.
  pose proof (shr_fexp_nonneg m e l H) as Hm1. rewrite H1 in Hm1. simpl in Hm1.
  set (m1 := round_nearest_even (shr_m r1) (loc_of_shr_record r1)).
  assert (Hr1 : 0 <= m1) by (by apply round_nearest_even_nonneg).
  destruct (shr_fexp _ _ m1 e1 loc_Exact) as [r2 e2] eqn:H2.
  pose proof (shr_fexp_nonneg m1 e1 loc_Exact Hr1) as Hm2. rewrite H2 in Hm2. simpl in Hm2.
  destruct (shr_m r2); simpl; [done| |lia]. by destruct (_ <=? _).
Qed.

Lemma binary_normalize_nonneg z e s :
  0 <= z -> f64_nonneg (binary_normalize f64_prec f64_emax z e s).
Proof.
  intros H. destruct z as [|p|p]; simpl; [done| |lia].
  unfold binary_round. destruct (shl_align _ _ _). apply binary_round_aux_nonneg. lia.
Qed.

Lemma f64_of_int_nonneg n : 0 <= n -> f64_nonneg (f64_of_int n).
Proof. apply binary_normalize_nonneg. Qed.

Lemma SFdiv_core_nonneg m1 e1 m2 e2 q e l :
  0 <= m1 -> 0 < m2 -> SFdiv_core_binary f64_prec f64_emax m1 e1 m2 e2 = (q, e, l) -> 0 <= q.
Proof.
  intros H1 H2. unfold SFdiv_core_binary.
  set (m' := match _ with Z0 => _ | Zpos _ => _ | Zneg _ => _ end).
  assert (Hm' : 0 <= m').
  { unfold m'. destruct (e1 - e2 - _); try lia. rewrite Z.shiftl_mul_pow2 by lia.
    apply Z.mul_nonneg_nonneg; [done|]. apply Z.pow_nonneg. lia. }
  destruct (Z.div_eucl m' m2) as [q' r] eqn:Hq. intros [= <- <- <-].
  pose proof (Z.div_pos m' m2 Hm' H2) as Hd. unfold Z.div in Hd. by rewrite Hq in Hd.
Qed.

(** The product of an integer and a positive percentage, divided by a positive
    integer and rounded up, is never NaN nor negative. *)
Lemma f64_scaled_nonneg n p d :
  0 < n < 2 ^ 53 -> 0 < d < 2 ^ 53 -> f64_gtb p f64_zero = true ->
  f64_nonneg (f64_ceil (f64_div (f64_mul (f64_of_int n) p) (f64_of_int d))).
Proof.
  intros Hn Hd Hp.
  destruct (f64_of_int_exact n Hn) as (mn & en & -> & _).
  destruct (f64_of_int_exact d Hd) as (md & ed & -> & _).
  assert (Hprod : f64_nonneg (f64_mul (S754_finite false mn en) p)).
  { destruct p as [s|s| |s m e]; try done.
    - by destruct s.
    - destruct s.
      + unfold f64_gtb in Hp. simpl in Hp. unfold compare_exact, signed_mantissa, cond_Zopp in Hp.
        destruct (_ ?= _) eqn:Hc in Hp; [done..|]. rewrite Z.compare_gt_iff in Hc.
        pose proof (Z.pow_pos_nonneg 2 (e - Z.min e 0)). lia.
      + apply binary_round_aux_nonneg. lia. }
  destruct (f64_mul _ p) as [s|s| |s m e]; try done.
  - by destruct s.
  - destruct s; [done|]. unfold f64_div, SFdiv.
    destruct (SFdiv_core_binary _ _ _ _ _ _) as [[q e'] l] eqn:Hq.
    apply SFdiv_core_nonneg in Hq; [|lia..].
    pose proof (binary_round_aux_nonneg q e' l Hq) as Hr. simpl xorb.
    destruct (binary_round_aux _ _ false q e' l) as [s|s| |s m' e'']; try done.
    destruct s; [done|]. unfold f64_ceil. destruct (Z.leb_spec 0 e''); [done|].
    apply binary_normalize_nonneg. unfold signed_mantissa, cond_Zopp.
    apply Z.opp_nonneg_nonpos, Z.div_le_upper_bound; [apply Z.pow_pos_nonneg; lia|lia].
Qed.
