(* ===== verification/Breaker.v ===== *)
(** * The sliding-window circuit breaker of fault-quarantine

    Models [fault-quarantine/pkg/breaker]: the configuration and its
    validation, the ring buffer of one-second buckets with its two node
    indexes, the two threshold resolutions in binary64 arithmetic, the trip
    decision and the persisted CLOSED/TRIPPED latch.  The Kubernetes client
    is the interface [K8sClientOperations], an argument of every operation
    that calls it; every method reads the clock once, as its argument [now]. *)

From stdpp Require Import gmap strings list fin_maps.
From Stdlib Require Import ZArith Lia SpecFloat.
From S2P Require Import Prelude GoFloat.

Open Scope Z_scope.

Abbreviation State := string (only parsing).
Abbreviation CursorMode := string (only parsing).
Abbreviation Bound := string (only parsing).

Definition StateClosed : State := "CLOSED".
Definition StateTripped : State := "TRIPPED".

(** The client of the breaker; [W] is the state of the cluster it talks to. *)
Class K8sClientOperations (W : Type) := {
  GetTotalNodes : W -> result Z * W;
  GetCordonedNodes : W -> result Z * W;
  EnsureCircuitBreakerConfigMap : string -> string -> State -> W -> option error * W;
  ReadCircuitBreakerState : string -> string -> W -> result State * W;
  WriteCircuitBreakerState : string -> string -> State -> W -> option error * W;
  ReadCursorMode : string -> string -> W -> result CursorMode * W;
  WriteCursorMode : string -> string -> CursorMode -> W -> option error * W;
}.

Record Config := {
  Window : Z;
  TripPercentage : float64;
  TripMaxNodes : Z;
  TripMaxCordonedNodes : Z;
  TripMaxCordonedPercentage : float64;
  ConfigMapName : string;
  ConfigMapNamespace : string;
}.

Definition validatePercentageBound (name : string) (percentage : float64) : option error :=
  if f64_is_nan percentage || f64_is_inf percentage
  then Some ("circuit breaker " +:+ name +:+ " must be a finite number")
  else if f64_ltb percentage f64_zero
  then Some ("circuit breaker " +:+ name +:+ " must not be negative")
  else None.

Definition validateBounds (c : Config) : option error :=
  match validatePercentageBound "percentage" (TripPercentage c) with
  | Some e => Some e
  | None =>
  match validatePercentageBound "maxCordonedPercentage" (TripMaxCordonedPercentage c) with
  | Some e => Some e
  | None =>
    if TripMaxNodes c <? 0 then Some "circuit breaker maxNodes must not be negative"
    else if TripMaxCordonedNodes c <? 0
    then Some "circuit breaker maxCordonedNodes must not be negative"
    else if f64_eqb (TripPercentage c) f64_zero && (TripMaxNodes c =? 0)
            && (TripMaxCordonedNodes c =? 0)
            && f64_eqb (TripMaxCordonedPercentage c) f64_zero
    then Some "circuit breaker requires percentage, maxNodes, maxCordonedNodes or maxCordonedPercentage to be set to a positive value"
    else None
  end
  end.

(** [indexToNodes] holds sets: the values of the inner Go maps are always
    [true] and only membership is read. *)
Record slidingWindowBreaker := {
  cfg : Config;
  bucketSize : Z;
  buckets : list Z;
  startTime : Z;
  nodeToIndex : gmap string Z;
  indexToNodes : gmap Z (gset string);
  state : State;
}.

Definition with_window (b : slidingWindowBreaker) bk st n2i i2n : slidingWindowBreaker :=
  {| cfg := cfg b; bucketSize := bucketSize b; buckets := bk; startTime := st;
     nodeToIndex := n2i; indexToNodes := i2n; state := state b |}.

Definition with_state (b : slidingWindowBreaker) (s : State) : slidingWindowBreaker :=
  {| cfg := cfg b; bucketSize := bucketSize b; buckets := buckets b; startTime := startTime b;
     nodeToIndex := nodeToIndex b; indexToNodes := indexToNodes b; state := s |}.

Definition lenZ {A} (l : list A) : Z := Z.of_nat (length l).

(** ** The window *)

(** [for nodeName := range expired { delete(m, nodeName) }] *)
Definition delete_nodes (expired : gset string) (m : gmap string Z) : gmap string Z :=
  foldr delete m (elements expired).

(** [for i := range n { m[i] = m[i+1] }]; a missing source key leaves the
    target key without a set. *)
Definition shift_index (n : Z) (m : gmap Z (gset string)) : gmap Z (gset string) :=
  foldl (fun acc i => partial_alter (fun _ => acc !! (i + 1)) i acc) m (seqZ 0 n).

(** One iteration of the stepping loop of [slideWindow]. *)
Definition slide_step (b : slidingWindowBreaker) : slidingWindowBreaker :=
  let n2i :=
    match indexToNodes b !! 0 with
    | Some expired => delete_nodes expired (nodeToIndex b)
    | None => nodeToIndex b
    end in
  let bk := drop 1 (buckets b) ++ [0] in
  let last := Z.of_nat (size (indexToNodes b)) - 1 in
  let i2n := <[last := ∅]> (shift_index last (indexToNodes b)) in
  with_window b bk (startTime b + bucketSize b) ((fun i => i - 1) <$> n2i) i2n.

Definition slideWindow (now : Z) (b : slidingWindowBreaker) : slidingWindowBreaker :=
  let elapsed := time_sub now (startTime b) in
  if elapsed <=? 0 then b
  else
    let steps := Z.quot elapsed (bucketSize b) in
    if lenZ (buckets b) <=? steps
    then with_window b (replicate (length (buckets b)) 0) (time_truncate now (bucketSize b))
           ∅ ((fun _ => ∅) <$> indexToNodes b)
    else Nat.iter (Z.to_nat steps) slide_step b.

(** [AddCordonEvent]; [None] is a panic: an index out of range of [buckets],
    or a write to the missing set of the current bucket. *)
Definition AddCordonEvent (now : Z) (nodeName : string) (b0 : slidingWindowBreaker)
  : option slidingWindowBreaker :=
  let b := slideWindow now b0 in
  let cur := lenZ (buckets b) - 1 in
  let removed :=
    match nodeToIndex b !! nodeName with
    | Some oldIndex =>
        match indexToNodes b !! oldIndex with
        | Some old =>
            if 0 <=? oldIndex then
              match buckets b !! Z.to_nat oldIndex with
              | Some c => Some (<[Z.to_nat oldIndex := c - 1]> (buckets b),
                                <[oldIndex := old ∖ {[nodeName]}]> (indexToNodes b))
              | None => None
              end
            else None
        | None => Some (buckets b, indexToNodes b)
        end
    | None => Some (buckets b, indexToNodes b)
    end in
  '(bk, i2n) ← removed;
  s ← i2n !! cur;
  if 0 <=? cur then
    c ← bk !! Z.to_nat cur;
    Some (with_window b (<[Z.to_nat cur := c + 1]> bk) (startTime b)
            (<[nodeName := cur]> (nodeToIndex b)) (<[cur := {[nodeName]} ∪ s]> i2n))
  else None.

Definition sumBuckets (b : slidingWindowBreaker) : Z := foldl Z.add 0 (buckets b).

(** ** Thresholds *)

Definition boundNone : Bound := "".
Definition boundPercentage : Bound := "percentage".
Definition boundMaxNodes : Bound := "maxNodes".
Definition boundFleetSize : Bound := "fleetSize".
Definition boundMaxCordonedNodes : Bound := "maxCordonedNodes".
Definition boundMaxCordonedPercentage : Bound := "maxCordonedPercentage".

Definition resolveThreshold (totalNodes : Z) (percentage : float64) (percentageBound : Bound)
    (maxNodes : Z) (maxNodesBound : Bound) : Z * Bound :=
  let '(threshold, bound) :=
    if f64_gtb percentage f64_zero then
      let scaled := f64_ceil (f64_div (f64_mul (f64_of_int totalNodes) percentage)
                                      (f64_of_int 100)) in
      if f64_gtb scaled (f64_of_int totalNodes) then (totalNodes, boundFleetSize)
      else (f64_to_int scaled, percentageBound)
    else (0, boundNone) in
  if (0 <? maxNodes) && ((threshold =? 0) || (maxNodes <? threshold))
  then (maxNodes, maxNodesBound)
  else (threshold, bound).

Definition tripThreshold (b : slidingWindowBreaker) (totalNodes : Z) : Z * Bound :=
  let '(threshold, bound) :=
    resolveThreshold totalNodes (TripPercentage (cfg b)) boundPercentage
      (TripMaxNodes (cfg b)) boundMaxNodes in
  if totalNodes <? threshold then (totalNodes, boundFleetSize) else (threshold, bound).

Definition standingThreshold (b : slidingWindowBreaker) (totalNodes : Z) : Z * Bound :=
  resolveThreshold totalNodes (TripMaxCordonedPercentage (cfg b)) boundMaxCordonedPercentage
    (TripMaxCordonedNodes (cfg b)) boundMaxCordonedNodes.

(** ** Operations that talk to the cluster *)

Section Operations.
Context {W : Type} `{K8s : !K8sClientOperations W}.

Definition standingBoundReached (threshold : Z) (bound : Bound) (w : W)
  : (Z * bool * option error) * W :=
  if (bound ==s boundNone) then ((-1, false, None), w)
  else
    match GetCordonedNodes w with
    | (Ok cordonedNodes, w') => ((cordonedNodes, threshold <=? cordonedNodes, None), w')
    | (Err e, w') => ((-1, false, Some (wrapf "failed to get cordoned node count" e)), w')
    end.

Definition ForceState (s : State) (b : slidingWindowBreaker) (w : W)
  : option error * slidingWindowBreaker * W :=
  let b' := with_state b s in
  match WriteCircuitBreakerState (ConfigMapName (cfg b)) (ConfigMapNamespace (cfg b)) s w with
  | (Some e, w') => (Some (wrapf "error writing circuit breaker state" e), b', w')
  | (None, w') => (None, b', w')
  end.

Definition CurrentState (b : slidingWindowBreaker) : State := state b.

Definition GetCursorMode (b : slidingWindowBreaker) (w : W) : result CursorMode * W :=
  ReadCursorMode (ConfigMapName (cfg b)) (ConfigMapNamespace (cfg b)) w.

Definition SetCursorMode (mode : CursorMode) (b : slidingWindowBreaker) (w : W)
  : option error * W :=
  WriteCursorMode (ConfigMapName (cfg b)) (ConfigMapNamespace (cfg b)) mode w.

Definition getTotalNodes (w : W) : result Z * W :=
  match GetTotalNodes w with
  | (Err e, w') => (Err (wrapf "GetTotalNodes failed" e), w')
  | r => r
  end.

(** Trip and persist: the common tail of the two trip decisions. *)
Definition trip (b : slidingWindowBreaker) (w : W)
  : (bool * option error) * slidingWindowBreaker * W :=
  match ForceState StateTripped b w with
  | (Some e, b', w') =>
      ((true, Some (wrapf "error forcing circuit breaker state to TRIPPED" e)), b', w')
  | (None, b', w') => ((true, None), b', w')
  end.

Definition isTrippedByRecentCordons (now : Z) (b : slidingWindowBreaker) (w : W)
  : (bool * option error) * slidingWindowBreaker * W :=
  let b1 := slideWindow now b in
  if sumBuckets b1 =? 0 then ((false, None), b1, w) else trip b1 w.

(** One step here.  The code holds the lock while the window slides and is summed,
    and not around the calls of the client, so a cordon recorded meanwhile counts for
    this check or for the next. *)
Definition IsTripped (now : Z) (b : slidingWindowBreaker) (w : W)
  : (bool * option error) * slidingWindowBreaker * W :=
  if (state b ==s StateTripped) then ((true, None), b, w)
  else
    match getTotalNodes w with
    | (Err e, w1) => ((false, Some (wrapf "failed to get total nodes" e)), b, w1)
    | (Ok totalNodes, w1) =>
      if totalNodes =? 0 then isTrippedByRecentCordons now b w1
      else
        let b1 := slideWindow now b in
        let recentCordonedNodes := sumBuckets b1 in
        let '(threshold, bindingBound) := tripThreshold b1 totalNodes in
        if (bindingBound <>s boundNone) && (threshold <=? recentCordonedNodes)
        then trip b1 w1
        else
          let '(standingLimit, standingBound) := standingThreshold b1 totalNodes in
          match standingBoundReached standingLimit standingBound w1 with
          | ((_, _, Some e), w2) => ((false, Some e), b1, w2)
          | ((_, true, None), w2) => trip b1 w2
          | ((_, false, None), w2) => ((false, None), b1, w2)
          end
    end.

(** The ring for [numBuckets] buckets, every index with an empty set. *)
Definition empty_index (numBuckets : Z) : gmap Z (gset string) :=
  foldl (fun m i => <[i := ∅]> m) ∅ (seqZ 0 numBuckets).

Definition NewSlidingWindowBreaker (now : Z) (c : Config) (w : W)
  : option (result slidingWindowBreaker) * W :=
  match validateBounds c with
  | Some e => (Some (Err (wrapf "validate circuit breaker bounds" e)), w)
  | None =>
    if Window c <=? 0 then (Some (Err "circuit breaker window must be a positive duration"), w)
    else
      let numBuckets := Z.quot (wrap_int64 (wrap_int64 (Window c + Second) - 1)) Second in
      if numBuckets <? 0 then (None, w)
      else
        let b := {| cfg := c; bucketSize := Second; buckets := replicate (Z.to_nat numBuckets) 0;
                    startTime := now; nodeToIndex := ∅; indexToNodes := empty_index numBuckets;
                    state := StateClosed |} in
        match EnsureCircuitBreakerConfigMap (ConfigMapName c) (ConfigMapNamespace c)
                StateClosed w with
        | (Some e, w1) => (Some (Err (wrapf "error ensuring circuit breaker config map" e)), w1)
        | (None, w1) =>
          match ReadCircuitBreakerState (ConfigMapName c) (ConfigMapNamespace c) w1 with
          | (Ok s, w2) =>
              if (s ==s StateClosed) || (s ==s StateTripped)
              then (Some (Ok (with_state b s)), w2) else (Some (Ok b), w2)
          | (Err _, w2) => (Some (Ok b), w2)
          end
        end
  end.

End Operations.

(** ** Invariant of the ring *)

(** The three views of the window agree: [n] buckets, one set per bucket,
    each node in at most one set and indexed there, each count the size of
    its set. *)
Record window_wf (b : slidingWindowBreaker) : Prop := {
  wf_size : bucketSize b = Second;
  wf_len : 0 < lenZ (buckets b);
  wf_range : lenZ (buckets b) * Second <= max_int64;
  wf_dom : dom (indexToNodes b) = list_to_set (seqZ 0 (lenZ (buckets b)));
  wf_index : forall node i, nodeToIndex b !! node = Some i <->
               exists s, indexToNodes b !! i = Some s /\ node ∈ s;
  wf_count : forall i s, indexToNodes b !! i = Some s ->
               buckets b !! Z.to_nat i = Some (Z.of_nat (size s));
}.

Lemma wf_present b i :
  window_wf b -> 0 <= i < lenZ (buckets b) <-> is_Some (indexToNodes b !! i).
Proof.
  intros H. rewrite <- elem_of_dom, (wf_dom b H), elem_of_list_to_set, elem_of_seqZ. lia.
Qed.

Lemma wf_index_range b node i :
  window_wf b -> nodeToIndex b !! node = Some i -> 0 <= i < lenZ (buckets b).
Proof.
  intros H Hn. apply (wf_index b H) in Hn as (s & Hs & _).
  apply (wf_present b i H). eauto.
Qed.

Lemma wf_index_size b : window_wf b -> Z.of_nat (size (indexToNodes b)) = lenZ (buckets b).
Proof.
  intros H. rewrite <- size_dom, (wf_dom b H), size_list_to_set by apply NoDup_seqZ.
  rewrite length_seqZ. pose proof (wf_len b H). lia.
Qed.

Lemma lookup_shift_index n m i :
  0 <= n -> shift_index n m !! i = if decide (0 <= i < n) then m !! (i + 1) else m !! i.
Proof.
  intros Hn. unfold shift_index.
  assert (Hgen : forall k a (m : gmap Z (gset string)), foldl (fun acc i => partial_alter (fun _ => acc !! (i + 1)) i acc)
              m (seqZ a (Z.of_nat k)) !! i
            = if decide (a <= i < a + Z.of_nat k) then m !! (i + 1) else m !! i).
  { clear n m Hn. induction k as [|k IH]; intros a m.
    { rewrite seqZ_nil by lia. simpl. by rewrite decide_False by lia. }
    rewrite seqZ_cons by lia. simpl foldl.
    replace (Z.pred (Z.of_nat (S k))) with (Z.of_nat k) by lia.
    replace (Z.succ a) with (a + 1) by lia. rewrite IH.
    destruct (decide (i = a)) as [->|Hne].
    - rewrite decide_False, decide_True by lia. by rewrite lookup_partial_alter_eq.
    - repeat case_decide; try lia; by rewrite lookup_partial_alter_ne by lia. }
  rewrite <- (Z2Nat.id n Hn) at 1. rewrite Hgen, Z2Nat.id by done. done.
Qed.

Lemma lookup_delete_nodes expired m node :
  delete_nodes expired m !! node = if decide (node ∈ expired) then None else m !! node.
Proof.
  unfold delete_nodes. case_decide as Hin.
  - apply lookup_foldr_delete. by apply elem_of_elements.
  - apply lookup_foldr_delete_not_elem_of. by rewrite elem_of_elements.
Qed.

Lemma lenZ_slide_step b : window_wf b -> lenZ (buckets (slide_step b)) = lenZ (buckets b).
Proof.
  intros H. pose proof (wf_len b H). unfold lenZ in *. simpl.
  rewrite length_app, length_drop. simpl. lia.
Qed.

(** After a step the set of index [i] is the former set of index [i + 1]. *)
Lemma lookup_index_step b i :
  window_wf b ->
  indexToNodes (slide_step b) !! i
  = if decide (i = lenZ (buckets b) - 1) then Some ∅
    else if decide (0 <= i < lenZ (buckets b)) then indexToNodes b !! (i + 1) else None.
Proof.
  intros H. simpl. rewrite (wf_index_size b H). pose proof (wf_len b H).
  rewrite lookup_insert. case_decide; case_decide; try lia; [done|].
  rewrite lookup_shift_index by lia. repeat case_decide; try lia; [done|].
  apply eq_None_not_Some. rewrite <- (wf_present b i H). lia.
Qed.

Lemma lookup_node_step b node :
  window_wf b ->
  nodeToIndex (slide_step b) !! node
  = i ← nodeToIndex b !! node; if i =? 0 then None else Some (i - 1).
Proof.
  intros H. simpl. rewrite lookup_fmap.
  destruct (proj1 (wf_present b 0 H)) as [s Hs]; [pose proof (wf_len b H); lia|].
  rewrite Hs, lookup_delete_nodes. case_decide as Hin.
  - assert (Hn : nodeToIndex b !! node = Some 0) by (apply (wf_index b H); eauto).
    by rewrite Hn.
  - destruct (nodeToIndex b !! node) as [i|] eqn:Hn; simpl; [|done].
    destruct (Z.eqb_spec i 0) as [->|]; [|done].
    apply (wf_index b H) in Hn as (s' & Hs' & ?). by simplify_eq.
Qed.

Lemma slide_step_wf b : window_wf b -> window_wf (slide_step b).
Proof.
  intros H. pose proof (wf_len b H) as Hl. pose proof (lenZ_slide_step b H) as He.
  split.
  - apply (wf_size b H).
  - by rewrite He.
  - rewrite He. apply (wf_range b H).
  - apply set_eq. intros i. rewrite elem_of_dom, He, elem_of_list_to_set, elem_of_seqZ.
    rewrite lookup_index_step by done. repeat case_decide; try (split; [eauto; lia|eauto]).
    + rewrite <- (wf_present b _ H). lia.
    + split; [intros [? ?]; done|lia].
  - intros node i. rewrite lookup_node_step, lookup_index_step by done. split.
    + intros Hi. destruct (nodeToIndex b !! node) as [j|] eqn:Hj; simpl in Hi; [|done].
      pose proof (wf_index_range b _ _ H Hj).
      destruct (Z.eqb_spec j 0); simplify_eq.
      rewrite decide_False, decide_True by lia.
      replace (j - 1 + 1) with j by lia. by apply (wf_index b H).
    + intros (s & Hs & Hin). case_decide; [simplify_eq; set_solver|]. case_decide; [|done].
      assert (Hj : nodeToIndex b !! node = Some (i + 1)) by (apply (wf_index b H); eauto).
      rewrite Hj. simpl. destruct (Z.eqb_spec (i + 1) 0); [lia|]. f_equal. lia.
  - intros i s. rewrite lookup_index_step by done.
    replace (buckets (slide_step b)) with (drop 1 (buckets b) ++ [0]) by done.
    unfold lenZ in *.
    case_decide as Hi.
    + intros [= <-]. rewrite size_empty, lookup_app_r by (rewrite length_drop; lia).
      rewrite length_drop. by replace (Z.to_nat i - (length (buckets b) - 1))%nat with 0%nat by lia.
    + case_decide; [|done]. intros Hs. apply (wf_count b H) in Hs.
      rewrite lookup_app_l by (rewrite length_drop; lia).
      rewrite lookup_drop. by replace (1 + Z.to_nat i)%nat with (Z.to_nat (i + 1)) by lia.
Qed.

Lemma iter_slide_wf k b :
  window_wf b -> window_wf (Nat.iter k slide_step b) /\
                 lenZ (buckets (Nat.iter k slide_step b)) = lenZ (buckets b).
Proof.
  intros H. induction k as [|k [IHw IHl]]; [done|].
  change (Nat.iter (S k) slide_step b) with (slide_step (Nat.iter k slide_step b)).
  split; [by apply slide_step_wf|]. by rewrite lenZ_slide_step.
Qed.

Lemma slideWindow_wf now b :
  window_wf b -> window_wf (slideWindow now b) /\
                 lenZ (buckets (slideWindow now b)) = lenZ (buckets b).
Proof.
  intros H. unfold slideWindow. case_match; [done|]. case_match; [|by apply iter_slide_wf].
  assert (Hl : lenZ (replicate (length (buckets b)) 0) = lenZ (buckets b)).
  { unfold lenZ. by rewrite length_replicate. }
  split; [|done]. split; simpl; rewrite ?Hl.
  - apply (wf_size b H).
  - apply (wf_len b H).
  - apply (wf_range b H).
  - by rewrite dom_fmap_L, (wf_dom b H).
  - intros node i. rewrite lookup_empty, lookup_fmap. split; [done|].
    intros (s & Hs & Hin). destruct (indexToNodes b !! i); simplify_eq/=. set_solver.
  - intros i s. rewrite lookup_fmap. intros Hs.
    destruct (indexToNodes b !! i) as [s'|] eqn:Hi; simplify_eq/=.
    assert (Hr : 0 <= i < lenZ (buckets b)) by (apply (wf_present b i H); eauto).
    apply lookup_replicate_2. unfold lenZ in Hr. lia.
Qed.

#[export] Hint Resolve slide_step_wf : nvs.

(** Replacing the set of one bucket, with its count and its nodes' indexes. *)
Lemma replace_set_wf b i s' n2i' :
  window_wf b -> 0 <= i < lenZ (buckets b) ->
  (forall x j, n2i' !! x = Some j <-> (j = i /\ x ∈ s') \/ (j <> i /\ nodeToIndex b !! x = Some j)) ->
  window_wf (with_window b (<[Z.to_nat i := Z.of_nat (size s')]> (buckets b)) (startTime b)
               n2i' (<[i := s']> (indexToNodes b))).
Proof.
  intros H Hi Hn.
  assert (Hlen : lenZ (<[Z.to_nat i:=Z.of_nat (size s')]> (buckets b)) = lenZ (buckets b)).
  { unfold lenZ. by rewrite length_insert. }
  split; simpl; rewrite ?Hlen; try apply H.
  - rewrite dom_insert_L, (wf_dom b H). apply set_eq. intros j.
    rewrite elem_of_union, elem_of_singleton, elem_of_list_to_set, elem_of_seqZ. lia.
  - intros x j. rewrite Hn, lookup_insert, (wf_index b H). case_decide; naive_solver.
  - intros j s. rewrite lookup_insert. case_decide as Hj.
    + intros [= <-]. subst. apply list_lookup_insert_eq. unfold lenZ in Hi. lia.
    + intros Hs. assert (0 <= j < lenZ (buckets b)) by (apply (wf_present b j H); eauto).
      rewrite list_lookup_insert_ne by lia. by apply (wf_count b H).
Qed.

Lemma set_remove_size (s : gset string) x :
  x ∈ s -> Z.of_nat (size (s ∖ {[x]})) = Z.of_nat (size s) - 1.
Proof.
  intros Hin. rewrite size_difference by set_solver. rewrite size_singleton.
  assert (size s ≠ 0)%nat by (intros Hz; apply size_empty_inv in Hz; set_solver). lia.
Qed.

Lemma set_add_size (s : gset string) x :
  x ∉ s -> Z.of_nat (size ({[x]} ∪ s)) = Z.of_nat (size s) + 1.
Proof. intros Hin. rewrite size_union by set_solver. rewrite size_singleton. lia. Qed.

(** Taking a node out of the bucket that holds it. *)
Lemma forget_wf b node old so :
  window_wf b -> nodeToIndex b !! node = Some old -> indexToNodes b !! old = Some so ->
  window_wf (with_window b (<[Z.to_nat old := Z.of_nat (size so) - 1]> (buckets b)) (startTime b)
               (delete node (nodeToIndex b)) (<[old := so ∖ {[node]}]> (indexToNodes b))).
Proof.
  intros H Hn Hso. assert (Hin : node ∈ so).
  { apply (wf_index b H) in Hn as (s & ? & ?). by simplify_eq. }
  rewrite <- (set_remove_size so node Hin). apply replace_set_wf; [done|by eapply wf_index_range|].
  intros x j. rewrite lookup_delete. case_decide as Hx.
  - subst. split; [done|]. intros [[_ ?]|[? ?]]; [set_solver|congruence].
  - rewrite (wf_index b H). split.
    + intros (s & Hs & ?). destruct (decide (j = old)) as [->|]; [left|right; eauto].
      simplify_eq. set_solver.
    + intros [[-> ?]|[? ?]]; [exists so; set_solver|done].
Qed.

(** Putting a node that is nowhere into bucket [cur]. *)
Lemma enroll_wf b node cur s :
  window_wf b -> nodeToIndex b !! node = None -> indexToNodes b !! cur = Some s ->
  window_wf (with_window b (<[Z.to_nat cur := Z.of_nat (size s) + 1]> (buckets b)) (startTime b)
               (<[node := cur]> (nodeToIndex b)) (<[cur := {[node]} ∪ s]> (indexToNodes b))).
Proof.
  intros H Hn Hs. assert (Hin : node ∉ s).
  { intros Hin. enough (nodeToIndex b !! node = Some cur) by congruence.
    apply (wf_index b H). eauto. }
  rewrite <- (set_add_size s node Hin).
  apply replace_set_wf; [done|apply (wf_present b cur H); eauto|].
  intros x j. rewrite lookup_insert. case_decide as Hx.
  - subst. rewrite Hn. set_solver.
  - rewrite (wf_index b H). split.
    + intros (s' & Hs' & ?). destruct (decide (j = cur)) as [->|]; [left|right; eauto].
      simplify_eq. set_solver.
    + intros [[-> ?]|[? ?]]; [exists s; set_solver|done].
Qed.

(** [AddCordonEvent] never panics on a well-formed ring; it slides the window
    and moves the node to the current bucket. *)
Lemma AddCordonEvent_spec now node b :
  window_wf b ->
  exists b', AddCordonEvent now node b = Some b' /\ window_wf b' /\
    state b' = state (slideWindow now b) /\
    startTime b' = startTime (slideWindow now b) /\
    lenZ (buckets b') = lenZ (buckets b) /\
    nodeToIndex b' = <[node := lenZ (buckets b) - 1]> (nodeToIndex (slideWindow now b)).
Proof.
  intros H0. destruct (slideWindow_wf now b H0) as [H Hlen].
  unfold AddCordonEvent. set (b1 := slideWindow now b) in *. clearbody b1.
  rewrite <- Hlen. clear Hlen H0 b. rename b1 into b.
  pose proof (wf_len b H) as Hl. set (cur := lenZ (buckets b) - 1).
  destruct (nodeToIndex b !! node) as [old|] eqn:Hn.
  - pose proof (proj1 (wf_index b H node old) Hn) as (so & Hso & Hin).
    pose proof (forget_wf b node old so H Hn Hso) as Hf. set (b2 := with_window _ _ _ _ _) in Hf.
    assert (Hlen2 : lenZ (buckets b2) = lenZ (buckets b)).
    { unfold lenZ. simpl. by rewrite length_insert. }
    destruct (proj1 (wf_present b2 cur Hf)) as [s Hs]; [lia|].
    pose proof (wf_count b2 Hf cur s Hs) as Hc.
    assert (Hnone : nodeToIndex b2 !! node = None) by (apply lookup_delete_eq).
    pose proof (enroll_wf b2 node cur s Hf Hnone Hs) as Hw.
    rewrite Hso, (wf_count b H old so Hso).
    pose proof (wf_index_range b _ _ H Hn). destruct (Z.leb_spec 0 old); [|lia].
    simpl. simpl in Hs, Hc. rewrite Hs. simpl. destruct (Z.leb_spec 0 cur); [|lia].
    rewrite Hc. simpl. eexists. split; [done|]. simpl in Hw. rewrite insert_delete_eq in Hw.
    split_and!; [done..| |done]. unfold lenZ. simpl. by rewrite !length_insert.
  - destruct (proj1 (wf_present b cur H)) as [s Hs]; [lia|].
    pose proof (enroll_wf b node cur s H Hn Hs) as Hw.
    simpl. rewrite Hs. simpl. destruct (Z.leb_spec 0 cur); [|lia].
    rewrite (wf_count b H cur s Hs). simpl. eexists. split; [done|].
    split_and!; [done..| |done]. unfold lenZ. simpl. by rewrite !length_insert.
Qed.

(** ** The window as a set of nodes

    The count the trip decision uses is the number of distinct nodes the ring
    holds. *)

Lemma foldl_add_acc (l : list Z) a : foldl Z.add a l = a + foldr Z.add 0 l.
Proof. revert a. induction l as [|x l IH]; intros a; simpl; [lia|]. rewrite IH. lia. Qed.

Lemma foldr_add_app (l k : list Z) : foldr Z.add 0 (l ++ k) = foldr Z.add 0 l + foldr Z.add 0 k.
Proof. induction l as [|x l IH]; simpl; [done|]. rewrite IH. lia. Qed.

Lemma bucket_prefix_count b k :
  window_wf b -> (k <= length (buckets b))%nat ->
  foldr Z.add 0 (take k (buckets b))
  = Z.of_nat (size (filter (fun '(_, i) => i < Z.of_nat k) (nodeToIndex b))).
Proof.
  intros H. induction k as [|k IH]; intros Hk.
  { rewrite map_filter_none; [done|].
    intros node i Hn Hi. apply wf_index_range in Hn; [lia|done]. }
  destruct (lookup_lt_is_Some_2 (buckets b) k) as [c Hc]; [lia|].
  rewrite (take_S_r _ _ c) by done. rewrite foldr_add_app, IH by lia. simpl.
  destruct (proj1 (wf_present b (Z.of_nat k) H)) as [s Hs]; [unfold lenZ; lia|].
  pose proof (wf_count b H _ s Hs) as Hcs. rewrite Nat2Z.id in Hcs. simplify_eq.
  set (m := nodeToIndex b).
  assert (Hsplit : filter (fun '(_, i) => i < Z.of_nat (S k)) m
    = filter (fun '(_, i) => i < Z.of_nat k) m ∪ filter (fun '(_, i) => i = Z.of_nat k) m).
  { apply map_eq. intros x. apply option_eq. intros i.
    rewrite lookup_union_Some; [|apply map_disjoint_spec].
    - rewrite !map_lookup_filter_Some. split.
      + intros [? ?]. destruct (Z.lt_ge_cases i (Z.of_nat k)); [left|right]; (split; [done|lia]).
      + intros [[? ?]|[? ?]]; (split; [done|lia]).
    - intros y i1 i2 [? ?]%map_lookup_filter_Some [? ?]%map_lookup_filter_Some. simplify_eq. lia. }
  assert (Hdom : dom (filter (fun '(_, i) => i = Z.of_nat k) m) = s).
  { apply set_eq. intros x. rewrite elem_of_dom. split.
    - intros [i [Hx ->]%map_lookup_filter_Some]. apply (wf_index b H) in Hx as (s' & ? & ?).
      by simplify_eq.
    - intros Hx. exists (Z.of_nat k). apply map_lookup_filter_Some. split; [|done].
      apply (wf_index b H). eauto. }
  rewrite Hsplit, map_size_disj_union; [rewrite <- Hdom, size_dom; lia|].
  apply map_disjoint_spec. intros y i1 i2 [? ?]%map_lookup_filter_Some [? ?]%map_lookup_filter_Some.
  simplify_eq. lia.
Qed.

Lemma sumBuckets_distinct b :
  window_wf b -> sumBuckets b = Z.of_nat (size (nodeToIndex b)).
Proof.
  intros H. unfold sumBuckets. rewrite foldl_add_acc, Z.add_0_l.
  rewrite <- (take_ge (buckets b) (length (buckets b))) at 1 by lia.
  rewrite bucket_prefix_count by done. do 2 f_equal.
  apply map_filter_id. intros x i Hx. apply wf_index_range in Hx; [|done]. unfold lenZ in Hx. lia.
Qed.

(** ** Abstract specification of the window

    A clock anchor and, for every node, the anchor at its last cordon.  A
    node leaves the window when its anchor is a whole window old. *)

Record window_spec := { anchor : Z; last_slot : gmap string Z }.

Definition spec_slide (n now : Z) (s : window_spec) : window_spec :=
  if now <=? anchor s then s
  else {| anchor := if n * Second <=? now - anchor s then time_truncate now Second
                    else anchor s + (now - anchor s) / Second * Second;
          last_slot := filter (fun '(_, t) => now - t < n * Second) (last_slot s) |}.

Definition spec_cordon (n now : Z) (node : string) (s : window_spec) : window_spec :=
  let s' := spec_slide n now s in
  {| anchor := anchor s'; last_slot := <[node := anchor s']> (last_slot s') |}.

(** What a ring stands for: bucket [i] holds the nodes last cordoned while
    the anchor was [n - 1 - i] seconds before the present one. *)
Definition window_abs (b : slidingWindowBreaker) : window_spec :=
  {| anchor := startTime b;
     last_slot := (fun i => startTime b - (lenZ (buckets b) - 1 - i) * Second) <$> nodeToIndex b |}.

Lemma lookup_node_iter k b node :
  window_wf b ->
  nodeToIndex (Nat.iter k slide_step b) !! node
  = i ← nodeToIndex b !! node; if i <? Z.of_nat k then None else Some (i - Z.of_nat k).
Proof.
  intros H. induction k as [|k IH].
  - change (Nat.iter 0 slide_step b) with b. change (Z.of_nat 0) with 0.
    destruct (nodeToIndex b !! node) as [i|] eqn:Hn; cbn [mbind option_bind]; [|done].
    apply wf_index_range in Hn; [|done]. destruct (Z.ltb_spec i 0); [lia|].
    by rewrite Z.sub_0_r.
  - change (Nat.iter (S k) slide_step b) with (slide_step (Nat.iter k slide_step b)).
    rewrite lookup_node_step by (by apply iter_slide_wf). rewrite IH.
    destruct (nodeToIndex b !! node) as [i|] eqn:Hn; simpl; [|done].
    destruct (Z.ltb_spec i (Z.of_nat k)), (Z.ltb_spec i (Z.of_nat (S k))); simpl; try lia; [done| |].
    + by rewrite (proj2 (Z.eqb_eq _ _)) by lia.
    + rewrite (proj2 (Z.eqb_neq _ _)) by lia. f_equal. lia.
Qed.

Lemma startTime_iter k b :
  window_wf b -> startTime (Nat.iter k slide_step b) = startTime b + Z.of_nat k * Second.
Proof.
  intros H. induction k as [|k IH]; [simpl; lia|].
  change (Nat.iter (S k) slide_step b) with (slide_step (Nat.iter k slide_step b)).
  simpl. rewrite IH, (wf_size _ (proj1 (iter_slide_wf k b H))). lia.
Qed.

(** Whether the whole window elapsed is not affected by saturation, *)
Lemma elapsed_full n start now :
  0 < n -> n * Second <= max_int64 ->
  n <= time_sub now start / Second <-> n * Second <= now - start.
Proof.
  intros Hn Hr. pose proof (Z.mul_div_le (time_sub now start) Second) as Hd.
  unfold time_sub, min_int64, max_int64, Second in *. split; intros H; [nia|].
  apply Z.div_le_lower_bound; lia.
Qed.

(** and neither is a partial elapsed time. *)
Lemma elapsed_partial n start now :
  0 < n -> n * Second <= max_int64 -> start < now -> now - start < n * Second ->
  time_sub now start = now - start.
Proof. intros. apply time_sub_exact. unfold in_int64, min_int64. lia. Qed.

(** A slide of fewer than [n] steps drops the nodes whose index is below the
    number of steps and keeps every slot. *)
Lemma slide_partial_slots b q now :
  window_wf b -> 0 <= q < lenZ (buckets b) ->
  0 <= now - startTime b - q * Second < Second ->
  window_abs (Nat.iter (Z.to_nat q) slide_step b)
  = {| anchor := startTime b + q * Second;
       last_slot := filter (fun '(_, t) => now - t < lenZ (buckets b) * Second)
                      (last_slot (window_abs b)) |}.
Proof.
  intros H Hq Hd. destruct (iter_slide_wf (Z.to_nat q) b H) as [_ Hlen].
  unfold window_abs. rewrite startTime_iter, Hlen, Z2Nat.id by (done || lia).
  cbn [last_slot]. set (n := lenZ (buckets b)) in *.
  f_equal. apply map_eq. intros x. rewrite lookup_fmap, lookup_node_iter by done.
  rewrite map_lookup_filter, lookup_fmap, Z2Nat.id by lia.
  destruct (nodeToIndex b !! x) as [i|] eqn:Hi; simpl; [|done].
  apply wf_index_range in Hi; [|done]. fold n in Hi.
  destruct (Z.ltb_spec i q); simpl.
  - rewrite option_guard_False; [done|]. unfold Second in *. lia.
  - rewrite option_guard_True; [simpl; f_equal; unfold Second; lia|]. unfold Second in *. lia.
Qed.

Lemma slideWindow_refines now b :
  window_wf b -> window_abs (slideWindow now b) = spec_slide (lenZ (buckets b)) now (window_abs b).
Proof.
  intros H. pose proof (wf_range b H) as Hr. pose proof (wf_len b H) as Hl.
  unfold slideWindow, spec_slide. cbn [anchor last_slot window_abs].
  destruct (Z.leb_spec now (startTime b)) as [Hle|Hlt].
  { by rewrite (proj2 (Z.leb_le _ _) (proj2 (time_sub_nonpos _ _) Hle)). }
  assert (Hpos : 0 < time_sub now (startTime b)).
  { apply Z.nle_gt. rewrite time_sub_nonpos. lia. }
  rewrite (proj2 (Z.leb_gt _ _) Hpos), (wf_size b H).
  rewrite Z.quot_div_nonneg by (unfold Second; lia).
  pose proof (elapsed_full _ (startTime b) now Hl Hr) as Hfull.
  destruct (Z.leb_spec (lenZ (buckets b)) (time_sub now (startTime b) / Second)) as [Hf|Hp].
  - apply Hfull in Hf as Hge. rewrite (proj2 (Z.leb_le _ _) Hge). unfold window_abs. simpl.
    f_equal. rewrite fmap_empty. symmetry. apply map_filter_none.
    intros x t Hx Ht. rewrite lookup_fmap in Hx.
    destruct (nodeToIndex b !! x) as [i|] eqn:Hi; simplify_eq/=.
    apply wf_index_range in Hi; [|done]. unfold Second in *. lia.
  - assert (Hng : now - startTime b < lenZ (buckets b) * Second) by lia.
    rewrite (proj2 (Z.leb_gt _ _) Hng), (elapsed_partial (lenZ (buckets b))) in * by done.
    pose proof (Z.mod_pos_bound (now - startTime b) Second) as Hm.
    rewrite Z.mod_eq in Hm by (unfold Second; lia).
    apply slide_partial_slots; [done| |unfold Second in *; lia].
    split; [apply Z.div_pos; unfold Second in *; lia|done].
Qed.

Lemma AddCordonEvent_refines now node b :
  window_wf b ->
  exists b', AddCordonEvent now node b = Some b' /\ window_wf b' /\
    lenZ (buckets b') = lenZ (buckets b) /\
    window_abs b' = spec_cordon (lenZ (buckets b)) now node (window_abs b).
Proof.
  intros H. destruct (AddCordonEvent_spec now node b H) as (b' & He & Hw & _ & Hst & Hlen & Hn).
  exists b'. split_and!; try done.
  unfold spec_cordon. rewrite <- slideWindow_refines by done.
  destruct (slideWindow_wf now b H) as [_ Hl].
  unfold window_abs. cbn. rewrite Hst, Hlen, Hn, Hl, fmap_insert. do 2 f_equal. lia.
Qed.

(** ** Histories of cordon events *)

Definition cordon_all (b : slidingWindowBreaker) (tr : list (Z * string))
  : option slidingWindowBreaker :=
  foldl (fun ob '(t, node) => b ← ob; AddCordonEvent t node b) (Some b) tr.

(** Times do not decrease, starting from [t0]. *)
Fixpoint chronological (t0 : Z) (tr : list (Z * string)) : Prop :=
  match tr with
  | [] => True
  | (t, _) :: tr' => t0 <= t /\ chronological t tr'
  end.

Definition last_time (t0 : Z) (tr : list (Z * string)) : Z :=
  foldl (fun _ '(t, _) => t) t0 tr.

Definition last_cordon (tr : list (Z * string)) (node : string) : option Z :=
  foldl (fun o '(t, x) => if decide (x = node) then Some t else o) None tr.

(** How the abstract window relates to a history [tr] read at time [cur]. *)
Definition tracks (n cur : Z) (lc : string -> option Z) (s : window_spec) : Prop :=
  anchor s <= cur /\
  forall node, match lc node, last_slot s !! node with
               | Some t, Some v => v <= t < v + Second
               | Some t, None => (n - 1) * Second < cur - t
               | None, Some _ => False
               | None, None => True
               end.

Lemma spec_slide_anchor n now s :
  anchor s <= now ->
  anchor (spec_slide n now s) <= now < anchor (spec_slide n now s) + Second.
Proof.
  intros Ha. unfold spec_slide. destruct (Z.leb_spec now (anchor s)).
  { unfold Second. lia. }
  cbn [anchor]. destruct (Z.leb_spec (n * Second) (now - anchor s)).
  - apply time_truncate_spec. unfold Second. lia.
  - pose proof (Z.mod_pos_bound (now - anchor s) Second) as Hm.
    rewrite Z.mod_eq in Hm by (unfold Second; lia). unfold Second in *. lia.
Qed.

Lemma spec_slide_tracks n cur now lc s :
  tracks n cur lc s -> cur <= now -> tracks n now lc (spec_slide n now s).
Proof.
  intros [Ha Ht] Hc. split; [apply (spec_slide_anchor n now s); lia|].
  intros node. specialize (Ht node). unfold spec_slide.
  destruct (Z.leb_spec now (anchor s)).
  { destruct (lc node), (last_slot s !! node); try done. lia. }
  cbn. rewrite map_lookup_filter.
  destruct (lc node) as [t|], (last_slot s !! node) as [v|]; simpl; try done; [|lia].
  destruct (decide (now - v < n * Second)).
  - by rewrite option_guard_True.
  - rewrite option_guard_False by done. simpl. unfold Second in *. lia.
Qed.

Lemma spec_cordon_tracks n cur now lc s x :
  tracks n cur lc s -> cur <= now ->
  tracks n now (fun node => if decide (x = node) then Some now else lc node)
    (spec_cordon n now x s).
Proof.
  intros Ht Hc. destruct (spec_slide_tracks n cur now lc s Ht Hc) as [Ha' Ht'].
  pose proof (spec_slide_anchor n now s) as Hs. destruct Ht as [Ha _].
  split; [done|]. intros node. cbn. rewrite lookup_insert.
  case_decide; [apply Hs; lia|apply Ht'].
Qed.

Lemma cordon_all_tracks tr : forall b cur lc,
  window_wf b -> tracks (lenZ (buckets b)) cur lc (window_abs b) -> chronological cur tr ->
  exists b', cordon_all b tr = Some b' /\ window_wf b' /\ lenZ (buckets b') = lenZ (buckets b) /\
    tracks (lenZ (buckets b)) (last_time cur tr)
      (fun node => foldl (fun o '(t, x) => if decide (x = node) then Some t else o) (lc node) tr)
      (window_abs b').
Proof.
  induction tr as [|[t x] tr IH]; intros b cur lc H Ht Hc; simpl in *; [eauto|].
  destruct Hc as [Hc Htr].
  destruct (AddCordonEvent_refines t x b H) as (b1 & He & Hw & Hl & Hab).
  pose proof (spec_cordon_tracks _ _ _ _ _ x Ht Hc) as Hs. rewrite <- Hab, <- Hl in Hs.
  destruct (IH b1 t _ Hw Hs Htr) as (b' & He' & Hw' & Hl' & Hs').
  exists b'. rewrite Hl in *. split_and!; try done.
  unfold cordon_all in *. simpl. by rewrite He.
Qed.

(** C20 (window soundness and completeness).  Replay any chronological history
    of cordon events on a fresh breaker with an [n]-second window and slide to
    a later time [now]: no event panics, the count used by the trip decision
    is the number of distinct nodes the ring holds, every node it holds was
    last cordoned less than [n] seconds before [now], and every node last
    cordoned at most [n - 1] seconds before [now] is held. *)
Theorem breaker_window_counts_recent (b : slidingWindowBreaker) (tr : list (Z * string)) (now : Z)
    (Hwf : window_wf b) (Hfresh : nodeToIndex b = ∅)
    (Hchron : chronological (startTime b) tr) (Hnow : last_time (startTime b) tr <= now) :
  exists b', cordon_all b tr = Some b' /\
    sumBuckets (slideWindow now b') = Z.of_nat (size (nodeToIndex (slideWindow now b'))) /\
    (forall node, node ∈ dom (nodeToIndex (slideWindow now b')) ->
       exists t, last_cordon tr node = Some t /\ now - t < lenZ (buckets b) * Second) /\
    (forall node t, last_cordon tr node = Some t -> now - t <= (lenZ (buckets b) - 1) * Second ->
       node ∈ dom (nodeToIndex (slideWindow now b'))).
Proof.
  assert (Ht : tracks (lenZ (buckets b)) (startTime b) (fun _ => None) (window_abs b)).
  { split; [done|]. intros node. unfold window_abs. simpl. by rewrite Hfresh, fmap_empty. }
  destruct (cordon_all_tracks tr b _ _ Hwf Ht Hchron) as (b' & He & Hw & Hl & Hs).
  exists b'. split; [done|]. split.
  { by apply sumBuckets_distinct, slideWindow_wf. }
  pose proof (spec_slide_tracks _ _ now _ _ Hs Hnow) as [_ Hf].
  pose proof (spec_slide_anchor (lenZ (buckets b)) now (window_abs b')) as Ha.
  destruct (slideWindow_wf now b' Hw) as [Hw2 Hl2].
  rewrite <- Hl, <- slideWindow_refines in Hf, Ha by done. cbn in Hf, Ha.
  split; intros node.
  - intros [i Hi]%elem_of_dom. specialize (Hf node).
    rewrite lookup_fmap, Hi in Hf. simpl in Hf. unfold last_cordon.
    destruct (foldl _ None tr) as [t|]; [|done]. exists t. split; [done|].
    apply wf_index_range in Hi; [|done]. destruct Hs as [Hs _]. simpl in Hs.
    unfold Second in *. lia.
  - intros t Hlc Hage. specialize (Hf node). unfold last_cordon in Hlc. rewrite Hlc in Hf.
    rewrite lookup_fmap in Hf. apply elem_of_dom.
    destruct (nodeToIndex _ !! node) eqn:Hi; simpl in Hf; [done|]. lia.
Qed.

(** ** Thresholds *)

Lemma f64_to_int_fleet x n :
  0 <= n < 2 ^ 53 -> f64_nonneg x -> f64_gtb x (f64_of_int n) = false ->
  0 <= f64_to_int x <= n.
Proof.
  intros Hn Hx Hgt. pose proof (f64_trunc_le x n Hn Hgt) as Hle.
  assert (Hge : 0 <= f64_trunc x).
  { destruct x as [s|s| |s m e]; try done. destruct s; [done|]. by apply f64_trunc_pos. }
  assert (Hfin : f64_to_int x = f64_trunc x); [|lia].
  destruct x as [s|s| |s m e]; try done.
  - exfalso. destruct s; [done|]. unfold f64_gtb in Hgt.
    destruct (Z.eq_dec n 0) as [->|]; [done|].
    destruct (f64_of_int_exact n) as (m & e & Ho & _); [lia|]. by rewrite Ho in Hgt.
  - unfold f64_to_int. unfold min_int64, max_int64.
    rewrite (proj2 (Z.leb_le _ _)), (proj2 (Z.leb_le _ _)) by lia. done.
Qed.

(** What either pair of bounds resolves to: at least zero, at most the fleet
    for the percentage form and at most the absolute bound when there is one;
    no bound exactly when neither is configured. *)
Lemma resolveThreshold_spec n p pb mx mb :
  0 < n < 2 ^ 53 -> 0 <= mx -> pb <> boundNone -> mb <> boundNone ->
  let '(th, bd) := resolveThreshold n p pb mx mb in
  0 <= th <= Z.max n mx /\ (0 < mx -> th <= mx) /\
  (bd = boundNone <-> f64_gtb p f64_zero = false /\ mx = 0) /\
  (bd = boundNone -> th = 0).
Proof.
  intros Hn Hmx Hpb Hmb. unfold resolveThreshold.
  assert (Hfl : boundFleetSize <> boundNone) by done.
  destruct (f64_gtb p f64_zero) eqn:Hp.
  - pose proof (f64_scaled_nonneg n p 100 Hn ltac:(lia) Hp) as Hs.
    set (scaled := f64_ceil _) in *.
    destruct (f64_gtb scaled (f64_of_int n)) eqn:Hgt.
    + destruct (Z.ltb_spec 0 mx), (Z.eqb_spec n 0), (Z.ltb_spec mx n); simpl;
        split_and!; try lia; naive_solver.
    + pose proof (f64_to_int_fleet scaled n ltac:(lia) Hs Hgt).
      destruct (Z.ltb_spec 0 mx), (Z.eqb_spec (f64_to_int scaled) 0),
        (Z.ltb_spec mx (f64_to_int scaled)); simpl; split_and!; try lia; naive_solver.
  - destruct (Z.ltb_spec 0 mx); simpl; split_and!; try lia; naive_solver lia.
Qed.

(** For every GPU node count below
    [2^53] and every valid absolute bound, the recent-cordon threshold
    computed in binary64 lies between 0 and the fleet size and does not exceed
    a configured absolute bound, whatever the percentage (NaN and infinities
    included); it is reported as unbounded exactly when neither window bound
    is configured, and then it is 0. *)
Theorem tripThreshold_bounds (b : slidingWindowBreaker) (totalNodes : Z)
    (Hn : 0 < totalNodes < 2 ^ 53) (Hmx : 0 <= TripMaxNodes (cfg b)) :
  let '(threshold, bound) := tripThreshold b totalNodes in
  0 <= threshold <= totalNodes /\
  (0 < TripMaxNodes (cfg b) -> threshold <= TripMaxNodes (cfg b)) /\
  (bound = boundNone <->
     f64_gtb (TripPercentage (cfg b)) f64_zero = false /\ TripMaxNodes (cfg b) = 0) /\
  (bound = boundNone -> threshold = 0).
Proof.
  pose proof (resolveThreshold_spec totalNodes (TripPercentage (cfg b)) boundPercentage
                (TripMaxNodes (cfg b)) boundMaxNodes Hn Hmx ltac:(done) ltac:(done)) as H.
  unfold tripThreshold. destruct (resolveThreshold _ _ _ _ _) as [th bd].
  destruct H as (H1 & H2 & H3 & H4).
  assert (boundFleetSize <> boundNone) by done.
  destruct (Z.ltb_spec totalNodes th); split_and!; try lia; naive_solver lia.
Qed.

(** ** The trip decision *)

Section Decisions.
Context {W : Type} `{K8s : !K8sClientOperations W}.
Implicit Types (b : slidingWindowBreaker) (w : W).

Lemma cfg_state_iter k b :
  cfg (Nat.iter k slide_step b) = cfg b /\ state (Nat.iter k slide_step b) = state b.
Proof. induction k as [|k [IH1 IH2]]; [done|]. simpl. by rewrite IH1, IH2. Qed.

Lemma slideWindow_frame now b :
  cfg (slideWindow now b) = cfg b /\ state (slideWindow now b) = state b.
Proof. unfold slideWindow. repeat case_match; try done. apply cfg_state_iter. Qed.

Definition tripped_of (r : (bool * option error) * slidingWindowBreaker * W) : bool :=
  fst (fst (fst r)).
Definition breaker_of (r : (bool * option error) * slidingWindowBreaker * W) :
  slidingWindowBreaker := snd (fst r).

Lemma trip_result b w :
  tripped_of (trip b w) = true /\ breaker_of (trip b w) = with_state b StateTripped.
Proof.
  unfold trip, ForceState, tripped_of, breaker_of.
  by destruct (WriteCircuitBreakerState _ _ _ w) as [[e|] w'].
Qed.

(** The reasons to trip of a closed breaker that has slid to the present. *)
Definition window_reason b (totalNodes : Z) : Prop :=
  snd (tripThreshold b totalNodes) <> boundNone /\
  fst (tripThreshold b totalNodes) <= sumBuckets b.
Definition standing_reason b (totalNodes cordoned : Z) : Prop :=
  snd (standingThreshold b totalNodes) <> boundNone /\
  fst (standingThreshold b totalNodes) <= cordoned.

(** A breaker that is not tripped and counts [n > 0] GPU nodes. *)
Lemma IsTripped_counted now b w w1 n
    (Hclosed : state b <> StateTripped) (Hn : GetTotalNodes w = (Ok n, w1)) (Hpos : 0 < n) :
  let b1 := slideWindow now b in
  (window_reason b1 n -> IsTripped now b w = trip b1 w1) /\
  (~ window_reason b1 n -> forall c w2, GetCordonedNodes w1 = (Ok c, w2) ->
     (tripped_of (IsTripped now b w) = true <-> standing_reason b1 n c)) /\
  (~ window_reason b1 n -> snd (standingThreshold b1 n) <> boundNone ->
     forall e w2, GetCordonedNodes w1 = (Err e, w2) ->
     exists e', IsTripped now b w = ((false, Some e'), b1, w2)) /\
  breaker_of (IsTripped now b w)
  = (if tripped_of (IsTripped now b w) then with_state b1 StateTripped else b1).
Proof.
  intros b1. unfold IsTripped, getTotalNodes, window_reason, standing_reason. rewrite Hn.
  rewrite (proj2 (go_eqb_false _ _) Hclosed). cbv iota.
  rewrite (proj2 (Z.eqb_neq n 0)) by lia. fold b1.
  destruct (tripThreshold b1 n) as [th bd]. destruct (standingThreshold b1 n) as [sl sb].
  cbn [fst snd]. unfold standingBoundReached, go_eqb.
  destruct (bool_decide_reflect (bd = boundNone)) as [Hb|Hb];
    [|destruct (Z.leb_spec th (sumBuckets b1)) as [Hth|Hth]].
  2: { cbn. split_and!; try done; [naive_solver lia..|].
       destruct (trip_result b1 w1) as [Ht Hs]. by rewrite Ht, Hs. }
  all: cbn [negb andb]; destruct (bool_decide_reflect (sb = boundNone)) as [Hsb|Hsb].
  all: destruct (GetCordonedNodes w1) as [[c|e] w2]; try destruct (Z.leb_spec sl c).
  all: cbn; split_and!; try done; try naive_solver lia.
  all: try (destruct (trip_result b1 w2) as [Ht Hs]; rewrite Ht, ?Hs).
  all: naive_solver lia.
Qed.

(** When no GPU nodes are counted, a breaker that is not tripped trips exactly when
    the window still holds a cordoned node. *)
Lemma IsTripped_no_gpu_nodes now b w w1
    (Hwf : window_wf b) (Hclosed : state b <> StateTripped) (Hn : GetTotalNodes w = (Ok 0, w1)) :
  let b1 := slideWindow now b in
  (nodeToIndex b1 = ∅ -> IsTripped now b w = ((false, None), b1, w1)) /\
  (nodeToIndex b1 <> ∅ -> IsTripped now b w = trip b1 w1).
Proof.
  intros b1. unfold IsTripped, getTotalNodes. rewrite Hn, (proj2 (go_eqb_false _ _) Hclosed).
  cbn. unfold isTrippedByRecentCordons. rewrite sumBuckets_distinct by (by apply slideWindow_wf). fold b1.
  destruct (Z.eqb_spec (Z.of_nat (size (nodeToIndex b1))) 0) as [Hz|Hz].
  - split; [done|]. intros Hne. exfalso. apply Hne, map_size_empty_inv. lia.
  - split; [|done]. intros He. exfalso. apply Hz. by rewrite He, map_size_empty.
Qed.

(** C24 (trip decision).  The whole decision of one check on a well-formed window.
    A tripped breaker answers true and changes nothing.  One that is not tripped:
    a failing node count is returned as an error and leaves the breaker as it was;
    with no GPU nodes it trips exactly when the window, slid to [now], still holds a
    cordoned node; with [n > 0] of them it trips when the window bound is reached,
    without consulting the standing count, and otherwise, with [c] nodes held
    quarantined, exactly when the standing bound is configured and reached, a
    failing lookup of [c] being returned as an error.  Whenever the nodes are
    counted the window has slid to [now] and the state becomes TRIPPED exactly when
    the answer is true. *)
Theorem IsTripped_decision (now : Z) (b : slidingWindowBreaker) (w : W) :
  window_wf b ->
  let b1 := slideWindow now b in let r := IsTripped now b w in
  (state b = StateTripped -> r = ((true, None), b, w)) /\
  (state b <> StateTripped ->
    (forall e w1, GetTotalNodes w = (Err e, w1) -> exists e', r = ((false, Some e'), b, w1)) /\
    (forall w1, GetTotalNodes w = (Ok 0, w1) -> tripped_of r = true <-> nodeToIndex b1 <> ∅) /\
    (forall n w1, GetTotalNodes w = (Ok n, w1) -> 0 < n ->
      (window_reason b1 n -> r = trip b1 w1) /\
      (~ window_reason b1 n -> forall c w2, GetCordonedNodes w1 = (Ok c, w2) -> tripped_of r = true <-> standing_reason b1 n c) /\
      (~ window_reason b1 n -> snd (standingThreshold b1 n) <> boundNone ->
         forall e w2, GetCordonedNodes w1 = (Err e, w2) -> exists e', r = ((false, Some e'), b1, w2))) /\
    (forall n w1, GetTotalNodes w = (Ok n, w1) -> 0 <= n ->
      breaker_of r = if tripped_of r then with_state b1 StateTripped else b1)).
Proof.
  intros Hwf b1 r. split; [intros Ht; unfold r, IsTripped; by rewrite (proj2 (go_eqb_true _ _) Ht)|].
  intros Hs. split_and!.
  - intros e w1 He. unfold r, IsTripped, getTotalNodes. rewrite (proj2 (go_eqb_false _ _) Hs), He. eauto.
  - intros w1 Hn. destruct (IsTripped_no_gpu_nodes now b w w1 Hwf Hs Hn) as [Hno Htrip]. fold b1 r in Hno, Htrip.
    split; [intros Ht He; rewrite (Hno He) in Ht; done|]. intros Hne. rewrite (Htrip Hne). apply trip_result.
  - intros n w1 Hn Hpos. destruct (IsTripped_counted now b w w1 n Hs Hn Hpos) as (H1 & H2 & H3 & _). auto.
  - intros n w1 Hn Hpos. destruct (Z.eq_dec n 0) as [->|Hnz].
    + destruct (IsTripped_no_gpu_nodes now b w w1 Hwf Hs Hn) as [Hno Htrip]. fold b1 r in Hno, Htrip.
      destruct (decide (nodeToIndex b1 = ∅)) as [He|He]; [by rewrite (Hno He)|]. rewrite (Htrip He).
      destruct (trip_result b1 w1) as [-> ->]. done.
    + by destruct (IsTripped_counted now b w w1 n Hs Hn ltac:(lia)) as (_ & _ & _ & H4).
Qed.

(** ** The latch *)

Inductive breaker_op :=
| OpCordon (now : Z) (node : string)
| OpCheck (now : Z)
| OpForce (s : State).

(** One operation; [None] is a panic.  The answer of a check is kept. *)
Definition run_op (o : breaker_op) (bw : slidingWindowBreaker * W)
  : option (option bool * (slidingWindowBreaker * W)) :=
  let '(b, w) := bw in
  match o with
  | OpCordon now node => b' ← AddCordonEvent now node b; Some (None, (b', w))
  | OpCheck now =>
      let '(r, b', w') := IsTripped now b w in Some (Some (fst r), (b', w'))
  | OpForce s => let '(_, b', w') := ForceState s b w in Some (None, (b', w'))
  end.

Fixpoint run_ops (os : list breaker_op) (bw : slidingWindowBreaker * W)
  : option (list (option bool) * (slidingWindowBreaker * W)) :=
  match os with
  | [] => Some ([], bw)
  | o :: os' =>
      '(a, bw1) ← run_op o bw;
      '(as_, bw2) ← run_ops os' bw1;
      Some (a :: as_, bw2)
  end.

Lemma with_state_wf b s : window_wf b -> window_wf (with_state b s).
Proof. intros [? ? ? ? ? ?]. by split. Qed.

Lemma IsTripped_wf now b w : window_wf b -> window_wf (breaker_of (IsTripped now b w)).
Proof.
  intros H. pose proof (proj1 (slideWindow_wf now b H)) as Hs.
  unfold IsTripped, isTrippedByRecentCordons, breaker_of, trip, ForceState.
  repeat case_match; simplify_eq/=; auto using with_state_wf.
Qed.

Lemma run_op_wf o b w :
  window_wf b -> exists a b' w', run_op o (b, w) = Some (a, (b', w')) /\ window_wf b'.
Proof.
  intros H. destruct o as [now node|now|s]; simpl.
  - destruct (AddCordonEvent_spec now node b H) as (b' & -> & ? & _). simpl. eauto 10.
  - pose proof (IsTripped_wf now b w H) as Hw. unfold breaker_of in Hw.
    destruct (IsTripped now b w) as [[r b'] w']. eauto 10.
  - unfold ForceState. destruct (WriteCircuitBreakerState _ _ _ w) as [[e|] w'];
      eauto 10 using with_state_wf.
Qed.

(** C38 (invariant, no panic).  From any well-formed breaker, every sequence of
    cordon events, checks and forced states runs to its end without a panic
    (no index out of range, no write to a missing set), whatever the clock
    readings and whatever the cluster answers, and leaves the ring
    well-formed, so that the counted number of cordons is the number of
    distinct nodes it holds. *)
Theorem breaker_ops_wf (os : list breaker_op) (b : slidingWindowBreaker) (w : W)
    (Hwf : window_wf b) :
  exists answers b' w', run_ops os (b, w) = Some (answers, (b', w')) /\ window_wf b' /\
    sumBuckets b' = Z.of_nat (size (nodeToIndex b')).
Proof.
  revert b w Hwf. induction os as [|o os IH]; intros b w Hwf; cbn [run_ops].
  { eauto 10 using sumBuckets_distinct. }
  destruct (run_op_wf o b w Hwf) as (a & b1 & w1 & He & Hw1). rewrite He. simpl.
  destruct (IH b1 w1 Hw1) as (as_ & b2 & w2 & -> & ? & ?). simpl. eauto 10.
Qed.

Lemma tripped_op o b w a b' w' :
  window_wf b -> state b = StateTripped -> (forall s, o = OpForce s -> s = StateTripped) ->
  run_op o (b, w) = Some (a, (b', w')) ->
  state b' = StateTripped /\ (forall now, o = OpCheck now -> a = Some true /\ w' = w).
Proof.
  intros Hw Hs Ho. destruct o as [now node|now|s]; simpl.
  - destruct (AddCordonEvent_spec now node b Hw) as (b1 & -> & _ & Hst & _). simpl.
    intros [= <- <- <-]. split; [|done]. by rewrite Hst, (proj2 (slideWindow_frame now b)).
  - unfold IsTripped. rewrite Hs. change (StateTripped ==s StateTripped) with true.
    intros [= <- <- <-]. done.
  - unfold ForceState. intros He. destruct (WriteCircuitBreakerState _ _ _ w) as [[e|] w1];
      simplify_eq/=; split; eauto; done.
Qed.

(** A tripped breaker stays tripped through every sequence of
    operations that does not force another state, and answers every check with
    true. *)
Theorem breaker_latches (os : list breaker_op) (b : slidingWindowBreaker) (w : W)
    (answers : list (option bool)) (b' : slidingWindowBreaker) (w' : W)
    (Hwf : window_wf b) (Htripped : state b = StateTripped)
    (Hos : Forall (fun o => forall s, o = OpForce s -> s = StateTripped) os)
    (Hrun : run_ops os (b, w) = Some (answers, (b', w'))) :
  state b' = StateTripped /\ Forall (fun a => a = None \/ a = Some true) answers.
Proof.
  revert b w answers Hwf Htripped Hos Hrun.
  induction os as [|o os IH]; intros b w answers Hwf Ht Hos Hrun; cbn [run_ops] in Hrun.
  { simplify_eq. auto. }
  inversion Hos as [|? ? Ho Hos']; subst.
  destruct (run_op_wf o b w Hwf) as (a & b1 & w1 & He & Hw1). rewrite He in Hrun. simpl in Hrun.
  destruct (tripped_op o b w a b1 w1 Hwf Ht Ho He) as [Ht1 Ha].
  destruct (run_ops os (b1, w1)) as [[as1 [b2 w2]]|] eqn:He2; simplify_eq/=.
  destruct (IH b1 w1 as1 Hw1 Ht1 Hos' He2) as [? ?]. split; [done|]. constructor; [|done].
  destruct o as [now node|now|s]; simpl in He.
  - destruct (AddCordonEvent now node b); simplify_eq/=. by left.
  - right. by apply (Ha now).
  - destruct (ForceState s b w) as [[? ?] ?]. simplify_eq. by left.
Qed.

(** ** Construction *)

Lemma lookup_empty_index n i :
  empty_index n !! i = if decide (0 <= i < n) then Some ∅ else None.
Proof.
  unfold empty_index. 
  assert (Hgen : forall l (m : gmap Z (gset string)),
            foldl (fun m i => <[i := ∅]> m) m l !! i
            = if decide (i ∈ l) then Some ∅ else m !! i).
  { induction l as [|j l IH]; intros m; cbn [foldl].
    { case_decide; [set_solver|done]. }
    rewrite IH, lookup_insert. repeat case_decide; set_solver. }
  rewrite Hgen, lookup_empty. destruct (decide (i ∈ seqZ 0 n)) as [H|H];
    rewrite elem_of_seqZ in H; case_decide; lia || done.
Qed.

Definition ring_buckets (c : Config) : Z := (Window c + Second - 1) / Second.

Lemma new_ring_wf c now st n :
  0 < n -> n * Second <= max_int64 ->
  window_wf {| cfg := c; bucketSize := Second; buckets := replicate (Z.to_nat n) 0;
               startTime := now; nodeToIndex := ∅; indexToNodes := empty_index n; state := st |}.
Proof.
  intros Hn Hr.
  assert (Hl : lenZ (replicate (Z.to_nat n) 0) = n) by (unfold lenZ; rewrite length_replicate; lia).
  split; cbn [bucketSize buckets nodeToIndex indexToNodes]; rewrite ?Hl; try done.
  - apply set_eq. intros i. rewrite elem_of_dom, lookup_empty_index, elem_of_list_to_set, elem_of_seqZ.
    case_decide; [|split; [by intros [? ?]|lia]]. split; [lia|eauto].
  - intros node i. rewrite lookup_empty, lookup_empty_index. split; [done|].
    case_decide; intros (s & ? & ?); simplify_eq. set_solver.
  - intros i s. rewrite lookup_empty_index. case_decide; intros [= <-].
    apply lookup_replicate_2. lia.
Qed.

(** The bucket count, with the wrap-around of the two additions. *)
Lemma num_buckets_spec win :
  0 < win <= max_int64 ->
  let nb := Z.quot (wrap_int64 (wrap_int64 (win + Second) - 1)) Second in
  (max_int64 < win + Second - 1 -> nb < 0) /\
  (win + Second - 1 <= max_int64 ->
     nb = (win + Second - 1) / Second /\ 0 < nb /\ nb * Second <= max_int64).
Proof.
  intros Hw nb. assert (Hwrap : wrap_int64 (wrap_int64 (win + Second) - 1)
    = if max_int64 <? win + Second - 1 then win + Second - 1 - 2 ^ 64 else win + Second - 1).
  { change (wrap_int64 (win + Second) - 1) with (wrap_int64 (win + Second) + -1).
    rewrite wrap_int64_add_l. replace (win + Second + -1) with (win + Second - 1) by lia.
    unfold max_int64, Second in *. destruct (Z.ltb_spec (2 ^ 63 - 1) (win + 1000000000 - 1)).
    - apply wrap_int64_over. lia.
    - apply wrap_int64_id. unfold in_int64, min_int64, max_int64. lia. }
  unfold nb. rewrite Hwrap. split; intros Ho.
  - rewrite (proj2 (Z.ltb_lt _ _) Ho). unfold max_int64, Second in *.
    set (z := win + 1000000000 - 1 - 2 ^ 64). assert (z = - (- z)) as -> by lia.
    rewrite Z.quot_opp_l, Z.quot_div_nonneg by lia.
    pose proof (Z.div_str_pos (- z) 1000000000). lia.
  - rewrite (proj2 (Z.ltb_ge _ _) Ho), Z.quot_div_nonneg by (unfold Second; lia).
    pose proof (Z.mul_div_le (win + Second - 1) Second).
    split_and!; [done| |unfold Second in *; lia].
    apply Z.div_str_pos. unfold Second in *. lia.
Qed.

(** For a window of [int64] nanoseconds: an invalid
    configuration or a window that is not positive is refused before any
    call; a breaker that is returned has one bucket per started second of the
    window, an empty well-formed ring and the persisted state if it is one of
    the two known ones, CLOSED otherwise; the only windows on which
    construction panics are those whose rounding up overflows. *)
Theorem NewSlidingWindowBreaker_spec (now : Z) (c : Config) (w : W)
    (Hwin : in_int64 (Window c)) :
  match fst (NewSlidingWindowBreaker now c w) with
  | Some (Err _) => validateBounds c <> None \/ Window c <= 0 \/
      exists e w1, EnsureCircuitBreakerConfigMap (ConfigMapName c) (ConfigMapNamespace c)
                     StateClosed w = (Some e, w1)
  | Some (Ok b) => validateBounds c = None /\ 0 < Window c /\ cfg b = c /\
      window_wf b /\ nodeToIndex b = ∅ /\ startTime b = now /\
      lenZ (buckets b) = ring_buckets c /\
      (state b = StateClosed \/ state b = StateTripped)
  | None => max_int64 < Window c + Second - 1
  end.
Proof.
  unfold NewSlidingWindowBreaker. destruct (validateBounds c) as [e|] eqn:Hv; [by left|].
  destruct (Z.leb_spec (Window c) 0); [by right; left|].
  destruct (num_buckets_spec (Window c)) as [Hover Hfit]; [unfold in_int64 in Hwin; lia|].
  set (nb := Z.quot _ _) in *.
  destruct (Z.lt_ge_cases max_int64 (Window c + Second - 1)) as [Ho|Ho].
  { by rewrite (proj2 (Z.ltb_lt _ _) (Hover Ho)). }
  destruct (Hfit Ho) as (Hnb & Hpos & Hr). rewrite (proj2 (Z.ltb_ge _ _)) by lia.
  destruct (EnsureCircuitBreakerConfigMap _ _ _ w) as [[e|] w1]; [right; right; eauto|].
  assert (Hl : lenZ (replicate (Z.to_nat nb) 0) = ring_buckets c).
  { unfold lenZ, ring_buckets. rewrite length_replicate. lia. }
  pose proof (new_ring_wf c now StateClosed nb Hpos Hr) as Hw.
  destruct (ReadCircuitBreakerState _ _ w1) as [[s|e] w2]; [|cbn; split_and!; auto].
  destruct (s ==s StateClosed) eqn:Hs1, (s ==s StateTripped) eqn:Hs2; to_prop; cbn;
    split_and!; auto using with_state_wf.
Qed.

End Decisions.

(** ** Concrete runs *)

Module BreakerDemo.

(** A cluster with fixed counts that keeps the last written state. *)
Record cluster := { gpus : Z; held : Z; saved : State }.

#[export] Instance cluster_client : K8sClientOperations cluster := {|
  GetTotalNodes w := (Ok (gpus w), w);
  GetCordonedNodes w := (Ok (held w), w);
  EnsureCircuitBreakerConfigMap _ _ _ w := (None, w);
  ReadCircuitBreakerState _ _ w := (Ok (saved w), w);
  WriteCircuitBreakerState _ _ s w :=
    (None, {| gpus := gpus w; held := held w; saved := s |});
  ReadCursorMode _ _ w := (Ok "RESUME", w);
  WriteCursorMode _ _ _ w := (None, w);
|}.

Definition config (p : float64) (mx : Z) : Config :=
  {| Window := 3 * Second; TripPercentage := p; TripMaxNodes := mx; TripMaxCordonedNodes := 0;
     TripMaxCordonedPercentage := f64_zero; ConfigMapName := "breaker";
     ConfigMapNamespace := "nvsentinel" |}.

Definition ring (c : Config) : slidingWindowBreaker :=
  {| cfg := c; bucketSize := Second; buckets := replicate 3 0; startTime := 0;
     nodeToIndex := ∅; indexToNodes := empty_index 3; state := StateClosed |}.

Lemma ring_wf c : window_wf (ring c).
Proof. apply (new_ring_wf c 0 StateClosed 3); done. Qed.

(** The least positive binary64 number. *)
Definition least_positive : float64 := S754_finite false 1 (-1074).

Lemma breaker_window_witness :
  exists b', cordon_all (ring (config f64_zero 2)) [(0, "a"); (Second, "b"); (2 * Second, "a")]
             = Some b' /\
    sumBuckets (slideWindow (3 * Second) b') = 2.
Proof.
  destruct (breaker_window_counts_recent (ring (config f64_zero 2))
              [(0, "a"); (Second, "b"); (2 * Second, "a")] (3 * Second) (ring_wf _) eq_refl)
    as (b' & He & _).
  { vm_compute. intuition discriminate. }
  { vm_compute. discriminate. }
  exists b'. split; [done|]. vm_compute in He. injection He as <-. by vm_compute.
Defined.

Lemma tripThreshold_bounds_witness :
  tripThreshold (ring (config (f64_of_int 50) 4)) 7 = (4, boundPercentage) /\ 0 <= 4 <= 7.
Proof.
  pose proof (tripThreshold_bounds (ring (config (f64_of_int 50) 4)) 7) as H.
  assert (He : tripThreshold (ring (config (f64_of_int 50) 4)) 7 = (4, boundPercentage))
    by (vm_compute; reflexivity).
  rewrite He in H. split; [done|]. apply H; vm_compute; intuition discriminate.
Defined.

Lemma IsTripped_decision_witness :
  breaker_of (IsTripped 0 (ring (config f64_zero 1)) {| gpus := 8; held := 0; saved := "" |})
    = slideWindow 0 (ring (config f64_zero 1)) /\
  tripped_of (IsTripped Second
    (default (ring (config f64_zero 1)) (AddCordonEvent 0 "a" (ring (config f64_zero 1))))
    {| gpus := 0; held := 0; saved := "" |}) = true.
Proof.
  split.
  - destruct (IsTripped_decision 0 (ring (config f64_zero 1)) {| gpus := 8; held := 0; saved := "" |} (ring_wf _)) as [_ H].
    destruct H as (_ & _ & _ & H); [done|]. etransitivity; [apply (H 8 {| gpus := 8; held := 0; saved := "" |} eq_refl); lia|]. vm_compute. reflexivity.
  - destruct (AddCordonEvent_spec 0 "a" (ring (config f64_zero 1)) (ring_wf _)) as (b' & He & Hw & _).
    assert (Hs : state b' <> StateTripped /\ nodeToIndex (slideWindow Second b') <> ∅).
    { vm_compute in He. injection He as <-. split; vm_compute; discriminate. }
    rewrite He. cbn [default]. destruct (IsTripped_decision Second b' {| gpus := 0; held := 0; saved := "" |} Hw) as [_ H].
    destruct (H (proj1 Hs)) as (_ & H0 & _). exact (proj2 (H0 {| gpus := 0; held := 0; saved := "" |} eq_refl) (proj2 Hs)).
Defined.

Lemma breaker_ops_wf_witness :
  exists answers b' w',
    run_ops [OpCordon 0 "a"; OpCheck Second; OpForce StateClosed]
      (ring (config f64_zero 1), {| gpus := 8; held := 0; saved := "" |})
    = Some (answers, (b', w')) /\ window_wf b'.
Proof.
  destruct (breaker_ops_wf [OpCordon 0 "a"; OpCheck Second; OpForce StateClosed]
    (ring (config f64_zero 1)) {| gpus := 8; held := 0; saved := "" |} (ring_wf _))
    as (answers & b' & w' & He & Hw & _). eauto.
Defined.

Definition latched_ops : list breaker_op := [OpCordon 0 "a"; OpCheck Second].

Lemma breaker_latches_witness :
  exists answers b' w',
    run_ops latched_ops
      (with_state (ring (config f64_zero 8)) StateTripped, {| gpus := 8; held := 0; saved := "" |})
    = Some (answers, (b', w')) /\ state b' = StateTripped.
Proof.
  destruct (run_ops latched_ops (with_state (ring (config f64_zero 8)) StateTripped,
    {| gpus := 8; held := 0; saved := "" |})) as [[answers [b' w']]|] eqn:He.
  - exists answers, b', w'. split; [done|].
    apply (breaker_latches latched_ops (with_state (ring (config f64_zero 8)) StateTripped)
             {| gpus := 8; held := 0; saved := "" |} answers b' w'); try done.
    + apply with_state_wf, ring_wf.
    + repeat constructor; discriminate.
  - vm_compute in He. discriminate.
Defined.

Lemma NewSlidingWindowBreaker_witness :
  exists b, fst (NewSlidingWindowBreaker 5 (config (f64_of_int 50) 0)
                  {| gpus := 8; held := 0; saved := StateTripped |}) = Some (Ok b) /\
    lenZ (buckets b) = 3 /\ state b = StateTripped.
Proof.
  pose proof (NewSlidingWindowBreaker_spec 5 (config (f64_of_int 50) 0)
                {| gpus := 8; held := 0; saved := StateTripped |}) as H.
  destruct (fst (NewSlidingWindowBreaker 5 (config (f64_of_int 50) 0) _)) as [[b|e]|] eqn:He;
    vm_compute in He; try discriminate.
  exists b. split; [done|]. injection He as <-.
  split; [apply H; unfold in_int64, min_int64, max_int64; vm_compute; intuition discriminate|done].
Defined.

(** A positive percentage so small that
    its share of the fleet underflows passes validation and yields the
    threshold 0 with the percentage bound, so that a breaker with an empty
    window trips on its first check. *)
Theorem breaker_underflowing_percentage_trips :
  validateBounds (config least_positive 0) = None /\
  tripThreshold (ring (config least_positive 0)) 1 = (0, boundPercentage) /\
  nodeToIndex (ring (config least_positive 0)) = ∅ /\
  tripped_of (IsTripped 0 (ring (config least_positive 0))
                {| gpus := 1; held := 0; saved := StateClosed |}) = true.
Proof. split_and!; vm_compute; reflexivity. Qed.

End BreakerDemo.
