(* ===== verification/KubeRetry.v ===== *)
(** * Read-modify-write against the Kubernetes API

    fault-quarantine, node-drainer and fault-remediation change shared objects
    (the node, a config map) with the same loop: get the object, change it,
    update it, and start over while the update reports a conflict.  The API
    server and [retry.OnError] of client-go are not part of the repository:
    here they are the class [ObjectAPI] with its laws and the parameter
    [OnError] with the law [retry_law].  The laws state documented behaviour:
    a read returns the newest committed version, an update commits only when
    the object carries the version that is then the newest one, versions are
    identified by their resource version, and [OnError] runs its function
    again only after a result it was told to retry.  Other writers may commit
    at any moment: a call may extend the history by versions of theirs. *)

From stdpp Require Import gmap strings list.
From Stdlib Require Import ZArith Lia.
From S2P Require Import Prelude.

(** ** Errors of the API machinery *)

Inductive reason := ReasonNotFound | ReasonConflict | ReasonOther.

Record kerror := { kreason : reason; kmsg : string }.

(** [fmt.Errorf("...: %w", err)]: the reason is still found by [errors.As]. *)
Definition kwrap (context : string) (e : kerror) : kerror :=
  {| kreason := kreason e; kmsg := wrapf context (kmsg e) |}.

Definition plain_error (msg : string) : kerror := {| kreason := ReasonOther; kmsg := msg |}.

Definition IsConflict (e : kerror) : bool :=
  match kreason e with ReasonConflict => true | _ => false end.

Definition IsNotFound (e : kerror) : bool :=
  match kreason e with ReasonNotFound => true | _ => false end.

(** How one call of a function given to [OnError] ends. *)
Inductive attempt :=
| Done
| Failed (e : kerror)
| Panicked.

Definition retry_conflict (a : attempt) : bool :=
  match a with Failed e => IsConflict e | _ => false end.

(** ** The object API and its laws *)

Class ObjectAPI (W Obj : Type) := {
  api_get : string -> W -> (Obj + kerror) * W;
  api_update : string -> Obj -> W -> option kerror * W;
}.

(** [versions k w] is the history of object [k], newest first; [content]
    forgets the resource version. *)
Class ObjectAPILaws (W Obj Content : Type) `{!ObjectAPI W Obj} := {
  rv : Obj -> Z;
  content : Obj -> Content;
  versions : string -> W -> list Obj;
  get_newest : forall k w o w', api_get k w = (inl o, w') -> head (versions k w') = Some o;
  get_extends : forall k w r w', api_get k w = (r, w') -> versions k w `suffix_of` versions k w';
  update_extends : forall k o w r w',
    api_update k o w = (r, w') -> versions k w `suffix_of` versions k w';
  update_commits : forall k o w w', api_update k o w = (None, w') ->
    exists later new cur earlier, versions k w' = later ++ new :: cur :: earlier /\
      rv cur = rv o /\ content new = content o;
  rv_identifies : forall k w o1 o2, o1 ∈ versions k w -> o2 ∈ versions k w -> rv o1 = rv o2 -> o1 = o2;
}.

(** The type of [retry.OnError] at a state [S]: which results to retry, the
    function, the initial state. *)
Abbreviation on_error S := ((attempt -> bool) -> (S -> attempt * S) -> S -> attempt * S).

Section Retry.
Context {S : Type}.
Implicit Types (f : S -> attempt * S) (s : S).

(** Runs of a retried function: every attempt but the last one was retriable. *)
Inductive retry_run (retriable : attempt -> bool) f : S -> attempt -> S -> Prop :=
| run_last s a s' : f s = (a, s') -> retry_run retriable f s a s'
| run_again s a1 s1 a s' : f s = (a1, s1) -> retriable a1 = true ->
    retry_run retriable f s1 a s' -> retry_run retriable f s a s'.

Definition retry_law (OnError : on_error S) : Prop :=
  forall retriable f s, retry_run retriable f s (fst (OnError retriable f s)) (snd (OnError retriable f s)).

(** A concrete [OnError] with a bounded number of attempts, as client-go has. *)
Fixpoint bounded_retry (extra : nat) (retriable : attempt -> bool) f s : attempt * S :=
  match extra with
  | O => f s
  | Datatypes.S k =>
      let '(a, s') := f s in
      if retriable a then bounded_retry k retriable f s' else (a, s')
  end.

Lemma bounded_retry_law k : retry_law (bounded_retry k).
Proof.
  intros retriable f. induction k as [|k IH]; intros s; simpl.
  - destruct (f s) as [a s'] eqn:Hf. by apply run_last.
  - destruct (f s) as [a s'] eqn:Hf. destruct (retriable a) eqn:Hr; simpl.
    + eapply run_again; eauto.
    + by apply run_last.
Qed.

(** Invariants of the attempts hold of the whole run: [P] is kept by a
    retriable attempt and [Q] follows from the last one. *)
Lemma retry_run_ind_inv retriable f (P : S -> Prop) (Q : attempt -> S -> Prop) :
  (forall s a s', P s -> f s = (a, s') -> retriable a = true -> P s') ->
  (forall s a s', P s -> f s = (a, s') -> Q a s') ->
  forall s a s', retry_run retriable f s a s' -> P s -> Q a s'.
Proof. intros HP HQ s a s' Hr. induction Hr; eauto. Qed.
End Retry.

(** ** Reads are current when the update commits *)

Section ReadModifyWrite.
Context {W Obj Content : Type} `{Laws : ObjectAPILaws W Obj Content}.

(** A change committed after a read replaced exactly the version read. *)
Lemma update_replaces_read k o o' w w1 w2 :
  api_get k w = (inl o, w1) -> rv o' = rv o -> api_update k o' w1 = (None, w2) ->
  exists later new earlier, versions k w2 = later ++ new :: o :: earlier /\ content new = content o'.
Proof.
  intros Hg Hrv Hu.
  destruct (update_commits k o' w1 w2 Hu) as (later & new & cur & earlier & Hv & Hcur & Hnew).
  enough (cur = o) as -> by eauto.
  apply (rv_identifies k w2); [|..|congruence].
  - rewrite Hv. set_solver.
  - pose proof (get_newest k w o w1 Hg) as Hh. destruct (update_extends k o' w1 None w2 Hu) as [l Hl].
    rewrite Hl. destruct (versions k w1); simplify_eq/=. set_solver.
Qed.
End ReadModifyWrite.

(** ** A store that satisfies the laws

    One object with its history of contents, and the contents other writers
    will commit just before each of the next updates.  It shows that the laws
    can hold together with concurrent writers, and runs the operations of the
    client files on concrete inputs. *)

Section VersionStore.
Context {Obj C : Type} (mk : Z -> C -> Obj) (rv_of : Obj -> Z) (content_of : Obj -> C).
Context (Hrv : forall z c, rv_of (mk z c) = z) (Hcontent : forall z c, content_of (mk z c) = c).

Record store := { committed : list C; pending : list (list C) }.

Fixpoint numbered (l : list C) : list Obj :=
  match l with
  | [] => []
  | c :: l' => mk (Z.of_nat (length l')) c :: numbered l'
  end.

Definition store_get (k : string) (w : store) : (Obj + kerror) * store :=
  match numbered (committed w) with
  | [] => (inr {| kreason := ReasonNotFound; kmsg := "not found" |}, w)
  | o :: _ => (inl o, w)
  end.

Definition store_update (k : string) (o : Obj) (w : store) : option kerror * store :=
  let others := head (pending w) in
  let l := default [] others ++ committed w in
  let rest := tail (pending w) in
  match numbered l with
  | [] => (Some {| kreason := ReasonNotFound; kmsg := "not found" |},
           {| committed := l; pending := rest |})
  | cur :: _ =>
      if (rv_of cur =? rv_of o)%Z
      then (None, {| committed := content_of o :: l; pending := rest |})
      else (Some {| kreason := ReasonConflict; kmsg := "the object has been modified" |},
            {| committed := l; pending := rest |})
  end.

Definition store_api : ObjectAPI store Obj := {| api_get := store_get; api_update := store_update |}.

Lemma numbered_app l1 l2 : numbered l2 `suffix_of` numbered (l1 ++ l2).
Proof.
  induction l1 as [|c l1 IH]; [done|]. destruct IH as [k Hk].
  exists (mk (Z.of_nat (length (l1 ++ l2))) c :: k). simpl. by rewrite Hk.
Qed.

Lemma numbered_rv l o : o ∈ numbered l -> (0 <= rv_of o < Z.of_nat (length l))%Z.
Proof.
  induction l as [|c l IH]; simpl; [by intros ?%not_elem_of_nil|].
  intros [->|Ho]%elem_of_cons; [rewrite Hrv; lia|]. apply IH in Ho. lia.
Qed.

Lemma numbered_unique l o1 o2 :
  o1 ∈ numbered l -> o2 ∈ numbered l -> rv_of o1 = rv_of o2 -> o1 = o2.
Proof.
  induction l as [|c l IH]; simpl; [by intros ?%not_elem_of_nil|].
  intros [->|H1]%elem_of_cons [->|H2]%elem_of_cons He; auto.
  - apply numbered_rv in H2. rewrite Hrv in He. lia.
  - apply numbered_rv in H1. rewrite Hrv in He. lia.
Qed.

Definition store_laws : @ObjectAPILaws store Obj C store_api.
Proof using Hrv Hcontent.
  refine {| rv := rv_of; content := content_of; versions := fun _ w => numbered (committed w) |}.
  - intros k w o w'. simpl. unfold store_get. destruct (numbered _) eqn:Hn; [done|].
    intros [= -> <-]. by rewrite Hn.
  - intros k w r w'. simpl. unfold store_get. intros Hg.
    enough (w' = w) as -> by done. by destruct (numbered (committed w)); simplify_eq.
  - intros k o w r w'. simpl. unfold store_update.
    destruct (numbered (_ ++ _)) eqn:Hn; [|destruct (_ =? _)%Z]; intros [= <- <-]; simpl;
      try apply numbered_app.
    etrans; [apply numbered_app|]. apply (numbered_app [content_of o]).
  - intros k o w w'. simpl. unfold store_update.
    destruct (numbered (_ ++ _)) as [|cur rest] eqn:Hn; [done|].
    destruct (Z.eqb_spec (rv_of cur) (rv_of o)); [|done]. intros [= <-].
    exists [], (mk (Z.of_nat (length (default [] (head (pending w)) ++ committed w))) (content_of o)),
      cur, rest. simpl. by rewrite Hn, Hcontent.
  - intros k w o1 o2. apply numbered_unique.
Defined.
End VersionStore.
Arguments store : clear implicits.
