(* ===== verification/HealthEvent.v ===== *)
(** * Health events

    The data every component exchanges: [data-models] (the protobuf messages
    and the status values) restricted to the fields the modelled components
    read.  Slices and maps of messages that may be nil are lists and maps; a
    message pointer that may be nil is an option. *)

From stdpp Require Import gmap strings list.
From Stdlib Require Import ZArith.
From S2P Require Import Prelude.

Record Entity := { EntityType : string; EntityValue : string }.

Inductive RecommendedAction :=
| NONE | COMPONENT_RESET | CONTACT_SUPPORT | RUN_FIELDDIAG | RESTART_VM | RESTART_BM
| REPLACE_VM | RUN_DCGMEUD | CUSTOM | UNKNOWN.

Inductive ProcessingStrategy :=
| UNSPECIFIED | EXECUTE_REMEDIATION | STORE_ONLY | STORE_AND_ANALYSE.

Record BehaviourOverrides := { Force : bool; Skip : bool }.

Record HealthEvent := {
  Version : Z;
  Agent : string;
  ComponentClass : string;
  CheckName : string;
  IsFatal : bool;
  IsHealthy : bool;
  Message : string;
  Action : RecommendedAction;
  ErrorCode : list string;
  EntitiesImpacted : list Entity;
  Metadata : gmap string string;
  GeneratedSeconds : option Z;
  NodeName : string;
  QuarantineOverrides : option BehaviourOverrides;
  DrainOverrides : option BehaviourOverrides;
  Strategy : ProcessingStrategy;
  Id : string;
  CustomRecommendedAction : string;
}.

#[export] Instance Entity_eq_dec : EqDecision Entity.
Proof. solve_decision. Defined.
#[export] Instance RecommendedAction_eq_dec : EqDecision RecommendedAction.
Proof. solve_decision. Defined.
#[export] Instance ProcessingStrategy_eq_dec : EqDecision ProcessingStrategy.
Proof. solve_decision. Defined.

(** [Enum.String()] of the processing strategy. *)
Definition Strategy_String (s : ProcessingStrategy) : string :=
  match s with
  | UNSPECIFIED => "UNSPECIFIED"
  | EXECUTE_REMEDIATION => "EXECUTE_REMEDIATION"
  | STORE_ONLY => "STORE_ONLY"
  | STORE_AND_ANALYSE => "STORE_AND_ANALYSE"
  end.

Lemma Strategy_String_inj s1 s2 : Strategy_String s1 = Strategy_String s2 -> s1 = s2.
Proof. by destruct s1, s2. Qed.

Definition Action_String (a : RecommendedAction) : string :=
  match a with
  | NONE => "NONE" | COMPONENT_RESET => "COMPONENT_RESET" | CONTACT_SUPPORT => "CONTACT_SUPPORT"
  | RUN_FIELDDIAG => "RUN_FIELDDIAG" | RESTART_VM => "RESTART_VM" | RESTART_BM => "RESTART_BM"
  | REPLACE_VM => "REPLACE_VM" | RUN_DCGMEUD => "RUN_DCGMEUD" | CUSTOM => "CUSTOM"
  | UNKNOWN => "UNKNOWN"
  end.

Definition GetEffectiveActionName (he : HealthEvent) : string :=
  match Action he with
  | CUSTOM => CustomRecommendedAction he
  | a => Action_String a
  end.

(** ** Updates of the fields the components change *)

Definition with_entities_codes (e : HealthEvent) (es : list Entity) (cs : list string) : HealthEvent :=
  {| Version := Version e; Agent := Agent e; ComponentClass := ComponentClass e;
     CheckName := CheckName e; IsFatal := IsFatal e; IsHealthy := IsHealthy e;
     Message := Message e; Action := Action e; ErrorCode := cs; EntitiesImpacted := es;
     Metadata := Metadata e; GeneratedSeconds := GeneratedSeconds e; NodeName := NodeName e;
     QuarantineOverrides := QuarantineOverrides e; DrainOverrides := DrainOverrides e;
     Strategy := Strategy e; Id := Id e; CustomRecommendedAction := CustomRecommendedAction e |}.

Definition with_metadata (e : HealthEvent) (m : gmap string string) : HealthEvent :=
  {| Version := Version e; Agent := Agent e; ComponentClass := ComponentClass e;
     CheckName := CheckName e; IsFatal := IsFatal e; IsHealthy := IsHealthy e;
     Message := Message e; Action := Action e; ErrorCode := ErrorCode e;
     EntitiesImpacted := EntitiesImpacted e;
     Metadata := m; GeneratedSeconds := GeneratedSeconds e; NodeName := NodeName e;
     QuarantineOverrides := QuarantineOverrides e; DrainOverrides := DrainOverrides e;
     Strategy := Strategy e; Id := Id e; CustomRecommendedAction := CustomRecommendedAction e |}.

Definition with_strategy (e : HealthEvent) (s : ProcessingStrategy) : HealthEvent :=
  {| Version := Version e; Agent := Agent e; ComponentClass := ComponentClass e;
     CheckName := CheckName e; IsFatal := IsFatal e; IsHealthy := IsHealthy e;
     Message := Message e; Action := Action e; ErrorCode := ErrorCode e;
     EntitiesImpacted := EntitiesImpacted e;
     Metadata := Metadata e; GeneratedSeconds := GeneratedSeconds e; NodeName := NodeName e;
     QuarantineOverrides := QuarantineOverrides e; DrainOverrides := DrainOverrides e;
     Strategy := s; Id := Id e; CustomRecommendedAction := CustomRecommendedAction e |}.

(** An event with everything empty, to build concrete ones from. *)
Definition blank_event : HealthEvent :=
  {| Version := 1; Agent := ""; ComponentClass := ""; CheckName := ""; IsFatal := false;
     IsHealthy := false; Message := ""; Action := NONE; ErrorCode := []; EntitiesImpacted := [];
     Metadata := ∅; GeneratedSeconds := None; NodeName := ""; QuarantineOverrides := None;
     DrainOverrides := None; Strategy := EXECUTE_REMEDIATION; Id := "";
     CustomRecommendedAction := "" |}.

(** ** Status values *)

Definition StatusNotStarted : string := "NotStarted".
Definition StatusInProgress : string := "InProgress".
Definition StatusFailed : string := "Failed".
Definition StatusSucceeded : string := "Succeeded".
Definition AlreadyDrained : string := "AlreadyDrained".
Definition UnQuarantined : string := "UnQuarantined".
Definition Quarantined : string := "Quarantined".
Definition AlreadyQuarantined : string := "AlreadyQuarantined".
Definition Cancelled : string := "Cancelled".
