(* ===== verification/BreakerStore.v ===== *)
(** * The persisted state of the circuit breaker

    Models the config-map operations of [FaultQuarantineClient]
    ([fault-quarantine/pkg/informer/k8s_client.go]) that implement the
    breaker's client interface: creation on start, the conflict-retried writes
    of the state and of the cursor mode, and their reads.  The node counts come
    from the informer cache, a parameter.  The theorems close the loop with
    the breaker: what it forces is what a restarted process comes up with. *)

From stdpp Require Import gmap strings list.
From Stdlib Require Import ZArith Lia SpecFloat.
From S2P Require Import Prelude GoFloat Breaker KubeRetry.

Definition CursorModeResume : CursorMode := "RESUME".
Definition CursorModeCreate : CursorMode := "CREATE".

(** [cm.Data]; [None] is a nil map. *)
Record ConfigMap := { cmVersion : Z; cmData : option (gmap string string) }.

Definition with_data (cm : ConfigMap) (d : option (gmap string string)) : ConfigMap :=
  {| cmVersion := cmVersion cm; cmData := d |}.

(** [cm.Data[key]] of a nil or non-nil map; a missing key reads as "". *)
Definition data_at (key : string) (cm : ConfigMap) : string :=
  default "" (m ← cmData cm; m !! key).

(** The key of an object in its namespace. *)
Definition object_key (namespace name : string) : string := namespace +:+ "/" +:+ name.

Section Client.
Context {W : Type} `{API : !ObjectAPI W ConfigMap}.
Context (api_create : string -> ConfigMap -> W -> option kerror * W).
Context (GetNodeCounts : W -> result (Z * list string)).
Context (OnError : on_error W).

Definition client_EnsureCircuitBreakerConfigMap (name namespace : string) (initialStatus : State)
    (w : W) : option error * W :=
  match api_get (object_key namespace name) w with
  | (inl _, w1) => (None, w1)
  | (inr err, w1) =>
    if negb (IsNotFound err)
    then (Some (wrapf ("failed to get config map " +:+ name +:+ " in namespace " +:+ namespace)
                  (kmsg err)), w1)
    else
      let cm := {| cmVersion := 0;
                   cmData := Some (<["status" := initialStatus]> {["cursor" := CursorModeResume]}) |} in
      match api_create (object_key namespace name) cm w1 with
      | (Some err, w2) =>
          (Some (wrapf ("failed to create config map " +:+ name +:+ " in namespace " +:+ namespace)
                   (kmsg err)), w2)
      | (None, w2) => (None, w2)
      end
  end.

Definition client_GetTotalNodes (w : W) : result Z * W :=
  match GetNodeCounts w with
  | Ok (totalNodes, _) => (Ok totalNodes, w)
  | Err e => (Err (wrapf "failed to get node counts from informer" e), w)
  end.

Definition client_GetCordonedNodes (w : W) : result Z * W :=
  match GetNodeCounts w with
  | Ok (_, quarantinedNodes) => (Ok (Z.of_nat (length quarantinedNodes)), w)
  | Err e => (Err (wrapf "failed to get node counts from informer" e), w)
  end.

Definition client_ReadCircuitBreakerState (name namespace : string) (w : W) : result State * W :=
  match api_get (object_key namespace name) w with
  | (inr err, w1) =>
      (Err (wrapf ("failed to get config map " +:+ name +:+ " in namespace " +:+ namespace)
              (kmsg err)), w1)
  | (inl cm, w1) =>
      match cmData cm with
      | None => (Ok "", w1)
      | Some _ => (Ok (data_at "status" cm), w1)
      end
  end.

(** The function the two writes give to [retry.OnError]. *)
Definition write_key_attempt (k key value : string) (w : W) : attempt * W :=
  match api_get k w with
  | (inr err, w1) => (Failed err, w1)
  | (inl cm, w1) =>
      let data := default ∅ (cmData cm) in
      match api_update k (with_data cm (Some (<[key := value]> data))) w1 with
      | (Some err, w2) => (Failed err, w2)
      | (None, w2) => (Done, w2)
      end
  end.

Definition attempt_error (a : attempt) : option error :=
  match a with Done => None | Failed e => Some (kmsg e) | Panicked => Some "panic" end.

Definition client_WriteCircuitBreakerState (name namespace : string) (s : State) (w : W)
  : option error * W :=
  let '(a, w') := OnError retry_conflict (write_key_attempt (object_key namespace name) "status" s) w in
  (attempt_error a, w').

Definition client_ReadCursorMode (name namespace : string) (w : W) : result CursorMode * W :=
  match api_get (object_key namespace name) w with
  | (inr err, w1) =>
      (Err (wrapf ("failed to get config map " +:+ name +:+ " in namespace " +:+ namespace)
              (kmsg err)), w1)
  | (inl cm, w1) =>
      match cmData cm with
      | None => (Ok CursorModeResume, w1)
      | Some _ =>
          let cursor := data_at "cursor" cm in
          if (cursor ==s "") then (Ok CursorModeResume, w1) else (Ok cursor, w1)
      end
  end.

Definition client_WriteCursorMode (name namespace : string) (mode : CursorMode) (w : W)
  : option error * W :=
  let '(a, w') := OnError retry_conflict (write_key_attempt (object_key namespace name) "cursor" mode) w in
  (attempt_error a, w').

Definition FaultQuarantineClient : K8sClientOperations W := {|
  GetTotalNodes := client_GetTotalNodes;
  GetCordonedNodes := client_GetCordonedNodes;
  EnsureCircuitBreakerConfigMap := client_EnsureCircuitBreakerConfigMap;
  ReadCircuitBreakerState := client_ReadCircuitBreakerState;
  WriteCircuitBreakerState := client_WriteCircuitBreakerState;
  ReadCursorMode := client_ReadCursorMode;
  WriteCursorMode := client_WriteCursorMode;
|}.

(** ** A process alone with its config map

    Between the write and the next start nobody else commits: reads return the
    newest version unchanged. *)
Context {Laws : ObjectAPILaws W ConfigMap (option (gmap string string))}.
Context (rv_is : forall c : ConfigMap, rv c = cmVersion c)
        (content_is : forall c : ConfigMap, content c = cmData c).
Context (Hretry : retry_law OnError).

(** The API answers reads of an existing object, without other commits. *)
Definition quiet (w : W) : Prop :=
  forall k o, head (versions k w) = Some o -> api_get k w = (inl o, w).

(** Whoever committed last, the last version committed by the write has the
    value under the key and the other keys of the version it replaced. *)
Lemma write_key_committed k key value w w' :
  fst (OnError retry_conflict (write_key_attempt k key value) w) = Done ->
  snd (OnError retry_conflict (write_key_attempt k key value) w) = w' ->
  exists later new old earlier, versions k w' = later ++ new :: old :: earlier /\
    cmData new = Some (<[key := value]> (default ∅ (cmData old))).
Proof.
  intros Ha Hw. pose proof (Hretry retry_conflict (write_key_attempt k key value) w) as Hrun.
  rewrite Ha, Hw in Hrun.
  apply (retry_run_ind_inv _ _ (fun _ => True)
    (fun a w' => a = Done -> exists later new old earlier,
       versions k w' = later ++ new :: old :: earlier /\
       cmData new = Some (<[key := value]> (default ∅ (cmData old))))) in Hrun; auto.
  intros s a s' _ Hs ->. unfold write_key_attempt in Hs.
  destruct (api_get k s) as [[cm|err] w1] eqn:Hg; [|done].
  destruct (api_update k _ w1) as [[err|] w2] eqn:Hu; [done|]. simplify_eq.
  destruct (fun Hv => update_replaces_read k cm _ s w1 s' Hg Hv Hu)
    as (later & new & earlier & Hv & Hc); [by rewrite !rv_is|].
  exists later, new, cm, earlier. split; [done|]. by rewrite <- content_is, Hc, content_is.
Qed.

Lemma quiet_start name namespace s o w :
  quiet w -> head (versions (object_key namespace name) w) = Some o ->
  client_EnsureCircuitBreakerConfigMap name namespace s w = (None, w) /\
  client_ReadCircuitBreakerState name namespace w = (Ok (data_at "status" o), w).
Proof.
  intros Hq Ho. pose proof (Hq _ _ Ho) as Hg.
  unfold client_EnsureCircuitBreakerConfigMap, client_ReadCircuitBreakerState.
  rewrite Hg. split; [done|]. unfold data_at. by destruct (cmData o).
Qed.

(** C36 (the latch survives a restart).  When the breaker forces a known state
    and the write reports no error, then the committed config map carries
    that state; and if nobody commits after it and the API is reachable, a
    process that starts later with the same configuration comes up in exactly
    that state. *)
Theorem forced_state_survives_restart (b : slidingWindowBreaker) (s : State) (w w' : W)
    (b' : slidingWindowBreaker) (now : Z)
    (Hs : s = StateClosed \/ s = StateTripped)
    (Hforce : @ForceState W FaultQuarantineClient s b w = (None, b', w'))
    (Hvalid : validateBounds (cfg b) = None)
    (Hwindow : (0 < Window (cfg b) /\ Window (cfg b) + Second - 1 <= max_int64)%Z) :
  exists later new old earlier,
    versions (object_key (ConfigMapNamespace (cfg b)) (ConfigMapName (cfg b))) w'
    = later ++ new :: old :: earlier /\ data_at "status" new = s /\
    (later = [] -> quiet w' ->
     exists b2, @NewSlidingWindowBreaker W FaultQuarantineClient now (cfg b) w' = (Some (Ok b2), w') /\
       state b2 = s /\ state b' = s).
Proof.
  unfold ForceState in Hforce. simpl in Hforce. unfold client_WriteCircuitBreakerState in Hforce.
  set (k := object_key _ _) in *.
  destruct (OnError _ _ w) as [a w1] eqn:Ho. destruct a; simplify_eq/=.
  destruct (write_key_committed k "status" s w w') as (later & new & old & earlier & Hv & Hd);
    [by rewrite Ho..|].
  assert (Hst : data_at "status" new = s).
  { unfold data_at. rewrite Hd. simpl. by rewrite lookup_insert_eq. }
  exists later, new, old, earlier. split_and!; [done..|]. intros -> Hq.
  assert (Hh : head (versions k w') = Some new) by (by rewrite Hv).
  destruct (quiet_start _ _ StateClosed new w' Hq Hh) as [He Hr].
  unfold NewSlidingWindowBreaker. simpl. rewrite Hvalid, He, Hr, Hst.
  destruct (Z.leb_spec (Window (cfg b)) 0); [lia|].
  destruct (num_buckets_spec (Window (cfg b))) as [_ Hfit]; [unfold Second in Hwindow; lia|].
  destruct (Hfit (proj2 Hwindow)) as (_ & Hpos & _).
  rewrite (proj2 (Z.ltb_ge _ _)) by lia.
  destruct Hs as [-> | ->]; eexists; split; done.
Qed.

End Client.

(** ** Concrete runs *)

Module BreakerStoreDemo.

Abbreviation datamap := (option (gmap string string)).
Definition mkConfigMap (z : Z) (d : datamap) : ConfigMap := {| cmVersion := z; cmData := d |}.

#[export] Instance cm_api : ObjectAPI (store datamap) ConfigMap := store_api mkConfigMap cmVersion cmData.
#[export] Instance cm_laws : ObjectAPILaws (store datamap) ConfigMap datamap :=
  store_laws mkConfigMap cmVersion cmData (fun _ _ => eq_refl) (fun _ _ => eq_refl).

Definition create (k : string) (cm : ConfigMap) (w : store datamap) : option kerror * store datamap :=
  (None, {| committed := cmData cm :: committed w; pending := pending w |}).

Definition initial : store datamap :=
  {| committed := [Some {["status" := StateClosed]}]; pending := [] |}.

Definition client : K8sClientOperations (store datamap) :=
  FaultQuarantineClient create (fun _ => Ok (8, [])%Z) (bounded_retry 4).

Lemma forced_state_survives_restart_witness :
  let r := @ForceState _ client StateTripped
             (BreakerDemo.ring (BreakerDemo.config f64_zero 2)) initial in
  exists b2, (@NewSlidingWindowBreaker _ client 0
                (BreakerDemo.config f64_zero 2) r.2).1 = Some (Ok b2) /\ state b2 = StateTripped.
Proof.
  intros r. destruct r as [[e b'] w'] eqn:Hr.
  assert (He : e = None).
  { transitivity (r.1.1); [by rewrite Hr|vm_compute; reflexivity]. }
  subst e.
  destruct (forced_state_survives_restart (Laws := cm_laws) create (fun _ => Ok (8, [])%Z)
    (bounded_retry 4) (fun _ => eq_refl) (fun _ => eq_refl) (bounded_retry_law 4)
    (BreakerDemo.ring (BreakerDemo.config f64_zero 2)) StateTripped initial w' b' 0%Z)
    as (later & new & old & earlier & Hv & _ & Hrest).
  - by right.
  - exact Hr.
  - vm_compute. reflexivity.
  - vm_compute. intuition discriminate.
  - assert (Hlen : length (versions "nvsentinel/breaker" w') = 2%nat).
    { transitivity (length (versions "nvsentinel/breaker" r.2)); [by rewrite Hr|vm_compute; reflexivity]. }
    assert (Hl : later = []).
    { simpl in Hv, Hlen. rewrite Hv in Hlen. rewrite length_app in Hlen. simpl in Hlen.
      destruct later; [done|]. simpl in Hlen. lia. }
    destruct (Hrest Hl) as (b2 & Hb2 & Hst & _).
    { intros k o Ho. simpl in *. unfold store_get. destruct (numbered _ _); by simplify_eq/=. }
    exists b2. split; [exact (f_equal fst Hb2)|done].
Defined.

End BreakerStoreDemo.
