(* ===== verification/StateManager.v ===== *)
(** * The node state label

    Models [commons/pkg/statemanager/statemanager.go]: the seven values of the
    [dgxc.nvidia.com/nvsentinel-state] node label, the validation of a
    transition, and the two conflict-retried operations that change the label.
    The documented state machine is the relation [expected]; the validation
    decides it. *)

From stdpp Require Import gmap strings list relations.
From Stdlib Require Import ZArith Lia.
From S2P Require Import Prelude KubeRetry.

Definition NVSentinelStateLabelKey : string := "dgxc.nvidia.com/nvsentinel-state".

Abbreviation NVSentinelStateLabelValue := string (only parsing).

Definition QuarantinedLabelValue : NVSentinelStateLabelValue := "quarantined".
Definition DrainingLabelValue : NVSentinelStateLabelValue := "draining".
Definition DrainSucceededLabelValue : NVSentinelStateLabelValue := "drain-succeeded".
Definition DrainFailedLabelValue : NVSentinelStateLabelValue := "drain-failed".
Definition RemediatingLabelValue : NVSentinelStateLabelValue := "remediating".
Definition RemediationSucceededLabelValue : NVSentinelStateLabelValue := "remediation-succeeded".
Definition RemediationFailedLabelValue : NVSentinelStateLabelValue := "remediation-failed".

(** ** Validation of a transition *)

Definition validTransitions : gmap string (list string) := list_to_map [
  (QuarantinedLabelValue, [DrainingLabelValue; DrainSucceededLabelValue]);
  (DrainingLabelValue, [DrainSucceededLabelValue; DrainFailedLabelValue]);
  (DrainSucceededLabelValue, [RemediatingLabelValue; RemediationFailedLabelValue]);
  (DrainFailedLabelValue, []);
  (RemediatingLabelValue, [RemediationSucceededLabelValue; RemediationFailedLabelValue]);
  (RemediationSucceededLabelValue, [RemediationFailedLabelValue; RemediatingLabelValue]);
  (RemediationFailedLabelValue, [RemediationSucceededLabelValue; RemediatingLabelValue])
].

(** [current] is the label of the node, if it has one; the node name is used
    only in the metric. *)
Definition validateStateTransition (current : option string)
    (targetState : NVSentinelStateLabelValue) : option error :=
  match current with
  | None =>
      if (targetState <>s QuarantinedLabelValue)
      then Some ("unexpected state transition: none -> " +:+ targetState +:+
                 " (expected first state: " +:+ QuarantinedLabelValue +:+ ")")
      else None
  | Some currentState =>
      match validTransitions !! currentState with
      | None => Some ("unexpected state transition: unknown current state " +:+ currentState +:+
                      " -> " +:+ targetState)
      | Some allowedStates =>
          if bool_decide (targetState ∈ allowedStates) then None
          else Some ("unexpected state transition: " +:+ currentState +:+ " -> " +:+ targetState)
      end
  end.

(** ** Operations *)

(** What the operations read and write of a node; [None] is a nil label map.
    The other fields travel unread and are left out. *)
Record Node := { resourceVersion : Z; labels : option (gmap string string) }.

Definition label_of (n : Node) : option string :=
  m ← labels n; m !! NVSentinelStateLabelKey.

Definition with_labels (n : Node) (m : option (gmap string string)) : Node :=
  {| resourceVersion := resourceVersion n; labels := m |}.

Section Operations.
Context {W : Type} `{API : !ObjectAPI W Node}.

(** [delete(node.Labels, key)]: a no-op on a nil map. *)
Definition delete_label (n : Node) : Node :=
  with_labels n (delete NVSentinelStateLabelKey <$> labels n).

(** The function given to [retry.OnError]; the captured [nodeModified] is the
    second component of the state.  Assigning to a nil label map panics. *)
Definition updateLabelAttempt (nodeName : string) (newStateLabelValue : NVSentinelStateLabelValue)
    (removeStateLabel : bool) (s : W * bool) : attempt * (W * bool) :=
  let '(w, nodeModified) := s in
  match api_get nodeName w with
  | (inr err, w1) => (Failed err, (w1, nodeModified))
  | (inl node, w1) =>
    let currentValue := label_of node in
    if removeStateLabel then
      match currentValue with
      | None => (Done, (w1, nodeModified))
      | Some _ =>
        match api_update nodeName (delete_label node) w1 with
        | (Some err, w2) =>
            (Failed (kwrap ("failed to update node " +:+ nodeName +:+ " to remove label") err),
             (w2, nodeModified))
        | (None, w2) => (Done, (w2, true))
        end
      end
    else if bool_decide (currentValue = Some newStateLabelValue) then (Done, (w1, nodeModified))
    else
      let validationErr := validateStateTransition currentValue newStateLabelValue in
      match labels node with
      | None => (Panicked, (w1, nodeModified))
      | Some m =>
        match api_update nodeName
                (with_labels node (Some (<[NVSentinelStateLabelKey := newStateLabelValue]> m))) w1 with
        | (Some err, w2) =>
            (Failed (kwrap ("failed to update node " +:+ nodeName +:+ " with new label") err),
             (w2, nodeModified))
        | (None, w2) =>
            match validationErr with
            | Some e => (Failed (plain_error e), (w2, true))
            | None => (Done, (w2, true))
            end
        end
      end
  end.

Definition UpdateNVSentinelStateNodeLabel (OnError : on_error (W * bool)) (nodeName : string)
    (newStateLabelValue : NVSentinelStateLabelValue) (removeStateLabel : bool) (w : W)
  : attempt * (W * bool) :=
  OnError retry_conflict (updateLabelAttempt nodeName newStateLabelValue removeStateLabel) (w, false).

Definition removeIfMatchAttempt (nodeName : string) (expected : gset string) (s : W * bool)
  : attempt * (W * bool) :=
  let '(w, nodeModified) := s in
  match api_get nodeName w with
  | (inr err, w1) => (Failed err, (w1, nodeModified))
  | (inl node, w1) =>
    match label_of node with
    | None => (Done, (w1, nodeModified))
    | Some currentValue =>
      if bool_decide (currentValue ∉ expected) then (Done, (w1, nodeModified))
      else
        match api_update nodeName (delete_label node) w1 with
        | (Some err, w2) =>
            (Failed (kwrap ("failed to update node " +:+ nodeName +:+
                            " to conditionally remove label") err), (w2, nodeModified))
        | (None, w2) => (Done, (w2, true))
        end
    end
  end.

Definition RemoveNVSentinelStateNodeLabelIfMatch (OnError : on_error (W * bool))
    (nodeName : string) (expectedValues : list NVSentinelStateLabelValue) (w : W)
  : attempt * (W * bool) :=
  OnError retry_conflict (removeIfMatchAttempt nodeName (list_to_set expectedValues)) (w, false).

End Operations.

(** ** The documented state machine *)

(** The transitions the package comment lists as expected; [None] is a node
    without the label. *)
Inductive expected : option string -> string -> Prop :=
| exp_entry : expected None QuarantinedLabelValue
| exp_drain : expected (Some QuarantinedLabelValue) DrainingLabelValue
| exp_no_pods : expected (Some QuarantinedLabelValue) DrainSucceededLabelValue
| exp_drained : expected (Some DrainingLabelValue) DrainSucceededLabelValue
| exp_drain_failed : expected (Some DrainingLabelValue) DrainFailedLabelValue
| exp_remediate : expected (Some DrainSucceededLabelValue) RemediatingLabelValue
| exp_unsupported : expected (Some DrainSucceededLabelValue) RemediationFailedLabelValue
| exp_succeeded : expected (Some RemediatingLabelValue) RemediationSucceededLabelValue
| exp_failed : expected (Some RemediatingLabelValue) RemediationFailedLabelValue
| exp_recompute_s : expected (Some RemediationFailedLabelValue) RemediationSucceededLabelValue
| exp_recompute_f : expected (Some RemediationSucceededLabelValue) RemediationFailedLabelValue
| exp_again_s : expected (Some RemediationSucceededLabelValue) RemediatingLabelValue
| exp_again_f : expected (Some RemediationFailedLabelValue) RemediatingLabelValue.

#[export] Hint Constructors expected : nvs.

Lemma validTransitions_complete c allowed t :
  validTransitions !! c = Some allowed -> t ∈ allowed -> expected (Some c) t.
Proof.
  intros Hc Ht. apply elem_of_list_to_map_2 in Hc.
  repeat (apply elem_of_cons in Hc as [[= -> ->]|Hc];
    [repeat (apply elem_of_cons in Ht as [->|Ht]; [by constructor|]); by apply not_elem_of_nil in Ht|]).
  by apply not_elem_of_nil in Hc.
Qed.

(** Validation decides the state machine.  A transition is reported as
    unexpected exactly when it is not one of the transitions the package
    documents, for every current label, unknown ones included. *)
Theorem validateStateTransition_decides (current : option string) (target : string) :
  validateStateTransition current target = None <-> expected current target.
Proof.
  split.
  - destruct current as [c|]; simpl.
    + destruct (validTransitions !! c) as [allowed|] eqn:Hc; [|done].
      case_bool_decide as Ht; [|done]. intros _. by eapply validTransitions_complete.
    + destruct (target <>s QuarantinedLabelValue) eqn:Hq; [done|].
      intros _. to_prop. subst. constructor.
  - intros []; vm_compute; reflexivity.
Qed.

(** Reachability along expected transitions, from a node without the label,
    with the labels visited so far. *)
Inductive visits : list string -> option string -> Prop :=
| visits_start : visits [] None
| visits_step path current target :
    visits path current -> expected current target -> visits (path ++ [target]) (Some target).

(** The labels that can be reached only through a successful drain. *)
Definition after_drain (l : string) : Prop :=
  l = RemediatingLabelValue \/ l = RemediationSucceededLabelValue \/ l = RemediationFailedLabelValue.

Lemma visits_quarantined path l : visits path (Some l) -> head path = Some QuarantinedLabelValue.
Proof.
  remember (Some l) as o eqn:Ho. intros Hv. revert l Ho.
  induction Hv as [|path current target Hv IH He]; intros l Ho; simplify_eq.
  destruct current as [c|].
  - specialize (IH c eq_refl). by destruct path.
  - inversion Hv; subst. by inversion He.
Qed.

(** Along expected transitions every
    labelled node was quarantined first, a node reaches a remediation label
    only after the label drain-succeeded, and no expected transition leaves
    drain-failed. *)
Theorem remediation_after_drain (path : list string) (l : string)
    (Hv : visits path (Some l)) :
  head path = Some QuarantinedLabelValue /\
  (after_drain l -> DrainSucceededLabelValue ∈ path) /\
  (forall target, ~ expected (Some DrainFailedLabelValue) target).
Proof.
  split; [by eapply visits_quarantined|]. split; [|by inversion 1].
  remember (Some l) as o eqn:Ho. revert l Ho.
  induction Hv as [|path current target Hv IH He]; intros l Ho Hl; simplify_eq.
  apply elem_of_app. left.
  assert (Hc : current = Some DrainSucceededLabelValue \/
               exists c, current = Some c /\ after_drain c).
  { unfold after_drain in *. destruct Hl as [->|[->| ->]]; inversion He; subst; eauto 10. }
  destruct Hc as [->|(c & -> & Hc)]; [|by eapply IH].
  inversion Hv; subst. set_solver.
Qed.

(** ** Behaviour of the operations under concurrent writers *)

Section Refinement.
Context {W : Type} `{Laws : ObjectAPILaws W Node (option (gmap string string))}.
Context (rv_is : forall n : Node, rv n = resourceVersion n)
        (content_is : forall n : Node, content n = labels n).
Context (OnError : on_error (W * bool)) (Hretry : retry_law OnError).

(** In the history of the node, the version [old] was replaced by one whose
    labels are [ls]. *)
Definition replaced_by (w : W) (nodeName : string) (old : Node)
    (ls : option (gmap string string)) : Prop :=
  exists later new earlier, versions nodeName w = later ++ new :: old :: earlier /\ labels new = ls.

Lemma commit_replaces nodeName node ls w w1 w2 :
  api_get nodeName w = (inl node, w1) ->
  api_update nodeName (with_labels node ls) w1 = (None, w2) ->
  replaced_by w2 nodeName node ls.
Proof.
  intros Hg Hu.
  destruct (update_replaces_read nodeName node (with_labels node ls) w w1 w2 Hg) as
    (later & new & earlier & Hv & Hc); [by rewrite !rv_is|done|].
  exists later, new, earlier. split; [done|]. by rewrite <- content_is, Hc, content_is.
Qed.

(** What the label operation may have done when it ends. *)
Definition update_outcome (nodeName new : string) (a : attempt) (s : W * bool) : Prop :=
  let '(w, modified) := s in
  if modified then
    exists node m, labels node = Some m /\ label_of node <> Some new /\
      replaced_by w nodeName node (Some (<[NVSentinelStateLabelKey := new]> m)) /\
      match validateStateTransition (label_of node) new with
      | Some e => a = Failed (plain_error e)
      | None => a = Done
      end
  else
    match a with
    | Done => exists node, head (versions nodeName w) = Some node /\ label_of node = Some new
    | _ => True
    end.

Lemma updateLabelAttempt_spec nodeName new s a s' :
  s.2 = false -> updateLabelAttempt nodeName new false s = (a, s') ->
  update_outcome nodeName new a s' /\ (retry_conflict a = true -> s'.2 = false).
Proof.
  destruct s as [w md]. simpl. intros ->. unfold updateLabelAttempt.
  destruct (api_get nodeName w) as [[node|err] w1] eqn:Hg; [|by intros [= <- <-]].
  case_bool_decide as Hl.
  { intros [= <- <-]. split; [|done]. exists node. split; [by eapply get_newest|done]. }
  destruct (labels node) as [m|] eqn:Hm; [|by intros [= <- <-]].
  destruct (api_update _ _ w1) as [[err|] w2] eqn:Hu; [by intros [= <- <-]|].
  pose proof (commit_replaces nodeName node _ w w1 w2 Hg Hu) as Hr.
  intros Ha. simpl.
  destruct (validateStateTransition (label_of node) new) as [e|] eqn:Hv; simplify_eq.
  - split; [|done]. exists node, m. rewrite Hv. auto.
  - split; [|done]. exists node, m. rewrite Hv. auto.
Qed.

(** When [UpdateNVSentinelStateNodeLabel] reports a
    modification, some committed version of the node was replaced by itself
    with the new label, and the returned error is exactly the validation
    result for that version's label: an unexpected transition is reported but
    the label is still written.  When it reports success without a
    modification, the newest version it read already had the label.  This
    holds whatever other writers do between the calls. *)
Theorem UpdateNVSentinelStateNodeLabel_spec (nodeName new : string) (w : W) :
  let '(a, s) := UpdateNVSentinelStateNodeLabel OnError nodeName new false w in
  update_outcome nodeName new a s.
Proof.
  unfold UpdateNVSentinelStateNodeLabel.
  pose proof (Hretry retry_conflict (updateLabelAttempt nodeName new false) (w, false)) as Hrun.
  destruct (OnError _ _ _) as [a s]. simpl in Hrun.
  apply (retry_run_ind_inv retry_conflict (updateLabelAttempt nodeName new false)
           (fun s => s.2 = false) (update_outcome nodeName new)) in Hrun; [done| | |done].
  - intros s1 a1 s2 Hs He Hr. by apply (updateLabelAttempt_spec nodeName new s1 a1 s2 Hs He).
  - intros s1 a1 s2 Hs He. by apply (updateLabelAttempt_spec nodeName new s1 a1 s2 Hs He).
Qed.

(** What the conditional removal may have done when it ends. *)
Definition remove_outcome (nodeName : string) (expected_values : list string)
    (a : attempt) (s : W * bool) : Prop :=
  let '(w, modified) := s in
  if modified then
    a = Done /\ exists node v, label_of node = Some v /\ v ∈ expected_values /\
      replaced_by w nodeName node (delete NVSentinelStateLabelKey <$> labels node)
  else
    match a with
    | Done => exists node, head (versions nodeName w) = Some node /\
        forall v, label_of node = Some v -> v ∉ expected_values
    | _ => True
    end.

Lemma removeIfMatchAttempt_spec nodeName vs s a s' :
  s.2 = false -> removeIfMatchAttempt nodeName (list_to_set vs) s = (a, s') ->
  remove_outcome nodeName vs a s' /\ (retry_conflict a = true -> s'.2 = false).
Proof.
  destruct s as [w md]. simpl. intros ->. unfold removeIfMatchAttempt.
  destruct (api_get nodeName w) as [[node|err] w1] eqn:Hg; [|by intros [= <- <-]].
  pose proof (get_newest _ _ _ _ Hg) as Hh.
  destruct (label_of node) as [v|] eqn:Hl.
  2: { intros [= <- <-]. split; [|done]. exists node. split; [done|]. by rewrite Hl. }
  case_bool_decide as Hin; rewrite elem_of_list_to_set in Hin.
  { intros [= <- <-]. split; [|done]. exists node. split; [done|]. rewrite Hl. naive_solver. }
  destruct (api_update _ _ w1) as [[err|] w2] eqn:Hu; [by intros [= <- <-]|].
  intros [= <- <-]. split; [|done]. simpl. split; [done|].
  exists node, v. split_and!; [done|by destruct (decide (v ∈ vs))|].
  by apply (commit_replaces nodeName node _ w w1 w2).
Qed.

(** C35 (conditional removal is atomic).  When
    [RemoveNVSentinelStateNodeLabelIfMatch] reports a removal, the version it
    replaced carried one of the expected values, so a newer value written
    concurrently by another owner is never removed; when it reports success
    without a removal, the newest version it read carried none of them. *)
Theorem RemoveNVSentinelStateNodeLabelIfMatch_spec (nodeName : string) (vs : list string) (w : W) :
  let '(a, s) := RemoveNVSentinelStateNodeLabelIfMatch OnError nodeName vs w in
  remove_outcome nodeName vs a s.
Proof.
  unfold RemoveNVSentinelStateNodeLabelIfMatch.
  pose proof (Hretry retry_conflict (removeIfMatchAttempt nodeName (list_to_set vs)) (w, false)) as Hrun.
  destruct (OnError _ _ _) as [a s]. simpl in Hrun.
  apply (retry_run_ind_inv retry_conflict (removeIfMatchAttempt nodeName (list_to_set vs))
           (fun s => s.2 = false) (remove_outcome nodeName vs)) in Hrun; [done| | |done].
  - intros s1 a1 s2 Hs He Hr. by apply (removeIfMatchAttempt_spec nodeName vs s1 a1 s2 Hs He).
  - intros s1 a1 s2 Hs He. by apply (removeIfMatchAttempt_spec nodeName vs s1 a1 s2 Hs He).
Qed.

End Refinement.

(** ** Concrete runs *)

Module StateManagerDemo.

Abbreviation labelmap := (option (gmap string string)).

Definition mkNode (z : Z) (m : labelmap) : Node := {| resourceVersion := z; labels := m |}.

#[export] Instance node_api : ObjectAPI (store labelmap) Node := store_api mkNode resourceVersion labels.
#[export] Instance node_laws : ObjectAPILaws (store labelmap) Node labelmap :=
  store_laws mkNode resourceVersion labels (fun _ _ => eq_refl) (fun _ _ => eq_refl).

Definition labelled (v : string) : labelmap := Some {[ NVSentinelStateLabelKey := v ]}.

(** A drained node that fault-remediation starts to remediate just before the
    first update. *)
Definition contended : store labelmap :=
  {| committed := [labelled DrainSucceededLabelValue];
     pending := [[labelled RemediatingLabelValue]] |}.

Definition newest_label (w : store labelmap) : option string :=
  m ← head (committed w); m' ← m; m' !! NVSentinelStateLabelKey.

(** The conditional removal conflicts, reads again and leaves the newer value. *)
Example contended_removal :
  let r := RemoveNVSentinelStateNodeLabelIfMatch (bounded_retry 4) "node-1"
             [DrainingLabelValue; DrainSucceededLabelValue] contended in
  (fst r, snd (snd r), newest_label (fst (snd r))) = (Done, false, Some RemediatingLabelValue).
Proof. vm_compute. reflexivity. Qed.

(** Skipping the drain is reported, and the label is written all the same. *)
Definition skipped_drain : attempt * (store labelmap * bool) :=
  UpdateNVSentinelStateNodeLabel (bounded_retry 4) "node-1" RemediatingLabelValue false
    {| committed := [labelled QuarantinedLabelValue]; pending := [] |}.

Lemma UpdateNVSentinelStateNodeLabel_witness :
  snd (snd skipped_drain) = true /\ newest_label (fst (snd skipped_drain)) = Some RemediatingLabelValue /\
  update_outcome "node-1" RemediatingLabelValue (fst skipped_drain) (snd skipped_drain).
Proof.
  split; [vm_compute; reflexivity|]. split; [vm_compute; reflexivity|].
  pose proof (UpdateNVSentinelStateNodeLabel_spec (fun _ => eq_refl) (fun _ => eq_refl)
    (bounded_retry 4) (bounded_retry_law 4) "node-1" RemediatingLabelValue
    {| committed := [labelled QuarantinedLabelValue]; pending := [] |}) as H.
  fold skipped_drain in H. destruct skipped_drain as [a s]. exact H.
Defined.

Lemma RemoveNVSentinelStateNodeLabelIfMatch_witness :
  let '(a, s) := RemoveNVSentinelStateNodeLabelIfMatch (bounded_retry 4) "node-1"
                   [DrainingLabelValue; DrainSucceededLabelValue] contended in
  remove_outcome "node-1" [DrainingLabelValue; DrainSucceededLabelValue] a s.
Proof.
  exact (RemoveNVSentinelStateNodeLabelIfMatch_spec (fun _ => eq_refl) (fun _ => eq_refl)
    (bounded_retry 4) (bounded_retry_law 4) "node-1"
    [DrainingLabelValue; DrainSucceededLabelValue] contended).
Defined.

Lemma remediation_after_drain_witness :
  head [QuarantinedLabelValue; DrainSucceededLabelValue; RemediatingLabelValue]
  = Some QuarantinedLabelValue.
Proof.
  apply (remediation_after_drain
    [QuarantinedLabelValue; DrainSucceededLabelValue; RemediatingLabelValue] RemediatingLabelValue).
  apply (visits_step [QuarantinedLabelValue; DrainSucceededLabelValue] (Some DrainSucceededLabelValue));
    [|constructor].
  apply (visits_step [QuarantinedLabelValue] (Some QuarantinedLabelValue)); [|constructor].
  apply (visits_step [] None); constructor.
Defined.

End StateManagerDemo.
