(* ===== verification/AnnotationMap.v ===== *)
(** * The quarantine annotation of a node

    Models [fault-quarantine/pkg/healthEventsAnnotation]: the map from effect
    keys (agent, class, check, node, version, entity, error code) to the health
    event that holds the key, which fault-quarantine keeps in a node
    annotation.  The map stores pointers, and both compaction and
    serialization compare pointers, so a stored value is a [Ref]: an address
    and the event at that address (stored events are never mutated; clones get
    the next fresh address).  The order in which Go visits a map is the
    parameter [range]. *)

From stdpp Require Import gmap strings list fin_maps sorting.
From Stdlib Require Import ZArith Lia Ascii.
From S2P Require Import Prelude HealthEvent.

(** ** Data *)

Record HealthEventKey := {
  kAgent : string;
  kComponentClass : string;
  kCheckName : string;
  kNodeName : string;
  kEntityType : string;
  kEntityValue : string;
  kErrorCode : string;
  kVersion : Z;
}.

#[export] Instance HealthEventKey_eq_dec : EqDecision HealthEventKey.
Proof. solve_decision. Defined.

#[export] Instance HealthEventKey_countable : Countable HealthEventKey.
Proof.
  apply (inj_countable'
    (fun k => (kAgent k, kComponentClass k, kCheckName k, kNodeName k, kEntityType k,
               kEntityValue k, kErrorCode k, kVersion k))
    (fun '(a, c, n, d, t, v, e, z) => Build_HealthEventKey a c n d t v e z)).
  by intros [].
Defined.

(** A pointer to an event and the event it points at. *)
Record Ref := { addr : nat; ev : HealthEvent }.

Record HealthEventsAnnotationMap := {
  Events : gmap HealthEventKey Ref;
  fresh : nat;   (** the next unused address *)
}.

Definition NewHealthEventsAnnotationMap (next : nat) : HealthEventsAnnotationMap :=
  {| Events := ∅; fresh := next |}.

(** ** Keys of an event *)

Definition CreateEventKeyForEntity (event : HealthEvent) (entity : option Entity) : HealthEventKey :=
  {| kAgent := Agent event; kComponentClass := ComponentClass event;
     kCheckName := CheckName event; kNodeName := NodeName event;
     kEntityType := match entity with Some e => EntityType e | None => "" end;
     kEntityValue := match entity with Some e => EntityValue e | None => "" end;
     kErrorCode := ""; kVersion := Version event |}.

Definition with_code (key : HealthEventKey) (code : string) : HealthEventKey :=
  {| kAgent := kAgent key; kComponentClass := kComponentClass key; kCheckName := kCheckName key;
     kNodeName := kNodeName key; kEntityType := kEntityType key; kEntityValue := kEntityValue key;
     kErrorCode := code; kVersion := kVersion key |}.

Definition createCheckLevelKeys (event : HealthEvent) (errorCodes : list string) :
    list HealthEventKey :=
  match errorCodes with
  | [] => [CreateEventKeyForEntity event None]
  | _ => map (fun code => with_code (CreateEventKeyForEntity event None) code) errorCodes
  end.

Definition createEntityKeys (event : HealthEvent) (entities : list Entity)
    (errorCodes : list string) : list HealthEventKey :=
  match errorCodes with
  | [] => map (fun entity => CreateEventKeyForEntity event (Some entity)) entities
  | _ => flat_map (fun entity =>
           map (fun code => with_code (CreateEventKeyForEntity event (Some entity)) code) errorCodes)
           entities
  end.

Definition createEventKeys (event : HealthEvent) : list HealthEventKey :=
  match EntitiesImpacted event with
  | [] => createCheckLevelKeys event (ErrorCode event)
  | _ => createEntityKeys event (EntitiesImpacted event) (ErrorCode event)
  end.

(** The slice capacity [createEntityKeys] reserves, on 64-bit [int]s. *)
Definition eventKeysCapacity (entityCount errorCodeCount : Z) : Z :=
  if ((entityCount =? 0) || (errorCodeCount =? 0))%Z then 0
  else if (max_int64 `quot` errorCodeCount <? entityCount)%Z then 0
  else wrap_int64 (entityCount * errorCodeCount).

(** ** Rectangles *)

(** Go compares strings by bytes, which is stdpp's [String.le]. *)

Record annotationRectangle := {
  keys : list HealthEventKey;
  entities : list HealthEventKey;
  errorCodes : list string;
}.

#[export] Instance annotationRectangle_inhabited : Inhabited annotationRectangle :=
  populate {| keys := []; entities := []; errorCodes := [] |}.

Definition annotationStringsKey (values : list string) : string := frames "" values.

Definition annotationEntityKey (key : HealthEventKey) : string :=
  annotationStringsKey [kEntityType key; kEntityValue key].

Definition by_code (a b : HealthEventKey) : Prop := String.le (kErrorCode a) (kErrorCode b).
Definition by_entity (a b : HealthEventKey) : Prop :=
  String.le (annotationEntityKey a) (annotationEntityKey b).
#[export] Instance by_code_dec a b : Decision (by_code a b).
Proof. unfold by_code. apply _. Defined.
#[export] Instance by_entity_dec a b : Decision (by_entity a b).
Proof. unfold by_entity. apply _. Defined.

(** [proto.Clone] followed by the two assignments; the address of the clone is
    chosen by the caller. *)
Definition projectEventForRectangle (event : HealthEvent) (rectangle : annotationRectangle) :
    HealthEvent :=
  let es :=
    match entities rectangle with
    | [e] => if (kEntityType e ==s "") && (kEntityValue e ==s "") then []
             else [{| EntityType := kEntityType e; EntityValue := kEntityValue e |}]
    | l => map (fun e => {| EntityType := kEntityType e; EntityValue := kEntityValue e |}) l
    end in
  let cs :=
    match errorCodes rectangle with
    | [c] => if (c ==s "") && negb (bool_decide ("" ∈ ErrorCode event)) then [] else [c]
    | l => l
    end in
  with_entities_codes event es cs.

Section with_range.
Context `{MapRange}.

Definition sortedAnnotationRectangles (groups : gmap string annotationRectangle) :
    list annotationRectangle :=
  let groupKeys := merge_sort String.le (range groups).*1 in
  map (fun key =>
         let rectangle := groups !!! key in
         {| keys := keys rectangle;
            errorCodes := merge_sort String.le (errorCodes rectangle);
            entities := merge_sort by_entity (entities rectangle) |}) groupKeys.

(** A row is the slice of keys of one entity; [rowKeys[0]] is [take 1]. *)
Definition row_codes (rowKeys : list HealthEventKey) : list string :=
  map kErrorCode (merge_sort by_code rowKeys).

(** [byCodes] after the loop over the rows. *)
Definition addRow (rectangle : annotationRectangle) (row : list HealthEventKey) :
    annotationRectangle :=
  let rowKeys := merge_sort by_code row in
  {| keys := keys rectangle ++ rowKeys; entities := entities rectangle ++ take 1 rowKeys;
     errorCodes := errorCodes rectangle |}.

Definition rowGroups (rows : list (list HealthEventKey)) : gmap string annotationRectangle :=
  group_fold (fun row => annotationStringsKey (row_codes row))
    (fun row => {| keys := []; entities := []; errorCodes := row_codes row |}) addRow rows.

Definition annotationRowRectangles (ks : list HealthEventKey) : list annotationRectangle :=
  let byEntity := group_by annotationEntityKey ks in
  sortedAnnotationRectangles (rowGroups (range byEntity).*2).

Definition column_entities (columnKeys : list HealthEventKey) : list string :=
  map annotationEntityKey (merge_sort by_entity columnKeys).

(** [byEntities] after the loop over the columns. *)
Definition addColumn (rectangle : annotationRectangle) (column : string * list HealthEventKey) :
    annotationRectangle :=
  {| keys := keys rectangle ++ merge_sort by_entity column.2;
     entities := entities rectangle; errorCodes := errorCodes rectangle ++ [column.1] |}.

Definition columnGroups (columns : list (string * list HealthEventKey)) :
    gmap string annotationRectangle :=
  group_fold (fun column => annotationStringsKey (column_entities column.2))
    (fun column => {| keys := []; entities := merge_sort by_entity column.2; errorCodes := [] |})
    addColumn columns.

Definition annotationColumnRectangles (ks : list HealthEventKey) : list annotationRectangle :=
  let byCode := group_by kErrorCode ks in
  sortedAnnotationRectangles (columnGroups (range byCode)).

Definition compactAnnotationRectangles (ks : list HealthEventKey) : list annotationRectangle :=
  let rows := annotationRowRectangles ks in
  let columns := annotationColumnRectangles ks in
  if decide (length columns < length rows) then columns else rows.

(** The body of the inner loop of [compactStoredValues]. *)
Definition storeRectangle (event : HealthEvent) (he : HealthEventsAnnotationMap)
    (rectangle : annotationRectangle) : HealthEventsAnnotationMap :=
  let projected := {| addr := fresh he; ev := projectEventForRectangle event rectangle |} in
  {| Events := fold_left (fun m key => <[key := projected]> m) (keys rectangle) (Events he);
     fresh := S (fresh he) |}.

(** [keysByEvent]: for every pointer, the event and the keys that hold it. *)
Definition keysByEvent (m : gmap HealthEventKey Ref) : gmap nat (HealthEvent * list HealthEventKey) :=
  group_fold (fun kr => addr kr.2) (fun kr => (ev kr.2, []))
    (fun ek kr => (ek.1, ek.2 ++ [kr.1])) (range m).

Definition compactStoredValues (he : HealthEventsAnnotationMap) : HealthEventsAnnotationMap :=
  fold_left (fun he' ek => fold_left (storeRectangle ek.2.1) (compactAnnotationRectangles ek.2.2) he')
    (range (keysByEvent (Events he))) he.

(** ** Matching *)

Definition gpuRecoverySlotKey : string := "nvsentinel.dgxc.nvidia.com/gpu-recovery-slot".

Definition entity_eqb (e : Entity) (t v : string) : bool :=
  (EntityType e ==s t) && (EntityValue e ==s v).

Definition countEntityType (event : HealthEvent) (entityType : string) : nat :=
  length (filter (fun e => EntityType e = entityType) (EntitiesImpacted event)).

Definition slotEntitiesFromImpacted (event : HealthEvent) : list Entity :=
  filter (fun e => EntityType e = "GPU"%string \/ EntityType e = "PCI"%string)
    (EntitiesImpacted event).

(** The JSON text of a slot, [json.Marshal] and [json.Unmarshal] on
    [[]recoverySlotEntity]. *)
Class SlotCodec := {
  slot_marshal : list Entity -> option string;
  slot_unmarshal : string -> option (list Entity) }.

(** What the code relies on: a slot that was encoded is decoded again, and no
    encoding is the empty string. *)
Class SlotCodecLaws `{SlotCodec} := {
  slot_roundtrip l s : slot_marshal l = Some s -> slot_unmarshal s = Some l;
  slot_nonempty l s : slot_marshal l = Some s -> s <> ""%string }.

Context `{SlotCodec}.

(** The event to store, with the next fresh address. *)
Definition withGPUSlotMetadata (event : Ref) (next : nat) : Ref * nat :=
  if negb (countEntityType (ev event) "GPU_UUID" =? 1)%nat then (event, next)
  else if bool_decide (is_Some (Metadata (ev event) !! gpuRecoverySlotKey)) then (event, next)
  else
    let impacted := slotEntitiesFromImpacted (ev event) in
    match impacted with
    | [] => (event, next)
    | _ =>
        match slot_marshal impacted with
        | None => (event, next)
        | Some encoded =>
            ({| addr := next;
                ev := with_metadata (ev event)
                        (<[gpuRecoverySlotKey := encoded]> (Metadata (ev event))) |}, S next)
        end
    end.

Definition gpuSlotEntities (event : HealthEvent) : list Entity :=
  match Metadata event !! gpuRecoverySlotKey with
  | Some raw =>
      if raw <>s "" then
        match slot_unmarshal raw with
        | Some slot => slot
        | None => slotEntitiesFromImpacted event
        end
      else slotEntitiesFromImpacted event
  | None => slotEntitiesFromImpacted event
  end.

Definition entityInEvent (key : HealthEventKey) (event : HealthEvent) : bool :=
  existsb (fun e => entity_eqb e (kEntityType key) (kEntityValue key)) (EntitiesImpacted event).

Definition replacedGPUMatches (storedKey : HealthEventKey) (storedEvent event : HealthEvent) : bool :=
  if negb (IsHealthy event) || (ComponentClass event <>s "GPU")
     || (kEntityType storedKey <>s "GPU_UUID") then false
  else
    match gpuSlotEntities storedEvent with
    | [] => false
    | slot => forallb (fun stored =>
                existsb (fun e => entity_eqb e (EntityType stored) (EntityValue stored))
                  (EntitiesImpacted event)) slot
    end.

Definition entityMatches (storedKey : HealthEventKey) (storedEvent event : HealthEvent) : bool :=
  (length (EntitiesImpacted event) =? 0)%nat || entityInEvent storedKey event
  || replacedGPUMatches storedKey storedEvent event.

Definition errorCodeMatches (stored : string) (incoming : list string) : bool :=
  bool_decide (stored ∈ incoming).

Definition keyMatchesEvent (storedKey : HealthEventKey) (storedEvent event : HealthEvent) : bool :=
  if (kAgent storedKey <>s Agent event) || (kComponentClass storedKey <>s ComponentClass event)
     || (kCheckName storedKey <>s CheckName event) || (kNodeName storedKey <>s NodeName event)
     || negb (kVersion storedKey =? Version event)%Z then false
  else if negb (entityMatches storedKey storedEvent event) then false
  else if (0 <? length (ErrorCode event))%nat
          && negb (errorCodeMatches (kErrorCode storedKey) (ErrorCode event)) then false
  else true.

Definition keyMatchesCheck (key : HealthEventKey) (event : HealthEvent) : bool :=
  (kAgent key ==s Agent event) && (kComponentClass key ==s ComponentClass event)
  && (kCheckName key ==s CheckName event) && (kVersion key =? Version event)%Z
  && (kNodeName key ==s NodeName event).

Definition findFirstMatch (he : HealthEventsAnnotationMap) (event : HealthEvent) : option Ref :=
  snd <$> find (fun kr => keyMatchesEvent kr.1 (ev kr.2) event) (range (Events he)).

Definition getEventByCheck (he : HealthEventsAnnotationMap) (event : HealthEvent) : option Ref :=
  snd <$> find (fun kr => keyMatchesCheck kr.1 event) (range (Events he)).

Definition GetEvent (he : HealthEventsAnnotationMap) (event : HealthEvent) : option Ref :=
  match findFirstMatch he event with
  | Some storedEvent => Some storedEvent
  | None => if (length (EntitiesImpacted event) =? 0)%nat then getEventByCheck he event else None
  end.

Definition HasMatchingEntities (he : HealthEventsAnnotationMap) (event : HealthEvent) : bool :=
  existsb (fun kr => keyMatchesEvent kr.1 (ev kr.2) event) (range (Events he)).

Definition IsEmpty (he : HealthEventsAnnotationMap) : bool := (size (Events he) =? 0)%nat.
Definition Count (he : HealthEventsAnnotationMap) : nat := size (Events he).

(** ** Adding *)

(** The loop over the keys: the map and the two flags. *)
Definition addEventKeys (m : gmap HealthEventKey Ref) (event : Ref) (ks : list HealthEventKey) :
    gmap HealthEventKey Ref * bool * bool :=
  fold_left (fun '(m, updated, replaced) key =>
    match m !! key with
    | None => (<[key := event]> m, true, replaced)
    | Some existing =>
        if bool_decide (Action (ev existing) = Action (ev event)) then (m, updated, replaced)
        else (<[key := event]> m, true, true)
    end) ks (m, false, false).

Definition keep_ok (keep : option (HealthEventKey -> bool)) (key : HealthEventKey) : bool :=
  match keep with None => true | Some f => f key end.

Definition AddOrUpdateEventFiltered (he : HealthEventsAnnotationMap) (event : Ref)
    (keep : option (HealthEventKey -> bool)) : HealthEventsAnnotationMap * bool :=
  let ks := createEventKeys (ev event) in
  let '(kept, partial) :=
    match keep with
    | None => (ks, false)
    | Some f =>
        let kept := List.filter f ks in (kept, negb (length kept =? length ks)%nat)
    end in
  let '(stored, next) := withGPUSlotMetadata event (fresh he) in
  let '(m, updated, replaced) := addEventKeys (Events he) stored kept in
  let he' := {| Events := m; fresh := next |} in
  if updated && (partial || replaced) && (0 <? size m)%nat
  then (compactStoredValues he', updated) else (he', updated).

Definition AddOrUpdateEvent (he : HealthEventsAnnotationMap) (event : Ref) :
    HealthEventsAnnotationMap * bool := AddOrUpdateEventFiltered he event None.

(** ** Removing *)

(** The common end of the two removal operations. *)
Definition removeKeys (he : HealthEventsAnnotationMap) (keysToRemove : list HealthEventKey) :
    HealthEventsAnnotationMap * nat :=
  let m := fold_left (fun m key => delete key m) keysToRemove (Events he) in
  let he' := {| Events := m; fresh := fresh he |} in
  (if (0 <? length keysToRemove)%nat && (0 <? size m)%nat then compactStoredValues he' else he',
   length keysToRemove).

Definition keyMatchesCheckRecovery (key : HealthEventKey) (event : HealthEvent)
    (keep : option (HealthEventKey -> bool)) : bool :=
  if negb (keyMatchesCheck key event) then false
  else if (0 <? length (ErrorCode event))%nat
          && negb (errorCodeMatches (kErrorCode key) (ErrorCode event)) then false
  else keep_ok keep key.

Definition removeAllEntitiesForCheck (he : HealthEventsAnnotationMap) (event : HealthEvent)
    (keep : option (HealthEventKey -> bool)) : HealthEventsAnnotationMap * nat :=
  removeKeys he
    (List.filter (fun key => keyMatchesCheckRecovery key event keep) (range (Events he)).*1).

Definition RemoveEventFiltered (he : HealthEventsAnnotationMap) (event : HealthEvent)
    (keep : option (HealthEventKey -> bool)) : HealthEventsAnnotationMap * nat :=
  if (length (EntitiesImpacted event) =? 0)%nat then removeAllEntitiesForCheck he event keep
  else
    removeKeys he
      (List.filter (fun kr => keyMatchesEvent kr.1 (ev kr.2) event && keep_ok keep kr.1)
         (range (Events he))).*1.

Definition RemoveEvent (he : HealthEventsAnnotationMap) (event : HealthEvent) :
    HealthEventsAnnotationMap * nat := RemoveEventFiltered he event None.

Definition RemoveEntitiesForCheck (he : HealthEventsAnnotationMap) (event : HealthEvent) :
    HealthEventsAnnotationMap :=
  {| Events := fold_left (fun m key => delete key m) (createEventKeys event) (Events he);
     fresh := fresh he |}.

Definition GetAllCheckNames (he : HealthEventsAnnotationMap) : list string :=
  let checkNamesMap : gmap string bool :=
    fold_left (fun m kr => if CheckName (ev kr.2) <>s "" then <[CheckName (ev kr.2) := true]> m else m)
      (range (Events he)) ∅ in
  (range checkNamesMap).*1.

(** ** Serialization

    [MarshalJSON] encodes the slice of distinct event pointers and
    [UnmarshalJSON] rebuilds the map from the decoded slice; the slices are
    what is modelled, a decoded event gets an address of its own. *)

Definition MarshalJSON (he : HealthEventsAnnotationMap) : list HealthEvent :=
  (fold_left (fun '(events, seen) kr =>
     if bool_decide (addr kr.2 ∈ (seen : gset nat)) then (events, seen)
     else (events ++ [ev kr.2], {[addr kr.2]} ∪ seen)) (range (Events he)) ([], ∅)).1.

Definition UnmarshalJSON (he : HealthEventsAnnotationMap) (events : list HealthEvent) :
    HealthEventsAnnotationMap :=
  fold_left (fun he' event =>
    let ref := {| addr := fresh he'; ev := event |} in
    {| Events := fold_left (fun m key => <[key := ref]> m) (createEventKeys event) (Events he');
       fresh := S (fresh he') |}) events {| Events := ∅; fresh := fresh he |}.

End with_range.

(** ** The keys of an event as a product

    A key is the identity of the event (everything but entity and code), an
    entity and a code; the keys of an event are the product of its entities
    and its codes, each read as the empty one when the list is empty. *)

Definition key_ident (k : HealthEventKey) : string * string * string * string * Z :=
  (kAgent k, kComponentClass k, kCheckName k, kNodeName k, kVersion k).
Definition key_entity (k : HealthEventKey) : string * string := (kEntityType k, kEntityValue k).
Definition event_ident (e : HealthEvent) : string * string * string * string * Z :=
  (Agent e, ComponentClass e, CheckName e, NodeName e, Version e).
Definition event_entities (e : HealthEvent) : list (string * string) :=
  match EntitiesImpacted e with
  | [] => [(""%string, ""%string)]
  | es => map (fun x => (EntityType x, EntityValue x)) es
  end.
Definition event_codes (e : HealthEvent) : list string :=
  match ErrorCode e with [] => [""%string] | cs => cs end.

Lemma key_ext k1 k2 :
  key_ident k1 = key_ident k2 -> key_entity k1 = key_entity k2 ->
  kErrorCode k1 = kErrorCode k2 -> k1 = k2.
Proof. destruct k1, k2. unfold key_ident, key_entity. simpl. congruence. Qed.

Lemma elem_of_createEventKeys e k :
  k ∈ createEventKeys e <->
  key_ident k = event_ident e /\ key_entity k ∈ event_entities e /\ kErrorCode k ∈ event_codes e.
Proof.
  assert (Hkey : forall en c, k = with_code (CreateEventKeyForEntity e en) c <->
    key_ident k = event_ident e /\
    key_entity k = match en with Some x => (EntityType x, EntityValue x) | None => (""%string, ""%string) end /\
    kErrorCode k = c).
  { intros en c. split; [intros ->; by destruct en|].
    intros (H1 & H2 & H3). apply key_ext; [by rewrite H1|by rewrite H2; destruct en|done]. }
  assert (Hempty : forall en, CreateEventKeyForEntity e en = with_code (CreateEventKeyForEntity e en) "").
  { done. }
  unfold createEventKeys, event_entities, event_codes.
  destruct (EntitiesImpacted e) as [|e0 es] eqn:He.
  - unfold createCheckLevelKeys. destruct (ErrorCode e) as [|c cs].
    + rewrite !list_elem_of_singleton, Hempty, Hkey. done.
    + rewrite list_elem_of_fmap, list_elem_of_singleton. setoid_rewrite Hkey. naive_solver.
  - unfold createEntityKeys. destruct (ErrorCode e) as [|c cs].
    + setoid_rewrite list_elem_of_fmap. rewrite list_elem_of_singleton.
      setoid_rewrite Hempty. setoid_rewrite Hkey. naive_solver.
    + setoid_rewrite list_elem_of_In. setoid_rewrite in_flat_map.
      setoid_rewrite in_map_iff. setoid_rewrite (eq_comm (with_code _ _)).
      setoid_rewrite Hkey. naive_solver.
Qed.

Lemma annotationStringsKey_inj l1 l2 : annotationStringsKey l1 = annotationStringsKey l2 -> l1 = l2.
Proof. apply frames_inj. Qed.

Lemma annotationEntityKey_inj k1 k2 :
  annotationEntityKey k1 = annotationEntityKey k2 <-> key_entity k1 = key_entity k2.
Proof.
  unfold annotationEntityKey, key_entity. split.
  - intros H%annotationStringsKey_inj. congruence.
  - intros H. injection H as -> ->. done.
Qed.

Lemma eventKeysCapacity_exact a b :
  (0 <= a <= max_int64)%Z -> (0 <= b <= max_int64)%Z ->
  eventKeysCapacity a b = if (a * b <=? max_int64)%Z then (a * b)%Z else 0%Z.
Proof.
  intros Ha Hb. unfold eventKeysCapacity.
  destruct (Z.eqb_spec a 0) as [->|Ha0]; simpl; [done|].
  destruct (Z.eqb_spec b 0) as [->|Hb0]; simpl; [by rewrite Z.mul_0_r|].
  pose proof (Z.quot_div_nonneg max_int64 b ltac:(unfold max_int64; lia) ltac:(lia)) as Hq.
  pose proof (Z.mul_div_le max_int64 b ltac:(lia)). pose proof (Z.mul_succ_div_gt max_int64 b ltac:(lia)).
  destruct (Z.ltb_spec (max_int64 `quot` b) a), (Z.leb_spec (a * b) max_int64); try nia.
  rewrite wrap_int64_id; [done|]. unfold in_int64, min_int64. nia.
Qed.

(** ** Rectangles are exact

    [boxed i r]: the keys of [r] are all the keys with identity [i] whose
    entity is one of the rectangle's and whose code is one of its codes.
    [partitions ks rs]: every key of [ks] is in exactly one rectangle. *)

Definition boxed (i : string * string * string * string * Z) (r : annotationRectangle) : Prop :=
  entities r <> [] /\ errorCodes r <> [] /\
  forall k, k ∈ keys r <->
    key_ident k = i /\ key_entity k ∈ map key_entity (entities r) /\ kErrorCode k ∈ errorCodes r.

Definition partitions (ks : list HealthEventKey) (rs : list annotationRectangle) : Prop :=
  (forall k, k ∈ ks <-> exists r, r ∈ rs /\ k ∈ keys r) /\
  (forall a b r1 r2 k, rs !! a = Some r1 -> rs !! b = Some r2 -> k ∈ keys r1 -> k ∈ keys r2 -> a = b).

Lemma merge_sort_nonnil {A} (R : A -> A -> Prop) `{forall x y, Decision (R x y)} l :
  l <> [] -> merge_sort R l <> [].
Proof.
  intros Hl He. apply Hl, Permutation_nil_r. by rewrite <- (merge_sort_Permutation R l), He.
Qed.

Section theory.
Context {MR : MapRange} {MRL : MapRangeLaws}.

Lemma sortedAnnotationRectangles_spec groups ks (G : HealthEventKey -> string) i :
  (forall g r, groups !! g = Some r -> boxed i r) ->
  (forall g r k, groups !! g = Some r -> (k ∈ keys r <-> k ∈ ks /\ G k = g)) ->
  (forall k, k ∈ ks -> is_Some (groups !! G k)) ->
  partitions ks (sortedAnnotationRectangles groups) /\
  Forall (boxed i) (sortedAnnotationRectangles groups).
Proof.
  intros Hbox Hkeys Hall. unfold sortedAnnotationRectangles.
  set (gs := merge_sort String.le (range groups).*1).
  assert (Hgs : forall g, g ∈ gs <-> is_Some (groups !! g)).
  { intros g. unfold gs. rewrite merge_sort_Permutation, list_elem_of_fmap.
    split; [intros ([g' r] & -> & Hr%elem_of_range); eauto|].
    intros [r Hr%elem_of_range]. by exists (g, r). }
  assert (Hnd : NoDup gs).
  { unfold gs. rewrite merge_sort_Permutation. apply NoDup_range. }
  split; [split|].
  - intros k. split.
    + intros Hk. destruct (Hall k Hk) as [r Hr].
      eexists. split; [apply list_elem_of_fmap; exists (G k); split; [done|apply Hgs; eauto]|].
      simpl. rewrite (lookup_total_correct _ _ _ Hr). by eapply Hkeys.
    + intros (r & (g & -> & [r' Hr']%Hgs)%list_elem_of_fmap & Hk). simpl in Hk.
      rewrite (lookup_total_correct _ _ _ Hr') in Hk. by apply (Hkeys g r' k Hr').
  - intros a b r1 r2 k (g1 & -> & Ha)%list_lookup_fmap_Some_1 (g2 & -> & Hb)%list_lookup_fmap_Some_1.
    simpl. intros H1 H2.
    destruct (proj1 (Hgs g1)) as [r1 Hr1]; [by eapply list_elem_of_lookup_2|].
    destruct (proj1 (Hgs g2)) as [r2 Hr2]; [by eapply list_elem_of_lookup_2|].
    rewrite (lookup_total_correct _ _ _ Hr1) in H1. rewrite (lookup_total_correct _ _ _ Hr2) in H2.
    apply (Hkeys _ _ _ Hr1) in H1 as [_ <-]. apply (Hkeys _ _ _ Hr2) in H2 as [_ <-].
    by eapply NoDup_lookup.
  - apply Forall_forall. intros r (g & -> & [r' Hr']%Hgs)%list_elem_of_fmap.
    rewrite (lookup_total_correct _ _ _ Hr'). destruct (Hbox _ _ Hr') as (H1 & H2 & H3).
    split; [by apply merge_sort_nonnil|]. split; [by apply merge_sort_nonnil|].
    intros k. simpl. rewrite H3. by rewrite !merge_sort_Permutation.
Qed.

Lemma elem_of_group_by_range {A} (f : A -> string) (l : list A) s ys :
  (s, ys) ∈ range (group_by f l) <-> ys = filter (fun x => f x = s) l /\ ys <> [].
Proof. by rewrite elem_of_range, group_by_lookup. Qed.

(** The elements of the group of an element. *)
Lemma group_of_elem {A} (f : A -> string) (l : list A) x :
  x ∈ l -> (f x, filter (fun y => f y = f x) l) ∈ range (group_by f l).
Proof.
  intros Hx. apply elem_of_group_by_range. split; [done|].
  intros He. assert (Hin : x ∈ filter (fun y => f y = f x) l) by by apply list_elem_of_filter.
  rewrite He in Hin. by apply not_elem_of_nil in Hin.
Qed.

Lemma row_rectangle_fold rows r0 :
  fold_left addRow rows r0 =
  {| keys := keys r0 ++ concat (map (merge_sort by_code) rows);
     entities := entities r0 ++ concat (map (fun row => take 1 (merge_sort by_code row)) rows);
     errorCodes := errorCodes r0 |}.
Proof.
  revert r0. induction rows as [|row rows IH]; intros r0; simpl.
  - rewrite !app_nil_r. by destruct r0.
  - rewrite IH. simpl. by rewrite !app_assoc.
Qed.

Lemma elem_of_row_codes row c : c ∈ row_codes row <-> exists k, k ∈ row /\ kErrorCode k = c.
Proof.
  unfold row_codes. setoid_rewrite list_elem_of_fmap. setoid_rewrite merge_sort_Permutation.
  naive_solver.
Qed.

Lemma elem_of_concat_map {A B} (f : A -> list B) (l : list A) y :
  y ∈ concat (map f l) <-> exists x, x ∈ l /\ y ∈ f x.
Proof.
  rewrite list_elem_of_In, in_concat. setoid_rewrite in_map_iff.
  setoid_rewrite list_elem_of_In. naive_solver.
Qed.

(** The first key of a row has the entity of the row. *)
Lemma row_head_entity row en s :
  row <> [] -> (forall k, k ∈ row -> annotationEntityKey k = s) ->
  (en ∈ map key_entity (take 1 (merge_sort by_code row)) <->
   exists k, k ∈ row /\ key_entity k = en).
Proof.
  intros Hne Hs. pose proof (merge_sort_Permutation by_code row) as Hp.
  destruct (merge_sort by_code row) as [|h t] eqn:He; [by apply merge_sort_nonnil in He|].
  assert (Hh : h ∈ row) by (rewrite <- Hp; apply list_elem_of_here).
  simpl. rewrite list_elem_of_singleton. split; [intros ->; eauto|].
  intros (k & Hk & <-). apply annotationEntityKey_inj. by rewrite !Hs.
Qed.

Lemma elem_of_sorted_rows rows k :
  k ∈ concat (map (merge_sort by_code) rows) <-> exists row, row ∈ rows /\ k ∈ row.
Proof. rewrite elem_of_concat_map. by setoid_rewrite merge_sort_Permutation. Qed.

(** [is_row ks row]: [row] is the non-empty slice of the keys of one entity. *)
Definition is_row (ks row : list HealthEventKey) : Prop :=
  row <> [] /\ exists s, forall k, k ∈ row <-> k ∈ ks /\ annotationEntityKey k = s.

Lemma elem_of_row_entities ks rows en :
  (forall row, row ∈ rows -> is_row ks row) ->
  (en ∈ map key_entity (concat (map (fun row => take 1 (merge_sort by_code row)) rows)) <->
   exists row k, row ∈ rows /\ k ∈ row /\ key_entity k = en).
Proof.
  intros Hrows. setoid_rewrite list_elem_of_fmap. setoid_rewrite elem_of_concat_map.
  assert (Hrow : forall row, row ∈ rows ->
    en ∈ map key_entity (take 1 (merge_sort by_code row)) <-> exists k, k ∈ row /\ key_entity k = en).
  { intros row Hin. destruct (Hrows row Hin) as (Hne & s & Hs). apply (row_head_entity _ _ s); [done|].
    intros k Hk. by apply Hs. }
  split.
  - intros (k & -> & row & Hin & Hk). destruct (proj1 (Hrow row Hin)) as (k' & Hk' & He).
    { rewrite list_elem_of_In. apply in_map. by rewrite <- list_elem_of_In. } by exists row, k'.
  - intros (row & k & Hin & Hk & <-).
    assert (Hm : key_entity k ∈ map key_entity (take 1 (merge_sort by_code row))) by (apply Hrow; eauto).
    apply list_elem_of_fmap in Hm as (h & -> & Hh). eauto.
Qed.

Lemma row_rectangle_boxed ks i rows row0 :
  (forall k, k ∈ ks -> key_ident k = i) ->
  (forall row, row ∈ rows -> is_row ks row /\ row_codes row = row_codes row0) -> row0 ∈ rows ->
  boxed i {| keys := concat (map (merge_sort by_code) rows);
             entities := concat (map (fun row => take 1 (merge_sort by_code row)) rows);
             errorCodes := row_codes row0 |}.
Proof.
  intros Hid Hrows H0.
  assert (Hents := fun en => elem_of_row_entities ks rows en (fun row Hr => proj1 (Hrows row Hr))).
  destruct (Hrows row0 H0) as ((Hne0 & s0 & Hs0) & _).
  destruct row0 as [|k0 row0']; [done|]. set (row0 := k0 :: row0') in *.
  assert (Hk0 : k0 ∈ row0) by apply list_elem_of_here.
  split; [|split]; simpl.
  - intros He. specialize (Hents (key_entity k0)). rewrite He in Hents.
    assert (Hbad : key_entity k0 ∈ map key_entity []) by (apply Hents; eauto).
    by apply not_elem_of_nil in Hbad.
  - intros He. assert (Hc : kErrorCode k0 ∈ row_codes row0) by (apply elem_of_row_codes; eauto).
    rewrite He in Hc. by apply not_elem_of_nil in Hc.
  - intros k. rewrite elem_of_sorted_rows, Hents, elem_of_row_codes. split.
    + intros (row & Hr & Hk). destruct (Hrows row Hr) as ((_ & s & Hs) & Hc).
      split; [apply Hid; by apply Hs|]. split; [eauto|].
      apply elem_of_row_codes. rewrite <- Hc. apply elem_of_row_codes. eauto.
    + intros (Hi & (row & k1 & Hr & Hk1 & He) & Hc).
      destruct (Hrows row Hr) as ((_ & s & Hs) & Hcr).
      apply elem_of_row_codes in Hc. rewrite <- Hcr in Hc.
      apply elem_of_row_codes in Hc as (k2 & Hk2 & Hc2).
      exists row. split; [done|]. replace k with k2; [done|].
      apply key_ext; [rewrite Hi; apply Hid; by apply Hs| |done].
      rewrite <- He. apply annotationEntityKey_inj.
      apply Hs in Hk1 as [_ ->], Hk2 as [_ ->]. done.
Qed.

Lemma annotationRowRectangles_spec ks i :
  (forall k, k ∈ ks -> key_ident k = i) ->
  partitions ks (annotationRowRectangles ks) /\ Forall (boxed i) (annotationRowRectangles ks).
Proof.
  intros Hid. unfold annotationRowRectangles.
  set (rows := (range (group_by annotationEntityKey ks)).*2).
  set (rowOf := fun k => filter (fun y => annotationEntityKey y = annotationEntityKey k) ks).
  assert (Hrows : forall row, row ∈ rows -> is_row ks row /\ forall k, k ∈ row -> row = rowOf k).
  { intros row ([s r] & -> & [-> Hne]%elem_of_group_by_range)%list_elem_of_fmap. simpl. split.
    - split; [done|]. exists s. intros k. rewrite list_elem_of_filter. naive_solver.
    - intros k [<- _]%list_elem_of_filter. done. }
  assert (HrowOf : forall k, k ∈ ks -> rowOf k ∈ rows /\ k ∈ rowOf k).
  { intros k Hk. split; [|by apply list_elem_of_filter].
    apply list_elem_of_fmap. eexists (_, _). split; [done|]. by apply group_of_elem. }
  set (G := fun row => annotationStringsKey (row_codes row)).
  assert (Hgroup : forall g r, rowGroups rows !! g = Some r ->
      exists row0, row0 ∈ filter (fun row => G row = g) rows /\
      r = {| keys := concat (map (merge_sort by_code) (filter (fun row => G row = g) rows));
             entities := concat (map (fun row => take 1 (merge_sort by_code row))
                                   (filter (fun row => G row = g) rows));
             errorCodes := row_codes row0 |}).
  { intros g r Hr. unfold rowGroups in Hr. rewrite group_fold_lookup in Hr. fold G in Hr.
    destruct (filter _ rows) as [|row0 F] eqn:HF; [done|].
    rewrite row_rectangle_fold in Hr. injection Hr as <-. exists row0.
    split; [apply list_elem_of_here|done]. }
  apply (sortedAnnotationRectangles_spec _ _ (fun k => G (rowOf k))).
  - intros g r (row0 & H0 & ->)%Hgroup. apply (row_rectangle_boxed ks); [done| |done].
    apply list_elem_of_filter in H0 as [H0 _].
    intros row [Hg Hr]%list_elem_of_filter. split; [by apply Hrows|].
    apply annotationStringsKey_inj. change (G row = G row0). congruence.
  - intros g r k (row0 & _ & ->)%Hgroup. simpl. rewrite elem_of_sorted_rows.
    setoid_rewrite list_elem_of_filter. split.
    + intros (row & [Hg Hr] & Hk). destruct (Hrows row Hr) as [(_ & s & Hs) Hof].
      split; [by apply Hs|]. by rewrite <- (Hof k Hk).
    + intros [Hk Hg]. exists (rowOf k). destruct (HrowOf k Hk). done.
  - intros k Hk. unfold rowGroups. rewrite group_fold_lookup.
    destruct (filter _ rows) as [|row0 F] eqn:HF; [|done].
    exfalso. apply (not_elem_of_nil (rowOf k)). rewrite <- HF.
    apply list_elem_of_filter. split; [done|]. by apply HrowOf.
Qed.

Lemma column_rectangle_fold columns r0 :
  fold_left addColumn columns r0 =
  {| keys := keys r0 ++ concat (map (fun c => merge_sort by_entity c.2) columns);
     entities := entities r0; errorCodes := errorCodes r0 ++ columns.*1 |}.
Proof.
  revert r0. induction columns as [|c columns IH]; intros r0; simpl.
  - rewrite !app_nil_r. by destruct r0.
  - rewrite IH. simpl. by rewrite <- !app_assoc.
Qed.

Lemma elem_of_column_entities column k :
  annotationEntityKey k ∈ column_entities column <->
  exists k', k' ∈ column /\ key_entity k' = key_entity k.
Proof.
  unfold column_entities. setoid_rewrite list_elem_of_fmap. setoid_rewrite merge_sort_Permutation.
  setoid_rewrite <- annotationEntityKey_inj. naive_solver.
Qed.

(** [is_column ks c]: the non-empty slice of the keys with one code. *)
Definition is_column (ks : list HealthEventKey) (c : string * list HealthEventKey) : Prop :=
  c.2 <> [] /\ forall k, k ∈ c.2 <-> k ∈ ks /\ kErrorCode k = c.1.

Lemma column_rectangle_boxed ks i columns column0 :
  (forall k, k ∈ ks -> key_ident k = i) ->
  (forall c, c ∈ columns -> is_column ks c /\ column_entities c.2 = column_entities column0.2) ->
  column0 ∈ columns ->
  boxed i {| keys := concat (map (fun c => merge_sort by_entity c.2) columns);
             entities := merge_sort by_entity column0.2; errorCodes := columns.*1 |}.
Proof.
  intros Hid Hcols H0. destruct (Hcols column0 H0) as ((Hne0 & Hs0) & _).
  split; [by apply merge_sort_nonnil|]. split; [destruct columns; [by apply not_elem_of_nil in H0|done]|].
  intros k. simpl. rewrite elem_of_concat_map. setoid_rewrite merge_sort_Permutation.
  setoid_rewrite list_elem_of_fmap. split.
  - intros (c & Hc & Hk). destruct (Hcols c Hc) as ((_ & Hs) & He).
    apply Hs in Hk as Hk'. destruct Hk' as [Hks Hcode].
    split; [by apply Hid|]. split; [|by exists c].
    destruct (proj1 (elem_of_column_entities column0.2 k)) as (k' & Hk' & Heq).
    { rewrite <- He. apply elem_of_column_entities. eauto. }
    by exists k'.
  - intros (Hi & (k1 & He1 & Hk1) & (c & Hcode & Hc)).
    destruct (Hcols c Hc) as ((_ & Hs) & He).
    destruct (proj1 (elem_of_column_entities c.2 k1)) as (k2 & Hk2 & Heq).
    { rewrite He. apply elem_of_column_entities. eauto. }
    exists c. split; [done|]. replace k with k2; [done|]. apply Hs in Hk2 as [Hks2 Hc2].
    apply key_ext; [rewrite Hi; by apply Hid|congruence|congruence].
Qed.

Lemma annotationColumnRectangles_spec ks i :
  (forall k, k ∈ ks -> key_ident k = i) ->
  partitions ks (annotationColumnRectangles ks) /\ Forall (boxed i) (annotationColumnRectangles ks).
Proof.
  intros Hid. unfold annotationColumnRectangles.
  set (cols := range (group_by kErrorCode ks)).
  set (colOf := fun k => (kErrorCode k, filter (fun y => kErrorCode y = kErrorCode k) ks)).
  assert (Hcols : forall c, c ∈ cols -> is_column ks c /\ forall k, k ∈ c.2 -> c = colOf k).
  { intros [s r] [-> Hne]%elem_of_group_by_range. simpl. split.
    - split; [done|]. intros k. simpl. rewrite list_elem_of_filter. naive_solver.
    - intros k [<- _]%list_elem_of_filter. done. }
  assert (HcolOf : forall k, k ∈ ks -> colOf k ∈ cols /\ k ∈ (colOf k).2).
  { intros k Hk. split; [by apply group_of_elem|by apply list_elem_of_filter]. }
  set (G := fun c : string * list HealthEventKey => annotationStringsKey (column_entities c.2)).
  assert (Hgroup : forall g r, columnGroups cols !! g = Some r ->
      exists c0, c0 ∈ filter (fun c => G c = g) cols /\
      r = {| keys := concat (map (fun c => merge_sort by_entity c.2) (filter (fun c => G c = g) cols));
             entities := merge_sort by_entity c0.2;
             errorCodes := (filter (fun c => G c = g) cols).*1 |}).
  { intros g r Hr. unfold columnGroups in Hr. rewrite group_fold_lookup in Hr. fold G in Hr.
    destruct (filter _ cols) as [|c0 F] eqn:HF; [done|].
    rewrite column_rectangle_fold in Hr. injection Hr as <-. exists c0.
    split; [apply list_elem_of_here|done]. }
  apply (sortedAnnotationRectangles_spec _ _ (fun k => G (colOf k))).
  - intros g r (c0 & H0 & ->)%Hgroup. apply (column_rectangle_boxed ks); [done| |done].
    apply list_elem_of_filter in H0 as [H0 _].
    intros c [Hg Hc]%list_elem_of_filter. split; [by apply Hcols|].
    apply annotationStringsKey_inj. change (G c = G c0). congruence.
  - intros g r k (c0 & _ & ->)%Hgroup. simpl. rewrite elem_of_concat_map.
    setoid_rewrite merge_sort_Permutation. setoid_rewrite list_elem_of_filter. split.
    + intros (c & [Hg Hc] & Hk). destruct (Hcols c Hc) as [(_ & Hs) Hof].
      split; [by apply Hs|]. by rewrite <- (Hof k Hk).
    + intros [Hk Hg]. exists (colOf k). destruct (HcolOf k Hk). done.
  - intros k Hk. unfold columnGroups. rewrite group_fold_lookup.
    destruct (filter _ cols) as [|c0 F] eqn:HF; [|done].
    exfalso. apply (not_elem_of_nil (colOf k)). rewrite <- HF.
    apply list_elem_of_filter. split; [done|]. by apply HcolOf.
Qed.

Lemma compactAnnotationRectangles_spec ks i :
  (forall k, k ∈ ks -> key_ident k = i) ->
  partitions ks (compactAnnotationRectangles ks) /\ Forall (boxed i) (compactAnnotationRectangles ks).
Proof.
  intros Hid. unfold compactAnnotationRectangles.
  case_decide; [by apply annotationColumnRectangles_spec|by apply annotationRowRectangles_spec].
Qed.

(** The keys of the projected event are exactly the keys of the rectangle. *)
Lemma elem_of_projected_keys e r k :
  boxed (event_ident e) r -> (k ∈ createEventKeys (projectEventForRectangle e r) <-> k ∈ keys r).
Proof.
  intros (Hen & Hcn & Hk). rewrite Hk, elem_of_createEventKeys.
  unfold projectEventForRectangle, event_entities, event_codes, event_ident. simpl.
  apply and_iff_compat_l. apply ZifyClasses.and_morph.
  - destruct (entities r) as [|e0 [|e1 es]]; [done| |]; simpl.
    + destruct (kEntityType e0 ==s "") eqn:H1, (kEntityValue e0 ==s "") eqn:H2; try done.
      apply go_eqb_true in H1, H2. unfold key_entity. by rewrite H1, H2.
    + by rewrite map_map.
  - destruct (errorCodes r) as [|c [|c1 cs]]; [done| |done].
    destruct (c ==s "") eqn:H1; simpl; [|done].
    apply go_eqb_true in H1 as ->. by destruct (negb _).
Qed.

(** ** Compaction of the stored values *)

(** The work of [compactStoredValues] as one list of (event, rectangle). *)
Definition compaction_jobs (l : list (nat * (HealthEvent * list HealthEventKey))) :
    list (HealthEvent * annotationRectangle) :=
  l ≫= fun ek => map (pair ek.2.1) (compactAnnotationRectangles ek.2.2).

Lemma compaction_jobs_run l he :
  fold_left (fun he' ek => fold_left (storeRectangle ek.2.1) (compactAnnotationRectangles ek.2.2) he')
    l he =
  fold_left (fun he' job => storeRectangle job.1 he' job.2) (compaction_jobs l) he.
Proof.
  revert he. induction l as [|[p [e ks]] l IH]; intros he; simpl; [done|].
  unfold compaction_jobs. simpl. rewrite fold_left_app, IH. f_equal.
  generalize (compactAnnotationRectangles ks) as rs. intros rs. revert he.
  induction rs as [|r rs IHr]; intros he; simpl; [done|]. apply IHr.
Qed.

Lemma fold_insert_lookup {A} (v : A) ks (m : gmap HealthEventKey A) k :
  fold_left (fun m key => <[key := v]> m) ks m !! k = if decide (k ∈ ks) then Some v else m !! k.
Proof.
  revert m. induction ks as [|k0 ks IH]; intros m; cbn [fold_left].
  { rewrite decide_False; [done|apply not_elem_of_nil]. }
  rewrite IH. repeat case_decide; [done|set_solver| |].
  - destruct (decide (k = k0)) as [->|]; [by rewrite lookup_insert_eq|set_solver].
  - rewrite lookup_insert_ne; [done|set_solver].
Qed.

Definition job_disjoint (j1 j2 : HealthEvent * annotationRectangle) : Prop :=
  forall k, k ∈ keys j1.2 -> k ∉ keys j2.2.

(** Running disjoint jobs: job [n] leaves its projection, at address
    [fresh + n], under its keys, and the other keys keep their value. *)
Lemma run_jobs jobs he :
  ForallOrdPairs job_disjoint jobs ->
  let he' := fold_left (fun he' job => storeRectangle job.1 he' job.2) jobs he in
  fresh he' = fresh he + length jobs /\
  (forall n j k, jobs !! n = Some j -> k ∈ keys j.2 ->
     Events he' !! k = Some {| addr := fresh he + n; ev := projectEventForRectangle j.1 j.2 |}) /\
  (forall k, (forall j, j ∈ jobs -> k ∉ keys j.2) -> Events he' !! k = Events he !! k).
Proof.
  intros Hd. revert he. induction Hd as [|j jobs Hj Hd IH]; intros he; simpl.
  { split; [lia|]. split; [|done]. intros n j k Hn. by rewrite lookup_nil in Hn. }
  rewrite Forall_forall in Hj.
  destruct (IH (storeRectangle j.1 he j.2)) as (Hf & Hin & Hout). split; [rewrite Hf; simpl; lia|].
  split.
  - intros [|n] j' k Hn Hk.
    + injection Hn as <-. rewrite Hout by (intros j' Hj'; by apply (Hj j' Hj')).
      simpl. rewrite fold_insert_lookup, decide_True by done. do 2 f_equal. lia.
    + rewrite (Hin n j' k Hn Hk). simpl. do 2 f_equal. lia.
  - intros k Hk. rewrite Hout by (intros j' Hj'; apply Hk; by right).
    simpl. rewrite fold_insert_lookup, decide_False; [done|]. apply Hk. by left.
Qed.

(** The pointers of the store: addresses are used, one address holds one
    event, and a key is a key of the event it holds. *)
Record owned (he : HealthEventsAnnotationMap) : Prop := {
  owned_addr k r : Events he !! k = Some r -> addr r < fresh he;
  owned_coherent k1 k2 r1 r2 :
    Events he !! k1 = Some r1 -> Events he !! k2 = Some r2 -> addr r1 = addr r2 -> r1 = r2;
  owned_key k r : Events he !! k = Some r -> k ∈ createEventKeys (ev r) }.

Lemma keysByEvent_fold l e ks :
  fold_left (fun ek (kr : HealthEventKey * Ref) => (ek.1, ek.2 ++ [kr.1])) l (e, ks) =
  (e : HealthEvent, ks ++ l.*1).
Proof.
  revert ks. induction l as [|kr l IH]; intros ks; simpl; [by rewrite app_nil_r|].
  by rewrite IH, <- app_assoc.
Qed.

Lemma keysByEvent_spec he p e ks :
  owned he -> (p, (e, ks)) ∈ range (keysByEvent (Events he)) ->
  forall k, k ∈ ks <-> Events he !! k = Some {| addr := p; ev := e |}.
Proof.
  intros Ho Hp%elem_of_range k. unfold keysByEvent in Hp. rewrite group_fold_lookup in Hp.
  destruct (filter _ _) as [|[k0 r0] xs] eqn:HF; [done|].
  assert (Hin : forall k r, (k, r) ∈ (k0, r0) :: xs <-> Events he !! k = Some r /\ addr r = p).
  { intros k' r'. rewrite <- HF, list_elem_of_filter, elem_of_range. naive_solver. }
  clear HF. rewrite keysByEvent_fold in Hp. injection Hp as <- <-.
  destruct (proj1 (Hin k0 r0)) as [H0 Hp0]; [apply list_elem_of_here|].
  transitivity (k ∈ ((k0, r0) :: xs).*1); [done|]. setoid_rewrite list_elem_of_fmap. split.
  - intros ([k' r] & -> & [Hr Hp]%Hin). simpl. rewrite Hr. f_equal.
    rewrite (owned_coherent _ Ho _ _ _ _ Hr H0); [|congruence]. subst p. by destruct r0.
  - intros Hk. eexists (k, _). split; [done|]. apply Hin. split; [exact Hk|done].
Qed.

Lemma keysByEvent_complete he k r :
  Events he !! k = Some r ->
  exists e ks, (addr r, (e, ks)) ∈ range (keysByEvent (Events he)).
Proof.
  intros Hk. destruct (keysByEvent (Events he) !! addr r) as [[e ks]|] eqn:He.
  { exists e, ks. by apply elem_of_range. }
  exfalso. unfold keysByEvent in He. rewrite group_fold_lookup in He.
  destruct (filter _ _) eqn:HF; [|done]. apply (not_elem_of_nil (k, r)).
  rewrite <- HF. apply list_elem_of_filter. split; [done|]. by apply elem_of_range.
Qed.

(** Every rectangle of a stored event covers keys that hold that event. *)
Lemma compaction_job he j :
  owned he -> j ∈ compaction_jobs (range (keysByEvent (Events he))) ->
  boxed (event_ident j.1) j.2 /\
  exists p, forall k, k ∈ keys j.2 -> Events he !! k = Some {| addr := p; ev := j.1 |}.
Proof.
  intros Ho ([p [e ks]] & (r & -> & Hr)%list_elem_of_fmap & Hin)%list_elem_of_bind.
  simpl in *. pose proof (keysByEvent_spec _ _ _ _ Ho Hin) as Hks.
  destruct (compactAnnotationRectangles_spec ks (event_ident e)) as [[Hcov _] Hbox].
  { intros k Hk%Hks. apply (owned_key _ Ho), elem_of_createEventKeys in Hk as [Hk _]. done. }
  rewrite Forall_forall in Hbox. split; [by apply Hbox|]. exists p. intros k Hk.
  apply Hks, Hcov. eauto.
Qed.

Lemma compaction_disjoint he :
  owned he -> ForallOrdPairs job_disjoint (compaction_jobs (range (keysByEvent (Events he)))).
Proof.
  intros Ho. apply FOP_bind.
  - intros [p [e ks]] Hin. apply FOP_lookup. simpl.
    intros a b j1 j2 (r1 & -> & H1)%list_lookup_fmap_Some_1 (r2 & -> & H2)%list_lookup_fmap_Some_1 Hab.
    destruct (compactAnnotationRectangles_spec ks (event_ident e)) as [[_ Hdis] _].
    { intros k Hk%(keysByEvent_spec _ _ _ _ Ho Hin).
      apply (owned_key _ Ho), elem_of_createEventKeys in Hk as [Hk _]. done. }
    intros k Hk1 Hk2. by apply Hab, (Hdis _ _ _ _ _ H1 H2 Hk1 Hk2).
  - eapply FOP_impl; [|apply FOP_NoDup_fst, NoDup_range].
    intros [p1 [e1 ks1]] [p2 [e2 ks2]] (Hin1 & Hin2 & Hne) j1 j2.
    intros (r1 & -> & H1)%list_elem_of_fmap (r2 & -> & H2)%list_elem_of_fmap k Hk1 Hk2. simpl in *.
    assert (Hid : forall p e ks, (p, (e, ks)) ∈ range (keysByEvent (Events he)) ->
      forall k, k ∈ ks -> key_ident k = event_ident e).
    { intros p e ks Hin k' Hk'%(keysByEvent_spec _ _ _ _ Ho Hin).
      apply (owned_key _ Ho), elem_of_createEventKeys in Hk' as [Hk' _]. done. }
    destruct (compactAnnotationRectangles_spec ks1 (event_ident e1) (Hid _ _ _ Hin1)) as [[Hc1 _] _].
    destruct (compactAnnotationRectangles_spec ks2 (event_ident e2) (Hid _ _ _ Hin2)) as [[Hc2 _] _].
    assert (Hm1 : k ∈ ks1) by (apply Hc1; eauto). assert (Hm2 : k ∈ ks2) by (apply Hc2; eauto).
    apply (keysByEvent_spec _ _ _ _ Ho Hin1) in Hm1. apply (keysByEvent_spec _ _ _ _ Ho Hin2) in Hm2.
    rewrite Hm1 in Hm2. by injection Hm2 as ->.
Qed.

Lemma compaction_covers he k r :
  owned he -> Events he !! k = Some r ->
  exists n j, compaction_jobs (range (keysByEvent (Events he))) !! n = Some j /\ k ∈ keys j.2.
Proof.
  intros Ho Hk. destruct (keysByEvent_complete _ _ _ Hk) as (e & ks & Hin).
  pose proof (keysByEvent_spec _ _ _ _ Ho Hin) as Hks.
  destruct (compactAnnotationRectangles_spec ks (event_ident e)) as [[Hcov _] _].
  { intros k' Hk'%Hks. apply (owned_key _ Ho), elem_of_createEventKeys in Hk' as [Hk' _]. done. }
  assert (Hkk : k ∈ ks).
  { apply Hks. rewrite Hk. destruct ks as [|k1 ks'] eqn:E.
    - exfalso. apply elem_of_range in Hin. unfold keysByEvent in Hin.
      rewrite group_fold_lookup in Hin. destruct (filter _ _) as [|x xs]; [done|].
      rewrite keysByEvent_fold in Hin. by injection Hin.
    - assert (Hk1 : Events he !! k1 = Some {| addr := addr r; ev := e |}) by (apply Hks; by left).
      f_equal. by apply (owned_coherent _ Ho _ _ _ _ Hk Hk1). }
  apply Hcov in Hkk as (rect & Hrect & Hkr).
  assert (Hj : (e, rect) ∈ compaction_jobs (range (keysByEvent (Events he)))).
  { apply list_elem_of_bind. exists (addr r, (e, ks)). split; [|done].
    apply list_elem_of_fmap. eauto. }
  apply list_elem_of_lookup in Hj as [n Hn]. eauto.
Qed.

(** What an event says apart from the entities and codes it is scoped to. *)
Definition payload (e : HealthEvent) : HealthEvent := with_entities_codes e [] [].
Definition payload_at (he : HealthEventsAnnotationMap) (k : HealthEventKey) : option HealthEvent :=
  (fun r => payload (ev r)) <$> Events he !! k.
Definition action_at (he : HealthEventsAnnotationMap) (k : HealthEventKey) : option RecommendedAction :=
  (fun r => Action (ev r)) <$> Events he !! k.

Lemma action_of_payload he k : action_at he k = Action <$> payload_at he k.
Proof. unfold action_at, payload_at. by destruct (Events he !! k). Qed.

(** [exact_store]: a stored event spells out exactly the keys that hold it. *)
Definition exact_store (he : HealthEventsAnnotationMap) : Prop :=
  forall k r, Events he !! k = Some r ->
    forall k', k' ∈ createEventKeys (ev r) <-> Events he !! k' = Some r.

Lemma compactStoredValues_spec he :
  owned he ->
  owned (compactStoredValues he) /\ exact_store (compactStoredValues he) /\
  forall k, payload_at (compactStoredValues he) k = payload_at he k.
Proof.
  intros Ho. unfold compactStoredValues. rewrite compaction_jobs_run.
  set (jobs := compaction_jobs _).
  destruct (run_jobs jobs he (compaction_disjoint he Ho)) as (Hf & Hin & Hout).
  set (he' := fold_left _ jobs he) in *.
  assert (Hjob : forall n j, jobs !! n = Some j -> boxed (event_ident j.1) j.2 /\
    exists p, forall k, k ∈ keys j.2 -> Events he !! k = Some {| addr := p; ev := j.1 |}).
  { intros n j Hn. apply compaction_job; [done|]. by eapply list_elem_of_lookup_2. }
  assert (Hval : forall k r, Events he' !! k = Some r ->
    exists n j, jobs !! n = Some j /\ k ∈ keys j.2 /\
      r = {| addr := fresh he + n; ev := projectEventForRectangle j.1 j.2 |}).
  { intros k r Hr. destruct (Events he !! k) as [r0|] eqn:Hk.
    - destruct (compaction_covers _ _ _ Ho Hk) as (n & j & Hn & Hkj). exists n, j.
      rewrite (Hin n j k Hn Hkj) in Hr. by simplify_eq.
    - rewrite Hout in Hr; [congruence|]. intros j [n Hn]%list_elem_of_lookup Hkj.
      destruct (Hjob n j Hn) as (_ & p & Hp). rewrite (Hp k Hkj) in Hk. done. }
  split; [split|split].
  - intros k r (n & j & Hn & _ & ->)%Hval. simpl. rewrite Hf. apply lookup_lt_Some in Hn. lia.
  - intros k1 k2 r1 r2 (n1 & j1 & Hn1 & _ & ->)%Hval (n2 & j2 & Hn2 & _ & ->)%Hval. simpl.
    intros He. assert (n1 = n2) as -> by lia. by simplify_eq.
  - intros k r (n & j & Hn & Hk & ->)%Hval. simpl. apply elem_of_projected_keys; [|done].
    by eapply Hjob.
  - intros k r (n & j & Hn & Hk & ->)%Hval k'. simpl.
    destruct (Hjob n j Hn) as [Hbox _]. rewrite (elem_of_projected_keys _ _ _ Hbox). split.
    + intros Hk'. by rewrite (Hin n j k' Hn Hk').
    + intros (n' & j' & Hn' & Hk' & He)%Hval. injection He as Haddr _.
      assert (n = n') as <- by lia. by simplify_eq.
  - intros k. unfold payload_at. destruct (Events he !! k) as [r|] eqn:Hk.
    + destruct (compaction_covers _ _ _ Ho Hk) as (n & j & Hn & Hkj).
      rewrite (Hin n j k Hn Hkj). destruct (Hjob n j Hn) as (_ & p & Hp).
      rewrite (Hp k Hkj) in Hk. injection Hk as <-. done.
    + destruct (Events he' !! k) as [r|] eqn:Hk'; [|done].
      apply Hval in Hk' as (n & j & Hn & Hkj & ->). destruct (Hjob n j Hn) as (_ & p & Hp).
      by rewrite (Hp k Hkj) in Hk.
Qed.

(** ** The invariant of the annotation

    Every key an event spells out is stored, with the action of that event:
    this is what makes the serialized list of events rebuild the same map. *)

Record ann_wf (he : HealthEventsAnnotationMap) : Prop := {
  ann_owned : owned he;
  ann_closed k r k' : Events he !! k = Some r -> k' ∈ createEventKeys (ev r) ->
    action_at he k' = Some (Action (ev r)) }.

Lemma exact_ann_wf he : owned he -> exact_store he -> ann_wf he.
Proof.
  intros Ho He. split; [done|]. intros k r k' Hk Hk'. unfold action_at.
  by rewrite (proj1 (He k r Hk k') Hk').
Qed.

Lemma NewHealthEventsAnnotationMap_wf next : ann_wf (NewHealthEventsAnnotationMap next).
Proof. split; [split|]; simpl; intros *; by rewrite lookup_empty. Qed.

(** Either of the two ways an operation ends: compacting, or leaving the store
    as it is. *)
Lemma compact_or_keep (b : bool) he :
  owned he -> (b = false -> ann_wf he) ->
  ann_wf (if b then compactStoredValues he else he) /\
  forall k, payload_at (if b then compactStoredValues he else he) k = payload_at he k.
Proof.
  intros Ho Hk. destruct b; [|auto].
  destruct (compactStoredValues_spec he Ho) as (H1 & H2 & H3). auto using exact_ann_wf.
Qed.

(** ** Removal *)

Lemma fold_delete_lookup {A} ks (m : gmap HealthEventKey A) k :
  fold_left (fun m key => delete key m) ks m !! k = if decide (k ∈ ks) then None else m !! k.
Proof.
  revert m. induction ks as [|k0 ks IH]; intros m; cbn [fold_left].
  { rewrite decide_False; [done|apply not_elem_of_nil]. }
  rewrite IH. repeat case_decide; [done|set_solver| |].
  - destruct (decide (k = k0)) as [->|]; [by rewrite lookup_delete_eq|set_solver].
  - rewrite lookup_delete_ne; [done|set_solver].
Qed.

Lemma removeKeys_spec he ks :
  ann_wf he ->
  ann_wf (removeKeys he ks).1 /\ (removeKeys he ks).2 = length ks /\
  forall k, payload_at (removeKeys he ks).1 k = if decide (k ∈ ks) then None else payload_at he k.
Proof.
  intros [Ho Hc]. unfold removeKeys. set (m := fold_left _ ks (Events he)).
  assert (Hm : forall k, m !! k = if decide (k ∈ ks) then None else Events he !! k).
  { intros k. apply fold_delete_lookup. }
  assert (Hsub : forall k r, m !! k = Some r -> Events he !! k = Some r).
  { intros k r. rewrite Hm. by case_decide. }
  destruct (compact_or_keep ((0 <? length ks)%nat && (0 <? size m)%nat) {| Events := m; fresh := fresh he |})
    as [H1 H2].
  - split; simpl; intros *; [|intros H1%Hsub H2%Hsub|]; eauto using owned_addr, owned_coherent, owned_key.
  - intros [Hl|Hl]%andb_false_iff; apply Nat.ltb_ge in Hl.
    + destruct ks; simpl in Hl; [|lia]. by destruct he.
    + assert (m = ∅) as -> by (apply map_size_empty_iff; lia).
      apply (NewHealthEventsAnnotationMap_wf (fresh he)).
  - split; [exact H1|]. split; [done|]. intros k. simpl. rewrite H2. unfold payload_at. simpl.
    rewrite Hm. by case_decide.
Qed.

Context {SC : SlotCodec}.

(** The keys a recovery clears. *)
Definition cleared (he : HealthEventsAnnotationMap) (event : HealthEvent)
    (keep : option (HealthEventKey -> bool)) (k : HealthEventKey) : bool :=
  match Events he !! k with
  | None => false
  | Some r =>
      if (length (EntitiesImpacted event) =? 0)%nat then keyMatchesCheckRecovery k event keep
      else keyMatchesEvent k (ev r) event && keep_ok keep k
  end.

Lemma removed_keys he event keep :
  exists ks, RemoveEventFiltered he event keep = removeKeys he ks /\
    NoDup ks /\ forall k, k ∈ ks <-> cleared he event keep k = true.
Proof.
  unfold RemoveEventFiltered, removeAllEntitiesForCheck, cleared.
  destruct (length (EntitiesImpacted event) =? 0)%nat.
  - eexists. split; [done|]. split.
    + apply NoDup_ListNoDup, List.NoDup_filter, NoDup_ListNoDup, NoDup_range.
    + intros k. rewrite list_elem_of_In, filter_In, <- list_elem_of_In, list_elem_of_fmap. split.
      * intros (([k' r] & -> & Hk%elem_of_range) & Hm). simpl. by rewrite Hk.
      * destruct (Events he !! k) as [r|] eqn:Hk; [|done]. intros Hm. split; [|done].
        exists (k, r). split; [done|]. by apply elem_of_range.
  - eexists. split; [done|]. split.
    + pose proof (NoDup_range (Events he)) as Hnd.
      induction (range (Events he)) as [|x l IH]; [constructor|]. simpl in *.
      apply NoDup_cons in Hnd as [Hx Hnd]. case_match; [|auto]. simpl.
      apply NoDup_cons. split; [|auto]. intros (y & Hy & Hin)%list_elem_of_fmap. apply Hx.
      rewrite Hy. apply list_elem_of_fmap. exists y. split; [done|].
      apply list_elem_of_In in Hin. apply filter_In in Hin as [Hin _]. by apply list_elem_of_In.
    + intros k. rewrite list_elem_of_fmap. setoid_rewrite list_elem_of_In.
      setoid_rewrite filter_In. setoid_rewrite <- list_elem_of_In. split.
      * intros ([k' r] & -> & Hk%elem_of_range & Hm). simpl. by rewrite Hk.
      * destruct (Events he !! k) as [r|] eqn:Hk; [|done]. intros Hm. exists (k, r).
        split; [done|]. split; [by apply elem_of_range|done].
Qed.

(** ** Addition *)

Definition needs (m : gmap HealthEventKey Ref) (a : RecommendedAction) (k : HealthEventKey) : bool :=
  match m !! k with None => true | Some r => negb (bool_decide (Action (ev r) = a)) end.
Definition overwrites (m : gmap HealthEventKey Ref) (a : RecommendedAction) (k : HealthEventKey) : bool :=
  match m !! k with None => false | Some r => negb (bool_decide (Action (ev r) = a)) end.

Lemma needs_insert m event k k' :
  needs (<[k := event]> m) (Action (ev event)) k' =
  if decide (k = k') then false else needs m (Action (ev event)) k'.
Proof.
  unfold needs. case_decide as Hk; [subst; rewrite lookup_insert_eq|by rewrite lookup_insert_ne].
  by rewrite bool_decide_eq_true_2.
Qed.

Lemma overwrites_insert m event k k' :
  overwrites (<[k := event]> m) (Action (ev event)) k' =
  if decide (k = k') then false else overwrites m (Action (ev event)) k'.
Proof.
  unfold overwrites. case_decide as Hk; [subst; rewrite lookup_insert_eq|by rewrite lookup_insert_ne].
  by rewrite bool_decide_eq_true_2.
Qed.

Lemma existsb_overwrites_insert m event k ks :
  overwrites m (Action (ev event)) k = false ->
  existsb (overwrites (<[k := event]> m) (Action (ev event))) ks =
  existsb (overwrites m (Action (ev event))) ks.
Proof.
  intros Hk. induction ks as [|k' ks IH]; simpl; [done|]. rewrite overwrites_insert, IH.
  case_decide; [by subst; rewrite Hk|done].
Qed.

Lemma addEventKeys_acc ks event : forall m u rp,
  let '(m', u', rp') :=
    fold_left (fun '(m, updated, replaced) key =>
      match m !! key with
      | None => (<[key := event]> m, true, replaced)
      | Some existing =>
          if bool_decide (Action (ev existing) = Action (ev event)) then (m, updated, replaced)
          else (<[key := event]> m, true, true)
      end) ks (m, u, rp) in
  (forall k, m' !! k =
     if bool_decide (k ∈ ks) && needs m (Action (ev event)) k then Some event else m !! k) /\
  u' = u || existsb (needs m (Action (ev event))) ks /\
  rp' = rp || existsb (overwrites m (Action (ev event))) ks.
Proof.
  induction ks as [|key ks IH]; intros m u rp; cbn [fold_left existsb].
  { split; [|by rewrite !orb_false_r]. intros k. by rewrite bool_decide_eq_false_2 by set_solver. }
  assert (Hstep : exists m1 u1 rp1,
    (match m !! key with
     | None => (<[key := event]> m, true, rp)
     | Some existing =>
         if bool_decide (Action (ev existing) = Action (ev event)) then (m, u, rp)
         else (<[key := event]> m, true, true)
     end = (m1, u1, rp1)) /\
    m1 = (if needs m (Action (ev event)) key then <[key := event]> m else m) /\
    u1 = u || needs m (Action (ev event)) key /\ rp1 = rp || overwrites m (Action (ev event)) key).
  { unfold needs, overwrites. destruct (m !! key) as [r|]; [destruct (bool_decide _)|];
      do 3 eexists; split; try done; simpl; by rewrite ?orb_false_r, ?orb_true_r. }
  destruct Hstep as (m1 & u1 & rp1 & -> & Hm1 & -> & ->).
  specialize (IH m1 (u || needs m (Action (ev event)) key) (rp || overwrites m (Action (ev event)) key)).
  destruct (fold_left _ ks _) as [[m' u'] rp']. destruct IH as (Hk & -> & ->).
  destruct (needs m (Action (ev event)) key) eqn:Hn; subst m1.
  - split; [|split].
    + intros k. rewrite Hk, needs_insert. destruct (decide (key = k)) as [<-|Hne].
      * rewrite andb_false_r, lookup_insert_eq, Hn, bool_decide_eq_true_2 by set_solver. done.
      * rewrite lookup_insert_ne by done.
        by rewrite (bool_decide_ext (k ∈ ks) (k ∈ key :: ks)) by set_solver.
    + by rewrite !orb_true_r.
    + rewrite <- orb_assoc. f_equal.
      destruct (overwrites m (Action (ev event)) key) eqn:Hov; [done|]. simpl.
      by apply existsb_overwrites_insert.
  - split; [|split].
    + intros k. rewrite Hk. destruct (decide (key = k)) as [<-|Hne].
      * by rewrite Hn, !andb_false_r.
      * by rewrite (bool_decide_ext (k ∈ ks) (k ∈ key :: ks)) by set_solver.
    + by rewrite orb_false_r.
    + by rewrite orb_assoc.
Qed.

Lemma addEventKeys_spec m event ks :
  exists m', addEventKeys m event ks =
    (m', existsb (needs m (Action (ev event))) ks, existsb (overwrites m (Action (ev event))) ks) /\
  forall k, m' !! k =
    if bool_decide (k ∈ ks) && needs m (Action (ev event)) k then Some event else m !! k.
Proof.
  pose proof (addEventKeys_acc ks event m false false) as H. unfold addEventKeys.
  destruct (fold_left _ _ _) as [[m' u] rp]. destruct H as (H & -> & ->). eauto.
Qed.

(** The event handed to the map: allocated before the map's next address, and
    the same event as any stored one with its address. *)
Definition known (he : HealthEventsAnnotationMap) (event : Ref) : Prop :=
  addr event < fresh he /\
  forall k r, Events he !! k = Some r -> addr r = addr event -> r = event.

(** The stored event differs from the received one in its metadata only. *)
Lemma withGPUSlotMetadata_spec event next :
  let '(stored, next') := withGPUSlotMetadata event next in
  (stored = event /\ next' = next \/ addr stored = next /\ next' = S next) /\
  (exists md, ev stored = with_metadata (ev event) md).
Proof.
  assert (Hid : exists md, ev event = with_metadata (ev event) md)
    by (exists (Metadata (ev event)); by destruct (ev event)).
  unfold withGPUSlotMetadata. repeat case_match; simplify_eq; simpl; eauto 6.
Qed.

Lemma owned_add he event (ks : list HealthEventKey) m :
  owned he -> known he event \/ addr event = fresh he ->
  (forall k, k ∈ ks -> k ∈ createEventKeys (ev event)) ->
  (forall k r, m !! k = Some r -> r = event /\ k ∈ ks \/ Events he !! k = Some r) ->
  owned {| Events := m; fresh := S (addr event) `max` fresh he |}.
Proof.
  intros Ho Hkn Hks Hm.
  assert (Hcoh : forall k r, Events he !! k = Some r -> addr r = addr event -> r = event).
  { intros k r Hr Ha. destruct Hkn as [[_ Hkn]|Hf]; [by eapply Hkn|].
    apply (owned_addr _ Ho) in Hr. lia. }
  split; simpl.
  - intros k r [[-> _]|Hr]%Hm; [lia|]. apply (owned_addr _ Ho) in Hr. lia.
  - intros k1 k2 r1 r2 [[-> _]|H1]%Hm [[-> _]|H2]%Hm Ha; [done| | |].
    + symmetry. eapply Hcoh; [exact H2|congruence].
    + eapply Hcoh; [exact H1|congruence].
    + by eapply owned_coherent.
  - intros k r [[-> Hk]|Hr]%Hm; [auto|]. by eapply owned_key.
Qed.

(** The keys an addition applies to, and whether some were left out. *)
Definition kept_keys (event : HealthEvent) (keep : option (HealthEventKey -> bool)) :
    list HealthEventKey * bool :=
  match keep with
  | None => (createEventKeys event, false)
  | Some f =>
      let kept := List.filter f (createEventKeys event) in
      (kept, negb (length kept =? length (createEventKeys event))%nat)
  end.

Lemma kept_keys_spec event keep :
  (forall k, k ∈ (kept_keys event keep).1 <-> k ∈ createEventKeys event /\ keep_ok keep k = true) /\
  ((kept_keys event keep).2 = false -> forall k, k ∈ createEventKeys event -> k ∈ (kept_keys event keep).1).
Proof.
  destruct keep as [f|]; simpl; [|naive_solver]. split.
  - intros k. by rewrite !list_elem_of_In, filter_In.
  - intros Hl%negb_false_iff%Nat.eqb_eq%filter_length_forallb k Hk.
    rewrite list_elem_of_In in *. apply filter_In. split; [done|].
    by apply (proj1 (forallb_forall f _) Hl).
Qed.

(** Without a left-out key and without an overwritten one, the store stays
    closed. *)
Lemma ann_closed_add he event ks m next :
  ann_wf he -> (forall k, k ∈ ks <-> k ∈ createEventKeys (ev event)) ->
  existsb (overwrites (Events he) (Action (ev event))) ks = false ->
  (forall k, m !! k = if bool_decide (k ∈ ks) && needs (Events he) (Action (ev event)) k
                      then Some event else Events he !! k) ->
  forall k r k', m !! k = Some r -> k' ∈ createEventKeys (ev r) ->
  action_at {| Events := m; fresh := next |} k' = Some (Action (ev r)).
Proof.
  intros [_ Hcl] Hks Hov Hm.
  assert (Hnew : forall k', k' ∈ ks -> action_at {| Events := m; fresh := next |} k' = Some (Action (ev event))).
  { intros k' Hk'. unfold action_at. simpl. rewrite Hm, bool_decide_eq_true_2 by done. simpl.
    unfold needs. destruct (Events he !! k') as [r|]; [|done].
    destruct (bool_decide _) eqn:Hb; [|done]. simpl. by apply bool_decide_eq_true in Hb as ->. }
  intros k r k' Hk Hk'. rewrite Hm in Hk. destruct (bool_decide (k ∈ ks) && _) eqn:Hc.
  { injection Hk as <-. apply Hnew. by apply Hks. }
  pose proof (Hcl k r k' Hk Hk') as Hact. destruct (decide (k' ∈ ks)) as [Hin|Hout].
  - rewrite (Hnew k' Hin). unfold action_at in Hact.
    destruct (Events he !! k') as [r'|] eqn:Hr'; [|done]. simpl in Hact. injection Hact as <-.
    f_equal. rewrite existsb_none in Hov. specialize (Hov k' Hin). unfold overwrites in Hov.
    rewrite Hr' in Hov. by to_prop.
  - unfold action_at. simpl. rewrite Hm, bool_decide_eq_false_2 by done. exact Hact.
Qed.

Lemma AddOrUpdateEventFiltered_refines he event keep :
  ann_wf he -> known he event ->
  let stored := (withGPUSlotMetadata event (fresh he)).1 in
  let a := Action (ev event) in
  ann_wf (AddOrUpdateEventFiltered he event keep).1 /\
  (AddOrUpdateEventFiltered he event keep).2 =
    existsb (needs (Events he) a) (kept_keys (ev event) keep).1 /\
  (forall k, payload_at (AddOrUpdateEventFiltered he event keep).1 k =
     if bool_decide (k ∈ createEventKeys (ev event)) && keep_ok keep k && needs (Events he) a k
     then Some (payload (ev stored)) else payload_at he k).
Proof.
  intros Hwf Hkn. simpl. pose proof (withGPUSlotMetadata_spec event (fresh he)) as Hst.
  destruct (withGPUSlotMetadata event (fresh he)) as [stored next] eqn:Hs.
  destruct Hst as (Hsame & md & Hmd).
  assert (Hkeys : createEventKeys (ev stored) = createEventKeys (ev event)) by by rewrite Hmd.
  assert (Hact : Action (ev stored) = Action (ev event)) by by rewrite Hmd.
  destruct (kept_keys_spec (ev event) keep) as [Hkept Hfull].
  unfold AddOrUpdateEventFiltered. rewrite Hs. fold (kept_keys (ev event) keep).
  destruct (kept_keys (ev event) keep) as [kept partial]. simpl in Hkept, Hfull.
  destruct (addEventKeys_spec (Events he) stored kept) as (m & -> & Hm). rewrite Hact in *.
  set (u := existsb (needs _ _) kept). set (rp := existsb (overwrites _ _) kept).
  replace (if u && (partial || rp) && (0 <? size m)%nat
           then (compactStoredValues {| Events := m; fresh := next |}, u)
           else ({| Events := m; fresh := next |}, u))
    with (if u && (partial || rp) && (0 <? size m)%nat
           then compactStoredValues {| Events := m; fresh := next |}
           else {| Events := m; fresh := next |}, u) by by destruct (_ && _).
  assert (Ho : owned {| Events := m; fresh := next |}).
  { replace next with (S (addr stored) `max` fresh he)
      by (destruct Hsame as [[-> ->]|[Ha ->]]; [destruct Hkn|]; lia).
    apply (owned_add he stored kept); [by apply ann_owned| | |].
    + destruct Hsame as [[-> _]|[Ha _]]; auto.
    + intros k Hk%Hkept. rewrite Hkeys. naive_solver.
    + intros k r. rewrite Hm. destruct (bool_decide (k ∈ kept)) eqn:Hb; [|by right].
      apply bool_decide_eq_true in Hb. simpl. destruct (needs _ _ k); [|by right].
      intros [= <-]. by left. }
  simpl. destruct (compact_or_keep (u && (partial || rp) && (0 <? size m)%nat)
                     {| Events := m; fresh := next |} Ho) as [H1 H2].
  - intros [[Hu|[Hp Hr]%orb_false_iff]%andb_false_iff|Hsz%Nat.ltb_ge]%andb_false_iff; (split; [done|]).
    + assert (m = Events he) as ->; [|apply (ann_closed _ Hwf)].
      apply map_eq. intros k. rewrite Hm. destruct (decide (k ∈ kept)) as [Hk|Hk].
      * by rewrite (proj1 (existsb_none _ _) Hu k Hk), andb_false_r.
      * by rewrite bool_decide_eq_false_2.
    + apply (ann_closed_add he stored kept); [done| |by rewrite Hact|by rewrite Hact].
      intros k. rewrite Hkeys. split; [naive_solver|auto].
    + assert (m = ∅) as -> by (apply map_size_empty_iff; lia).
      simpl. intros k r k'. by rewrite lookup_empty.
  - split; [exact H1|]. split; [done|]. intros k. rewrite H2. unfold payload_at. simpl.
    rewrite Hm, (bool_decide_ext _ (k ∈ createEventKeys (ev event) /\ keep_ok keep k = true)) by apply Hkept.
    rewrite bool_decide_and. destruct (bool_decide (k ∈ createEventKeys (ev event))); simpl; [|done].
    destruct (keep_ok keep k); simpl; [|done]. by destruct (needs _ _ k).
Qed.

(** ** Serialization *)

Lemma MarshalJSON_acc (l : list (HealthEventKey * Ref)) :
  let '(events, seen) :=
    fold_left (fun '(events, seen) (kr : HealthEventKey * Ref) =>
      if bool_decide (addr kr.2 ∈ (seen : gset nat)) then (events, seen)
      else (events ++ [ev kr.2], {[addr kr.2]} ∪ seen)) l ([], ∅) in
  (forall p, p ∈ seen <-> exists kr, kr ∈ l /\ addr kr.2 = p) /\
  (forall e, e ∈ events -> exists kr, kr ∈ l /\ ev kr.2 = e) /\
  (forall kr, kr ∈ l -> exists kr', kr' ∈ l /\ addr kr'.2 = addr kr.2 /\ ev kr'.2 ∈ events) /\
  length events = size seen.
Proof.
  induction l as [|x l IH] using rev_ind; [set_solver|].
  rewrite fold_left_app. simpl. destruct (fold_left _ l _) as [events seen].
  destruct IH as (Hs & Hsub & Hall & Hlen). case_bool_decide as Hx.
  - apply Hs in Hx as Hx'. destruct Hx' as (y & Hy & Hyx).
    split; [|split; [|split]]; [| | |done].
    + intros p. rewrite Hs. setoid_rewrite elem_of_app. setoid_rewrite list_elem_of_singleton.
      naive_solver.
    + intros e He. destruct (Hsub e He) as (kr & Hkr & <-). exists kr. set_solver.
    + intros kr [Hkr| ->%list_elem_of_singleton]%elem_of_app.
      * destruct (Hall kr Hkr) as (kr' & H1 & H2). exists kr'. set_solver.
      * destruct (Hall y Hy) as (kr' & H1 & H2 & H3). exists kr'. rewrite H2, Hyx. set_solver.
  - split; [|split; [|split]].
    + intros p. rewrite elem_of_union, Hs, elem_of_singleton. setoid_rewrite elem_of_app.
      setoid_rewrite list_elem_of_singleton. naive_solver.
    + intros e [He| ->%list_elem_of_singleton]%elem_of_app; [|exists x; set_solver].
      destruct (Hsub e He) as (kr & Hkr & <-). exists kr. set_solver.
    + intros kr [Hkr| ->%list_elem_of_singleton]%elem_of_app; [|exists x; set_solver].
      destruct (Hall kr Hkr) as (kr' & H1 & H2 & H3). exists kr'. set_solver.
    + rewrite length_app, size_union by set_solver. rewrite size_singleton. simpl. lia.
Qed.

Lemma elem_of_MarshalJSON he e :
  owned he -> (e ∈ MarshalJSON he <-> exists k r, Events he !! k = Some r /\ ev r = e).
Proof.
  intros Ho. unfold MarshalJSON. pose proof (MarshalJSON_acc (range (Events he))) as H.
  destruct (fold_left _ _ _) as [events seen]. destruct H as (_ & Hsub & Hall & _). simpl. split.
  - intros (kr & Hkr & <-)%Hsub. destruct kr as [k r]. exists k, r. by rewrite <- elem_of_range.
  - intros (k & r & Hk & <-). destruct (Hall (k, r)) as ([k' r'] & Hk' & Ha & Hin).
    { by apply elem_of_range. }
    simpl in *. apply elem_of_range in Hk'. by rewrite (owned_coherent _ Ho _ _ _ _ Hk Hk').
Qed.

Lemma UnmarshalJSON_lookup he events k :
  match Events (UnmarshalJSON he events) !! k with
  | Some r => ev r ∈ events /\ k ∈ createEventKeys (ev r)
  | None => forall e, e ∈ events -> k ∉ createEventKeys e
  end.
Proof.
  unfold UnmarshalJSON. induction events as [|e events IH] using rev_ind; simpl.
  { rewrite lookup_empty. set_solver. }
  rewrite fold_left_app. simpl. rewrite fold_insert_lookup. case_decide as Hk; [set_solver|].
  destruct (Events _ !! k); set_solver.
Qed.

Lemma UnmarshalJSON_owned he events : owned (UnmarshalJSON he events).
Proof.
  unfold UnmarshalJSON. induction events as [|e events IH] using rev_ind; simpl.
  { apply (ann_owned _ (NewHealthEventsAnnotationMap_wf (fresh he))). }
  rewrite fold_left_app. simpl. set (he1 := fold_left _ events _) in *.
  replace (S (fresh he1)) with (S (addr {| addr := fresh he1; ev := e |}) `max` fresh he1) by (simpl; lia).
  apply (owned_add he1 _ (createEventKeys e)); [done|by right|done|].
  intros k r. rewrite fold_insert_lookup. case_decide; [|by right]. intros [= <-]. by left.
Qed.

(** Reading back what was written. *)
Lemma read_back he0 he :
  ann_wf he -> forall k, action_at (UnmarshalJSON he0 (MarshalJSON he)) k = action_at he k.
Proof.
  intros [Ho Hcl] k. pose proof (UnmarshalJSON_lookup he0 (MarshalJSON he) k) as Hk.
  unfold action_at at 1. destruct (Events (UnmarshalJSON he0 _) !! k) as [r|].
  - destruct Hk as [(k' & r' & Hk' & He)%(elem_of_MarshalJSON _ _ Ho) Hin].
    rewrite <- He in Hin. rewrite (Hcl k' r' k Hk' Hin). simpl. by rewrite He.
  - unfold action_at. destruct (Events he !! k) as [r|] eqn:Hr; [|done].
    exfalso. apply (Hk (ev r)); [apply (elem_of_MarshalJSON _ _ Ho); eauto|].
    by apply (owned_key _ Ho).
Qed.

Lemma read_back_wf he0 he : ann_wf he -> ann_wf (UnmarshalJSON he0 (MarshalJSON he)).
Proof.
  intros Hwf. split; [apply UnmarshalJSON_owned|]. intros k r k' Hk Hk'. rewrite (read_back _ _ Hwf).
  pose proof (UnmarshalJSON_lookup he0 (MarshalJSON he) k) as Hl. rewrite Hk in Hl.
  destruct Hl as [(k1 & r1 & Hk1 & He)%(elem_of_MarshalJSON _ _ (ann_owned _ Hwf)) _].
  rewrite <- He in *. by apply (ann_closed _ Hwf k1 r1 k').
Qed.

(** ** Properties *)

(** C23 (compaction).  Whatever order Go visits its maps in,
    [compactStoredValues] keeps, under every key, an event with the same
    payload as before, and afterwards each stored event spells out, as the
    product of its entities and codes, exactly the keys that hold it: a JSON
    round trip cannot recreate a key another event owns. *)
Theorem compactStoredValues_exact (he : HealthEventsAnnotationMap) :
  owned he ->
  (forall k, payload_at (compactStoredValues he) k = payload_at he k) /\
  (forall k r, Events (compactStoredValues he) !! k = Some r ->
     forall k', k' ∈ createEventKeys (ev r) <-> Events (compactStoredValues he) !! k' = Some r).
Proof. intros Ho. destruct (compactStoredValues_spec he Ho) as (_ & H1 & H2). auto. Qed.

(** C33 (round trip).  For an annotation built by the operations, encoding the
    distinct stored events and decoding them into any map gives the same set of
    keys with the same recommended action under every key, and a store the
    operations can go on with. *)
Theorem annotation_roundtrip (he0 he : HealthEventsAnnotationMap) :
  ann_wf he ->
  (forall k, action_at (UnmarshalJSON he0 (MarshalJSON he)) k = action_at he k) /\
  ann_wf (UnmarshalJSON he0 (MarshalJSON he)).
Proof. auto using read_back, read_back_wf. Qed.

(** [AddOrUpdateEventFiltered] keeps the invariant; it changes
    exactly the accepted keys of the event that are missing or hold another
    action, which get the payload of the stored event, also when the store is
    compacted; and it returns true iff there is such a key. *)
Theorem AddOrUpdateEventFiltered_spec (he : HealthEventsAnnotationMap) (event : Ref)
    (keep : option (HealthEventKey -> bool)) :
  ann_wf he -> known he event ->
  ann_wf (AddOrUpdateEventFiltered he event keep).1 /\
  ((AddOrUpdateEventFiltered he event keep).2 = true <->
   exists k, k ∈ createEventKeys (ev event) /\ keep_ok keep k = true /\
             action_at he k <> Some (Action (ev event))) /\
  (forall k, payload_at (AddOrUpdateEventFiltered he event keep).1 k =
     if bool_decide (k ∈ createEventKeys (ev event) /\ keep_ok keep k = true /\
                     action_at he k <> Some (Action (ev event)))
     then Some (payload (ev (withGPUSlotMetadata event (fresh he)).1)) else payload_at he k).
Proof.
  intros Hwf Hkn. destruct (AddOrUpdateEventFiltered_refines he event keep Hwf Hkn) as (H1 & H2 & H3).
  assert (Hneeds : forall k, needs (Events he) (Action (ev event)) k = true <->
                             action_at he k <> Some (Action (ev event))).
  { intros k. unfold needs, action_at. destruct (Events he !! k) as [r|]; simpl; [|done].
    rewrite negb_true_iff, bool_decide_eq_false. split; congruence. }
  split; [done|]. split.
  - rewrite H2, existsb_elem. setoid_rewrite (proj1 (kept_keys_spec (ev event) keep)).
    setoid_rewrite Hneeds. naive_solver.
  - intros k. rewrite H3. destruct (bool_decide (_ /\ _)) eqn:Hc; to_prop.
    + destruct Hc as (Hk & Hkeep & Hn%Hneeds). by rewrite bool_decide_eq_true_2, Hkeep, Hn.
    + case_bool_decide as Hk; simpl; [|done]. destruct (keep_ok keep k) eqn:Hkeep; simpl; [|done].
      destruct (needs _ _ k) eqn:Hn; [|done]. apply Hneeds in Hn. naive_solver.
Qed.

(** C21 (recovery).  [RemoveEventFiltered] keeps the invariant, removes exactly
    the keys the recovery matches and the filter accepts, returns how many
    there were, and leaves the payload of every other key alone. *)
Theorem RemoveEventFiltered_spec (he : HealthEventsAnnotationMap) (event : HealthEvent)
    (keep : option (HealthEventKey -> bool)) :
  ann_wf he ->
  ann_wf (RemoveEventFiltered he event keep).1 /\
  (forall k, payload_at (RemoveEventFiltered he event keep).1 k =
     if cleared he event keep k then None else payload_at he k) /\
  (RemoveEventFiltered he event keep).2 =
    size (filter (fun kr => cleared he event keep kr.1 = true) (Events he)).
Proof.
  intros Hwf. destruct (removed_keys he event keep) as (ks & -> & Hnd & Hks).
  destruct (removeKeys_spec he ks Hwf) as (H1 & H2 & H3). split; [done|]. split.
  - intros k. rewrite H3. destruct (cleared he event keep k) eqn:Hc; case_decide as Hk; try done.
    + by apply Hks in Hc.
    + apply Hks in Hk. congruence.
  - rewrite H2, <- size_dom, <- (size_list_to_set (C := gset HealthEventKey) ks Hnd).
    f_equal. apply leibniz_equiv. intros k.
    rewrite elem_of_list_to_set, elem_of_dom, Hks. split.
    + intros Hc. unfold cleared in Hc. destruct (Events he !! k) as [r|] eqn:Hk; [|done].
      exists r. apply map_lookup_filter_Some. split; [done|]. simpl. unfold cleared. by rewrite Hk.
    + intros [r [_ Hc]%map_lookup_filter_Some]. exact Hc.
Qed.

Context {SCL : SlotCodecLaws}.

(** The slot recorded in the metadata does not depend on the entities left. *)
Lemma recorded_slot event next encoded e' :
  countEntityType (ev event) "GPU_UUID" = 1 ->
  Metadata (ev event) !! gpuRecoverySlotKey = None ->
  slotEntitiesFromImpacted (ev event) <> [] ->
  slot_marshal (slotEntitiesFromImpacted (ev event)) = Some encoded ->
  payload e' = payload (ev (withGPUSlotMetadata event next).1) ->
  gpuSlotEntities e' = slotEntitiesFromImpacted (ev event).
Proof.
  intros Hc Hm Hs He Hp.
  assert (Hst : (withGPUSlotMetadata event next).1 = {| addr := next;
    ev := with_metadata (ev event) (<[gpuRecoverySlotKey := encoded]> (Metadata (ev event))) |}).
  { unfold withGPUSlotMetadata. rewrite Hc. simpl.
    rewrite bool_decide_eq_false_2 by (rewrite Hm; by intros [? ?]).
    destruct (slotEntitiesFromImpacted (ev event)) as [|x xs]; [done|]. by rewrite He. }
  rewrite Hst in Hp. apply (f_equal Metadata) in Hp. simpl in Hp.
  unfold gpuSlotEntities. rewrite Hp, lookup_insert_eq.
  rewrite (proj2 (go_eqb_false encoded "")) by (by eapply slot_nonempty). simpl.
  by rewrite (slot_roundtrip _ _ He).
Qed.

(** A fault that names one GPU_UUID and its slot (GPU index
    and PCI address) is cleared, after any compaction or partial removal has
    left only its GPU_UUID key, by a healthy event of the same check that lists
    the slot, although the replacement GPU has another UUID. *)
Theorem replaced_gpu_recovers (he : HealthEventsAnnotationMap) (event : Ref) (next : nat)
    (encoded : string) (k : HealthEventKey) (healthy : HealthEvent) :
  ann_wf he ->
  countEntityType (ev event) "GPU_UUID" = 1 ->
  Metadata (ev event) !! gpuRecoverySlotKey = None ->
  slotEntitiesFromImpacted (ev event) <> [] ->
  slot_marshal (slotEntitiesFromImpacted (ev event)) = Some encoded ->
  payload_at he k = Some (payload (ev (withGPUSlotMetadata event next).1)) ->
  kEntityType k = "GPU_UUID"%string ->
  key_ident k = event_ident healthy ->
  IsHealthy healthy = true -> ComponentClass healthy = "GPU"%string ->
  ErrorCode healthy = [] \/ kErrorCode k ∈ ErrorCode healthy ->
  (forall s, s ∈ slotEntitiesFromImpacted (ev event) -> s ∈ EntitiesImpacted healthy) ->
  payload_at (RemoveEvent he healthy).1 k = None.
Proof.
  intros Hwf Hc Hm Hs He Hp Ht Hid Hh Hcl Hcode Hslot.
  destruct (removed_keys he healthy None) as (ks & Hrm & _ & Hks). unfold RemoveEvent. rewrite Hrm.
  destruct (removeKeys_spec he ks Hwf) as (_ & _ & ->). rewrite decide_True; [done|].
  apply Hks. unfold cleared. unfold payload_at in Hp.
  destruct (Events he !! k) as [r|]; [|done]. apply (inj Some) in Hp.
  pose proof (recorded_slot event next encoded (ev r) Hc Hm Hs He Hp) as Hgs.
  destruct (slotEntitiesFromImpacted (ev event)) as [|s0 ss] eqn:Hss; [done|].
  destruct (EntitiesImpacted healthy) as [|e0 es] eqn:Hei.
  { exfalso. apply (not_elem_of_nil s0), Hslot. by left. }
  injection Hid as I1 I2 I3 I4 I5. simpl. rewrite andb_true_r.
  unfold keyMatchesEvent. rewrite I1, I2, I3, I4, I5, !go_eqb_refl, Z.eqb_refl. simpl.
  assert (Hrep : replacedGPUMatches k (ev r) healthy = true).
  { unfold replacedGPUMatches. rewrite Hh, Hcl, Ht, !go_eqb_refl, Hgs. simpl (negb true || _ || _).
    cbv iota. apply forallb_elem. intros s Hin. apply existsb_elem. exists s. split.
    - rewrite Hei. by apply Hslot.
    - unfold entity_eqb. by rewrite !go_eqb_refl. }
  unfold entityMatches. rewrite Hrep, orb_true_r. simpl.
  destruct Hcode as [->|Hin]; [done|]. unfold errorCodeMatches.
  by rewrite bool_decide_eq_true_2, andb_false_r.
Qed.

Lemma find_spec {A} (f : A -> bool) l :
  match find f l with
  | Some x => x ∈ l /\ f x = true
  | None => forall x, x ∈ l -> f x = false
  end.
Proof.
  destruct (find f l) as [x|] eqn:Hf.
  - apply find_some in Hf as [H1 H2]. by rewrite list_elem_of_In.
  - intros x. rewrite list_elem_of_In. by apply find_none.
Qed.

(** Lookup.  [GetEvent] answers with a stored event iff some stored key
    matches the event; an event without entities, when no key matches it, falls
    back to any key of its check. *)
Theorem GetEvent_spec (he : HealthEventsAnnotationMap) (event : HealthEvent) :
  match GetEvent he event with
  | Some r => exists k, Events he !! k = Some r /\
      (keyMatchesEvent k (ev r) event = true \/
       EntitiesImpacted event = [] /\ keyMatchesCheck k event = true)
  | None => forall k r, Events he !! k = Some r ->
      keyMatchesEvent k (ev r) event = false /\
      (EntitiesImpacted event = [] -> keyMatchesCheck k event = false)
  end /\
  (HasMatchingEntities he event = true -> exists r, GetEvent he event = Some r).
Proof.
  unfold GetEvent, findFirstMatch, getEventByCheck, HasMatchingEntities.
  pose proof (find_spec (fun kr => keyMatchesEvent kr.1 (ev kr.2) event) (range (Events he))) as H1.
  pose proof (find_spec (fun kr => keyMatchesCheck kr.1 event) (range (Events he))) as H2.
  destruct (find _ _) as [[k r]|]; simpl.
  { destruct H1 as [Hk%elem_of_range Hm]. split; [|eauto]. exists k. auto. }
  assert (Hnone : forall k r, Events he !! k = Some r -> keyMatchesEvent k (ev r) event = false).
  { intros k r Hk. apply (H1 (k, r)). by apply elem_of_range. }
  split.
  - destruct (EntitiesImpacted event) as [|e0 es] eqn:Hei; simpl; [|split; [eauto|done]].
    destruct (find _ _) as [[k r]|]; simpl.
    + destruct H2 as [Hk%elem_of_range Hm]. exists k. auto.
    + intros k r Hk. split; [eauto|]. intros _. apply (H2 (k, r)). by apply elem_of_range.
  - intros (x & Hx & Hm)%existsb_elem. rewrite (H1 x Hx) in Hm. done.
Qed.

End theory.

(** ** A concrete annotation *)

Module AnnotationDemo.

#[local] Existing Instance list_range.
#[local] Existing Instance list_range_laws.

(** A slot codec: the binary digits of stdpp's numbering of lists. *)
Fixpoint bits (p : positive) : string :=
  match p with
  | xH => "1"
  | xO q => "0" +:+ bits q
  | xI q => "i" +:+ bits q
  end.

Fixpoint unbits (s : string) : option positive :=
  match s with
  | EmptyString => None
  | String c s' =>
      if decide (c = "1"%char) then Some xH
      else if decide (c = "0"%char) then xO <$> unbits s' else xI <$> unbits s'
  end.

Lemma unbits_bits p : unbits (bits p) = Some p.
Proof.
  induction p as [p IH|p IH|]; [| |done].
  - change (xI <$> unbits (bits p) = Some (xI p)). by rewrite IH.
  - change (xO <$> unbits (bits p) = Some (xO p)). by rewrite IH.
Qed.

#[local] Instance Entity_countable : Countable Entity.
Proof.
  apply (inj_countable' (fun e => (EntityType e, EntityValue e))
    (fun '(t, v) => Build_Entity t v)). by intros [].
Defined.

#[local] Instance bit_codec : SlotCodec := {|
  slot_marshal l := Some (bits (encode l));
  slot_unmarshal s := unbits s ≫= decode |}.

#[local] Instance bit_codec_laws : SlotCodecLaws.
Proof.
  split.
  - intros l s [= <-]. simpl. rewrite unbits_bits. simpl. apply decode_encode.
  - intros l s [= <-]. by destruct (encode l).
Qed.

Definition xid_fault (action : RecommendedAction) (codes : list string) (es : list Entity) : HealthEvent :=
  {| Version := 1; Agent := "syslog-health-monitor"; ComponentClass := "GPU";
     CheckName := "SysLogsXIDError"; IsFatal := true; IsHealthy := false; Message := "XID";
     Action := action; ErrorCode := codes; EntitiesImpacted := es; Metadata := ∅;
     GeneratedSeconds := None; NodeName := "node-1"; QuarantineOverrides := None;
     DrainOverrides := None; Strategy := EXECUTE_REMEDIATION; Id := "";
     CustomRecommendedAction := "" |}.

Definition recovery (codes : list string) (es : list Entity) : HealthEvent :=
  {| Version := 1; Agent := "syslog-health-monitor"; ComponentClass := "GPU";
     CheckName := "SysLogsXIDError"; IsFatal := false; IsHealthy := true; Message := "";
     Action := NONE; ErrorCode := codes; EntitiesImpacted := es; Metadata := ∅;
     GeneratedSeconds := None; NodeName := "node-1"; QuarantineOverrides := None;
     DrainOverrides := None; Strategy := EXECUTE_REMEDIATION; Id := "";
     CustomRecommendedAction := "" |}.

Definition gpu0 := {| EntityType := "GPU"; EntityValue := "0" |}.
Definition pci0 := {| EntityType := "PCI"; EntityValue := "0000:17:00" |}.
Definition uuid0 := {| EntityType := "GPU_UUID"; EntityValue := "GPU-a" |}.

Definition fault := {| addr := 0; ev := xid_fault RESTART_BM ["79"; "119"] [gpu0; pci0; uuid0] |}.
Definition escalated := {| addr := 1; ev := xid_fault REPLACE_VM ["79"] [gpu0] |}.

Definition he0 := NewHealthEventsAnnotationMap 2.
Definition he1 := (AddOrUpdateEvent he0 fault).1.
Definition he2 := (AddOrUpdateEvent he1 escalated).1.

(** The recovery of one entity leaves the other two. *)
Definition he3 := (RemoveEvent he1 (recovery [] [gpu0])).1.

Lemma he0_knows r : addr r < 2 -> known he0 r.
Proof. intros Hr. split; [done|]. intros k r'. unfold he0. simpl. by rewrite lookup_empty. Qed.

Lemma he1_wf : ann_wf he1.
Proof.
  apply (AddOrUpdateEventFiltered_refines he0 fault None).
  - apply NewHealthEventsAnnotationMap_wf.
  - apply he0_knows. simpl. lia.
Qed.

Lemma he1_knows_escalated : known he1 escalated.
Proof.
  split; [vm_compute; lia|]. intros k r Hk Ha.
  assert (Hall : forallb (fun kr => negb (addr kr.2 =? 1)%nat) (map_to_list (Events he1)) = true)
    by (vm_compute; reflexivity).
  apply elem_of_map_to_list in Hk. pose proof (proj1 (forallb_elem _ _) Hall _ Hk) as Hb.
  simpl in Hb. rewrite Ha in Hb. done.
Qed.

(** The escalation splits the first event: its six keys become two rectangles
    next to the new event. *)
Example he2_events :
  length (MarshalJSON he2) = 3 /\ size (Events he2) = 6.
Proof. vm_compute. done. Qed.

Lemma compactStoredValues_witness :
  (forall k, payload_at (compactStoredValues he1) k = payload_at he1 k) /\
  (forall k r, Events (compactStoredValues he1) !! k = Some r ->
     forall k', k' ∈ createEventKeys (ev r) <-> Events (compactStoredValues he1) !! k' = Some r).
Proof. apply (compactStoredValues_exact he1). apply (ann_owned _ he1_wf). Defined.

Lemma annotation_roundtrip_witness :
  (forall k, action_at (UnmarshalJSON he0 (MarshalJSON he1)) k = action_at he1 k) /\
  ann_wf (UnmarshalJSON he0 (MarshalJSON he1)).
Proof. apply (annotation_roundtrip he0 he1). exact he1_wf. Defined.

Lemma AddOrUpdateEventFiltered_witness : ann_wf (AddOrUpdateEventFiltered he1 escalated None).1.
Proof.
  exact (proj1 (AddOrUpdateEventFiltered_spec he1 escalated None he1_wf he1_knows_escalated)).
Defined.

Lemma RemoveEventFiltered_witness : ann_wf (RemoveEventFiltered he1 (recovery [] [gpu0]) None).1.
Proof. exact (proj1 (RemoveEventFiltered_spec he1 (recovery [] [gpu0]) None he1_wf)). Defined.

Lemma he1_matches : HasMatchingEntities he1 (recovery [] [gpu0]) = true.
Proof. vm_compute. reflexivity. Qed.

Lemma GetEvent_witness : exists r, GetEvent he1 (recovery [] [gpu0]) = Some r.
Proof. exact (proj2 (GetEvent_spec he1 (recovery [] [gpu0])) he1_matches). Defined.

Definition uuid_key : HealthEventKey :=
  with_code (CreateEventKeyForEntity (ev fault) (Some uuid0)) "79".

Lemma he3_wf : ann_wf he3.
Proof.
  unfold he3, RemoveEvent. destruct (removed_keys he1 (recovery [] [gpu0]) None) as (ks & -> & _).
  apply removeKeys_spec. exact he1_wf.
Qed.

Lemma replaced_gpu_recovers_witness :
  payload_at (RemoveEvent he3 (recovery [] [gpu0; pci0])).1 uuid_key = None.
Proof.
  apply (replaced_gpu_recovers he3 fault 2 (bits (encode [gpu0; pci0])) uuid_key
           (recovery [] [gpu0; pci0])).
  - exact he3_wf.
  - vm_compute. reflexivity.
  - vm_compute. reflexivity.
  - vm_compute. discriminate.
  - vm_compute. reflexivity.
  - vm_compute. reflexivity.
  - reflexivity.
  - reflexivity.
  - reflexivity.
  - reflexivity.
  - left. reflexivity.
  - intros s Hs. exact Hs.
Defined.

(** An event without entities but with a code
    finds the stored event of another code of the check, which
    [HasMatchingEntities] does not report and the removal of the same event
    leaves in place. *)
Example check_level_lookup_ignores_codes :
  bool_decide (is_Some (GetEvent he1 (recovery ["31"] []))) = true /\
  HasMatchingEntities he1 (recovery ["31"] []) = false /\
  (RemoveEvent he1 (recovery ["31"] [])).2 = 0.
Proof. vm_compute. done. Qed.

End AnnotationDemo.
