(* ===== verification/Dedup.v ===== *)
(** * Deduplication of health events

    Models [platform-connectors/pkg/transformers/dedup]: the tracker of recently
    seen events (a map of buckets, a count kept beside it, a capacity), and the
    transformer that demotes a repeated unhealthy event to
    [STORE_AND_ANALYSE].  The clock value an operation reads is its argument;
    the lock makes every operation one step.  The order in which Go visits a
    map is the parameter [range]. *)

From stdpp Require Import gmap strings list fin_maps sorting.
From Stdlib Require Import ZArith Lia.
From S2P Require Import Prelude HealthEvent.

(** ** Configuration *)

Definition DefaultSuppressionWindow : Z := 3 * Minute.
Definition DefaultCleanupInterval : Z := 1 * Minute.
Definition DefaultMaxEntries : Z := 100000.

Record Config := {
  SuppressionWindow : Z;
  CleanupInterval : Z;
  IncludeChecks : list string;
  MaxEntries : Z;
}.

Definition DefaultConfig : Config :=
  {| SuppressionWindow := DefaultSuppressionWindow; CleanupInterval := DefaultCleanupInterval;
     IncludeChecks := []; MaxEntries := DefaultMaxEntries |}.

(** [LoadConfig] with what the file system and the TOML decoder answer: no path
    or no file, or the decoded configuration or an error. *)
Definition LoadConfig (path : string) (file : option (result Config)) : result Config :=
  if path ==s "" then Ok DefaultConfig
  else match file with
       | None => Ok DefaultConfig
       | Some (Err e) => Err (wrapf ("failed to load dedup config " +:+ path) e)
       | Some (Ok cfg) =>
           Ok (if (MaxEntries cfg =? 0)%Z
               then {| SuppressionWindow := SuppressionWindow cfg;
                       CleanupInterval := CleanupInterval cfg; IncludeChecks := IncludeChecks cfg;
                       MaxEntries := DefaultMaxEntries |}
               else cfg)
       end.

Definition Validate (c : Config) : option error :=
  if (SuppressionWindow c <=? 0)%Z then Some "suppressionWindow must be positive"%string
  else if (MaxEntries c <=? 0)%Z then Some "maxEntries must be positive"%string
  else if (CleanupInterval c <=? 0)%Z then Some "cleanupInterval must be positive"%string
  else None.

(** ** Keys *)

Record checkKey := { cnodeName : string; ccheckName : string; cprocessingStrategy : string }.

Record eventKey := {
  nodeName : string;
  checkName : string;
  kentities : string;
  kerrorCodes : string;
  processingStrategy : string;
  isHealthy : bool;
}.

#[export] Instance checkKey_eq_dec : EqDecision checkKey.
Proof. solve_decision. Defined.
#[export] Instance checkKey_countable : Countable checkKey.
Proof.
  apply (inj_countable' (fun k => (cnodeName k, ccheckName k, cprocessingStrategy k))
    (fun '(a, b, c) => Build_checkKey a b c)). by intros [].
Defined.
#[export] Instance eventKey_eq_dec : EqDecision eventKey.
Proof. solve_decision. Defined.
#[export] Instance eventKey_countable : Countable eventKey.
Proof.
  apply (inj_countable'
    (fun k => (nodeName k, checkName k, kentities k, kerrorCodes k, processingStrategy k, isHealthy k))
    (fun '(a, b, c, d, e, f) => Build_eventKey a b c d e f)). by intros [].
Defined.

Definition check (k : eventKey) : checkKey :=
  {| cnodeName := nodeName k; ccheckName := checkName k;
     cprocessingStrategy := processingStrategy k |}.

(** The order of [canonicalEntities]: by type, then by value. *)
Definition entity_le (a b : Entity) : Prop :=
  if decide (EntityType a = EntityType b) then String.le (EntityValue a) (EntityValue b)
  else String.le (EntityType a) (EntityType b).
#[export] Instance entity_le_dec : RelDecision entity_le.
Proof. intros a b. unfold entity_le. case_decide; apply _. Defined.

Definition canonicalEntities (es : list Entity) : list Entity := merge_sort entity_le es.

Definition writeCanonicalString (b value : string) : string := b +:+ frame ";" value.

Definition encodeStrings (values : list string) : string :=
  fold_left writeCanonicalString values "".

Definition encodeEntities (es : list Entity) : string :=
  fold_left (fun b entity => writeCanonicalString (writeCanonicalString b (EntityType entity))
                               (EntityValue entity)) es "".

Definition keyWithHealthState (event : HealthEvent) (healthy : bool) : eventKey :=
  {| nodeName := NodeName event; checkName := CheckName event;
     kentities := encodeEntities (canonicalEntities (EntitiesImpacted event));
     kerrorCodes := encodeStrings (merge_sort String.le (ErrorCode event));
     processingStrategy := Strategy_String (Strategy event); isHealthy := healthy |}.

Definition matchesUnhealthyCounterpart (k clearKey : eventKey) (event : HealthEvent) : bool :=
  if isHealthy k || (nodeName k <>s nodeName clearKey) || (checkName k <>s checkName clearKey)
     || (processingStrategy k <>s processingStrategy clearKey) then false
  else if (0 <? length (EntitiesImpacted event))%nat && (kentities k <>s kentities clearKey) then false
  else if (0 <? length (ErrorCode event))%nat && (kerrorCodes k <>s kerrorCodes clearKey) then false
  else true.

(** ** The tracker *)

Record seenEvent := { at_ : Z; idempotencyKey : string }.

Record tracker := {
  seen : gmap checkKey (gmap eventKey seenEvent);
  count : Z;
  ttl : Z;
  maxEntries : Z;
}.

Definition with_seen (t : tracker) (m : gmap checkKey (gmap eventKey seenEvent)) (c : Z) : tracker :=
  {| seen := m; count := c; ttl := ttl t; maxEntries := maxEntries t |}.

(** [newTracker] with the option the factory passes. *)
Definition newTracker (window max : Z) : tracker :=
  {| seen := ∅; count := 0; ttl := window; maxEntries := max |}.

Definition lookup_ (t : tracker) (k : eventKey) : option seenEvent :=
  default ∅ (seen t !! check k) !! k.

Definition add (t : tracker) (k : eventKey) (s : seenEvent) : tracker :=
  let bucket := default ∅ (seen t !! check k) in
  let c := match bucket !! k with Some _ => count t | None => (count t + 1)%Z end in
  with_seen t (<[check k := <[k := s]> bucket]> (seen t)) c.

Definition remove (t : tracker) (k : eventKey) : tracker :=
  match seen t !! check k with
  | None => t
  | Some bucket =>
      match bucket !! k with
      | None => t
      | Some _ =>
          let bucket' := delete k bucket in
          with_seen t
            (if (size bucket' =? 0)%nat then delete (check k) (seen t)
             else <[check k := bucket']> (seen t)) (count t - 1)
      end
  end.

Definition HealthEventIdempotencyKeyMetadataField : string := "idempotencyKey".

Section with_range.
Context {MR : MapRange}.

(** The keys in the order of the two nested loops. *)
Definition tracked_in_order (t : tracker) : list (eventKey * seenEvent) :=
  range (seen t) ≫= fun cb => range cb.2.

Definition evictOneOther (t : tracker) (keep : eventKey) : tracker :=
  match find (fun ks => negb (bool_decide (ks.1 = keep))) (tracked_in_order t) with
  | Some (other, _) => remove t other
  | None => t
  end.

Definition checkAndMark (t : tracker) (now : Z) (event : HealthEvent) : tracker * bool :=
  let k := keyWithHealthState event (IsHealthy event) in
  let idem := default ""%string (Metadata event !! HealthEventIdempotencyKeyMetadataField) in
  match lookup_ t k with
  | Some s =>
      if (time_sub now (at_ s) <? ttl t)%Z then (t, (idem ==s "") || (idem <>s idempotencyKey s))
      else
        let t' := add t k {| at_ := now; idempotencyKey := idem |} in
        (if (maxEntries t' <? count t')%Z then evictOneOther t' k else t', false)
  | None =>
      let t' := add t k {| at_ := now; idempotencyKey := idem |} in
      (if (maxEntries t' <? count t')%Z then evictOneOther t' k else t', false)
  end.

Definition clearUnhealthyCounterpart (t : tracker) (event : HealthEvent) : tracker * bool :=
  if negb (IsHealthy event) then (t, false)
  else
    let clearKey := keyWithHealthState event false in
    fold_left (fun '(t', cleared) (ks : eventKey * seenEvent) =>
      if matchesUnhealthyCounterpart ks.1 clearKey event then (remove t' ks.1, true) else (t', cleared))
      (range (default ∅ (seen t !! check clearKey))) (t, false).

Definition evictExpired (t : tracker) (now : Z) : tracker :=
  fold_left (fun t' (ks : eventKey * seenEvent) =>
    if (ttl t <=? time_sub now (at_ ks.2))%Z then remove t' ks.1 else t') (tracked_in_order t) t.

(** ** The transformer *)

Record Deduplicator := { dtracker : tracker; include : gset string }.

Definition NewDeduplicator (t : tracker) (includeChecks : list string) : Deduplicator :=
  {| dtracker := t; include := list_to_set includeChecks |}.

Definition newFromConfig (path : string) (file : option (result Config)) : result Deduplicator :=
  match LoadConfig path file with
  | Err e => Err (wrapf "failed to load dedup configuration" e)
  | Ok cfg =>
      match Validate cfg with
      | Some e => Err (wrapf "invalid dedup configuration" e)
      | None =>
          Ok (NewDeduplicator (newTracker (SuppressionWindow cfg) (MaxEntries cfg)) (IncludeChecks cfg))
      end
  end.

(** The event after [Transform], which never fails. *)
Definition Transform (d : Deduplicator) (now : Z) (event : HealthEvent) : Deduplicator * HealthEvent :=
  if bool_decide (Strategy event = STORE_ONLY) then (d, event)
  else if (0 <? size (include d))%nat && negb (bool_decide (CheckName event ∈ include d)) then (d, event)
  else if IsHealthy event then
    ({| dtracker := (clearUnhealthyCounterpart (dtracker d) event).1; include := include d |}, event)
  else
    let '(t', dup) := checkAndMark (dtracker d) now event in
    ({| dtracker := t'; include := include d |},
     if dup then with_strategy event STORE_AND_ANALYSE else event).

End with_range.

(** ** Keys: equal exactly for the same event *)

#[export] Instance entity_le_total : Total entity_le.
Proof.
  intros a b. unfold entity_le. destruct (decide (EntityType a = EntityType b)) as [E|E].
  - rewrite decide_True by done. apply (total String.le).
  - rewrite decide_False by done. apply (total String.le).
Qed.

#[export] Instance entity_le_trans : Transitive entity_le.
Proof.
  intros a b c. unfold entity_le.
  destruct (decide (EntityType a = EntityType b)) as [E1|E1],
           (decide (EntityType b = EntityType c)) as [E2|E2].
  - rewrite decide_True by congruence. apply (transitivity (R := String.le)).
  - rewrite decide_False by congruence. by rewrite E1.
  - rewrite decide_False by congruence. by rewrite E2.
  - intros H1 H2. destruct (decide (EntityType a = EntityType c)) as [E3|E3].
    + exfalso. apply E1. apply (anti_symm String.le); [done|]. by rewrite E3.
    + by transitivity (EntityType b).
Qed.

#[export] Instance entity_le_antisymm : AntiSymm (=) entity_le.
Proof.
  intros [ta va] [tb vb]. unfold entity_le. simpl. intros H1 H2.
  destruct (decide (ta = tb)) as [->|E].
  - rewrite decide_True in H2 by done. f_equal. by apply (anti_symm String.le).
  - rewrite decide_False in H2 by done. exfalso. apply E. by apply (anti_symm String.le).
Qed.

Lemma merge_sort_canonical {A} (R : relation A) `{!RelDecision R, !Total R, !Transitive R, !AntiSymm (=) R}
    l1 l2 : merge_sort R l1 = merge_sort R l2 <-> l1 ≡ₚ l2.
Proof.
  split.
  - intros H. by rewrite <- (merge_sort_Permutation R l1), H, merge_sort_Permutation.
  - intros H. apply (Sorted_unique R); [apply (Sorted_merge_sort R)..|].
    by rewrite !merge_sort_Permutation.
Qed.

Lemma encodeStrings_frames l b : fold_left writeCanonicalString l b = b +:+ frames ";" l.
Proof.
  revert b. induction l as [|v l IH]; intros b; cbn [fold_left frames].
  - by rewrite string_app_nil_r.
  - rewrite IH. unfold writeCanonicalString. by rewrite string_app_assoc.
Qed.

Lemma encodeEntities_frames l b :
  fold_left (fun b entity => writeCanonicalString (writeCanonicalString b (EntityType entity))
                               (EntityValue entity)) l b =
  b +:+ frames ";" (l ≫= fun e => [EntityType e; EntityValue e]).
Proof.
  revert b. induction l as [|e l IH]; intros b; cbn [fold_left frames mbind list_bind app].
  - by rewrite string_app_nil_r.
  - rewrite IH. unfold writeCanonicalString. by rewrite !string_app_assoc.
Qed.

Lemma encodeStrings_inj l1 l2 : encodeStrings l1 = encodeStrings l2 <-> l1 = l2.
Proof.
  split; [|by intros ->]. unfold encodeStrings. rewrite !encodeStrings_frames.
  apply frames_inj.
Qed.

Lemma encodeEntities_inj l1 l2 : encodeEntities l1 = encodeEntities l2 <-> l1 = l2.
Proof.
  split; [|by intros ->]. unfold encodeEntities. rewrite !encodeEntities_frames.
  intros H%frames_inj. revert l2 H. induction l1 as [|[t v] l1 IH]; intros [|[t2 v2] l2]; try done.
  cbn. intros [= -> -> H]. f_equal. by apply IH.
Qed.

(** Two events are the same for the deduplicator when they agree on node, check
    and strategy and list the same entities and codes, in any order. *)
Definition same_event (e1 e2 : HealthEvent) : Prop :=
  NodeName e1 = NodeName e2 /\ CheckName e1 = CheckName e2 /\ Strategy e1 = Strategy e2 /\
  EntitiesImpacted e1 ≡ₚ EntitiesImpacted e2 /\ ErrorCode e1 ≡ₚ ErrorCode e2.

Lemma key_same_event e1 e2 b :
  keyWithHealthState e1 b = keyWithHealthState e2 b <-> same_event e1 e2.
Proof.
  unfold keyWithHealthState, same_event, canonicalEntities. split.
  - intros H. injection H as H1 H2 H3 H4 H5.
    apply encodeEntities_inj in H3. apply encodeStrings_inj in H4.
    apply merge_sort_canonical in H3; [|apply _..]. apply merge_sort_canonical in H4; [|apply _..].
    apply Strategy_String_inj in H5. done.
  - intros (-> & -> & -> & H4 & H5).
    rewrite (proj2 (merge_sort_canonical entity_le _ _) H4).
    by rewrite (proj2 (merge_sort_canonical String.le _ _) H5).
Qed.

(** ** The tracker implements a flat map

    [repr t m]: the buckets of [t] hold exactly the entries of [m], no bucket
    is empty, and the count is the number of entries. *)

Record repr (t : tracker) (m : gmap eventKey seenEvent) : Prop := {
  repr_lookup k : lookup_ t k = m !! k;
  repr_bucket c b : seen t !! c = Some b -> b <> ∅ /\ forall k s, b !! k = Some s -> check k = c;
  repr_count : count t = Z.of_nat (size m) }.

Lemma repr_new window max : repr (newTracker window max) ∅.
Proof.
  split; simpl.
  - intros k. unfold lookup_. simpl. by rewrite !lookup_empty.
  - intros c b. by rewrite lookup_empty.
  - by rewrite map_size_empty.
Qed.

Lemma repr_add t m k s : repr t m -> repr (add t k s) (<[k := s]> m).
Proof.
  intros [Hl Hb Hc]. split.
  - intros k'. unfold lookup_, add. simpl. destruct (decide (check k' = check k)) as [E|E].
    + rewrite E, lookup_insert_eq. simpl. destruct (decide (k' = k)) as [->|Hne].
      * by rewrite !lookup_insert_eq.
      * rewrite !lookup_insert_ne by done. rewrite <- Hl. unfold lookup_. by rewrite E.
    + rewrite lookup_insert_ne by done. rewrite lookup_insert_ne by congruence. apply Hl.
  - intros c b. unfold add. simpl. destruct (decide (c = check k)) as [->|E].
    + rewrite lookup_insert_eq. intros [= <-]. split; [apply insert_non_empty|].
      intros k' s'. destruct (decide (k' = k)) as [->|Hne]; [done|]. rewrite lookup_insert_ne by done.
      destruct (seen t !! check k) as [b|] eqn:Hbk; simpl; [|by rewrite lookup_empty].
      by apply (Hb _ _ Hbk).
    + rewrite lookup_insert_ne by done. apply Hb.
  - specialize (Hl k). unfold lookup_ in Hl. unfold add. simpl. rewrite Hl, map_size_insert.
    destruct (m !! k); simpl; lia.
Qed.

Lemma repr_remove t m k : repr t m -> repr (remove t k) (delete k m).
Proof.
  intros [Hl Hb Hc]. pose proof (Hl k) as Hk. unfold lookup_ in Hk. unfold remove.
  assert (Hskip : m !! k = None -> repr t (delete k m)).
  { intros Hn. rewrite delete_id by done. by split. }
  destruct (seen t !! check k) as [b|] eqn:Hbk; simpl in Hk;
    [|apply Hskip; by rewrite <- Hk, lookup_empty].
  destruct (b !! k) as [s|] eqn:Hs; [|by apply Hskip].
  assert (Hother : forall c, c <> check k ->
    (if (size (delete k b) =? 0)%nat then delete (check k) (seen t)
     else <[check k := delete k b]> (seen t)) !! c = seen t !! c).
  { intros c Hne. case_match; [by rewrite lookup_delete_ne|by rewrite lookup_insert_ne]. }
  assert (Hthis : (if (size (delete k b) =? 0)%nat then delete (check k) (seen t)
     else <[check k := delete k b]> (seen t)) !! check k =
     if (size (delete k b) =? 0)%nat then None else Some (delete k b)).
  { case_match; [by rewrite lookup_delete_eq|by rewrite lookup_insert_eq]. }
  assert (Hdel : default ∅ (if (size (delete k b) =? 0)%nat then None else Some (delete k b)) = delete k b).
  { destruct (Nat.eqb_spec (size (delete k b)) 0) as [Hz|]; [|done].
    apply map_size_empty_iff in Hz. by rewrite Hz. }
  split; simpl.
  - intros k'. unfold lookup_. simpl. destruct (decide (check k' = check k)) as [E|E].
    + rewrite E, Hthis, Hdel. destruct (decide (k' = k)) as [->|Hne]; [by rewrite !lookup_delete_eq|].
      rewrite !lookup_delete_ne by done. rewrite <- Hl. unfold lookup_. by rewrite E, Hbk.
    + rewrite Hother by done. rewrite lookup_delete_ne by congruence. apply Hl.
  - intros c b'. destruct (decide (c = check k)) as [->|E]; [|rewrite Hother by done; apply Hb].
    rewrite Hthis. destruct (Nat.eqb_spec (size (delete k b)) 0) as [|Hz]; [done|]. intros [= <-]. split.
    + intros He. apply Hz. by rewrite He, map_size_empty.
    + intros k' s' [_ Hk']%lookup_delete_Some. by apply (Hb _ _ Hbk) in Hk'.
  - rewrite map_size_delete, <- Hk, Hc. simpl.
    assert (size m <> 0) by (apply (map_size_ne_0_lookup_2 m k); by rewrite <- Hk). lia.
Qed.

Lemma ttl_remove t k : ttl (remove t k) = ttl t /\ maxEntries (remove t k) = maxEntries t.
Proof. unfold remove. by repeat case_match. Qed.

Section theory.
Context {MR : MapRange} {MRL : MapRangeLaws}.

Lemma elem_of_tracked t m k s :
  repr t m -> ((k, s) ∈ tracked_in_order t <-> m !! k = Some s).
Proof.
  intros [Hl Hb _]. unfold tracked_in_order. rewrite list_elem_of_bind. split.
  - intros ([c b] & Hk%elem_of_range & Hc%elem_of_range). simpl in *.
    rewrite <- Hl. unfold lookup_. destruct (Hb _ _ Hc) as [_ Hck].
    rewrite (Hck _ _ Hk), Hc. done.
  - rewrite <- Hl. unfold lookup_. intros Hk.
    destruct (seen t !! check k) as [b|] eqn:Hc; simpl in Hk; [|by rewrite lookup_empty in Hk].
    exists (check k, b). rewrite !elem_of_range. done.
Qed.

(** Removing, one by one, the entries of a list that satisfy [f]. *)
Lemma fold_remove_if (f : eventKey * seenEvent -> bool) l t m :
  repr t m ->
  exists m', repr (fold_left (fun t' ks => if f ks then remove t' ks.1 else t') l t) m' /\
    forall k, m' !! k = if existsb (fun ks => bool_decide (ks.1 = k) && f ks) l then None else m !! k.
Proof.
  revert t m. induction l as [|x l IH]; intros t m Hr; simpl; [eauto|].
  destruct (f x) eqn:Hf.
  - destruct (IH _ _ (repr_remove t m x.1 Hr)) as (m' & Hr' & Hm'). exists m'. split; [done|].
    intros k. rewrite Hm'. case_bool_decide as Hk; simpl.
    + subst k. rewrite lookup_delete_eq. by destruct (existsb _ l).
    + by rewrite lookup_delete_ne.
  - destruct (IH _ _ Hr) as (m' & Hr' & Hm'). exists m'. split; [done|].
    intros k. rewrite Hm', andb_false_r. done.
Qed.

Lemma repr_evictExpired t m now :
  repr t m ->
  repr (evictExpired t now) (filter (fun ks => time_sub now (at_ ks.2) < ttl t)%Z m).
Proof.
  intros Hr. unfold evictExpired.
  destruct (fold_remove_if (fun ks => (ttl t <=? time_sub now (at_ ks.2))%Z) (tracked_in_order t) t m Hr)
    as (m' & Hr' & Hm').
  replace (filter _ m) with m'; [done|]. apply map_eq. intros k. rewrite Hm', map_lookup_filter.
  destruct (existsb _ _) eqn:He.
  - apply existsb_elem in He as ([k' s] & Hin & Hf). to_prop. simpl in *. subst k'.
    apply (elem_of_tracked _ _ _ _ Hr) in Hin. rewrite Hin. simpl. by rewrite option_guard_False by lia.
  - destruct (m !! k) as [s|] eqn:Hk; simpl; [|done]. rewrite existsb_none in He.
    specialize (He (k, s) (proj2 (elem_of_tracked _ _ _ _ Hr) Hk)). simpl in He.
    rewrite bool_decide_eq_true_2 in He by done. simpl in He. to_prop.
    by rewrite option_guard_True.
Qed.

Lemma matches_check k clearKey event :
  matchesUnhealthyCounterpart k clearKey event = true -> check k = check clearKey.
Proof.
  unfold matchesUnhealthyCounterpart, check. intros H.
  destruct (isHealthy k || _ || _ || _) eqn:Hc; [done|]. to_prop. congruence.
Qed.

Lemma repr_clear t m event :
  repr t m -> IsHealthy event = true ->
  repr (clearUnhealthyCounterpart t event).1
    (filter (fun ks => matchesUnhealthyCounterpart ks.1 (keyWithHealthState event false) event = false) m).
Proof.
  intros Hr Hh. unfold clearUnhealthyCounterpart. rewrite Hh. simpl.
  set (clearKey := keyWithHealthState event false).
  set (f := fun ks : eventKey * seenEvent => matchesUnhealthyCounterpart ks.1 clearKey event).
  set (l := range _).
  assert (Hfst : forall l t c, (fold_left (fun '(t', cleared) ks =>
      if f ks then (remove t' ks.1, true) else (t', cleared)) l (t, c)).1 =
      fold_left (fun t' ks => if f ks then remove t' ks.1 else t') l t).
  { clear. intros l. induction l as [|x l IH]; intros t c; simpl; [done|]. destruct (f x); apply IH. }
  unfold f in Hfst. rewrite Hfst. destruct (fold_remove_if f l t m Hr) as (m' & Hr' & Hm').
  replace (filter _ m) with m'; [done|]. apply map_eq. intros k. rewrite Hm', map_lookup_filter.
  assert (Hin : forall k s, (k, s) ∈ l -> m !! k = Some s).
  { intros k' s Hk%elem_of_range. rewrite <- (repr_lookup _ _ Hr). unfold lookup_.
    destruct (seen t !! check clearKey) as [b|] eqn:Hb; simpl in Hk; [|by rewrite lookup_empty in Hk].
    destruct (repr_bucket _ _ Hr _ _ Hb) as [_ Hck]. by rewrite (Hck _ _ Hk), Hb. }
  destruct (existsb _ _) eqn:He.
  - apply existsb_elem in He as ([k' s] & Hk & Hf). to_prop. simpl in *. subst k'.
    rewrite (Hin _ _ Hk). simpl. rewrite option_guard_False; [done|]. unfold f in *. simpl in *. congruence.
  - destruct (m !! k) as [s|] eqn:Hk; simpl; [|done].
    destruct (f (k, s)) eqn:Hf; [|by rewrite option_guard_True].
    rewrite existsb_none in He. assert (Hkl : (k, s) ∈ l).
    { unfold l. apply elem_of_range. rewrite <- (repr_lookup _ _ Hr) in Hk. unfold lookup_ in Hk.
      by rewrite <- (matches_check _ _ _ Hf). }
    specialize (He _ Hkl). simpl in He. rewrite Hf, bool_decide_eq_true_2 in He by done. done.
Qed.

Lemma evictOneOther_spec t m keep :
  repr t m -> 1 < size m ->
  exists other, other <> keep /\ is_Some (m !! other) /\ evictOneOther t keep = remove t other.
Proof.
  intros Hr Hsz. unfold evictOneOther.
  destruct (find _ _) as [[o s]|] eqn:Hf.
  - apply find_some in Hf as [Hin Hne]. to_prop. exists o. split; [done|]. split; [|done].
    apply list_elem_of_In, (elem_of_tracked _ _ _ _ Hr) in Hin. eauto.
  - exfalso. assert (Hdom : dom m ⊆ {[keep]}).
    { intros k [s Hk]%elem_of_dom. apply elem_of_singleton.
      apply (elem_of_tracked _ _ _ _ Hr), list_elem_of_In in Hk.
      pose proof (find_none _ _ Hf _ Hk) as Hn. simpl in Hn. by to_prop. }
    apply subseteq_size in Hdom. rewrite size_dom, size_singleton in Hdom. lia.
Qed.

(** The tracker holds at most [maxEntries] keys. *)
Definition within_capacity (t : tracker) (m : gmap eventKey seenEvent) : Prop :=
  repr t m /\ (Z.of_nat (size m) <= maxEntries t)%Z /\ (0 < maxEntries t)%Z.

Definition event_key (e : HealthEvent) : eventKey := keyWithHealthState e (IsHealthy e).
Definition idem_of (e : HealthEvent) : string :=
  default ""%string (Metadata e !! HealthEventIdempotencyKeyMetadataField).

(** A tracked key inside the window is not touched; otherwise the event is
    remembered, and at most one other key is forgotten, only to stay within
    the capacity. *)
Lemma checkAndMark_refines t m now e :
  within_capacity t m ->
  match m !! event_key e with
  | Some s =>
      if (time_sub now (at_ s) <? ttl t)%Z
      then checkAndMark t now e = (t, (idem_of e ==s "") || (idem_of e <>s idempotencyKey s))
      else True
  | None => True
  end /\
  (match m !! event_key e with Some s => (ttl t <= time_sub now (at_ s))%Z | None => True end ->
   (checkAndMark t now e).2 = false /\
   exists m', within_capacity (checkAndMark t now e).1 m' /\
     m' !! event_key e = Some {| at_ := now; idempotencyKey := idem_of e |} /\
     (m' = <[event_key e := {| at_ := now; idempotencyKey := idem_of e |}]> m \/
      exists o, o <> event_key e /\
        m' = delete o (<[event_key e := {| at_ := now; idempotencyKey := idem_of e |}]> m) /\
        (size m = Z.to_nat (maxEntries t)))).
Proof.
  intros (Hr & Hcap & Hpos). unfold checkAndMark. fold (event_key e). fold (idem_of e).
  rewrite (repr_lookup _ _ Hr). set (s' := {| at_ := now; idempotencyKey := idem_of e |}).
  split.
  { destruct (m !! event_key e) as [s|]; [|done]. by destruct (time_sub now (at_ s) <? ttl t)%Z. }
  intros Hexp.
  assert (Hins : exists m', within_capacity
      (if (maxEntries (add t (event_key e) s') <? count (add t (event_key e) s'))%Z
       then evictOneOther (add t (event_key e) s') (event_key e) else add t (event_key e) s') m' /\
     m' !! event_key e = Some s' /\
     (m' = <[event_key e := s']> m \/
      exists o, o <> event_key e /\ m' = delete o (<[event_key e := s']> m) /\
        (size m = Z.to_nat (maxEntries t)))).
  { pose proof (repr_add t m (event_key e) s' Hr) as Ha.
    assert (Hsz : size (<[event_key e := s']> m) <= S (size m)).
    { rewrite map_size_insert. case_match; simpl; lia. }
    destruct (Z.ltb_spec (maxEntries (add t (event_key e) s')) (count (add t (event_key e) s'))) as [Hlt|Hge].
    - rewrite (repr_count _ _ Ha) in Hlt. simpl in Hlt.
      destruct (evictOneOther_spec _ _ (event_key e) Ha) as (o & Hne & Ho & ->); [lia|].
      exists (delete o (<[event_key e := s']> m)). split; [|split].
      + split; [by apply repr_remove|]. rewrite (proj2 (ttl_remove _ _)). simpl.
        rewrite map_size_delete. destruct Ho as [so ->]. simpl. lia.
      + by rewrite lookup_delete_ne, lookup_insert_eq.
      + right. exists o. split; [done|]. split; [done|]. lia.
    - rewrite (repr_count _ _ Ha) in Hge. exists (<[event_key e := s']> m).
      split; [split; [done|simpl in *; lia]|]. split; [apply lookup_insert_eq|by left]. }
  destruct (m !! event_key e) as [s|]; [|by split].
  destruct (Z.ltb_spec (time_sub now (at_ s)) (ttl t)); [lia|]. by split.
Qed.

(** The entries after [checkAndMark]: old ones, and the event unless it was
    reported as a repeat. *)
Lemma mark_entries t m now e :
  within_capacity t m ->
  exists m', within_capacity (checkAndMark t now e).1 m' /\
    forall k s, m' !! k = Some s -> m !! k = Some s \/
      k = event_key e /\ s = {| at_ := now; idempotencyKey := idem_of e |} /\
      (checkAndMark t now e).2 = false.
Proof.
  intros Hcap. destruct (checkAndMark_refines _ _ now e Hcap) as [Hin Hout].
  assert (Hcase : fst (checkAndMark t now e) = t \/
    match m !! event_key e with Some s => (ttl t <= time_sub now (at_ s))%Z | None => True end).
  { destruct (m !! event_key e) as [s|]; [|auto].
    destruct (Z.ltb_spec (time_sub now (at_ s)) (ttl t)); [left; by rewrite Hin|by right]. }
  destruct Hcase as [->|Hexp]; [by exists m; auto|].
  destruct (Hout Hexp) as (Hf & m' & Hcap' & _ & Hm'). exists m'. split; [done|]. intros k s' Hs'.
  assert (Hs2 : <[event_key e := {| at_ := now; idempotencyKey := idem_of e |}]> m !! k = Some s').
  { destruct Hm' as [->|(o & _ & -> & _)]; [done|]. by apply lookup_delete_Some in Hs' as [_ ?]. }
  apply lookup_insert_Some in Hs2 as [[<- <-]|[_ Hs2]]; auto.
Qed.

(** ** Traces of the transformer

    What a running deduplicator sees: events at clock values, and ticks of the
    cleanup timer. *)

Inductive input :=
| Receive (now : Z) (event : HealthEvent)
| Cleanup (now : Z).

Definition dstep (d : Deduplicator) (i : input) : Deduplicator :=
  match i with
  | Receive now event => (Transform d now event).1
  | Cleanup now => {| dtracker := evictExpired (dtracker d) now; include := include d |}
  end.

Definition run (d : Deduplicator) (l : list input) : Deduplicator := fold_left dstep l d.

(** The checks the transformer looks at. *)
Definition in_scope (inc : gset string) (e : HealthEvent) : bool :=
  negb (bool_decide (Strategy e = STORE_ONLY)) &&
  negb ((0 <? size inc)%nat && negb (bool_decide (CheckName e ∈ inc))).

(** The input is a recovery that clears the key. *)
Definition clears (inc : gset string) (i : input) (k : eventKey) : bool :=
  match i with
  | Receive _ h =>
      in_scope inc h && IsHealthy h &&
      matchesUnhealthyCounterpart k (keyWithHealthState h false) h
  | Cleanup _ => false
  end.

Lemma Transform_cases d now e :
  Transform d now e =
  if negb (in_scope (include d) e) then (d, e)
  else if IsHealthy e then
    ({| dtracker := (clearUnhealthyCounterpart (dtracker d) e).1; include := include d |}, e)
  else ({| dtracker := (checkAndMark (dtracker d) now e).1; include := include d |},
        if (checkAndMark (dtracker d) now e).2 then with_strategy e STORE_AND_ANALYSE else e).
Proof.
  unfold Transform, in_scope. case_bool_decide; simpl; [done|].
  destruct (_ && _); simpl; [done|]. destruct (IsHealthy e); [done|].
  by destruct (checkAndMark _ _ _).
Qed.

Lemma ttl_evict t k : ttl (evictOneOther t k) = ttl t /\ maxEntries (evictOneOther t k) = maxEntries t.
Proof. unfold evictOneOther. case_match; [|done]. case_match. apply ttl_remove. Qed.

Lemma ttl_mark t now e :
  ttl (checkAndMark t now e).1 = ttl t /\ maxEntries (checkAndMark t now e).1 = maxEntries t.
Proof.
  unfold checkAndMark. repeat case_match; simpl; try done;
    match goal with |- context [evictOneOther ?a ?b] => exact (ttl_evict a b) end.
Qed.

Lemma ttl_fold_remove {A} (f : A -> bool) (g : A -> eventKey) l t :
  ttl (fold_left (fun t' x => if f x then remove t' (g x) else t') l t) = ttl t /\
  maxEntries (fold_left (fun t' x => if f x then remove t' (g x) else t') l t) = maxEntries t.
Proof.
  revert t. induction l as [|x l IH]; intros t; simpl; [done|].
  destruct (f x); [|apply IH]. destruct (IH (remove t (g x))) as [-> ->]. apply ttl_remove.
Qed.

Lemma ttl_clear t e :
  ttl (clearUnhealthyCounterpart t e).1 = ttl t /\
  maxEntries (clearUnhealthyCounterpart t e).1 = maxEntries t.
Proof.
  unfold clearUnhealthyCounterpart. destruct (IsHealthy e); simpl; [|done].
  generalize (keyWithHealthState e false) as ck. intros ck.
  generalize (range (default ∅ (seen t !! check ck))) as l. intros l. generalize false. revert t. induction l as [|x l IH]; intros t b; simpl; [done|].
  destruct (matchesUnhealthyCounterpart _ _ _); [|apply IH].
  destruct (IH (remove t x.1) true) as [-> ->]. apply ttl_remove.
Qed.

Lemma dstep_static d i :
  include (dstep d i) = include d /\ ttl (dtracker (dstep d i)) = ttl (dtracker d) /\
  maxEntries (dtracker (dstep d i)) = maxEntries (dtracker d).
Proof.
  destruct i as [now e|now]; simpl.
  - rewrite Transform_cases. destruct (in_scope _ e); simpl; [|done].
    destruct (IsHealthy e); simpl; split; auto using ttl_clear, ttl_mark.
  - split; [done|]. unfold evictExpired. apply ttl_fold_remove.
Qed.

(** Where an entry comes from: an event of the trace that was let through, with
    no recovery clearing the key since. *)
Definition origin (d0 : Deduplicator) (l : list input) (k : eventKey) (s : seenEvent) : Prop :=
  exists l1 e l2, l = l1 ++ Receive (at_ s) e :: l2 /\
    event_key e = k /\ IsHealthy e = false /\ idem_of e = idempotencyKey s /\
    (Transform (run d0 l1) (at_ s) e).2 = e /\
    forall i, i ∈ l2 -> clears (include d0) i k = false.

Lemma origin_snoc d0 l i k s :
  origin d0 l k s -> clears (include d0) i k = false -> origin d0 (l ++ [i]) k s.
Proof.
  intros (l1 & e & l2 & -> & H1 & H2 & H3 & H4 & H5) Hi. exists l1, e, (l2 ++ [i]).
  split; [by rewrite <- app_assoc|]. split; [done|]. split; [done|]. split; [done|]. split; [done|].
  intros j [Hj| ->%list_elem_of_singleton]%elem_of_app; auto.
Qed.

Definition traced (d0 : Deduplicator) (l : list input) (m : gmap eventKey seenEvent) : Prop :=
  within_capacity (dtracker (run d0 l)) m /\ forall k s, m !! k = Some s -> origin d0 l k s.

Lemma run_snoc d l i : run d (l ++ [i]) = dstep (run d l) i.
Proof. unfold run. by rewrite fold_left_app. Qed.

Lemma run_static d l :
  include (run d l) = include d /\ ttl (dtracker (run d l)) = ttl (dtracker d) /\
  maxEntries (dtracker (run d l)) = maxEntries (dtracker d).
Proof.
  induction l as [|i l IH] using rev_ind; [done|]. rewrite run_snoc.
  destruct IH as (<- & <- & <-). apply dstep_static.
Qed.

Lemma filter_within_capacity t t' (m : gmap eventKey seenEvent) (P : eventKey * seenEvent -> Prop)
    `{!forall x, Decision (P x)} :
  within_capacity t m -> repr t' (filter P m) -> maxEntries t' = maxEntries t ->
  within_capacity t' (filter P m).
Proof.
  intros (Hr & Hcap & Hpos) Hr' Hmax. split; [done|]. rewrite Hmax. split; [|done].
  pose proof (map_subseteq_size (filter P m) m (map_filter_subseteq P m)). lia.
Qed.

(** Every state of a trace is traced. *)
Lemma trace_invariant d0 l :
  repr (dtracker d0) ∅ -> (0 < maxEntries (dtracker d0))%Z -> exists m, traced d0 l m.
Proof.
  intros Hr Hpos. induction l as [|i l IH] using rev_ind.
  { exists ∅. split; [split; [done|rewrite map_size_empty; simpl; lia]|].
    intros k s. by rewrite lookup_empty. }
  destruct IH as (m & Hcap & Horig). unfold traced. rewrite run_snoc.
  destruct (run_static d0 l) as (Hinc & _ & _).
  set (d := run d0 l) in *. destruct i as [now e|now]; simpl.
  - rewrite Transform_cases, Hinc. destruct (in_scope (include d0) e) eqn:Hsc; simpl.
    2:{ exists m. split; [done|]. intros k s Hk. apply origin_snoc; [auto|]. simpl. by rewrite Hsc. }
    destruct (IsHealthy e) eqn:Hh; simpl.
    + eexists. split; [eapply filter_within_capacity; [exact Hcap| |apply ttl_clear]|].
      * apply repr_clear; [apply Hcap|done].
      * intros k s [Hk Hm]%map_lookup_filter_Some. apply origin_snoc; [auto|]. simpl in *.
        by rewrite Hm, andb_false_r.
    + destruct (mark_entries _ _ now e Hcap) as (m' & Hcap' & Hm'). exists m'. split; [done|].
      intros k s [Hk|(-> & -> & Hf)]%Hm'.
      * apply origin_snoc; [auto|]. simpl. by rewrite Hh, andb_false_r.
      * exists l, e, []. split; [done|]. split; [done|]. split; [done|]. split; [done|].
        split; [|set_solver]. simpl. rewrite Transform_cases.
        change (run d0 l) with d. by rewrite Hinc, Hsc, Hh, Hf.
  - eexists. split; [eapply filter_within_capacity; [exact Hcap| |apply ttl_fold_remove]|].
    + apply repr_evictExpired. apply Hcap.
    + intros k s [Hk _]%map_lookup_filter_Some. apply origin_snoc; auto.
Qed.

(** ** Properties *)

(** A deduplicator as the factory builds it. *)
Lemma newFromConfig_ok path file d :
  newFromConfig path file = Ok d ->
  repr (dtracker d) ∅ /\ (0 < maxEntries (dtracker d))%Z /\ (0 < ttl (dtracker d))%Z.
Proof.
  unfold newFromConfig. destruct (LoadConfig path file) as [cfg|]; [|done].
  destruct (Validate cfg) eqn:Hv; [done|]. intros [= <-]. simpl. split; [apply repr_new|].
  unfold Validate in Hv. repeat case_match; try done. to_prop. lia.
Qed.

(** C34 (tracker).  The buckets, the removal of empty buckets and the separate
    count implement one flat map from event keys to sightings: adding is
    insertion, removing is deletion, the timer keeps the entries inside the
    window, a recovery keeps the entries it does not match, and the count stays
    the number of entries. *)
Theorem tracker_refines_map (t : tracker) (m : gmap eventKey seenEvent) :
  repr t m ->
  (forall k s, repr (add t k s) (<[k := s]> m)) /\
  (forall k, repr (remove t k) (delete k m)) /\
  (forall now, repr (evictExpired t now) (filter (fun ks => time_sub now (at_ ks.2) < ttl t)%Z m)) /\
  (forall e, IsHealthy e = true ->
     repr (clearUnhealthyCounterpart t e).1
       (filter (fun ks => matchesUnhealthyCounterpart ks.1 (keyWithHealthState e false) e = false) m)).
Proof. auto using repr_add, repr_remove, repr_evictExpired, repr_clear. Qed.

(** Two events get the same key iff they agree on node, check and
    strategy and list the same entities and the same codes up to order: the
    length-prefixed encodings never collide. *)
Theorem dedup_key_same_event (e1 e2 : HealthEvent) (b : bool) :
  keyWithHealthState e1 b = keyWithHealthState e2 b <-> same_event e1 e2.
Proof. apply key_same_event. Qed.

(** In every state a configured deduplicator can reach, the
    number of remembered keys is the count and never exceeds the configured
    maximum. *)
Theorem dedup_bounded (path : string) (file : option (result Config)) (d : Deduplicator) (l : list input) :
  newFromConfig path file = Ok d ->
  (0 <= count (dtracker (run d l)) <= maxEntries (dtracker d))%Z /\
  exists m, repr (dtracker (run d l)) m /\ count (dtracker (run d l)) = Z.of_nat (size m).
Proof.
  intros (Hr & Hpos & _)%newFromConfig_ok. destruct (trace_invariant d l Hr Hpos) as (m & (Hm & Hcap & _) & _).
  destruct (run_static d l) as (_ & _ & Hmax). rewrite Hmax in Hcap.
  split; [|by exists m; split; [|apply repr_count]]. rewrite (repr_count _ _ Hm). lia.
Qed.

(** C22 (safety).  In every trace of a configured deduplicator, an event is
    demoted only when an unhealthy event of the same key was let through less
    than a suppression window earlier, was not cleared by a recovery since, and
    is not the same submission (equal non-empty idempotency keys). *)
Theorem dedup_demotes_only_repeats (path : string) (file : option (result Config)) (d : Deduplicator)
    (l : list input) (now : Z) (e : HealthEvent) :
  newFromConfig path file = Ok d ->
  (Transform (run d l) now e).2 <> e ->
  IsHealthy e = false /\ (Transform (run d l) now e).2 = with_strategy e STORE_AND_ANALYSE /\
  exists l1 now0 e0 l2, l = l1 ++ Receive now0 e0 :: l2 /\
    same_event e0 e /\ IsHealthy e0 = false /\ (Transform (run d l1) now0 e0).2 = e0 /\
    (time_sub now now0 < ttl (dtracker d))%Z /\
    (idem_of e = ""%string \/ idem_of e <> idem_of e0) /\
    forall i, i ∈ l2 -> clears (include d) i (event_key e) = false.
Proof.
  intros (Hr & Hpos & _)%newFromConfig_ok. destruct (trace_invariant d l Hr Hpos) as (m & Hcap & Horig).
  destruct (run_static d l) as (Hinc & Httl & _). rewrite Transform_cases, Hinc.
  destruct (in_scope (include d) e); [|done]. simpl. destruct (IsHealthy e) eqn:Hh; [done|]. simpl.
  destruct (checkAndMark_refines _ _ now e Hcap) as [Hin Hout].
  destruct (checkAndMark _ now e).2 eqn:Hdup; [|done]. intros _. split; [done|]. split; [done|].
  destruct (m !! event_key e) as [s|] eqn:Hk; [|by destruct (Hout I)].
  destruct (Z.ltb_spec (time_sub now (at_ s)) (ttl (dtracker (run d l)))) as [Hlt|Hge];
    [|by destruct (Hout Hge)].
  destruct (Horig _ _ Hk) as (l1 & e0 & l2 & -> & Hkey & Hh0 & Hid & Ht & Hcl).
  exists l1, (at_ s), e0, l2. split; [done|]. split.
  { unfold event_key in Hkey. rewrite Hh, Hh0 in Hkey. by apply key_same_event in Hkey. }
  split; [done|]. split; [done|]. split; [by rewrite <- Httl|]. split; [|done].
  rewrite Hin in Hdup. simpl in Hdup. apply orb_true_iff in Hdup as [Hd|Hd]; to_prop; [by left|right].
  congruence.
Qed.

(** After a configured deduplicator has seen a healthy event for
    the node, check and strategy of [e], with the entities of [e] or none and
    the codes of [e] or none, the next occurrence of [e] is let through,
    whatever was remembered before. *)
Theorem dedup_recovery_reopens (path : string) (file : option (result Config)) (d : Deduplicator)
    (l : list input) (t1 t2 : Z) (h e : HealthEvent) :
  newFromConfig path file = Ok d ->
  in_scope (include d) h = true -> IsHealthy h = true -> IsHealthy e = false ->
  NodeName h = NodeName e -> CheckName h = CheckName e -> Strategy h = Strategy e ->
  (EntitiesImpacted h = [] \/ EntitiesImpacted h ≡ₚ EntitiesImpacted e) ->
  (ErrorCode h = [] \/ ErrorCode h ≡ₚ ErrorCode e) ->
  (Transform (run d (l ++ [Receive t1 h])) t2 e).2 = e.
Proof.
  intros (Hr & Hpos & _)%newFromConfig_ok Hsc Hh He Hn Hc Hs Hen Hco.
  destruct (trace_invariant d l Hr Hpos) as (m & Hcap & _).
  destruct (run_static d l) as (Hinc & _). rewrite run_snoc. simpl.
  rewrite (Transform_cases (run d l)), Hinc, Hsc, Hh. simpl.
  rewrite Transform_cases. simpl. destruct (in_scope (include d) e); [|done]. simpl. rewrite He. simpl.
  set (t := (clearUnhealthyCounterpart _ h).1).
  assert (Hmatch : matchesUnhealthyCounterpart (event_key e) (keyWithHealthState h false) h = true).
  { unfold matchesUnhealthyCounterpart, event_key. rewrite He. simpl. rewrite Hn, Hc, Hs, !go_eqb_refl. simpl.
    replace ((0 <? length (EntitiesImpacted h))%nat && _) with false.
    2:{ destruct Hen as [->|Hen]; [done|]. unfold canonicalEntities.
        rewrite (proj2 (merge_sort_canonical entity_le _ _) Hen), go_eqb_refl. by rewrite andb_false_r. }
    destruct Hco as [->|Hco]; [done|].
    by rewrite (proj2 (merge_sort_canonical String.le _ _) Hco), go_eqb_refl, andb_false_r. }
  assert (Hcap' : within_capacity t (filter (fun ks =>
    matchesUnhealthyCounterpart ks.1 (keyWithHealthState h false) h = false) m)).
  { eapply filter_within_capacity; [exact Hcap| |apply ttl_clear]. apply repr_clear; [apply Hcap|done]. }
  destruct (checkAndMark_refines _ _ t2 e Hcap') as [_ Hout].
  rewrite map_lookup_filter in Hout. destruct (m !! event_key e); simpl in Hout.
  - rewrite option_guard_False in Hout by congruence. by destruct (Hout I) as [-> _].
  - by destruct (Hout I) as [-> _].
Qed.

End theory.

(** ** A concrete trace *)

Module DedupDemo.

#[local] Existing Instance list_range.
#[local] Existing Instance list_range_laws.

Definition small : Config :=
  {| SuppressionWindow := 180 * Second; CleanupInterval := 60 * Second; IncludeChecks := [];
     MaxEntries := 2 |}.

Definition d0 : Deduplicator := NewDeduplicator (newTracker (180 * Second) 2) [].

Lemma d0_built : newFromConfig "/etc/dedup.toml" (Some (Ok small)) = Ok d0.
Proof. vm_compute. reflexivity. Qed.

Definition xid (node : string) (healthy : bool) (codes : list string) : HealthEvent :=
  {| Version := 1; Agent := "syslog"; ComponentClass := "GPU"; CheckName := "SysLogsXIDError";
     IsFatal := negb healthy; IsHealthy := healthy; Message := ""; Action := NONE; ErrorCode := codes;
     EntitiesImpacted := [{| EntityType := "GPU"; EntityValue := "0" |}]; Metadata := ∅;
     GeneratedSeconds := None; NodeName := node; QuarantineOverrides := None; DrainOverrides := None;
     Strategy := EXECUTE_REMEDIATION; Id := ""; CustomRecommendedAction := "" |}.

Definition trace : list input :=
  [Receive 0 (xid "a" false ["79"; "119"]); Receive Second (xid "b" false ["79"])].

Lemma demoted :
  (Transform (run d0 trace) (60 * Second) (xid "a" false ["119"; "79"])).2 <> xid "a" false ["119"; "79"].
Proof.
  intros H. apply (f_equal (fun e => Strategy_String (Strategy e))) in H. vm_compute in H. discriminate.
Qed.

(** At the same clock value a recovery lets the event through again. *)
Example reopened :
  Strategy (Transform (run d0 (trace ++ [Receive (2 * Second) (xid "a" true [])])) (60 * Second)
              (xid "a" false ["119"; "79"])).2 = EXECUTE_REMEDIATION.
Proof. vm_compute. reflexivity. Qed.

(** A third node pushes one of the two others out. *)
Example full : count (dtracker (run d0 (trace ++ [Receive Second (xid "c" false [])]))) = 2%Z.
Proof. vm_compute. reflexivity. Qed.

Lemma tracker_refines_map_witness :
  repr (remove (newTracker 1 2) (event_key (xid "a" false []))) (delete (event_key (xid "a" false [])) ∅).
Proof.
  exact (proj1 (proj2 (tracker_refines_map (newTracker 1 2) ∅ (repr_new 1 2)))
           (event_key (xid "a" false []))).
Defined.

Lemma dedup_bounded_witness : (0 <= count (dtracker (run d0 trace)) <= 2)%Z.
Proof. exact (proj1 (dedup_bounded "/etc/dedup.toml" (Some (Ok small)) d0 trace d0_built)). Defined.

Lemma dedup_demotes_only_repeats_witness :
  exists l1 now0 e0 l2, trace = l1 ++ Receive now0 e0 :: l2 /\
    same_event e0 (xid "a" false ["119"; "79"]) /\ IsHealthy e0 = false /\ (Transform (run d0 l1) now0 e0).2 = e0 /\
    (time_sub (60 * Second) now0 < ttl (dtracker d0))%Z /\
    (idem_of (xid "a" false ["119"; "79"]) = ""%string \/
     idem_of (xid "a" false ["119"; "79"]) <> idem_of e0) /\
    forall i, i ∈ l2 -> clears (include d0) i (event_key (xid "a" false ["119"; "79"])) = false.
Proof.
  exact (proj2 (proj2 (dedup_demotes_only_repeats "/etc/dedup.toml" (Some (Ok small)) d0 trace
    (60 * Second) (xid "a" false ["119"; "79"]) d0_built demoted))).
Defined.

Lemma dedup_recovery_reopens_witness :
  (Transform (run d0 (trace ++ [Receive (2 * Second) (xid "a" true [])])) (60 * Second)
     (xid "a" false ["119"; "79"])).2 = xid "a" false ["119"; "79"].
Proof.
  exact (dedup_recovery_reopens "/etc/dedup.toml" (Some (Ok small)) d0 trace (2 * Second) (60 * Second)
    (xid "a" true []) (xid "a" false ["119"; "79"]) d0_built
    ltac:(vm_compute; reflexivity) eq_refl eq_refl eq_refl eq_refl eq_refl
    ltac:(right; reflexivity) ltac:(left; reflexivity)).
Defined.

End DedupDemo.
