(* ===== verification/DrainInformers.v ===== *)
(** * The pod cache of the node drainer

    Models [node-drainer/pkg/informers]: which pods of a node still have to be
    evicted, the checks the evaluator asks for, forced deletion, and the
    transform that shrinks objects before they enter the cache.

    Every look at the cache reads the next snapshot of a stream ([reads] counts
    them): the cache is filled by a watch and may change between two looks.
    Parameters stand for what is not repository code: the API server's answers
    for resource claims and deletions, the JSON decoder of the device
    annotation, the compiled regular expression of the system namespaces and
    [filepath.Match].  [ByIndex] fails only for an unknown index name, which the
    code never passes.  Of error messages the leading text is kept. *)

From stdpp Require Import gmap strings list fin_maps.
From Stdlib Require Import ZArith Lia Ascii.
From S2P Require Import Prelude GoFloat HealthEvent.

#[local] Open Scope nat_scope.

(** ** Objects *)

Record OwnerReference := { Kind : string; Controller : option bool }.
Record Container := { Limits : gmap string Z }.
Record PodResourceClaim := { claim_Name : string; ResourceClaimName : option string }.
Record PodCondition := { cond_Type : string; cond_Status : string; LastTransitionTime : Z }.

Record Pod := {
  pod_Name : string;
  pod_Namespace : string;
  pod_UID : string;
  pod_ResourceVersion : string;
  pod_Labels : gmap string string;
  pod_Annotations : gmap string string;
  OwnerReferences : list OwnerReference;
  DeletionTimestamp : option Z;
  SpecNodeName : string;
  TerminationGracePeriodSeconds : option Z;
  Containers : list Container;
  InitContainers : list Container;
  ResourceClaims : list PodResourceClaim;
  Phase : string;
  Conditions : list PodCondition;
  ResourceClaimStatuses : list PodResourceClaim;
}.

(** The device classes a claim asks for: [Exactly] and [FirstAvailable]. *)
Record DeviceRequest := { Exactly : option string; FirstAvailable : list string }.
Abbreviation ClaimSpec := (list DeviceRequest).
Abbreviation PodFilter := (option (Pod -> bool)).

Definition PodDeviceAnnotationName : string := "dgxc.nvidia.com/devices".
Definition GPUDRADriverName : string := "gpu.nvidia.com".

Definition EntityTypeToResourceNames (entityType : string) : option (list string) :=
  if entityType ==s "GPU_UUID"
  then Some ["nvidia.com/gpu"; "nvidia.com/pgpu"; GPUDRADriverName] else None.

(** ** Small tests on pods *)

Definition isDaemonSetOwned (owners : list OwnerReference) : bool :=
  existsb (fun owner => Kind owner ==s "DaemonSet") owners.

Definition matchesPodFilters (pod : Pod) (filters : list PodFilter) : bool :=
  forallb (fun filter => match filter with None => true | Some f => f pod end) filters.

Definition areContainersRequestingDevice (containers : list Container) (resourceNames : list string) : bool :=
  existsb (fun resourceName =>
    existsb (fun container =>
      match Limits container !! resourceName with Some qty => (0 <? qty)%Z | None => false end)
      containers) resourceNames.

Definition isClaimRequestingDeviceClass (spec : ClaimSpec) (deviceClassNames : list string) : bool :=
  existsb (fun request =>
    match Exactly request with
    | Some c => bool_decide (c ∈ deviceClassNames)
    | None => false
    end || existsb (fun c => bool_decide (c ∈ deviceClassNames)) (FirstAvailable request)) spec.

Definition isPodUsingPartialDrainEntity (devices : gmap string (list string)) (resourceNames : list string)
    (entity : Entity) : bool :=
  existsb (fun resourceName =>
    match devices !! resourceName with
    | Some ds => bool_decide (EntityValue entity ∈ ds)
    | None => false
    end) resourceNames.

(** A conversion to [int] and a product of durations, on 64 bits. *)
Definition isPodStuckInTerminating (now : Z) (pod : Pod) : bool :=
  match DeletionTimestamp pod with
  | None => false
  | Some deletion =>
      let gracePeriod := default 30%Z (TerminationGracePeriodSeconds pod) in
      (deletion + wrap_int64 (gracePeriod * Second) <? now)%Z
  end.

Definition isPodNotReady (notReadyTimeoutMinutes : option Z) (now : Z) (pod : Pod) : bool :=
  let notReadyTimeout :=
    match notReadyTimeoutMinutes with
    | None => (5 * Minute)%Z
    | Some m => wrap_int64 (m * Minute)
    end in
  existsb (fun c => (cond_Type c ==s "Ready") && (cond_Status c ==s "False")
                    && (LastTransitionTime c + notReadyTimeout <? now)%Z) (Conditions pod).

(** ** The cache *)

(** [NodeIndexFunc] and [NamespaceNodeIndexFunc]. *)
Definition NodeIndexFunc (pod : Pod) : list string :=
  if SpecNodeName pod ==s "" then [] else [SpecNodeName pod].

Definition NamespaceNodeIndexFunc (pod : Pod) : list string :=
  if SpecNodeName pod ==s "" then [] else [pod_Namespace pod +:+ "/" +:+ SpecNodeName pod].

(** What one look at the cache and at the clock sees. *)
Record Snapshot := { cached : list Pod; now : Z }.

(** What is asked of the API server for one pod: the object, the grace period,
    the UID and resource version it must still have, and whether the request
    is a dry run. *)
Record Preconditions := { pre_UID : option string; pre_ResourceVersion : option string }.

Record DeleteRequest := {
  del_Namespace : string;
  del_Name : string;
  GracePeriodSeconds : Z;
  DryRun : bool;
  del_Preconditions : Preconditions;
}.

Inductive DeleteOutcome := Deleted | DeleteNotFound | DeleteFailed (e : error).

(** The state an evaluation threads: looks taken, deletions requested. *)
Record World := { reads : nat; requests : list DeleteRequest }.

Record Informers := {
  notReadyTimeoutMinutes : option Z;
  drainGPUPods : bool;
  dryRun : bool;
}.

Section informers.
Context (snap : nat -> Snapshot)
        (get_claim : string -> string -> result ClaimSpec)
        (decode_devices : string -> result (gmap string (list string)))
        (delete_pod : DeleteRequest -> DeleteOutcome).
Context (i : Informers).

Definition getPodResourceClaimSpec (pod : Pod) (podClaim : PodResourceClaim) : result (option ClaimSpec) :=
  let get name :=
    match get_claim (pod_Namespace pod) name with
    | Ok spec => Ok (Some spec)
    | Err e => Err (wrapf ("failed to get ResourceClaim " +:+ name) e)
    end in
  match ResourceClaimName podClaim with
  | Some name => get name
  | None =>
      match find (fun status => claim_Name status ==s claim_Name podClaim) (ResourceClaimStatuses pod) with
      | None => Err ("no ResourceClaim is bound to claim " +:+ claim_Name podClaim)
      | Some status =>
          match ResourceClaimName status with
          | None => Ok None
          | Some name => get name
          end
      end
  end.

Definition isPodClaimingDeviceClass (pod : Pod) (deviceClassNames : list string) : result bool :=
  rexists (fun podClaim =>
    let? claimSpec :=
      rwrap ("failed to resolve claim " +:+ claim_Name podClaim) (getPodResourceClaimSpec pod podClaim) in
    Ok (match claimSpec with
        | Some spec => isClaimRequestingDeviceClass spec deviceClassNames
        | None => false
        end)) (ResourceClaims pod).

Definition isPodRequestingDevices (pod : Pod) (resourceNames : list string) : result bool :=
  if areContainersRequestingDevice (Containers pod) resourceNames
     || areContainersRequestingDevice (InitContainers pod) resourceNames then Ok true
  else isPodClaimingDeviceClass pod resourceNames.

Definition filterEvictablePods (time : Z) (pods : list Pod) (entity : option Entity) : list Pod :=
  List.filter (fun pod =>
    if isDaemonSetOwned (OwnerReferences pod) then false
    else if (Phase pod ==s "Succeeded") || (Phase pod ==s "Failed") then false
    else if (match entity with None => true | Some _ => false end)
            && (isPodStuckInTerminating time pod
                || isPodNotReady (notReadyTimeoutMinutes i) time pod) then false
    else true) pods.

Definition requestsGPU (pod : Pod) : result bool :=
  match pod_Annotations pod !! PodDeviceAnnotationName with
  | Some _ => Ok true
  | None =>
      rwrap ("failed to check GPU requests for pod " +:+ pod_Name pod)
        (isPodRequestingDevices pod (default [] (EntityTypeToResourceNames "GPU_UUID")))
  end.

Definition filterPodsWithGPURequests (pods : list Pod) : result (list Pod) := rfilter requestsGPU pods.

Definition usesEntity (resourceNames : list string) (entity : Entity) (pod : Pod) : result bool :=
  match pod_Annotations pod !! PodDeviceAnnotationName with
  | None =>
      let? requesting :=
        rwrap ("failed to check device requests for pod " +:+ pod_Name pod)
          (isPodRequestingDevices pod resourceNames) in
      if requesting
      then Err ("pod " +:+ pod_Name pod +:+ " is requesting devices but is missing device annotation")
      else Ok false
  | Some json =>
      let? devices :=
        rwrap ("error unmarshalling device annotation for pod " +:+ pod_Name pod) (decode_devices json) in
      Ok (isPodUsingPartialDrainEntity devices resourceNames entity)
  end.

Definition filterPodsUsingEntity (pods : list Pod) (entity : option Entity) : result (list Pod) :=
  match entity with
  | None => Ok pods
  | Some en =>
      match EntityTypeToResourceNames (EntityType en) with
      | None => Err ("unsupported impacted entity for partial drains: " +:+ EntityType en)
      | Some resourceNames => rfilter (usesEntity resourceNames en) pods
      end
  end.

(** The pods to evict, on one snapshot. *)
Definition evictable (s : Snapshot) (namespace nodeName : string) (entity : option Entity)
    (filters : list PodFilter) : result (list Pod) :=
  let compositeKey := namespace +:+ "/" +:+ nodeName in
  let objs := List.filter (fun pod => bool_decide (compositeKey ∈ NamespaceNodeIndexFunc pod)) (cached s) in
  let pods := List.filter (fun pod => matchesPodFilters pod filters) objs in
  let pods := filterEvictablePods (now s) pods entity in
  let? pods :=
    if drainGPUPods i && (match entity with None => true | Some _ => false end)
    then rwrap "failed to filter pods with GPU requests" (filterPodsWithGPURequests pods)
    else Ok pods in
  rwrap "failed to filter pods using entity" (filterPodsUsingEntity pods entity).

Definition look (w : World) : Snapshot * World :=
  (snap (reads w), {| reads := S (reads w); requests := requests w |}).

Definition FindEvictablePodsInNamespaceAndNode (w : World) (namespace nodeName : string)
    (entity : option Entity) (filters : list PodFilter) : result (list Pod) * World :=
  let '(s, w') := look w in (evictable s namespace nodeName entity filters, w').

(** ** Completion checks and forced deletion *)

Fixpoint checkIfPodsPresentInNamespaceAndNode (w : World) (namespaces : list string) (nodeName : string)
    (entity : option Entity) (filters : list PodFilter) : bool * list Pod * World :=
  match namespaces with
  | [] => (true, [], w)
  | namespace :: rest =>
      let '(r, w1) := FindEvictablePodsInNamespaceAndNode w namespace nodeName entity filters in
      let '(allEvicted, remaining, w2) :=
        checkIfPodsPresentInNamespaceAndNode w1 rest nodeName entity filters in
      match r with
      | Err _ => (false, remaining, w2)
      | Ok [] => (allEvicted, remaining, w2)
      | Ok pods => (false, pods ++ remaining, w2)
      end
  end.

Definition podDeletionPreconditions (pod : Pod) : Preconditions :=
  {| pre_UID := if pod_UID pod <>s "" then Some (pod_UID pod) else None;
     pre_ResourceVersion :=
       if pod_ResourceVersion pod <>s "" then Some (pod_ResourceVersion pod) else None |}.

Definition forceDeletion (pod : Pod) : DeleteRequest :=
  {| del_Namespace := pod_Namespace pod; del_Name := pod_Name pod; GracePeriodSeconds := 0;
     DryRun := dryRun i; del_Preconditions := podDeletionPreconditions pod |}.

(** One request per pod; the goroutines' requests are recorded in slice order,
    and the result depends only on whether one of them failed. *)
Definition forceDeletePods (w : World) (pods : list Pod) : option error * World :=
  let reqs := map forceDeletion pods in
  let failed := existsb (fun r => match delete_pod r with DeleteFailed _ => true | _ => false end) reqs in
  (if failed then Some "errors occurred"%string else None,
   {| reads := reads w; requests := requests w ++ reqs |}).

Definition pastDeadline (time timeout : Z) (pod : Pod) : bool :=
  match DeletionTimestamp pod with
  | None => false
  | Some deletion =>
      let gracePeriod :=
        match TerminationGracePeriodSeconds pod with
        | None => (30 * Second)%Z
        | Some s => wrap_int64 (s * Second)
        end in
      (deletion + gracePeriod + timeout <? time)%Z
  end.

Definition CheckIfObservedPodsAreEvictedInImmediateMode (w : World) (namespaces : list string)
    (nodeName : string) (timeout : Z) (entity : option Entity) (remainingPods : list Pod)
    (filters : list PodFilter) : bool * World :=
  match remainingPods with
  | [] => (true, w)
  | _ =>
      let '(s, w1) := look w in
      if existsb (pastDeadline (now s) timeout) remainingPods then
        match forceDeletePods w1 remainingPods with
        | (Some _, w2) => (false, w2)
        | (None, w2) =>
            let '(allEvicted, _, w3) :=
              checkIfPodsPresentInNamespaceAndNode w2 namespaces nodeName entity filters in
            (allEvicted, w3)
        end
      else (false, w1)
  end.

Definition CheckIfAllPodsAreEvictedInImmediateMode (w : World) (namespaces : list string)
    (nodeName : string) (timeout : Z) (entity : option Entity) (filters : list PodFilter) : bool * World :=
  let '(allEvicted, remainingPods, w1) :=
    checkIfPodsPresentInNamespaceAndNode w namespaces nodeName entity filters in
  if allEvicted then (true, w1)
  else match remainingPods with
       | [] => (false, w1)
       | _ => CheckIfObservedPodsAreEvictedInImmediateMode w1 namespaces nodeName timeout entity
                remainingPods filters
       end.

(** [time.Since(event.CreatedAt)] read at the next look. *)
Definition getNodeDrainTimeout (time timeout createdAt : Z) : Z :=
  wrap_int64 (wrap_int64 (timeout * Minute) - time_sub time createdAt).

Definition DeletePodsAfterTimeout (w : World) (nodeName : string) (namespaces : list string)
    (timeout createdAt : Z) (entity : option Entity) (filters : list PodFilter) : option error * World :=
  let '(s, w1) := look w in
  let drainTimeout := getNodeDrainTimeout (now s) timeout createdAt in
  let timeoutReached := (drainTimeout <=? 0)%Z in
  let '(evicted, remainingPods, w2) :=
    checkIfPodsPresentInNamespaceAndNode w1 namespaces nodeName entity filters in
  if evicted then (None, w2)
  else match remainingPods with
       | [] => (Some ("could not check every namespace on node " +:+ nodeName +:+ ", requeuing"), w2)
       | _ =>
           if timeoutReached then
             match forceDeletePods w2 remainingPods with
             | (Some e, w3) => (Some (wrapf ("failed to force delete pods on node " +:+ nodeName) e), w3)
             | (None, w3) => (Some "force deleted pods, requeuing to verify deletion"%string, w3)
             end
           else (Some "waiting for pods to complete or timeout"%string, w2)
       end.

(** [int64(timeout.Seconds())]. *)
Definition durationSeconds (d : Z) : Z :=
  f64_to_int (f64_add (f64_of_int (d `quot` Second))
                (f64_div (f64_of_int (d `rem` Second)) (f64_of_int Second))).

Definition evictionRequest (namespace : string) (timeout : Z) (pod : Pod) : DeleteRequest :=
  {| del_Namespace := namespace; del_Name := pod_Name pod;
     GracePeriodSeconds := durationSeconds timeout; DryRun := dryRun i;
     del_Preconditions := podDeletionPreconditions pod |}.

Context (evict_pod : DeleteRequest -> DeleteOutcome).

(** Eviction requests: one per pod; a pod already gone is not an error. *)
Definition evictPodsInNamespaceAndNode (namespace : string) (timeout : Z) (pods : list Pod) :
    option error * list DeleteRequest :=
  let reqs := map (evictionRequest namespace timeout) pods in
  (if existsb (fun q => match evict_pod q with DeleteFailed _ => true | _ => false end) reqs
   then Some "errors occurred"%string else None, reqs).

Definition EvictAllPodsInImmediateMode (w : World) (namespace nodeName : string) (timeout : Z)
    (entity : option Entity) (filters : list PodFilter) : option error * list DeleteRequest * World :=
  let '(r, w1) := FindEvictablePodsInNamespaceAndNode w namespace nodeName entity filters in
  match r with
  | Err e => (Some (wrapf ("failed to find evictable pods in namespace " +:+ namespace) e), [], w1)
  | Ok [] => (None, [], w1)
  | Ok pods =>
      match evictPodsInNamespaceAndNode namespace timeout pods with
      | (Some e, reqs) => (Some (wrapf ("failed to evict pods in namespace " +:+ namespace) e), reqs, w1)
      | (None, reqs) => (None, reqs, w1)
      end
  end.

(** ** Namespaces *)

Context (path_match : string -> string -> result bool) {MR : MapRange}.

Definition shouldIncludeNamespace (namespace includePattern : string) (excludeRegex : option (string -> bool)) :
    result bool :=
  if match excludeRegex with Some f => f namespace | None => false end then Ok false
  else rwrap "failed to match include pattern" (path_match includePattern namespace).

Fixpoint extractNamespacesFromPods (objs : list Pod) (includePattern : string)
    (excludeRegex : option (string -> bool)) : result (gmap string unit) :=
  match objs with
  | [] => Ok ∅
  | pod :: rest =>
      let? b := rwrap ("failed to check if namespace " +:+ pod_Namespace pod +:+ " should be included")
                  (shouldIncludeNamespace (pod_Namespace pod) includePattern excludeRegex) in
      let? set := extractNamespacesFromPods rest includePattern excludeRegex in
      Ok (if b then <[pod_Namespace pod := ()]> set else set)
  end.

(** [compile] is [regexp.Compile] on the pattern of the system namespaces. *)
Definition GetNamespacesMatchingPattern (compile : string -> result (string -> bool)) (w : World)
    (includePattern excludePattern nodeName : string) : result (list string) * World :=
  let '(s, w1) := look w in
  let objs := List.filter (fun pod => bool_decide (nodeName ∈ NodeIndexFunc pod)) (cached s) in
  (let? excludeRegex :=
     (if excludePattern ==s "" then Ok None
      else let? f := rwrap "failed to compile exclude pattern" (compile excludePattern) in Ok (Some f)) in
   let? set := rwrap "failed to extract namespaces from pods"
                 (extractNamespacesFromPods objs includePattern excludeRegex) in
   Ok (range set).*1, w1).


(** ** The objects that enter the cache *)

(** A fresh pod with the identity only. *)
Definition identityPod (pod : Pod) : Pod :=
  {| pod_Name := pod_Name pod; pod_Namespace := pod_Namespace pod; pod_UID := pod_UID pod;
     pod_ResourceVersion := pod_ResourceVersion pod; pod_Labels := ∅; pod_Annotations := ∅;
     OwnerReferences := []; DeletionTimestamp := None; SpecNodeName := "";
     TerminationGracePeriodSeconds := None; Containers := []; InitContainers := [];
     ResourceClaims := []; Phase := ""; Conditions := []; ResourceClaimStatuses := [] |}.

Definition trimContainers (containers : list Container) : list Container :=
  map (fun container => {| Limits := Limits container |}) containers.

Definition trimPodReadyConditions (conditions : list PodCondition) : list PodCondition :=
  List.filter (fun condition => cond_Type condition ==s "Ready") conditions.

Definition drainEligiblePodCacheObject (podLabelKeys : list string) (pod : Pod) : Pod :=
  {| pod_Name := pod_Name pod; pod_Namespace := pod_Namespace pod; pod_UID := pod_UID pod;
     pod_ResourceVersion := pod_ResourceVersion pod;
     pod_Labels := fold_left (fun labels key =>
       match pod_Labels pod !! key with Some value => <[key := value]> labels | None => labels end)
       podLabelKeys ∅;
     pod_Annotations :=
       match pod_Annotations pod !! PodDeviceAnnotationName with
       | Some devices => {[PodDeviceAnnotationName := devices]}
       | None => ∅
       end;
     OwnerReferences := map (fun owner => {| Kind := Kind owner; Controller := Controller owner |})
                          (OwnerReferences pod);
     DeletionTimestamp := DeletionTimestamp pod; SpecNodeName := SpecNodeName pod;
     TerminationGracePeriodSeconds := TerminationGracePeriodSeconds pod;
     Containers := trimContainers (Containers pod); InitContainers := trimContainers (InitContainers pod);
     ResourceClaims := ResourceClaims pod; Phase := Phase pod;
     Conditions := trimPodReadyConditions (Conditions pod);
     ResourceClaimStatuses := ResourceClaimStatuses pod |}.

Definition excludedPodTransform (systemNamespaces : option (string -> bool)) (podLabelKeys : list string)
    (pod : Pod) : Pod :=
  let isSystemNamespace := match systemNamespaces with Some f => f (pod_Namespace pod) | None => false end in
  if negb isSystemNamespace && negb (isDaemonSetOwned (OwnerReferences pod))
  then drainEligiblePodCacheObject podLabelKeys pod else identityPod pod.

End informers.

(** ** What the cache keeps is enough

    The drainer works on shrunk objects; the lemmas below show that every test
    it makes answers the same on the full pod. *)

Definition slash : Ascii.ascii := "/"%char.

Lemma index_separates (n1 n2 : string) r1 r2 :
  no_char slash n1 -> no_char slash n2 -> n1 +:+ "/" +:+ r1 = n2 +:+ "/" +:+ r2 -> n1 = n2 /\ r1 = r2.
Proof.
  intros H1 H2 He. pose proof (before_sep_app slash n1 r1 H1) as E1.
  pose proof (before_sep_app slash n2 r2 H2) as E2.
  change (String slash ?x) with ("/" +:+ x) in E1, E2. rewrite He, E2 in E1. by injection E1 as -> ->.
Qed.

Lemma filter_filter_andb {A} (f g : A -> bool) l :
  List.filter f (List.filter g l) = List.filter (fun x => g x && f x) l.
Proof.
  induction l as [|x l IH]; simpl; [done|]. destruct (g x); simpl; [|done].
  destruct (f x); by rewrite IH.
Qed.

Section cache.
Context (get_claim : string -> string -> result ClaimSpec)
        (decode_devices : string -> result (gmap string (list string)))
        (i : Informers) (podLabelKeys : list string).

Let trim := drainEligiblePodCacheObject podLabelKeys.

Lemma trim_annotation p :
  pod_Annotations (trim p) !! PodDeviceAnnotationName = pod_Annotations p !! PodDeviceAnnotationName.
Proof.
  simpl. destruct (pod_Annotations p !! PodDeviceAnnotationName) as [d|] eqn:E.
  - apply lookup_singleton_eq.
  - apply lookup_empty.
Qed.

Lemma trim_containers cs names :
  areContainersRequestingDevice (trimContainers cs) names = areContainersRequestingDevice cs names.
Proof.
  unfold areContainersRequestingDevice. induction names as [|n names IH]; simpl; [done|].
  rewrite IH. f_equal. clear IH. induction cs as [|c cs IHc]; simpl; [done|]. by rewrite IHc.
Qed.

Lemma trim_requesting p names :
  isPodRequestingDevices get_claim (trim p) names = isPodRequestingDevices get_claim p names.
Proof. unfold isPodRequestingDevices. simpl. by rewrite !trim_containers. Qed.

Lemma trim_requestsGPU p : requestsGPU get_claim (trim p) = requestsGPU get_claim p.
Proof.
  unfold requestsGPU. rewrite trim_annotation. case_match; [done|]. by rewrite trim_requesting.
Qed.

Lemma trim_usesEntity names en p :
  usesEntity get_claim decode_devices names en (trim p) = usesEntity get_claim decode_devices names en p.
Proof.
  unfold usesEntity. rewrite trim_annotation. case_match; [done|]. by rewrite trim_requesting.
Qed.

Lemma trim_daemonset p : isDaemonSetOwned (OwnerReferences (trim p)) = isDaemonSetOwned (OwnerReferences p).
Proof.
  simpl. unfold isDaemonSetOwned. induction (OwnerReferences p) as [|o os IH]; simpl; [done|]. by rewrite IH.
Qed.

Lemma trim_notReady m t p : isPodNotReady m t (trim p) = isPodNotReady m t p.
Proof.
  unfold isPodNotReady. simpl. unfold trimPodReadyConditions.
  induction (Conditions p) as [|c cs IH]; simpl; [done|].
  destruct (cond_Type c ==s "Ready") eqn:E; simpl; [|done]. by rewrite E, IH.
Qed.

(** All the infallible tests of a look, in one. *)
Definition candidate (time : Z) (namespace nodeName : string) (entity : option Entity)
    (filters : list PodFilter) (pod : Pod) : bool :=
  bool_decide (namespace +:+ "/" +:+ nodeName ∈ NamespaceNodeIndexFunc pod) &&
  matchesPodFilters pod filters &&
  (negb (isDaemonSetOwned (OwnerReferences pod)) &&
   negb ((Phase pod ==s "Succeeded") || (Phase pod ==s "Failed")) &&
   negb ((match entity with None => true | Some _ => false end)
         && (isPodStuckInTerminating time pod
             || isPodNotReady (notReadyTimeoutMinutes i) time pod))).

Definition fallible (entity : option Entity) (pods : list Pod) : result (list Pod) :=
  let? pods :=
    if drainGPUPods i && (match entity with None => true | Some _ => false end)
    then rwrap "failed to filter pods with GPU requests" (filterPodsWithGPURequests get_claim pods)
    else Ok pods in
  rwrap "failed to filter pods using entity" (filterPodsUsingEntity get_claim decode_devices pods entity).

Lemma evictable_stages s namespace nodeName entity filters :
  evictable get_claim decode_devices i s namespace nodeName entity filters =
  fallible entity (List.filter (candidate (now s) namespace nodeName entity filters) (cached s)).
Proof.
  unfold evictable, fallible, filterEvictablePods. rewrite !filter_filter_andb.
  erewrite (filter_ext _ (candidate (now s) namespace nodeName entity filters)); [done|].
  intros p. unfold candidate. rewrite <- andb_assoc. do 2 f_equal.
  destruct (isDaemonSetOwned _); simpl; [done|]. destruct (_ || _); simpl; [done|].
  by destruct (_ && _).
Qed.

Definition rmap_list {A B} (f : A -> B) (r : result (list A)) : result (list B) :=
  match r with Ok l => Ok (map f l) | Err e => Err e end.

Lemma fallible_trim entity pods : fallible entity (map trim pods) = rmap_list trim (fallible entity pods).
Proof.
  assert (Hent : forall l, filterPodsUsingEntity get_claim decode_devices (map trim l) entity =
                           rmap_list trim (filterPodsUsingEntity get_claim decode_devices l entity)).
  { intros l. unfold filterPodsUsingEntity. destruct entity as [en|]; [|done].
    destruct (EntityTypeToResourceNames (EntityType en)) as [names|]; [|done].
    apply rfilter_map. intros x _. by rewrite trim_usesEntity. }
  unfold fallible. destruct (drainGPUPods i && _).
  - unfold filterPodsWithGPURequests.
    rewrite (rfilter_map (requestsGPU get_claim) (requestsGPU get_claim) trim)
      by (intros x _; by rewrite trim_requestsGPU).
    destruct (rfilter _ pods); simpl; [|done]. rewrite Hent. by destruct (filterPodsUsingEntity _ _ _ _).
  - simpl. rewrite Hent. by destruct (filterPodsUsingEntity _ _ _ _).
Qed.

(** A drain filter looks at what the cache keeps. *)
Definition cache_filter (f : PodFilter) : Prop :=
  match f with None => True | Some g => forall p, g (trim p) = g p end.

Lemma trim_candidate t ns node entity filters p :
  Forall cache_filter filters ->
  candidate t ns node entity filters (trim p) = candidate t ns node entity filters p.
Proof.
  intros Hf. unfold candidate. rewrite trim_daemonset, trim_notReady.
  replace (matchesPodFilters (trim p) filters) with (matchesPodFilters p filters); [done|].
  unfold matchesPodFilters. induction Hf as [|f fs Hf Hfs IH]; simpl; [done|]. rewrite IH.
  destruct f as [g|]; [|done]. by rewrite Hf.
Qed.

Lemma filter_candidate_transform sys t ns node entity filters raw :
  Forall cache_filter filters ->
  match sys with Some f => f ns = false | None => True end ->
  no_char slash ns -> (forall p, p ∈ raw -> no_char slash (pod_Namespace p)) ->
  List.filter (candidate t ns node entity filters) (map (excludedPodTransform sys podLabelKeys) raw) =
  map trim (List.filter (candidate t ns node entity filters) raw).
Proof.
  intros Hf Hsys Hns Hraw. induction raw as [|p raw IH]; [done|]. cbn [map List.filter].
  rewrite IH by (intros q Hq; apply Hraw; by right). unfold excludedPodTransform.
  destruct (_ && negb (isDaemonSetOwned _)) eqn:Hkeep.
  - fold trim. rewrite (trim_candidate _ _ _ _ _ _ Hf). by destruct (candidate _ _ _ _ _ p).
  - assert (Hid : candidate t ns node entity filters (identityPod p) = false).
    { unfold candidate. rewrite bool_decide_eq_false_2; [done|]. apply not_elem_of_nil. }
    rewrite Hid. destruct (candidate t ns node entity filters p) eqn:Hc; [|done]. exfalso.
    unfold candidate in Hc. apply andb_true_iff in Hc as [[Hidx _]%andb_true_iff Hev].
    apply andb_true_iff in Hev as [[Hds _]%andb_true_iff _].
    apply bool_decide_eq_true in Hidx. unfold NamespaceNodeIndexFunc in Hidx.
    destruct (SpecNodeName p ==s ""); [by apply not_elem_of_nil in Hidx|].
    apply list_elem_of_singleton, index_separates in Hidx as [Hn _]; [|done|apply Hraw; by left].
    rewrite <- Hn, Hds, andb_true_r in Hkeep.
    destruct sys as [f|]; [|done]. by rewrite Hsys in Hkeep.
Qed.

(** C37 (cache).  For a namespace that is not a system namespace, the pods the
    drainer finds to evict in the shrunk cache are the shrunk versions of the
    pods it would find among the full objects, and it fails exactly when it
    would fail there: dropping DaemonSet and system pods to their identity, and
    all but some labels, the device annotation, the Ready conditions and the
    resource limits, loses nothing. *)
Theorem pod_cache_transparent (sys : option (string -> bool)) (raw : list Pod) (t : Z)
    (ns node : string) (entity : option Entity) (filters : list PodFilter) :
  Forall cache_filter filters ->
  match sys with Some f => f ns = false | None => True end ->
  no_char slash ns -> (forall p, p ∈ raw -> no_char slash (pod_Namespace p)) ->
  evictable get_claim decode_devices i
    {| cached := map (excludedPodTransform sys podLabelKeys) raw; now := t |} ns node entity filters =
  rmap_list trim
    (evictable get_claim decode_devices i {| cached := raw; now := t |} ns node entity filters).
Proof.
  intros. rewrite !evictable_stages. simpl. rewrite filter_candidate_transform by done.
  apply fallible_trim.
Qed.

End cache.

(** ** Completion is only reported for what was seen empty *)

Section completion.
Context (snap : nat -> Snapshot)
        (get_claim : string -> string -> result ClaimSpec)
        (decode_devices : string -> result (gmap string (list string)))
        (delete_pod : DeleteRequest -> DeleteOutcome)
        (i : Informers) (nodeName : string) (entity : option Entity) (filters : list PodFilter).

Abbreviation find_at n ns := (evictable get_claim decode_devices i (snap n) ns nodeName entity filters).
Abbreviation check_present :=
  (fun w namespaces => checkIfPodsPresentInNamespaceAndNode snap get_claim decode_devices i w namespaces
                         nodeName entity filters).

(** Between the states [w] and [w'], one look found nothing to evict in [ns]. *)
Definition observed_empty (w w' : World) (ns : string) : Prop :=
  exists n, reads w <= n < reads w' /\ find_at n ns = Ok [].

(** Between [w] and [w'], one look at one of the namespaces returned the pod. *)
Definition observed (w w' : World) (namespaces : list string) (pod : Pod) : Prop :=
  exists n ns l, reads w <= n < reads w' /\ ns ∈ namespaces /\ find_at n ns = Ok l /\ pod ∈ l.

Lemma observed_empty_weaken w1 w2 w1' w2' ns :
  observed_empty w1 w2 ns -> reads w1' <= reads w1 -> reads w2 <= reads w2' -> observed_empty w1' w2' ns.
Proof. intros (n & Hn & Hf) H1 H2. exists n. split; [lia|done]. Qed.

Lemma observed_weaken w1 w2 w1' w2' l l' pod :
  observed w1 w2 l pod -> reads w1' <= reads w1 -> reads w2 <= reads w2' -> l ⊆ l' -> observed w1' w2' l' pod.
Proof. intros (n & ns & r & Hn & Hns & Hf & Hp) H1 H2 Hl. exists n, ns, r. split; [lia|]. auto. Qed.

Lemma check_present_spec namespaces w :
  let '(allEvicted, remaining, w') := check_present w namespaces in
  reads w' = reads w + length namespaces /\ requests w' = requests w /\
  (allEvicted = true -> remaining = [] /\ forall ns, ns ∈ namespaces -> observed_empty w w' ns) /\
  (forall pod, pod ∈ remaining -> observed w w' namespaces pod).
Proof.
  revert w. induction namespaces as [|ns rest IH]; intros w; cbn [checkIfPodsPresentInNamespaceAndNode].
  { split; [simpl; lia|]. set_solver. }
  unfold FindEvictablePodsInNamespaceAndNode, look.
  set (w1 := {| reads := S (reads w); requests := requests w |}).
  specialize (IH w1). destruct (check_present w1 rest) as [[all rem] w2].
  destruct IH as (Hr & Hq & Hall & Hrem). simpl in Hr, Hq.
  assert (Hrem' : forall pod, pod ∈ rem -> observed w w2 (ns :: rest) pod).
  { intros pod Hp. eapply observed_weaken; [by apply Hrem|simpl; lia|lia|set_solver]. }
  destruct (find_at (reads w) ns) as [[|p ps]|e] eqn:Hf.
  - split; [simpl; lia|]. split; [done|]. split; [|done].
    intros Ha. destruct (Hall Ha) as [-> Hall']. split; [done|].
    intros ns' [->|Hin]%elem_of_cons; [exists (reads w); split; [lia|done]|].
    eapply observed_empty_weaken; [by apply Hall'|simpl; lia|lia].
  - split; [simpl; lia|]. split; [done|]. split; [done|].
    intros pod [Hp|Hp]%elem_of_app; [|by apply Hrem'].
    exists (reads w), ns, (p :: ps). split; [lia|]. set_solver.
  - split; [simpl; lia|]. split; [done|]. split; [done|]. done.
Qed.

(** Deletions that were requested between two states. *)
Definition requested (w w' : World) (reqs : list DeleteRequest) : Prop :=
  requests w' = requests w ++ reqs.

Lemma observed_check_spec w namespaces timeout remaining :
  remaining <> [] ->
  let '(b, w') := CheckIfObservedPodsAreEvictedInImmediateMode snap get_claim decode_devices delete_pod i
                    w namespaces nodeName timeout entity remaining filters in
  reads w < reads w' /\
  (b = true -> forall ns, ns ∈ namespaces -> observed_empty w w' ns) /\
  exists reqs, requested w w' reqs /\
    (reqs = [] \/ reqs = map (forceDeletion i) remaining /\
       exists pod, pod ∈ remaining /\ pastDeadline (now (snap (reads w))) timeout pod = true).
Proof.
  intros Hne. unfold CheckIfObservedPodsAreEvictedInImmediateMode, look.
  destruct remaining as [|p0 ps]; [done|]. set (remaining := p0 :: ps) in *.
  destruct (existsb (pastDeadline _ timeout) remaining) eqn:He.
  2:{ split; [simpl; lia|]. split; [done|]. exists []. split; [|by left]. unfold requested. by rewrite app_nil_r. }
  apply existsb_elem in He. unfold forceDeletePods. destruct (existsb _ (map _ remaining)).
  { split; [simpl; lia|]. split; [done|]. eexists. split; [reflexivity|]. right. eauto. }
  set (w2 := {| reads := _; requests := _ |}).
  pose proof (check_present_spec namespaces w2) as Hc.
  destruct (check_present w2 namespaces) as [[all rem] w3]. destruct Hc as (Hr & Hq & Hall & _).
  simpl in Hr. split; [lia|]. split.
  - intros Ha ns Hns. eapply observed_empty_weaken; [by apply Hall|simpl; lia|lia].
  - eexists. split; [unfold requested; by rewrite Hq|]. right. eauto.
Qed.

Lemma immediate_check w namespaces timeout :
  let '(b, w') := CheckIfAllPodsAreEvictedInImmediateMode snap get_claim decode_devices delete_pod i
                    w namespaces nodeName timeout entity filters in
  reads w <= reads w' /\
  (b = true -> forall ns, ns ∈ namespaces -> observed_empty w w' ns) /\
  exists reqs, requested w w' reqs /\
    (reqs = [] \/ exists pods pod n, reqs = map (forceDeletion i) pods /\
       (forall p, p ∈ pods -> observed w w' namespaces p) /\
       pod ∈ pods /\ reads w <= n < reads w' /\ pastDeadline (now (snap n)) timeout pod = true).
Proof.
  unfold CheckIfAllPodsAreEvictedInImmediateMode. pose proof (check_present_spec namespaces w) as Hc.
  destruct (check_present w namespaces) as [[all rem] w1]. destruct Hc as (Hr & Hq & Hall & Hrem).
  assert (Hnone : exists reqs, requested w w1 reqs /\ reqs = []).
  { exists []. split; [|done]. unfold requested. by rewrite app_nil_r. }
  destruct all.
  { split; [lia|]. split; [intros _; by apply Hall|]. destruct Hnone as (r & ? & ?). eauto. }
  destruct rem as [|p0 ps].
  { split; [lia|]. split; [done|]. destruct Hnone as (r & ? & ?). eauto. }
  pose proof (observed_check_spec w1 namespaces timeout (p0 :: ps) ltac:(done)) as Ho.
  destruct (CheckIfObservedPodsAreEvictedInImmediateMode _ _ _ _ _ _ _ _ _ _ _ _) as [b w2].
  destruct Ho as (Hr2 & Hall2 & reqs & Hreq & Hcase). split; [lia|]. split.
  - intros Hb ns Hns. eapply observed_empty_weaken; [by apply Hall2|lia|lia].
  - exists reqs. split; [unfold requested in *; by rewrite Hreq, Hq|].
    destruct Hcase as [->|(-> & pod & Hp & Hd)]; [by left|]. right.
    exists (p0 :: ps), pod, (reads w1). split; [done|]. split.
    + intros p Hin. eapply observed_weaken; [by apply Hrem|lia|lia|done].
    + split; [done|]. split; [lia|done].
Qed.

(** The completion check of immediate eviction answers
    true only if, during the check, one look found nothing to evict in each of
    the namespaces.  It requests forced deletions only when one of the pods it
    saw is past its deletion deadline plus the timeout, and then only of pods
    it saw, pinned to the UID and resource version seen. *)
Theorem immediate_check_sound (w : World) (namespaces : list string) (timeout : Z) :
  let '(b, w') := CheckIfAllPodsAreEvictedInImmediateMode snap get_claim decode_devices delete_pod i
                    w namespaces nodeName timeout entity filters in
  (b = true -> forall ns, ns ∈ namespaces -> observed_empty w w' ns) /\
  exists reqs, requested w w' reqs /\
    (reqs = [] \/ exists pods pod n, reqs = map (forceDeletion i) pods /\
       (forall p, p ∈ pods -> observed w w' namespaces p) /\
       pod ∈ pods /\ reads w <= n < reads w' /\ pastDeadline (now (snap n)) timeout pod = true).
Proof.
  pose proof (immediate_check w namespaces timeout) as H.
  by destruct (CheckIfAllPodsAreEvictedInImmediateMode _ _ _ _ _ _ _ _ _ _ _) as [b w'], H.
Qed.

(** [DeletePodsAfterTimeout] reports success only if every
    namespace was seen empty.  It force-deletes only once the configured number
    of minutes has passed since the event was created, only pods it saw, and it
    reports an error afterwards so that the deletion is verified by another
    pass. *)
Theorem DeletePodsAfterTimeout_spec (w : World) (namespaces : list string) (timeout createdAt : Z) :
  in_int64 (timeout * Minute) ->
  in_int64 (timeout * Minute - time_sub (now (snap (reads w))) createdAt) ->
  let '(e, w') := DeletePodsAfterTimeout snap get_claim decode_devices delete_pod i
                    w nodeName namespaces timeout createdAt entity filters in
  (e = None -> requested w w' [] /\ forall ns, ns ∈ namespaces -> observed_empty w w' ns) /\
  exists reqs, requested w w' reqs /\
    (reqs = [] \/
     (timeout * Minute <= time_sub (now (snap (reads w))) createdAt)%Z /\
     exists pods, reqs = map (forceDeletion i) pods /\ forall p, p ∈ pods -> observed w w' namespaces p).
Proof.
  intros H1 H2. unfold DeletePodsAfterTimeout, look, getNodeDrainTimeout.
  rewrite (wrap_int64_id _ H1), (wrap_int64_id _ H2).
  set (w1 := {| reads := S (reads w); requests := requests w |}).
  pose proof (check_present_spec namespaces w1) as Hc.
  destruct (check_present w1 namespaces) as [[all rem] w2]. destruct Hc as (Hr & Hq & Hall & Hrem).
  simpl in Hr, Hq.
  assert (Hnone : requested w w2 []) by (unfold requested; by rewrite app_nil_r).
  destruct all.
  { split; [|eauto]. intros _. split; [done|]. intros ns Hns.
    eapply observed_empty_weaken; [by apply Hall|simpl; lia|lia]. }
  destruct rem as [|p0 ps]; [by split; eauto|]. set (rem := p0 :: ps) in *.
  destruct (Z.leb_spec (timeout * Minute - time_sub (now (snap (reads w))) createdAt) 0) as [Hle|];
    [|by split; eauto].
  assert (Hreq : forall w3, reads w3 = reads w2 -> requests w3 = requests w2 ++ map (forceDeletion i) rem ->
    exists reqs, requested w w3 reqs /\ (reqs = [] \/
     (timeout * Minute <= time_sub (now (snap (reads w))) createdAt)%Z /\
     exists pods, reqs = map (forceDeletion i) pods /\ forall p, p ∈ pods -> observed w w3 namespaces p)).
  { intros w3 Hw3 Hq3. exists (map (forceDeletion i) rem). split; [unfold requested; by rewrite Hq3, Hq|].
    right. split; [lia|]. exists rem. split; [done|]. intros p Hp.
    eapply observed_weaken; [by apply Hrem|simpl; lia|lia|done]. }
  unfold forceDeletePods. destruct (existsb _ _); (split; [done|]); by apply Hreq.
Qed.

End completion.
