(* ===== verification/DrainConfig.v ===== *)
(** * Configuration of the node drainer

    Models [node-drainer/pkg/config]: the TOML configuration after decoding, its
    validation and defaults, the pod drain policies and the node selector of
    the custom drain.  Label selectors ([labels.Parse] of apimachinery) and
    [filepath.Match] are parameters. *)

From stdpp Require Import gmap strings list fin_maps sorting.
From Stdlib Require Import ZArith Lia Ascii.
From S2P Require Import Prelude HealthEvent DrainInformers.

Abbreviation EvictMode := string (only parsing).
Definition ModeImmediateEvict : EvictMode := "Immediate".
Definition ModeAllowCompletion : EvictMode := "AllowCompletion".
Definition ModeDeleteAfterTimeout : EvictMode := "DeleteAfterTimeout".

Record UserNamespace := { un_Name : string; un_Mode : EvictMode }.

Record PodDrainPolicy := {
  pol_Name : string;
  pol_Namespace : string;
  PodSelector : string;
  OwnerKinds : list string;
  pol_Mode : EvictMode;
}.

Record CustomDrainConfig := {
  Enabled : bool;
  NodeSelector : string;
  TemplateMountPath : string;
  TemplateFileName : string;
  cd_Namespace : string;
  cd_Timeout : Z;
  ApiGroup : string;
  cd_Version : string;
  cd_Kind : string;
  StatusConditionType : string;
  StatusConditionStatus : string;
}.

Record TomlConfig := {
  EvictionTimeoutInSeconds : Z;
  SystemNamespaces : string;
  DeleteAfterTimeoutMinutes : Z;
  NotReadyTimeoutMinutes : Z;
  DrainGPUPods : bool;
  UserNamespaces : list UserNamespace;
  PodDrainPolicies : list PodDrainPolicy;
  CustomDrain : CustomDrainConfig;
  PartialDrainEnabled : bool;
}.

(** A parsed label selector: the keys of its requirements, and its test. *)
Record Selector := { Requirements : list string; Matches_ : gmap string string -> bool }.

(** What apimachinery documents: a selector reads only the labels its
    requirements name, and without requirements it selects everything. *)
Class SelectorLaws (parse : string -> result Selector) := {
  selector_reads s sel l1 l2 : parse s = Ok sel ->
    (forall k, k ∈ Requirements sel -> l1 !! k = l2 !! k) -> Matches_ sel l1 = Matches_ sel l2;
  selector_everything s sel l : parse s = Ok sel -> Requirements sel = [] -> Matches_ sel l = true }.

Definition Everything : Selector := {| Requirements := []; Matches_ := fun _ => true |}.

(** ** Duration *)

(** [Duration.UnmarshalTOML] on a string [strconv.Atoi] accepted or not. *)
Definition Duration_UnmarshalTOML (atoi : string -> option Z) (text : string) : result Z :=
  match atoi text with
  | None => Err ("invalid duration format: " +:+ text)
  | Some seconds =>
      if (seconds <=? 0)%Z then Err "eviction timeout must be a positive integer"
      else Ok (wrap_int64 (seconds * Second))
  end.

Section config.
Context (parse : string -> result Selector) (path_match : string -> string -> result bool).

(** ** Pod drain policies *)

Record compiledPodDrainPolicy := {
  c_namespace : string;
  c_selector : Selector;
  c_ownerKinds : option (gset string);
  c_mode : EvictMode;
}.

Record PodPolicyMatcher := { policies : list compiledPodDrainPolicy; labelKeys : list string }.

Fixpoint checkOwnerKinds (kinds : list string) : option error :=
  match kinds with
  | [] => None
  | kind :: rest =>
      if (kind ==s "") || (TrimSpace kind <>s kind) then Some ("ownerKinds: invalid kind " +:+ kind)
      else checkOwnerKinds rest
  end.

Definition compileOwnerKinds (kinds : list string) : result (option (gset string)) :=
  match kinds with
  | [] => Ok None
  | _ => match checkOwnerKinds kinds with
         | Some e => Err e
         | None => Ok (Some (list_to_set kinds))
         end
  end.

Definition compilePodDrainPolicy (policy : PodDrainPolicy) : result compiledPodDrainPolicy :=
  if negb ((pol_Mode policy ==s ModeImmediateEvict) || (pol_Mode policy ==s ModeAllowCompletion)
           || (pol_Mode policy ==s ModeDeleteAfterTimeout))
  then Err ("unsupported mode " +:+ pol_Mode policy)
  else
    let namespace := if pol_Namespace policy ==s "" then "*"%string else pol_Namespace policy in
    let? _ := rwrap "invalid namespace pattern" (path_match namespace "") in
    let? ownerKinds := compileOwnerKinds (OwnerKinds policy) in
    if TrimSpace (PodSelector policy) ==s "" then
      match ownerKinds with
      | None => Err "podSelector and ownerKinds must not both be empty"
      | Some _ => Ok {| c_namespace := namespace; c_selector := Everything;
                        c_ownerKinds := ownerKinds; c_mode := pol_Mode policy |}
      end
    else
      let? selector := rwrap "invalid podSelector" (parse (PodSelector policy)) in
      Ok {| c_namespace := namespace; c_selector := selector; c_ownerKinds := ownerKinds;
            c_mode := pol_Mode policy |}.

Fixpoint compilePolicies (names : gset string) (l : list PodDrainPolicy) :
    result (list compiledPodDrainPolicy) :=
  match l with
  | [] => Ok []
  | policy :: rest =>
      if (TrimSpace (pol_Name policy) ==s "") || bool_decide (pol_Name policy ∈ names)
      then Err "podDrainPolicies: name must be non-empty and unique"
      else
        let? compiled := rwrap "podDrainPolicies" (compilePodDrainPolicy policy) in
        let? r := compilePolicies ({[pol_Name policy]} ∪ names) rest in
        Ok (compiled :: r)
  end.

(** The label keys are collected in a map and sorted. *)
Definition CompilePodDrainPolicies (l : list PodDrainPolicy) : result PodPolicyMatcher :=
  let? compiled := compilePolicies ∅ l in
  let ks : gset string := list_to_set (compiled ≫= fun c => Requirements (c_selector c)) in
  Ok {| policies := compiled; labelKeys := merge_sort String.le (elements ks) |}.

(** [metav1.GetControllerOfNoCopy]: the first owner marked as the controller. *)
Definition GetControllerOf (pod : Pod) : option OwnerReference :=
  find (fun owner => match Controller owner with Some b => b | None => false end) (OwnerReferences pod).

Definition matchesOwner (p : compiledPodDrainPolicy) (pod : Pod) : bool :=
  match c_ownerKinds p with
  | None => true
  | Some kinds =>
      match GetControllerOf pod with
      | None => false
      | Some controller => bool_decide (Kind controller ∈ kinds)
      end
  end.

Definition policyMatches (pod : Pod) (policy : compiledPodDrainPolicy) : bool :=
  match path_match (c_namespace policy) (pod_Namespace pod) with Ok b => b | Err _ => false end
  && Matches_ (c_selector policy) (pod_Labels pod) && matchesOwner policy pod.

(** The mode of the first policy that selects the pod. *)
Definition Match (m : PodPolicyMatcher) (pod : Pod) : option EvictMode :=
  c_mode <$> find (policyMatches pod) (policies m).

(** ** Custom drain *)

Record CustomDrainNodeMatcher := {
  enabled : bool;
  scoped : bool;
  selector : Selector;
  node_labelKeys : list string;
}.

Definition CompileCustomDrainNodeSelector (cfg : CustomDrainConfig) : result CustomDrainNodeMatcher :=
  let matcher := {| enabled := Enabled cfg; scoped := false; selector := Everything; node_labelKeys := [] |} in
  if negb (Enabled cfg) || (TrimSpace (NodeSelector cfg) ==s "") then Ok matcher
  else
    let? sel := rwrap "invalid customDrain.nodeSelector" (parse (NodeSelector cfg)) in
    match Requirements sel with
    | [] => Ok matcher
    | reqs =>
        let ks : gset string := list_to_set reqs in
        Ok {| enabled := Enabled cfg; scoped := true; selector := sel;
              node_labelKeys := merge_sort String.le (elements ks) |}
    end.

Definition CustomDrainNodeMatcher_Matches (m : CustomDrainNodeMatcher)
    (node_labels : option (gmap string string)) : bool :=
  if negb (enabled m) then false
  else if negb (scoped m) then true
  else match node_labels with None => false | Some labels => Matches_ (selector m) labels end.

(** ** Validation *)

Definition validateCustomDrainScope (config : TomlConfig) (isScoped : bool) : option error :=
  if isScoped then
    if (length (UserNamespaces config) =? 0)%nat && (length (PodDrainPolicies config) =? 0)%nat
    then Some "customDrain.nodeSelector requires userNamespaces or podDrainPolicies"%string
    else None
  else if (0 <? length (UserNamespaces config))%nat
  then Some "cannot use both customDrain.enabled=true and userNamespaces configuration"%string
  else if (0 <? length (PodDrainPolicies config))%nat
  then Some "cannot use both customDrain.enabled=true and podDrainPolicies configuration"%string
  else None.

Definition requiredFields (c : CustomDrainConfig) : list (string * string) :=
  [("templateMountPath", TemplateMountPath c); ("templateFileName", TemplateFileName c);
   ("namespace", cd_Namespace c); ("apiGroup", ApiGroup c); ("version", cd_Version c);
   ("kind", cd_Kind c); ("statusConditionType", StatusConditionType c);
   ("statusConditionStatus", StatusConditionStatus c)]%string.

Definition with_cd_timeout (c : CustomDrainConfig) (t : Z) : CustomDrainConfig :=
  {| Enabled := Enabled c; NodeSelector := NodeSelector c; TemplateMountPath := TemplateMountPath c;
     TemplateFileName := TemplateFileName c; cd_Namespace := cd_Namespace c; cd_Timeout := t;
     ApiGroup := ApiGroup c; cd_Version := cd_Version c; cd_Kind := cd_Kind c;
     StatusConditionType := StatusConditionType c; StatusConditionStatus := StatusConditionStatus c |}.

(** The custom-drain section after validation; Go visits the map of required
    fields in any order, which decides only the field the error names. *)
Definition validateCustomDrainConfig (config : TomlConfig) : result CustomDrainConfig :=
  let c := CustomDrain config in
  if negb (Enabled c) then Ok c
  else
    let? matcher := CompileCustomDrainNodeSelector c in
    match validateCustomDrainScope config (scoped matcher) with
    | Some e => Err e
    | None =>
        match find (fun fv => fv.2 ==s "") (requiredFields c) with
        | Some (field, _) => Err ("customDrain." +:+ field +:+ " is required when customDrain.enabled=true")
        | None => Ok (if (cd_Timeout c =? 0)%Z then with_cd_timeout c (3600 * Second) else c)
        end
    end.

Definition with_checked (c : TomlConfig) (cd : CustomDrainConfig) (dat nrt : Z) : TomlConfig :=
  {| EvictionTimeoutInSeconds := EvictionTimeoutInSeconds c; SystemNamespaces := SystemNamespaces c;
     DeleteAfterTimeoutMinutes := dat; NotReadyTimeoutMinutes := nrt; DrainGPUPods := DrainGPUPods c;
     UserNamespaces := UserNamespaces c; PodDrainPolicies := PodDrainPolicies c; CustomDrain := cd;
     PartialDrainEnabled := PartialDrainEnabled c |}.

Definition validateAndSetDefaults (config : TomlConfig) : result TomlConfig :=
  if (0 <? length (UserNamespaces config))%nat && (0 <? length (PodDrainPolicies config))%nat
  then Err "cannot use both userNamespaces and podDrainPolicies configuration"
  else
    let? _ := rwrap "validate pod drain policies" (CompilePodDrainPolicies (PodDrainPolicies config)) in
    let? cd := validateCustomDrainConfig config in
    let dat := if (DeleteAfterTimeoutMinutes config =? 0)%Z then 60%Z else DeleteAfterTimeoutMinutes config in
    if (dat <=? 0)%Z then Err "deleteAfterTimeout must be a positive integer"
    else
      let nrt := if (NotReadyTimeoutMinutes config =? 0)%Z then 5%Z else NotReadyTimeoutMinutes config in
      if (nrt <=? 0)%Z then Err "notReadyTimeoutMinutes must be a positive integer"
      else Ok (with_checked config cd dat nrt).

End config.

(** ** The cache keeps the labels the policies read *)

Lemma cached_labels keys p k :
  k ∈ keys -> pod_Labels (drainEligiblePodCacheObject keys p) !! k = pod_Labels p !! k.
Proof.
  simpl. intros Hk.
  assert (Hgen : forall ks (acc : gmap string string),
    (forall k v, acc !! k = Some v -> pod_Labels p !! k = Some v) ->
    fold_left (fun labels key =>
      match pod_Labels p !! key with Some value => <[key := value]> labels | None => labels end) ks acc !! k
    = if decide (k ∈ ks) then pod_Labels p !! k else acc !! k).
  { induction ks as [|k0 ks IH]; intros acc Hacc; cbn [fold_left].
    { rewrite decide_False; [done|apply not_elem_of_nil]. }
    rewrite IH.
    2:{ intros k1 v. destruct (pod_Labels p !! k0) as [v0|] eqn:H0; [|by apply Hacc].
        rewrite lookup_insert_Some. intros [[<- <-]|[_ H]]; [done|by apply Hacc]. }
    destruct (decide (k ∈ ks)); [rewrite decide_True by set_solver; done|].
    destruct (decide (k = k0)) as [->|Hne].
    - rewrite decide_True by set_solver.
      destruct (pod_Labels p !! k0) as [v0|] eqn:H0; [by rewrite lookup_insert_eq|].
      destruct (acc !! k0) as [v|] eqn:Ha; [|done]. apply Hacc in Ha. congruence.
    - rewrite decide_False by set_solver. destruct (pod_Labels p !! k0); [by rewrite lookup_insert_ne|done]. }
  rewrite Hgen by (intros ??; by rewrite lookup_empty). by rewrite decide_True.
Qed.

Section config_theory.
Context (parse : string -> result Selector) (path_match : string -> string -> result bool).
Context {SL : SelectorLaws parse}.

Lemma compilePolicies_selectors names l cs c :
  compilePolicies parse path_match names l = Ok cs -> c ∈ cs ->
  c_selector c = Everything \/ exists s, parse s = Ok (c_selector c).
Proof.
  revert names cs. induction l as [|p l IH]; intros names cs; simpl.
  { intros [= <-] Hc. by apply not_elem_of_nil in Hc. }
  destruct (_ || _); [done|]. destruct (compilePodDrainPolicy parse path_match p) as [c0|] eqn:Hp; [|done].
  simpl. destruct (compilePolicies parse path_match _ l) as [cs'|] eqn:Hl; [|done]. simpl.
  intros [= <-] [->|Hc]%elem_of_cons; [|by eapply IH].
  unfold compilePodDrainPolicy in Hp. destruct (negb _); [done|].
  destruct (path_match _ ""); simpl in Hp; [|done]. destruct (compileOwnerKinds _) as [ok|]; simpl in Hp; [|done].
  destruct (_ ==s ""); [destruct ok; [|done]; injection Hp as <-; by left|].
  destruct (parse (PodSelector p)) as [sel|] eqn:Hs; simpl in Hp; [|done]. injection Hp as <-. right. eauto.
Qed.

Lemma matcher_keys l m c k :
  CompilePodDrainPolicies parse path_match l = Ok m -> c ∈ policies m ->
  k ∈ Requirements (c_selector c) -> k ∈ labelKeys m.
Proof.
  unfold CompilePodDrainPolicies. destruct (compilePolicies _ _ _ _) as [cs|]; simpl; [|done].
  intros [= <-] Hc Hk. simpl in *. rewrite merge_sort_Permutation, elem_of_elements, elem_of_list_to_set.
  apply list_elem_of_bind. eauto.
Qed.

Lemma find_ext_in {A} (f g : A -> bool) l :
  (forall x, x ∈ l -> f x = g x) -> find f l = find g l.
Proof.
  induction l as [|x l IH]; intros H; simpl; [done|]. rewrite (H x) by by left.
  rewrite IH; [done|]. intros y Hy. apply H. by right.
Qed.

(** The mode a compiled set of policies gives a pod does not
    change when the pod is shrunk for the cache with the matcher's own label
    keys: policies never misclassify a cached pod. *)
Theorem policy_match_on_cached_pod (l : list PodDrainPolicy) (m : PodPolicyMatcher) (p : Pod) :
  CompilePodDrainPolicies parse path_match l = Ok m ->
  Match path_match m (drainEligiblePodCacheObject (labelKeys m) p) = Match path_match m p.
Proof.
  intros Hm. unfold Match. f_equal. apply find_ext_in. intros c Hc. unfold policyMatches.
  assert (Hsel : Matches_ (c_selector c) (pod_Labels (drainEligiblePodCacheObject (labelKeys m) p)) =
                 Matches_ (c_selector c) (pod_Labels p)).
  { assert (Hor : c_selector c = Everything \/ exists s, parse s = Ok (c_selector c)).
    { unfold CompilePodDrainPolicies in Hm. destruct (compilePolicies _ _ _ _) as [cs|] eqn:Hcs; [|done].
      injection Hm as <-. by eapply compilePolicies_selectors. }
    destruct Hor as [->|[s Hs]]; [done|]. apply (selector_reads s); [done|].
    intros k Hk. apply cached_labels. by eapply matcher_keys. }
  rewrite Hsel. f_equal. unfold matchesOwner, GetControllerOf. simpl.
  replace (map (fun owner => {| Kind := Kind owner; Controller := Controller owner |}) (OwnerReferences p))
    with (OwnerReferences p); [done|].
  induction (OwnerReferences p) as [|[] os IH]; simpl; [done|]. by rewrite <- IH.
Qed.

(** ** Validated configurations *)

Lemma CompileCustomDrain_timeout c t :
  CompileCustomDrainNodeSelector parse (with_cd_timeout c t) = CompileCustomDrainNodeSelector parse c.
Proof. done. Qed.

Lemma validateCustomDrainConfig_ok cfg cd :
  validateCustomDrainConfig parse cfg = Ok cd ->
  (cd = CustomDrain cfg \/ exists t, cd = with_cd_timeout (CustomDrain cfg) t) /\
  exists m, CompileCustomDrainNodeSelector parse cd = Ok m /\
    (Enabled cd = true -> validateCustomDrainScope cfg (scoped m) = None).
Proof.
  unfold validateCustomDrainConfig. destruct (Enabled (CustomDrain cfg)) eqn:He; cbn [negb].
  - destruct (CompileCustomDrainNodeSelector parse (CustomDrain cfg)) as [m|] eqn:Hc; cbn [rbind]; [|done].
    destruct (validateCustomDrainScope cfg (scoped m)) eqn:Hs; [done|].
    destruct (find _ _) as [[f v]|]; [done|]. intros [= <-].
    destruct (cd_Timeout (CustomDrain cfg) =? 0)%Z; (split; [eauto|]); exists m;
      rewrite ?CompileCustomDrain_timeout; auto.
  - intros [= <-]. split; [by left|]. unfold CompileCustomDrainNodeSelector. rewrite He. simpl.
    eexists. split; [done|]. done.
Qed.

(** What a validated configuration guarantees. *)
Record checked (cfg : TomlConfig) : Prop := {
  checked_minutes : (0 < DeleteAfterTimeoutMinutes cfg)%Z;
  checked_notReady : (0 < NotReadyTimeoutMinutes cfg)%Z;
  checked_exclusive : UserNamespaces cfg = [] \/ PodDrainPolicies cfg = [];
  checked_policies : exists m, CompilePodDrainPolicies parse path_match (PodDrainPolicies cfg) = Ok m;
  checked_custom : exists m, CompileCustomDrainNodeSelector parse (CustomDrain cfg) = Ok m /\
    (Enabled (CustomDrain cfg) = true ->
     if scoped m then UserNamespaces cfg <> [] \/ PodDrainPolicies cfg <> []
     else UserNamespaces cfg = [] /\ PodDrainPolicies cfg = []) }.

Lemma validateAndSetDefaults_checked cfg cfg' :
  validateAndSetDefaults parse path_match cfg = Ok cfg' -> checked cfg'.
Proof.
  unfold validateAndSetDefaults. destruct (_ && _) eqn:Hex; [done|].
  destruct (CompilePodDrainPolicies parse path_match (PodDrainPolicies cfg)) as [m|] eqn:Hm; simpl; [|done].
  destruct (validateCustomDrainConfig parse cfg) as [cd|] eqn:Hcd; simpl; [|done].
  destruct (Z.leb_spec (if (DeleteAfterTimeoutMinutes cfg =? 0)%Z then 60 else DeleteAfterTimeoutMinutes cfg) 0); [done|].
  destruct (Z.leb_spec (if (NotReadyTimeoutMinutes cfg =? 0)%Z then 5 else NotReadyTimeoutMinutes cfg) 0); [done|].
  intros [= <-]. split; simpl; [done|done| |eauto|].
  - destruct (UserNamespaces cfg); [by left|]. destruct (PodDrainPolicies cfg); [by right|done].
  - destruct (validateCustomDrainConfig_ok _ _ Hcd) as (_ & mc & Hc & Hsc). exists mc. split; [done|].
    intros He. specialize (Hsc He). unfold validateCustomDrainScope in Hsc.
    destruct (scoped mc), (UserNamespaces cfg), (PodDrainPolicies cfg); simpl in Hsc; try done; auto.
Qed.

(** Validation fills in three defaults and keeps the rest as it was given. *)
Lemma validateAndSetDefaults_keeps cfg cfg' :
  validateAndSetDefaults parse path_match cfg = Ok cfg' ->
  EvictionTimeoutInSeconds cfg' = EvictionTimeoutInSeconds cfg /\
  DeleteAfterTimeoutMinutes cfg' = (if (DeleteAfterTimeoutMinutes cfg =? 0)%Z then 60 else DeleteAfterTimeoutMinutes cfg)%Z /\
  NotReadyTimeoutMinutes cfg' = (if (NotReadyTimeoutMinutes cfg =? 0)%Z then 5 else NotReadyTimeoutMinutes cfg)%Z.
Proof.
  unfold validateAndSetDefaults. destruct (_ && _); [done|].
  destruct (CompilePodDrainPolicies _ _ _); simpl; [|done]. destruct (validateCustomDrainConfig _ _); simpl; [|done].
  destruct (_ <=? 0)%Z; [done|]. destruct (_ <=? 0)%Z; [done|]. by intros [= <-].
Qed.

End config_theory.
