(* ===== verification/Drain.v ===== *)
(** * The decision of the node drainer

    Models [commons/pkg/drain] (has the node been drained for this quarantine?)
    and [node-drainer/pkg/evaluator] (the next action for an event).  The event
    store, the node cache, the custom-drain client and the decoder of the
    quarantine annotation are parameters: [drain.go] and [evaluator.go] reach
    them through interfaces or libraries. *)

From stdpp Require Import gmap strings list fin_maps.
From Stdlib Require Import ZArith Lia.
From S2P Require Import Prelude HealthEvent AnnotationMap DrainInformers DrainConfig.

#[local] Open Scope nat_scope.

(** ** Partial drains *)

Definition supportedEntity (entity : Entity) : bool :=
  match EntityTypeToResourceNames (EntityType entity) with
  | Some _ => negb (String.length (EntityValue entity) =? 0)%nat
  | None => false
  end.

Definition PartialDrainEntity (healthEvent : HealthEvent) (partialDrainEnabled : bool) :
    result (option Entity) :=
  if negb partialDrainEnabled || negb (bool_decide (Action healthEvent = COMPONENT_RESET)) then Ok None
  else match find supportedEntity (EntitiesImpacted healthEvent) with
       | Some entity => Ok (Some entity)
       | None => Err ("no supported entities for a partial drain found in health event for node: "
                      +:+ NodeName healthEvent)
       end.

Definition doesDrainCoverPartialEntity (drainCompleted : bool) (partialEntity current : option Entity) : bool :=
  if drainCompleted then
    match partialEntity with
    | None => true
    | Some p =>
        match current with
        | Some c => (EntityType p ==s EntityType c) && (EntityValue p ==s EntityValue c)
        | None => false
        end
    end
  else false.

(** ** Was the node drained? *)

(** A record of the event store: the eviction status, and the event or the
    error of its conversion from the stored document. *)
Record StoredEvent := { evictionStatus : string; stored_event : result HealthEvent }.

Section is_node_drained.
Context (find_events : string -> result (list StoredEvent)).

Definition getHealthEventFromId (nodeName id : string) : result (string * HealthEvent) :=
  let? events := rwrap ("failed to query health events for node " +:+ nodeName) (find_events id) in
  match events with
  | [e] => let? he := rwrap ("failed to unmarshal health event for node " +:+ nodeName) (stored_event e) in
           Ok (evictionStatus e, he)
  | _ => Err ("unexpected number of events for node " +:+ nodeName +:+ " and event ID " +:+ id)
  end.

Definition wasSkipped (e : HealthEvent) : bool :=
  match DrainOverrides e with Some o => Skip o | None => false end.

Definition didDrainCompleteForEvent (nodeName eventID : string) (current : option Entity)
    (partialDrainEnabled : bool) : result bool :=
  let? se := rwrap ("looking up health event " +:+ eventID) (getHealthEventFromId nodeName eventID) in
  let? entity := rwrap ("evaluating partial drain entity for health event " +:+ eventID)
                   (PartialDrainEntity se.2 partialDrainEnabled) in
  let drainCompletedForEvent :=
    (se.1 ==s StatusSucceeded) || ((se.1 ==s AlreadyDrained) && negb (wasSkipped se.2)) in
  Ok (doesDrainCoverPartialEntity drainCompletedForEvent entity current).

Fixpoint IsNodeDrained (nodeName : string) (events : list (option HealthEvent)) (excludeEventID : string)
    (current : option Entity) (partialDrainEnabled : bool) : result bool :=
  match events with
  | [] => Ok false
  | event :: rest =>
      let next := IsNodeDrained nodeName rest excludeEventID current partialDrainEnabled in
      match event with
      | None => next
      | Some e =>
          if (String.length (Id e) =? 0)%nat || (Id e ==s excludeEventID) then next
          else
            let? provesDrained := didDrainCompleteForEvent nodeName (Id e) current partialDrainEnabled in
            if provesDrained then Ok true else next
      end
  end.

End is_node_drained.

(** ** Actions *)

Inductive DrainAction :=
| ActionSkip | ActionWait | ActionCreateCR | ActionEvictImmediate | ActionEvictWithTimeout
| ActionCheckCompletion | ActionMarkAlreadyDrained | ActionUpdateStatus | ActionCancel.

#[export] Instance DrainAction_eq_dec : EqDecision DrainAction.
Proof. solve_decision. Defined.

Record DrainActionResult := {
  action : DrainAction;
  Namespaces : list string;
  Timeout_ : Z;
  WaitDelay : Z;
  Status : string;
  partialEntity : option Entity;
  podFilter : PodFilter;
}.

Definition simple (a : DrainAction) : DrainActionResult :=
  {| action := a; Namespaces := []; Timeout_ := 0; WaitDelay := 0; Status := ""; partialEntity := None;
     podFilter := None |}.
Definition wait (d : Z) : DrainActionResult :=
  {| action := ActionWait; Namespaces := []; Timeout_ := 0; WaitDelay := d; Status := "";
     partialEntity := None; podFilter := None |}.
Definition with_status (a : DrainAction) (s : string) : DrainActionResult :=
  {| action := a; Namespaces := []; Timeout_ := 0; WaitDelay := 0; Status := s; partialEntity := None;
     podFilter := None |}.
Definition evict (a : DrainAction) (ns : list string) (t : Z) (e : option Entity) (f : PodFilter) :
    DrainActionResult :=
  {| action := a; Namespaces := ns; Timeout_ := t; WaitDelay := 0; Status := ""; partialEntity := e;
     podFilter := f |}.

Definition customDrainPollInterval : Z := 30 * Second.

Record HealthEventStatus := { NodeQuarantined : string; UserPodsEvictionStatus : option string }.
Record HealthEventWithStatus := { event : HealthEvent; status : option HealthEventStatus }.

Definition isTerminalStatus (s : string) : bool :=
  (s ==s StatusSucceeded) || (s ==s StatusFailed) || (s ==s Cancelled) || (s ==s AlreadyDrained).

Definition checkPreconditions (he : HealthEventWithStatus) : option DrainActionResult :=
  match status he with
  | None => Some (wait Minute)
  | Some st =>
      if (NodeQuarantined st ==s "") || (NodeQuarantined st ==s UnQuarantined) then Some (simple ActionSkip)
      else match UserPodsEvictionStatus st with
           | None => Some (wait Minute)
           | Some s =>
               if isTerminalStatus s then Some (simple ActionSkip)
               else if IsHealthy (event he) then Some (with_status ActionMarkAlreadyDrained AlreadyDrained)
               else if wasSkipped (event he) then Some (with_status ActionMarkAlreadyDrained AlreadyDrained)
               else None
           end
  end.

Definition GenerateCRName (nodeName eventID : string) : string :=
  "drain-" +:+ nodeName +:+ "-" +:+ eventID.

Definition QuarantineHealthEventAnnotationKey : string := "quarantineHealthEvent".

(** The node as the cache keeps it. *)
Record CachedNode := { node_Annotations : gmap string string; node_Labels : gmap string string }.

(** The namespaces of an evaluation, by mode, and the filter of each mode. *)
Record namespaces := {
  immediateEvictionNamespaces : list string;
  allowCompletionNamespaces : list string;
  deleteAfterTimeoutNamespaces : list string;
}.

Record NodeDrainEvaluator := {
  config : TomlConfig;
  podPolicies : PodPolicyMatcher;
  customDrainNodes : CustomDrainNodeMatcher;
}.

Definition NewNodeDrainEvaluator (parse : string -> result Selector)
    (path_match : string -> string -> result bool) (cfg : TomlConfig) : result NodeDrainEvaluator :=
  let? ps := rwrap "compile pod drain policies"
               (CompilePodDrainPolicies parse path_match (PodDrainPolicies cfg)) in
  let? cn := rwrap "compile custom drain node selector"
               (CompileCustomDrainNodeSelector parse (CustomDrain cfg)) in
  Ok {| config := cfg; podPolicies := ps; customDrainNodes := cn |}.

Section evaluator.
Context {MR : MapRange}.
(** The pod cache and the API server. *)
Context (snap : nat -> Snapshot)
        (get_claim : string -> string -> result ClaimSpec)
        (decode_devices : string -> result (gmap string (list string)))
        (delete_pod : DeleteRequest -> DeleteOutcome)
        (path_match : string -> string -> result bool)
        (compile_regexp : string -> result (string -> bool)).
(** The node cache, the event store, the decoder of the quarantine annotation
    and the client of the custom drain, absent when it is not configured. *)
Context (get_node : string -> result CachedNode)
        (find_events : string -> result (list StoredEvent))
        (decode_annotation : string -> result (list HealthEvent))
        (custom : option ((string -> result (bool * bool)) * (string -> result (bool * bool)))).
Context (i : Informers) (e : NodeDrainEvaluator).

Abbreviation find_pods := (FindEvictablePodsInNamespaceAndNode snap get_claim decode_devices i).
Abbreviation get_namespaces := (GetNamespacesMatchingPattern snap path_match compile_regexp).

(** ** Already drained *)

Definition isNodeAlreadyDrained (currentEventId : string) (current : option Entity) (nodeName : string) :
    result bool * bool :=
  match get_node nodeName with
  | Err er => (Err (wrapf ("failed to get node " +:+ nodeName) er), false)
  | Ok node =>
      match node_Annotations node !! QuarantineHealthEventAnnotationKey with
      | None => (Ok false, false)
      | Some text =>
          match decode_annotation text with
          | Err er => (Err (wrapf ("failed to unmarshal quarantine annotation for node " +:+ nodeName) er), true)
          | Ok decoded =>
              let m := UnmarshalJSON (NewHealthEventsAnnotationMap 0) decoded in
              let events := List.filter (fun he => negb (String.length (Id he) =? 0)%nat)
                              (map (fun kr => ev kr.2) (range (Events m))) in
              (IsNodeDrained find_events nodeName (map Some events) currentEventId current
                 (PartialDrainEnabled (config e)), true)
          end
      end
  end.

Definition handleAlreadyQuarantined (statusStr : string) (he : HealthEventWithStatus)
    (entity : option Entity) : option DrainActionResult :=
  if statusStr <>s AlreadyQuarantined then None
  else
    let '(isDrained, hasQuarantineAnnotation) :=
      isNodeAlreadyDrained (Id (event he)) entity (NodeName (event he)) in
    match isDrained with
    | Err _ => Some (wait Minute)
    | Ok d =>
        if negb hasQuarantineAnnotation then Some (with_status ActionCancel Cancelled)
        else if d then Some (with_status ActionMarkAlreadyDrained AlreadyDrained) else None
    end.

(** ** Custom drain *)

Definition shouldUseCustomDrain (nodeName : string) : bool * option DrainActionResult :=
  match custom with
  | None => (false, None)
  | Some _ =>
      if negb (Enabled (CustomDrain (config e))) then (false, None)
      else if negb (scoped (customDrainNodes e)) then (true, None)
      else match get_node nodeName with
           | Err _ => (false, Some (wait Minute))
           | Ok node => (CustomDrainNodeMatcher_Matches (customDrainNodes e) (Some (node_Labels node)), None)
           end
  end.

Definition evaluateCustomDrain (w : World) (he : HealthEventWithStatus) (entity : option Entity)
    (exists_for_node get_cr_status : string -> result (bool * bool)) : result DrainActionResult * World :=
  let nodeName := NodeName (event he) in
  let eventID := Id (event he) in
  if eventID ==s "" then
    (Err ("health event for node " +:+ nodeName +:+ " is missing Id, cannot generate DrainRequest CR name"), w)
  else
    match exists_for_node nodeName with
    | Err _ => (Ok (wait customDrainPollInterval), w)
    | Ok (false, _) =>
        let '(r, w1) := get_namespaces w "*" (SystemNamespaces (config e)) nodeName in
        match r with
        | Err er => (Err (wrapf "failed to get user namespaces" er), w1)
        | Ok nss => (Ok (evict ActionCreateCR nss 0 entity None), w1)
        end
    | Ok (true, nodeDrainComplete) =>
        match get_cr_status (GenerateCRName nodeName eventID) with
        | Err _ => (Ok (wait customDrainPollInterval), w)
        | Ok (false, _) =>
            (Ok (if nodeDrainComplete then with_status ActionMarkAlreadyDrained AlreadyDrained
                 else wait customDrainPollInterval), w)
        | Ok (true, isComplete) =>
            (Ok (if isComplete then with_status ActionMarkAlreadyDrained AlreadyDrained
                 else wait customDrainPollInterval), w)
        end
    end.

(** ** Eviction by namespace *)

Definition mapUserNamespacesToMode (ns : namespaces) (force : bool) (un : UserNamespace)
    (matched : list string) : namespaces :=
  if force || (un_Mode un ==s ModeImmediateEvict) then
    {| immediateEvictionNamespaces := immediateEvictionNamespaces ns ++ matched;
       allowCompletionNamespaces := allowCompletionNamespaces ns;
       deleteAfterTimeoutNamespaces := deleteAfterTimeoutNamespaces ns |}
  else if un_Mode un ==s ModeAllowCompletion then
    {| immediateEvictionNamespaces := immediateEvictionNamespaces ns;
       allowCompletionNamespaces := allowCompletionNamespaces ns ++ matched;
       deleteAfterTimeoutNamespaces := deleteAfterTimeoutNamespaces ns |}
  else if un_Mode un ==s ModeDeleteAfterTimeout then
    {| immediateEvictionNamespaces := immediateEvictionNamespaces ns;
       allowCompletionNamespaces := allowCompletionNamespaces ns;
       deleteAfterTimeoutNamespaces := deleteAfterTimeoutNamespaces ns ++ matched |}
  else ns.

(** The loop of the two handlers below: stops at the first namespace with a pod
    or with an error. *)
Fixpoint hasRemainingPods (w : World) (nss : list string) (nodeName : string) (entity : option Entity)
    (filter : PodFilter) : bool * World :=
  match nss with
  | [] => (false, w)
  | ns :: rest =>
      match find_pods w ns nodeName entity [filter] with
      | (Ok [], w1) => hasRemainingPods w1 rest nodeName entity filter
      | (_, w1) => (true, w1)
      end
  end.

Definition handleAllowCompletionNamespaces (w : World) (ns : namespaces) (nodeName : string)
    (entity : option Entity) : option DrainActionResult * World :=
  let '(remaining, w1) := hasRemainingPods w (allowCompletionNamespaces ns) nodeName entity None in
  (if remaining then Some (evict ActionCheckCompletion (allowCompletionNamespaces ns) 0 entity None)
   else None, w1).

Definition handleDeleteAfterTimeoutNamespaces (w : World) (ns : namespaces) (nodeName : string)
    (entity : option Entity) : option DrainActionResult * World :=
  let '(remaining, w1) := hasRemainingPods w (deleteAfterTimeoutNamespaces ns) nodeName entity None in
  (if remaining
   then Some (evict ActionEvictWithTimeout (deleteAfterTimeoutNamespaces ns)
                (wrap_int64 (DeleteAfterTimeoutMinutes (config e) * Minute)) entity None)
   else None, w1).

Definition getAction (w : World) (ns : namespaces) (nodeName : string) (entity : option Entity) :
    DrainActionResult * World :=
  let timeout := EvictionTimeoutInSeconds (config e) in
  let '(allEvicted, w1) :=
    match immediateEvictionNamespaces ns with
    | [] => (true, w)
    | nss => CheckIfAllPodsAreEvictedInImmediateMode snap get_claim decode_devices delete_pod i w nss
               nodeName timeout entity [None]
    end in
  if negb allEvicted
  then (evict ActionEvictImmediate (immediateEvictionNamespaces ns) timeout entity None, w1)
  else
    let '(a2, w2) :=
      match deleteAfterTimeoutNamespaces ns with
      | [] => (None, w1)
      | _ => handleDeleteAfterTimeoutNamespaces w1 ns nodeName entity
      end in
    match a2 with
    | Some a => (a, w2)
    | None =>
        let '(a3, w3) :=
          match allowCompletionNamespaces ns with
          | [] => (None, w2)
          | _ => handleAllowCompletionNamespaces w2 ns nodeName entity
          end in
        match a3 with
        | Some a => (a, w3)
        | None => (with_status ActionUpdateStatus StatusSucceeded, w3)
        end
    end.

(** ** Eviction by pod policy *)

Definition podModeFilter (mode : string) (force : bool) (pod : Pod) : bool :=
  match Match path_match (podPolicies e) pod with
  | None => false
  | Some selected =>
      (mode ==s "") || ((if force then ModeImmediateEvict else selected) ==s mode)
  end.

(** The pods of one namespace, appended to the slice of their mode. *)
Definition addPodsByMode (force : bool) (m : gmap string (list Pod)) (pods : list Pod) :
    gmap string (list Pod) :=
  fold_left (fun m pod =>
    match Match path_match (podPolicies e) pod with
    | None => m
    | Some mode =>
        let mode := if force then ModeImmediateEvict else mode in
        <[mode := default [] (m !! mode) ++ [pod]]> m
    end) pods m.

Fixpoint listPodsByMode (w : World) (m : gmap string (list Pod)) (nss : list string) (nodeName : string)
    (entity : option Entity) (force : bool) : result (gmap string (list Pod)) * World :=
  match nss with
  | [] => (Ok m, w)
  | ns :: rest =>
      match find_pods w ns nodeName entity [Some (podModeFilter "" force)] with
      | (Err er, w1) => (Err (wrapf ("list pods for drain policies in namespace " +:+ ns) er), w1)
      | (Ok pods, w1) => listPodsByMode w1 (addPodsByMode force m pods) rest nodeName entity force
      end
  end.

(** The last look before completion. *)
Fixpoint refreshSelected (w : World) (nss : list string) (nodeName : string) (entity : option Entity)
    (force : bool) : result DrainActionResult * World :=
  match nss with
  | [] => (Ok (with_status ActionUpdateStatus StatusSucceeded), w)
  | ns :: rest =>
      match find_pods w ns nodeName entity [Some (podModeFilter "" force)] with
      | (Err er, w1) => (Err (wrapf "check remaining selected pods" er), w1)
      | (Ok [], w1) => refreshSelected w1 rest nodeName entity force
      | (Ok _, w1) => (Ok (wait Second), w1)
      end
  end.

(** The candidates in order: mode, action and timeout. *)
Definition policyCandidates : list (string * DrainAction * Z) :=
  [(ModeImmediateEvict, ActionEvictImmediate, EvictionTimeoutInSeconds (config e));
   (ModeDeleteAfterTimeout, ActionEvictWithTimeout,
    wrap_int64 (DeleteAfterTimeoutMinutes (config e) * Minute));
   (ModeAllowCompletion, ActionCheckCompletion, 0%Z)].

Fixpoint tryCandidates (w : World) (candidates : list (string * DrainAction * Z))
    (podsByMode : gmap string (list Pod)) (nss : list string) (nodeName : string)
    (entity : option Entity) (force : bool) : option DrainActionResult * World :=
  match candidates with
  | [] => (None, w)
  | (mode, a, timeout) :: rest =>
      match default [] (podsByMode !! mode) with
      | [] => tryCandidates w rest podsByMode nss nodeName entity force
      | pods =>
          let filter := Some (podModeFilter mode force) in
          let '(gone, w1) :=
            if mode ==s ModeImmediateEvict
            then CheckIfObservedPodsAreEvictedInImmediateMode snap get_claim decode_devices delete_pod i w
                   nss nodeName timeout entity pods [filter]
            else (false, w) in
          if gone then tryCandidates w1 rest podsByMode nss nodeName entity force
          else (Some (evict a nss timeout entity filter), w1)
      end
  end.

Definition forced (he : HealthEvent) : bool :=
  match DrainOverrides he with Some o => Force o | None => false end.

Definition evaluatePodPolicyActions (w : World) (he : HealthEventWithStatus) (entity : option Entity) :
    result DrainActionResult * World :=
  let nodeName := NodeName (event he) in
  let force := forced (event he) in
  let '(r, w1) := get_namespaces w "*" (SystemNamespaces (config e)) nodeName in
  match r with
  | Err er => (Err (wrapf "find namespaces for pod drain policies" er), w1)
  | Ok nss =>
      match listPodsByMode w1 ∅ nss nodeName entity force with
      | (Err er, w2) => (Err er, w2)
      | (Ok podsByMode, w2) =>
          match tryCandidates w2 policyCandidates podsByMode nss nodeName entity force with
          | (Some a, w3) => (Ok a, w3)
          | (None, w3) => refreshSelected w3 nss nodeName entity force
          end
      end
  end.

(** The loop over the configured user namespaces. *)
Fixpoint collectNamespaces (w : World) (ns : namespaces) (force : bool) (uns : list UserNamespace)
    (nodeName : string) : option namespaces * World :=
  match uns with
  | [] => (Some ns, w)
  | un :: rest =>
      match get_namespaces w (un_Name un) (SystemNamespaces (config e)) nodeName with
      | (Err _, w1) => (None, w1)
      | (Ok matched, w1) =>
          collectNamespaces w1 (mapUserNamespacesToMode ns force un matched) force rest nodeName
      end
  end.

Definition evaluateUserNamespaceActions (w : World) (he : HealthEventWithStatus) (entity : option Entity) :
    result DrainActionResult * World :=
  if (0 <? length (PodDrainPolicies (config e)))%nat then evaluatePodPolicyActions w he entity
  else
    let none := {| immediateEvictionNamespaces := []; allowCompletionNamespaces := [];
                   deleteAfterTimeoutNamespaces := [] |} in
    match collectNamespaces w none (forced (event he)) (UserNamespaces (config e)) (NodeName (event he)) with
    | (None, w1) => (Ok (wait Minute), w1)
    | (Some ns, w1) => let '(a, w2) := getAction w1 ns (NodeName (event he)) entity in (Ok a, w2)
    end.

Definition EvaluateEventWithDatabase (w : World) (he : HealthEventWithStatus) :
    result DrainActionResult * World :=
  match checkPreconditions he with
  | Some r => (Ok r, w)
  | None =>
      let statusStr := match status he with Some st => NodeQuarantined st | None => ""%string end in
      match PartialDrainEntity (event he) (PartialDrainEnabled (config e)) with
      | Err _ => (Ok (with_status ActionUpdateStatus StatusFailed), w)
      | Ok entity =>
          match handleAlreadyQuarantined statusStr he entity with
          | Some r => (Ok r, w)
          | None =>
              match shouldUseCustomDrain (NodeName (event he)) with
              | (_, Some retry) => (Ok retry, w)
              | (true, None) =>
                  match custom with
                  | Some (exists_for_node, get_cr_status) =>
                      evaluateCustomDrain w he entity exists_for_node get_cr_status
                  | None => evaluateUserNamespaceActions w he entity
                  end
              | (false, None) => evaluateUserNamespaceActions w he entity
              end
          end
      end
  end.

End evaluator.

Inductive DrainScope := DrainScopeFull | DrainScopePartial.

Definition DrainScopeFor (he : HealthEvent) (partialDrainEnabled : bool) : DrainScope * option Entity :=
  match PartialDrainEntity he partialDrainEnabled with
  | Ok (Some entity) => (DrainScopePartial, Some entity)
  | _ => (DrainScopeFull, None)
  end.

(** ** Proof of a completed drain *)

Section drained.
Context (find_events : string -> result (list StoredEvent)).

Definition covers (entity current : option Entity) : Prop :=
  match entity with None => True | Some _ => entity = current end.

(** The store shows that the drain of event [id] is complete and covers the
    entity at hand. *)
Definition drain_proof (current : option Entity) (partialDrainEnabled : bool) (id : string) : Prop :=
  exists se he entity, find_events id = Ok [se] /\ stored_event se = Ok he /\
    PartialDrainEntity he partialDrainEnabled = Ok entity /\
    (evictionStatus se = StatusSucceeded \/ evictionStatus se = AlreadyDrained /\ wasSkipped he = false) /\
    covers entity current.

Lemma covers_spec (entity current : option Entity) :
  doesDrainCoverPartialEntity true entity current = true <-> covers entity current.
Proof.
  unfold doesDrainCoverPartialEntity, covers. destruct entity as [[t v]|]; [|done].
  destruct current as [[t' v']|]; simpl; [|done].
  rewrite andb_true_iff, !go_eqb_true. split; [by intros [-> ->]|by intros [= -> ->]].
Qed.

Lemma didDrainComplete_spec nodeName id current pde b :
  didDrainCompleteForEvent find_events nodeName id current pde = Ok b ->
  (b = true <-> drain_proof current pde id).
Proof.
  unfold didDrainCompleteForEvent, getHealthEventFromId, drain_proof.
  destruct (find_events id) as [[|se [|]]|] eqn:Hf; simpl; try done.
  destruct (stored_event se) as [he|] eqn:Hs; simpl; [|done].
  destruct (PartialDrainEntity he pde) as [entity|] eqn:Hp; simpl; [|done]. intros [= <-].
  set (done_ := _ || _).
  assert (Hd : done_ = true <-> evictionStatus se = StatusSucceeded \/
                 evictionStatus se = AlreadyDrained /\ wasSkipped he = false).
  { unfold done_. rewrite orb_true_iff, andb_true_iff, !go_eqb_true, negb_true_iff. done. }
  split.
  - intros Hc. destruct done_ eqn:Ed; [|done]. exists se, he, entity. apply covers_spec in Hc. naive_solver.
  - intros (se' & he' & entity' & [= <-] & Hs' & Hp' & Hst & Hcov).
    rewrite Hs in Hs'. injection Hs' as <-. rewrite Hp in Hp'. injection Hp' as <-.
    apply Hd in Hst. rewrite Hst. by apply covers_spec.
Qed.

(** An event whose drain status may be consulted. *)
Definition eligible (excludeEventID : string) (e : option HealthEvent) (id : string) : Prop :=
  exists he, e = Some he /\ Id he = id /\ id <> ""%string /\ id <> excludeEventID.

Lemma string_length_0 s : (String.length s =? 0)%nat = true <-> s = ""%string.
Proof. rewrite Nat.eqb_eq. destruct s; simpl; split; try done; lia. Qed.

Lemma IsNodeDrained_answer nodeName events exclude current pde b :
  IsNodeDrained find_events nodeName events exclude current pde = Ok b ->
  (b = true <-> exists e id, e ∈ events /\ eligible exclude e id /\ drain_proof current pde id).
Proof.
  induction events as [|e events IH]; simpl.
  { intros [= <-]. split; [done|]. by intros (e & id & He%not_elem_of_nil & _). }
  assert (Hskip : (forall id, ~ eligible exclude e id) ->
    (exists e' id, e' ∈ events /\ eligible exclude e' id /\ drain_proof current pde id) <->
    (exists e' id, e' ∈ e :: events /\ eligible exclude e' id /\ drain_proof current pde id)).
  { intros Hno. split; intros (e' & id & Hin & Hel & Hp); exists e', id; (split; [|done]).
    - by right.
    - apply elem_of_cons in Hin as [->|]; [by apply Hno in Hel|done]. }
  destruct e as [he|]; [|intros H; rewrite <- Hskip by (intros id (? & ? & _); done); by apply IH].
  destruct (String.length (Id he) =? 0)%nat eqn:H0; simpl.
  { apply string_length_0 in H0. intros H. rewrite <- Hskip; [by apply IH|].
    intros id (he' & [= <-] & Hid & Hne & _). congruence. }
  destruct (Id he ==s exclude) eqn:Hx.
  { apply go_eqb_true in Hx. intros H. rewrite <- Hskip; [by apply IH|].
    intros id (he' & [= <-] & Hid & _ & Hne). congruence. }
  destruct (didDrainCompleteForEvent _ _ _ _ _) as [p|] eqn:Hd; simpl; [|done].
  pose proof (didDrainComplete_spec _ _ _ _ _ Hd) as Hp. destruct p.
  - intros [= <-]. split; [|done]. intros _. exists (Some he), (Id he). split; [by left|].
    split; [|by apply Hp]. exists he. apply go_eqb_false in Hx. split; [done|]. split; [done|].
    split; [|done]. intros E. apply string_length_0 in E. congruence.
  - intros H. rewrite (IH H). split; intros (e' & id & Hin & Hel & Hpr); exists e', id; (split; [|done]).
    + by right.
    + apply elem_of_cons in Hin as [->|]; [|done]. destruct Hel as (he' & [= <-] & <- & _).
      apply Hp in Hpr. done.
Qed.

(** When [IsNodeDrained] answers, it answers true exactly if one
    of the listed events, other than the excluded one, is recorded as Succeeded,
    or as AlreadyDrained without a skip override, with a scope that covers the
    entity asked about: a full drain covers everything, a partial drain only
    the same entity.  It fails only where the lookup of a listed event fails. *)
Theorem IsNodeDrained_exact (nodeName : string) (events : list (option HealthEvent))
    (exclude : string) (current : option Entity) (pde : bool) :
  match IsNodeDrained find_events nodeName events exclude current pde with
  | Ok b => b = true <-> exists e id, e ∈ events /\ eligible exclude e id /\ drain_proof current pde id
  | Err _ => exists e id er, e ∈ events /\ eligible exclude e id /\
               didDrainCompleteForEvent find_events nodeName id current pde = Err er
  end.
Proof.
  destruct (IsNodeDrained _ _ _ _ _ _) as [b|er] eqn:H; [by eapply IsNodeDrained_answer|].
  revert H. induction events as [|e events IH]; simpl; [done|].
  assert (Hmore : (exists e' id er, e' ∈ events /\ eligible exclude e' id /\
      didDrainCompleteForEvent find_events nodeName id current pde = Err er) ->
    exists e' id er, e' ∈ e :: events /\ eligible exclude e' id /\
      didDrainCompleteForEvent find_events nodeName id current pde = Err er).
  { intros (e' & id & er' & Hin & H). exists e', id, er'. split; [by right|done]. }
  destruct e as [he|]; [|auto]. destruct (String.length (Id he) =? 0)%nat eqn:H0; simpl; [auto|].
  destruct (Id he ==s exclude) eqn:Hx; [auto|].
  destruct (didDrainCompleteForEvent _ _ _ _ _) as [[]|er'] eqn:Hd; simpl; [done|auto|].
  intros _. exists (Some he), (Id he), er'. split; [by left|]. split; [|done]. exists he.
  apply go_eqb_false in Hx. split; [done|]. split; [done|]. split; [|done].
  intros E. apply string_length_0 in E. congruence.
Qed.

End drained.

(** ** Completion of a drain *)

Section completion.
Context {MR : MapRange}.
Context (snap : nat -> Snapshot)
        (get_claim : string -> string -> result ClaimSpec)
        (decode_devices : string -> result (gmap string (list string)))
        (delete_pod : DeleteRequest -> DeleteOutcome)
        (path_match : string -> string -> result bool)
        (compile_regexp : string -> result (string -> bool)).
Context (get_node : string -> result CachedNode)
        (find_events : string -> result (list StoredEvent))
        (decode_annotation : string -> result (list HealthEvent))
        (custom : option ((string -> result (bool * bool)) * (string -> result (bool * bool)))).
Context (i : Informers) (e : NodeDrainEvaluator).

Abbreviation seen_empty := (observed_empty snap get_claim decode_devices i).
Abbreviation get_action := (getAction snap get_claim decode_devices delete_pod i e).
Abbreviation evaluate := (EvaluateEventWithDatabase snap get_claim decode_devices delete_pod path_match
  compile_regexp get_node find_events decode_annotation custom i e).

(** The namespaces matching a pattern at the look numbered [n]. *)
Definition namespaces_at (n : nat) (pattern nodeName : string) : result (list string) :=
  (GetNamespacesMatchingPattern snap path_match compile_regexp {| reads := n; requests := [] |}
     pattern (SystemNamespaces (config e)) nodeName).1.

Lemma get_namespaces_at w pattern nodeName :
  GetNamespacesMatchingPattern snap path_match compile_regexp w pattern (SystemNamespaces (config e)) nodeName =
  (namespaces_at (reads w) pattern nodeName, {| reads := S (reads w); requests := requests w |}).
Proof. done. Qed.

Lemma hasRemainingPods_spec nss w nodeName entity f :
  let '(b, w') := hasRemainingPods snap get_claim decode_devices i w nss nodeName entity f in
  reads w <= reads w' /\ requests w' = requests w /\
  (b = false -> forall ns, ns ∈ nss -> seen_empty nodeName entity [f] w w' ns).
Proof.
  revert w. induction nss as [|ns nss IH]; intros w; simpl; [split; [lia|]; split; [done|]; set_solver|].
  destruct (evictable _ _ _ _ ns _ _ _) as [[|p ps]|er] eqn:He; simpl; [|split; [lia|done]..].
  specialize (IH {| reads := S (reads w); requests := requests w |}).
  destruct (hasRemainingPods _ _ _ _ _ nss _ _ _) as [b w']. destruct IH as (Hr & Hq & Hb). simpl in Hr.
  split; [lia|]. split; [done|]. intros Hf ns' [->|Hin]%elem_of_cons.
  - exists (reads w). split; [lia|done].
  - eapply observed_empty_weaken; [by apply Hb|simpl; lia|lia].
Qed.

(** One stage of [getAction]: [None] only when every namespace was seen empty. *)
Lemma stage_spec nss w nodeName entity (mk : DrainActionResult) :
  let '(a, w') :=
    match nss with
    | [] => (None, w)
    | _ => let '(remaining, w1) := hasRemainingPods snap get_claim decode_devices i w nss nodeName entity None in
           (if remaining then Some mk else None, w1)
    end in
  reads w <= reads w' /\ requests w' = requests w /\ (a = None \/ a = Some mk) /\
  (a = None -> forall ns, ns ∈ nss -> seen_empty nodeName entity [None] w w' ns).
Proof.
  destruct nss as [|ns0 nss0]; [split; [lia|]; split; [done|]; split; [by left|set_solver]|].
  pose proof (hasRemainingPods_spec (ns0 :: nss0) w nodeName entity None) as H.
  destruct (hasRemainingPods _ _ _ _ w (ns0 :: nss0) _ _ _) as [b w1]. destruct H as (Hr & Hq & Hb).
  split; [done|]. split; [done|]. destruct b; (split; [auto|]); [done|]. auto.
Qed.

Definition all_namespaces (ns : namespaces) : list string :=
  immediateEvictionNamespaces ns ++ deleteAfterTimeoutNamespaces ns ++ allowCompletionNamespaces ns.

Lemma getAction_spec w ns nodeName entity :
  let '(r, w') := get_action w ns nodeName entity in
  reads w <= reads w' /\
  (action r = ActionUpdateStatus -> Status r = StatusSucceeded /\
     forall n, n ∈ all_namespaces ns -> seen_empty nodeName entity [None] w w' n) /\
  (action r = ActionEvictWithTimeout -> deleteAfterTimeoutNamespaces ns <> []) /\
  (action r = ActionCheckCompletion -> allowCompletionNamespaces ns <> []) /\
  action r ∈ [ActionEvictImmediate; ActionEvictWithTimeout; ActionCheckCompletion; ActionUpdateStatus].
Proof.
  unfold getAction. set (timeout := EvictionTimeoutInSeconds (config e)).
  assert (H1 : let '(b, w1) :=
      match immediateEvictionNamespaces ns with
      | [] => (true, w)
      | nss => CheckIfAllPodsAreEvictedInImmediateMode snap get_claim decode_devices delete_pod i w nss
                 nodeName timeout entity [None]
      end in
    reads w <= reads w1 /\ (b = true -> forall n, n ∈ immediateEvictionNamespaces ns ->
      seen_empty nodeName entity [None] w w1 n)).
  { destruct (immediateEvictionNamespaces ns) as [|n0 ns0]; [split; [lia|set_solver]|].
    pose proof (immediate_check snap get_claim decode_devices delete_pod i nodeName entity [None] w
                  (n0 :: ns0) timeout) as H.
    destruct (CheckIfAllPodsAreEvictedInImmediateMode _ _ _ _ _ _ _ _ _ _ _) as [b w1]. naive_solver. }
  destruct (match immediateEvictionNamespaces ns with [] => _ | _ :: _ => _ end) as [b w1].
  destruct H1 as [Hr1 Hb]. destruct b; simpl; [|split; [lia|]; set_solver].
  pose proof (stage_spec (deleteAfterTimeoutNamespaces ns) w1 nodeName entity
    (evict ActionEvictWithTimeout (deleteAfterTimeoutNamespaces ns)
                (wrap_int64 (DeleteAfterTimeoutMinutes (config e) * Minute)) entity None)) as H2.
  unfold handleDeleteAfterTimeoutNamespaces.
  destruct (match deleteAfterTimeoutNamespaces ns with [] => _ | _ :: _ => _ end) as [a2 w2] eqn:E2.
  destruct H2 as (Hr2 & _ & Ha2 & Hn2). destruct a2 as [a2|].
  { destruct Ha2 as [|[= ->]]; [done|]. split; [lia|].
    assert (deleteAfterTimeoutNamespaces ns <> []) by by destruct (deleteAfterTimeoutNamespaces ns).
    set_solver. }
  pose proof (stage_spec (allowCompletionNamespaces ns) w2 nodeName entity
    (evict ActionCheckCompletion (allowCompletionNamespaces ns) 0 entity None)) as H3.
  unfold handleAllowCompletionNamespaces.
  destruct (match allowCompletionNamespaces ns with [] => _ | _ :: _ => _ end) as [a3 w3] eqn:E3.
  destruct H3 as (Hr3 & _ & Ha3 & Hn3). destruct a3 as [a3|].
  { destruct Ha3 as [|[= ->]]; [done|]. split; [lia|].
    assert (allowCompletionNamespaces ns <> []) by by destruct (allowCompletionNamespaces ns).
    set_solver. }
  split; [lia|]. split; [|set_solver]. intros _. split; [done|].
  unfold all_namespaces. intros n [Hn|[Hn|Hn]%elem_of_app]%elem_of_app.
  - eapply observed_empty_weaken; [by apply Hb|lia|lia].
  - eapply observed_empty_weaken; [by apply Hn2|lia|lia].
  - eapply observed_empty_weaken; [by apply Hn3|lia|lia].
Qed.

(** A mode the built-in path acts on. *)
Definition acted_on (force : bool) (un : UserNamespace) : bool :=
  force || (un_Mode un ==s ModeImmediateEvict) || (un_Mode un ==s ModeAllowCompletion)
  || (un_Mode un ==s ModeDeleteAfterTimeout).

Lemma mapUserNamespacesToMode_all ns force un matched n :
  n ∈ all_namespaces (mapUserNamespacesToMode ns force un matched) <->
  n ∈ all_namespaces ns \/ acted_on force un = true /\ n ∈ matched.
Proof.
  unfold mapUserNamespacesToMode, acted_on, all_namespaces.
  destruct force, (un_Mode un ==s ModeImmediateEvict), (un_Mode un ==s ModeAllowCompletion),
    (un_Mode un ==s ModeDeleteAfterTimeout); simpl; set_solver.
Qed.

Lemma collectNamespaces_spec uns w ns force nodeName :
  let '(r, w') := collectNamespaces snap path_match compile_regexp e w ns force uns nodeName in
  reads w <= reads w' /\ requests w' = requests w /\
  forall ns', r = Some ns' ->
    (forall n, n ∈ all_namespaces ns -> n ∈ all_namespaces ns') /\
    (forall un, un ∈ uns -> exists k matched, reads w <= k < reads w' /\
       namespaces_at k (un_Name un) nodeName = Ok matched /\
       (acted_on force un = true -> forall n, n ∈ matched -> n ∈ all_namespaces ns')) /\
    (force = true -> allowCompletionNamespaces ns' = allowCompletionNamespaces ns /\
                     deleteAfterTimeoutNamespaces ns' = deleteAfterTimeoutNamespaces ns).
Proof.
  revert w ns. induction uns as [|un uns IH]; intros w ns; cbn [collectNamespaces].
  { split; [lia|]. split; [done|]. intros ns' [= <-]. split; [done|]. split; [set_solver|done]. }
  rewrite get_namespaces_at. destruct (namespaces_at (reads w) (un_Name un) nodeName) as [matched|] eqn:Hm;
    [|split; [simpl; lia|]; done].
  specialize (IH {| reads := S (reads w); requests := requests w |} (mapUserNamespacesToMode ns force un matched)).
  destruct (collectNamespaces _ _ _ _ _ _ force uns nodeName) as [r w']. destruct IH as (Hr & Hq & Hall).
  simpl in Hr. split; [lia|]. split; [done|]. intros ns' ->. destruct (Hall ns' eq_refl) as (H1 & H2 & H3).
  split; [|split].
  - intros n Hn. apply H1, mapUserNamespacesToMode_all. by left.
  - intros un' [->|Hin]%elem_of_cons.
    + exists (reads w), matched. split; [lia|]. split; [done|]. intros Ha n Hn.
      apply H1, mapUserNamespacesToMode_all. by right.
    + destruct (H2 un' Hin) as (k & m & Hk & Hrest). exists k, m. split; [simpl in Hk; lia|done].
  - intros ->. destruct (H3 eq_refl) as [-> ->]. done.
Qed.

Lemma refreshSelected_spec nss w nodeName entity force :
  let '(r, w') := refreshSelected snap get_claim decode_devices path_match i e w nss nodeName entity force in
  reads w <= reads w' /\
  match r with
  | Ok a => action a = ActionWait \/ action a = ActionUpdateStatus /\ Status a = StatusSucceeded /\
      forall ns, ns ∈ nss -> seen_empty nodeName entity [Some (podModeFilter path_match e "" force)] w w' ns
  | Err _ => True
  end.
Proof.
  revert w. induction nss as [|ns nss IH]; intros w; simpl; [split; [lia|]; right; set_solver|].
  destruct (evictable _ _ _ _ ns _ _ _) as [[|p ps]|er] eqn:He; simpl; [|split; [lia|auto]..].
  specialize (IH {| reads := S (reads w); requests := requests w |}).
  destruct (refreshSelected _ _ _ _ _ _ _ nss _ _ _) as [r w']. destruct IH as (Hr & Ha). simpl in Hr.
  split; [lia|]. destruct r as [a|]; [|done]. destruct Ha as [|(H1 & H2 & H3)]; [by left|].
  right. split; [done|]. split; [done|]. intros ns' [->|Hin]%elem_of_cons.
  - exists (reads w). split; [lia|done].
  - eapply observed_empty_weaken; [by apply H3|simpl; lia|lia].
Qed.

(** With the force override every selected pod is in immediate mode. *)
Definition only_immediate (m : gmap string (list Pod)) : Prop :=
  forall mode pods, m !! mode = Some pods -> mode = ModeImmediateEvict.

Lemma addPodsByMode_force m pods :
  only_immediate m -> only_immediate (addPodsByMode path_match e true m pods).
Proof.
  unfold addPodsByMode. revert m. induction pods as [|p ps IH]; intros m Hm; simpl; [done|]. apply IH.
  destruct (Match path_match (podPolicies e) p); [|done].
  intros mode l. rewrite lookup_insert_Some. intros [[<- _]|[_ Hl]]; [done|by eapply Hm].
Qed.

Lemma listPodsByMode_spec nss w m nodeName entity force :
  let '(r, w') := listPodsByMode snap get_claim decode_devices path_match i e w m nss nodeName entity force in
  reads w <= reads w' /\
  forall m', r = Ok m' -> force = true -> only_immediate m -> only_immediate m'.
Proof.
  revert w m. induction nss as [|ns nss IH]; intros w m; simpl; [split; [lia|naive_solver]|].
  destruct (evictable _ _ _ _ ns _ _ _) as [pods|er]; simpl; [|split; [lia|done]].
  specialize (IH {| reads := S (reads w); requests := requests w |} (addPodsByMode path_match e force m pods)).
  destruct (listPodsByMode _ _ _ _ _ _ _ _ nss _ _ _) as [r w']. destruct IH as (Hr & Hm). simpl in Hr.
  split; [lia|]. intros m' Hr' -> Hi. apply (Hm m' Hr' eq_refl). by apply addPodsByMode_force.
Qed.

Lemma tryCandidates_spec cands w m nss nodeName entity force :
  let '(r, w') := tryCandidates snap get_claim decode_devices delete_pod path_match i e w cands m nss
                    nodeName entity force in
  reads w <= reads w' /\
  forall a, r = Some a -> exists mode act t, (mode, act, t) ∈ cands /\ action a = act /\ is_Some (m !! mode).
Proof.
  revert w. induction cands as [|[[mode act] t] cands IH]; intros w; simpl; [split; [lia|done]|].
  assert (Hweak : forall w1, reads w <= reads w1 ->
    let '(r, w') := tryCandidates snap get_claim decode_devices delete_pod path_match i e w1 cands m nss
                      nodeName entity force in
    reads w <= reads w' /\ forall a, r = Some a -> exists mode' act' t',
      (mode', act', t') ∈ (mode, act, t) :: cands /\ action a = act' /\ is_Some (m !! mode')).
  { intros w1 Hw1. specialize (IH w1). destruct (tryCandidates _ _ _ _ _ _ _ w1 cands _ _ _ _ _) as [r w'].
    destruct IH as [H1 H2]. split; [lia|]. intros a Ha. destruct (H2 a Ha) as (m' & c' & t' & Hin & Hrest).
    exists m', c', t'. split; [by right|done]. }
  destruct (m !! mode) as [[|p ps]|] eqn:Hm; simpl; [apply Hweak; lia| |apply Hweak; lia].
  assert (Hobs : let '(gone, w1) :=
      if mode ==s ModeImmediateEvict
      then CheckIfObservedPodsAreEvictedInImmediateMode snap get_claim decode_devices delete_pod i w
             nss nodeName t entity (p :: ps) [Some (podModeFilter path_match e mode force)]
      else (false, w) in reads w <= reads w1).
  { destruct (mode ==s ModeImmediateEvict); [|lia].
    pose proof (observed_check_spec snap get_claim decode_devices delete_pod i nodeName entity
      [Some (podModeFilter path_match e mode force)] w nss t (p :: ps) ltac:(done)) as H.
    destruct (CheckIfObservedPodsAreEvictedInImmediateMode _ _ _ _ _ _ _ _ _ _ _ _) as [b w1].
    destruct H as [H _]. lia. }
  destruct (if mode ==s ModeImmediateEvict then _ else _) as [gone w1].
  destruct gone; [by apply Hweak|]. split; [done|]. intros a [= <-].
  exists mode, act, t. split; [by left|]. split; [done|]. by rewrite Hm.
Qed.

Lemma policyCandidates_spec mode act t :
  (mode, act, t) ∈ policyCandidates e ->
  act <> ActionUpdateStatus /\ (mode = ModeImmediateEvict -> act = ActionEvictImmediate).
Proof.
  unfold policyCandidates. rewrite !elem_of_cons. intros [H|[H|[H|H]]]; [injection H as -> -> _; done..|].
  by apply not_elem_of_nil in H.
Qed.

Lemma evaluatePodPolicyActions_spec w he entity :
  let '(r, w') := evaluatePodPolicyActions snap get_claim decode_devices delete_pod path_match
                    compile_regexp i e w he entity in
  forall a, r = Ok a ->
  (action a = ActionUpdateStatus -> Status a = StatusSucceeded /\
     exists k matched, reads w <= k < reads w' /\ namespaces_at k "*" (NodeName (event he)) = Ok matched /\
       forall ns, ns ∈ matched ->
         seen_empty (NodeName (event he)) entity
           [Some (podModeFilter path_match e "" (forced (event he)))] w w' ns) /\
  (forced (event he) = true -> action a <> ActionEvictWithTimeout /\ action a <> ActionCheckCompletion).
Proof.
  unfold evaluatePodPolicyActions. rewrite get_namespaces_at.
  set (w1 := {| reads := S (reads w); requests := requests w |}).
  destruct (namespaces_at (reads w) "*" (NodeName (event he))) as [nss|] eqn:Hn; [|done].
  pose proof (listPodsByMode_spec nss w1 ∅ (NodeName (event he)) entity (forced (event he))) as H2.
  destruct (listPodsByMode _ _ _ _ _ _ _ _ nss _ _ _) as [[m|] w2]; [|done]. destruct H2 as [Hr2 Hm].
  pose proof (tryCandidates_spec (policyCandidates e) w2 m nss (NodeName (event he)) entity (forced (event he))) as H3.
  destruct (tryCandidates _ _ _ _ _ _ _ _ _ _ _ _ _ _) as [[c|] w3]; destruct H3 as [Hr3 Hc].
  - intros a [= <-]. destruct (Hc c eq_refl) as (mode & act & t & Hin & Hact & [pods Hpods]). split.
    + intros Hu. apply policyCandidates_spec in Hin as [Hne _]. congruence.
    + intros Hf. assert (Himm : mode = ModeImmediateEvict).
      { eapply (Hm m eq_refl Hf); [|exact Hpods]. intros ? ?. by rewrite lookup_empty. }
      apply policyCandidates_spec in Hin as [_ He]. rewrite Hact, (He Himm). done.
  - pose proof (refreshSelected_spec nss w3 (NodeName (event he)) entity (forced (event he))) as H4.
    destruct (refreshSelected _ _ _ _ _ _ _ nss _ _ _) as [r w4]. destruct H4 as [Hr4 Hr].
    intros a ->. destruct Hr as [Hw|(Hu & Hs & Hall)].
    + split; intros; rewrite Hw in *; done.
    + split; [|intros; rewrite Hu; done]. intros _. split; [done|].
      simpl in Hr2. exists (reads w), nss. split; [lia|]. split; [done|]. intros ns Hns.
      eapply observed_empty_weaken; [by apply Hall|lia|lia].
Qed.

(** What a completed drain has seen: without policies, every namespace matched
    by a configured entry with a known mode; with policies, every namespace,
    as far as the selected pods go. *)
Definition drain_observed (w w' : World) (he : HealthEventWithStatus) (entity : option Entity) : Prop :=
  let nodeName := NodeName (event he) in
  if (0 <? length (PodDrainPolicies (config e)))%nat then
    exists k matched, reads w <= k < reads w' /\ namespaces_at k "*" nodeName = Ok matched /\
      forall ns, ns ∈ matched ->
        seen_empty nodeName entity [Some (podModeFilter path_match e "" (forced (event he)))] w w' ns
  else
    forall un, un ∈ UserNamespaces (config e) -> exists k matched, reads w <= k < reads w' /\
      namespaces_at k (un_Name un) nodeName = Ok matched /\
      (acted_on (forced (event he)) un = true ->
       forall ns, ns ∈ matched -> seen_empty nodeName entity [None] w w' ns).

Lemma evaluateUserNamespaceActions_spec w he entity :
  let '(r, w') := evaluateUserNamespaceActions snap get_claim decode_devices delete_pod path_match
                    compile_regexp i e w he entity in
  forall a, r = Ok a ->
  (action a = ActionUpdateStatus -> Status a = StatusSucceeded /\ drain_observed w w' he entity) /\
  (forced (event he) = true -> action a <> ActionEvictWithTimeout /\ action a <> ActionCheckCompletion).
Proof.
  unfold evaluateUserNamespaceActions, drain_observed.
  destruct (0 <? length (PodDrainPolicies (config e)))%nat; [apply evaluatePodPolicyActions_spec|].
  set (none := {| immediateEvictionNamespaces := [] |}).
  pose proof (collectNamespaces_spec (UserNamespaces (config e)) w none (forced (event he)) (NodeName (event he))) as H1.
  destruct (collectNamespaces _ _ _ _ w none _ _ _) as [[ns|] w1]; destruct H1 as (Hr1 & _ & Hns).
  2:{ intros a [= <-]. done. }
  destruct (Hns ns eq_refl) as (_ & Hun & Hforce).
  pose proof (getAction_spec w1 ns (NodeName (event he)) entity) as H2.
  destruct (get_action w1 ns _ entity) as [a w2]. destruct H2 as (Hr2 & Hup & Ht & Hc & _).
  intros a' [= <-]. split.
  - intros Hu. destruct (Hup Hu) as [Hs Hall]. split; [done|]. intros un Hin.
    destruct (Hun un Hin) as (k & matched & Hk & Hm & Hin'). exists k, matched. split; [lia|].
    split; [done|]. intros Ha n Hn. eapply observed_empty_weaken; [by apply Hall, Hin'|lia|lia].
  - intros Hf. destruct (Hforce Hf) as [Hac Hdt]. simpl in Hac, Hdt.
    split; intros Hbad; [by apply Ht in Hbad|by apply Hc in Hbad].
Qed.

(** C4 (completion).  The evaluator reports a drain as succeeded only if, during
    that evaluation, a look found nothing left to evict on the node, for the entity
    of a partial drain or for the whole node: with user namespaces, in every
    namespace that matches an entry whose mode the evaluator acts on (a known mode,
    or any under the force override), and with pod policies, among the pods they
    select.  Nothing is claimed of an entry with an unknown mode, which the
    validation lets through: [DrainDemo.unknown_mode_drains_nothing]. *)
Theorem evaluate_succeeded_sound (w w' : World) (he : HealthEventWithStatus) (r : DrainActionResult) :
  evaluate w he = (Ok r, w') -> action r = ActionUpdateStatus -> Status r <> StatusFailed ->
  exists entity, PartialDrainEntity (event he) (PartialDrainEnabled (config e)) = Ok entity /\
    Status r = StatusSucceeded /\ drain_observed w w' he entity.
Proof.
  intros He Ha Hs. unfold EvaluateEventWithDatabase in He.
  destruct (checkPreconditions he) as [r0|] eqn:Hp.
  { injection He as -> <-. exfalso. unfold checkPreconditions in Hp. repeat case_match; simplify_eq. }
  destruct (PartialDrainEntity (event he) _) as [entity|] eqn:Hpe; [|injection He as <- <-; done].
  exists entity. split; [done|].
  assert (Huser : forall a w2, evaluateUserNamespaceActions snap get_claim decode_devices delete_pod
    path_match compile_regexp i e w he entity = (Ok a, w2) -> action a = ActionUpdateStatus ->
    Status a = StatusSucceeded /\ drain_observed w w2 he entity).
  { intros a w2 Hev Hact. pose proof (evaluateUserNamespaceActions_spec w he entity) as H.
    rewrite Hev in H. by apply (H a eq_refl). }
  destruct (handleAlreadyQuarantined _ _ _ _ _ _ _) as [r1|] eqn:Hq.
  { injection He as -> <-. exfalso. unfold handleAlreadyQuarantined in Hq. repeat case_match; simplify_eq. }
  destruct (shouldUseCustomDrain _ _ _ _) as [[] [retry|]] eqn:Hc.
  1,3: injection He as -> <-; exfalso; unfold shouldUseCustomDrain in Hc; repeat case_match; simplify_eq.
  - destruct custom as [[ex gs]|]; [|by apply Huser]. exfalso. unfold evaluateCustomDrain in He.
    repeat case_match; simplify_eq.
  - by apply Huser.
Qed.

(** For an event with the force override the evaluator never waits
    for completion or for a deadline: the only evictions it asks for are
    immediate ones. *)
Theorem evaluate_force_immediate (w w' : World) (he : HealthEventWithStatus) (r : DrainActionResult) :
  evaluate w he = (Ok r, w') -> forced (event he) = true ->
  action r <> ActionEvictWithTimeout /\ action r <> ActionCheckCompletion.
Proof.
  intros He Hf. unfold EvaluateEventWithDatabase in He.
  destruct (checkPreconditions he) as [r0|] eqn:Hp.
  { injection He as -> <-. unfold checkPreconditions in Hp. repeat case_match; simplify_eq; done. }
  destruct (PartialDrainEntity (event he) _) as [entity|] eqn:Hpe; [|injection He as <- <-; done].
  pose proof (evaluateUserNamespaceActions_spec w he entity) as H.
  destruct (handleAlreadyQuarantined _ _ _ _ _ _ _) as [r1|] eqn:Hq.
  { injection He as -> <-. unfold handleAlreadyQuarantined in Hq. repeat case_match; simplify_eq; done. }
  destruct (shouldUseCustomDrain _ _ _ _) as [[] [retry|]] eqn:Hc.
  1,3: injection He as -> <-; unfold shouldUseCustomDrain in Hc; repeat case_match; simplify_eq; done.
  - destruct custom as [[ex gs]|].
    + unfold evaluateCustomDrain in He. repeat case_match; simplify_eq; done.
    + rewrite He in H. by apply (H r eq_refl).
  - rewrite He in H. by apply (H r eq_refl).
Qed.

(** The event still has to be drained: the node is quarantined, no terminal
    status is recorded, and neither the event nor an override says otherwise. *)
Definition drain_due (he : HealthEventWithStatus) : Prop :=
  exists st s, status he = Some st /\ NodeQuarantined st <> ""%string /\
    NodeQuarantined st <> UnQuarantined /\ UserPodsEvictionStatus st = Some s /\
    s ∉ [StatusSucceeded; StatusFailed; Cancelled; AlreadyDrained] /\
    IsHealthy (event he) = false /\ wasSkipped (event he) = false.

Lemma checkPreconditions_due he : checkPreconditions he = None <-> drain_due he.
Proof.
  unfold checkPreconditions, drain_due. split.
  - destruct (status he) as [st|]; [|done]. destruct (_ || _) eqn:Hq; [done|].
    destruct (UserPodsEvictionStatus st) as [s|] eqn:Hs; [|done].
    destruct (isTerminalStatus s) eqn:Ht; [done|]. destruct (IsHealthy (event he)) eqn:Hh; [done|].
    destruct (wasSkipped (event he)) eqn:Hw; [done|]. intros _. exists st, s.
    unfold isTerminalStatus in Ht. to_prop. rewrite !not_elem_of_cons. split; [done|].
    repeat (split; [done|]). split; [|done]. repeat (split; [done|]). apply not_elem_of_nil.
  - intros (st & s & -> & H1 & H2 & -> & H3 & -> & ->).
    rewrite (proj2 (go_eqb_false _ _) H1), (proj2 (go_eqb_false _ _) H2). simpl.
    rewrite !not_elem_of_cons in H3. destruct H3 as (T1 & T2 & T3 & T4 & _). unfold isTerminalStatus.
    by rewrite (proj2 (go_eqb_false _ _) T1), (proj2 (go_eqb_false _ _) T2), (proj2 (go_eqb_false _ _) T3),
      (proj2 (go_eqb_false _ _) T4).
Qed.

(** An event that is not due for draining (node not quarantined, a
    terminal eviction status, a recovery, a skip override, or no status at all)
    is answered without a look at the cache and without a request to the API
    server, with skip, wait or mark-as-drained; an eviction, a deletion or a
    custom drain is only ever asked for an event that is due. *)
Theorem evaluate_guarded (w : World) (he : HealthEventWithStatus) :
  ~ drain_due he ->
  (evaluate w he).2 = w /\
  exists r, (evaluate w he).1 = Ok r /\
    action r ∈ [ActionSkip; ActionWait; ActionMarkAlreadyDrained].
Proof.
  rewrite <- checkPreconditions_due. intros Hn. unfold EvaluateEventWithDatabase.
  destruct (checkPreconditions he) as [r|] eqn:Hp; [|done]. split; [done|]. exists r. split; [done|].
  unfold checkPreconditions in Hp. repeat case_match; simplify_eq; simpl; set_solver.
Qed.

(** The built-in path never reuses another drain. *)
Lemma built_in_never_marks w w2 he entity a :
  evaluateUserNamespaceActions snap get_claim decode_devices delete_pod path_match compile_regexp i e
    w he entity = (Ok a, w2) -> action a <> ActionMarkAlreadyDrained.
Proof.
  unfold evaluateUserNamespaceActions. destruct (0 <? _)%nat.
  - unfold evaluatePodPolicyActions. rewrite get_namespaces_at.
    destruct (namespaces_at _ _ _) as [nss|]; [|done].
    destruct (listPodsByMode _ _ _ _ _ _ _ _ nss _ _ _) as [[m|] w3]; [|done].
    pose proof (tryCandidates_spec (policyCandidates e) w3 m nss (NodeName (event he)) entity (forced (event he))) as H3.
    destruct (tryCandidates _ _ _ _ _ _ _ _ _ _ _ _ _ _) as [[c|] w4]; destruct H3 as [_ Hc].
    + intros [= <- _]. destruct (Hc c eq_refl) as (mode & act & t & Hin & -> & _).
      unfold policyCandidates in Hin. rewrite !elem_of_cons in Hin.
      destruct Hin as [H|[H|[H|H]]]; [injection H as -> -> _; done..|by apply not_elem_of_nil in H].
    + pose proof (refreshSelected_spec nss w4 (NodeName (event he)) entity (forced (event he))) as H4.
      destruct (refreshSelected _ _ _ _ _ _ _ nss _ _ _) as [rr w5]. destruct H4 as [_ Hr].
      intros [= -> _]. destruct Hr as [->|[-> _]]; done.
  - destruct (collectNamespaces _ _ _ _ _ _ _ _ _) as [[ns|] w1]; [|by intros [= <- _]].
    pose proof (getAction_spec w1 ns (NodeName (event he)) entity) as H2.
    destruct (get_action w1 ns _ entity) as [a2 w2']. destruct H2 as (_ & _ & _ & _ & Hin).
    intros [= <- _]. rewrite !elem_of_cons in Hin. intros Hbad. rewrite Hbad in Hin.
    destruct Hin as [H|[H|[H|[H|H]]]]; [done..|by apply not_elem_of_nil in H].
Qed.

Context {MRL : MapRangeLaws}.

(** C32 (reuse).  On the built-in path, a due event is marked as already drained
    only if it reports an already quarantined node and another event of the
    node's quarantine annotation has a recorded drain that covers its entity. *)
Theorem evaluate_already_drained_sound (w w' : World) (he : HealthEventWithStatus) (r : DrainActionResult) :
  custom = None -> drain_due he ->
  evaluate w he = (Ok r, w') -> action r = ActionMarkAlreadyDrained ->
  exists entity node text decoded other,
    PartialDrainEntity (event he) (PartialDrainEnabled (config e)) = Ok entity /\
    get_node (NodeName (event he)) = Ok node /\
    node_Annotations node !! QuarantineHealthEventAnnotationKey = Some text /\
    decode_annotation text = Ok decoded /\ other ∈ decoded /\ Id other <> Id (event he) /\
    drain_proof find_events entity (PartialDrainEnabled (config e)) (Id other).
Proof.
  intros Hcu Hdue%checkPreconditions_due He Ha. unfold EvaluateEventWithDatabase in He. rewrite Hdue in He.
  destruct (PartialDrainEntity (event he) _) as [entity|] eqn:Hpe; [|injection He as <- <-; done].
  destruct (handleAlreadyQuarantined _ _ _ _ _ _ _) as [r1|] eqn:Hq.
  2:{ unfold shouldUseCustomDrain in He. rewrite Hcu in He. by apply built_in_never_marks in He. }
  injection He as -> <-. unfold handleAlreadyQuarantined in Hq.
  destruct (_ <>s AlreadyQuarantined); [done|].
  unfold isNodeAlreadyDrained in Hq. destruct (get_node _) as [node|] eqn:Hnode; [|by injection Hq as <-].
  destruct (node_Annotations node !! _) as [text|] eqn:Htext; [|by injection Hq as <-].
  destruct (decode_annotation text) as [decoded|] eqn:Hdec; [|by injection Hq as <-].
  destruct (IsNodeDrained _ _ _ _ _ _) as [d|] eqn:Hd; [|by injection Hq as <-].
  destruct d; [|done]. apply IsNodeDrained_answer in Hd.
  destruct (proj1 Hd eq_refl) as (oe & id & Hin & (other & -> & <- & _ & Hne) & Hproof).
  exists entity, node, text, decoded, other. do 4 (split; [done|]). split; [|done].
  apply list_elem_of_fmap in Hin as (he' & [= <-] & Hin).
  apply list_elem_of_In, filter_In in Hin as [Hin _]. apply in_map_iff in Hin as ([k ref] & <- & Hin).
  apply list_elem_of_In, elem_of_range in Hin.
  pose proof (UnmarshalJSON_lookup (NewHealthEventsAnnotationMap 0) decoded k) as Hl.
  rewrite Hin in Hl. by destruct Hl.
Qed.

End completion.

(** Configuration.  Every configuration the drainer accepts builds an
    evaluator; in it the two timeouts given in minutes (after which a pod is deleted,
    and after which it counts as not ready) are positive, 60 and 5 when not
    configured, while the eviction timeout in seconds is kept as given, unchecked;
    user namespaces and pod policies are not mixed, and a node selector for the
    custom drain comes with a built-in path, so that a node outside the selector is
    never marked as drained for lack of anything to evict. *)
Theorem validated_config_builds (parse : string -> result Selector)
    (path_match : string -> string -> result bool) (cfg cfg' : TomlConfig) :
  validateAndSetDefaults parse path_match cfg = Ok cfg' ->
  exists ev, NewNodeDrainEvaluator parse path_match cfg' = Ok ev /\ config ev = cfg' /\
    (0 < DeleteAfterTimeoutMinutes cfg')%Z /\ (0 < NotReadyTimeoutMinutes cfg')%Z /\
    EvictionTimeoutInSeconds cfg' = EvictionTimeoutInSeconds cfg /\
    DeleteAfterTimeoutMinutes cfg' = (if (DeleteAfterTimeoutMinutes cfg =? 0)%Z then 60 else DeleteAfterTimeoutMinutes cfg)%Z /\
    NotReadyTimeoutMinutes cfg' = (if (NotReadyTimeoutMinutes cfg =? 0)%Z then 5 else NotReadyTimeoutMinutes cfg)%Z /\
    (UserNamespaces cfg' = [] \/ PodDrainPolicies cfg' = []) /\
    (Enabled (CustomDrain cfg') = true -> scoped (customDrainNodes ev) = true ->
     UserNamespaces cfg' <> [] \/ PodDrainPolicies cfg' <> []).
Proof.
  intros Hv. destruct (validateAndSetDefaults_keeps _ _ _ _ Hv) as (K1 & K2 & K3).
  apply validateAndSetDefaults_checked in Hv as [H1 H2 H3 [mp Hp] (mc & Hc & Hs)]. unfold NewNodeDrainEvaluator. rewrite Hp, Hc. simpl. eexists. split; [done|]. split; [done|].
  do 6 (split; [done|]). simpl. intros He Hsc. specialize (Hs He). by rewrite Hsc in Hs.
Qed.

(** ** A concrete drain *)

Module DrainDemo.

#[local] Existing Instance list_range.
#[local] Existing Instance list_range_laws.

(** Selectors that ask for the presence of one label. *)
Definition parse (s : string) : result Selector :=
  Ok {| Requirements := [s]; Matches_ := fun l => bool_decide (is_Some (l !! s)) |}.

#[local] Instance parse_laws : SelectorLaws parse.
Proof.
  split.
  - intros s sel l1 l2 [= <-] H. simpl in *. by rewrite (H s) by by left.
  - by intros s sel l [= <-].
Qed.

Definition path_match (pattern name : string) : result bool :=
  Ok ((pattern ==s "*") || (pattern ==s name)).
Definition compile_regexp (p : string) : result (string -> bool) := Ok (fun s => s ==s p).
Definition get_claim (ns name : string) : result ClaimSpec := Err "not found".
Definition decode_devices (s : string) : result (gmap string (list string)) := Err "invalid".
Definition delete_pod (r : DeleteRequest) : DeleteOutcome := Deleted.

Definition job : Pod :=
  {| pod_Name := "job-0"; pod_Namespace := "train"; pod_UID := "u1"; pod_ResourceVersion := "7";
     pod_Labels := {["team" := "a"%string]}; pod_Annotations := ∅;
     OwnerReferences := [{| Kind := "Job"; Controller := Some true |}];
     DeletionTimestamp := None; SpecNodeName := "n1"; TerminationGracePeriodSeconds := None;
     Containers := []; InitContainers := []; ResourceClaims := []; Phase := "Running";
     Conditions := [{| cond_Type := "Initialized"; cond_Status := "True"; LastTransitionTime := 0 |}];
     ResourceClaimStatuses := [] |}.

(** The job is on the node for the first two looks. *)
Definition snap (n : nat) : Snapshot :=
  {| cached := if (n <? 2)%nat then [job] else []; now := Z.of_nat n * Second |}.
Definition busy (n : nat) : Snapshot := {| cached := [job]; now := Z.of_nat n * Hour |}.

Definition i : Informers := {| notReadyTimeoutMinutes := Some 5%Z; drainGPUPods := false; dryRun := false |}.

Definition no_custom : CustomDrainConfig :=
  {| Enabled := false; NodeSelector := ""; TemplateMountPath := ""; TemplateFileName := "";
     cd_Namespace := ""; cd_Timeout := 0; ApiGroup := ""; cd_Version := ""; cd_Kind := "";
     StatusConditionType := ""; StatusConditionStatus := "" |}.

Definition cfg (mode : string) : TomlConfig :=
  {| EvictionTimeoutInSeconds := 60 * Second; SystemNamespaces := "kube-system";
     DeleteAfterTimeoutMinutes := 0; NotReadyTimeoutMinutes := 0; DrainGPUPods := false;
     UserNamespaces := [{| un_Name := "*"; un_Mode := mode |}]; PodDrainPolicies := [];
     CustomDrain := no_custom; PartialDrainEnabled := true |}.

Definition checked_cfg (mode : string) : TomlConfig := with_checked (cfg mode) no_custom 60 5.

Definition ev (mode : string) : NodeDrainEvaluator :=
  {| config := checked_cfg mode; podPolicies := {| policies := []; labelKeys := [] |};
     customDrainNodes :=
       {| enabled := false; scoped := false; selector := Everything; node_labelKeys := [] |} |}.

Definition fault (id : string) (overrides : option BehaviourOverrides) (healthy : bool) : HealthEvent :=
  {| Version := 1; Agent := "syslog"; ComponentClass := "GPU"; CheckName := "xid"; IsFatal := true;
     IsHealthy := healthy; Message := ""; Action := RESTART_BM; ErrorCode := []; EntitiesImpacted := [];
     Metadata := ∅; GeneratedSeconds := None; NodeName := "n1"; QuarantineOverrides := None;
     DrainOverrides := overrides; Strategy := EXECUTE_REMEDIATION; Id := id; CustomRecommendedAction := "" |}.

Definition pending (q : string) (he : HealthEvent) : HealthEventWithStatus :=
  {| event := he; status := Some {| NodeQuarantined := q; UserPodsEvictionStatus := Some "InProgress"%string |} |}.

Definition node1 : CachedNode :=
  {| node_Annotations := {[QuarantineHealthEventAnnotationKey := "[...]"%string]}; node_Labels := ∅ |}.
Definition get_node (n : string) : result CachedNode := Ok node1.
Definition decode_annotation (s : string) : result (list HealthEvent) := Ok [fault "e0" None false].
Definition find_events (id : string) : result (list StoredEvent) :=
  Ok [{| evictionStatus := StatusSucceeded; stored_event := Ok (fault id None false) |}].

Abbreviation evaluate sn mode :=
  (EvaluateEventWithDatabase sn get_claim decode_devices delete_pod path_match compile_regexp get_node
     find_events decode_annotation None i (ev mode)).

Definition w0 : World := {| reads := 0; requests := [] |}.
Definition w2 : World := {| reads := 2; requests := [] |}.

(** With the job on the node its eviction is asked for; once it is gone the
    drain has succeeded. *)
Example drain_starts :
  action <$> (match (evaluate snap "Immediate" w0 (pending "Quarantined" (fault "e1" None false))).1 with
              | Ok r => Some r | Err _ => None end) = Some ActionEvictImmediate.
Proof. vm_compute. reflexivity. Qed.

Lemma succeeded_run :
  evaluate snap "Immediate" w2 (pending "Quarantined" (fault "e1" None false)) =
  (Ok (with_status ActionUpdateStatus StatusSucceeded), {| reads := 3; requests := [] |}).
Proof. vm_compute. reflexivity. Qed.

Lemma evaluate_succeeded_sound_witness :
  exists entity, PartialDrainEntity (fault "e1" None false) true = Ok entity /\
    StatusSucceeded = StatusSucceeded /\
    drain_observed snap get_claim decode_devices path_match compile_regexp i (ev "Immediate") w2
      {| reads := 3; requests := [] |} (pending "Quarantined" (fault "e1" None false)) entity.
Proof.
  exact (evaluate_succeeded_sound snap get_claim decode_devices delete_pod path_match compile_regexp get_node
    find_events decode_annotation None i (ev "Immediate") w2 {| reads := 3; requests := [] |}
    (pending "Quarantined" (fault "e1" None false)) (with_status ActionUpdateStatus StatusSucceeded)
    succeeded_run eq_refl ltac:(discriminate)).
Defined.

Definition force := Some {| Force := true; Skip := false |}.

Lemma forced_run :
  evaluate busy "AllowCompletion" w0 (pending "Quarantined" (fault "e1" force false)) =
  (Ok (evict ActionEvictImmediate ["train"%string] (60 * Second) None None), {| reads := 3; requests := [] |}).
Proof. vm_compute. reflexivity. Qed.

Lemma evaluate_force_immediate_witness :
  ActionEvictImmediate <> ActionEvictWithTimeout /\ ActionEvictImmediate <> ActionCheckCompletion.
Proof.
  exact (evaluate_force_immediate busy get_claim decode_devices delete_pod path_match compile_regexp get_node
    find_events decode_annotation None i (ev "AllowCompletion") w0 {| reads := 3; requests := [] |}
    (pending "Quarantined" (fault "e1" force false))
    (evict ActionEvictImmediate ["train"%string] (60 * Second) None None) forced_run eq_refl).
Defined.

Lemma recovered_not_due : ~ drain_due (pending "Quarantined" (fault "e1" None true)).
Proof. by intros (st & s & _ & _ & _ & _ & _ & H & _). Qed.

Lemma evaluate_guarded_witness :
  (evaluate busy "Immediate" w0 (pending "Quarantined" (fault "e1" None true))).2 = w0.
Proof.
  exact (proj1 (evaluate_guarded busy get_claim decode_devices delete_pod path_match compile_regexp get_node
    find_events decode_annotation None i (ev "Immediate") w0 (pending "Quarantined" (fault "e1" None true))
    recovered_not_due)).
Defined.

Lemma due : drain_due (pending "AlreadyQuarantined" (fault "e1" None false)).
Proof. apply checkPreconditions_due. reflexivity. Qed.

Lemma already_run :
  evaluate busy "Immediate" w0 (pending "AlreadyQuarantined" (fault "e1" None false)) =
  (Ok (with_status ActionMarkAlreadyDrained AlreadyDrained), w0).
Proof. vm_compute. reflexivity. Qed.

Lemma evaluate_already_drained_sound_witness :
  exists entity node text decoded other,
    PartialDrainEntity (fault "e1" None false) true = Ok entity /\ get_node "n1" = Ok node /\
    node_Annotations node !! QuarantineHealthEventAnnotationKey = Some text /\
    decode_annotation text = Ok decoded /\ other ∈ decoded /\ Id other <> "e1"%string /\
    drain_proof find_events entity true (Id other).
Proof.
  exact (evaluate_already_drained_sound busy get_claim decode_devices delete_pod path_match compile_regexp
    get_node find_events decode_annotation None i (ev "Immediate") w0 w0
    (pending "AlreadyQuarantined" (fault "e1" None false)) (with_status ActionMarkAlreadyDrained AlreadyDrained)
    eq_refl due already_run eq_refl).
Defined.

Lemma validated_config_builds_witness :
  exists e, NewNodeDrainEvaluator parse path_match (checked_cfg "Immediate") = Ok e /\
    config e = checked_cfg "Immediate" /\ (0 < 60)%Z /\ (0 < 5)%Z /\
    (60 * Second)%Z = (60 * Second)%Z /\ 60%Z = 60%Z /\ 5%Z = 5%Z /\
    (UserNamespaces (checked_cfg "Immediate") = [] \/ PodDrainPolicies (checked_cfg "Immediate") = []) /\
    (false = true -> scoped (customDrainNodes e) = true ->
     UserNamespaces (checked_cfg "Immediate") <> [] \/ PodDrainPolicies (checked_cfg "Immediate") <> []).
Proof.
  exact (validated_config_builds parse path_match (cfg "Immediate") (checked_cfg "Immediate")
    ltac:(vm_compute; reflexivity)).
Defined.

(** A user namespace with a mode the drainer does not know
    passes the validation, and its namespaces are then left out of the drain:
    the job is still there when the drain has succeeded. *)
Example unknown_mode_drains_nothing :
  validateAndSetDefaults parse path_match (cfg "immediate") = Ok (checked_cfg "immediate") /\
  evaluate busy "immediate" w0 (pending "Quarantined" (fault "e1" None false)) =
  (Ok (with_status ActionUpdateStatus StatusSucceeded), {| reads := 1; requests := [] |}).
Proof. split; vm_compute; reflexivity. Qed.

Definition policy : PodDrainPolicy :=
  {| pol_Name := "team"; pol_Namespace := ""; PodSelector := "team"; OwnerKinds := ["Job"%string];
     pol_Mode := "Immediate" |}.
Definition matcher : PodPolicyMatcher :=
  {| policies := [{| c_namespace := "*";
                     c_selector := {| Requirements := ["team"%string];
                                      Matches_ := fun l => bool_decide (is_Some (l !! "team"%string)) |};
                     c_ownerKinds := Some (list_to_set ["Job"%string]); c_mode := "Immediate" |}];
     labelKeys := ["team"%string] |}.

Lemma policy_match_on_cached_pod_witness :
  Match path_match matcher (drainEligiblePodCacheObject ["team"%string] job) = Match path_match matcher job.
Proof.
  exact (policy_match_on_cached_pod parse path_match [policy] matcher job ltac:(vm_compute; reflexivity)).
Defined.

(** The cached version of the job has lost a condition. *)
Example trimmed : Conditions (drainEligiblePodCacheObject [] job) = [].
Proof. reflexivity. Qed.

Lemma pod_cache_transparent_witness :
  evictable get_claim decode_devices i
    {| cached := map (excludedPodTransform None []) [job]; now := 0 |} "train" "n1" None [None] =
  rmap_list (drainEligiblePodCacheObject [])
    (evictable get_claim decode_devices i {| cached := [job]; now := 0 |} "train" "n1" None [None]).
Proof.
  exact (pod_cache_transparent get_claim decode_devices i [] None [job] 0 "train" "n1" None [None]
    ltac:(repeat constructor) I ltac:(vm_compute; repeat split; discriminate)
    ltac:(intros p Hp; apply list_elem_of_singleton in Hp; subst p; vm_compute; repeat split; discriminate)).
Defined.

Lemma DeletePodsAfterTimeout_witness :
  let '(er, w') := DeletePodsAfterTimeout busy get_claim decode_devices delete_pod i w0 "n1"
                     ["train"%string] 60 (- Hour) None [] in
  (er = None -> requested w0 w' [] /\ forall ns, ns ∈ ["train"%string] ->
     observed_empty busy get_claim decode_devices i "n1" None [] w0 w' ns) /\
  exists reqs, requested w0 w' reqs /\
    (reqs = [] \/
     (60 * Minute <= time_sub (now (busy 0)) (- Hour))%Z /\
     exists pods, reqs = map (forceDeletion i) pods /\
       forall p, p ∈ pods -> observed busy get_claim decode_devices i "n1" None [] w0 w' ["train"%string] p).
Proof.
  exact (DeletePodsAfterTimeout_spec busy get_claim decode_devices delete_pod i "n1" None [] w0
    ["train"%string] 60 (- Hour) ltac:(vm_compute; split; discriminate) ltac:(vm_compute; split; discriminate)).
Defined.

End DrainDemo.
