(* ===== verification/XidBurst.v ===== *)
(** * Detection of XID bursts

    Models [health-events-analyzer/pkg/analyzer/xid_burst_detector.go]: per node
    and GPU, the history of XID errors inside a lookback window is cut into
    bursts, and an error whose code occurs in enough bursts triggers.  The lock
    makes every operation one step.  [json.Unmarshal] of a pipeline stage is a
    parameter that yields a JSON value; the entries of an object are listed in
    the order in which Go visits them. *)

From stdpp Require Import gmap strings list fin_maps.
From Stdlib Require Import ZArith Lia.
From S2P Require Import Prelude GoFloat HealthEvent.

#[local] Open Scope nat_scope.

(** ** State *)

Record XidBurstDetectorConfig := {
  BurstWindow : Z;
  StickyWindow : Z;
  LookbackWindow : Z;
  BurstThreshold : Z;
}.

Record XidEvent := { timestamp : Z; errorCode : string; gpuIDs : list string }.

Record Burst := { startTime : Z; burst_events : list XidEvent; xidCodes : gset string }.

Record XidBurstDetector := {
  nodeEvents : gmap string (gmap string (list XidEvent));
  burstWindow : Z;
  stickyWindow : Z;
  lookbackWindow : Z;
  burstThreshold : Z;
  stickyXids : gset string;
}.

Definition unknownGPUKey : string := "".

Definition DefaultXidBurstDetectorConfig : XidBurstDetectorConfig :=
  {| BurstWindow := 3 * Minute; StickyWindow := 3 * Hour; LookbackWindow := 24 * Hour;
     BurstThreshold := 5 |}.

Definition NewXidBurstDetectorWithConfig (cfg : XidBurstDetectorConfig) : XidBurstDetector :=
  {| nodeEvents := ∅; burstWindow := BurstWindow cfg; stickyWindow := StickyWindow cfg;
     lookbackWindow := LookbackWindow cfg; burstThreshold := BurstThreshold cfg;
     stickyXids := list_to_set ["74"; "79"; "95"; "109"; "119"]%string |}.

Definition with_nodeEvents (d : XidBurstDetector) (m : gmap string (gmap string (list XidEvent))) :
    XidBurstDetector :=
  {| nodeEvents := m; burstWindow := burstWindow d; stickyWindow := stickyWindow d;
     lookbackWindow := lookbackWindow d; burstThreshold := burstThreshold d; stickyXids := stickyXids d |}.

(** ** Bursts *)

Definition is_sticky (d : XidBurstDetector) (e : XidEvent) : bool := bool_decide (errorCode e ∈ stickyXids d).

(** The previous events come most recent first, as [slices.Backward] visits
    them. *)
Fixpoint sticky_before (d : XidBurstDetector) (event : XidEvent) (backward : list XidEvent) : bool :=
  match backward with
  | [] => false
  | prev :: rest =>
      if (stickyWindow d <? time_sub (timestamp event) (timestamp prev))%Z then false
      else if is_sticky d prev then true
      else sticky_before d event rest
  end.

Definition isStickyXidContinuation (d : XidBurstDetector) (event : XidEvent) (backward : list XidEvent) : bool :=
  if negb (is_sticky d event) then false else sticky_before d event backward.

Definition shouldStartNewBurst (d : XidBurstDetector) (event prevEvent : XidEvent) (backward : list XidEvent) : bool :=
  if (burstWindow d <? time_sub (timestamp event) (timestamp prevEvent))%Z
  then negb (isStickyXidContinuation d event backward) else false.

Definition emptyBurst (t : Z) : Burst := {| startTime := t; burst_events := []; xidCodes := ∅ |}.

Definition addEvent (b : Burst) (event : XidEvent) : Burst :=
  {| startTime := startTime b; burst_events := burst_events b ++ [event];
     xidCodes := {[errorCode event]} ∪ xidCodes b |}.

Definition hasXid (b : Burst) (xidCode : string) : bool := bool_decide (xidCode ∈ xidCodes b).

(** The loop, with the events already visited most recent first. *)
Fixpoint detect_loop (d : XidBurstDetector) (targetXid : string) (backward : list XidEvent)
    (bursts : list Burst) (currentBurst : Burst) (events : list XidEvent) : list Burst :=
  match events with
  | [] => if hasXid currentBurst targetXid then bursts ++ [currentBurst] else bursts
  | event :: rest =>
      let start :=
        match backward with
        | [] => false
        | prevEvent :: _ => shouldStartNewBurst d event prevEvent backward
        end in
      if start then
        detect_loop d targetXid (event :: backward)
          (if hasXid currentBurst targetXid then bursts ++ [currentBurst] else bursts)
          (addEvent (emptyBurst (timestamp event)) event) rest
      else detect_loop d targetXid (event :: backward) bursts (addEvent currentBurst event) rest
  end.

Definition detectBursts (d : XidBurstDetector) (history : list XidEvent) (targetXid : string) : list Burst :=
  match history with
  | [] => []
  | event :: _ => detect_loop d targetXid [] [] (emptyBurst (timestamp event)) history
  end.

(** ** Events *)

Definition extractGPUIDs (es : list Entity) : list string :=
  (fold_left (fun '(uuids, seen) entity =>
     if EntityType entity <>s "GPU_UUID" then (uuids, seen)
     else if bool_decide (EntityValue entity ∈ (seen : gset string)) then (uuids, seen)
     else (uuids ++ [EntityValue entity], {[EntityValue entity]} ∪ seen)) es ([], ∅)).1.

Definition cleanupOldEvents (d : XidBurstDetector) (history : list XidEvent) (currentTime : Z) : list XidEvent :=
  let cutoff := (currentTime + wrap_int64 (- lookbackWindow d))%Z in
  List.filter (fun event => (cutoff <? timestamp event)%Z) history.

(** The history of a node and GPU, created empty when missing. *)
Definition history_of (d : XidBurstDetector) (nodeName gpuKey : string) : list XidEvent :=
  default [] (default ∅ (nodeEvents d !! nodeName) !! gpuKey).

(** [getOrCreateHistory] and the assignments through the returned pointer. *)
Definition set_history (d : XidBurstDetector) (nodeName gpuKey : string) (h : list XidEvent) : XidBurstDetector :=
  with_nodeEvents d (<[nodeName := <[gpuKey := h]> (default ∅ (nodeEvents d !! nodeName))]> (nodeEvents d)).

(** The loop over the GPUs of an event. *)
Fixpoint process_gpus (d : XidBurstDetector) (nodeName : string) (xidEvent : XidEvent)
    (maxBursts : nat) (triggered : bool) (gpuKeys : list string) : XidBurstDetector * bool * nat :=
  match gpuKeys with
  | [] => (d, triggered, maxBursts)
  | gpuKey :: rest =>
      let history := cleanupOldEvents d (history_of d nodeName gpuKey ++ [xidEvent]) (timestamp xidEvent) in
      let d' := set_history d nodeName gpuKey history in
      let bursts := detectBursts d history (errorCode xidEvent) in
      process_gpus d' nodeName xidEvent
        (if (maxBursts <? length bursts)%nat then length bursts else maxBursts)
        (if (burstThreshold d <=? Z.of_nat (length bursts))%Z then true else triggered) rest
  end.

Definition ProcessEvent (d : XidBurstDetector) (event : HealthEvent) : XidBurstDetector * bool * nat :=
  match ErrorCode event with
  | [] => (d, false, 0)
  | xidCode :: _ =>
      match GeneratedSeconds event with
      | None => (d, false, 0)
      | Some seconds =>
          let ids := extractGPUIDs (EntitiesImpacted event) in
          let gpuKeys := match ids with [] => [unknownGPUKey] | _ => ids end in
          process_gpus d (NodeName event)
            {| timestamp := seconds * Second; errorCode := xidCode; gpuIDs := ids |} 0 false gpuKeys
      end
  end.

Definition ClearNodeHistory (d : XidBurstDetector) (nodeName : string) : XidBurstDetector :=
  with_nodeEvents d (delete nodeName (nodeEvents d)).

Definition GetPerGPUBurstStats (d : XidBurstDetector) : gmap string (gmap string nat) :=
  (fun gpuHistories : gmap string (list XidEvent) => (fun h => length h) <$> gpuHistories) <$> nodeEvents d.

Definition GetBurstStats (d : XidBurstDetector) : gmap string nat :=
  (fun gpuHistories : gmap string (list XidEvent) => map_fold (fun _ (h : list XidEvent) total => total + length h) 0 gpuHistories)
    <$> nodeEvents d.

(** ** Configuration from a pipeline *)

Inductive json :=
| JNull
| JBool (b : bool)
| JNum (f : float64)
| JStr (s : string)
| JArr (l : list json)
| JObj (l : list (string * json)).

Definition field (l : list (string * json)) (k : string) : option json :=
  snd <$> find (fun kv => kv.1 ==s k) l.
Definition as_obj (v : option json) : option (list (string * json)) :=
  match v with Some (JObj l) => Some l | _ => None end.
Definition as_pair (v : option json) : option (json * json) :=
  match v with Some (JArr [a; b]) => Some (a, b) | _ => None end.

(** [time.Duration(seconds) * time.Second]. *)
Definition seconds_of (f : float64) : Z := wrap_int64 (f64_to_int f * Second).

Definition checkGtOperator (val : list (string * json)) : Z :=
  match as_pair (field val "$gt") with
  | Some (JObj subtract, JNum seconds) =>
      match field subtract "$subtract" with Some _ => seconds_of seconds | None => 0%Z end
  | _ => 0%Z
  end.

Definition checkLteOperator (val : list (string * json)) : Z :=
  match as_pair (field val "$lte") with Some (_, JNum seconds) => seconds_of seconds | _ => 0%Z end.

Section find_window.
Context (check : list (string * json) -> Z).

(** The first positive answer, visiting the value before its children. *)
Fixpoint findInValue (v : json) : Z :=
  match v with
  | JObj l =>
      if (0 <? check l)%Z then check l
      else (fix go l := match l with
                        | [] => 0%Z
                        | (_, c) :: rest => if (0 <? findInValue c)%Z then findInValue c else go rest
                        end) l
  | JArr l =>
      (fix go l := match l with
                   | [] => 0%Z
                   | c :: rest => if (0 <? findInValue c)%Z then findInValue c else go rest
                   end) l
  | _ => 0%Z
  end.

End find_window.

Definition findGtInValue : json -> Z := findInValue checkGtOperator.
Definition findLteInValue : json -> Z := findInValue checkLteOperator.

Definition extractLookbackWindow (match_ : list (string * json)) (cfg : XidBurstDetectorConfig) :
    XidBurstDetectorConfig :=
  match as_pair (field (default [] (as_obj (field match_ "$expr"))) "$gte") with
  | Some (_, JObj subtract) =>
      match as_pair (field subtract "$subtract") with
      | Some (_, JNum seconds) =>
          {| BurstWindow := BurstWindow cfg; StickyWindow := StickyWindow cfg;
             LookbackWindow := seconds_of seconds; BurstThreshold := BurstThreshold cfg |}
      | _ => cfg
      end
  | _ => cfg
  end.

Definition extractBurstThreshold (match_ : list (string * json)) (cfg : XidBurstDetectorConfig) :
    XidBurstDetectorConfig :=
  match field (default [] (as_obj (field match_ "count"))) "$gte" with
  | Some (JNum gte) =>
      {| BurstWindow := BurstWindow cfg; StickyWindow := StickyWindow cfg;
         LookbackWindow := LookbackWindow cfg; BurstThreshold := f64_to_int gte |}
  | _ => cfg
  end.

Definition parseMatchStage (stage : list (string * json)) (cfg : XidBurstDetectorConfig) :
    XidBurstDetectorConfig :=
  match as_obj (field stage "$match") with
  | None => cfg
  | Some m => extractBurstThreshold m (extractLookbackWindow m cfg)
  end.

Definition parseSetWindowFieldsStage (stage : list (string * json)) (cfg : XidBurstDetectorConfig) :
    XidBurstDetectorConfig :=
  match as_obj (field stage "$setWindowFields") with
  | None => cfg
  | Some swf =>
      match as_obj (field swf "output") with
      | None => cfg
      | Some output =>
          match as_obj (field output "burstId") with
          | None => cfg
          | Some burstID =>
              let window := findGtInValue (JObj burstID) in
              if (0 <? window)%Z then
                {| BurstWindow := window; StickyWindow := StickyWindow cfg;
                   LookbackWindow := LookbackWindow cfg; BurstThreshold := BurstThreshold cfg |}
              else cfg
          end
      end
  end.

Definition parseAddFieldsStage (stage : list (string * json)) (cfg : XidBurstDetectorConfig) :
    XidBurstDetectorConfig :=
  match as_obj (field stage "$addFields") with
  | None => cfg
  | Some addFields =>
      fold_left (fun cfg kv =>
        if (kv.1 ==s "stickyXidWithin3Hours") || (kv.1 ==s "stickyXidWithin20s") then
          let window := findLteInValue kv.2 in
          if (0 <? window)%Z then
            {| BurstWindow := BurstWindow cfg; StickyWindow := window;
               LookbackWindow := LookbackWindow cfg; BurstThreshold := BurstThreshold cfg |}
          else cfg
        else cfg) addFields cfg
  end.

Definition ParseXidConfigFromPipeline (unmarshal : string -> result (list (string * json)))
    (stages : list string) : XidBurstDetectorConfig :=
  fold_left (fun cfg stageStr =>
    match unmarshal stageStr with
    | Err _ => cfg
    | Ok stage => parseAddFieldsStage stage (parseSetWindowFieldsStage stage (parseMatchStage stage cfg))
    end) stages DefaultXidBurstDetectorConfig.

(** ** Bursts are the segments between boundaries *)

Section segments.
Context (d : XidBurstDetector).

Definition gap (e p : XidEvent) : Z := time_sub (timestamp e) (timestamp p).

(** Position [i] of a history starts a burst: the pause before it is longer than
    the burst window, and it is not a sticky error with a sticky error before it
    from which all pauses up to it stay inside the sticky window. *)
Definition boundary (l : list XidEvent) (i : nat) : Prop :=
  exists e p, 0 < i /\ l !! i = Some e /\ l !! (i - 1) = Some p /\ (burstWindow d < gap e p)%Z /\
    ~ (is_sticky d e = true /\ exists j q, j < i /\ l !! j = Some q /\ is_sticky d q = true /\
         forall k r, j <= k < i -> l !! k = Some r -> (gap e r <= stickyWindow d)%Z).

(** The positions at which the segments of a list start, from [n]. *)
Fixpoint offsets (n : nat) (segs : list (list XidEvent)) : list nat :=
  match segs with
  | [] => []
  | s :: rest => n :: offsets (n + length s) rest
  end.

Definition burst_of (seg : list XidEvent) : Burst :=
  fold_left addEvent seg (emptyBurst (match seg with e :: _ => timestamp e | [] => 0 end)).

Lemma burst_of_snoc seg e : seg <> [] -> burst_of (seg ++ [e]) = addEvent (burst_of seg) e.
Proof. intros Hs. unfold burst_of. rewrite fold_left_app. by destruct seg. Qed.

Lemma burst_of_events seg : burst_events (burst_of seg) = seg.
Proof.
  assert (H : forall l b, burst_events (fold_left addEvent l b) = burst_events b ++ l).
  { induction l as [|e l IH]; intros b; simpl; [by rewrite app_nil_r|]. rewrite IH. simpl.
    by rewrite <- app_assoc. }
  unfold burst_of. by rewrite H.
Qed.

Lemma hasXid_burst_of seg x : hasXid (burst_of seg) x = true <-> exists e, e ∈ seg /\ errorCode e = x.
Proof.
  assert (H : forall l b, x ∈ xidCodes (fold_left addEvent l b) <->
                          x ∈ xidCodes b \/ exists e, e ∈ l /\ errorCode e = x).
  { induction l as [|e l IH]; intros b; simpl; [set_solver|]. rewrite IH. simpl. set_solver. }
  unfold hasXid, burst_of. rewrite bool_decide_eq_true, H. simpl. set_solver.
Qed.

(** The test of the loop, on the events before [rest], most recent first. *)
Definition starts (backward : list XidEvent) (event : XidEvent) : bool :=
  match backward with [] => false | prev :: _ => shouldStartNewBurst d event prev backward end.

(** The segments as the loop cuts them. *)
Fixpoint cut (backward seg rest : list XidEvent) : list (list XidEvent) :=
  match rest with
  | [] => [seg]
  | e :: r => if starts backward e then seg :: cut (e :: backward) [e] r
              else cut (e :: backward) (seg ++ [e]) r
  end.

Lemma detect_loop_cut target rest : forall backward bursts seg,
  seg <> [] ->
  detect_loop d target backward bursts (burst_of seg) rest =
  bursts ++ map burst_of (List.filter (fun s => hasXid (burst_of s) target) (cut backward seg rest)).
Proof.
  induction rest as [|e rest IH]; intros backward bursts seg Hs; simpl.
  { destruct (hasXid (burst_of seg) target); simpl; [done|by rewrite app_nil_r]. }
  fold (starts backward e). destruct (starts backward e); simpl.
  - change (addEvent (emptyBurst (timestamp e)) e) with (burst_of [e]). rewrite IH by done.
    destruct (hasXid (burst_of seg) target); simpl; [by rewrite <- app_assoc|done].
  - rewrite <- burst_of_snoc by done. apply IH. by destruct seg.
Qed.

Lemma cut_concat rest : forall backward seg, concat (cut backward seg rest) = seg ++ rest.
Proof.
  induction rest as [|e rest IH]; intros backward seg; simpl; [by rewrite !app_nil_r|].
  destruct (starts backward e); simpl; rewrite IH; [done|by rewrite <- app_assoc].
Qed.

Lemma cut_nonempty rest : forall backward seg, seg <> [] -> Forall (fun s => s <> []) (cut backward seg rest).
Proof.
  induction rest as [|e rest IH]; intros backward seg Hs; simpl; [by repeat constructor|].
  destruct (starts backward e); [constructor; [done|by apply IH]|apply IH; by destruct seg].
Qed.

(** Where the loop cuts, as a test on the whole history. *)
Definition starts_at (l : list XidEvent) (i : nat) : bool :=
  match l !! i with Some e => starts (rev (take i l)) e | None => false end.

Lemma starts_at_split backward e rest :
  starts_at (rev backward ++ e :: rest) (length backward) = starts backward e.
Proof.
  unfold starts_at. rewrite list_lookup_middle by by rewrite length_rev.
  rewrite take_app_length' by by rewrite length_rev. by rewrite rev_involutive.
Qed.

Lemma cut_offsets rest : forall backward seg n i,
  length backward = n + length seg ->
  (i ∈ offsets n (cut backward seg rest) <->
   i = n \/ length backward <= i < length backward + length rest /\
            starts_at (rev backward ++ rest) i = true).
Proof.
  induction rest as [|e rest IH]; intros backward seg n i Hn; cbn [cut].
  { simpl. rewrite list_elem_of_singleton. split; [auto|]. intros [?|[? _]]; [done|lia]. }
  assert (Hl : rev (e :: backward) ++ rest = rev backward ++ e :: rest) by (simpl; by rewrite <- app_assoc).
  pose proof (starts_at_split backward e rest) as Hat.
  destruct (starts backward e) eqn:Hst.
  - cbn [offsets]. rewrite elem_of_cons, IH by (simpl; lia). rewrite Hl. simpl length. split.
    + intros [->|[->|[Hr Hs]]]; [by left| |right; split; [lia|done]].
      right. split; [lia|]. by replace (n + length seg) with (length backward) by lia.
    + intros [->|[Hr Hs]]; [by left|]. right. destruct (decide (i = length backward)) as [->|]; [left; lia|].
      right. split; [lia|done].
  - rewrite IH by (rewrite length_app; simpl; lia). rewrite Hl. simpl length. split.
    + intros [->|[Hr Hs]]; [by left|right; split; [lia|done]].
    + intros [->|[Hr Hs]]; [by left|]. right. split; [|done].
      destruct (decide (i = length backward)) as [->|]; [congruence|lia].
Qed.

Lemma sticky_before_spec e backward :
  sticky_before d e backward = true <->
  exists b1 q b2, backward = b1 ++ q :: b2 /\ is_sticky d q = true /\
    forall r, r ∈ b1 ++ [q] -> (gap e r <= stickyWindow d)%Z.
Proof.
  induction backward as [|p backward IH]; simpl.
  { split; [done|]. intros ([|? ?] & q & b2 & H & _); done. }
  unfold gap. destruct (Z.ltb_spec (stickyWindow d) (time_sub (timestamp e) (timestamp p))) as [Hlt|Hge].
  { split; [done|]. intros (b1 & q & b2 & Hb & _ & Hall).
    assert (Hp : p ∈ b1 ++ [q]) by (destruct b1; injection Hb as -> _; set_solver).
    specialize (Hall p Hp). unfold gap in Hall. lia. }
  destruct (is_sticky d p) eqn:Hs.
  { split; [|done]. intros _. exists [], p, backward. split; [done|]. split; [done|].
    intros r Hr. apply list_elem_of_singleton in Hr as ->. done. }
  rewrite IH. split.
  - intros (b1 & q & b2 & -> & Hq & Hall). exists (p :: b1), q, b2. split; [done|]. split; [done|].
    intros r [->|Hr]%elem_of_cons; [done|by apply Hall].
  - intros ([|x b1] & q & b2 & Hb & Hq & Hall); injection Hb as -> ->; [congruence|].
    exists b1, q, b2. split; [done|]. split; [done|]. intros r Hr. apply Hall. set_solver.
Qed.


(** A split of the first [i] events, most recent first, is a position below [i]. *)
Lemma sticky_before_lookup l i e :
  i <= length l ->
  (sticky_before d e (rev (take i l)) = true <->
   exists j q, j < i /\ l !! j = Some q /\ is_sticky d q = true /\
     forall k r, j <= k < i -> l !! k = Some r -> (gap e r <= stickyWindow d)%Z).
Proof.
  intros Hi. rewrite sticky_before_spec. split.
  - intros (b1 & q & b2 & Hb & Hq & Hall). apply (f_equal (@rev _)) in Hb.
    rewrite rev_involutive, rev_app_distr in Hb. simpl in Hb. rewrite <- app_assoc in Hb. simpl in Hb.
    assert (Hlen : i = length b2 + S (length b1)).
    { apply (f_equal length) in Hb. rewrite length_take, length_app in Hb. simpl in Hb.
      rewrite !length_rev in Hb. lia. }
    exists (length b2), q. split; [lia|]. split.
    { rewrite <- (lookup_take_lt _ i) by lia. rewrite Hb. apply list_lookup_middle. by rewrite length_rev. }
    split; [done|]. intros k r Hk Hr. apply Hall.
    rewrite <- (lookup_take_lt _ i) in Hr by lia. rewrite Hb in Hr.
    rewrite lookup_app_r in Hr by (rewrite length_rev; lia). rewrite length_rev in Hr.
    apply list_elem_of_lookup_2 in Hr. apply elem_of_cons in Hr as [->|Hr]; [set_solver|].
    apply elem_of_app. left. apply list_elem_of_In, in_rev. by apply list_elem_of_In.
  - intros (j & q & Hj & Hq & Hs & Hall).
    assert (Ht : take i l = take j l ++ q :: take (i - S j) (drop (S j) l)).
    { rewrite <- (take_drop_middle _ _ _ Hq) at 1. rewrite take_app, length_take.
      rewrite take_ge by (rewrite length_take; lia). f_equal.
      replace (i - j `min` length l) with (S (i - S j)) by lia. done. }
    exists (rev (take (i - S j) (drop (S j) l))), q, (rev (take j l)). split.
    { rewrite Ht, rev_app_distr. simpl. by rewrite <- app_assoc. }
    split; [done|]. intros r Hr. apply elem_of_app in Hr as [Hr|Hr].
    + apply list_elem_of_In, in_rev, list_elem_of_In, list_elem_of_lookup in Hr as [k Hk].
      apply lookup_take_Some in Hk as [Hk Hlt]. rewrite lookup_drop in Hk.
      apply (Hall (S j + k)); [lia|done].
    + apply list_elem_of_singleton in Hr as ->. apply (Hall j); [lia|done].
Qed.

Lemma starts_at_boundary l i : starts_at l i = true <-> boundary l i.
Proof.
  unfold starts_at, boundary. destruct (l !! i) as [e|] eqn:He.
  2: { split; [done|]. by intros (? & ? & ? & ? & ?). }
  pose proof (lookup_lt_Some _ _ _ He) as Hi.
  destruct i as [|i].
  { simpl. split; [done|]. intros (? & ? & ? & ?). lia. }
  destruct (lookup_lt_is_Some_2 l i) as [p Hp]; [lia|].
  pose proof (sticky_before_lookup l (S i) e ltac:(lia)) as Hst.
  rewrite (take_S_r _ _ _ Hp), rev_app_distr in Hst |- *. simpl rev in Hst |- *. simpl app in Hst |- *.
  cbn [starts]. unfold shouldStartNewBurst, isStickyXidContinuation. fold (gap e p).
  replace (S i - 1) with i by lia. rewrite Hp. split.
  - destruct (Z.ltb_spec (burstWindow d) (gap e p)) as [Hg|]; [|done]. intros Hn.
    exists e, p. repeat (split; [by auto with lia|]). intros [Hes Hex].
    rewrite Hes in Hn. cbn [negb] in Hn. apply Hst in Hex. rewrite Hex in Hn. done.
  - intros (e' & p' & _ & [= <-] & [= <-] & Hg & Hn). rewrite (proj2 (Z.ltb_lt _ _) Hg).
    destruct (is_sticky d e); [|done]. cbn [negb].
    destruct (sticky_before d e (p :: rev (take i l))); [|done]. destruct Hn. split; [done|by apply Hst].
Qed.

Lemma burst_of_eq e seg :
  burst_of (e :: seg) = {| startTime := timestamp e; burst_events := e :: seg;
                           xidCodes := list_to_set (map errorCode (e :: seg)) |}.
Proof.
  assert (H : forall l b, fold_left addEvent l b =
    {| startTime := startTime b; burst_events := burst_events b ++ l;
       xidCodes := list_to_set (map errorCode l) ∪ xidCodes b |}).
  { induction l as [|x l IH]; intros b; simpl.
    - rewrite app_nil_r, (left_id_L ∅ (∪)). by destruct b.
    - rewrite IH. simpl. rewrite <- app_assoc. simpl. f_equal. set_solver. }
  unfold burst_of. rewrite H. simpl. f_equal. set_solver.
Qed.

End segments.

(** The burst made of a non-empty run of events. *)
Definition burst_made_of (seg : list XidEvent) (b : Burst) : Prop :=
  exists e, head seg = Some e /\ startTime b = timestamp e /\ burst_events b = seg /\
    forall x, x ∈ xidCodes b <-> exists e, e ∈ seg /\ errorCode e = x.

Lemma burst_of_made seg : seg <> [] -> burst_made_of seg (burst_of seg).
Proof.
  destruct seg as [|e seg]; [done|]. intros _. exists e. rewrite burst_of_eq. split; [done|].
  split; [done|]. split; [done|]. intros x. cbn [xidCodes].
  rewrite elem_of_list_to_set, list_elem_of_fmap. naive_solver.
Qed.

(** C27 The bursts of a history are its runs between boundaries: the history
    splits into non-empty runs whose first positions are position 0 and the
    boundaries (a pause longer than the burst window before an event that no
    sticky chain connects), and the answer lists, in order, the runs that
    contain the target code, each with its start, its events and its codes. *)
Theorem detectBursts_segments d l target :
  exists segs, concat segs = l /\ Forall (fun s => s <> []) segs /\
    (forall i, i ∈ offsets 0 segs <-> i < length l /\ (i = 0 \/ boundary d l i)) /\
    Forall2 burst_made_of
      (List.filter (fun s => existsb (fun e => errorCode e ==s target) s) segs)
      (detectBursts d l target).
Proof.
  destruct l as [|e rest].
  { exists []. split; [done|]. split; [constructor|]. split; [|constructor].
    intros i. simpl. rewrite elem_of_nil. split; [done|lia]. }
  exists (cut d [e] [e] rest).
  assert (Hne : Forall (fun s => s <> []) (cut d [e] [e] rest)) by (apply cut_nonempty; done).
  split; [apply cut_concat|]. split; [done|]. split.
  - intros i. rewrite cut_offsets by done. simpl. rewrite starts_at_boundary. split.
    + intros [->|[? ?]]; [split; [lia|by left]|split; [lia|by right]].
    + intros [? [->|Hb]]; [by left|]. right. split; [|done].
      destruct Hb as (? & ? & ? & _). lia.
  - assert (Hd : detectBursts d (e :: rest) target = detect_loop d target [e] [] (burst_of [e]) rest) by done.
    rewrite Hd, detect_loop_cut by done. simpl app.
    induction Hne as [|s segs Hs _ IH]; [constructor|]. cbn [List.filter].
    assert (Heq : hasXid (burst_of s) target = existsb (fun e => errorCode e ==s target) s).
    { apply eq_true_iff_eq. rewrite hasXid_burst_of, existsb_exists. unfold go_eqb.
      setoid_rewrite bool_decide_eq_true. by setoid_rewrite list_elem_of_In. }
    rewrite Heq. destruct (existsb _ s); [|done]. simpl. constructor; [by apply burst_of_made|done].
Qed.

(** ** Events update the histories of their own GPUs *)

(** The keys of an event: its GPUs, or the bucket of unattributed events. *)
Definition gpu_keys (event : HealthEvent) : list string :=
  let ids := extractGPUIDs (EntitiesImpacted event) in
  match ids with [] => [unknownGPUKey] | _ => ids end.

Definition listed_gpu (event : HealthEvent) (k : string) : Prop :=
  exists en, en ∈ EntitiesImpacted event /\ EntityType en = "GPU_UUID" /\ EntityValue en = k.

Definition xid_event (event : HealthEvent) (code : string) (seconds : Z) : XidEvent :=
  {| timestamp := seconds * Second; errorCode := code; gpuIDs := extractGPUIDs (EntitiesImpacted event) |}.

Definition extended (d : XidBurstDetector) (e : XidEvent) (node k : string) : list XidEvent :=
  cleanupOldEvents d (history_of d node k ++ [e]) (timestamp e).

Definition same_windows (d d' : XidBurstDetector) : Prop :=
  burstWindow d' = burstWindow d /\ stickyWindow d' = stickyWindow d /\
  lookbackWindow d' = lookbackWindow d /\ burstThreshold d' = burstThreshold d /\
  stickyXids d' = stickyXids d.

Lemma extractGPUIDs_spec es :
  NoDup (extractGPUIDs es) /\
  forall k, k ∈ extractGPUIDs es <-> exists en, en ∈ es /\ EntityType en = "GPU_UUID" /\ EntityValue en = k.
Proof.
  unfold extractGPUIDs.
  set (f := fun '(uuids, seen) entity => _).
  assert (H : forall l uuids (seen : gset string), NoDup uuids -> (forall k, k ∈ seen <-> k ∈ uuids) ->
    NoDup (fold_left f l (uuids, seen)).1 /\
    forall k, k ∈ (fold_left f l (uuids, seen)).1 <->
      k ∈ uuids \/ exists en, en ∈ l /\ EntityType en = "GPU_UUID" /\ EntityValue en = k).
  { induction l as [|en l IH]; intros uuids seen Hnd Hseen.
    { simpl. split; [done|]. intros k. split; [by left|]. intros [?|(? & H & _)]; [done|].
      by apply elem_of_nil in H. }
    cbn [fold_left]. unfold f at 2 4. unfold go_eqb at 1 2.
    destruct (decide (EntityType en = "GPU_UUID")) as [Ht|Ht].
    2: { rewrite bool_decide_eq_false_2 by done. destruct (IH uuids seen Hnd Hseen) as [H1 H2].
         split; [done|]. intros k. rewrite (H2 k). setoid_rewrite elem_of_cons. naive_solver. }
    rewrite bool_decide_eq_true_2 by done. cbn [negb].
    case_bool_decide as Hin.
    - destruct (IH uuids seen Hnd Hseen) as [H1 H2]. split; [done|]. intros k. rewrite (H2 k).
      setoid_rewrite elem_of_cons. apply Hseen in Hin. naive_solver.
    - destruct (IH (uuids ++ [EntityValue en]) ({[EntityValue en]} ∪ seen)) as [H1 H2].
      + apply NoDup_app. split; [done|]. split; [|apply NoDup_singleton].
        intros x Hx ->%list_elem_of_singleton. by apply Hin, Hseen.
      + intros k. rewrite elem_of_union, elem_of_singleton, Hseen, elem_of_app, list_elem_of_singleton. tauto.
      + split; [done|]. intros k. rewrite (H2 k). rewrite elem_of_app, list_elem_of_singleton.
        setoid_rewrite elem_of_cons. naive_solver. }
  destruct (H es [] ∅) as [H1 H2]; [constructor|set_solver|]. split; [done|].
  intros k. rewrite (H2 k). set_solver.
Qed.

Lemma gpu_keys_spec event :
  NoDup (gpu_keys event) /\
  (forall k, k ∈ gpu_keys event <-> listed_gpu event k \/ (k = unknownGPUKey /\ forall k', ~ listed_gpu event k')).
Proof.
  unfold gpu_keys, listed_gpu. destruct (extractGPUIDs_spec (EntitiesImpacted event)) as [H1 H2].
  destruct (extractGPUIDs (EntitiesImpacted event)) as [|i ids] eqn:He.
  - split; [apply NoDup_singleton|]. intros k. rewrite list_elem_of_singleton. split.
    + intros ->. right. split; [done|]. intros k' Hk'. apply H2 in Hk'. by apply elem_of_nil in Hk'.
    + intros [Hk|[-> _]]; [|done]. apply H2 in Hk. by apply elem_of_nil in Hk.
  - split; [done|]. intros k. rewrite H2. split; [by left|]. intros [?|[_ Hn]]; [done|].
    destruct (Hn i). apply H2. by left.
Qed.

Lemma history_of_set d node k h node' k' :
  history_of (set_history d node k h) node' k' =
  if decide (node' = node /\ k' = k) then h else history_of d node' k'.
Proof.
  unfold history_of, set_history. simpl. destruct (decide (node' = node)) as [->|Hn].
  - rewrite lookup_insert_eq. simpl. destruct (decide (k' = k)) as [->|Hk].
    + rewrite lookup_insert_eq. by rewrite decide_True.
    + rewrite lookup_insert_ne by done. rewrite decide_False by tauto. done.
  - rewrite lookup_insert_ne by done. rewrite decide_False by tauto. done.
Qed.

Lemma sticky_before_windows d d' e : same_windows d d' ->
  forall b, sticky_before d' e b = sticky_before d e b.
Proof.
  intros (_ & Hs & _ & _ & Hx). induction b as [|p b IH]; simpl; [done|].
  unfold is_sticky. by rewrite Hs, Hx, IH.
Qed.

Lemma detectBursts_windows d d' l t : same_windows d d' -> detectBursts d' l t = detectBursts d l t.
Proof.
  intros Hw. destruct l as [|e l]; [done|]. cbn [detectBursts].
  generalize (emptyBurst (timestamp e)) at 1 2. intros b.
  assert (H : forall rest bw bs b, detect_loop d' t bw bs b rest = detect_loop d t bw bs b rest).
  { induction rest as [|x rest IH]; intros bw bs b'; cbn [detect_loop]; [done|]. rewrite !IH.
    destruct bw as [|p bw]; [done|]. unfold shouldStartNewBurst, isStickyXidContinuation, is_sticky.
    rewrite (sticky_before_windows d d' x Hw). by destruct Hw as (-> & _ & _ & _ & ->). }
  apply H.
Qed.

Lemma same_windows_refl d : same_windows d d.
Proof. by repeat split. Qed.

Lemma same_windows_trans d d' d'' : same_windows d d' -> same_windows d' d'' -> same_windows d d''.
Proof. intros (? & ? & ? & ? & ?) (? & ? & ? & ? & ?). repeat split; congruence. Qed.

Lemma extended_windows d d' e node k :
  same_windows d d' -> history_of d' node k = history_of d node k ->
  extended d' e node k = extended d e node k.
Proof. intros (_ & _ & Hl & _ & _) Hh. unfold extended, cleanupOldEvents. by rewrite Hl, Hh. Qed.

(** The loop over distinct keys: every key gets its own extended history, the
    decision is the disjunction over the keys and the count their maximum. *)
Lemma process_gpus_spec node e keys : NoDup keys -> forall d m t,
  let count k := length (detectBursts d (extended d e node k) (errorCode e)) in
  let '(d', t', m') := process_gpus d node e m t keys in
  same_windows d d' /\
  (forall node' k', history_of d' node' k' =
     if decide (node' = node /\ k' ∈ keys) then extended d e node k' else history_of d node' k') /\
  (t' = true <-> t = true \/ exists k, k ∈ keys /\ (burstThreshold d <= Z.of_nat (count k))%Z) /\
  m <= m' /\ (forall k, k ∈ keys -> count k <= m') /\
  (m' = m \/ exists k, k ∈ keys /\ m' = count k).
Proof.
  induction 1 as [|k keys Hk _ IH]; intros d m t count; cbn [process_gpus].
  { split; [apply same_windows_refl|]. split; [intros; by rewrite decide_False by set_solver|].
    split; [set_solver|]. split; [done|]. split; [set_solver|by left]. }
  fold (extended d e node k).
  set (h := extended d e node k). set (d1 := set_history d node k h).
  assert (Hw : same_windows d d1) by by repeat split.
  assert (Hh : forall node' k', history_of d1 node' k' =
    if decide (node' = node /\ k' = k) then h else history_of d node' k') by apply history_of_set.
  assert (Hc : forall k', k' ∈ keys -> length (detectBursts d1 (extended d1 e node k') (errorCode e)) = count k').
  { intros k' Hk'. unfold count. rewrite (detectBursts_windows d d1) by done.
    rewrite (extended_windows d d1); [done..|]. rewrite Hh, decide_False; [done|]. intros [_ ->]. done. }
  assert (Hck : length (detectBursts d h (errorCode e)) = count k) by done. rewrite Hck.
  match goal with |- context [process_gpus _ _ _ ?m1 ?t1 _] => specialize (IH d1 m1 t1); set (m2 := m1) in *; set (t2 := t1) in * end.
  cbv zeta in IH. destruct (process_gpus d1 node e m2 t2 keys) as [[d' t'] m'].
  destruct IH as (IHw & IHh & IHt & IHm & IHc & IHe).
  assert (Hm2 : m <= m2 /\ count k <= m2 /\ (m2 = m \/ m2 = count k)).
  { unfold m2. destruct (Nat.ltb_spec m (count k)); lia. }
  split; [by eapply same_windows_trans|]. split.
  { intros node' k'. rewrite IHh, Hh.
    destruct (decide (node' = node /\ k' ∈ keys)) as [[-> Hin]|Hn].
    - rewrite decide_True by (split; [done|by right]). apply extended_windows; [done|].
      rewrite Hh, decide_False; [done|]. intros [_ ->]. done.
    - destruct (decide (node' = node /\ k' = k)) as [[-> ->]|Hn2].
      + rewrite decide_True by (split; [done|left]). done.
      + rewrite decide_False; [done|]. intros [-> [->|?]%elem_of_cons]; tauto. }
  split.
  { rewrite IHt. unfold t2. replace (burstThreshold d1) with (burstThreshold d) by done.
    destruct (Z.leb_spec (burstThreshold d) (Z.of_nat (count k))) as [Hle|Hgt]; split.
    - intros _. right. exists k. split; [left|done].
    - intros _. by left.
    - intros [?|(k' & Hk' & Hle)]; [by left|]. right. exists k'. rewrite Hc in Hle by done. split; [by right|done].
    - intros [?|(k' & [->|Hk']%elem_of_cons & Hle)]; [by left|lia|]. right. exists k'.
      rewrite Hc by done. done. }
  split; [lia|]. split.
  { intros k' [->|Hk']%elem_of_cons; [lia|]. rewrite <- Hc by done. by apply IHc. }
  destruct IHe as [->|(k' & Hk' & ->)].
  - destruct Hm2 as (_ & _ & [->| ->]); [by left|]. right. exists k. split; [left|done].
  - right. exists k'. rewrite Hc by done. split; [by right|done].
Qed.

(** One event: the histories of exactly its node's listed GPUs (or of the
    bucket of unattributed events when it lists none) are extended by it and
    cleaned up, each once; every other history and the configuration stay.  The
    event triggers iff on one of these GPUs its code now occurs in at least the
    threshold number of bursts, and the count answered is the largest of these
    numbers. *)
Theorem ProcessEvent_spec d event code codes seconds :
  ErrorCode event = code :: codes -> GeneratedSeconds event = Some seconds ->
  let e := xid_event event code seconds in
  let touched k := listed_gpu event k \/ (k = unknownGPUKey /\ forall k', ~ listed_gpu event k') in
  let new k := extended d e (NodeName event) k in
  let count k := length (detectBursts d (new k) code) in
  let '(d', triggered, n) := ProcessEvent d event in
  same_windows d d' /\
  (forall k, touched k -> history_of d' (NodeName event) k = new k) /\
  (forall node k, ~ (node = NodeName event /\ touched k) -> history_of d' node k = history_of d node k) /\
  (triggered = true <-> exists k, touched k /\ (burstThreshold d <= Z.of_nat (count k))%Z) /\
  (forall k, touched k -> count k <= n) /\ (exists k, touched k /\ n = count k).
Proof.
  intros Hc Hs e touched new count. unfold ProcessEvent. rewrite Hc, Hs. cbv zeta.
  change (match extractGPUIDs (EntitiesImpacted event) with [] => [unknownGPUKey] | _ => _ end)
    with (gpu_keys event).
  fold (xid_event event code seconds). fold e.
  destruct (gpu_keys_spec event) as [Hnd Hkeys]. fold (touched) in Hkeys.
  pose proof (process_gpus_spec (NodeName event) e (gpu_keys event) Hnd d 0 false) as H. cbv zeta in H.
  destruct (process_gpus d (NodeName event) e 0 false (gpu_keys event)) as [[d' t'] n].
  destruct H as (Hw & Hh & Ht & _ & Hle & Hex). split; [done|]. split; [|split; [|split; [|split]]].
  - intros k Hk. rewrite Hh, decide_True; [done|]. split; [done|by apply Hkeys].
  - intros node k Hn. rewrite Hh, decide_False; [done|]. intros [-> Hk]. apply Hn. split; [done|by apply Hkeys].
  - rewrite Ht. split.
    + intros [?|(k & Hk & ?)]; [done|]. exists k. split; [by apply Hkeys|done].
    + intros (k & Hk & ?). right. exists k. split; [by apply Hkeys|done].
  - intros k Hk. apply Hle. by apply Hkeys.
  - destruct Hex as [->|(k & Hk & ->)].
    + assert (Hin : exists k, k ∈ gpu_keys event).
      { unfold gpu_keys. destruct (extractGPUIDs _) as [|k ks]; eexists; left. }
      destruct Hin as [k Hk]. exists k. split; [by apply Hkeys|]. pose proof (Hle k Hk) as Hk0. unfold count, new.
      change code with (errorCode e). lia.
    + exists k. split; [by apply Hkeys|done].
Qed.

(** ** Histories of different GPUs are independent *)

Inductive xid_op := XProcess (event : HealthEvent) | XClear (nodeName : string).

Definition xid_step (d : XidBurstDetector) (op : xid_op) : XidBurstDetector :=
  match op with XProcess event => (ProcessEvent d event).1.1 | XClear n => ClearNodeHistory d n end.

(** The operations of the node that concern the GPU. *)
Definition touches (node k : string) (op : xid_op) : bool :=
  match op with
  | XProcess event => bool_decide (NodeName event = node /\ k ∈ gpu_keys event)
  | XClear n => bool_decide (n = node)
  end.

(** A history as seen from one node and GPU. *)
Definition key_step (d : XidBurstDetector) (h : list XidEvent) (op : xid_op) : list XidEvent :=
  match op with
  | XProcess event =>
      match ErrorCode event, GeneratedSeconds event with
      | code :: _, Some seconds =>
          cleanupOldEvents d (h ++ [xid_event event code seconds]) (seconds * Second)
      | _, _ => h
      end
  | XClear _ => []
  end.

Lemma xid_step_history d op node k :
  same_windows d (xid_step d op) /\
  history_of (xid_step d op) node k =
    if touches node k op then key_step d (history_of d node k) op else history_of d node k.
Proof.
  destruct op as [event|n]; cbn [xid_step touches key_step].
  - unfold ProcessEvent. destruct (ErrorCode event) as [|code codes]; [split; [apply same_windows_refl|by case_match]|].
    destruct (GeneratedSeconds event) as [seconds|]; [|split; [apply same_windows_refl|by case_match]]. cbv zeta.
    change (match extractGPUIDs (EntitiesImpacted event) with [] => [unknownGPUKey] | _ => _ end)
      with (gpu_keys event).
    fold (xid_event event code seconds). set (e := xid_event event code seconds).
    destruct (gpu_keys_spec event) as [Hnd _].
    pose proof (process_gpus_spec (NodeName event) e (gpu_keys event) Hnd d 0 false) as H. cbv zeta in H.
    destruct (process_gpus d (NodeName event) e 0 false (gpu_keys event)) as [[d' t'] n]. simpl.
    destruct H as (Hw & Hh & _). split; [done|]. rewrite Hh.
    destruct (decide (node = NodeName event /\ k ∈ gpu_keys event)) as [[-> ?]|Hn].
    + by rewrite bool_decide_eq_true_2.
    + rewrite bool_decide_eq_false_2; [done|]. intros [<- ?]. by apply Hn.
  - split; [by repeat split|]. unfold history_of, ClearNodeHistory. simpl.
    destruct (decide (n = node)) as [->|Hn].
    + rewrite lookup_delete_eq, bool_decide_eq_true_2 by done. done.
    + rewrite lookup_delete_ne, bool_decide_eq_false_2 by done. done.
Qed.

Lemma key_step_windows d d' h op : same_windows d d' -> key_step d' h op = key_step d h op.
Proof.
  intros (_ & _ & Hl & _). destruct op; simpl; [|done].
  unfold cleanupOldEvents. by rewrite Hl.
Qed.

Lemma xid_run_history node k ops : forall d,
  same_windows d (fold_left xid_step ops d) /\
  history_of (fold_left xid_step ops d) node k =
  fold_left (key_step d) (List.filter (touches node k) ops) (history_of d node k).
Proof.
  induction ops as [|op ops IH]; intros d; cbn [fold_left List.filter]; [split; [apply same_windows_refl|done]|].
  destruct (xid_step_history d op node k) as [Hw Hh]. destruct (IH (xid_step d op)) as [IHw IHh].
  split; [by eapply same_windows_trans|]. rewrite IHh, Hh.
  assert (Hf : forall l h, fold_left (key_step (xid_step d op)) l h = fold_left (key_step d) l h).
  { induction l as [|o l IHl]; intros h; simpl; [done|]. by rewrite (key_step_windows d), IHl. }
  by rewrite Hf; destruct (touches node k op).
Qed.

(** Bursts of different GPUs are never combined: after any sequence of
    events and clearings the history of a GPU of a node is the one the
    operations that concern this node and GPU alone leave, so which codes burst
    there does not depend on events of other GPUs or nodes. *)
Theorem gpu_histories_independent d ops node k target :
  let own := List.filter (touches node k) ops in
  history_of (fold_left xid_step ops d) node k = history_of (fold_left xid_step own d) node k /\
  detectBursts (fold_left xid_step ops d) (history_of (fold_left xid_step ops d) node k) target =
  detectBursts (fold_left xid_step own d) (history_of (fold_left xid_step own d) node k) target.
Proof.
  intros own. destruct (xid_run_history node k ops d) as [Hw Hh].
  destruct (xid_run_history node k own d) as [Hw' Hh'].
  assert (Hown : List.filter (touches node k) own = own).
  { unfold own. clear. induction ops as [|o l IH]; simpl; [done|].
    destruct (touches node k o) eqn:Ho; simpl; [by rewrite Ho, IH|done]. }
  rewrite Hown in Hh'. split; [by rewrite Hh, Hh'|].
  rewrite (detectBursts_windows d) by done. rewrite (detectBursts_windows d (fold_left xid_step own d)) by done.
  by rewrite Hh, Hh'.
Qed.

(** ** Concrete runs *)

Module XidDemo.

(** Five errors on one GPU, ten minutes apart: the fifth burst triggers. *)
Definition xid_on (node code : string) (t : Z) (gpus : list string) : HealthEvent :=
  {| Version := 1; Agent := "syslog-health-monitor"; ComponentClass := "GPU"; CheckName := "SysLogsXIDError";
     IsFatal := true; IsHealthy := false; Message := ""; Action := NONE; ErrorCode := [code];
     EntitiesImpacted := (fun g => {| EntityType := "GPU_UUID"; EntityValue := g |}) <$> gpus;
     Metadata := ∅; GeneratedSeconds := Some t; NodeName := node; QuarantineOverrides := None;
     DrainOverrides := None; Strategy := EXECUTE_REMEDIATION; Id := ""; CustomRecommendedAction := "" |}.

Definition fresh : XidBurstDetector := NewXidBurstDetectorWithConfig DefaultXidBurstDetectorConfig.

Definition four : XidBurstDetector :=
  fold_left xid_step [XProcess (xid_on "a" "31" 1000 ["g0"]); XProcess (xid_on "a" "31" 1600 ["g0"]);
                      XProcess (xid_on "a" "31" 2200 ["g0"]); XProcess (xid_on "a" "31" 2800 ["g0"; "g1"])] fresh.

Example fifth_triggers : (ProcessEvent four (xid_on "a" "31" 3400 ["g1"; "g0"; "g0"])).1.2 = true
  /\ (ProcessEvent four (xid_on "a" "31" 3400 ["g1"; "g0"; "g0"])).2 = 5.
Proof. split; vm_compute; reflexivity. Qed.

Example other_gpu_does_not : (ProcessEvent four (xid_on "a" "31" 3400 ["g1"])).1.2 = false.
Proof. vm_compute. reflexivity. Qed.

(** Sticky errors an hour apart stay in one burst. *)
Example sticky_extends :
  (ProcessEvent (fold_left xid_step [XProcess (xid_on "a" "79" 0 ["g0"]); XProcess (xid_on "a" "79" 3600 ["g0"])] fresh)
     (xid_on "a" "79" 7200 ["g0"])).2 = 1.
Proof. vm_compute. reflexivity. Qed.

Lemma ProcessEvent_witness :
  let event := xid_on "a" "31" 3400 ["g1"; "g0"; "g0"] in
  (ProcessEvent four event).1.2 = true /\
  history_of (ProcessEvent four event).1.1 "a" "g0" =
  extended four (xid_event event "31" 3400) "a" "g0".
Proof.
  pose proof (ProcessEvent_spec four (xid_on "a" "31" 3400 ["g1"; "g0"; "g0"]) "31" [] 3400
                eq_refl eq_refl) as H.
  split; [vm_compute; reflexivity|]. cbv zeta in H.
  destruct (ProcessEvent four _) as [[d' t'] n]. destruct H as (_ & H & _).
  apply (H "g0"). left. exists {| EntityType := "GPU_UUID"; EntityValue := "g0" |}.
  split; [right; left|done].
Defined.

(** The sticky stage and the burst stage of the shipped rule. *)
Definition num (z : Z) : json := JNum (f64_of_int z).
Definition sub : json := JObj [("$subtract", JArr [JStr "$seconds"; JStr "$prev"])]%string.
Definition stickyStage : list (string * json) :=
  [("$addFields", JObj [("stickyXidWithin3Hours", JObj [("$cond", JObj [("if", JStr "$isStickyXid");
     ("then", JObj [("$and", JArr [JObj [("$ne", JArr [JStr "$last"; JNull])]; JObj [("$lte", JArr [sub; num 30])]])]);
     ("else", JBool false)])])])]%string.
Definition burstStage : list (string * json) :=
  [("$setWindowFields", JObj [("output", JObj [("burstId", JObj [("$sum", JObj [("$cond", JObj
     [("if", JObj [("$eq", JArr [JStr "$prev"; JNull])]); ("then", num 1);
      ("else", JObj [("$cond", JObj [("if", JObj [("$gt", JArr [sub; num 240])])])])])])])])])]%string.
Definition matchStage : list (string * json) :=
  [("$match", JObj [("count", JObj [("$gte", num 2)]);
     ("$expr", JObj [("$gte", JArr [JStr "$seconds"; JObj [("$subtract", JArr [JStr "$now"; num 300])]])])])]%string.
Definition unmarshal (s : string) : result (list (string * json)) :=
  if s ==s "sticky" then Ok stickyStage else if s ==s "burst" then Ok burstStage
  else if s ==s "match" then Ok matchStage else Err "invalid character".

Example pipeline_config :
  ParseXidConfigFromPipeline unmarshal ["garbage"; "sticky"; "match"; "burst"] =
  {| BurstWindow := 4 * Minute; StickyWindow := 30 * Second; LookbackWindow := 5 * Minute;
     BurstThreshold := 2 |}.
Proof. vm_compute. reflexivity. Qed.

End XidDemo.
