(* ===== verification/CounterEval.v ===== *)
(** * Counter evaluation of the NIC health monitor

    Models [health-monitors/nic-health-monitor/pkg/checks/counter/evaluator.go]
    with the event constructors of [pkg/checks/common.go] it calls: the
    snapshots, latched breaches and last readings of every counter, the
    evaluation of one reading, the boot baseline, the sweep of stale breaches and
    the replay of unobserved ones.  The sysfs reader is an interface; the clock
    readings are arguments ([now] for the poll, [stamp] for the time an event
    gets); metrics and logs are left out.  Counter values are [uint64] with
    wrapping subtraction, thresholds and rates binary64. *)

From stdpp Require Import gmap strings list fin_maps pretty.
From Stdlib Require Import ZArith Lia Ascii.
From S2P Require Import Prelude GoFloat HealthEvent.

#[local] Open Scope nat_scope.

(** ** Text *)

(** [strings.LastIndex] followed by the slice after it. *)
Fixpoint after_last (sep : Ascii.ascii) (s : string) : option string :=
  match s with
  | EmptyString => None
  | String c rest =>
      match after_last sep rest with
      | Some t => Some t
      | None => if decide (c = sep) then Some rest else None
      end
  end.

Definition digit (c : Ascii.ascii) : option Z :=
  let n := Z.of_nat (Ascii.nat_of_ascii c) in
  if ((48 <=? n) && (n <=? 57))%Z then Some (n - 48)%Z else None.

Fixpoint digits (acc : Z) (s : string) : option Z :=
  match s with
  | EmptyString => Some acc
  | String c rest => match digit c with Some d => digits (10 * acc + d) rest | None => None end
  end.

(** [strconv.Atoi]: an optional sign, at least one digit, in the range of [int]. *)
Definition atoi (s : string) : option Z :=
  let '(sign, body) :=
    match s with
    | String "+"%char rest => (1%Z, rest)
    | String "-"%char rest => ((-1)%Z, rest)
    | _ => (1%Z, s)
    end in
  match body with
  | EmptyString => None
  | _ => match digits 0 body with
         | Some n => if decide (in_int64 (sign * n)) then Some (sign * n)%Z else None
         | None => None
         end
  end.

Definition strip_prefix (p s : string) : option string :=
  if String.prefix p s then Some (String.substring (String.length p) (String.length s - String.length p) s)
  else None.

(** [%.2f]: the exact value rounded to two decimals, ties to even. *)
Definition round_even (num den : Z) : Z :=
  let q := (num / den)%Z in
  match (2 * (num mod den) ?= den)%Z with
  | Lt => q
  | Gt => q + 1
  | Eq => if Z.even q then q else q + 1
  end%Z.

Definition cents (n : Z) : string :=
  pretty (n / 100)%Z +:+ "." +:+ pretty (n / 10 mod 10)%Z +:+ pretty (n mod 10)%Z.

Definition fmt_2f (x : float64) : string :=
  match x with
  | SpecFloat.S754_nan => "NaN"
  | SpecFloat.S754_infinity s => if s then "-Inf" else "+Inf"
  | SpecFloat.S754_zero s => if s then "-0.00" else "0.00"
  | SpecFloat.S754_finite s m e =>
      (if s then "-" else "") +:+
      cents (if (0 <=? e)%Z then Zpos m * 2 ^ e * 100 else round_even (Zpos m * 100) (2 ^ (- e)))%Z
  end.

(** ** Data *)

Record CounterSnapshot := { Value : Z; Timestamp : Z }.

Record CounterBreachFlag := {
  Breached : bool;
  flag_CheckName : string;
  flag_IsFatal : bool;
  Since : option Z;
  Device : string;
  Port : string;
}.

(** [CounterBreachFlag{Breached: false}], with the zero time. *)
Definition cleared : CounterBreachFlag :=
  {| Breached := false; flag_CheckName := ""; flag_IsFatal := false; Since := None;
     Device := ""; Port := "" |}.

Record CounterConfig := {
  Name : string;
  Path : string;
  Enabled : bool;
  cfg_IsFatal : bool;
  ThresholdType : string;
  Threshold : float64;
  VelocityUnit : string;
  Description : string;
}.

Record IBPort := { port_Device : string; port_Port : Z }.

Definition thresholdTypeDelta : string := "delta".
Definition thresholdTypeVelocity : string := "velocity".
Definition velocityUnitSecond : string := "second".
Definition velocityUnitMinute : string := "minute".
Definition velocityUnitHour : string := "hour".
Definition netStatisticsPathPrefix : string := "statistics/".
Definition netdevAttrPathPrefix : string := "netdev/".

Definition isNetCounterPath (path : string) : bool :=
  String.prefix netStatisticsPathPrefix path || String.prefix netdevAttrPathPrefix path.

(** The operations of [sysfs.Reader] the evaluator calls, as the counter files
    are at the time of a poll. *)
Record Reader := {
  ReadIBPortCounter : string -> Z -> string -> result Z;
  ReadNetStatistic : string -> string -> result Z;
  ReadNetAttribute : string -> string -> result Z;
}.

Record Evaluator := {
  nodeName : string;
  processingStrategy : ProcessingStrategy;
  snapshots : gmap string CounterSnapshot;
  breachFlags : gmap string CounterBreachFlag;
  lastPollValues : gmap string Z;
  ownedKeys : gset string;
  touchedThisPoll : gset string;
  bootIDChanged : bool;
  baselineActive : bool;
  unreadableWarned : gset string;
}.

Definition NewEvaluator (node : string) (ps : ProcessingStrategy)
    (snaps : option (gmap string CounterSnapshot)) (flags : option (gmap string CounterBreachFlag))
    (bootChanged : bool) : Evaluator :=
  {| nodeName := node; processingStrategy := ps; snapshots := default ∅ snaps;
     breachFlags := default ∅ flags; lastPollValues := ∅; ownedKeys := ∅; touchedThisPoll := ∅;
     bootIDChanged := bootChanged; baselineActive := true; unreadableWarned := ∅ |}.

(** ** Assignments *)

Definition set_snapshot (e : Evaluator) (k : string) (v : Z) (now : Z) : Evaluator :=
  {| nodeName := nodeName e; processingStrategy := processingStrategy e;
     snapshots := <[k := {| Value := v; Timestamp := now |}]> (snapshots e);
     breachFlags := breachFlags e; lastPollValues := lastPollValues e; ownedKeys := ownedKeys e;
     touchedThisPoll := touchedThisPoll e; bootIDChanged := bootIDChanged e;
     baselineActive := baselineActive e; unreadableWarned := unreadableWarned e |}.

Definition set_flag (e : Evaluator) (k : string) (f : CounterBreachFlag) : Evaluator :=
  {| nodeName := nodeName e; processingStrategy := processingStrategy e; snapshots := snapshots e;
     breachFlags := <[k := f]> (breachFlags e); lastPollValues := lastPollValues e;
     ownedKeys := ownedKeys e; touchedThisPoll := touchedThisPoll e; bootIDChanged := bootIDChanged e;
     baselineActive := baselineActive e; unreadableWarned := unreadableWarned e |}.

Definition set_last (e : Evaluator) (k : string) (v : Z) : Evaluator :=
  {| nodeName := nodeName e; processingStrategy := processingStrategy e; snapshots := snapshots e;
     breachFlags := breachFlags e; lastPollValues := <[k := v]> (lastPollValues e);
     ownedKeys := ownedKeys e; touchedThisPoll := touchedThisPoll e; bootIDChanged := bootIDChanged e;
     baselineActive := baselineActive e; unreadableWarned := unreadableWarned e |}.

Definition set_key_sets (e : Evaluator) (owned touched warned : gset string) : Evaluator :=
  {| nodeName := nodeName e; processingStrategy := processingStrategy e; snapshots := snapshots e;
     breachFlags := breachFlags e; lastPollValues := lastPollValues e; ownedKeys := owned;
     touchedThisPoll := touched; bootIDChanged := bootIDChanged e; baselineActive := baselineActive e;
     unreadableWarned := warned |}.

Definition own (e : Evaluator) (k : string) : Evaluator :=
  set_key_sets e ({[k]} ∪ ownedKeys e) (touchedThisPoll e) (unreadableWarned e).

Definition touch (e : Evaluator) (k : string) : Evaluator :=
  set_key_sets e (ownedKeys e) ({[k]} ∪ touchedThisPoll e) (unreadableWarned e).

Definition set_baseline (e : Evaluator) (boot active : bool) : Evaluator :=
  {| nodeName := nodeName e; processingStrategy := processingStrategy e; snapshots := snapshots e;
     breachFlags := breachFlags e; lastPollValues := lastPollValues e; ownedKeys := ownedKeys e;
     touchedThisPoll := touchedThisPoll e; bootIDChanged := boot; baselineActive := active;
     unreadableWarned := unreadableWarned e |}.

Definition Clone (e : Evaluator) : Evaluator := set_key_sets e (ownedKeys e) ∅ (unreadableWarned e).
Definition ClearBootIDFlag (e : Evaluator) : Evaluator := set_baseline e false (baselineActive e).
Definition BootBaselinePending (e : Evaluator) : bool := bootIDChanged e.
Definition SetBaselineActive (e : Evaluator) (active : bool) : Evaluator :=
  set_baseline e (bootIDChanged e) active.

Definition HasState (e : Evaluator) : bool :=
  (0 <? size (snapshots e)) || (0 <? size (breachFlags e)) || (0 <? size (lastPollValues e)).

Definition Snapshots (e : Evaluator) : gmap string CounterSnapshot :=
  filter (fun kv => kv.1 ∈ ownedKeys e) (snapshots e).

Definition BreachFlags (e : Evaluator) : gmap string CounterBreachFlag :=
  map_imap (fun k _ => Some (default cleared (breachFlags e !! k))) (gset_to_gmap tt (ownedKeys e)).

(** ** Rates *)

Definition windowDuration (unit : string) : Z :=
  if unit ==s velocityUnitSecond then Second
  else if unit ==s velocityUnitMinute then Minute
  else if unit ==s velocityUnitHour then Hour
  else Second.

(** [Duration.Seconds], [Minutes] and [Hours]: whole units plus the rest. *)
Definition in_units (d unit : Z) : float64 :=
  f64_add (f64_of_int (Z.quot d unit)) (f64_div (f64_of_int (Z.rem d unit)) (f64_of_int unit)).

Definition computeRate (delta elapsed : Z) (unit : string) : float64 :=
  if (elapsed <=? 0)%Z then f64_zero
  else if unit ==s velocityUnitSecond then f64_div (f64_of_int delta) (in_units elapsed Second)
  else if unit ==s velocityUnitMinute then f64_div (f64_of_int delta) (in_units elapsed Minute)
  else if unit ==s velocityUnitHour then f64_div (f64_of_int delta) (in_units elapsed Hour)
  else f64_div (f64_of_int delta) (in_units elapsed Second).

Definition CalculateDelta (current previous : Z) : Z :=
  if (current <? previous)%Z then current else wrap_uint64 (current - previous).

Definition EvaluateThreshold (cfg : CounterConfig) (delta elapsed : Z) : bool :=
  if ThresholdType cfg ==s thresholdTypeDelta then f64_gtb (f64_of_int delta) (Threshold cfg)
  else if ThresholdType cfg ==s thresholdTypeVelocity
  then f64_gtb (computeRate delta elapsed (VelocityUnit cfg)) (Threshold cfg)
  else false.

Definition ResolveAction (isFatal : bool) : RecommendedAction := if isFatal then REPLACE_VM else NONE.

(** ** Keys, entities and events *)

Definition portCounterKey (device : string) (port : Z) (counterName : string) : string :=
  device +:+ ":" +:+ pretty port +:+ ":" +:+ counterName.
Definition netCounterKey (iface counterName : string) : string := "net:" +:+ iface +:+ ":" +:+ counterName.

Definition EntityTypeNIC : string := "NIC".
Definition EntityTypePort : string := "NICPort".

Definition PortEntities (device : string) (port : Z) : list Entity :=
  [{| EntityType := EntityTypeNIC; EntityValue := device |};
   {| EntityType := EntityTypePort; EntityValue := pretty port |}].

Definition devicePortFromEntities (entities : list Entity) : string * string :=
  fold_left (fun '(device, port) e =>
    if EntityType e ==s EntityTypeNIC then (EntityValue e, port)
    else if EntityType e ==s EntityTypePort then (device, EntityValue e)
    else (device, port)) entities (""%string, ""%string).

Definition parsePortCounterKey (key : string) : option (string * Z * string) :=
  match split_on colon key with
  | [d; p; c] =>
      if d ==s "net" then None
      else match atoi p with Some port => Some (d, port, c) | None => None end
  | _ => None
  end.

(** The entities, when they can be resolved, with the device and the counter. *)
Definition breachIdentity (key : string) (flag : CounterBreachFlag) : option (list Entity) * string * string :=
  let counter := default key (after_last colon key) in
  let parsed :=
    match parsePortCounterKey key with
    | Some (device, port, counterName) => (Some (PortEntities device port), device, counterName)
    | None => (None, ""%string, counter)
    end in
  if (Device flag <>s "") && (Port flag <>s "") then
    match atoi (Port flag) with
    | Some p => (Some (PortEntities (Device flag) p), Device flag, counter)
    | None => parsed
    end
  else parsed.

Definition InfiniBandStateCheckName : string := "InfiniBandStateCheck".
Definition InfiniBandDegradationCheckName : string := "InfiniBandDegradationCheck".
Definition EthernetStateCheckName : string := "EthernetStateCheck".
Definition EthernetDegradationCheckName : string := "EthernetDegradationCheck".

Definition fatalCheckName (checkName : string) : string :=
  if checkName ==s InfiniBandDegradationCheckName then InfiniBandStateCheckName
  else if checkName ==s EthernetDegradationCheckName then EthernetStateCheckName
  else checkName.

Definition NewHealthEvent (stamp : Z) (node checkName message : string) (entities : list Entity)
    (isFatal isHealthy : bool) (action : RecommendedAction) (ps : ProcessingStrategy) : HealthEvent :=
  {| Version := 1; Agent := "nic-health-monitor"; ComponentClass := "NIC"; CheckName := checkName;
     IsFatal := isFatal; IsHealthy := isHealthy; Message := message; Action := action; ErrorCode := [];
     EntitiesImpacted := entities; Metadata := ∅; GeneratedSeconds := Some (stamp / Second)%Z;
     NodeName := node; QuarantineOverrides := None; DrainOverrides := None; Strategy := ps; Id := "";
     CustomRecommendedAction := "" |}.

Definition withCounterCode (evt : HealthEvent) (counterName : string) : HealthEvent :=
  with_entities_codes evt (EntitiesImpacted evt) [counterName].

(** ** One reading *)

Definition isReset (e : Evaluator) (key : string) (currentValue snapshotValue : Z) : bool :=
  match lastPollValues e !! key with
  | Some last => (currentValue <? last)%Z
  | None => (currentValue <? snapshotValue)%Z
  end.

Definition isBreached (e : Evaluator) (key : string) : bool :=
  match breachFlags e !! key with Some flag => Breached flag | None => false end.

Section evaluation.
(** The clock reading that stamps the event built for a key. *)
Context (stamp : string -> Z).

Definition rateUnit (cfg : CounterConfig) : string :=
  if ThresholdType cfg ==s thresholdTypeVelocity then
    if VelocityUnit cfg ==s velocityUnitSecond then "sec"
    else if VelocityUnit cfg ==s velocityUnitMinute then "min"
    else if VelocityUnit cfg ==s velocityUnitHour then "hour"
    else VelocityUnit cfg
  else "interval".

Definition recordBreach (e : Evaluator) (key : string) (currentValue delta : Z) (rate : float64) (now : Z)
    (cfg : CounterConfig) (entities : list Entity) (checkName : string) : Evaluator * option HealthEvent :=
  let '(device, port) := devicePortFromEntities entities in
  let e := set_flag e key {| Breached := true; flag_CheckName := checkName; flag_IsFatal := cfg_IsFatal cfg;
                             Since := Some now; Device := device; Port := port |} in
  let message := ("Port " +:+ device +:+ " port " +:+ port +:+ ": " +:+ Name cfg +:+ " - " +:+
    Description cfg +:+ " (value=" +:+ pretty currentValue +:+ ", delta=" +:+ pretty delta +:+
    ", rate=" +:+ fmt_2f rate +:+ "/" +:+ rateUnit cfg +:+ ")")%string in
  (e, Some (withCounterCode (NewHealthEvent (stamp key) (nodeName e) checkName message entities
              (cfg_IsFatal cfg) false (ResolveAction (cfg_IsFatal cfg)) (processingStrategy e)) (Name cfg))).

Definition evaluateDelta (e : Evaluator) (key : string) (currentValue : Z) (prev : CounterSnapshot) (now : Z)
    (cfg : CounterConfig) (entities : list Entity) (checkName : string) : Evaluator * option HealthEvent :=
  let delta := wrap_uint64 (currentValue - Value prev) in
  let e := set_snapshot e key currentValue now in
  if f64_leb (f64_of_int delta) (Threshold cfg) then (e, None)
  else recordBreach e key currentValue delta f64_zero now cfg entities checkName.

Definition evaluateVelocity (e : Evaluator) (key : string) (currentValue : Z) (prev : CounterSnapshot) (now : Z)
    (cfg : CounterConfig) (entities : list Entity) (checkName : string) : Evaluator * option HealthEvent :=
  let elapsed := time_sub now (Timestamp prev) in
  if (elapsed <? windowDuration (VelocityUnit cfg))%Z then (e, None)
  else
    let delta := wrap_uint64 (currentValue - Value prev) in
    let rate := computeRate delta elapsed (VelocityUnit cfg) in
    let e := set_snapshot e key currentValue now in
    if f64_leb rate (Threshold cfg) then (e, None)
    else recordBreach e key currentValue delta rate now cfg entities checkName.

Definition handleReset (e : Evaluator) (key : string) (currentValue now : Z) (cfg : CounterConfig)
    (entities : list Entity) (checkName : string) : Evaluator * option HealthEvent :=
  let flag := breachFlags e !! key in
  let e := set_snapshot (set_flag e key cleared) key currentValue now in
  match flag with
  | Some flag =>
      if negb (Breached flag) then (e, None)
      else
        let '(device, port) := devicePortFromEntities entities in
        let message := ("Counter " +:+ Name cfg +:+ " recovered on port " +:+ device +:+ " port " +:+ port)%string in
        let recoveryCheckName :=
          if flag_CheckName flag ==s "" then
            if cfg_IsFatal cfg then fatalCheckName checkName else checkName
          else flag_CheckName flag in
        (e, Some (withCounterCode (NewHealthEvent (stamp key) (nodeName e) recoveryCheckName message entities
                    false true NONE (processingStrategy e)) (Name cfg)))
  | None => (e, None)
  end.

Definition baselineEvent (e : Evaluator) (key : string) (cfg : CounterConfig) (entities : list Entity)
    (checkName : string) : HealthEvent :=
  let '(device, port) := devicePortFromEntities entities in
  let message := ("Counter " +:+ Name cfg +:+ " healthy after reboot on port " +:+ device +:+ " port " +:+ port)%string in
  withCounterCode (NewHealthEvent (stamp key) (nodeName e) checkName message entities false true NONE
                     (processingStrategy e)) (Name cfg).

Definition replayBreach (e : Evaluator) (key : string) (flag : CounterBreachFlag) (cfg : CounterConfig)
    (entities : list Entity) (checkName : string) : HealthEvent :=
  let effectiveCheckName := if flag_CheckName flag ==s "" then checkName else flag_CheckName flag in
  let '(device, port) := devicePortFromEntities entities in
  let message := ("Port " +:+ device +:+ " port " +:+ port +:+ ": " +:+ Name cfg +:+ " - " +:+ Description cfg +:+
    " (re-asserting outstanding breach after baseline reconciliation)")%string in
  withCounterCode (NewHealthEvent (stamp key) (nodeName e) effectiveCheckName message entities
                     (flag_IsFatal flag) false (ResolveAction (flag_IsFatal flag)) (processingStrategy e)) (Name cfg).

Definition baselineOne (e : Evaluator) (key : string) (currentValue now : Z) (cfg : CounterConfig)
    (entities : list Entity) (checkName : string) : Evaluator * option HealthEvent :=
  let flag := default cleared (breachFlags e !! key) in
  let windowBreached := isBreached e key in
  let resetObserved :=
    if windowBreached then
      match snapshots e !! key with
      | Some prev => isReset e key currentValue (Value prev)
      | None => false
      end
    else false in
  let e := set_last (set_snapshot e key currentValue now) key currentValue in
  if windowBreached && negb resetObserved then (e, Some (replayBreach e key flag cfg entities checkName))
  else
    let e := set_flag e key cleared in
    (e, Some (baselineEvent e key cfg entities checkName)).

Definition evaluateOne (e : Evaluator) (key : string) (currentValue now : Z) (cfg : CounterConfig)
    (entities : list Entity) (checkName : string) : Evaluator * option HealthEvent :=
  let e := touch (own e key) key in
  if bootIDChanged e && baselineActive e then baselineOne e key currentValue now cfg entities checkName
  else
    let '(e, event) :=
      match snapshots e !! key with
      | None => (set_snapshot e key currentValue now, None)
      | Some prev =>
          if isReset e key currentValue (Value prev)
          then handleReset e key currentValue now cfg entities checkName
          else if isBreached e key then (e, None)
          else if ThresholdType cfg ==s thresholdTypeDelta
          then evaluateDelta e key currentValue prev now cfg entities checkName
          else if ThresholdType cfg ==s thresholdTypeVelocity
          then evaluateVelocity e key currentValue prev now cfg entities checkName
          else (e, None)
      end in
    (set_last e key currentValue, event).

(** ** A port and an interface *)

Definition warnUnreadableOnce (e : Evaluator) (key : string) : Evaluator :=
  set_key_sets e (ownedKeys e) (touchedThisPoll e) ({[key]} ∪ unreadableWarned e).

(** The loop over the counters, with the test, key and read of its caller. *)
Fixpoint evaluateEach (skip : CounterConfig -> bool) (keyOf : CounterConfig -> string)
    (read : CounterConfig -> result Z) (entities : list Entity) (checkName : string) (now : Z)
    (e : Evaluator) (events : list HealthEvent) (counters : list CounterConfig) : Evaluator * list HealthEvent :=
  match counters with
  | [] => (e, events)
  | cfg :: rest =>
      if skip cfg then evaluateEach skip keyOf read entities checkName now e events rest
      else
        match read cfg with
        | Err _ => evaluateEach skip keyOf read entities checkName now (warnUnreadableOnce e (keyOf cfg)) events rest
        | Ok currentValue =>
            let '(e, event) := evaluateOne e (keyOf cfg) currentValue now cfg entities checkName in
            evaluateEach skip keyOf read entities checkName now e
              (match event with Some ev => events ++ [ev] | None => events end) rest
        end
  end.

Definition EvaluateCounters (reader : Reader) (now : Z) (e : Evaluator) (port : IBPort)
    (counters : list CounterConfig) (checkName : string) : Evaluator * list HealthEvent :=
  evaluateEach (fun cfg => negb (Enabled cfg) || isNetCounterPath (Path cfg))
    (fun cfg => portCounterKey (port_Device port) (port_Port port) (Name cfg))
    (fun cfg => ReadIBPortCounter reader (port_Device port) (port_Port port) (Path cfg))
    (PortEntities (port_Device port) (port_Port port)) checkName now e [] counters.

Definition readNetCounter (reader : Reader) (iface path : string) : result Z :=
  match strip_prefix netStatisticsPathPrefix path with
  | Some statFile =>
      if statFile ==s "" then Err ("empty statistics counter path " +:+ path)
      else ReadNetStatistic reader iface statFile
  | None =>
      let attr := default path (strip_prefix netdevAttrPathPrefix path) in
      if attr ==s "" then Err ("empty netdev attribute path " +:+ path)
      else ReadNetAttribute reader iface attr
  end.

Definition EvaluateNetCounters (reader : Reader) (now : Z) (e : Evaluator) (netDev : string) (port : IBPort)
    (counters : list CounterConfig) (checkName : string) : Evaluator * list HealthEvent :=
  if netDev ==s "" then (e, [])
  else
    evaluateEach (fun cfg => negb (Enabled cfg) || negb (isNetCounterPath (Path cfg)))
      (fun cfg => netCounterKey netDev (Name cfg)) (fun cfg => readNetCounter reader netDev (Path cfg))
      (PortEntities (port_Device port) (port_Port port)) checkName now e [] counters.

(** ** Latches that evaluation does not reach *)

Context `{MapRange}.

Definition sweepOne (enabledCounters ineligibleDevices : gmap string bool) (checkName : string)
    (acc : Evaluator * list HealthEvent) (kf : string * CounterBreachFlag) : Evaluator * list HealthEvent :=
  let '(e, events) := acc in
  let '(key, flag) := kf in
  if negb (Breached flag) || (flag_CheckName flag <>s checkName) then acc
  else
    match breachIdentity key flag with
    | (None, _, _) => acc
    | (Some entities, device, counterName) =>
        if default false (enabledCounters !! counterName) && negb (default false (ineligibleDevices !! device))
        then acc
        else
          let e := set_flag (own e key) key cleared in
          let message := ("Counter " +:+ counterName +:+ " on " +:+ device +:+ " is no longer monitored " +:+
            "(counter disabled or device out of monitoring scope); clearing stale breach")%string in
          (e, events ++ [withCounterCode (NewHealthEvent (stamp key) (nodeName e) checkName message entities
                           false true NONE (processingStrategy e)) counterName])
    end.

Definition SweepStaleBreaches (e : Evaluator) (enabledCounters ineligibleDevices : gmap string bool)
    (checkName : string) : Evaluator * list HealthEvent :=
  fold_left (sweepOne enabledCounters ineligibleDevices checkName) (range (breachFlags e)) (e, []).

Definition replayOne (checkName : string) (acc : Evaluator * list HealthEvent)
    (kf : string * CounterBreachFlag) : Evaluator * list HealthEvent :=
  let '(e, events) := acc in
  let '(key, flag) := kf in
  if negb (Breached flag) || (flag_CheckName flag <>s checkName) then acc
  else if bool_decide (key ∈ touchedThisPoll e) then acc
  else
    match breachIdentity key flag with
    | (None, _, _) => (set_flag (own e key) key cleared, events)
    | (Some entities, device, counterName) =>
        let message := ("Counter " +:+ counterName +:+ " on " +:+ device +:+ " is not currently readable; " +:+
          "re-asserting outstanding breach after baseline reconciliation")%string in
        (e, events ++ [withCounterCode (NewHealthEvent (stamp key) (nodeName e) checkName message entities
                         (flag_IsFatal flag) false (ResolveAction (flag_IsFatal flag)) (processingStrategy e))
                         counterName])
    end.

Definition ReplayUnobservedBreaches (e : Evaluator) (checkName : string) : Evaluator * list HealthEvent :=
  fold_left (replayOne checkName) (range (breachFlags e)) (e, []).

End evaluation.

(** ** Identities of latched breaches *)

Lemma digits_pretty_N_go x s : digits 0 (pretty_N_go x s) = digits (Z.of_N x) s.
Proof.
  revert s. induction (N.lt_wf_0 x) as [x _ IH]; intros s.
  destruct (decide (0 < x)%N) as [Hx|Hx].
  - rewrite pretty_N_go_step by done. rewrite IH by by apply N.div_lt. cbn [digits].
    assert (Hm : (x mod 10 < 10)%N) by by apply N.mod_lt.
    assert (Hd : digit (pretty_N_char (x mod 10)) = Some (Z.of_N (x mod 10))).
    { destruct (x mod 10)%N as [|q]; [done|]. do 4 (destruct q as [q|q|]; try done; try lia). }
    rewrite Hd. f_equal. rewrite N2Z.inj_div, N2Z.inj_mod. pose proof (Z.div_mod (Z.of_N x) 10). lia.
  - replace x with 0%N by lia. by rewrite pretty_N_go_0.
Qed.

Lemma digits_pretty_pos (p : positive) : digits 0 (pretty p) = Some (Zpos p).
Proof. exact (digits_pretty_N_go (Npos p) ""). Qed.

Lemma atoi_digits s n : s <> ""%string -> digits 0 s = Some n -> in_int64 n -> atoi s = Some n.
Proof.
  intros Hs Hd Hn. unfold atoi. destruct s as [|c s]; [done|].
  assert (Hc : digit c <> None) by (cbn [digits] in Hd; by destruct (digit c)).
  assert (Hs' : forall A (a b d : A), (match c with "+"%char => a | "-"%char => b | _ => d end) = d).
  { intros. destruct c as [[] [] [] [] [] [] [] []]; done. }
  rewrite Hs', Hd. replace (1 * n)%Z with n by lia. by rewrite decide_True.
Qed.

Lemma pretty_pos_nonempty (p : positive) : pretty p <> ""%string.
Proof. intros H. pose proof (digits_pretty_pos p) as Hd. rewrite H in Hd. done. Qed.

(** [strconv.Atoi] reads back what [strconv.Itoa] writes. *)
Lemma atoi_itoa z : in_int64 z -> atoi (pretty z) = Some z.
Proof.
  intros Hz. destruct z as [|p|p]; [done| |].
  - apply atoi_digits; [apply pretty_pos_nonempty|apply digits_pretty_pos|done].
  - change (pretty (Zneg p)) with (String "-"%char (pretty p)). unfold atoi.
    pose proof (digits_pretty_pos p) as Hd. pose proof (pretty_pos_nonempty p) as Hne.
    destruct (pretty p) as [|c s]; [done|]. rewrite Hd.
    change (-1 * Zpos p)%Z with (Zneg p). by rewrite decide_True.
Qed.

(** A breach recorded for a port can be re-asserted on exactly that port,
    whatever the key looks like. *)
Lemma breachIdentity_recorded key device port check fatal since :
  device <> ""%string -> in_int64 port ->
  let '(dv, pt) := devicePortFromEntities (PortEntities device port) in
  breachIdentity key {| Breached := true; flag_CheckName := check; flag_IsFatal := fatal; Since := since;
                        Device := dv; Port := pt |} =
  (Some (PortEntities device port), device, default key (after_last colon key)).
Proof.
  intros Hd Hp. assert (He : devicePortFromEntities (PortEntities device port) = (device, pretty port)) by reflexivity.
  rewrite He. unfold breachIdentity. cbn [Device Port].
  rewrite (atoi_itoa port Hp). unfold go_eqb. rewrite (bool_decide_eq_false_2 (device = ""%string)) by done.
  rewrite bool_decide_eq_false_2; [done|]. intros H. pose proof (atoi_itoa port Hp) as Ha. by rewrite H in Ha.
Qed.

(** ** A counter on its own

    The reference: per counter a window (its start value and time), the last
    reading, and the check that holds a breach.  Differences are exact. *)

Record counter_state := { c_window : option (Z * Z * Z); c_latched : option string }.

Inductive signal := SBreach (check : string) | SRecovery (check : string).

Definition signal_of (ev : HealthEvent) : signal :=
  if IsHealthy ev then SRecovery (CheckName ev) else SBreach (CheckName ev).

(** Whether a rise by [delta] in [elapsed] breaches, when the counter's window is
    over; [None] while it is still open. *)
Definition verdict (cfg : CounterConfig) (delta elapsed : Z) : option bool :=
  if ThresholdType cfg ==s thresholdTypeDelta
  then Some (negb (f64_leb (f64_of_int delta) (Threshold cfg)))
  else if ThresholdType cfg ==s thresholdTypeVelocity
  then if (elapsed <? windowDuration (VelocityUnit cfg))%Z then None
       else Some (negb (f64_leb (computeRate delta elapsed (VelocityUnit cfg)) (Threshold cfg)))
  else None.

Definition recovery_check (cfg : CounterConfig) (checkName held : string) : string :=
  if held ==s "" then if cfg_IsFatal cfg then fatalCheckName checkName else checkName else held.

Definition counter_step (cfg : CounterConfig) (checkName : string) (now r : Z) (s : counter_state) :
    counter_state * option signal :=
  match c_window s with
  | None => ({| c_window := Some (r, now, r); c_latched := c_latched s |}, None)
  | Some (v, t, last) =>
      if (r <? last)%Z then
        ({| c_window := Some (r, now, r); c_latched := None |},
         SRecovery ∘ recovery_check cfg checkName <$> c_latched s)
      else
        match c_latched s with
        | Some held => ({| c_window := Some (v, t, r); c_latched := Some held |}, None)
        | None =>
            match verdict cfg (r - v) (time_sub now t) with
            | None => ({| c_window := Some (v, t, r); c_latched := None |}, None)
            | Some false => ({| c_window := Some (r, now, r); c_latched := None |}, None)
            | Some true => ({| c_window := Some (r, now, r); c_latched := Some checkName |}, Some (SBreach checkName))
            end
        end
  end.

(** What the evaluator knows of one counter. *)
Definition latch_of (e : Evaluator) (k : string) : option string :=
  flag ← breachFlags e !! k; if Breached flag then Some (flag_CheckName flag) else None.

Definition counter_of (e : Evaluator) (k : string) : counter_state :=
  {| c_window := s ← snapshots e !! k; Some (Value s, Timestamp s, default (Value s) (lastPollValues e !! k));
     c_latched := latch_of e k |}.

(** Every last reading has a snapshot at most as large, in [uint64]. *)
Definition coherent (e : Evaluator) : Prop :=
  (forall k s, snapshots e !! k = Some s -> in_uint64 (Value s)) /\
  (forall k last, lastPollValues e !! k = Some last ->
     in_uint64 last /\ exists s, snapshots e !! k = Some s /\ (Value s <= last)%Z).

Definition monitoring (e : Evaluator) : Prop := bootIDChanged e && baselineActive e = false.

(** One reading of one counter in a poll. *)
Record reading := {
  r_key : string; r_value : Z; r_now : Z; r_stamp : string -> Z; r_cfg : CounterConfig;
  r_entities : list Entity; r_check : string }.

Definition observe (e : Evaluator) (r : reading) : Evaluator * option HealthEvent :=
  evaluateOne (r_stamp r) e (r_key r) (r_value r) (r_now r) (r_cfg r) (r_entities r) (r_check r).

(** A sequence of readings, with the key and event of each. *)
Fixpoint observe_all (e : Evaluator) (rs : list reading) : Evaluator * list (string * option HealthEvent) :=
  match rs with
  | [] => (e, [])
  | r :: rest =>
      let '(e1, ev) := observe e r in
      let '(e2, evs) := observe_all e1 rest in (e2, (r_key r, ev) :: evs)
  end.

Fixpoint counter_run (s : counter_state) (rs : list reading) : counter_state * list signal :=
  match rs with
  | [] => (s, [])
  | r :: rest =>
      let '(s1, sg) := counter_step (r_cfg r) (r_check r) (r_now r) (r_value r) s in
      let '(s2, sgs) := counter_run s1 rest in (s2, option_list sg ++ sgs)
  end.

(** The signals of one key in the answers of a sequence of readings. *)
Definition signals (k : string) (evs : list (string * option HealthEvent)) : list signal :=
  flat_map (fun '(k', ev) => if k' ==s k then option_list (signal_of <$> ev) else []) evs.

Lemma isBreached_latch e k : isBreached e k = bool_decide (is_Some (latch_of e k)).
Proof.
  unfold isBreached, latch_of. destruct (breachFlags e !! k) as [f|]; simpl; [|done].
  by destruct (Breached f).
Qed.

Lemma isReset_last e k r s :
  isReset e k r (Value s) = (r <? default (Value s) (lastPollValues e !! k))%Z.
Proof. unfold isReset. by destruct (lastPollValues e !! k). Qed.

Lemma coherent_window e k s :
  coherent e -> snapshots e !! k = Some s ->
  (in_uint64 (Value s) /\ Value s <= default (Value s) (lastPollValues e !! k))%Z.
Proof.
  intros [H1 H2] Hs. split; [by eapply H1|]. destruct (lastPollValues e !! k) as [l|] eqn:Hl; simpl; [|lia].
  destruct (H2 _ _ Hl) as (_ & s' & Hs' & Hle). congruence.
Qed.

(** What an observation of [key] leaves when it ends with snapshot [sn] and
    latch [l]. *)
Lemma observed_frame e e' key cur sn l (sg : option signal) :
  coherent e -> monitoring e -> in_uint64 cur -> in_uint64 (Value sn) -> (Value sn <= cur)%Z ->
  snapshots e' = <[key := sn]> (snapshots e) -> lastPollValues e' = <[key := cur]> (lastPollValues e) ->
  (forall k, k <> key -> breachFlags e' !! k = breachFlags e !! k) ->
  bootIDChanged e' = bootIDChanged e -> baselineActive e' = baselineActive e -> latch_of e' key = l ->
  coherent e' /\ monitoring e' /\ (forall k, k <> key -> counter_of e' k = counter_of e k) /\
  ({| c_window := Some (Value sn, Timestamp sn, cur); c_latched := l |}, sg) = (counter_of e' key, sg).
Proof.
  intros [Hc1 Hc2] Hm Hcur Hsn Hle Hs Hl Hf Hb Ha <-. split; [|split; [|split]].
  - split.
    + intros k s'. rewrite Hs. intros [[-> ->]|[_ Hk]]%lookup_insert_Some; [done|by eapply Hc1].
    + intros k last. rewrite Hl, Hs. intros [[-> ->]|[Hne Hk]]%lookup_insert_Some.
      * rewrite lookup_insert_eq. eauto.
      * rewrite lookup_insert_ne by done. by apply Hc2.
  - unfold monitoring. by rewrite Hb, Ha.
  - intros k Hk. unfold counter_of, latch_of. rewrite Hs, Hl, (Hf k Hk), !lookup_insert_ne by done. done.
  - unfold counter_of. by rewrite Hs, Hl, !lookup_insert_eq.
Qed.

Lemma latch_of_set_flag e k f :
  latch_of (set_flag e k f) k = if Breached f then Some (flag_CheckName f) else None.
Proof. unfold latch_of. simpl. by rewrite lookup_insert_eq. Qed.

Lemma handleReset_signal stamp e key cur now cfg es check :
  let '(e', ev) := handleReset stamp e key cur now cfg es check in
  e' = set_snapshot (set_flag e key cleared) key cur now /\
  signal_of <$> ev = SRecovery ∘ recovery_check cfg check <$> latch_of e key.
Proof.
  unfold handleReset, latch_of. destruct (breachFlags e !! key) as [f|]; simpl; [|done].
  destruct (Breached f); simpl; [|done]. by destruct (devicePortFromEntities es).
Qed.

Lemma recordBreach_signal stamp e key cur delta rate now cfg es check :
  exists f, Breached f = true /\ flag_CheckName f = check /\
  (recordBreach stamp e key cur delta rate now cfg es check).1 = set_flag e key f /\
  signal_of <$> (recordBreach stamp e key cur delta rate now cfg es check).2 = Some (SBreach check).
Proof.
  unfold recordBreach. destruct (devicePortFromEntities es) as [dv pt].
  by exists {| Breached := true; flag_CheckName := check; flag_IsFatal := cfg_IsFatal cfg;
               Since := Some now; Device := dv; Port := pt |}.
Qed.

(** The evaluation that follows when neither a reset nor a latch decides. *)
Lemma evaluate_thresholds stamp e key cur prev now cfg es check :
  wrap_uint64 (cur - Value prev) = (cur - Value prev)%Z -> latch_of e key = None ->
  let '(e', ev) :=
    if ThresholdType cfg ==s thresholdTypeDelta then evaluateDelta stamp e key cur prev now cfg es check
    else if ThresholdType cfg ==s thresholdTypeVelocity then evaluateVelocity stamp e key cur prev now cfg es check
    else (e, None) in
  match verdict cfg (cur - Value prev) (time_sub now (Timestamp prev)) with
  | None => e' = e /\ ev = None
  | Some false => e' = set_snapshot e key cur now /\ ev = None
  | Some true => exists f, Breached f = true /\ flag_CheckName f = check /\
      e' = set_flag (set_snapshot e key cur now) key f /\ signal_of <$> ev = Some (SBreach check)
  end.
Proof.
  intros Hw Hl. unfold verdict, evaluateDelta, evaluateVelocity. rewrite Hw.
  destruct (ThresholdType cfg ==s thresholdTypeDelta).
  - destruct (f64_leb _ _); cbn [negb]; [done|].
    match goal with |- let '(_, _) := ?x in _ => pose proof (surjective_pairing x) as Hx; rewrite Hx end.
    apply recordBreach_signal.
  - destruct (ThresholdType cfg ==s thresholdTypeVelocity); [|done].
    destruct (time_sub now (Timestamp prev) <? windowDuration (VelocityUnit cfg))%Z; [done|].
    destruct (f64_leb _ _); cbn [negb]; [done|].
    match goal with |- let '(_, _) := ?x in _ => pose proof (surjective_pairing x) as Hx; rewrite Hx end.
    apply recordBreach_signal.
Qed.

(** Close the case of an observation that ends with snapshot [sn]. *)
Ltac observed sn :=
  eapply (observed_frame _ _ _ _ sn); try done; try lia;
  try (by intros; simpl; rewrite lookup_insert_ne);
  try (unfold latch_of; simpl; rewrite lookup_insert_eq; simpl; congruence).

(** One observation is one step of its counter, and no other counter moves. *)
Lemma observe_spec e r :
  coherent e -> monitoring e -> in_uint64 (r_value r) ->
  let '(e', ev) := observe e r in
  coherent e' /\ monitoring e' /\
  (forall k, k <> r_key r -> counter_of e' k = counter_of e k) /\
  counter_step (r_cfg r) (r_check r) (r_now r) (r_value r) (counter_of e (r_key r)) =
    (counter_of e' (r_key r), signal_of <$> ev).
Proof.
  intros Hc Hm Hr. destruct r as [key cur now stamp cfg es check].
  unfold observe, evaluateOne. cbn [r_key r_value r_now r_stamp r_cfg r_entities r_check] in *.
  set (e0 := touch (own e key) key).
  assert (Hm0 : bootIDChanged e0 && baselineActive e0 = false) by exact Hm. rewrite Hm0. clear Hm0.
  assert (Hc0 : coherent e0) by exact Hc. assert (Hm0 : monitoring e0) by exact Hm.
  change (counter_of e) with (counter_of e0). clearbody e0. clear e Hc Hm. rename e0 into e.
  destruct (snapshots e !! key) as [prev|] eqn:Hp.
  2: { unfold counter_step. replace (c_window (counter_of e key)) with (@None (Z * Z * Z))
         by (unfold counter_of; cbn [c_window]; by rewrite Hp).
       observed {| Value := cur; Timestamp := now |}. }
  destruct (coherent_window e key prev Hc0 Hp) as [Hv Hle].
  unfold counter_step. change (c_latched (counter_of e key)) with (latch_of e key).
  replace (c_window (counter_of e key))
    with (Some (Value prev, Timestamp prev, default (Value prev) (lastPollValues e !! key)))
    by (unfold counter_of; cbn [c_window]; by rewrite Hp).
  rewrite isReset_last. destruct (Z.ltb_spec cur (default (Value prev) (lastPollValues e !! key))) as [Hlt|Hge].
  { pose proof (handleReset_signal stamp e key cur now cfg es check) as Hh.
    destruct (handleReset stamp e key cur now cfg es check) as [e' ev]. destruct Hh as [-> ->].
    observed {| Value := cur; Timestamp := now |}. }
  rewrite isBreached_latch. assert (Hid : snapshots e = <[key := prev]> (snapshots e)) by by rewrite insert_id.
  destruct (latch_of e key) as [held|] eqn:Hlatch.
  { rewrite bool_decide_eq_true_2 by done. observed prev. }
  rewrite bool_decide_eq_false_2 by (by intros [? ?]).
  assert (Hw : wrap_uint64 (cur - Value prev) = (cur - Value prev)%Z).
  { apply wrap_uint64_id. unfold in_uint64 in *. lia. }
  pose proof (evaluate_thresholds stamp e key cur prev now cfg es check Hw Hlatch) as Ht.
  match goal with |- context [let '(_, _) := ?x in (set_last _ _ _, _)] => destruct x as [e' ev] end.
  destruct (verdict cfg (cur - Value prev) (time_sub now (Timestamp prev))) as [[]|].
  - destruct Ht as (f & Hf & Hfc & -> & ->). observed {| Value := cur; Timestamp := now |}.
    unfold latch_of. simpl. rewrite lookup_insert_eq. simpl. by rewrite Hf, Hfc.
  - destruct Ht as [-> ->]. observed {| Value := cur; Timestamp := now |}.
  - destruct Ht as [-> ->]. observed prev.
Qed.

Lemma observe_all_spec rs : forall e k,
  coherent e -> monitoring e -> Forall (fun r => in_uint64 (r_value r)) rs ->
  let '(e', evs) := observe_all e rs in
  coherent e' /\ monitoring e' /\
  counter_run (counter_of e k) (List.filter (fun r => r_key r ==s k) rs) = (counter_of e' k, signals k evs).
Proof.
  induction rs as [|r rs IH]; intros e k Hc Hm Hr; cbn [observe_all List.filter]; [done|].
  inversion_clear Hr as [|? ? Hv Hrs]. pose proof (observe_spec e r Hc Hm Hv) as Ho.
  destruct (observe e r) as [e1 ev]. destruct Ho as (Hc1 & Hm1 & Hother & Hstep).
  specialize (IH e1 k Hc1 Hm1 Hrs). destruct (observe_all e1 rs) as [e2 evs].
  destruct IH as (Hc2 & Hm2 & Hrun). split; [done|]. split; [done|].
  cbn [signals flat_map]. fold (signals k evs).
  destruct (r_key r ==s k) eqn:Hk; unfold go_eqb in Hk.
  - apply bool_decide_eq_true in Hk as <-. cbn [counter_run]. by rewrite Hstep, Hrun.
  - apply bool_decide_eq_false in Hk. rewrite <- (Hother k) by congruence. by rewrite Hrun.
Qed.

(** A restart from any saved state keeps the invariant. *)
Lemma NewEvaluator_coherent node ps snaps flags boot :
  map_Forall (fun _ s => in_uint64 (Value s)) (default ∅ snaps) ->
  coherent (NewEvaluator node ps snaps flags boot).
Proof. intros H. split; [apply H|]. intros k last Hl. simpl in Hl. by rewrite lookup_empty in Hl. Qed.

(** C25 The evaluator is one reference automaton per counter, whenever it is not in
    the baseline poll that follows a reboot ([monitoring]; that poll reports every
    counter it reads afresh instead): for every sequence of readings, on any number of interleaved counters, from a state restored
    from saved snapshots or reached from one, the state kept for a counter and
    the breach and recovery events it causes are those the automaton computes
    from that counter's own readings, with exact differences, so the unsigned
    subtraction never wraps; and the invariant behind this is kept. *)
Theorem counters_refine_automata e rs k :
  coherent e -> monitoring e -> Forall (fun r => in_uint64 (r_value r)) rs ->
  let '(e', evs) := observe_all e rs in
  coherent e' /\ monitoring e' /\
  counter_run (counter_of e k) (List.filter (fun r => r_key r ==s k) rs) = (counter_of e' k, signals k evs).
Proof. apply observe_all_spec. Qed.

(** Breaches and recoveries alternate, starting with what the latch asks for,
    and a recovery names the check that holds the breach. *)
Fixpoint paired (held : option string) (sgs : list signal) : Prop :=
  match sgs with
  | [] => True
  | SBreach c :: rest => held = None /\ paired (Some c) rest
  | SRecovery c :: rest =>
      exists c0, held = Some c0 /\ (c0 <> ""%string -> c = c0) /\ paired None rest
  end.

Lemma counter_run_paired rs : forall s, paired (c_latched s) (counter_run s rs).2.
Proof.
  induction rs as [|r rs IH]; intros s; cbn [counter_run]; [done|].
  destruct (counter_step (r_cfg r) (r_check r) (r_now r) (r_value r) s) as [s1 sg] eqn:Hs.
  specialize (IH s1). destruct (counter_run s1 rs) as [s2 sgs]. cbn [snd] in *.
  unfold counter_step in Hs. destruct (c_window s) as [[[v t] last]|]; [|by injection Hs as <- <-].
  destruct (r_value r <? last)%Z.
  { injection Hs as <- <-. destruct (c_latched s) as [held|]; [|done]. exists held. split; [done|].
    split; [|done]. intros Hh. unfold compose, recovery_check, go_eqb. by rewrite bool_decide_eq_false_2. }
  destruct (c_latched s) as [held|]; [by injection Hs as <- <-|].
  destruct (verdict _ _ _) as [[]|]; by injection Hs as <- <-.
Qed.

(** Breaches latch: over any sequence of readings the events of a counter
    alternate between a breach and a recovery, beginning with a recovery exactly
    when the restored state holds a breach, so a held breach is neither repeated
    nor dropped, and each recovery carries the check name its breach was
    reported with. *)
Theorem counter_events_paired e rs k :
  coherent e -> monitoring e -> Forall (fun r => in_uint64 (r_value r)) rs ->
  paired (latch_of e k) (signals k (observe_all e rs).2).
Proof.
  intros Hc Hm Hr. pose proof (observe_all_spec rs e k Hc Hm Hr) as H.
  destruct (observe_all e rs) as [e' evs]. destruct H as (_ & _ & Hrun).
  pose proof (counter_run_paired (List.filter (fun r => r_key r ==s k) rs) (counter_of e k)) as Hp.
  by rewrite Hrun in Hp.
Qed.

(** ** Concrete runs *)

Module CounterDemo.

Definition link_downed : CounterConfig :=
  {| Name := "link_downed"; Path := "counters/link_downed"; Enabled := true; cfg_IsFatal := true;
     ThresholdType := "delta"; Threshold := f64_of_int 0; VelocityUnit := ""; Description := "link down" |}.

Definition symbol_error : CounterConfig :=
  {| Name := "symbol_error"; Path := "counters/symbol_error"; Enabled := true; cfg_IsFatal := false;
     ThresholdType := "velocity"; Threshold := f64_of_int 10; VelocityUnit := "second";
     Description := "symbol errors" |}.

Definition read_at (cfg : CounterConfig) (t v : Z) : reading :=
  {| r_key := portCounterKey "mlx5_0" 1 (Name cfg); r_value := v; r_now := (t * Second)%Z;
     r_stamp := fun _ => (t * Second)%Z; r_cfg := cfg; r_entities := PortEntities "mlx5_0" 1;
     r_check := InfiniBandDegradationCheckName |}.

Definition start : Evaluator := NewEvaluator "node-a" EXECUTE_REMEDIATION None None false.

Definition polls : list reading :=
  [read_at link_downed 0 5; read_at symbol_error 0 100; read_at link_downed 1 5;
   read_at link_downed 2 7; read_at symbol_error 2 121; read_at link_downed 3 9;
   read_at link_downed 4 0; read_at symbol_error 4 200].

Definition downed : string := portCounterKey "mlx5_0" 1 "link_downed".

(** Two rises of the fatal counter give one breach; its reset gives the recovery. *)
Example link_down_signals :
  signals downed (observe_all start polls).2 =
  [SBreach InfiniBandDegradationCheckName; SRecovery InfiniBandDegradationCheckName].
Proof. vm_compute. reflexivity. Qed.

(** 21 errors in two seconds exceed ten per second, and stay latched. *)
Example symbol_error_signals :
  signals (portCounterKey "mlx5_0" 1 "symbol_error") (observe_all start polls).2 =
  [SBreach InfiniBandDegradationCheckName].
Proof. vm_compute. reflexivity. Qed.

Example symbol_error_message :
  Message <$> (observe (observe_all start (take 2 polls)).1 (read_at symbol_error 2 121)).2 =
  Some "Port mlx5_0 port 1: symbol_error - symbol errors (value=121, delta=21, rate=10.50/sec)"%string.
Proof. vm_compute. reflexivity. Qed.

Lemma start_coherent : coherent start.
Proof. apply NewEvaluator_coherent. by intros k s Hs. Qed.

Lemma polls_ok : Forall (fun r => in_uint64 (r_value r)) polls.
Proof. repeat constructor; unfold in_uint64; simpl; lia. Qed.

Lemma counters_refine_automata_witness :
  (counter_run (counter_of start downed) (List.filter (fun r => r_key r ==s downed) polls)).2 =
  signals downed (observe_all start polls).2.
Proof.
  pose proof (counters_refine_automata start polls downed start_coherent eq_refl polls_ok) as H.
  destruct (observe_all start polls) as [e' evs]. destruct H as (_ & _ & H).
  exact (f_equal snd H).
Defined.

Lemma counter_events_paired_witness :
  paired None (signals downed (observe_all start polls).2).
Proof. exact (counter_events_paired start polls downed start_coherent eq_refl polls_ok). Defined.

(** A breach held by an interface counter that is not read any more is
    re-asserted on the recorded port. *)
Definition net_key : string := netCounterKey "eth0" "carrier_changes".

Definition vanished : Evaluator := NewEvaluator "node-a" EXECUTE_REMEDIATION None None true.

Definition latched : Evaluator :=
  set_flag vanished net_key
    {| Breached := true; flag_CheckName := EthernetDegradationCheckName; flag_IsFatal := true;
       Since := Some 0%Z; Device := "mlx5_2"; Port := "1" |}.

#[local] Existing Instance list_range.

Example unobserved_replayed :
  map (fun ev => (IsHealthy ev, EntitiesImpacted ev, ErrorCode ev))
    (ReplayUnobservedBreaches (fun _ => 0%Z) latched EthernetDegradationCheckName).2 =
  [(false, PortEntities "mlx5_2" 1, ["carrier_changes"%string])].
Proof. vm_compute. reflexivity. Qed.

Example disabled_swept :
  map (fun ev => (IsHealthy ev, EntitiesImpacted ev))
    (SweepStaleBreaches (fun _ => 0%Z) latched ∅ ∅ EthernetDegradationCheckName).2 =
  [(true, PortEntities "mlx5_2" 1)] /\
  isBreached (SweepStaleBreaches (fun _ => 0%Z) latched ∅ ∅ EthernetDegradationCheckName).1 net_key = false.
Proof. split; vm_compute; reflexivity. Qed.

End CounterDemo.
