(* ===== verification/EventRecord.v ===== *)
(** * One event applied to the quarantine record

    fault-quarantine's reconciler updates the record of a quarantined node with
    the two filtered operations of [AnnotationMap]: an unhealthy event is added
    ([addEventToAnnotation]), a healthy one removes what it covers
    ([removeEventFromAnnotation]).  Here the two are one function, and its effect
    on a key is stated without reference to the stored events, for every key that
    the recovery of a replaced GPU does not concern. *)

From stdpp Require Import gmap strings list fin_maps.
From Stdlib Require Import ZArith Lia.
From S2P Require Import Prelude HealthEvent AnnotationMap.

#[local] Open Scope nat_scope.

Section deliver.
Context `{MapRange} `{SlotCodec}.

(** A received event is a new object. *)
Definition deliver (he : HealthEventsAnnotationMap) (event : HealthEvent)
    (keep : option (HealthEventKey -> bool)) : HealthEventsAnnotationMap :=
  if IsHealthy event then (RemoveEventFiltered he event keep).1
  else (AddOrUpdateEventFiltered {| Events := Events he; fresh := S (fresh he) |}
          {| addr := fresh he; ev := event |} keep).1.

End deliver.

(** The keys a healthy event covers: those of its check, restricted to its
    entities and codes when it lists any. *)
Definition covers (event : HealthEvent) (k : HealthEventKey) : bool :=
  bool_decide (key_ident k = event_ident event) &&
  bool_decide (EntitiesImpacted event = [] \/ key_entity k ∈ event_entities event) &&
  bool_decide (ErrorCode event = [] \/ kErrorCode k ∈ ErrorCode event).

(** The keys an event is about. *)
Definition concerns (event : HealthEvent) (k : HealthEventKey) : bool :=
  if IsHealthy event then covers event k else bool_decide (k ∈ createEventKeys event).

(** What the event leaves under a key it concerns. *)
Definition outcome (event : HealthEvent) : option RecommendedAction :=
  if IsHealthy event then None else Some (Action event).

(** Keys that no recovery of a replaced GPU concerns. *)
Definition slotless (event : HealthEvent) (k : HealthEventKey) : Prop :=
  ComponentClass event <> "GPU"%string \/ kEntityType k <> "GPU_UUID"%string.

Section theory.
Context {MR : MapRange} {MRL : MapRangeLaws} {SC : SlotCodec}.

Lemma entityInEvent_spec k event : entityInEvent k event = true <->
  exists e, e ∈ EntitiesImpacted event /\ EntityType e = kEntityType k /\ EntityValue e = kEntityValue k.
Proof.
  unfold entityInEvent. rewrite existsb_exists. unfold entity_eqb, go_eqb.
  setoid_rewrite andb_true_iff. setoid_rewrite bool_decide_eq_true. by setoid_rewrite list_elem_of_In.
Qed.

Lemma replaced_slotless k stored event : slotless event k -> replacedGPUMatches k stored event = false.
Proof.
  unfold slotless, replacedGPUMatches, go_eqb. intros [Hc|Ht].
  - rewrite (bool_decide_eq_false_2 (ComponentClass event = _)) by done. cbn [negb]. by rewrite orb_true_r.
  - rewrite (bool_decide_eq_false_2 (kEntityType k = _)) by done. cbn [negb]. by rewrite !orb_true_r.
Qed.

Lemma codes_match event k :
  (if (0 <? length (ErrorCode event))%nat && negb (errorCodeMatches (kErrorCode k) (ErrorCode event))
   then false else true) = bool_decide (ErrorCode event = [] \/ kErrorCode k ∈ ErrorCode event).
Proof.
  unfold errorCodeMatches. destruct (ErrorCode event) as [|c cs].
  { by rewrite (bool_decide_eq_true_2 _ (or_introl eq_refl)). }
  cbn [length Nat.ltb Nat.leb andb]. destruct (bool_decide (kErrorCode k ∈ c :: cs)) eqn:Hb; cbn [negb].
  - apply bool_decide_eq_true in Hb. by rewrite (bool_decide_eq_true_2 _ (or_intror Hb)).
  - apply bool_decide_eq_false in Hb. rewrite bool_decide_eq_false_2; [done|]. by intros [?|?].
Qed.

(** The keys removed by a healthy event. *)
Lemma cleared_covers he event keep k :
  slotless event k ->
  cleared he event keep k = match Events he !! k with None => false | Some _ => covers event k && keep_ok keep k end.
Proof.
  intros Hs. unfold cleared. destruct (Events he !! k) as [r|]; [|done].
  assert (Hid : bool_decide (key_ident k = event_ident event) =
    ((kAgent k ==s Agent event) && (kComponentClass k ==s ComponentClass event)
     && (kCheckName k ==s CheckName event) && (kVersion k =? Version event)%Z && (kNodeName k ==s NodeName event))).
  { apply eq_true_iff_eq. rewrite !andb_true_iff. unfold go_eqb. rewrite !bool_decide_eq_true, Z.eqb_eq.
    unfold key_ident, event_ident. split; [intros [= -> -> -> -> ->]; tauto|].
    intros ((((-> & ->) & ->) & ->) & ->). done. }
  unfold covers. rewrite Hid.
  destruct (length (EntitiesImpacted event) =? 0)%nat eqn:He.
  - apply Nat.eqb_eq, length_zero_iff_nil in He. unfold keyMatchesCheckRecovery, keyMatchesCheck. rewrite <- codes_match.
    rewrite (bool_decide_eq_true_2 (EntitiesImpacted event = [] \/ _)) by (by left). rewrite andb_true_r.
    destruct (_ && _ && _ && _ && _); cbn [negb andb]; [|done]. by destruct (_ && _).
  - apply Nat.eqb_neq in He. unfold keyMatchesEvent, entityMatches. rewrite (replaced_slotless k (ev r) event Hs).
    rewrite <- codes_match, orb_false_r.
    assert (Hne : EntitiesImpacted event <> []) by (intros Hn; by rewrite Hn in He).
    assert (Hent : bool_decide (EntitiesImpacted event = [] \/ key_entity k ∈ event_entities event) = entityInEvent k event).
    { apply eq_true_iff_eq. rewrite bool_decide_eq_true, entityInEvent_spec. unfold event_entities, key_entity.
      destruct (EntitiesImpacted event) as [|x xs] eqn:Hx; [done|]. rewrite list_elem_of_fmap.
      split; [intros [?|(e & [= -> ->] & ?)]; [done|eauto]|]. intros (e & ? & <- & <-). right. eauto. }
    rewrite Hent. destruct (length (EntitiesImpacted event) =? 0)%nat eqn:Hz; [by apply Nat.eqb_eq in Hz|].
    cbn [orb]. destruct (kAgent k ==s _), (kComponentClass k ==s _), (kCheckName k ==s _),
      (kNodeName k ==s _), (kVersion k =? _)%Z; cbn [negb orb andb]; try done;
      destruct (entityInEvent k event); cbn [negb andb]; try done; by destruct (_ && _).
Qed.

(** The keys of a record an event acts on: a fault on its own keys, a recovery on the
    stored keys it matches, which for a replaced GPU includes the stored UUID of its
    slot. *)
Definition answers (he : HealthEventsAnnotationMap) (event : HealthEvent) (k : HealthEventKey) : bool :=
  if IsHealthy event then cleared he event None k else bool_decide (k ∈ createEventKeys event).

Lemma cleared_keep he event keep k : cleared he event keep k = cleared he event None k && keep_ok keep k.
Proof.
  unfold cleared, keyMatchesCheckRecovery. destruct (Events he !! k); [|done]. destruct (_ =? 0)%nat; [|by rewrite andb_true_r].
  destruct (keyMatchesCheck k event); [|done]. cbn [negb]. by destruct (_ && _).
Qed.

(** The state in which a received event is stored: its address is taken. *)
Definition received (he : HealthEventsAnnotationMap) : HealthEventsAnnotationMap :=
  {| Events := Events he; fresh := S (fresh he) |}.

Lemma received_wf he : ann_wf he -> ann_wf (received he).
Proof.
  intros [[Ho1 Ho2 Ho3] Hcl]. split; [split|]; [|done..]. intros k r Hr. simpl. apply Ho1 in Hr. lia.
Qed.

Lemma received_known he event : ann_wf he -> known (received he) {| addr := fresh he; ev := event |}.
Proof.
  intros Hwf. split; [simpl; lia|]. intros k r Hr Ha.
  apply (owned_addr _ (ann_owned _ Hwf)) in Hr. simpl in Ha. lia.
Qed.

Lemma deliver_wf he event keep : ann_wf he -> ann_wf (deliver he event keep).
Proof.
  intros Hwf. unfold deliver. destruct (IsHealthy event).
  - destruct (removed_keys he event keep) as (ks & -> & _). by apply removeKeys_spec.
  - apply (AddOrUpdateEventFiltered_refines (received he)); [by apply received_wf|by apply received_known].
Qed.

Lemma stored_action event next : Action (ev (withGPUSlotMetadata event next).1) = Action (ev event).
Proof.
  pose proof (withGPUSlotMetadata_spec event next) as Hst.
  destruct (withGPUSlotMetadata event next) as [stored n]. destruct Hst as [_ [md Hmd]]. cbn [fst]. by rewrite Hmd.
Qed.

(** The effect of adding a received event. *)
Lemma add_action he event keep k :
  ann_wf he ->
  action_at (AddOrUpdateEventFiltered (received he) {| addr := fresh he; ev := event |} keep).1 k =
  if bool_decide (k ∈ createEventKeys event) && keep_ok keep k then Some (Action event) else action_at he k.
Proof.
  intros Hwf. rewrite (action_of_payload _ k).
  destruct (AddOrUpdateEventFiltered_refines (received he) {| addr := fresh he; ev := event |} keep
              (received_wf he Hwf) (received_known he event Hwf)) as (_ & _ & ->).
  cbn [ev]. destruct (bool_decide _ && keep_ok keep k); cbn [andb]; [|by rewrite (action_of_payload he)].
  unfold needs, payload_at, received; cbn [Events fresh]. destruct (Events he !! k) as [r|] eqn:Hk.
  - case_bool_decide as Ha; cbn [negb fmap option_fmap option_map payload]; [by rewrite <- Ha|].
    simpl. by rewrite stored_action.
  - simpl. by rewrite stored_action.
Qed.

(** Adding changed nothing: every accepted key already had the action. *)
Lemma add_unchanged he event keep k :
  ann_wf he -> (AddOrUpdateEventFiltered (received he) {| addr := fresh he; ev := event |} keep).2 = false ->
  bool_decide (k ∈ createEventKeys event) && keep_ok keep k = true -> action_at he k = Some (Action event).
Proof.
  intros Hwf Hn [Hk Hkeep]%andb_true_iff. to_prop.
  destruct (AddOrUpdateEventFiltered_refines (received he) {| addr := fresh he; ev := event |} keep
              (received_wf he Hwf) (received_known he event Hwf)) as (_ & Hu & _).
  rewrite Hu in Hn. cbn [ev received Events] in Hn. rewrite existsb_none in Hn. specialize (Hn k).
  rewrite (proj1 (kept_keys_spec event keep)) in Hn. specialize (Hn (conj Hk Hkeep)). unfold needs, action_at in *.
  destruct (Events he !! k) as [x|]; [|done]. to_prop. simpl. by f_equal.
Qed.

(** A new record is not empty when the addition reports a change. *)
Lemma add_changed_nonempty he event keep :
  ann_wf he -> (AddOrUpdateEventFiltered (received he) {| addr := fresh he; ev := event |} keep).2 = true ->
  Events (AddOrUpdateEventFiltered (received he) {| addr := fresh he; ev := event |} keep).1 <> ∅.
Proof.
  intros Hwf Hu. destruct (AddOrUpdateEventFiltered_refines (received he) {| addr := fresh he; ev := event |} keep
              (received_wf he Hwf) (received_known he event Hwf)) as (_ & Hb & _).
  rewrite Hu in Hb. symmetry in Hb. apply existsb_elem in Hb as (k & Hk & _). apply kept_keys_spec in Hk as [Hk Hkeep].
  pose proof (add_action he event keep k Hwf) as Ha. rewrite bool_decide_eq_true_2, Hkeep in Ha by done. unfold action_at in Ha.
  intros He. by rewrite He, lookup_empty in Ha.
Qed.

(** The effect of one event on a key. *)
Lemma deliver_action he event keep k :
  ann_wf he -> slotless event k ->
  action_at (deliver he event keep) k =
  if concerns event k && keep_ok keep k then outcome event else action_at he k.
Proof.
  intros Hwf Hs. unfold deliver, concerns, outcome. destruct (IsHealthy event).
  - rewrite !action_of_payload. destruct (removed_keys he event keep) as (ks & -> & _ & Hks).
    destruct (removeKeys_spec he ks Hwf) as (_ & _ & H3). rewrite H3. specialize (Hks k).
    rewrite (cleared_covers he event keep k Hs) in Hks. unfold payload_at.
    destruct (Events he !! k) as [r|]; cbn [fmap option_fmap option_map].
    + destruct (covers event k && keep_ok keep k); case_decide as Hd; try done;
        [by destruct Hd; apply Hks|by apply Hks in Hd].
    + case_decide; by case_match.
  - by apply add_action.
Qed.

(** The same for every key, in terms of what is stored under it. *)
Lemma remove_action he event keep k :
  ann_wf he -> IsHealthy event = true ->
  action_at (RemoveEventFiltered he event keep).1 k = if answers he event k && keep_ok keep k then None else action_at he k.
Proof.
  intros Hwf Hh. unfold answers. rewrite Hh, <- cleared_keep, !action_of_payload. destruct (removed_keys he event keep) as (ks & -> & _ & Hks).
  destruct (removeKeys_spec he ks Hwf) as (_ & _ & H3). rewrite H3. specialize (Hks k).
  destruct (cleared he event keep k); case_decide as Hd; try done; [by destruct Hd; apply Hks|by apply Hks in Hd].
Qed.

(** ** Where the stored events come from *)

(** A value of the new map was in the old one, is one of [news], or was created
    by the operation. *)
Definition grown (news : list Ref) (he he' : HealthEventsAnnotationMap) : Prop :=
  fresh he <= fresh he' /\
  forall k r, Events he' !! k = Some r -> Events he !! k = Some r \/ r ∈ news \/ fresh he <= addr r.

Lemma grown_refl news he : grown news he he.
Proof. split; [lia|auto]. Qed.

Lemma grown_trans news he1 he2 he3 : grown news he1 he2 -> grown news he2 he3 -> grown news he1 he3.
Proof.
  intros [F1 G1] [F2 G2]. split; [lia|]. intros k r [Hr|[Hr|Hr]]%G2; [by apply G1|auto|]. right. right. lia.
Qed.

Lemma storeRectangle_grown event he rectangle : grown [] he (storeRectangle event he rectangle).
Proof.
  split; simpl; [lia|]. intros k r. rewrite fold_insert_lookup. case_decide; [|auto]. intros [= <-]. simpl. auto.
Qed.

Lemma compaction_grown he : grown [] he (compactStoredValues he).
Proof.
  unfold compactStoredValues. rewrite compaction_jobs_run. generalize (compaction_jobs (range (keysByEvent (Events he)))) as jobs.
  intros jobs. revert he. induction jobs as [|j jobs IH]; intros he; simpl; [apply grown_refl|].
  eapply grown_trans; [apply storeRectangle_grown|apply IH].
Qed.

Lemma add_grown he event keep : grown [event] he (AddOrUpdateEventFiltered he event keep).1.
Proof.
  pose proof (withGPUSlotMetadata_spec event (fresh he)) as Hst. unfold AddOrUpdateEventFiltered. fold (kept_keys (ev event) keep).
  destruct (kept_keys (ev event) keep) as [kept partial], (withGPUSlotMetadata event (fresh he)) as [stored next].
  destruct Hst as [Hst _]. destruct (addEventKeys_spec (Events he) stored kept) as (m & -> & Hm).
  assert (Hg : grown [event] he {| Events := m; fresh := next |}).
  { split; [simpl; destruct Hst as [[_ ->]|[_ ->]]; lia|]. intros k r. simpl. rewrite Hm. destruct (_ && _); [|auto].
    intros [= <-]. right. destruct Hst as [[-> _]|[-> _]]; [left; by apply list_elem_of_singleton|auto]. }
  destruct (_ && _); simpl; [|done]. destruct (compaction_grown {| Events := m; fresh := next |}) as [F G]. simpl in *.
  destruct Hg as [F1 G1]. split; simpl in *; [lia|]. intros k r [Hr|[Hr|Hr]]%G; [by apply G1|by apply not_elem_of_nil in Hr|].
  right. right. lia.
Qed.

(** Adding one event keeps the others known. *)
Lemma known_kept he event keep r : known he r -> (addr r = addr event -> r = event) ->
  known (AddOrUpdateEventFiltered he event keep).1 r.
Proof.
  intros [Hf Hk] Hc. destruct (add_grown he event keep) as [F G]. split; [lia|].
  intros k x [Hx|[->%list_elem_of_singleton|Hx]]%G Ha; [by eapply Hk|symmetry; by apply Hc|lia].
Qed.

(** Adding the events of a list one after the other, when they do not contradict
    each other. *)
Lemma add_all_actions (refs : list Ref) he :
  ann_wf he -> (forall r, r ∈ refs -> known he r) ->
  (forall r1 r2, r1 ∈ refs -> r2 ∈ refs -> addr r1 = addr r2 -> r1 = r2) ->
  (forall r1 r2 k, r1 ∈ refs -> r2 ∈ refs -> k ∈ createEventKeys (ev r1) -> k ∈ createEventKeys (ev r2) ->
     Action (ev r1) = Action (ev r2)) ->
  let he' := fold_left (fun he event => (AddOrUpdateEvent he event).1) refs he in
  ann_wf he' /\
  (forall r k, r ∈ refs -> k ∈ createEventKeys (ev r) -> action_at he' k = Some (Action (ev r))) /\
  (forall k, (forall r, r ∈ refs -> k ∉ createEventKeys (ev r)) -> action_at he' k = action_at he k).
Proof.
  revert he. induction refs as [|x refs IH]; intros he Hwf Hkn Hcoh Hagr; simpl.
  { split; [done|]. split; [|done]. intros r k Hr. by apply not_elem_of_nil in Hr. }
  destruct (AddOrUpdateEventFiltered_refines he x None Hwf (Hkn x (list_elem_of_here _ _))) as (Hwf1 & _ & Hp).
  assert (Hx : forall k, k ∈ createEventKeys (ev x) -> action_at (AddOrUpdateEvent he x).1 k = Some (Action (ev x))).
  { intros k Hk. rewrite action_of_payload. unfold AddOrUpdateEvent. rewrite Hp, bool_decide_eq_true_2 by done. simpl.
    unfold needs, payload_at. destruct (Events he !! k) as [r|]; simpl; [|by rewrite stored_action].
    case_bool_decide as Ha; simpl; [by rewrite <- Ha|by rewrite stored_action]. }
  assert (Ho : forall k, k ∉ createEventKeys (ev x) -> action_at (AddOrUpdateEvent he x).1 k = action_at he k).
  { intros k Hk. rewrite !action_of_payload. unfold AddOrUpdateEvent. by rewrite Hp, bool_decide_eq_false_2 by done. }
  assert (Hin : forall r, r ∈ refs -> r ∈ x :: refs) by (intros; by apply list_elem_of_further).
  pose proof (list_elem_of_here x refs) as Hhd.
  destruct (IH (AddOrUpdateEvent he x).1 Hwf1) as (Hwf2 & Hall & Hnone); [|by eauto..|].
  { intros r Hr. apply known_kept; [by auto|]. intros Ha. by apply Hcoh; auto. }
  split; [done|]. split.
  - intros r k [->|Hr]%elem_of_cons Hk; [|by auto].
    destruct (existsb (fun r => bool_decide (k ∈ createEventKeys (ev r))) refs) eqn:He.
    + apply existsb_elem in He as (r & Hr & Hkr). to_prop. rewrite (Hall r k Hr) by done. f_equal. by apply (Hagr r x k); auto.
    + rewrite Hnone; [by apply Hx|]. intros r Hr. rewrite existsb_none in He. specialize (He r Hr). by to_prop.
  - intros k Hk. rewrite Hnone by auto. apply Ho. auto.
Qed.

End theory.
