(* ===== verification/NicQuarantine.v ===== *)
(** * Counter breaches and the quarantine annotation

    Joins two components: the events the NIC counter evaluator emits
    ([CounterEval]) are delivered, in order, to the record of open faults on the
    node ([AnnotationMap]), the way fault-quarantine's reconciler does for the
    events of a quarantined node ([reconciler.go], [handleQuarantinedNode] and
    [handleUnhealthyEventOnQuarantinedNode]).  While a node is quarantined its
    record must not become empty as long as a counter holds a breach: the latch
    suppresses every further event of that counter. *)

From stdpp Require Import gmap strings list fin_maps.
From Stdlib Require Import ZArith Lia.
From S2P Require Import Prelude GoFloat HealthEvent AnnotationMap EventRecord CounterEval.

#[local] Open Scope nat_scope.

(** ** Delivery *)

Section delivery.
Context `{MapRange} `{SlotCodec}.

Definition deliver_opt (he : HealthEventsAnnotationMap) (event : option HealthEvent) :
    HealthEventsAnnotationMap := match event with Some e => deliver he e None | None => he end.

(** Readings whose events are delivered one after the other. *)
Fixpoint monitor (e : Evaluator) (he : HealthEventsAnnotationMap) (rs : list reading) :
    Evaluator * HealthEventsAnnotationMap :=
  match rs with
  | [] => (e, he)
  | r :: rest => let '(e1, event) := observe e r in monitor e1 (deliver_opt he event) rest
  end.

End delivery.

(** ** The events of a counter *)

Lemma counter_step_latch cfg check now r s :
  match (counter_step cfg check now r s).2 with
  | None => c_latched (counter_step cfg check now r s).1 = c_latched s
  | Some (SBreach c) => c_latched (counter_step cfg check now r s).1 = Some c
  | Some (SRecovery _) => c_latched (counter_step cfg check now r s).1 = None
  end.
Proof.
  unfold counter_step. destruct (c_window s) as [[[v t] last]|]; [|done].
  destruct (r <? last)%Z; simpl; [by destruct (c_latched s)|].
  destruct (c_latched s); [done|]. by destruct (verdict _ _ _) as [[]|].
Qed.

(** Every event of an evaluation names the evaluator's node, the entities of the
    reading and the counter. *)
Definition event_of (e : Evaluator) (r : reading) (event : HealthEvent) : Prop :=
  Agent event = "nic-health-monitor" /\ ComponentClass event = "NIC" /\ Version event = 1%Z /\
  NodeName event = nodeName e /\ EntitiesImpacted event = r_entities r /\ ErrorCode event = [Name (r_cfg r)].

Lemma observe_event e r event :
  monitoring e -> (observe e r).2 = Some event -> event_of e r event.
Proof.
  intros Hm. unfold observe, evaluateOne. set (e0 := touch (own e (r_key r)) (r_key r)).
  assert (Hb : bootIDChanged e0 && baselineActive e0 = false) by exact Hm. rewrite Hb.
  destruct (snapshots e0 !! r_key r) as [prev|]; [|done].
  unfold handleReset, evaluateDelta, evaluateVelocity, recordBreach.
  destruct (devicePortFromEntities (r_entities r)) as [dv pt].
  repeat case_match; simplify_eq/=; try done; by intros [= <-].
Qed.

Lemma observe_node e r : monitoring e -> nodeName (observe e r).1 = nodeName e.
Proof.
  intros Hm. unfold observe, evaluateOne. set (e0 := touch (own e (r_key r)) (r_key r)).
  assert (Hb : bootIDChanged e0 && baselineActive e0 = false) by exact Hm. rewrite Hb.
  destruct (snapshots e0 !! r_key r) as [prev|]; [|done].
  unfold handleReset, evaluateDelta, evaluateVelocity, recordBreach.
  destruct (devicePortFromEntities (r_entities r)) as [dv pt].
  repeat case_match; simplify_eq/=; done.
Qed.

(** ** A breach stays on record while it is held *)

(** The key under which fault-quarantine records a counter of a device. *)
Definition nic_key (node check device counter : string) : HealthEventKey :=
  {| kAgent := "nic-health-monitor"; kComponentClass := "NIC"; kCheckName := check; kNodeName := node;
     kEntityType := EntityTypeNIC; kEntityValue := device; kErrorCode := counter; kVersion := 1 |}.

Section record.
Context {MR : MapRange} {MRL : MapRangeLaws} {SC : SlotCodec}.

(** The device and the counter of a key. *)
Context (device counter : string -> string).

(** The readings name the device and counter of their key. *)
Definition addressed (r : reading) : Prop :=
  Name (r_cfg r) = counter (r_key r) /\ exists p, r_entities r = PortEntities (device (r_key r)) p.

(** No two keys stand for the same counter of the same device: every device has
    one monitored port. *)
Definition one_port (ks : list string) : Prop :=
  forall k k', k ∈ ks -> k' ∈ ks -> device k = device k' -> counter k = counter k' -> k = k'.

(** Every held breach of the keys is on record. *)
Definition recorded (e : Evaluator) (he : HealthEventsAnnotationMap) (ks : list string) : Prop :=
  forall k check, k ∈ ks -> latch_of e k = Some check ->
    is_Some (payload_at he (nic_key (nodeName e) check (device k) (counter k))).

Lemma nic_key_created e r event :
  event_of e r event -> addressed r ->
  nic_key (nodeName e) (CheckName event) (device (r_key r)) (counter (r_key r)) ∈ createEventKeys event.
Proof.
  intros (Ha & Hc & Hv & Hn & He & Hec) [Hname [p Hp]].
  unfold createEventKeys. rewrite He, Hp, Hec, Hname. cbn [PortEntities].
  unfold createEntityKeys, CreateEventKeyForEntity, with_code. simpl. rewrite Ha, Hc, Hv, Hn. left.
Qed.

(** What a matching key has in common with the event. *)
Lemma keyMatchesEvent_inv k stored event :
  keyMatchesEvent k stored event = true ->
  entityMatches k stored event = true /\ (ErrorCode event <> [] -> kErrorCode k ∈ ErrorCode event).
Proof.
  unfold keyMatchesEvent. destruct (_ || _ || _ || _ || _)%bool; [done|].
  destruct (entityMatches k stored event); [|done]. cbn [negb]. intros Hm. split; [done|]. intros Hne.
  unfold errorCodeMatches in Hm. destruct (ErrorCode event) as [|c cs] eqn:He; [done|].
  cbn [length Nat.ltb Nat.leb andb] in Hm. by case_bool_decide.
Qed.

(** A recovery covers the key of its own device and counter only. *)
Lemma recovery_covers e r event he check d c :
  event_of e r event -> addressed r ->
  AnnotationMap.cleared he event None (nic_key (nodeName e) check d c) = true ->
  d = device (r_key r) /\ c = counter (r_key r).
Proof.
  intros (Ha & Hc & Hv & Hn & He & Hec) [Hname [p Hp]]. unfold AnnotationMap.cleared.
  destruct (Events he !! _) as [ref|]; [|done]. rewrite He, Hp. cbn [PortEntities length Nat.eqb].
  intros [[Hent Hcode]%keyMatchesEvent_inv _]%andb_prop. rewrite Hec, Hname in Hcode.
  split; [|by apply list_elem_of_singleton in Hcode].
  unfold entityMatches, replacedGPUMatches, entityInEvent in Hent. rewrite He, Hp, Hc in Hent.
  change ("NIC" <>s "GPU") with true in Hent. rewrite orb_true_r in Hent.
  unfold entity_eqb, go_eqb in Hent. simpl in Hent. rewrite !orb_false_r in Hent.
  by apply bool_decide_eq_true in Hent.
Qed.

(** One delivery keeps every record but those a recovery covers. *)
Lemma deliver_spec he event :
  ann_wf he ->
  ann_wf (deliver he event None) /\
  (forall k, is_Some (payload_at he k) ->
     IsHealthy event = false \/ AnnotationMap.cleared he event None k = false ->
     is_Some (payload_at (deliver he event None) k)) /\
  (IsHealthy event = false -> forall k, k ∈ createEventKeys event ->
     is_Some (payload_at (deliver he event None) k)).
Proof.
  intros Hwf. split; [by apply deliver_wf|]. unfold deliver. destruct (IsHealthy event).
  - destruct (removed_keys he event None) as (ks & -> & _ & Hks).
    destruct (removeKeys_spec he ks Hwf) as (_ & _ & H3). split; [|done].
    intros k Hk [?|Hc]; [done|]. rewrite H3. rewrite decide_False; [done|].
    intros Hin%Hks. congruence.
  - fold (received he).
    destruct (AddOrUpdateEventFiltered_refines (received he) {| addr := fresh he; ev := event |} None
                (received_wf he Hwf) (received_known he event Hwf)) as (_ & _ & H3).
    split; [intros k Hk _; rewrite H3; by case_match|]. intros _ k Hk. rewrite H3.
    rewrite bool_decide_eq_true_2 by done. cbn [andb keep_ok].
    destruct (needs (Events (received he)) _ k) eqn:Hn; [done|]. unfold needs in Hn. unfold payload_at.
    by destruct (Events (received he) !! k).
Qed.

(** One reading and the delivery of its event keep every held breach on record. *)
Lemma recorded_step e he r ks :
  coherent e -> monitoring e -> in_uint64 (r_value r) -> ann_wf he -> addressed r ->
  one_port ks -> r_key r ∈ ks -> recorded e he ks ->
  let '(e', event) := observe e r in
  ann_wf (deliver_opt he event) /\ recorded e' (deliver_opt he event) ks.
Proof.
  intros Hc Hm Hv Hwf Had Hone Hin Hrec. pose proof (observe_spec e r Hc Hm Hv) as Ho.
  pose proof (observe_event e r) as Hev. pose proof (observe_node e r Hm) as Hn.
  pose proof (counter_step_latch (r_cfg r) (r_check r) (r_now r) (r_value r) (counter_of e (r_key r))) as Hl.
  destruct (observe e r) as [e' event]. cbn [fst snd] in *. destruct Ho as (_ & _ & Hother & Hstep).
  rewrite Hstep in Hl. cbn [fst snd] in Hl.
  assert (Hsame : forall k, k <> r_key r -> latch_of e' k = latch_of e k).
  { intros k Hk. exact (f_equal c_latched (Hother k Hk)). }
  destruct event as [event|]; cbn [fmap option_fmap option_map deliver_opt] in *.
  2: { split; [done|]. intros k check Hk. rewrite Hn. destruct (decide (k = r_key r)) as [->|Hne].
       - intros Hk'. apply Hrec; [done|]. rewrite <- Hk'. symmetry. exact Hl.
       - rewrite Hsame by done. by apply Hrec. }
  specialize (Hev event Hm eq_refl). destruct (deliver_spec he event Hwf) as (H1 & Hkeep & Hadd).
  split; [done|]. intros k check Hk. rewrite Hn. unfold signal_of in Hl.
  destruct (decide (k = r_key r)) as [->|Hne].
  - intros Hlatch. change (c_latched (counter_of e' (r_key r))) with (latch_of e' (r_key r)) in Hl.
    destruct (IsHealthy event); [congruence|]. rewrite Hl in Hlatch. injection Hlatch as <-.
    apply Hadd; [done|]. by apply nic_key_created.
  - rewrite Hsame by done. intros Hlatch. apply Hkeep; [by apply Hrec|].
    destruct (IsHealthy event); [|by left]. right. apply not_true_iff_false. intros Hcl.
    destruct (recovery_covers e r event he check _ _ Hev Had Hcl) as [Hd Hct].
    apply Hne. by apply Hone.
Qed.

(** C26 No held breach is forgotten: on a node whose devices each have one
    monitored port, after any sequence of readings whose events are delivered in
    order, every counter that holds a breach is on record under its device and
    counter, so the record of the node is not empty and recoveries of other
    devices do not lift its quarantine. *)
Theorem held_breach_stays_recorded e he rs :
  coherent e -> monitoring e -> ann_wf he -> Forall (fun r => in_uint64 (r_value r)) rs ->
  Forall addressed rs -> one_port (map r_key rs) -> recorded e he (map r_key rs) ->
  let '(e', he') := monitor e he rs in
  recorded e' he' (map r_key rs) /\
  (forall k, k ∈ map r_key rs -> is_Some (latch_of e' k) -> IsEmpty he' = false).
Proof.
  intros Hc Hm Hwf Hv Had Hone.
  assert (Hsub : forall r, r ∈ rs -> r_key r ∈ map r_key rs) by (intros r Hr; by apply list_elem_of_fmap_2).
  revert Hsub Hone. generalize (map r_key rs) as ks. intros ks Hsub Hone Hrec.
  assert (Hgoal : forall e he, recorded e he ks ->
    forall k, k ∈ ks -> is_Some (latch_of e k) -> IsEmpty he = false).
  { clear. intros e he Hrec k Hk [check Hl]. destruct (Hrec k check Hk Hl) as [p Hp]. unfold payload_at in Hp.
    unfold IsEmpty. destruct (Events he !! _) eqn:He; [|done]. apply Nat.eqb_neq. intros Hsz.
    apply map_size_empty_inv in Hsz. rewrite Hsz, lookup_empty in He. done. }
  revert e he Hc Hm Hwf Hrec. induction rs as [|r rs IH]; intros e he Hc Hm Hwf Hrec; cbn [monitor].
  { split; [done|]. by apply Hgoal. }
  inversion_clear Hv as [|? ? Hvr Hvs]. inversion_clear Had as [|? ? Har Has].
  pose proof (recorded_step e he r ks Hc Hm Hvr Hwf Har Hone (Hsub r ltac:(left)) Hrec) as Hs.
  pose proof (observe_spec e r Hc Hm Hvr) as Ho. destruct (observe e r) as [e1 event].
  destruct Hs as [Hwf1 Hrec1]. destruct Ho as (Hc1 & Hm1 & _).
  apply IH; try done. intros r' Hr'. apply Hsub. by right.
Qed.

End record.

(** ** Concrete nodes *)

Module NicQuarantineDemo.

#[local] Existing Instance list_range.
#[local] Existing Instance list_range_laws.
#[local] Existing Instance AnnotationDemo.bit_codec.

Definition device_of (k : string) : string := default ""%string (head (split_on colon k)).
Definition counter_name (k : string) : string := default ""%string (after_last colon k).

Definition port_reading (device : string) (port t v : Z) : reading :=
  {| r_key := portCounterKey device port "link_downed"; r_value := v; r_now := (t * Second)%Z;
     r_stamp := fun _ => (t * Second)%Z; r_cfg := CounterDemo.link_downed; r_entities := PortEntities device port;
     r_check := InfiniBandDegradationCheckName |}.

Definition start : Evaluator := CounterDemo.start.
Definition empty_record : HealthEventsAnnotationMap := NewHealthEventsAnnotationMap 0.

(** Two devices with one port each; both links drop, the first recovers. *)
Definition two_devices : list reading :=
  [port_reading "mlx5_0" 1 0 0; port_reading "mlx5_1" 1 0 0; port_reading "mlx5_0" 1 1 2;
   port_reading "mlx5_1" 1 1 2; port_reading "mlx5_0" 1 2 0].

Lemma empty_wf : ann_wf empty_record.
Proof.
  split; [split|]; intros *; unfold action_at; unfold empty_record, NewHealthEventsAnnotationMap;
    cbn [Events]; rewrite ?lookup_empty; done.
Qed.

Lemma held_breach_stays_recorded_witness :
  IsEmpty (monitor start empty_record two_devices).2 = false.
Proof.
  assert (Hv : Forall (fun r => in_uint64 (r_value r)) two_devices).
  { repeat constructor; unfold in_uint64; simpl; lia. }
  assert (Ha : Forall (addressed device_of counter_name) two_devices).
  { repeat constructor; eexists; reflexivity. }
  assert (Ho : one_port device_of counter_name (map r_key two_devices)).
  { intros k k' Hk Hk' Hd _. vm_compute in Hk, Hk'.
    repeat (apply elem_of_cons in Hk as [->|Hk]); try (by apply elem_of_nil in Hk);
    repeat (apply elem_of_cons in Hk' as [->|Hk']); try (by apply elem_of_nil in Hk');
    try reflexivity; by vm_compute in Hd. }
  assert (Hr : recorded device_of counter_name start empty_record (map r_key two_devices)).
  { intros k check _. unfold latch_of, start, CounterDemo.start, NewEvaluator. simpl. by rewrite lookup_empty. }
  pose proof (held_breach_stays_recorded device_of counter_name start empty_record two_devices
                CounterDemo.start_coherent eq_refl empty_wf Hv Ha Ho Hr) as H.
  destruct (monitor start empty_record two_devices) as [e' he'] eqn:He. destruct H as [_ H].
  apply (H (portCounterKey "mlx5_1" 1 "link_downed")); [right; left|].
  assert (Hl : latch_of (monitor start empty_record two_devices).1 (portCounterKey "mlx5_1" 1 "link_downed") =
               Some InfiniBandDegradationCheckName) by (vm_compute; reflexivity).
  rewrite He in Hl. exact (mk_is_Some _ _ Hl).
Defined.

(** Two devices with two ports; three links drop.  The recoveries of the other
    port of the device and of the same port of the other device together remove
    both keys of the breach that is still held. *)
Definition two_ports : list reading :=
  [port_reading "mlx5_0" 1 0 0; port_reading "mlx5_0" 2 0 0; port_reading "mlx5_1" 2 0 0;
   port_reading "mlx5_0" 1 1 2; port_reading "mlx5_0" 2 1 2; port_reading "mlx5_1" 2 1 2;
   port_reading "mlx5_0" 1 2 0; port_reading "mlx5_1" 2 2 0].

(** With two ports on a device a held breach is lost: the record has one key
    per entity, the device and the port number, and the recoveries of port 1 of
    the device and of port 2 of another device remove the two keys of port 2 of
    the device.  The record is empty, which lifts the quarantine, while the
    counter still holds its breach and will report nothing until it is reset. *)
Example two_ports_lose_breach :
  IsEmpty (monitor start empty_record two_ports).2 = true /\
  latch_of (monitor start empty_record two_ports).1 (portCounterKey "mlx5_0" 2 "link_downed") =
    Some InfiniBandDegradationCheckName.
Proof. split; vm_compute; reflexivity. Qed.

End NicQuarantineDemo.
