(* ===== verification/NodeLock.v ===== *)
(** * The node lock

    Models [commons/pkg/distributedlock/nodelock.go], the lock with which the
    maintenance controllers (janitor's reboot, terminate and GPU reset, and
    lifecycle-manager) keep two maintenance resources from working on one node,
    and the contention helpers of [janitor/pkg/controller/maintenance_contention.go].
    The lock of a node is a lease object owned by the resource that holds it.

    An operation is a program of API calls ([prog]), so that the calls of several
    controllers interleave.  The server runs one call at a time; any call may fail,
    with or without having taken effect.  Reads are live, or served by a cache
    that may show any earlier state of the server. *)

From stdpp Require Import gmap strings list relations.
From Stdlib Require Import ZArith Lia.
From S2P Require Import Prelude KubeRetry.

(** ** Data *)

Record OwnerReference := { or_APIVersion : string; or_Kind : string; or_Name : string; or_UID : string }.
Record Lease := { lease_Name : string; lease_Namespace : string; OwnerReferences : list OwnerReference }.

(** What the lock reads of a maintenance resource: its name, UID and, when the
    client sets them, API version and kind. *)
Record MaintenanceObject := {
  GetName : string; GetUID : string; gvk_GroupVersion : string; gvk_Kind : string }.

(** [scheme] gives the API versions and kinds registered for the object. *)
Record nodeLock := {
  scheme : option (MaintenanceObject -> result (list (string * string)));
  namespace : string;
  leaseName : option (string -> string);
}.

(** ** Programs of API calls *)

Inductive kerr := ENotFound | EAlreadyExists | EOther.

Inductive call :=
| CGet (name : string)
| CCreate (lease : Lease)
| CDelete (name : string).

Inductive answer := AErr (e : kerr) | ALease (lease : Lease) | AOk.

Inductive prog (A : Type) :=
| Ret (a : A)
| Call (c : call) (k : answer -> prog A).
Arguments Ret {A} a.
Arguments Call {A} c k.

Fixpoint pbind {A B} (p : prog A) (f : A -> prog B) : prog B :=
  match p with
  | Ret a => f a
  | Call c k => Call c (fun r => pbind (k r) f)
  end.

Notation "'call!' x := p 'in' q" := (pbind p (fun x => q)) (at level 200, x pattern, p at level 100).

(** ** The operations *)

Section operations.
Context (lock : nodeLock).

Definition leaseNameFor (nodeName : string) : string :=
  match leaseName lock with None => nodeName | Some f => f nodeName end.

Definition resolveGVK (obj : MaintenanceObject) : string * string :=
  if (gvk_Kind obj <>s "") && (gvk_GroupVersion obj <>s "") then (gvk_GroupVersion obj, gvk_Kind obj)
  else
    match scheme lock with
    | Some objectKinds =>
        match objectKinds obj with
        | Ok (gvk :: _) => gvk
        | _ => (""%string, ""%string)
        end
    | None => (""%string, ""%string)
    end.

(** The lease with its single owner. *)
Definition getNodeLockLease (nodeName : string) : prog (Lease * OwnerReference + kerr) :=
  Call (CGet (leaseNameFor nodeName)) (fun r =>
    match r with
    | ALease lease =>
        match OwnerReferences lease with
        | [owner] => Ret (inl (lease, owner))
        | _ => Ret (inr EOther)
        end
    | AErr e => Ret (inr e)
    | AOk => Ret (inr EOther)
    end).

Definition newLease (obj : MaintenanceObject) (nodeName : string) : Lease :=
  let '(apiVersion, kind) := resolveGVK obj in
  {| lease_Name := leaseNameFor nodeName; lease_Namespace := namespace lock;
     OwnerReferences := [{| or_APIVersion := apiVersion; or_Kind := kind; or_Name := GetName obj;
                            or_UID := GetUID obj |}] |}.

Definition LockNode (obj : MaintenanceObject) (nodeName : string) : prog bool :=
  call! r := getNodeLockLease nodeName in
  match r with
  | inl (_, owner) => Ret (or_UID owner ==s GetUID obj)
  | inr ENotFound =>
      Call (CCreate (newLease obj nodeName)) (fun r => match r with AErr _ => Ret false | _ => Ret true end)
  | inr _ => Ret false
  end.

Definition GetHolder (nodeName : string) : prog (OwnerReference + kerr) :=
  call! r := getNodeLockLease nodeName in
  match r with inl (_, owner) => Ret (inl owner) | inr e => Ret (inr e) end.

(** Whether the unlocking has to be tried again. *)
Definition handleNotFoundError (e : kerr) : bool :=
  match e with ENotFound => false | _ => true end.

Definition CheckUnlock (obj : MaintenanceObject) (nodeName : string) : prog bool :=
  call! r := getNodeLockLease nodeName in
  match r with
  | inr e => Ret (handleNotFoundError e)
  | inl (lease, owner) =>
      if or_UID owner ==s GetUID obj
      then Call (CDelete (lease_Name lease)) (fun r =>
             match r with AErr e => Ret (handleNotFoundError e) | _ => Ret false end)
      else Ret false
  end.

End operations.

(** ** Contention between resources of one kind *)

Record GPUSelector := { UUIDs : list string; PCIBusIDs : list string }.

Definition selectsAllGPUs (selector : option GPUSelector) : bool :=
  match selector with
  | None => true
  | Some s => (length (UUIDs s) =? 0)%nat && (length (PCIBusIDs s) =? 0)%nat
  end.

Definition stringSlicesOverlap (first second : list string) : bool :=
  existsb (fun value => bool_decide (value ∈ second)) first.

Definition gpuUUIDsOverlap (first second : option GPUSelector) : bool :=
  if selectsAllGPUs first || selectsAllGPUs second then true
  else
    match first, second with
    | Some f, Some s => stringSlicesOverlap (UUIDs f) (UUIDs s) || stringSlicesOverlap (PCIBusIDs f) (PCIBusIDs s)
    | _, _ => true
    end.

(** A stored maintenance resource: its UID and whether it has completed. *)
Record StoredMaintenance := { sm_UID : string; sm_completed : bool }.

(** [get_object] reads a resource of the kind by name. *)
Definition activeSameKindHolder (get_object : string -> StoredMaintenance + kerr)
    (holder : OwnerReference + kerr) (expectedKind : string) : result (option StoredMaintenance * bool) :=
  match holder with
  | inr ENotFound => Ok (None, false)
  | inr _ => Err "checking node lock holder"
  | inl h =>
      if or_Kind h <>s expectedKind then Ok (None, false)
      else if negb (bool_decide (expectedKind ∈ ["RebootNode"; "TerminateNode"; "GPUReset"]%string))
      then Err ("unsupported maintenance kind " +:+ expectedKind)
      else
        match get_object (or_Name h) with
        | inr ENotFound => Ok (None, false)
        | inr _ => Err ("getting " +:+ or_Kind h +:+ " lock holder " +:+ or_Name h)
        | inl object =>
            if sm_UID object <>s or_UID h then Ok (None, false)
            else Ok (Some object, negb (sm_completed object))
        end
  end.

(** ** Controllers on one API server *)

(** The reads of the client: from the server, or from a cache. *)
Inductive reads := Live | Cached.

(** How the server treats a call: it runs, it runs and the response is lost, or
    it is refused. *)
Inductive fate := Served | Lost | Refused.

Abbreviation leases_map := (gmap string Lease) (only parsing).

Record server := { leases : leases_map; past : list leases_map }.

Definition commit (sv : server) (l : leases_map) : server := {| leases := l; past := leases sv :: past sv |}.

Definition answer_of (r : option Lease) : answer :=
  match r with Some l => ALease l | None => AErr ENotFound end.

(** What a cached read shows: the state [lag] changes ago. *)
Definition view (m : reads) (lag : nat) (sv : server) : leases_map :=
  match m with Live => leases sv | Cached => default (leases sv) ((leases sv :: past sv) !! lag) end.

Definition exec (m : reads) (f : fate) (lag : nat) (sv : server) (c : call) : answer * server :=
  match f with
  | Refused => (AErr EOther, sv)
  | _ =>
      let reply (a : answer) := match f with Lost => AErr EOther | _ => a end in
      match c with
      | CGet n => (reply (answer_of (view m lag sv !! n)), sv)
      | CCreate l =>
          match leases sv !! lease_Name l with
          | Some _ => (reply (AErr EAlreadyExists), sv)
          | None => (reply AOk, commit sv (<[lease_Name l := l]> (leases sv)))
          end
      | CDelete n =>
          match leases sv !! n with
          | None => (reply (AErr ENotFound), sv)
          | Some _ => (reply AOk, commit sv (delete n (leases sv)))
          end
      end
  end.

(** A maintenance resource as its controller drives it: one reconcile at a time;
    while it has not completed a reconcile takes the lock, afterwards a reconcile
    gives it back. *)
Inductive task := Locking | Unlocking.

Record resource := { completed : bool; engaged : bool; running : option (task * prog bool) }.

Record sys := { api : server; resources : gmap string resource }.

Inductive event :=
| Reconcile (u : string)
| Serve (u : string) (f : fate) (lag : nat)
| Complete (u : string).

Section system.
Context (lock : nodeLock) (obj : string -> MaintenanceObject) (node : string -> string) (m : reads).

Definition fresh_resource : resource := {| completed := false; engaged := false; running := None |}.
Definition resource_of (s : sys) (u : string) : resource := default fresh_resource (resources s !! u).
Definition put (s : sys) (sv : server) (u : string) (r : resource) : sys :=
  {| api := sv; resources := <[u := r]> (resources s) |}.

(** The resource [u] after its program has become [p]. *)
Definition continue (r : resource) (t : task) (p : prog bool) : resource :=
  match p with
  | Call _ _ => {| completed := completed r; engaged := engaged r; running := Some (t, p) |}
  | Ret b =>
      {| completed := completed r;
         engaged := engaged r || match t with Locking => b | Unlocking => false end;
         running := None |}
  end.

Definition step (s : sys) (e : event) : sys :=
  match e with
  | Reconcile u =>
      let r := resource_of s u in
      match running r with
      | Some _ => s
      | None =>
          put s (api s) u
            (if completed r then continue r Unlocking (CheckUnlock lock (obj u) (node u))
             else continue r Locking (LockNode lock (obj u) (node u)))
      end
  | Serve u f lag =>
      let r := resource_of s u in
      match running r with
      | Some (t, Call c k) =>
          let '(a, sv) := exec m f lag (api s) c in put s sv u (continue r t (k a))
      | _ => s
      end
  | Complete u =>
      let r := resource_of s u in
      match running r with
      | Some _ => s
      | None => put s (api s) u {| completed := true; engaged := engaged r; running := None |}
      end
  end.

Definition run (s : sys) (es : list event) : sys := fold_left step es s.

Definition idle : sys := {| api := {| leases := ∅; past := [] |}; resources := ∅ |}.

(** A resource works on its node from the first time it got the lock until it
    has completed. *)
Definition working (s : sys) (u : string) : Prop :=
  engaged (resource_of s u) = true /\ completed (resource_of s u) = false.

(** ** Safety of live reads *)

Definition name_of (u : string) : string := leaseNameFor lock (node u).

Definition owned_by (l : Lease) (u : string) : Prop := exists o, OwnerReferences l = [o] /\ or_UID o = u.

Definition held (sv : server) (u : string) : Prop := exists l, leases sv !! name_of u = Some l /\ owned_by l u.

(** The programs a resource can be at. *)
Inductive at_prog (sv : server) (u : string) : task * prog bool -> Prop :=
| at_lock : at_prog sv u (Locking, LockNode lock (obj u) (node u))
| at_create k : (forall a, exists b, k a = Ret b /\ (b = true -> a <> AErr EOther /\ a <> AErr EAlreadyExists)) ->
    at_prog sv u (Locking, Call (CCreate (newLease lock (obj u) (node u))) k)
| at_unlock : at_prog sv u (Unlocking, CheckUnlock lock (obj u) (node u))
| at_delete k : (forall a, exists b, k a = Ret b) -> held sv u ->
    at_prog sv u (Unlocking, Call (CDelete (name_of u)) k).

Record inv (s : sys) : Prop := {
  inv_named n l : leases (api s) !! n = Some l -> lease_Name l = n;
  inv_held u : working s u -> held (api s) u;
  inv_prog u tp : running (resource_of s u) = Some tp -> at_prog (api s) u tp;
  inv_unlocking u p : running (resource_of s u) = Some (Unlocking, p) -> completed (resource_of s u) = true;
  inv_locking u p : running (resource_of s u) = Some (Locking, p) -> completed (resource_of s u) = false }.

Lemma resource_of_put s sv u r v :
  resource_of (put s sv u r) v = if decide (v = u) then r else resource_of s v.
Proof.
  unfold resource_of, put. simpl. destruct (decide (v = u)) as [->|Hne].
  - by rewrite lookup_insert_eq.
  - by rewrite lookup_insert_ne.
Qed.

Lemma at_prog_mono sv sv' u tp : (held sv u -> held sv' u) -> at_prog sv u tp -> at_prog sv' u tp.
Proof. intros Hh Hp. destruct Hp; constructor; auto. Qed.

(** A change of the server and of one resource keeps the invariant when it keeps
    the leases of the others and leaves the resource in order. *)
Lemma put_inv s sv u r :
  inv s -> (forall n l, leases sv !! n = Some l -> lease_Name l = n) ->
  (forall v, v <> u -> held (api s) v -> held sv v) ->
  (engaged r = true -> completed r = false -> held sv u) ->
  (forall tp, running r = Some tp -> at_prog sv u tp) ->
  (forall p, running r = Some (Unlocking, p) -> completed r = true) ->
  (forall p, running r = Some (Locking, p) -> completed r = false) ->
  inv (put s sv u r).
Proof.
  intros Hi Hn Ho He Hp Hu Hl. split; [exact Hn| | | |]; unfold working;
    intros v; rewrite resource_of_put; destruct (decide (v = u)) as [->|Hne].
  - intros [H1 H2]. by apply He.
  - intros Hw. apply Ho; [done|]. by apply Hi.
  - intros tp. by apply Hp.
  - intros tp Hr. eapply at_prog_mono; [apply (Ho v Hne)|]. by apply Hi.
  - by apply Hu.
  - by apply Hi.
  - by apply Hl.
  - by apply Hi.
Qed.

Context (Hobj : forall u, GetUID (obj u) = u).

Lemma newLease_owned u : owned_by (newLease lock (obj u) (node u)) u.
Proof.
  unfold newLease. destruct (resolveGVK lock (obj u)). eexists. split; [reflexivity|]. simpl. apply Hobj.
Qed.

Lemma newLease_name u : lease_Name (newLease lock (obj u) (node u)) = name_of u.
Proof. unfold newLease. by destruct (resolveGVK lock (obj u)). Qed.

Lemma held_after_create sv u v :
  leases sv !! name_of u = None -> held sv v ->
  held (commit sv (<[name_of u := newLease lock (obj u) (node u)]> (leases sv))) v.
Proof.
  intros Hn (l & Hl & Ho). exists l. split; [|done]. simpl. rewrite lookup_insert_ne; [done|]. congruence.
Qed.

Lemma held_created sv u :
  held (commit sv (<[name_of u := newLease lock (obj u) (node u)]> (leases sv))) u.
Proof. eexists. split; [simpl; apply lookup_insert_eq|apply newLease_owned]. Qed.

Lemma held_after_delete sv u v :
  v <> u -> held sv u -> held sv v -> held (commit sv (delete (name_of u) (leases sv))) v.
Proof.
  intros Hne (l & Hl & o & Ho & Hu) (l' & Hl' & o' & Ho' & Hv). exists l'. split; [|by exists o'].
  simpl. rewrite lookup_delete_ne; [done|]. congruence.
Qed.

(** The program of [u] has ended with [b], on a server that may have changed. *)
Lemma put_ret s sv u t p b :
  inv s -> running (resource_of s u) = Some (t, p) ->
  (forall n l, leases sv !! n = Some l -> lease_Name l = n) ->
  (forall v, v <> u -> held (api s) v -> held sv v) ->
  (t = Locking -> b = true \/ held (api s) u -> held sv u) ->
  inv (put s sv u (continue (resource_of s u) t (Ret b))).
Proof.
  intros Hi Hr Hn Ho He. apply put_inv; try done. cbn [continue engaged completed].
  intros Hen Hco. destruct t; [|by rewrite (inv_unlocking _ Hi _ _ Hr) in Hco].
  apply He; [done|]. apply orb_prop in Hen as [Hen| ->]; [right|by left].
  apply (inv_held _ Hi). done.
Qed.

(** The program of [u] goes on with another call. *)
Lemma put_call s u t p c k :
  inv s -> running (resource_of s u) = Some (t, p) -> at_prog (api s) u (t, Call c k) ->
  inv (put s (api s) u (continue (resource_of s u) t (Call c k))).
Proof.
  intros Hi Hr Hat. apply put_inv; try done; cbn [continue engaged completed running].
  - apply Hi.
  - intros Hen Hco. apply (inv_held _ Hi). done.
  - by intros tp [= <-].
  - intros q [= -> _]. by apply (inv_unlocking _ Hi _ _ Hr).
  - intros q [= -> _]. by apply (inv_locking _ Hi _ _ Hr).
Qed.

(** What a live read can answer. *)
Lemma exec_get f lag sv n :
  m = Live ->
  exists a, exec m f lag sv (CGet n) = (a, sv) /\ (a = AErr EOther \/ a = answer_of (leases sv !! n)).
Proof. intros ->. destruct f; simpl; eauto. Qed.

Lemma serve_lock s u f lag :
  m = Live -> inv s -> running (resource_of s u) = Some (Locking, LockNode lock (obj u) (node u)) ->
  inv (step s (Serve u f lag)).
Proof.
  intros Hm Hi Hr. cbn [step]. rewrite Hr. cbn [LockNode getNodeLockLease pbind].
  destruct (exec_get f lag (api s) (leaseNameFor lock (node u)) Hm) as (a & -> & Ha).
  assert (Hkeep : forall b, (b = true -> held (api s) u) ->
    inv (put s (api s) u (continue (resource_of s u) Locking (Ret b)))).
  { intros b Hb. eapply put_ret; try done; [apply Hi|]. intros _ [?|?]; auto. }
  destruct Ha as [->| ->]; [by apply Hkeep|].
  destruct (leases (api s) !! leaseNameFor lock (node u)) as [l|] eqn:Hl; cbn [answer_of pbind].
  - destruct (OwnerReferences l) as [|o [|]] eqn:Ho; cbn [pbind]; try by apply Hkeep.
    apply Hkeep. unfold go_eqb. intros Hb%bool_decide_eq_true. exists l. split; [done|]. exists o. by rewrite Hb.
  - eapply put_call; [done|exact Hr|]. constructor. intros [[]| |]; eexists; split; try done; try (intros; by split).
Qed.

Lemma serve_create s u f lag k :
  inv s -> running (resource_of s u) = Some (Locking, Call (CCreate (newLease lock (obj u) (node u))) k) ->
  (forall a, exists b, k a = Ret b /\ (b = true -> a <> AErr EOther /\ a <> AErr EAlreadyExists)) ->
  inv (step s (Serve u f lag)).
Proof.
  intros Hi Hr Hk. cbn [step]. rewrite Hr.
  assert (Hkeep : forall e, e = EOther \/ e = EAlreadyExists ->
    inv (put s (api s) u (continue (resource_of s u) Locking (k (AErr e))))).
  { intros e He. destruct (Hk (AErr e)) as (b & -> & Hb). eapply put_ret; try done; [apply Hi|].
    intros _ [->|?]; [|done]. destruct (Hb eq_refl). by destruct He as [-> | ->]. }
  assert (Hnew : leases (api s) !! name_of u = None -> forall a,
    inv (put s (commit (api s) (<[name_of u := newLease lock (obj u) (node u)]> (leases (api s)))) u
           (continue (resource_of s u) Locking (k a)))).
  { intros Hn a. destruct (Hk a) as (b & -> & _). eapply put_ret; try done.
    - intros n l. simpl. intros [[<- <-]|[_ Hl]]%lookup_insert_Some; [apply newLease_name|by apply Hi].
    - intros v _. by apply held_after_create.
    - intros _ _. apply held_created. }
  destruct f; cbn [exec]; rewrite ?newLease_name; [| |by apply Hkeep; left];
    destruct (leases (api s) !! name_of u) eqn:Hn; auto.
Qed.

Lemma serve_unlock s u f lag :
  m = Live -> inv s -> running (resource_of s u) = Some (Unlocking, CheckUnlock lock (obj u) (node u)) ->
  inv (step s (Serve u f lag)).
Proof.
  intros Hm Hi Hr. cbn [step]. rewrite Hr. cbn [CheckUnlock getNodeLockLease pbind].
  destruct (exec_get f lag (api s) (leaseNameFor lock (node u)) Hm) as (a & -> & Ha).
  assert (Hkeep : forall b, inv (put s (api s) u (continue (resource_of s u) Unlocking (Ret b)))).
  { intros b. eapply put_ret; try done. apply Hi. }
  destruct Ha as [->| ->]; [by apply Hkeep|].
  destruct (leases (api s) !! leaseNameFor lock (node u)) as [l|] eqn:Hl; cbn [answer_of pbind]; [|by apply Hkeep].
  destruct (OwnerReferences l) as [|o [|]] eqn:Ho; cbn [pbind]; try by apply Hkeep.
  destruct (or_UID o ==s GetUID (obj u)) eqn:Hb; [|by apply Hkeep]. unfold go_eqb in Hb.
  apply bool_decide_eq_true in Hb. rewrite Hobj in Hb.
  eapply put_call; [done|exact Hr|]. rewrite (inv_named _ Hi _ _ Hl).
  apply at_delete; [intros []; eauto|]. exists l. split; [done|by exists o].
Qed.

Lemma serve_delete s u f lag k :
  inv s -> running (resource_of s u) = Some (Unlocking, Call (CDelete (name_of u)) k) ->
  (forall a, exists b, k a = Ret b) -> held (api s) u ->
  inv (step s (Serve u f lag)).
Proof.
  intros Hi Hr Hk Hh. cbn [step]. rewrite Hr.
  assert (Hkeep : forall a, inv (put s (api s) u (continue (resource_of s u) Unlocking (k a)))).
  { intros a. destruct (Hk a) as [b ->]. eapply put_ret; try done. apply Hi. }
  assert (Hdel : forall a, inv (put s (commit (api s) (delete (name_of u) (leases (api s)))) u
                              (continue (resource_of s u) Unlocking (k a)))).
  { intros a. destruct (Hk a) as [b ->]. eapply put_ret; try done.
    - intros n l. simpl. intros [_ Hl]%lookup_delete_Some. by apply Hi.
    - intros v Hne. by apply held_after_delete. }
  destruct f; cbn [exec]; [| |by apply Hkeep]; destruct (leases (api s) !! name_of u); auto.
Qed.

(** With live reads every step keeps the invariant. *)
Lemma step_inv s e : m = Live -> inv s -> inv (step s e).
Proof.
  intros Hm Hi. destruct e as [u|u f lag|u].
  - cbn [step]. destruct (running (resource_of s u)) as [tp|] eqn:Hr; [done|].
    destruct (completed (resource_of s u)) eqn:Hc;
      apply put_inv; try done; try apply Hi; cbn [continue LockNode CheckUnlock getNodeLockLease pbind engaged completed running];
      rewrite ?Hc; try done.
    + intros tp [= <-]. apply at_unlock.
    + intros Hen _. apply (inv_held _ Hi). done.
    + intros tp [= <-]. apply at_lock.
  - destruct (running (resource_of s u)) as [[t p]|] eqn:Hr; [|cbn [step]; by rewrite Hr].
    pose proof (inv_prog _ Hi _ _ Hr) as Hat. inversion Hat; subst.
    + by apply serve_lock.
    + by eapply serve_create.
    + by apply serve_unlock.
    + by eapply serve_delete.
  - cbn [step]. destruct (running (resource_of s u)) as [tp|] eqn:Hr; [done|].
    apply put_inv; try done. apply Hi.
Qed.

Lemma idle_inv : inv idle.
Proof. split; intros *; unfold working, resource_of, idle; simpl; rewrite ?lookup_empty; try done. by intros []. Qed.

Lemma run_inv es : m = Live -> forall s, inv s -> inv (run s es).
Proof. intros Hm. induction es as [|e es IH]; intros s Hs; simpl; [done|]. apply IH. by apply step_inv. Qed.

Lemma held_unique sv u v : held sv u -> held sv v -> name_of u = name_of v -> u = v.
Proof.
  intros (l & Hl & o & Ho & Hu) (l' & Hl' & o' & Ho' & Hv) Hn. congruence.
Qed.

(** C18 Mutual exclusion.  With live reads, for every interleaving of the API calls
    of any number of maintenance resources, with refused calls and lost responses,
    a resource that got the lock and has not completed owns the lease of its node,
    so two resources never work on one node at a time. *)
Theorem lock_excludes es u v :
  m = Live ->
  let s := run idle es in
  working s u -> held (api s) u /\ (working s v -> name_of u = name_of v -> u = v).
Proof.
  intros Hm s Hu. pose proof (run_inv es Hm idle idle_inv) as Hi. fold s in Hi.
  split; [by apply Hi|]. intros Hv. apply (held_unique (api s)); by apply Hi.
Qed.

(** A completed holder whose calls are answered leaves no lease. *)
Lemma unlock_releases s u :
  m = Live -> inv s -> running (resource_of s u) = None -> completed (resource_of s u) = true ->
  held (api s) u ->
  let s' := run s [Reconcile u; Serve u Served 0; Serve u Served 0] in
  leases (api s') !! name_of u = None /\ (forall v, v <> u -> resource_of s' v = resource_of s v).
Proof.
  intros Hm Hi Hr Hc (l & Hl & o & Ho & Hu). unfold run. cbn [fold_left step].
  rewrite Hr, Hc. cbn [continue CheckUnlock getNodeLockLease pbind].
  rewrite resource_of_put, decide_True by done. cbn [running exec view]. rewrite Hm. cbn [view].
  change (api (put s (api s) u _)) with (api s). fold (name_of u). rewrite Hl. cbn [answer_of]. rewrite Ho.
  cbn [pbind]. unfold go_eqb. rewrite bool_decide_eq_true_2 by by rewrite Hobj. cbn [continue].
  rewrite resource_of_put, decide_True by done. cbn [running]. rewrite (inv_named _ Hi _ _ Hl).
  cbn [exec]. cbn [put api]. rewrite Hl. cbn [api put commit leases]. split; [apply lookup_delete_eq|].
  intros v Hne. rewrite !resource_of_put. by rewrite !decide_False.
Qed.

(** On a node without a lease the lock is granted. *)
Lemma lock_free_granted s v :
  m = Live -> running (resource_of s v) = None -> completed (resource_of s v) = false ->
  leases (api s) !! name_of v = None ->
  working (run s [Reconcile v; Serve v Served 0; Serve v Served 0]) v.
Proof.
  intros Hm Hr Hc Hl. unfold run. cbn [fold_left step].
  rewrite Hr, Hc. cbn [continue LockNode getNodeLockLease pbind].
  rewrite resource_of_put, decide_True by done. cbn [running exec view]. rewrite Hm. cbn [view].
  change (api (put s (api s) v _)) with (api s). fold (name_of v). rewrite Hl. cbn [answer_of pbind continue].
  rewrite resource_of_put, decide_True by done. cbn [running exec]. rewrite newLease_name.
  cbn [put api]. rewrite Hl. unfold working. rewrite !resource_of_put, !decide_True by done.
  cbn [continue engaged completed]. by rewrite orb_true_r.
Qed.

(** C30 The lock is handed over.  In every reachable state with live reads, when
    the holder of a node's lease has completed, answering the two calls of its
    next reconcile and the two calls of a reconcile of a waiting resource makes the
    waiting resource the one that works on the node. *)
Theorem lock_handed_over es u v :
  m = Live -> u <> v -> name_of u = name_of v ->
  let s := run idle es in
  held (api s) u -> completed (resource_of s u) = true -> running (resource_of s u) = None ->
  completed (resource_of s v) = false -> running (resource_of s v) = None ->
  working (run s [Reconcile u; Serve u Served 0; Serve u Served 0;
                  Reconcile v; Serve v Served 0; Serve v Served 0]) v.
Proof.
  intros Hm Hne Hn s Hh Hc Hr Hcv Hrv. pose proof (run_inv es Hm idle idle_inv) as Hi. fold s in Hi.
  destruct (unlock_releases s u Hm Hi Hr Hc Hh) as [Hfree Hother].
  change (run s _) with (run (run s [Reconcile u; Serve u Served 0; Serve u Served 0])
                           [Reconcile v; Serve v Served 0; Serve v Served 0]).
  apply lock_free_granted; rewrite ?Hother by congruence; try done. by rewrite <- Hn.
Qed.

End system.

(** ** Concrete runs *)

Module NodeLockDemo.

Definition lock0 : nodeLock := {| scheme := None; namespace := "nvsentinel"; leaseName := None |}.
Definition reboot (u : string) : MaintenanceObject :=
  {| GetName := "reboot-" +:+ u; GetUID := u; gvk_GroupVersion := "janitor/v1alpha1"; gvk_Kind := "RebootNode" |}.
Definition node0 (_ : string) : string := "node-1".

Definition run0 (m : reads) : list event -> sys := run lock0 reboot node0 m idle.

Definition acquire (u : string) : list event := [Reconcile u; Serve u Served 0; Serve u Served 0].

(** [a] gets the lock, [b] waits, [a] completes. *)
Definition contended : list event := acquire "a" ++ [Reconcile "b"; Serve "b" Served 0; Complete "a"].

Lemma lock_excludes_witness :
  held lock0 node0 (api (run0 Live (acquire "a" ++ [Reconcile "b"; Serve "b" Served 0]))) "a".
Proof.
  exact (proj1 (lock_excludes lock0 reboot node0 Live (fun u => eq_refl)
           (acquire "a" ++ [Reconcile "b"; Serve "b" Served 0]) "a" "b" eq_refl
           (conj eq_refl eq_refl))).
Defined.

Lemma lock_handed_over_witness :
  working (run lock0 reboot node0 Live (run0 Live contended)
             [Reconcile "a"; Serve "a" Served 0; Serve "a" Served 0;
              Reconcile "b"; Serve "b" Served 0; Serve "b" Served 0]) "b".
Proof.
  apply (lock_handed_over lock0 reboot node0 Live (fun u => eq_refl) contended "a" "b"); try reflexivity.
  - discriminate.
  - eexists. split; [vm_compute; reflexivity|]. eexists. split; reflexivity.
Defined.

(** A cached read breaks the exclusion.  After [a] has released the lock and
    [b] has taken it, another reconcile of the completed [a] reads its own lease
    from a cache two changes behind and deletes the lease by name, which is now
    that of [b]; [c] then gets the lock while [b] works. *)
Example stale_cache_breaks_exclusion :
  let s := run0 Cached
    (acquire "a" ++ [Complete "a"] ++ [Reconcile "a"; Serve "a" Served 0; Serve "a" Served 0] ++
     acquire "b" ++ [Reconcile "a"; Serve "a" Served 2; Serve "a" Served 0] ++ acquire "c") in
  working s "b" /\ working s "c" /\ node0 "b" = node0 "c".
Proof. vm_compute. repeat split. Qed.

(** A lost response of the create is made up for by the next reconcile. *)
Example lost_create_recovers :
  working (run0 Live [Reconcile "a"; Serve "a" Served 0; Serve "a" Lost 0; Reconcile "a"; Serve "a" Served 0]) "a".
Proof. vm_compute. by split. Qed.

Example overlap_by_pci :
  gpuUUIDsOverlap (Some {| UUIDs := ["u1"]; PCIBusIDs := ["p1"] |}) (Some {| UUIDs := ["u2"]; PCIBusIDs := ["p1"] |}) = true
  /\ gpuUUIDsOverlap (Some {| UUIDs := ["u1"]; PCIBusIDs := [] |}) (Some {| UUIDs := []; PCIBusIDs := ["p1"] |}) = false.
Proof. split; vm_compute; reflexivity. Qed.

End NodeLockDemo.
