(* ===== verification/Query.v ===== *)
(** * Store queries

    Models [store-client/pkg/query/builder.go]: conditions over document fields
    and their two renderings, a MongoDB filter document and a PostgreSQL WHERE
    clause with numbered parameters.  What the servers make of them is a
    parameter: a class states the documented meaning of the filter documents that
    the first rendering relies on. *)

From stdpp Require Import gmap strings list pretty.
From Stdlib Require Import ZArith Lia Ascii.
From S2P Require Import Prelude.

(** ** Conditions *)

(** The values the callers pass. *)
Inductive Value :=
| VNil
| VString (s : string)
| VInt (z : Z)
| VBool (b : bool)
| VTime (t : Z)
| VObjectID (hex : string).

#[export] Instance Value_eq_dec : EqDecision Value.
Proof. solve_decision. Defined.

Inductive Condition :=
| Eq (field : string) (value : Value)
| Ne (field : string) (value : Value)
| Gt (field : string) (value : Value)
| Gte (field : string) (value : Value)
| Lt (field : string) (value : Value)
| Lte (field : string) (value : Value)
| In (field : string) (values : list Value)
| And (conditions : list Condition)
| Or (conditions : list Condition).

(** A condition holds if it holds of every sub-condition. *)
Section Condition_ind.
Context (P : Condition -> Prop)
  (HEq : forall f v, P (Eq f v)) (HNe : forall f v, P (Ne f v)) (HGt : forall f v, P (Gt f v))
  (HGte : forall f v, P (Gte f v)) (HLt : forall f v, P (Lt f v)) (HLte : forall f v, P (Lte f v))
  (HIn : forall f vs, P (In f vs))
  (HAnd : forall cs, Forall P cs -> P (And cs)) (HOr : forall cs, Forall P cs -> P (Or cs)).

Fixpoint Condition_ind' (c : Condition) : P c :=
  let go := fix go (cs : list Condition) : Forall P cs :=
    match cs with
    | [] => Forall_nil_2 P
    | c :: cs => Forall_cons_2 P c cs (Condition_ind' c) (go cs)
    end in
  match c with
  | Eq f v => HEq f v | Ne f v => HNe f v | Gt f v => HGt f v | Gte f v => HGte f v
  | Lt f v => HLt f v | Lte f v => HLte f v | In f vs => HIn f vs
  | And cs => HAnd cs (go cs) | Or cs => HOr cs (go cs)
  end.

End Condition_ind.

(** ** MongoDB filters *)

(** What a filter asks of one field: a value, an operator document or [$in], with a
    list or, as the code builds it for no ids, with a nil slice. *)
Inductive FieldTest :=
| FValue (v : Value)
| FOp (op : string) (v : Value)
| FIn (vs : list Value)
| FInNil.

(** A filter document, as the entries of the Go map. *)
Inductive Filter := Doc (entries : list (string * Entry))
with Entry :=
| ETest (t : FieldTest)
| EFilters (fs : list Filter).

Definition entries_of (f : Filter) : list (string * Entry) := match f with Doc es => es end.

Definition mongoIDFieldName : string := "_id".

(** [bson.ObjectIDFromHex]. *)
Class ObjectIDs := ObjectIDFromHex : string -> option string.

Section ToMongo.
Context `{ObjectIDs}.

Definition convertToMongoObject (id : Value) : Value :=
  match id with
  | VString s => match ObjectIDFromHex s with Some o => VObjectID o | None => id end
  | _ => id
  end.

(** The conversion every field condition makes first. *)
Definition field_value (field : string) (value : Value) : Value :=
  if field ==s mongoIDFieldName then convertToMongoObject value else value.

(** The list of [$in]: for the id field it is appended to nil value by value.  (A nil
    list handed over by a caller for another field is not told from an empty one.) *)
Definition in_test (field : string) (values : list Value) : FieldTest :=
  if (field ==s mongoIDFieldName) && bool_decide (values = []) then FInNil else FIn (map (field_value field) values).

Definition field_doc (field : string) (t : FieldTest) : Filter := Doc [(field, ETest t)].

(** The loop of [andCondition.ToMongo]: the merged map, [None] when the [$and]
    operator is needed. *)
Fixpoint mergeConditions (result : list (string * Entry)) (condMaps : list Filter) :
    option (list (string * Entry)) :=
  match condMaps with
  | [] => Some result
  | condMap :: rest =>
      if (1 <? length (entries_of condMap))%nat then None
      else if existsb (fun key => bool_decide (key ∈ result.*1)) (entries_of condMap).*1 then None
      else mergeConditions (result ++ entries_of condMap) rest
  end.

Fixpoint ToMongo (c : Condition) : Filter :=
  match c with
  | Eq f v => field_doc f (FValue (field_value f v))
  | Ne f v => field_doc f (FOp "$ne" (field_value f v))
  | Gt f v => field_doc f (FOp "$gt" (field_value f v))
  | Gte f v => field_doc f (FOp "$gte" (field_value f v))
  | Lt f v => field_doc f (FOp "$lt" (field_value f v))
  | Lte f v => field_doc f (FOp "$lte" (field_value f v))
  | In f vs => field_doc f (in_test f vs)
  | And cs =>
      let condMaps := map ToMongo cs in
      match mergeConditions [] condMaps with
      | Some result => Doc result
      | None => Doc [("$and"%string, EFilters condMaps)]
      end
  | Or [] => Doc []
  | Or cs => Doc [("$or"%string, EFilters (map ToMongo cs))]
  end.

(** The condition object after a call: the id comparisons keep the converted value,
    and every part of a conjunction or disjunction has been rendered. *)
Fixpoint rendered (c : Condition) : Condition :=
  match c with
  | Eq f v => Eq f (field_value f v)
  | Ne f v => Ne f (field_value f v)
  | Gt f v => Gt f (field_value f v)
  | Gte f v => Gte f (field_value f v)
  | Lt f v => Lt f (field_value f v)
  | Lte f v => Lte f (field_value f v)
  | In f vs => In f vs
  | And cs => And (map rendered cs)
  | Or cs => Or (map rendered cs)
  end.

(** The meaning of a condition, given the meaning of a test of one field. *)
Fixpoint holds (test : string -> FieldTest -> bool) (c : Condition) : bool :=
  match c with
  | Eq f v => test f (FValue (field_value f v))
  | Ne f v => test f (FOp "$ne" (field_value f v))
  | Gt f v => test f (FOp "$gt" (field_value f v))
  | Gte f v => test f (FOp "$gte" (field_value f v))
  | Lt f v => test f (FOp "$lt" (field_value f v))
  | Lte f v => test f (FOp "$lte" (field_value f v))
  | In f vs => test f (FIn (map (field_value f) vs))
  | And cs => forallb (holds test) cs
  | Or cs => existsb (holds test) cs
  end.

End ToMongo.

(** ** PostgreSQL WHERE clauses *)

Definition dot : ascii := "."%char.

Fixpoint snake_rest (s : string) : string :=
  match s with
  | EmptyString => ""
  | String c rest =>
      if is_upper c then String "_"%char (String (lower c) (snake_rest rest)) else String c (snake_rest rest)
  end.

(** The underscore is left out before the first character. *)
Definition toSnakeCase (s : string) : string :=
  match s with EmptyString => ""%string | String c rest => String (lower c) (snake_rest rest) end.

Definition isColumnField (field : string) : bool :=
  bool_decide (field ∈ ["id"; "created_at"; "updated_at"; mongoIDFieldName; "node_quarantined";
    "user_pods_eviction_status"; "node_name"; "event_type"; "severity"; "recommended_action";
    "fault_remediated"; "last_remediation_timestamp"; "event_id"; "csp"; "cluster_name"; "status";
    "csp_status"; "scheduled_start_time"; "actual_end_time"; "event_received_timestamp";
    "last_updated_timestamp"]%string).

Definition jsonTextComparisonValue (field : string) (value : Value) : Value :=
  if isColumnField (toSnakeCase field) then value
  else match value with
       | VBool b => VString (if b then "true" else "false")
       | VInt z => VString (pretty z)
       | _ => value
       end.

Definition needsDualCaseLookup (fieldName : string) : bool :=
  bool_decide (to_lower fieldName ∈ ["componentclass"; "checkname"; "nodename"; "nodequarantined"]%string).

Definition toCamelCase (s : string) : string :=
  if s ==s "componentclass" then "componentClass"
  else if s ==s "checkname" then "checkName"
  else if s ==s "nodename" then "nodeName"
  else if s ==s "nodequarantined" then "nodeQuarantined"
  else s.

(** [->'part'] for every part. *)
Definition jsonb_steps (parts : list string) : string :=
  join "" (map (fun part => "->'" +:+ part +:+ "'") parts).

Definition last_part (parts : list string) : string := default ""%string (last parts).

Definition buildDualCaseJSONBPath (parts : list string) : string :=
  let basePathStr := "document" +:+ jsonb_steps (removelast parts) in
  let lowercaseField := to_lower (last_part parts) in
  let camelCaseField := toCamelCase lowercaseField in
  "COALESCE(" +:+ basePathStr +:+ "->>'" +:+ lowercaseField +:+ "', "
    +:+ basePathStr +:+ "->>'" +:+ camelCaseField +:+ "')".

Definition mongoFieldToJSONB (fieldPath : string) : string :=
  if negb (has_char dot fieldPath) then
    let snakeCaseField := toSnakeCase fieldPath in
    if isColumnField snakeCaseField then
      if snakeCaseField ==s mongoIDFieldName then "id" else snakeCaseField
    else "document->>'" +:+ fieldPath +:+ "'"
  else
    let parts := split_on dot fieldPath in
    if needsDualCaseLookup (last_part parts) then buildDualCaseJSONBPath parts
    else "document" +:+ jsonb_steps (removelast parts) +:+ "->>'" +:+ last_part parts +:+ "'".

Definition placeholder (n : nat) : string := "$" +:+ itoa n.

Definition compare_sql (op field : string) (n : nat) : string :=
  mongoFieldToJSONB field +:+ op +:+ placeholder n.

(** [andCondition.ToSQL] and [orCondition.ToSQL] on a non-empty list. *)
Definition sqlParts (toSQL : Condition -> nat -> string * list Value * nat) :=
  fix go (cs : list Condition) (currentParam : nat) : list string * list Value * nat :=
    match cs with
    | [] => ([], [], currentParam)
    | cond :: rest =>
        let '(sql, args, nextParam) := toSQL cond currentParam in
        let '(parts, allArgs, final) := go rest nextParam in
        (("(" +:+ sql +:+ ")") :: parts, args ++ allArgs, final)
    end.

Fixpoint ToSQL (c : Condition) (paramNum : nat) : string * list Value * nat :=
  match c with
  | Eq f VNil => (mongoFieldToJSONB f +:+ " IS NULL", [], paramNum)
  | Eq f v => (compare_sql " = " f paramNum, [jsonTextComparisonValue f v], S paramNum)
  | Ne f VNil => (mongoFieldToJSONB f +:+ " IS NOT NULL", [], paramNum)
  | Ne f v => (compare_sql " != " f paramNum, [jsonTextComparisonValue f v], S paramNum)
  | Gt f v => (compare_sql " > " f paramNum, [v], S paramNum)
  | Gte f v => (compare_sql " >= " f paramNum, [v], S paramNum)
  | Lt f v => (compare_sql " < " f paramNum, [v], S paramNum)
  | Lte f v => (compare_sql " <= " f paramNum, [v], S paramNum)
  | In f vs =>
      (mongoFieldToJSONB f +:+ " IN (" +:+ join ", " (map placeholder (seq paramNum (length vs))) +:+ ")",
       map (jsonTextComparisonValue f) vs, paramNum + length vs)
  | And [] => ("TRUE"%string, [], paramNum)
  | And cs =>
      let '(parts, args, next) := sqlParts ToSQL cs paramNum in (join " AND " parts, args, next)
  | Or [] => ("FALSE"%string, [], paramNum)
  | Or cs =>
      let '(parts, args, next) := sqlParts ToSQL cs paramNum in (join " OR " parts, args, next)
  end.

(** ** The filter means what the condition means *)

(** A field name that is not an operator of the filter language. *)
Definition plain_field (f : string) : bool :=
  match f with String c _ => bool_decide (c <> "$"%char) | EmptyString => true end.

(** Conditions over plain fields, without an empty disjunction or an empty list of ids. *)
Fixpoint well_formed (c : Condition) : bool :=
  match c with
  | Eq f _ | Ne f _ | Gt f _ | Gte f _ | Lt f _ | Lte f _ => plain_field f
  | In f vs => plain_field f && negb ((f ==s mongoIDFieldName) && bool_decide (vs = []))
  | And cs => forallb well_formed cs
  | Or cs => negb (bool_decide (cs = [])) && forallb well_formed cs
  end.

(** The server: which documents a filter selects, and the test of one field. *)
Class MongoServer (D : Type) := {
  matches : Filter -> D -> bool;
  field_test : string -> FieldTest -> D -> bool }.

(** The documented meaning of a filter: the entries of a document all hold, the
    two logical operators combine filters, and any other entry tests its field.
    A document has one entry per key. *)
Class MongoLaws (D : Type) `{MongoServer D} := {
  matches_doc es d : NoDup es.*1 -> matches (Doc es) d = forallb (fun e => matches (Doc [e]) d) es;
  matches_and fs d : fs <> [] ->
    matches (Doc [("$and"%string, EFilters fs)]) d = forallb (fun f => matches f d) fs;
  matches_or fs d : fs <> [] ->
    matches (Doc [("$or"%string, EFilters fs)]) d = existsb (fun f => matches f d) fs;
  matches_field f t d : plain_field f = true -> matches (Doc [(f, ETest t)]) d = field_test f t d }.

Section mongo_theory.
Context `{ObjectIDs} {D : Type} `{MongoLaws D}.

(** A merged map holds the entries of all its parts under distinct keys. *)
Lemma mergeConditions_spec result fs es :
  NoDup result.*1 -> mergeConditions result fs = Some es ->
  NoDup es.*1 /\ es = result ++ concat (map entries_of fs) /\
  Forall (fun f => (length (entries_of f) <= 1)%nat) fs.
Proof.
  revert result. induction fs as [|[e] fs IH]; intros result Hnd; cbn [mergeConditions entries_of].
  { intros [= <-]. split; [done|]. split; [by rewrite app_nil_r|constructor]. }
  destruct (1 <? length e)%nat eqn:Hlen; [done|]. apply Nat.ltb_ge in Hlen.
  destruct (existsb _ e.*1) eqn:Hex; [done|]. intros Hm.
  apply IH in Hm as (Hm1 & -> & Hm3).
  - split; [done|]. split; [by rewrite <- app_assoc|]. by constructor.
  - rewrite fmap_app. apply NoDup_app. split; [done|]. split.
    + intros x Hx Hin. rewrite existsb_none in Hex. specialize (Hex x Hin). by apply bool_decide_eq_false in Hex.
    + destruct e as [|? [|]]; simpl in *; [constructor|by apply NoDup_singleton|lia].
Qed.

Lemma matches_small f d : (length (entries_of f) <= 1)%nat ->
  matches f d = forallb (fun e => matches (Doc [e]) d) (entries_of f).
Proof.
  destruct f as [[|e [|]]]; simpl; [intros _..|lia].
  - rewrite matches_doc; [done|constructor].
  - by rewrite andb_true_r.
Qed.

Lemma forallb_concat {A B} (f : B -> bool) (g : A -> list B) l :
  forallb f (concat (map g l)) = forallb (fun x => forallb f (g x)) l.
Proof. induction l as [|x l IH]; [done|]. cbn [map concat forallb]. by rewrite forallb_app, IH. Qed.

Lemma forallb_ext_in' {A} (f g : A -> bool) l : Forall (fun x => f x = g x) l -> forallb f l = forallb g l.
Proof. induction 1 as [|x l Hx _ IH]; [done|]. cbn [forallb]. by rewrite Hx, IH. Qed.

Lemma existsb_ext_in' {A} (f g : A -> bool) l : Forall (fun x => f x = g x) l -> existsb f l = existsb g l.
Proof. induction 1 as [|x l Hx _ IH]; [done|]. cbn [existsb]. by rewrite Hx, IH. Qed.

Lemma forallb_map' {A B} (f : B -> bool) (g : A -> B) l : forallb f (map g l) = forallb (fun x => f (g x)) l.
Proof. induction l as [|x l IH]; [done|]. cbn [map forallb]. by rewrite IH. Qed.

Lemma existsb_map' {A B} (f : B -> bool) (g : A -> B) l : existsb f (map g l) = existsb (fun x => f (g x)) l.
Proof. induction l as [|x l IH]; [done|]. cbn [map existsb]. by rewrite IH. Qed.

Lemma conjunction_correct cs d :
  matches (ToMongo (And cs)) d = forallb (fun c => matches (ToMongo c) d) cs.
Proof.
  cbn [ToMongo]. rewrite <- (forallb_map' (fun f => matches f d)).
  destruct (mergeConditions [] (map ToMongo cs)) as [es|] eqn:Hm; [|apply matches_and; by destruct cs].
  apply mergeConditions_spec in Hm as (Hnd & -> & Hsmall); [|constructor].
  rewrite matches_doc by done. cbn [app]. rewrite forallb_concat.
  apply forallb_ext_in'. eapply Forall_impl; [exact Hsmall|]. intros f Hf. by rewrite matches_small.
Qed.

Lemma ToMongo_selects (c : Condition) (d : D) :
  well_formed c = true ->
  matches (ToMongo c) d = holds (fun f t => field_test f t d) c.
Proof.
  induction c as [f v|f v|f v|f v|f v|f v|f vs|cs IH|cs IH] using Condition_ind'; intros Hwf;
    try (by apply matches_field).
  - cbn [well_formed ToMongo holds] in *. apply andb_prop in Hwf as [Hf Hvs]. apply negb_true_iff in Hvs.
    unfold in_test. rewrite Hvs. by apply matches_field.
  - rewrite conjunction_correct. cbn [holds well_formed] in *. apply forallb_ext_in'.
    apply Forall_forall. intros c Hc. rewrite Forall_forall in IH. apply IH; [done|].
    by apply (proj1 (forallb_elem _ _) Hwf).
  - cbn [well_formed holds] in *. apply andb_prop in Hwf as [Hne Hwf].
    destruct cs as [|c0 cs]; [done|]. cbn [ToMongo].
    rewrite matches_or by done. change (ToMongo c0 :: map ToMongo cs) with (map ToMongo (c0 :: cs)).
    rewrite existsb_map'. apply existsb_ext_in'. apply Forall_forall. intros c Hc.
    rewrite Forall_forall in IH. apply IH; [done|]. by apply (proj1 (forallb_elem _ _) Hwf).
Qed.

Lemma field_value_again f v : field_value f (field_value f v) = field_value f v.
Proof.
  unfold field_value. destruct (f ==s mongoIDFieldName); [|done]. destruct v as [|h| | | |]; try done. cbn [convertToMongoObject].
  destruct (ObjectIDFromHex h) as [o|] eqn:Ho; [done|]. cbn [convertToMongoObject]. by rewrite Ho.
Qed.

(** Rendering a condition object again, as the [$and] case does with its parts. *)
Lemma ToMongo_again c : ToMongo (rendered c) = ToMongo c.
Proof.
  induction c as [f v|f v|f v|f v|f v|f v|f vs|cs IH|cs IH] using Condition_ind'; cbn [rendered ToMongo]; rewrite ?field_value_again; try done.
  all: assert (Hm : map ToMongo (map rendered cs) = map ToMongo cs)
    by (rewrite map_map; apply map_ext_in; intros c Hc%list_elem_of_In; rewrite Forall_forall in IH; auto).
  - by rewrite Hm.
  - destruct cs as [|c cs]; [done|]. cbn [map] in *. by rewrite Hm.
Qed.

(** C31 The MongoDB rendering of a condition selects exactly the documents of
    which the condition holds: merging the parts of a conjunction into one filter
    document, which is done when no two parts share a key, loses none of them.
    Proved of conditions on plain field names (not beginning with a dollar sign),
    with no empty disjunction (rendered as a filter that selects everything) and no
    empty [In] on the id field (rendered with a nil list, which the server
    refuses).  The rendering writes the converted ids back into the condition;
    rendering the object again gives the same filter. *)
Theorem ToMongo_correct (c : Condition) (d : D) :
  well_formed c = true ->
  matches (ToMongo c) d = holds (fun f t => field_test f t d) c /\ ToMongo (rendered c) = ToMongo c.
Proof. intros Hwf. split; [by apply ToMongo_selects|apply ToMongo_again]. Qed.

End mongo_theory.

(** ** The parameters of the WHERE clause *)

Definition dollar : ascii := "$"%char.

(** A clause as text and parameters. *)
Inductive SqlPart := Text (s : string) | Param (n : nat).

Definition render (parts : list SqlPart) : string :=
  join "" (map (fun p => match p with Text s => s | Param n => placeholder n end) parts).

Definition params (parts : list SqlPart) : list nat :=
  omap (fun p => match p with Param n => Some n | Text _ => None end) parts.

(** The dollar signs of [sql] are those of the parameters [ns], in that order. *)
Definition numbered (sql : string) (ns : list nat) : Prop :=
  exists parts, sql = render parts /\ params parts = ns /\
    forall s, Text s ∈ parts -> no_char dollar s.

Lemma join_cons s l : join "" (s :: l) = s +:+ join "" l.
Proof. destruct l; [symmetry; apply string_app_nil_r|done]. Qed.

Lemma join_app l1 l2 : join "" (l1 ++ l2) = join "" l1 +:+ join "" l2.
Proof.
  induction l1 as [|s l1 IH]; [done|]. rewrite <- app_comm_cons, !join_cons, IH. symmetry. apply string_app_assoc.
Qed.

Lemma numbered_text s : no_char dollar s -> numbered s [].
Proof.
  exists [Text s]. split; [done|]. split; [done|]. intros s' Hs. apply list_elem_of_singleton in Hs. by injection Hs as ->.
Qed.

Lemma numbered_param n : numbered (placeholder n) [n].
Proof.
  exists [Param n]. split; [done|]. split; [done|]. intros s' Hs. by apply list_elem_of_singleton in Hs.
Qed.

Lemma sql_numbered_app a b xs ys : numbered a xs -> numbered b ys -> numbered (a +:+ b) (xs ++ ys).
Proof.
  intros (p1 & -> & <- & H1) (p2 & -> & <- & H2). exists (p1 ++ p2). split; [|split].
  - unfold render. by rewrite map_app, join_app.
  - unfold params. by rewrite omap_app.
  - intros s [Hs|Hs]%elem_of_app; auto.
Qed.

Lemma numbered_text_app a b ys : no_char dollar a -> numbered b ys -> numbered (a +:+ b) ys.
Proof. intros Ha Hb. change ys with ([] ++ ys). apply sql_numbered_app; [by apply numbered_text|done]. Qed.

Lemma numbered_app_text a b xs : numbered a xs -> no_char dollar b -> numbered (a +:+ b) xs.
Proof. intros Ha Hb. rewrite <- (app_nil_r xs). apply sql_numbered_app; [done|by apply numbered_text]. Qed.

Lemma numbered_join sep (l : list string) (nss : list (list nat)) :
  no_char dollar sep -> Forall2 numbered l nss -> numbered (join sep l) (concat nss).
Proof.
  intros Hsep HF. induction HF as [|s ns l nss Hs HF IH]; [by apply numbered_text|].
  destruct HF as [|s2 ns2 l nss Hs2 HF]; [cbn; by rewrite app_nil_r|].
  change (join sep (s :: s2 :: l)) with (s +:+ sep +:+ join sep (s2 :: l)).
  apply sql_numbered_app; [done|]. by apply numbered_text_app.
Qed.

(** Field names without a dollar sign. *)
Fixpoint clean (c : Condition) : Prop :=
  match c with
  | Eq f _ | Ne f _ | Gt f _ | Gte f _ | Lt f _ | Lte f _ | In f _ => no_char dollar f
  | And cs | Or cs => foldr (fun c P => clean c /\ P) True cs
  end.

Lemma no_char_app sep a b : no_char sep a -> no_char sep b -> no_char sep (a +:+ b).
Proof. induction a as [|c a IH]; [done|]. intros [? ?] ?. split; [done|by apply IH]. Qed.

Lemma lower_not_dollar c : c <> dollar -> lower c <> dollar.
Proof. unfold dollar. destruct c as [[] [] [] [] [] [] [] []]; vm_compute; congruence. Qed.

Lemma snake_clean s : no_char dollar s -> no_char dollar (snake_rest s).
Proof.
  induction s as [|c s IH]; [done|]. intros [Hc Hs]. cbn [snake_rest]. destruct (is_upper c); cbn [no_char].
  - split; [done|]. split; [by apply lower_not_dollar|by apply IH].
  - split; [done|by apply IH].
Qed.

Lemma toSnakeCase_clean s : no_char dollar s -> no_char dollar (toSnakeCase s).
Proof.
  destruct s as [|c s]; [done|]. intros [Hc Hs]. split; [by apply lower_not_dollar|by apply snake_clean].
Qed.

Lemma to_lower_clean s : no_char dollar s -> no_char dollar (to_lower s).
Proof. induction s as [|c s IH]; [done|]. intros [Hc Hs]. split; [by apply lower_not_dollar|by apply IH]. Qed.

Lemma split_on_clean s : no_char dollar s -> Forall (no_char dollar) (split_on dot s).
Proof.
  induction s as [|c s IH]; [intros _; by repeat constructor|]. intros [Hc Hs]. cbn [split_on].
  specialize (IH Hs). case_decide; [by constructor|]. destruct IH as [|p ps Hp Hps]; by constructor.
Qed.

Lemma Forall_removelast {A} (P : A -> Prop) l : Forall P l -> Forall P (removelast l).
Proof. induction 1 as [|x l Hx Hl IH]; [constructor|]. destruct l; [constructor|]. by constructor. Qed.

Lemma last_part_clean parts : Forall (no_char dollar) parts -> no_char dollar (last_part parts).
Proof.
  intros HF. unfold last_part. destruct (last parts) as [s|] eqn:Hl; [|done].
  apply last_Some in Hl as [l ->]. apply Forall_app in HF as [_ HF]. by inversion HF.
Qed.

Lemma jsonb_steps_clean parts : Forall (no_char dollar) parts -> no_char dollar (jsonb_steps parts).
Proof.
  unfold jsonb_steps. induction 1 as [|s l Hs _ IH]; [done|]. cbn [map]. rewrite join_cons.
  apply no_char_app; [|done]. apply no_char_app; [done|]. by apply no_char_app.
Qed.

Lemma toCamelCase_clean s : no_char dollar s -> no_char dollar (toCamelCase s).
Proof. intros Hs. unfold toCamelCase. by repeat case_match. Qed.

Lemma mongoFieldToJSONB_clean f : no_char dollar f -> no_char dollar (mongoFieldToJSONB f).
Proof.
  intros Hf. unfold mongoFieldToJSONB, buildDualCaseJSONBPath. pose proof (split_on_clean f Hf) as Hp.
  pose proof (last_part_clean _ Hp) as Hl. pose proof (jsonb_steps_clean _ (Forall_removelast _ _ Hp)) as Hj.
  pose proof (to_lower_clean _ Hl) as Hlow. pose proof (toCamelCase_clean _ Hlow) as Hcam.
  repeat case_match; try done; try (by apply toSnakeCase_clean); repeat apply no_char_app; done.
Qed.

Lemma compare_numbered op f n : no_char dollar op -> no_char dollar f -> numbered (compare_sql op f n) [n].
Proof.
  intros Hop Hf. unfold compare_sql.
  apply numbered_text_app; [by apply mongoFieldToJSONB_clean|]. apply numbered_text_app; [done|].
  apply numbered_param.
Qed.

(** A clause, its arguments and the next parameter agree. *)
Definition well_numbered (n : nat) (r : string * list Value * nat) : Prop :=
  let '(sql, args, next) := r in numbered sql (seq n (length args)) /\ next = n + length args.

Lemma sqlParts_numbered cs n :
  Forall (fun c => forall n, clean c -> well_numbered n (ToSQL c n)) cs -> clean (And cs) ->
  let '(parts, args, next) := sqlParts ToSQL cs n in
  (exists nss, Forall2 numbered parts nss /\ concat nss = seq n (length args)) /\ next = n + length args.
Proof.
  intros HF. revert n. induction HF as [|c cs Hc HF IH]; intros n Hcl; cbn [sqlParts].
  { split; [exists []; by split|cbn; lia]. }
  destruct Hcl as [Hc1 Hcs]. specialize (Hc n Hc1). destruct (ToSQL c n) as [[sql args] next]. destruct Hc as [H1 ->].
  specialize (IH (n + length args) Hcs). destruct (sqlParts ToSQL cs _) as [[parts args'] next'].
  destruct IH as [(nss & H2 & H3) ->]. rewrite length_app. split; [|lia].
  exists (seq n (length args) :: nss). split.
  - constructor; [|done]. change ("(" +:+ sql +:+ ")") with ("(" +:+ (sql +:+ ")")).
    apply numbered_text_app; [done|]. by apply numbered_app_text.
  - cbn [concat]. by rewrite H3, seq_app.
Qed.

(** The PostgreSQL rendering numbers its parameters correctly: rendered from
    parameter [n], the clause mentions $n, $n+1, ... once each and in order, one
    for every argument it returns, and reports the number after the last one, so
    clauses can be combined and arguments appended. *)
Theorem ToSQL_numbering (c : Condition) (n : nat) : clean c -> well_numbered n (ToSQL c n).
Proof.
  revert n. induction c as [f v|f v|f v|f v|f v|f v|f vs|cs IH|cs IH] using Condition_ind'; intros n Hc.
  1-2: cbn [ToSQL]; destruct v; (split; [|cbn; lia]);
       [apply numbered_app_text; [apply numbered_text; by apply mongoFieldToJSONB_clean|done]
       |by apply compare_numbered..].
  1-4: split; [by apply compare_numbered|cbn; lia].
  - cbn [ToSQL well_numbered]. rewrite length_map. split; [|done].
    apply numbered_text_app; [by apply mongoFieldToJSONB_clean|]. apply numbered_text_app; [done|].
    apply numbered_app_text; [|done]. generalize (length vs) as k.
    intros k. replace (seq n k) with (concat (map (fun i => [i]) (seq n k))) at 2.
    + apply numbered_join; [done|]. apply Forall2_fmap, Forall_Forall2_diag, Forall_true. apply numbered_param.
    + induction (seq n k) as [|x l IHl]; [done|]. cbn [map concat app]. by rewrite IHl.
  - destruct cs as [|c0 cs]; [split; [by apply numbered_text|cbn; lia]|].
    pose proof (sqlParts_numbered (c0 :: cs) n IH Hc) as Hs. cbn [ToSQL].
    destruct (sqlParts ToSQL (c0 :: cs) n) as [[parts args] next].
    destruct Hs as [(nss & H2 & H3) ->]. split; [|done]. rewrite <- H3. by apply numbered_join.
  - destruct cs as [|c0 cs]; [split; [by apply numbered_text|cbn; lia]|].
    pose proof (sqlParts_numbered (c0 :: cs) n IH Hc) as Hs. cbn [ToSQL].
    destruct (sqlParts ToSQL (c0 :: cs) n) as [[parts args] next].
    destruct Hs as [(nss & H2 & H3) ->]. split; [|done]. rewrite <- H3. by apply numbered_join.
Qed.

(** ** A concrete server *)

Module QueryDemo.

(** Flat documents: the value under each field path. *)
Notation Document := (gmap string Value).

(** The order within one type; values of different types do not compare. *)
Definition value_ltb (a b : Value) : bool :=
  match a, b with
  | VInt x, VInt y | VTime x, VTime y => (x <? y)%Z
  | VString x, VString y | VObjectID x, VObjectID y => bool_decide (String.le x y) && (x <>s y)
  | _, _ => false
  end.

Definition value_at (d : Document) (f : string) : Value := default VNil (d !! f).

Definition test_field (f : string) (t : FieldTest) (d : Document) : bool :=
  let x := value_at d f in
  match t with
  | FValue v => bool_decide (x = v)
  | FIn vs => bool_decide (x ∈ vs)
  | FInNil => false
  | FOp op v =>
      if op ==s "$ne" then negb (bool_decide (x = v))
      else if op ==s "$gt" then value_ltb v x
      else if op ==s "$gte" then value_ltb v x || bool_decide (x = v)
      else if op ==s "$lt" then value_ltb x v
      else if op ==s "$lte" then value_ltb x v || bool_decide (x = v)
      else false
  end.

Fixpoint select (f : Filter) (d : Document) : bool :=
  match f with
  | Doc es =>
      (fix all (es : list (string * Entry)) : bool :=
         match es with
         | [] => true
         | (k, e) :: rest =>
             match e with
             | ETest t => test_field k t d
             | EFilters fs =>
                 if k ==s "$and" then
                   (fix every (fs : list Filter) : bool :=
                      match fs with [] => true | f :: fs => select f d && every fs end) fs
                 else
                   (fix some (fs : list Filter) : bool :=
                      match fs with [] => false | f :: fs => select f d || some fs end) fs
             end && all rest
         end) es
  end.

#[local] Instance demo_ids : ObjectIDs := fun s => if (String.length s =? 24)%nat then Some s else None.
#[local] Instance demo_server : MongoServer Document := {| matches := select; field_test := test_field |}.

#[local] Instance demo_laws : MongoLaws Document.
Proof.
  split.
  - intros es d _. induction es as [|[k e] es IH]; [done|]. cbn [forallb]. rewrite <- IH.
    cbn [matches demo_server select]. by rewrite andb_true_r.
  - intros fs d _. cbn. rewrite andb_true_r. induction fs as [|f fs IH]; [done|]. cbn [forallb]. by rewrite <- IH.
  - intros fs d _. cbn. rewrite andb_true_r. induction fs as [|f fs IH]; [done|]. cbn [existsb]. by rewrite <- IH.
  - intros f t d _. cbn. by rewrite andb_true_r.
Qed.

(** Two ranges over one field: the keys collide and [$and] is used. *)
Definition window : Condition :=
  And [Eq "healthevent.nodename" (VString "node-1"); Gte "createdAt" (VTime 10); Lte "createdAt" (VTime 20)].

Definition inside : Document :=
  <["healthevent.nodename" := VString "node-1"]> (<["createdAt" := VTime 15]> ∅).
Definition outside : Document :=
  <["healthevent.nodename" := VString "node-1"]> (<["createdAt" := VTime 5]> ∅).

Lemma ToMongo_correct_witness :
  matches (ToMongo window) inside = true /\ matches (ToMongo window) outside = false.
Proof.
  split; [destruct (ToMongo_correct window inside) as [-> _]|destruct (ToMongo_correct window outside) as [-> _]]; vm_compute; reflexivity.
Defined.

Example window_sql :
  ToSQL window 3 =
  ("(COALESCE(document->'healthevent'->>'nodename', document->'healthevent'->>'nodeName') = $3) AND (created_at >= $4) AND (created_at <= $5)"%string,
   [VString "node-1"; VTime 10; VTime 20], 6).
Proof. vm_compute. reflexivity. Qed.

Lemma ToSQL_numbering_witness : well_numbered 3 (ToSQL window 3).
Proof. apply (ToSQL_numbering window 3). repeat split; discriminate. Defined.

(** The two renderings of an empty disjunction disagree: MongoDB gets the
    empty filter, which selects every document, PostgreSQL gets FALSE, which is
    what the condition means. *)
Example empty_disjunction_differs :
  (forall d, matches (ToMongo (Or [])) d = true) /\
  (forall test, holds test (Or []) = false) /\
  (ToSQL (Or []) 1).1.1 = "FALSE"%string.
Proof. split; [|split]; done. Qed.

End QueryDemo.
