(* ===== verification/StoreScan.v ===== *)
(** * Batched scans of the health event store

    Models the paging of [store-client/pkg/datastore/providers/mongodb/health_store.go]:
    [FindHealthEventsByQueryBatched] reads the matching documents oldest first in
    bounded batches, each query starting after the position (creation time, id)
    of the last document read, and hands every batch to a callback that may
    update the documents.  The database client is a parameter. *)

From stdpp Require Import gmap strings list sorting.
From Stdlib Require Import ZArith Lia.
From S2P Require Import Prelude Query.

#[local] Open Scope nat_scope.

Notation RawDoc := (gmap string Value).

Definition fieldCreatedAt : string := "createdAt".
Definition fieldDocumentID : string := mongoIDFieldName.
Definition operatorGreaterThan : string := "$gt".

(** The stored event as the callers see it; [typed] is the decoded struct, absent
    when the conversion failed. *)
Record StoredHealthEvent (T : Type) := {
  CreatedAt : Z;
  RawEvent : RawDoc;
  typed : option T;
}.
Arguments CreatedAt {T} _.
Arguments RawEvent {T} _.
Arguments typed {T} _.

Record batchedQueryPosition := { p_createdAt : Value; p_id : Value }.

(** [batchedQueryPosition.filter]; the zero position is [None]. *)
Definition position_filter (p : option batchedQueryPosition) (base : Filter) : Filter :=
  match p with
  | None => base
  | Some p =>
      Doc [("$and"%string, EFilters [base;
        Doc [("$or"%string, EFilters [
          Doc [(fieldCreatedAt, ETest (FOp operatorGreaterThan (p_createdAt p)))];
          Doc [(fieldCreatedAt, ETest (FValue (p_createdAt p)));
               (fieldDocumentID, ETest (FOp operatorGreaterThan (p_id p)))]])]])]
  end.

(** The cursor of a query: the documents ([None] when one cannot be decoded) and
    the errors of iterating and closing. *)
Record Cursor := { rows : list (option RawDoc); iterErr : option error; closeErr : option error }.

(** The database client: [Find] sorted by creation time and id, with a limit. *)
Class DatabaseClient (S : Type) := Find : S -> Filter -> nat -> result Cursor.

Section scan.
Context {T : Type} (decode : RawDoc -> option T) (normalize : T -> T).
Context {S : Type} `{DatabaseClient S}.

Definition batchedHealthEventCreatedAt (value : Value) : result Z :=
  match value with VTime t => Ok t | _ => Err "unsupported createdAt type"%string end.

Definition decodeBatchedHealthEvent (rawDoc : RawDoc) (createdAt : Value) :
    result (StoredHealthEvent T) :=
  let? recordCreatedAt := batchedHealthEventCreatedAt createdAt in
  Ok {| CreatedAt := recordCreatedAt; RawEvent := rawDoc; typed := decode rawDoc |}.

(** The loop over the cursor: the batch, the rows read and the last position. *)
Fixpoint readRows (docs : list (option RawDoc)) (batch : list (StoredHealthEvent T))
    (rowsRead : nat) (position : option batchedQueryPosition) :
    result (list (StoredHealthEvent T) * nat * option batchedQueryPosition) :=
  match docs with
  | [] => Ok (batch, rowsRead, position)
  | None :: _ => Err "failed to decode document in batched query"%string
  | Some rawDoc :: rest =>
      match rawDoc !! fieldCreatedAt, rawDoc !! fieldDocumentID with
      | Some createdAt, Some id =>
          let? event := rwrap "document has invalid batched-query createdAt"
                          (decodeBatchedHealthEvent rawDoc createdAt) in
          readRows rest (batch ++ [event]) (rowsRead + 1)
            (Some {| p_createdAt := createdAt; p_id := id |})
      | _, _ => Err "document is missing the batched-query cursor fields"%string
      end
  end.

Definition readHealthEventBatch (s : S) (filter : Filter) (batchSize : nat) :
    result (list (StoredHealthEvent T) * nat * option batchedQueryPosition) :=
  let? cursor := rwrap "failed to find health events for batched query" (Find s filter batchSize) in
  let? r := readRows (rows cursor) [] 0 None in
  match iterErr cursor with
  | Some e => Err (wrapf "cursor error while iterating batched query" e)
  | None =>
      match closeErr cursor with
      | Some e => Err (wrapf "failed to close cursor for batched query" e)
      | None => Ok r
      end
  end.

Definition normalizeHealthEvents (events : list (StoredHealthEvent T)) :
    list (StoredHealthEvent T) :=
  map (fun e => {| CreatedAt := CreatedAt e; RawEvent := RawEvent e; typed := normalize <$> typed e |}) events.

(** The callback updates the state, of which the database is part. *)
Context (fn : S -> list (StoredHealthEvent T) -> S * option error).

(** The loop; [None] is running out of fuel. *)
Fixpoint scanBatches (fuel : nat) (s : S) (baseFilter : Filter) (batchSize : nat)
    (position : option batchedQueryPosition) : option (S * option error) :=
  match fuel with
  | 0 => None
  | Datatypes.S fuel =>
      match readHealthEventBatch s (position_filter position baseFilter) batchSize with
      | Err e => Some (s, Some e)
      | Ok (batch, rowsRead, next) =>
          let continue (s : S) :=
            if rowsRead <? batchSize then Some (s, None) else scanBatches fuel s baseFilter batchSize next in
          match batch with
          | [] => continue s
          | _ =>
              let '(s', err) := fn s (normalizeHealthEvents batch) in
              match err with Some e => Some (s', Some e) | None => continue s' end
          end
      end
  end.

Definition FindHealthEventsByQueryBatched `{ObjectIDs} (fuel : nat) (s : S) (builder : Condition)
    (batchSize : nat) : option (S * option error) :=
  if batchSize =? 0 then Some (s, Some "batch size must be greater than zero"%string)
  else scanBatches fuel s (ToMongo builder) batchSize None.

End scan.

(** ** The order of a scan *)

(** The position of a document: creation time and id. *)
Definition position_of (d : RawDoc) : option (Z * string) :=
  match d !! fieldCreatedAt, d !! fieldDocumentID with
  | Some (VTime t), Some (VObjectID i) => Some (t, i)
  | _, _ => None
  end.

Definition pos_lt (p q : Z * string) : Prop := (p.1 < q.1)%Z \/ p.1 = q.1 /\ String.le p.2 q.2 /\ p.2 <> q.2.
#[export] Instance pos_lt_dec p q : Decision (pos_lt p q).
Proof. unfold pos_lt. apply _. Defined.

Definition pos_le (p q : Z * string) : Prop := p = q \/ pos_lt p q.
#[export] Instance pos_le_dec p q : Decision (pos_le p q).
Proof. unfold pos_le. apply _. Defined.

(** Documents in scan order. *)
Definition doc_pos (d : RawDoc) : Z * string := default (0%Z, ""%string) (position_of d).
Definition doc_le (a b : RawDoc) : Prop := pos_le (doc_pos a) (doc_pos b).
#[export] Instance doc_le_dec a b : Decision (doc_le a b).
Proof. unfold doc_le. apply _. Defined.

Definition after (p : option (Z * string)) (d : RawDoc) : Prop :=
  match p with None => True | Some p => pos_lt p (doc_pos d) end.
#[export] Instance after_dec p d : Decision (after p d).
Proof. unfold after. destruct p; apply _. Defined.

(** The batches of a list. *)
Fixpoint chunks_fuel {A} (fuel n : nat) (l : list A) : list (list A) :=
  match fuel, l with
  | 0, _ | _, [] => []
  | Datatypes.S fuel, _ => take n l :: chunks_fuel fuel n (drop n l)
  end.
Definition chunks {A} (n : nat) (l : list A) : list (list A) := chunks_fuel (length l) n l.

(** A callback over a list of batches, until it fails. *)
Fixpoint fold_batches {S B E} (fn : S -> B -> S * option E) (s : S) (bs : list B) : S * option E :=
  match bs with
  | [] => (s, None)
  | b :: rest => let '(s', err) := fn s b in
                 match err with Some e => (s', Some e) | None => fold_batches fn s' rest end
  end.

(** ** Positions are totally ordered *)

Lemma pos_lt_irrefl p : ~ pos_lt p p.
Proof. intros [?|(_ & _ & ?)]; [lia|done]. Qed.

Lemma pos_lt_trans p q r : pos_lt p q -> pos_lt q r -> pos_lt p r.
Proof.
  intros [H1|(H1 & H2 & H3)] [H4|(H4 & H5 & H6)]; unfold pos_lt; [left; lia..|].
  right. split; [lia|]. split; [by etrans|]. intros He. rewrite He in H2. apply H6. by apply (anti_symm String.le).
Qed.

Lemma pos_lt_total p q : p = q \/ pos_lt p q \/ pos_lt q p.
Proof.
  destruct p as [t i], q as [u j]. unfold pos_lt. simpl.
  destruct (Z.lt_trichotomy t u) as [?|[->|?]]; [tauto| |tauto].
  destruct (decide (i = j)) as [->|Hne]; [by left|].
  destruct (total String.le i j); [right; left|right; right]; right; auto.
Qed.

Lemma pos_le_or_lt p q : pos_le p q \/ pos_lt q p.
Proof. unfold pos_le. destruct (pos_lt_total p q) as [|[|]]; tauto. Qed.

Lemma pos_le_not_lt p q : pos_le p q -> ~ pos_lt q p.
Proof. intros [->|H1] H2; [by eapply pos_lt_irrefl|]. eapply pos_lt_irrefl, pos_lt_trans; eassumption. Qed.

#[export] Instance doc_le_total : Total doc_le.
Proof.
  intros a b. unfold doc_le, pos_le. destruct (pos_lt_total (doc_pos a) (doc_pos b)) as [?|[?|?]]; auto.
Qed.

#[export] Instance doc_le_trans : Transitive doc_le.
Proof.
  intros a b c. unfold doc_le, pos_le. intros [->|H1] [<-|H2]; auto. right. by eapply pos_lt_trans.
Qed.

(** Two documents of a list whose positions differ are ordered strictly. *)
Lemma sorted_unique_docs l1 l2 :
  NoDup (doc_pos <$> l1) -> StronglySorted doc_le l1 -> StronglySorted doc_le l2 -> l1 ≡ₚ l2 -> l1 = l2.
Proof.
  intros Hnd Hs1 Hs2 Hp. apply (StronglySorted_unique_strong doc_le); [|done..].
  intros a b Ha Hb Hab Hba. rewrite <- Hp in Hb.
  assert (doc_pos a = doc_pos b) as Heq.
  { destruct Hab as [?|Hlt]; [done|]. exfalso. by apply pos_le_not_lt in Hba. }
  apply list_elem_of_lookup in Ha as [i Hi]. apply list_elem_of_lookup in Hb as [j Hj].
  assert (i = j) as ->; [|congruence].
  eapply (NoDup_lookup _ _ _ (doc_pos a)); [exact Hnd| |]; rewrite list_lookup_fmap; [by rewrite Hi|].
  rewrite Hj. simpl. by rewrite Heq.
Qed.

Lemma sorted_filter P `{forall d, Decision (P d)} l : StronglySorted doc_le l -> StronglySorted doc_le (filter P l).
Proof.
  induction 1 as [|d l Hs IH HF]; [constructor|]. rewrite filter_cons. case_decide; [|done].
  constructor; [done|]. apply Forall_forall. intros x Hx%list_elem_of_filter. rewrite Forall_forall in HF. naive_solver.
Qed.

Lemma NoDup_pos_filter P `{forall d, Decision (P d)} l : NoDup (doc_pos <$> l) -> NoDup (doc_pos <$> filter P l).
Proof.
  induction l as [|d l IH]; [done|]. rewrite filter_cons. cbn [fmap list_fmap]. intros [Hd Hnd]%NoDup_cons.
  case_decide; [|by apply IH]. cbn [fmap list_fmap]. apply NoDup_cons. split; [|by apply IH].
  intros (x & Hx & [_ Hin]%list_elem_of_filter)%list_elem_of_fmap. apply Hd. rewrite Hx. by apply list_elem_of_fmap_2.
Qed.

(** Cutting a strictly sorted list after its first [n] documents. *)
Lemma filter_after_take l n d :
  NoDup (doc_pos <$> l) -> StronglySorted doc_le l -> last (take n l) = Some d ->
  filter (after (Some (doc_pos d))) l = drop n l.
Proof.
  intros Hnd Hs Hl. rewrite <- (take_drop n l) in Hnd, Hs at 1. rewrite <- (take_drop n l) at 1.
  apply last_Some in Hl as [l' Hl]. rewrite Hl in *. rewrite filter_app.
  assert (H1 : filter (after (Some (doc_pos d))) (l' ++ [d]) = []).
  { apply filter_none. intros x Hx Ha. cbn [after] in Ha.
    apply StronglySorted_app_1_l in Hs. apply elem_of_app in Hx as [Hx|Hx%list_elem_of_singleton].
    - apply (pos_le_not_lt (doc_pos x) (doc_pos d)); [|done].
      apply (StronglySorted_app_1_elem_of doc_le l' [d]); [done..|by apply list_elem_of_singleton].
    - subst x. by apply pos_lt_irrefl in Ha. }
  rewrite H1. apply filter_all. intros x Hx. cbn [after].
  assert (Hle : doc_le d x).
  { apply (StronglySorted_app_1_elem_of doc_le (l' ++ [d]) (drop n l)); [done| |done]. apply elem_of_app. right. left. }
  destruct Hle as [He|?]; [|done]. exfalso. rewrite fmap_app in Hnd. apply NoDup_app in Hnd as (_ & Hd & _).
  apply (Hd (doc_pos d)); [rewrite fmap_app; apply elem_of_app; right; left|].
  rewrite He. by apply list_elem_of_fmap_2.
Qed.

(** ** Batches *)

Lemma chunks_fuel_enough {A} n (l : list A) f1 f2 :
  0 < n -> length l <= f1 -> length l <= f2 -> chunks_fuel f1 n l = chunks_fuel f2 n l.
Proof.
  intros Hn. revert l f2. induction f1 as [|f1 IH]; intros l f2 H1 H2.
  { destruct l; [|simpl in *; lia]. by destruct f2. }
  destruct l as [|x l]; [by destruct f2|]. destruct f2 as [|f2]; [simpl in *; lia|].
  cbn [chunks_fuel]. f_equal. apply IH; rewrite length_drop; simpl in *; lia.
Qed.

Lemma chunks_cons {A} n (l : list A) : 0 < n -> l <> [] -> chunks n l = take n l :: chunks n (drop n l).
Proof.
  intros Hn Hl. unfold chunks. destruct l as [|x l]; [done|]. cbn [length chunks_fuel]. f_equal.
  apply chunks_fuel_enough; [done| |]; rewrite length_drop; simpl; lia.
Qed.

Lemma chunks_concat {A} n (l : list A) : 0 < n -> concat (chunks n l) = l.
Proof.
  intros Hn. unfold chunks. generalize (reflexivity (length l) : length l <= length l). generalize (length l) at 2 3.
  intros f. revert l. induction f as [|f IH]; intros l Hl; [by destruct l; simpl in *; [|lia]|].
  destruct l as [|x l]; [done|]. cbn [chunks_fuel concat]. rewrite IH; [apply take_drop|].
  rewrite length_drop. simpl in *. lia.
Qed.

(** ** Every matching document is visited once, in order *)

(** The documents of a state. *)
Class Documents (S : Type) := docs : S -> list RawDoc.

(** Documented behaviour of the server: a query returns the first matching
    documents in the requested order, and the tests of the two position fields
    compare instants and object ids. *)
Class ScanLaws (S : Type) `{DatabaseClient S} `{Documents S} `{MongoServer RawDoc} := {
  find_sorted (s : S) f n :
    Forall (fun d => is_Some (position_of d)) (docs s) ->
    Find s f n = Ok {| rows := Some <$> take n (merge_sort doc_le (filter (fun d => matches f d = true) (docs s)));
                       iterErr := None; closeErr := None |};
  created_after d t i u : position_of d = Some (t, i) ->
    field_test fieldCreatedAt (FOp operatorGreaterThan (VTime u)) d = bool_decide (u < t)%Z;
  created_at d t i u : position_of d = Some (t, i) ->
    field_test fieldCreatedAt (FValue (VTime u)) d = bool_decide (t = u);
  id_after d t i j : position_of d = Some (t, i) ->
    field_test fieldDocumentID (FOp operatorGreaterThan (VObjectID j)) d = bool_decide (String.le j i /\ j <> i) }.

Section scan_theory.
Context {S : Type} `{DatabaseClient S} `{Documents S} `{MongoServer RawDoc} `{!MongoLaws RawDoc} `{!ScanLaws S}.
Context {T : Type} (decode : RawDoc -> option T) (normalize : T -> T).

(** Every document has a position, and no two share one. *)
Definition positions_ok (s : S) : Prop :=
  Forall (fun d => is_Some (position_of d)) (docs s) /\ NoDup (doc_pos <$> docs s).

(** The documents still to be visited, in order. *)
Definition todo (s : S) (base : Filter) (p : option (Z * string)) : list RawDoc :=
  merge_sort doc_le (filter (fun d => matches base d = true /\ after p d) (docs s)).

(** What the callback is given for a document. *)
Definition event_of (d : RawDoc) : StoredHealthEvent T :=
  {| CreatedAt := (doc_pos d).1; RawEvent := d; typed := normalize <$> decode d |}.

Definition to_position (p : Z * string) : batchedQueryPosition :=
  {| p_createdAt := VTime p.1; p_id := VObjectID p.2 |}.

Lemma position_filter_matches base p d :
  is_Some (position_of d) ->
  matches (position_filter (to_position <$> p) base) d = true <-> matches base d = true /\ after p d.
Proof.
  intros [[t i] Hd]. destruct p as [[u j]|]; [|cbn; tauto]. cbn [fmap option_fmap option_map position_filter].
  rewrite matches_and by done. cbn [forallb]. rewrite matches_or by done. cbn [existsb].
  rewrite matches_field by done.
  rewrite (matches_doc [(fieldCreatedAt, _); (fieldDocumentID, _)])
    by (repeat constructor; [by intros ?%list_elem_of_singleton|by intros ?%not_elem_of_nil]).
  cbn [forallb]. rewrite !matches_field by done. unfold to_position; cbn [p_createdAt p_id fst snd].
  rewrite (created_after d t i), (created_at d t i), (id_after d t i) by done.
  unfold after, doc_pos, pos_lt. rewrite Hd. cbn [default fst snd].
  rewrite !andb_true_r, orb_false_r, andb_true_iff, orb_true_iff, andb_true_iff, !bool_decide_eq_true.
  cbn [fst snd]. naive_solver.
Qed.

Lemma todo_sorted s base p : StronglySorted doc_le (todo s base p).
Proof. apply (Sorted_StronglySorted _), Sorted_merge_sort, _. Qed.

Lemma todo_perm s base p : todo s base p ≡ₚ filter (fun d => matches base d = true /\ after p d) (docs s).
Proof. apply merge_sort_Permutation. Qed.

Lemma todo_NoDup s base p : positions_ok s -> NoDup (doc_pos <$> todo s base p).
Proof.
  intros [_ Hnd]. eapply NoDup_Permutation_proper; [apply fmap_Permutation, todo_perm|]. by apply NoDup_pos_filter.
Qed.

Lemma todo_positioned s base p d : positions_ok s -> d ∈ todo s base p -> is_Some (position_of d).
Proof.
  intros [Hp _]. rewrite todo_perm. intros [_ Hin]%list_elem_of_filter. rewrite Forall_forall in Hp. by apply Hp.
Qed.

Lemma filter_ext_in {A} (P Q : A -> Prop) `{forall x, Decision (P x)} `{forall x, Decision (Q x)} (l : list A) :
  (forall x, x ∈ l -> (P x <-> Q x)) -> filter P l = filter Q l.
Proof.
  induction l as [|x l IH]; [done|]. intros Hl. rewrite !filter_cons.
  rewrite IH by (intros y Hy; apply Hl; by right). assert (Hx := Hl x ltac:(left)).
  repeat case_decide; tauto.
Qed.

Lemma find_todo s base p n :
  positions_ok s ->
  Find s (position_filter (to_position <$> p) base) n =
  Ok {| rows := Some <$> take n (todo s base p); iterErr := None; closeErr := None |}.
Proof.
  intros [Hp Hnd]. rewrite find_sorted by done. unfold todo. do 5 f_equal.
  apply filter_ext_in. intros d Hd. apply position_filter_matches. rewrite Forall_forall in Hp. by apply Hp.
Qed.

Lemma readRows_positioned l batch n position :
  (forall d, d ∈ l -> is_Some (position_of d)) ->
  readRows decode (Some <$> l) batch n position =
  Ok (batch ++ map (fun d => {| CreatedAt := (doc_pos d).1; RawEvent := d; typed := decode d |}) l,
      n + length l, match last l with Some d => Some (to_position (doc_pos d)) | None => position end).
Proof.
  revert batch n position. induction l as [|d l IH]; intros batch n position Hl; cbn [fmap list_fmap readRows map].
  { rewrite app_nil_r. cbn. by rewrite Nat.add_0_r. }
  destruct (Hl d ltac:(left)) as [[t i] Hd].
  assert (Hpos : doc_pos d = (t, i)) by (unfold doc_pos; by rewrite Hd).
  unfold position_of in Hd. destruct (d !! fieldCreatedAt) as [[]|] eqn:Hc; try done.
  destruct (d !! fieldDocumentID) as [[]|] eqn:Hi; try done. injection Hd as -> ->.
  cbn [decodeBatchedHealthEvent batchedHealthEventCreatedAt rbind rwrap].
  rewrite IH by (intros x Hx; apply Hl; by right). rewrite Hpos, <- app_assoc. cbn [app fst length].
  rewrite Nat.add_1_r, Nat.add_succ_comm. do 2 f_equal.
  destruct l as [|d' l']; [cbn; by rewrite Hpos|]. rewrite !last_cons. by destruct (last l').
Qed.

Lemma readHealthEventBatch_todo s base p n :
  positions_ok s ->
  readHealthEventBatch decode s (position_filter (to_position <$> p) base) n =
  Ok (map (fun d => {| CreatedAt := (doc_pos d).1; RawEvent := d; typed := decode d |}) (take n (todo s base p)),
      length (take n (todo s base p)), (fun d => to_position (doc_pos d)) <$> last (take n (todo s base p))).
Proof.
  intros Hok. unfold readHealthEventBatch. rewrite find_todo by done. cbn [rwrap rbind rows iterErr closeErr].
  rewrite readRows_positioned; [cbn; by destruct (last _)|].
  intros d Hd%elem_of_take. destruct Hd as (i & Hi & _). eapply todo_positioned; [done|by eapply list_elem_of_lookup_2].
Qed.

(** A callback that changes no document after the last one it was given. *)
Definition keeps_later (fn : S -> list (StoredHealthEvent T) -> S * option error) : Prop :=
  forall s b, positions_ok s -> positions_ok (fn s b).1 /\
    forall p, (forall e, e ∈ b -> pos_le (doc_pos (RawEvent e)) p) ->
      filter (after (Some p)) (docs (fn s b).1) ≡ₚ filter (after (Some p)) (docs s).

Lemma after_weaken s base p n d x :
  positions_ok s -> last (take n (todo s base p)) = Some d -> after (Some (doc_pos d)) x -> after p x.
Proof.
  intros Hok Hl Hx. destruct p as [p|]; [|done]. cbn [after] in *.
  assert (Hd : d ∈ todo s base (Some p)).
  { apply last_Some in Hl as [l' Hl]. rewrite <- (take_drop n (todo s base (Some p))), Hl. rewrite !elem_of_app.
    left. right. left. }
  rewrite todo_perm in Hd. apply list_elem_of_filter in Hd as [[_ Hd] _]. by eapply pos_lt_trans.
Qed.

(** After a batch, what is left to visit is the rest of the list. *)
Lemma todo_next fn s base p n d :
  keeps_later fn -> positions_ok s -> last (take n (todo s base p)) = Some d ->
  todo (fn s (map event_of (take n (todo s base p)))).1 base (Some (doc_pos d)) = drop n (todo s base p).
Proof.
  intros Hk Hok Hl. destruct (Hk s (map event_of (take n (todo s base p))) Hok) as [Hok' Hlater].
  pose proof (todo_NoDup s base p Hok) as Hnd. pose proof (todo_sorted s base p) as Hs.
  rewrite <- (filter_after_take _ _ _ Hnd Hs Hl).
  apply sorted_unique_docs; [by apply todo_NoDup|apply todo_sorted|by apply sorted_filter|].
  etrans; [apply todo_perm|]. etrans; [|symmetry; apply filter_Permutation, todo_perm].
  rewrite list_filter_filter. etrans; [apply reflexive_eq; symmetry; apply list_filter_filter|].
  etrans; [apply filter_Permutation, Hlater|].
  2: { rewrite list_filter_filter. apply reflexive_eq, filter_ext_in. intros x _.
       split; [|tauto]. intros [? Ha]. split; [exact Ha|]. split; [done|]. exact (after_weaken s base p n d x Hok Hl Ha). }
  - intros e (x & -> & Hx)%list_elem_of_fmap. cbn [event_of RawEvent].
    apply last_Some in Hl as [l' Hl]. rewrite Hl in Hx. apply elem_of_app in Hx as [Hx|Hx%list_elem_of_singleton]; [|subst; by left].
    rewrite <- (take_drop n (todo s base p)), Hl in Hs. apply StronglySorted_app_1_l in Hs.
    apply (StronglySorted_app_1_elem_of doc_le l' [d]); [done..|left].
Qed.

Lemma scanBatches_correct fn base n : 0 < n -> keeps_later fn -> forall fuel s p,
  positions_ok s -> length (todo s base p) < fuel ->
  scanBatches decode normalize fn fuel s base n (to_position <$> p) =
  Some (fold_batches (fun s b => fn s (map event_of b)) s (chunks n (todo s base p))).
Proof.
  intros Hn Hk. induction fuel as [|fuel IH]; intros s p Hok Hfuel; [lia|].
  cbn [scanBatches]. rewrite readHealthEventBatch_todo by done.
  destruct (todo s base p) as [|d0 rest] eqn:Htodo.
  { rewrite take_nil. cbn [map length]. destruct n; [lia|]. done. }
  rewrite <- Htodo in *. set (b := take n (todo s base p)) in *.
  assert (Hne : b <> []) by (unfold b; rewrite Htodo; destruct n; [lia|done]).
  destruct (last b) as [d|] eqn:Hl; [|by apply last_None in Hl].
  rewrite chunks_cons by (rewrite ?Htodo; done). fold b. cbn [fold_batches].
  assert (Hnorm : normalizeHealthEvents normalize
     (map (fun d => {| CreatedAt := (doc_pos d).1; RawEvent := d; typed := decode d |}) b) = map event_of b).
  { unfold normalizeHealthEvents. rewrite map_map. done. }
  assert (Hcase : forall X (x y : X), match map (fun d => {| CreatedAt := (doc_pos d).1; RawEvent := d; typed := decode d |}) b
                          with [] => x | _ => y end = y).
  { intros X x y. by destruct b. }
  rewrite Hcase, Hnorm. clear Hcase Hnorm.
  pose proof (todo_next fn s base p n d Hk Hok Hl) as Hnext. fold b in Hnext.
  pose proof (proj1 (Hk s (map event_of b) Hok)) as Hok'.
  destruct (fn s (map event_of b)) as [s' [e|]]; [done|]. cbn [fst] in *.
  destruct (length b <? n) eqn:Hlen.
  - apply Nat.ltb_lt in Hlen. unfold b in Hlen. rewrite length_take in Hlen.
    rewrite drop_ge by lia. done.
  - rewrite <- Hnext. apply (IH s' (Some (doc_pos d)) Hok'). rewrite Hnext, length_drop.
    rewrite Htodo in *. cbn [length] in *. lia.
Qed.

Lemma batched_scan `{ObjectIDs} (fn : S -> list (StoredHealthEvent T) -> S * option error)
    (s : S) (builder : Condition) (batchSize fuel : nat) :
  0 < batchSize -> keeps_later fn -> positions_ok s -> well_formed builder = true ->
  let matching := filter (fun d => holds (fun f t => field_test f t d) builder = true) (docs s) in
  length matching < fuel ->
  exists batches,
    FindHealthEventsByQueryBatched decode normalize fn fuel s builder batchSize =
      Some (fold_batches (fun s b => fn s (map event_of b)) s batches) /\
    StronglySorted doc_le (concat batches) /\ concat batches ≡ₚ matching /\
    Forall (fun b => 0 < length b <= batchSize) batches.
Proof.
  intros Hn Hk Hok Hwf matching Hfuel.
  assert (Hm : todo s (ToMongo builder) None ≡ₚ matching).
  { rewrite todo_perm. apply reflexive_eq, filter_ext_in. intros d _. rewrite ToMongo_selects by done. cbn. tauto. }
  exists (chunks batchSize (todo s (ToMongo builder) None)). split; [|split; [|split]].
  - unfold FindHealthEventsByQueryBatched. destruct (batchSize =? 0) eqn:Hz; [apply Nat.eqb_eq in Hz; lia|].
    apply (scanBatches_correct fn (ToMongo builder) batchSize Hn Hk fuel s None Hok). by rewrite Hm.
  - rewrite chunks_concat by done. apply todo_sorted.
  - by rewrite chunks_concat.
  - unfold chunks. generalize (length (todo s (ToMongo builder) None)). intros f.
    generalize (todo s (ToMongo builder) None). induction f as [|f IH]; intros l; [constructor|].
    destruct l as [|x l]; [constructor|]. cbn [chunks_fuel]. constructor; [|apply IH].
    rewrite length_take. cbn [length]. lia.
Qed.

(** C28 Batched scans are complete and terminate: with any callback that leaves
    the documents after the ones it was given alone, the scan runs the callback
    on the batches of the initially matching documents, in order of creation time
    and id, each document once and at most [batchSize] at a time, and stops at
    the end or at the callback's first error.  More rounds than there are
    matching documents are never needed. *)
Theorem batched_scan_complete `{ObjectIDs} (fn : S -> list (StoredHealthEvent T) -> S * option error)
    (s : S) (builder : Condition) (batchSize fuel : nat) :
  0 < batchSize -> keeps_later fn -> positions_ok s -> well_formed builder = true ->
  let matching := filter (fun d => holds (fun f t => field_test f t d) builder = true) (docs s) in
  length matching < fuel ->
  exists batches,
    FindHealthEventsByQueryBatched decode normalize fn fuel s builder batchSize =
      Some (fold_batches (fun s b => fn s (map event_of b)) s batches) /\
    StronglySorted doc_le (concat batches) /\ concat batches ≡ₚ matching /\
    Forall (fun b => 0 < length b <= batchSize) batches.
Proof. apply batched_scan. Qed.

End scan_theory.

(** ** A store that the callback updates *)

Module ScanDemo.

#[local] Existing Instance QueryDemo.demo_ids.
#[local] Existing Instance QueryDemo.demo_laws.

#[local] Instance demo_server : MongoServer RawDoc := QueryDemo.demo_server.

(** The documents and the batches seen so far. *)
Record store := { contents : list RawDoc; seen : list (list Z) }.

#[local] Instance store_docs : Documents store := contents.

#[local] Instance store_client : DatabaseClient store := fun s f n =>
  Ok {| rows := Some <$> take n (merge_sort doc_le (filter (fun d => matches f d = true) (contents s)));
        iterErr := None; closeErr := None |}.

#[local] Instance store_laws : ScanLaws store.
Proof.
  assert (Hpos : forall d t i, position_of d = Some (t, i) ->
    QueryDemo.value_at d fieldCreatedAt = VTime t /\ QueryDemo.value_at d fieldDocumentID = VObjectID i).
  { intros d t i. unfold position_of.
    change (QueryDemo.value_at d fieldCreatedAt) with (default VNil (d !! fieldCreatedAt)).
    change (QueryDemo.value_at d fieldDocumentID) with (default VNil (d !! fieldDocumentID)).
    destruct (d !! fieldCreatedAt) as [[]|]; try done.
    destruct (d !! fieldDocumentID) as [[]|]; try done. by intros [= -> ->]. }
  split; [done| | |]; intros d t i u [H1 H2]%Hpos; cbn [field_test demo_server QueryDemo.demo_server];
    unfold QueryDemo.test_field; rewrite ?H1, ?H2; cbv zeta.
  - change (operatorGreaterThan ==s "$ne") with false. change (operatorGreaterThan ==s "$gt") with true.
    cbn [QueryDemo.value_ltb]. apply eq_true_iff_eq. by rewrite Z.ltb_lt, bool_decide_eq_true.
  - apply eq_true_iff_eq. rewrite !bool_decide_eq_true. split; [by intros [= ->]|by intros ->].
  - change (operatorGreaterThan ==s "$ne") with false. change (operatorGreaterThan ==s "$gt") with true.
    cbn [QueryDemo.value_ltb]. apply eq_true_iff_eq. unfold go_eqb.
    rewrite andb_true_iff, negb_true_iff, bool_decide_eq_false, !bool_decide_eq_true. done.
Qed.

(** The callback records the creation times and completes the documents, which
    then no longer match the query. *)
Definition complete (ps : list (Z * string)) (d : RawDoc) : RawDoc :=
  if decide (doc_pos d ∈ ps) then <["status" := VString "completed"]> d else d.

Definition finish (s : store) (b : list (StoredHealthEvent unit)) : store * option error :=
  ({| contents := map (complete (map (fun e => doc_pos (RawEvent e)) b)) (contents s);
      seen := seen s ++ [map CreatedAt b] |}, None).

Lemma complete_pos ps d : position_of (complete ps d) = position_of d.
Proof.
  unfold complete. case_decide; [|done]. unfold position_of.
  by rewrite !lookup_insert_ne by (unfold fieldCreatedAt, fieldDocumentID, mongoIDFieldName; discriminate).
Qed.

Lemma finish_keeps_later : keeps_later finish.
Proof.
  intros s b [H1 H2]. unfold positions_ok, docs, store_docs in *. cbn [finish fst contents]. split.
  - split.
    + apply Forall_fmap. eapply Forall_impl; [exact H1|]. intros d Hd. cbn. by rewrite complete_pos.
    + replace (doc_pos <$> map (complete (map (fun e => doc_pos (RawEvent e)) b)) (contents s))
        with (doc_pos <$> contents s); [done|].
      clear H1 H2. induction (contents s) as [|d l IH]; [done|].
      cbn [map fmap list_fmap]. f_equal; [|exact IH]. unfold doc_pos. by rewrite complete_pos.
  - intros p Hp. induction (contents s) as [|d l IH]; [done|]. cbn [map].
    assert (Hd : after (Some p) (complete (map (fun e => doc_pos (RawEvent e)) b) d) <-> after (Some p) d).
    { cbn [after]. unfold doc_pos at 1. by rewrite complete_pos. }
    inversion_clear H1. cbn [fmap list_fmap] in H2. apply NoDup_cons in H2 as [_ H2].
    rewrite !filter_cons. destruct (decide (after (Some p) d)) as [Ha|Ha].
    + rewrite decide_True by tauto. rewrite IH by done. unfold complete. rewrite decide_False; [done|].
      intros (e & He & Hin)%list_elem_of_fmap. cbn [after] in Ha. rewrite He in Ha.
      by apply (pos_le_not_lt _ _ (Hp e Hin)) in Ha.
    + rewrite decide_False by tauto. by apply IH.
Qed.

Definition doc (t : Z) (i : string) (status : string) : RawDoc :=
  <["createdAt" := VTime t]> (<["_id" := VObjectID i]> (<["status" := VString status]> ∅)).

Definition db : store :=
  {| contents := [doc 30 "c" "new"; doc 10 "a" "new"; doc 20 "b" "completed"; doc 10 "d" "new"; doc 40 "e" "new"];
     seen := [] |}.

Definition unfinished : Condition := Eq "status" (VString "new").

Example scan_result :
  option_map (fun r => (seen r.1, r.2)) (FindHealthEventsByQueryBatched (fun _ => None) id finish 5 db unfinished 2) =
  Some ([[10; 10]; [30; 40]]%Z, None).
Proof. vm_compute. reflexivity. Qed.

Lemma db_positions : positions_ok db.
Proof.
  split.
  - repeat constructor; vm_compute; by eexists.
  - apply (bool_decide_unpack _). vm_compute. exact I.
Qed.

Lemma batched_scan_complete_witness :
  exists batches, FindHealthEventsByQueryBatched (fun _ => None) id finish 5 db unfinished 2 =
      Some (fold_batches (fun s b => finish s (map (event_of (fun _ => None) id) b)) db batches) /\
    Forall (fun b => 0 < length b <= 2) batches.
Proof.
  destruct (batched_scan_complete (fun _ => None) id finish db unfinished 2 5) as (bs & H1 & _ & _ & H4).
  - lia.
  - exact finish_keeps_later.
  - exact db_positions.
  - reflexivity.
  - vm_compute. lia.
  - exists bs. split; [exact H1|exact H4].
Defined.

End ScanDemo.
