(* ===== verification/Supersession.v ===== *)
(** * What newer events leave of a stored event

    Models the first half of [fault-quarantine/pkg/coldstart/supersession.go]:
    before a stored event is replayed at startup, the newer events of its check
    are scanned, and the effects (entity and error code) they decided are taken
    out of it.  Effects form a set; the scan is the batched scan of the store,
    of which only the interface is used. *)

From stdpp Require Import gmap strings list.
From Stdlib Require Import ZArith Lia.
From S2P Require Import Prelude HealthEvent AnnotationMap EventRecord Query StoreScan.

#[local] Open Scope nat_scope.

(** ** The store *)

(** A stored record as the resolver reads it.  An instant is a number of
    nanoseconds, 0 is Go's zero time.  [record_test] is the outcome of a query's test
    of one field of the document.  A record carries the document it was read from
    ([RawEvent]) or only its decoded parts ([record_parts], the map of the two fields
    built from them); [ParseHealthEventFromEvent] turns a document into an event
    through the JSON and protobuf libraries, and is a parameter. *)
Class StoredRecords (R : Type) := {
  record_createdAt : R -> Z;
  ExtractDocumentID : R -> result string;
  StoredDocument : Type;
  RawEvent : R -> option StoredDocument;
  record_parts : R -> StoredDocument;
  ParseHealthEventFromEvent : StoredDocument -> result HealthEvent;
  record_test : R -> string -> FieldTest -> bool }.

Definition parseStoredRecord {R} `{StoredRecords R} (record : R) : result HealthEvent :=
  match RawEvent record with
  | Some document => ParseHealthEventFromEvent document
  | None => ParseHealthEventFromEvent (record_parts record)
  end.

(** The batches a scan hands to its callback, and the error it ends with. *)
Class HealthEventStore (W R : Type) :=
  scan_batches : W -> Condition -> nat -> list (list R) * option error.

(** The scan with a callback; the error is the callback's or the scan's. *)
Definition FindBatched {W R X E} `{HealthEventStore W R} (w : W) (q : Condition) (batchSize : nat)
    (fn : X -> list R -> X * option E) (x : X) : X * option (E + error) :=
  let '(bs, scanErr) := scan_batches w q batchSize in
  match fold_batches fn x bs with
  | (x', Some e) => (x', Some (inl e))
  | (x', None) => (x', inr <$> scanErr)
  end.

Definition batchSize : nat := 1000.

(** ** Identity and order of stored events *)

Record eventIdentity := {
  agent : string; componentClass : string; checkName : string; nodeName : string; version : Z }.

Definition identityFor (event : HealthEvent) : eventIdentity :=
  {| agent := Agent event; componentClass := ComponentClass event; checkName := CheckName event;
     nodeName := NodeName event; version := Version event |}.

Record eventPosition := { createdAt : Z; id : string }.

Definition eventAfter (event : eventPosition) (at_ : Z) (id_ : string) : bool :=
  if (createdAt event =? at_)%Z then negb (bool_decide (String.le (id event) id_))
  else (at_ <? createdAt event)%Z.

(** ** Effects *)

Record eventEffect := { entityType : string; entityValue : string; errorCode : string }.

#[export] Instance eventEffect_eq_dec : EqDecision eventEffect.
Proof. solve_decision. Defined.
#[export] Instance eventEffect_countable : Countable eventEffect.
Proof.
  apply (inj_countable' (fun e => (entityType e, entityValue e, errorCode e))
    (fun '(t, v, c) => Build_eventEffect t v c)). by intros [].
Defined.

Definition normalizedErrorCodes (codes : list string) : list string :=
  match codes with [] => [""%string] | _ => codes end.

Record eventCoverage := {
  checkWide : bool;
  candidateHealthy : bool;
  candidateCodeWildcard : bool;
  remaining : gset eventEffect;
  shadowing : list HealthEvent;
  projected : bool;
}.

Definition nil {A} (l : list A) : bool := match l with [] => true | _ => false end.

Definition newEventCoverage (event : HealthEvent) : eventCoverage :=
  let codes := normalizedErrorCodes (ErrorCode event) in
  let effects :=
    match EntitiesImpacted event with
    | [] => map (fun c => {| entityType := ""; entityValue := ""; errorCode := c |}) codes
    | es => flat_map (fun e => map (fun c =>
              {| entityType := EntityType e; entityValue := EntityValue e; errorCode := c |}) codes) es
    end in
  {| checkWide := nil (EntitiesImpacted event); candidateHealthy := IsHealthy event;
     candidateCodeWildcard := IsHealthy event && nil (ErrorCode event);
     remaining := list_to_set effects; shadowing := []; projected := false |}.

Definition sameEntity (e : eventEffect) (x : Entity) : bool :=
  (entityType e ==s EntityType x) && (entityValue e ==s EntityValue x).

Definition identityFullyCoveredBy (c : eventCoverage) (candidate : eventEffect) (newer : HealthEvent) : bool :=
  if checkWide c then
    if candidateHealthy c then IsHealthy newer && nil (EntitiesImpacted newer)
    else nil (EntitiesImpacted newer)
  else if nil (EntitiesImpacted newer) then IsHealthy newer
  else existsb (sameEntity candidate) (EntitiesImpacted newer).

Definition newerIdentityCanShadow (c : eventCoverage) (candidate : eventEffect) (newer : HealthEvent) : bool :=
  if checkWide c then true
  else if nil (EntitiesImpacted newer) then IsHealthy newer
  else existsb (sameEntity candidate) (EntitiesImpacted newer).

Definition errorCodeFullyCoveredBy (c : eventCoverage) (candidate : string) (newer : HealthEvent) : bool :=
  if candidateCodeWildcard c && (candidate ==s "") then IsHealthy newer && nil (ErrorCode newer)
  else existsb (fun code => (candidate ==s code) || (IsHealthy newer && nil (ErrorCode newer)))
         (normalizedErrorCodes (ErrorCode newer)).

Definition newerCanShadowCandidate (c : eventCoverage) (newer : HealthEvent) : bool :=
  existsb (fun candidate =>
      newerIdentityCanShadow c candidate newer &&
      (candidateCodeWildcard c || errorCodeFullyCoveredBy c (errorCode candidate) newer))
    (elements (remaining c)).

Definition fullyCoveredBy (c : eventCoverage) (candidate : eventEffect) (newer : HealthEvent) : bool :=
  identityFullyCoveredBy c candidate newer && errorCodeFullyCoveredBy c (errorCode candidate) newer.

(** [eventCoverage.add]: the coverage after it and whether nothing remains. *)
Definition coverage_add (c : eventCoverage) (event : HealthEvent) : eventCoverage * bool :=
  let shadows := candidateHealthy c && newerCanShadowCandidate c event in
  let kept := filter (fun candidate => fullyCoveredBy c candidate event = false) (remaining c) in
  let c' :=
    {| checkWide := checkWide c; candidateHealthy := candidateHealthy c;
       candidateCodeWildcard := candidateCodeWildcard c; remaining := kept;
       shadowing := if shadows then shadowing c ++ [event] else shadowing c;
       projected := projected c || shadows || negb (bool_decide (kept = remaining c)) |} in
  (c', bool_decide (kept = ∅)).

Definition newerIdentityShadowsStoredEffect (effect : eventEffect) (newer : HealthEvent) : bool :=
  match EntitiesImpacted newer with
  | [] => IsHealthy newer || ((entityType effect ==s "") && (entityValue effect ==s ""))
  | es => existsb (sameEntity effect) es
  end.

Definition newerCodeShadowsStoredEffect (candidateCode : string) (newer : HealthEvent) : bool :=
  existsb (fun newerCode => (newerCode ==s candidateCode) || (IsHealthy newer && nil (ErrorCode newer)))
    (normalizedErrorCodes (ErrorCode newer)).

Definition newerShadowsStoredEffect (effect : eventEffect) (newer : HealthEvent) : bool :=
  newerIdentityShadowsStoredEffect effect newer && newerCodeShadowsStoredEffect (errorCode effect) newer.

Definition hasRemainingEffect (c : eventCoverage) (effect : eventEffect) : bool :=
  existsb (fun r =>
      ((checkWide c && candidateHealthy c) ||
       ((entityType r ==s entityType effect) && (entityValue r ==s entityValue effect))) &&
      ((errorCode r ==s errorCode effect) || (candidateCodeWildcard c && (errorCode r ==s ""))))
    (elements (remaining c)).

Definition isShadowed (c : eventCoverage) (effect : eventEffect) : bool :=
  existsb (newerShadowsStoredEffect effect) (shadowing c).

Definition allows (c : eventCoverage) (effect : eventEffect) : bool :=
  if negb (hasRemainingEffect c effect) then false
  else negb (candidateHealthy c) || negb (isShadowed c effect).

(** [withRecoveryEffects] puts the coverage in the context of the replay. *)
Definition ShouldRecoverEffect (ctx : option eventCoverage) (entityType entityValue errorCode : string) : bool :=
  match ctx with
  | None => true
  | Some coverage =>
      allows coverage {| entityType := entityType; entityValue := entityValue; errorCode := errorCode |}
  end.

(** [recoveryEffectFilter] of the reconciler. *)
Definition recoveryEffectFilter (ctx : option eventCoverage) (key : HealthEventKey) : bool :=
  ShouldRecoverEffect ctx (kEntityType key) (kEntityValue key) (kErrorCode key).

(** ** Queries *)

Definition processableCondition : Condition :=
  Or [Eq "healthevent.processingstrategy" (VInt 1); Eq "healthevent.processingStrategy" (VInt 1);
      And [Eq "healthevent.processingstrategy" VNil; Eq "healthevent.processingStrategy" VNil]].

Definition newerCondition (until : Z) (identity : eventIdentity) (from : Z) : Condition :=
  let versionCondition := Eq "healthevent.version" (VInt (version identity)) in
  let versionCondition :=
    if (version identity =? 0)%Z then Or [versionCondition; Eq "healthevent.version" VNil]
    else versionCondition in
  let condition :=
    And [Eq "healthevent.agent" (VString (agent identity));
         Eq "healthevent.componentclass" (VString (componentClass identity));
         Eq "healthevent.checkname" (VString (checkName identity));
         Eq "healthevent.nodename" (VString (nodeName identity));
         versionCondition; Gte "createdAt" (VTime from); processableCondition] in
  if (until =? 0)%Z then condition else And [condition; Lte "createdAt" (VTime until)].

(** ** The resolver *)

Section resolver.
Context {W R : Type} `{StoredRecords R} `{HealthEventStore W R}.

(** A callback over the records of a batch, until it fails. *)
Definition visit_all {X E} (visit : X -> R -> X * option E) (x : X) (batch : list R) : X * option E :=
  fold_batches visit x batch.

Definition scanNewerEvents {X E} (w : W) (until : Z) (identity : eventIdentity) (from : Z)
    (visit : X -> R -> X * option E) (x : X) : X * option (E + error) :=
  FindBatched w (newerCondition until identity from) batchSize (visit_all visit) x.

(** [errSupersessionResolved], the only error of the visitor. *)
Inductive visitError := errSupersessionResolved.

(** The visitor of [resolve]: the coverage and the flag [resolved]. *)
Definition resolveVisit (candidate : HealthEvent) (at_ : Z) (documentID : string)
    (x : eventCoverage * bool) (record : R) : (eventCoverage * bool) * option visitError :=
  let '(coverage, resolved) := x in
  let id_ := match ExtractDocumentID record with Ok i => i | Err _ => ""%string end in
  if negb (eventAfter {| createdAt := record_createdAt record; id := id_ |} at_ documentID) then (x, None)
  else
    match parseStoredRecord record with
    | Err _ =>
        if IsHealthy candidate then ((coverage, true), Some errSupersessionResolved) else (x, None)
    | Ok newer =>
        let '(coverage', done_) := coverage_add coverage newer in
        if done_ then ((coverage', true), Some errSupersessionResolved)
        else ((coverage', resolved), None)
    end.

(** [resolve]; [candidate] is nil when the document holds no event. *)
Definition resolve (w : W) (until : Z) (candidate : option HealthEvent) (at_ : Z) (documentID : string) :
    result (bool * option eventCoverage) :=
  match candidate with
  | None => Ok (false, None)
  | Some event =>
      if (at_ =? 0)%Z then Ok (false, None)
      else
        let '((coverage, resolved), err) :=
          scanNewerEvents w until (identityFor event) at_ (resolveVisit event at_ documentID)
            (newEventCoverage event, false) in
        match err with
        | Some (inr e) =>
            Err (wrapf ("failed to find health-event history for " +:+ NodeName event +:+ "/" +:+ CheckName event) e)
        | Some (inl errSupersessionResolved) | None => Ok (resolved, Some coverage)
        end
  end.

End resolver.

(** ** The newer events that decide an effect *)

Definition effect_of (k : HealthEventKey) : eventEffect :=
  {| entityType := kEntityType k; entityValue := kEntityValue k; errorCode := kErrorCode k |}.

(** No entity has both an empty type and an empty value. *)
Definition no_blank (e : HealthEvent) : Prop :=
  forall x, x ∈ EntitiesImpacted e -> ~ (EntityType x = ""%string /\ EntityValue x = ""%string).

Lemma sameEntity_spec eff x :
  sameEntity eff x = true <-> EntityType x = entityType eff /\ EntityValue x = entityValue eff.
Proof. unfold sameEntity. rewrite andb_true_iff, !go_eqb_true. naive_solver. Qed.

Lemma existsb_sameEntity eff es :
  existsb (sameEntity eff) es = true <->
  exists x, x ∈ es /\ EntityType x = entityType eff /\ EntityValue x = entityValue eff.
Proof. rewrite existsb_elem. by setoid_rewrite sameEntity_spec. Qed.

Lemma blank_not_entity eff e : no_blank e -> entityType eff = ""%string -> entityValue eff = ""%string ->
  existsb (sameEntity eff) (EntitiesImpacted e) = false.
Proof.
  intros Hnb Ht Hv. apply not_true_iff_false. rewrite existsb_sameEntity. intros (x & Hx & H1 & H2).
  apply (Hnb x Hx). by rewrite H1, H2.
Qed.

(** The code test of the shadow check, as membership. *)
Lemma newerCode_spec code n :
  newerCodeShadowsStoredEffect code n = true <->
  (IsHealthy n = true /\ ErrorCode n = []) \/ code ∈ normalizedErrorCodes (ErrorCode n).
Proof.
  unfold newerCodeShadowsStoredEffect. rewrite existsb_elem. setoid_rewrite orb_true_iff.
  setoid_rewrite go_eqb_true. setoid_rewrite andb_true_iff. destruct (ErrorCode n) as [|c cs]; simpl.
  - split.
    + intros (x & ->%list_elem_of_singleton & [<-|[? _]]); [right; left|left; done].
    + intros [[? _]| ->%list_elem_of_singleton]; exists ""%string; (split; [left|]); [by right|by left].
  - split; [intros (x & Hx & [->|[_ ?]]); [by right|done]|intros [[_ ?]|?]; [done|eauto]].
Qed.

Lemma normalized_codes e : normalizedErrorCodes (ErrorCode e) = event_codes e.
Proof. unfold normalizedErrorCodes, event_codes. by destruct (ErrorCode e). Qed.

(** An event decides an effect iff it is about the effect's key. *)
Lemma concerns_effect n k :
  key_ident k = event_ident n -> concerns n k = newerShadowsStoredEffect (effect_of k) n.
Proof.
  intros Hid. apply eq_true_iff_eq. unfold newerShadowsStoredEffect. rewrite andb_true_iff, newerCode_spec.
  cbn [effect_of errorCode]. unfold concerns, newerIdentityShadowsStoredEffect.
  destruct (IsHealthy n) eqn:Hh.
  - unfold covers. rewrite (bool_decide_eq_true_2 _ Hid). cbn [andb]. rewrite andb_true_iff, !bool_decide_eq_true.
    assert (Hc : (ErrorCode n = [] \/ kErrorCode k ∈ ErrorCode n) <->
                 (true = true /\ ErrorCode n = [] \/ kErrorCode k ∈ normalizedErrorCodes (ErrorCode n))).
    { destruct (ErrorCode n) as [|c cs]; simpl; [tauto|]. naive_solver. }
    rewrite Hc. apply and_iff_compat_r. unfold event_entities.
    destruct (EntitiesImpacted n) as [|x xs] eqn:He; [tauto|]. rewrite existsb_sameEntity. cbn [effect_of entityType entityValue].
    rewrite list_elem_of_fmap. unfold key_entity. split; [intros [?|(y & [= -> ->] & ?)]; [done|eauto]|].
    intros (y & ? & <- & <-). right. eauto.
  - rewrite bool_decide_eq_true, elem_of_createEventKeys, normalized_codes.
    assert (Hent : key_entity k ∈ event_entities n <->
      match EntitiesImpacted n with
      | [] => false || (entityType (effect_of k) ==s "") && (entityValue (effect_of k) ==s "")
      | es => existsb (sameEntity (effect_of k)) es end = true).
    { unfold event_entities, key_entity. destruct (EntitiesImpacted n) as [|x xs].
      - cbn [orb effect_of entityType entityValue]. rewrite andb_true_iff, !go_eqb_true, list_elem_of_singleton.
        split; [by intros [= -> ->]|by intros [-> ->]].
      - rewrite existsb_sameEntity, list_elem_of_fmap. cbn [effect_of entityType entityValue].
        split; [intros (y & [= -> ->] & ?); eauto|intros (y & ? & <- & <-); eauto]. }
    rewrite Hent. split; [intros (_ & ? & ?); tauto|intros [? [[? _]|?]]; [done|tauto]].
Qed.

(** ** The coverage after a list of newer events *)

Definition cover (c : eventCoverage) (ns : list HealthEvent) : eventCoverage :=
  fold_left (fun c n => (coverage_add c n).1) ns c.

Lemma add_flags c n :
  checkWide (coverage_add c n).1 = checkWide c /\ candidateHealthy (coverage_add c n).1 = candidateHealthy c /\
  candidateCodeWildcard (coverage_add c n).1 = candidateCodeWildcard c.
Proof. done. Qed.

Lemma cover_flags c ns :
  checkWide (cover c ns) = checkWide c /\ candidateHealthy (cover c ns) = candidateHealthy c /\
  candidateCodeWildcard (cover c ns) = candidateCodeWildcard c.
Proof.
  revert c. induction ns as [|n ns IH]; intros c; [done|]. cbn [cover fold_left]. fold (cover (coverage_add c n).1 ns).
  destruct (IH (coverage_add c n).1) as (-> & -> & ->). done.
Qed.

(** The tests of an effect read the flags only. *)
Lemma fullyCoveredBy_flags c c' r n :
  checkWide c' = checkWide c -> candidateHealthy c' = candidateHealthy c ->
  candidateCodeWildcard c' = candidateCodeWildcard c -> fullyCoveredBy c' r n = fullyCoveredBy c r n.
Proof.
  intros H1 H2 H3. unfold fullyCoveredBy, identityFullyCoveredBy, errorCodeFullyCoveredBy. by rewrite H1, H2, H3.
Qed.

Definition canShadow (c : eventCoverage) (r : eventEffect) (n : HealthEvent) : bool :=
  newerIdentityCanShadow c r n && (candidateCodeWildcard c || errorCodeFullyCoveredBy c (errorCode r) n).

Lemma canShadow_flags c c' r n :
  checkWide c' = checkWide c -> candidateHealthy c' = candidateHealthy c ->
  candidateCodeWildcard c' = candidateCodeWildcard c -> canShadow c' r n = canShadow c r n.
Proof.
  intros H1 H2 H3. unfold canShadow, newerIdentityCanShadow, errorCodeFullyCoveredBy. by rewrite H1, H3.
Qed.

Lemma cover_remaining c ns r :
  r ∈ remaining (cover c ns) <-> r ∈ remaining c /\ forall n, n ∈ ns -> fullyCoveredBy c r n = false.
Proof.
  revert c. induction ns as [|n ns IH]; intros c; cbn [cover fold_left].
  { split; [|by intros [? _]]. intros ?. split; [done|]. by intros n ?%not_elem_of_nil. }
  fold (cover (coverage_add c n).1 ns). rewrite IH. cbn [coverage_add fst remaining]. rewrite elem_of_filter.
  setoid_rewrite elem_of_cons.
  assert (Hf : forall m, fullyCoveredBy (coverage_add c n).1 r m = fullyCoveredBy c r m) by (intros m; by apply fullyCoveredBy_flags).
  cbn [coverage_add fst] in Hf. setoid_rewrite Hf. naive_solver.
Qed.

Lemma cover_shadowing_in c ns n : n ∈ shadowing (cover c ns) -> n ∈ shadowing c \/ n ∈ ns.
Proof.
  revert c. induction ns as [|m ns IH]; intros c; cbn [cover fold_left]; [tauto|].
  fold (cover (coverage_add c m).1 ns). intros [Hs|?]%IH; [|right; by right]. cbn [coverage_add fst shadowing] in Hs.
  destruct (_ && _); [|tauto]. apply elem_of_app in Hs as [?| ->%list_elem_of_singleton]; [tauto|]. right. left.
Qed.

Lemma cover_shadowing_mono c ns n : n ∈ shadowing c -> n ∈ shadowing (cover c ns).
Proof.
  revert c. induction ns as [|m ns IH]; intros c Hn; cbn [cover fold_left]; [done|]. apply IH. cbn [coverage_add fst shadowing].
  destruct (_ && _); [|done]. apply elem_of_app. tauto.
Qed.

(** A newer event that can shadow an effect still remaining at the end was kept. *)
Lemma cover_shadowing c ns r n :
  candidateHealthy c = true -> r ∈ remaining (cover c ns) -> n ∈ ns -> canShadow c r n = true ->
  n ∈ shadowing (cover c ns).
Proof.
  revert c. induction ns as [|m ns IH]; intros c Hh Hr Hn Hs; [by apply not_elem_of_nil in Hn|].
  cbn [cover fold_left] in *. fold (cover (coverage_add c m).1 ns) in *.
  apply elem_of_cons in Hn as [->|Hn].
  - apply cover_shadowing_mono. cbn [coverage_add fst shadowing].
    assert (Hc : newerCanShadowCandidate c m = true).
    { unfold newerCanShadowCandidate. apply existsb_elem. exists r. split; [|exact Hs].
      apply elem_of_elements. apply cover_remaining in Hr as [Hr _]. cbn [coverage_add fst remaining] in Hr.
      by apply elem_of_filter in Hr as [_ Hr]. }
    rewrite Hh, Hc. apply elem_of_app. right. left.
  - apply IH; [done..|]. rewrite (canShadow_flags c); done.
Qed.

(** ** What the coverage allows *)

Definition matchEffect (c : eventCoverage) (r effect : eventEffect) : bool :=
  ((checkWide c && candidateHealthy c) ||
   ((entityType r ==s entityType effect) && (entityValue r ==s entityValue effect))) &&
  ((errorCode r ==s errorCode effect) || (candidateCodeWildcard c && (errorCode r ==s ""))).

Lemma hasRemainingEffect_spec c effect :
  hasRemainingEffect c effect = true <-> exists r, r ∈ remaining c /\ matchEffect c r effect = true.
Proof. unfold hasRemainingEffect. rewrite existsb_elem. by setoid_rewrite elem_of_elements. Qed.

Lemma elem_of_effects e r :
  r ∈ remaining (newEventCoverage e) <->
  (entityType r, entityValue r) ∈ event_entities e /\ errorCode r ∈ event_codes e.
Proof.
  cbn [newEventCoverage remaining]. rewrite elem_of_list_to_set, normalized_codes. unfold event_entities.
  destruct (EntitiesImpacted e) as [|x xs].
  - rewrite list_elem_of_fmap, list_elem_of_singleton. destruct r as [t v c]. cbn. split.
    + intros (y & [= -> -> ->] & ?). done.
    + intros [[= -> ->] ?]. eauto.
  - rewrite list_elem_of_In, in_flat_map, list_elem_of_fmap. destruct r as [t v c]. cbn [entityType entityValue errorCode]. split.
    + intros (y & Hy%list_elem_of_In & Hr). apply list_elem_of_In, list_elem_of_fmap in Hr as (c' & [= -> -> ->] & ?).
      split; [|done]. eauto.
    + intros [(y & [= -> ->] & Hy) Hc]. exists y. split; [by apply list_elem_of_In|].
      apply list_elem_of_In, list_elem_of_fmap. eauto.
Qed.

(** The code test that newer events are put to, when the candidate lists codes. *)
Lemma errorCodeFullyCoveredBy_code c code n :
  candidateCodeWildcard c && (code ==s "") = false ->
  errorCodeFullyCoveredBy c code n = newerCodeShadowsStoredEffect code n.
Proof.
  intros Hw. unfold errorCodeFullyCoveredBy. rewrite Hw. apply existsb_ext_in'. apply Forall_true. intros x.
  f_equal. unfold go_eqb. apply bool_decide_ext. done.
Qed.

Lemma nil_true {A} (l : list A) : nil l = true <-> l = [].
Proof. by destruct l. Qed.

Section healthy.
Context (e : HealthEvent) (k : HealthEventKey) (Hh : IsHealthy e = true) (Hk : concerns e k = true).

Lemma healthy_covers :
  key_ident k = event_ident e /\ (EntitiesImpacted e = [] \/ key_entity k ∈ event_entities e) /\
  (ErrorCode e = [] \/ kErrorCode k ∈ ErrorCode e).
Proof.
  unfold concerns in Hk. rewrite Hh in Hk. unfold covers in Hk. rewrite !andb_true_iff, !bool_decide_eq_true in Hk. tauto.
Qed.

(** Some remaining effect of the candidate stands for the key. *)
Lemma healthy_effect :
  exists r, r ∈ remaining (newEventCoverage e) /\ matchEffect (newEventCoverage e) r (effect_of k) = true /\
    forall n, key_ident k = event_ident n -> fullyCoveredBy (newEventCoverage e) r n = true -> concerns n k = true.
Proof.
  destruct healthy_covers as (Hid & Hent & Hcode).
  set (ent := match EntitiesImpacted e with [] => (""%string, ""%string) | _ => key_entity k end).
  set (code := match ErrorCode e with [] => ""%string | _ => kErrorCode k end).
  exists {| entityType := ent.1; entityValue := ent.2; errorCode := code |}. split; [|split].
  - apply elem_of_effects. cbn. unfold ent, code, event_entities, event_codes in *.
    split; [destruct (EntitiesImpacted e); [left|by destruct Hent]|destruct (ErrorCode e); [left|by destruct Hcode]].
  - unfold matchEffect, ent, code. cbn [newEventCoverage checkWide candidateHealthy candidateCodeWildcard effect_of
      entityType entityValue errorCode]. rewrite Hh.
    destruct (EntitiesImpacted e), (ErrorCode e); cbn [nil andb orb fst snd key_entity]; by rewrite ?go_eqb_refl, ?orb_true_r.
  - intros n Hn Hf. rewrite concerns_effect by done. unfold fullyCoveredBy in Hf. apply andb_prop in Hf as [Hi Hc].
    unfold newerShadowsStoredEffect. apply andb_true_iff. split.
    + unfold identityFullyCoveredBy in Hi. cbn [newEventCoverage checkWide candidateHealthy] in Hi. rewrite Hh in Hi.
      unfold newerIdentityShadowsStoredEffect. unfold ent in Hi. destruct (EntitiesImpacted e); cbn [nil] in Hi.
      * apply andb_prop in Hi as [-> ->%nil_true]. done.
      * destruct (EntitiesImpacted n); cbn [nil] in Hi; [by rewrite Hi|done].
    + cbn [errorCode] in Hc. unfold code in Hc. destruct (ErrorCode e) as [|c0 cs] eqn:Hec.
      * unfold errorCodeFullyCoveredBy in Hc. cbn [newEventCoverage candidateCodeWildcard] in Hc.
        rewrite Hh, Hec in Hc. cbn [nil andb] in Hc. rewrite go_eqb_refl in Hc.
        apply andb_prop in Hc as [H1 H2%nil_true]. apply newerCode_spec. tauto.
      * rewrite errorCodeFullyCoveredBy_code in Hc; [done|]. cbn [newEventCoverage candidateCodeWildcard].
        by rewrite Hec, andb_false_r.
Qed.

(** Any remaining effect that stands for the key can be shadowed by a newer event
    about the key. *)
Lemma healthy_canShadow r n :
  no_blank e -> r ∈ remaining (newEventCoverage e) -> matchEffect (newEventCoverage e) r (effect_of k) = true ->
  key_ident k = event_ident n -> concerns n k = true -> canShadow (newEventCoverage e) r n = true.
Proof.
  intros Hnb Hr Hm Hid Hn. rewrite concerns_effect in Hn by done. unfold newerShadowsStoredEffect in Hn.
  apply andb_prop in Hn as [Hi Hc]. unfold matchEffect in Hm. apply andb_prop in Hm as [Hmi Hmc].
  unfold canShadow. apply andb_true_iff. split.
  - unfold newerIdentityCanShadow. cbn [newEventCoverage checkWide candidateHealthy] in *. rewrite Hh in Hmi.
    destruct (nil (EntitiesImpacted e)) eqn:Hne; [done|]. cbn [andb orb] in Hmi.
    apply andb_prop in Hmi as [Ht%go_eqb_true Hv%go_eqb_true].
    apply elem_of_effects in Hr as [Hr _]. unfold event_entities in Hr.
    destruct (EntitiesImpacted e) as [|x0 xs] eqn:He; [done|]. apply list_elem_of_fmap in Hr as (x & [= Hx1 Hx2] & Hx).
    rewrite <- He in Hx. unfold newerIdentityShadowsStoredEffect in Hi.
    destruct (EntitiesImpacted n) as [|y ys]; cbn [nil].
    + apply orb_true_iff in Hi as [?|Hb]; [done|]. exfalso. apply andb_prop in Hb as [H1%go_eqb_true H2%go_eqb_true].
      apply (Hnb x Hx). split; congruence.
    + apply existsb_sameEntity in Hi as (z & Hz & H1 & H2). apply existsb_sameEntity. exists z. split; [done|]. split; congruence.
  - destruct (candidateCodeWildcard (newEventCoverage e)) eqn:Hw; [done|]. cbn [andb orb] in *. rewrite orb_false_r in Hmc.
    apply go_eqb_true in Hmc. rewrite Hmc, errorCodeFullyCoveredBy_code by (by rewrite Hw). exact Hc.
Qed.

Lemma healthy_allows ns :
  no_blank e -> (forall n, n ∈ ns -> event_ident n = event_ident e) ->
  allows (cover (newEventCoverage e) ns) (effect_of k) = negb (existsb (fun n => concerns n k) ns).
Proof.
  intros Hnb Hns. destruct healthy_covers as (Hid & _).
  assert (Hidn : forall n, n ∈ ns -> key_ident k = event_ident n) by (intros n Hn; by rewrite Hns).
  destruct (cover_flags (newEventCoverage e) ns) as (Hf1 & Hf2 & Hf3).
  assert (Hm : forall r, matchEffect (cover (newEventCoverage e) ns) r (effect_of k) =
                         matchEffect (newEventCoverage e) r (effect_of k)).
  { intros r. unfold matchEffect. by rewrite Hf1, Hf2, Hf3. }
  unfold allows. rewrite Hf2. cbn [newEventCoverage candidateHealthy]. rewrite Hh. cbn [negb orb].
  destruct (existsb (fun n => concerns n k) ns) eqn:Hex; cbn [negb].
  - apply existsb_elem in Hex as (n & Hn & Hc).
    destruct (hasRemainingEffect _ _) eqn:Hrem; cbn [negb]; [|done]. apply hasRemainingEffect_spec in Hrem as (r & Hr & Hmr).
    rewrite Hm in Hmr. assert (Hr0 := Hr). apply cover_remaining in Hr0 as [Hr0 _]. apply negb_false_iff.
    unfold isShadowed. apply existsb_elem. exists n. split.
    + apply (cover_shadowing _ _ r n); [exact Hh|done..|]. by apply healthy_canShadow; auto.
    + rewrite <- concerns_effect; auto.
  - rewrite existsb_none in Hex. destruct healthy_effect as (r & Hr & Hmr & Hfull).
    assert (Hrem : hasRemainingEffect (cover (newEventCoverage e) ns) (effect_of k) = true).
    { apply hasRemainingEffect_spec. exists r. rewrite Hm. split; [|done]. apply cover_remaining. split; [done|].
      intros n Hn. apply not_true_iff_false. intros Hf. specialize (Hex n Hn). rewrite (Hfull n (Hidn n Hn) Hf) in Hex. done. }
    rewrite Hrem. cbn [negb]. apply negb_true_iff. apply existsb_none. intros n Hn.
    apply cover_shadowing_in in Hn as [Hn|Hn]; [by apply not_elem_of_nil in Hn|].
    rewrite <- concerns_effect; auto.
Qed.

End healthy.

(** A fault keeps an effect iff no newer event decides it. *)
Lemma fault_allows e k ns :
  IsHealthy e = false -> concerns e k = true -> no_blank e ->
  (forall n, n ∈ ns -> event_ident n = event_ident e /\ no_blank n) ->
  allows (cover (newEventCoverage e) ns) (effect_of k) = negb (existsb (fun n => concerns n k) ns).
Proof.
  intros Hh Hk Hnb Hns. unfold concerns in Hk. rewrite Hh in Hk.
  apply bool_decide_eq_true, elem_of_createEventKeys in Hk as (Hid & Hent & Hcode).
  destruct (cover_flags (newEventCoverage e) ns) as (Hf1 & Hf2 & Hf3).
  cbn [newEventCoverage checkWide candidateHealthy candidateCodeWildcard] in Hf1, Hf2, Hf3. rewrite Hh in Hf2, Hf3.
  cbn [andb] in Hf3. unfold allows. rewrite Hf2. cbn [negb orb].
  assert (Hfull : forall n, n ∈ ns -> fullyCoveredBy (newEventCoverage e) (effect_of k) n = concerns n k).
  { intros n Hn. destruct (Hns n Hn) as [Hidn Hnbn]. rewrite concerns_effect by congruence.
    unfold fullyCoveredBy, newerShadowsStoredEffect.
    rewrite errorCodeFullyCoveredBy_code by (cbn [newEventCoverage candidateCodeWildcard]; by rewrite Hh). f_equal.
    unfold identityFullyCoveredBy, newerIdentityShadowsStoredEffect.
    cbn [newEventCoverage checkWide candidateHealthy]. rewrite Hh. unfold event_entities, key_entity in Hent.
    destruct (EntitiesImpacted e) as [|x xs] eqn:He; cbn [nil].
    - apply list_elem_of_singleton in Hent. injection Hent as Ht Hv.
      pose proof (blank_not_entity (effect_of k) n Hnbn Ht Hv) as Hb.
      destruct (EntitiesImpacted n) as [|y ys]; cbn [nil]; [|by rewrite Hb].
      cbn [effect_of entityType entityValue]. rewrite Ht, Hv, !go_eqb_refl. by rewrite orb_true_r.
    - destruct (EntitiesImpacted n) as [|y ys]; cbn [nil]; [|done].
      destruct (IsHealthy n); [done|]. symmetry. cbn [orb]. apply not_true_iff_false.
      rewrite andb_true_iff, !go_eqb_true. cbn [effect_of entityType entityValue]. intros [Ht Hv].
      apply list_elem_of_fmap in Hent as (z & [= Hz1 Hz2] & Hz). rewrite <- He in Hz. apply (Hnb z Hz). split; congruence. }
  assert (Hrem : hasRemainingEffect (cover (newEventCoverage e) ns) (effect_of k) = true <->
                 effect_of k ∈ remaining (cover (newEventCoverage e) ns)).
  { rewrite hasRemainingEffect_spec. unfold matchEffect. rewrite Hf2, Hf3. setoid_rewrite andb_false_r. cbn [orb].
    setoid_rewrite orb_false_r. setoid_rewrite andb_true_iff. setoid_rewrite andb_true_iff. setoid_rewrite go_eqb_true.
    split; [|intros ?; eauto 6]. intros (r & Hr & (H1 & H2) & H3). destruct r as [t v c], (effect_of k). simpl in *. by subst. }
  assert (Hin : effect_of k ∈ remaining (newEventCoverage e)) by (by apply elem_of_effects).
  destruct (existsb (fun n => concerns n k) ns) eqn:Hex; cbn [negb].
  - apply existsb_elem in Hex as (n & Hn & Hc). destruct (hasRemainingEffect _ _); [|done].
    exfalso. destruct Hrem as [Hrem _]. specialize (Hrem eq_refl). apply cover_remaining in Hrem as [_ Hrem].
    specialize (Hrem n Hn). rewrite Hfull in Hrem by done. congruence.
  - rewrite existsb_none in Hex. rewrite (proj2 Hrem); [done|]. apply cover_remaining. split; [done|].
    intros n Hn. by rewrite Hfull, Hex.
Qed.

(** The effects a replay may still apply are those no newer event decides. *)
Lemma allows_cover e k ns :
  concerns e k = true -> no_blank e -> (forall n, n ∈ ns -> event_ident n = event_ident e /\ no_blank n) ->
  allows (cover (newEventCoverage e) ns) (effect_of k) = negb (existsb (fun n => concerns n k) ns).
Proof.
  intros Hk Hnb Hns. destruct (IsHealthy e) eqn:Hh; [|by apply fault_allows].
  apply healthy_allows; [done..|]. intros n Hn. by apply Hns.
Qed.

(** ** The resolver *)

(** A scan that succeeds visits the matching records once each. *)
Class HealthEventStoreLaws (W R : Type) `{ObjectIDs} `{StoredRecords R} `{HealthEventStore W R} := {
  records : W -> list R;
  scan_complete w q n : well_formed q = true -> 0 < n ->
    (scan_batches w q n).2 = None /\
    concat (scan_batches w q n).1 ≡ₚ filter (fun r => holds (record_test r) q = true) (records w) }.

(** The tests of a stored document agree with the event it decodes to; a version
    of 0 may be absent from the document. *)
Class StoredRecordLaws (R : Type) `{StoredRecords R} := {
  test_agent r e a : parseStoredRecord r = Ok e ->
    record_test r "healthevent.agent" (FValue (VString a)) = bool_decide (Agent e = a);
  test_componentclass r e c : parseStoredRecord r = Ok e ->
    record_test r "healthevent.componentclass" (FValue (VString c)) = bool_decide (ComponentClass e = c);
  test_checkname r e c : parseStoredRecord r = Ok e ->
    record_test r "healthevent.checkname" (FValue (VString c)) = bool_decide (CheckName e = c);
  test_nodename r e n : parseStoredRecord r = Ok e ->
    record_test r "healthevent.nodename" (FValue (VString n)) = bool_decide (NodeName e = n);
  test_version r e v : parseStoredRecord r = Ok e -> v <> 0%Z ->
    record_test r "healthevent.version" (FValue (VInt v)) = bool_decide (Version e = v);
  test_version_absent r e : parseStoredRecord r = Ok e ->
    record_test r "healthevent.version" (FValue (VInt 0)) || record_test r "healthevent.version" (FValue VNil)
      = bool_decide (Version e = 0%Z);
  test_created_from r t : record_test r "createdAt" (FOp "$gte" (VTime t)) = (t <=? record_createdAt r)%Z;
  test_created_until r t : record_test r "createdAt" (FOp "$lte" (VTime t)) = (record_createdAt r <=? t)%Z }.

Lemma fold_batches_concat {X B E} (f : X -> B -> X * option E) x bs :
  fold_batches (fold_batches f) x bs = fold_batches f x (concat bs).
Proof.
  revert x. induction bs as [|b bs IH]; intros x; [done|]. cbn [fold_batches concat].
  assert (Happ : forall l1 l2 x, fold_batches f x (l1 ++ l2) =
    match fold_batches f x l1 with (x', Some e) => (x', Some e) | (x', None) => fold_batches f x' l2 end).
  { clear. intros l1 l2. induction l1 as [|y l1 IH]; intros x; cbn [fold_batches app].
    - by destruct (fold_batches f x l2) as [? []].
    - destruct (f x y) as [x' [e|]]; [done|]. apply IH. }
  rewrite Happ. destruct (fold_batches f x b) as [x' [e|]]; [done|]. apply IH.
Qed.

Lemma existsb_app' {A} (f : A -> bool) l1 l2 : existsb f (l1 ++ l2) = existsb f l1 || existsb f l2.
Proof. apply existsb_app. Qed.

Section resolver_theory.
Context {W R : Type} `{ObjectIDs} `{StoredRecords R} `{HealthEventStore W R}.
Context `{!HealthEventStoreLaws W R} `{!StoredRecordLaws R}.

Definition record_id (r : R) : string := match ExtractDocumentID r with Ok i => i | Err _ => ""%string end.

(** The records a replay of the candidate has to look at. *)
Definition newer_record (until : Z) (e : HealthEvent) (at_ : Z) (id_ : string) (r : R) : bool :=
  holds (record_test r) (newerCondition until (identityFor e) at_) &&
  eventAfter {| createdAt := record_createdAt r; id := record_id r |} at_ id_.

Definition record_concerns (k : HealthEventKey) (r : R) : bool :=
  match parseStoredRecord r with Ok n => concerns n k | Err _ => false end.

(** Some newer record decides the key. *)
Definition decided_later (w : W) (until : Z) (e : HealthEvent) (at_ : Z) (id_ : string) (k : HealthEventKey) : bool :=
  existsb (fun r => newer_record until e at_ id_ r && record_concerns k r) (records w).

Lemma newerCondition_well_formed until i at_ : well_formed (newerCondition until i at_) = true.
Proof. unfold newerCondition. destruct (version i =? 0)%Z, (until =? 0)%Z; reflexivity. Qed.

Lemma newerCondition_ident until e at_ r n :
  parseStoredRecord r = Ok n -> holds (record_test r) (newerCondition until (identityFor e) at_) = true ->
  event_ident n = event_ident e.
Proof.
  intros Hp Hh.
  set (inner := [Eq "healthevent.agent" (VString (Agent e)); Eq "healthevent.componentclass" (VString (ComponentClass e));
    Eq "healthevent.checkname" (VString (CheckName e)); Eq "healthevent.nodename" (VString (NodeName e));
    (if (Version e =? 0)%Z then Or [Eq "healthevent.version" (VInt (Version e)); Eq "healthevent.version" VNil]
     else Eq "healthevent.version" (VInt (Version e))); Gte "createdAt" (VTime at_); processableCondition]).
  assert (Hin : holds (record_test r) (And inner) = true).
  { unfold newerCondition in Hh. cbn [identityFor agent componentClass checkName nodeName version] in Hh. fold inner in Hh.
    destruct (until =? 0)%Z; [exact Hh|]. cbn [holds forallb] in Hh. by apply andb_prop in Hh as [Hh _]. }
  clear Hh. unfold inner in Hin. cbn [holds forallb] in Hin. rewrite !andb_true_iff in Hin.
  destruct Hin as (H1' & H2 & H3 & H4 & H5 & _).
  change (field_value "healthevent.agent" (VString (Agent e))) with (VString (Agent e)) in H1'.
  change (field_value "healthevent.componentclass" (VString (ComponentClass e))) with (VString (ComponentClass e)) in H2.
  change (field_value "healthevent.checkname" (VString (CheckName e))) with (VString (CheckName e)) in H3.
  change (field_value "healthevent.nodename" (VString (NodeName e))) with (VString (NodeName e)) in H4.
  rewrite (test_agent r n) in H1' by done. rewrite (test_componentclass r n) in H2 by done.
  rewrite (test_checkname r n) in H3 by done. rewrite (test_nodename r n) in H4 by done.
  apply bool_decide_eq_true in H1', H2, H3, H4.
  assert (Hv : Version n = Version e).
  { destruct (Version e =? 0)%Z eqn:Hz.
    - apply Z.eqb_eq in Hz. cbn [holds existsb] in H5. rewrite orb_false_r, Hz in H5.
      change (field_value "healthevent.version" (VInt 0)) with (VInt 0) in H5.
      change (field_value "healthevent.version" VNil) with VNil in H5.
      rewrite (test_version_absent r n) in H5 by done. apply bool_decide_eq_true in H5. congruence.
    - apply Z.eqb_neq in Hz. cbn [holds] in H5.
      change (field_value "healthevent.version" (VInt (Version e))) with (VInt (Version e)) in H5.
      rewrite (test_version r n) in H5 by done. by apply bool_decide_eq_true in H5. }
  unfold event_ident. congruence.
Qed.

(** The newer events among the records visited. *)
Definition newer_events (at_ : Z) (id_ : string) (rs : list R) : list HealthEvent :=
  omap (fun r => if eventAfter {| createdAt := record_createdAt r; id := record_id r |} at_ id_
                 then match parseStoredRecord r with Ok n => Some n | Err _ => None end else None) rs.

(** The visitor runs the coverage over the newer events, and stops when nothing
    remains. *)
Lemma resolveVisit_fold e at_ id_ rs : forall c,
  (IsHealthy e = true -> forall r, r ∈ rs -> eventAfter {| createdAt := record_createdAt r; id := record_id r |} at_ id_ = true ->
     exists n, parseStoredRecord r = Ok n) ->
  let ns := newer_events at_ id_ rs in
  (exists ns1 ns2, ns = ns1 ++ ns2 /\ remaining (cover c ns1) = ∅ /\
     fold_batches (resolveVisit e at_ id_) (c, false) rs = ((cover c ns1, true), Some errSupersessionResolved)) \/
  fold_batches (resolveVisit e at_ id_) (c, false) rs = ((cover c ns, false), None).
Proof.
  induction rs as [|r rs IH]; intros c Hread ns; [by right|].
  assert (Hread' : IsHealthy e = true -> forall r', r' ∈ rs ->
    eventAfter {| createdAt := record_createdAt r'; id := record_id r' |} at_ id_ = true ->
    exists n, parseStoredRecord r' = Ok n) by (intros Hh r' Hr'; apply Hread; [done|by right]).
  unfold ns, newer_events. cbn [omap list_omap fold_batches]. unfold resolveVisit at 1 3. fold (record_id r).
  destruct (eventAfter _ at_ id_) eqn:Haf; cbn [negb]; [|apply (IH c Hread')].
  destruct (parseStoredRecord r) as [n|err] eqn:Hp.
  2: { destruct (IsHealthy e) eqn:Hh; [|apply (IH c Hread')].
       destruct (Hread eq_refl r ltac:(left) Haf) as [n Hn]. congruence. }
  destruct (coverage_add c n) as [c' done_] eqn:Hadd.
  assert (Hc' : c' = (coverage_add c n).1) by (by rewrite Hadd). assert (Hd : done_ = (coverage_add c n).2) by (by rewrite Hadd).
  destruct done_.
  - left. exists [n], (newer_events at_ id_ rs). split; [done|].
    cbn [cover fold_left]. rewrite <- Hc'. split; [|done].
    symmetry in Hd. cbn [coverage_add snd] in Hd. apply bool_decide_eq_true in Hd. rewrite Hc'. exact Hd.
  - specialize (IH c' Hread'). destruct IH as [(ns1 & ns2 & E1 & E2 & E3)|E].
    + left. exists (n :: ns1), ns2. cbn [cover fold_left]. rewrite <- Hc'. fold (cover c' ns1).
      split; [cbn; by f_equal|]. split; [done|]. exact E3.
    + right. cbn [cover fold_left]. rewrite <- Hc'. exact E.
Qed.

(** The resolver decides each effect of the candidate. *)
Lemma resolve_correct w until e at_ id_ :
  at_ <> 0%Z -> no_blank e ->
  (forall r n, r ∈ records w -> parseStoredRecord r = Ok n -> no_blank n) ->
  (IsHealthy e = true -> forall r, r ∈ records w -> newer_record until e at_ id_ r = true ->
     exists n, parseStoredRecord r = Ok n) ->
  exists resolved coverage,
    resolve w until (Some e) at_ id_ = Ok (resolved, Some coverage) /\
    forall k, concerns e k = true ->
      (if resolved then false else allows coverage (effect_of k)) = negb (decided_later w until e at_ id_ k).
Proof.
  intros Hat Hnb Hblank Hread. unfold resolve. rewrite (proj2 (Z.eqb_neq _ _) Hat).
  unfold scanNewerEvents, FindBatched.
  destruct (scan_complete w (newerCondition until (identityFor e) at_) batchSize) as [Hnone Hperm];
    [apply newerCondition_well_formed|unfold batchSize; lia|].
  destruct (scan_batches w _ batchSize) as [bs scanErr]. cbn [fst snd] in Hnone, Hperm. subst scanErr.
  unfold visit_all. rewrite fold_batches_concat. set (rs := concat bs) in *.
  assert (Hrs : forall r, r ∈ rs <-> r ∈ records w /\ holds (record_test r) (newerCondition until (identityFor e) at_) = true).
  { intros r. rewrite Hperm, list_elem_of_filter. tauto. }
  assert (Hns : forall n, n ∈ newer_events at_ id_ rs -> event_ident n = event_ident e /\ no_blank n).
  { intros n Hn. unfold newer_events in Hn. apply list_elem_of_omap in Hn as (r & Hr & Hn). apply Hrs in Hr as [Hr Hh].
    destruct (eventAfter _ _ _); [|done]. destruct (parseStoredRecord r) as [m|] eqn:Hp; [|done]. injection Hn as ->.
    split; [by eapply newerCondition_ident|by eapply Hblank]. }
  assert (Hlater : forall k, existsb (fun n => concerns n k) (newer_events at_ id_ rs) = decided_later w until e at_ id_ k).
  { intros k. apply eq_true_iff_eq. unfold decided_later, newer_events. rewrite !existsb_elem. split.
    - intros (n & Hn & Hc). apply list_elem_of_omap in Hn as (r & Hr & Hn). apply Hrs in Hr as [Hr Hh]. exists r. split; [done|].
      destruct (eventAfter _ _ _) eqn:Haf; [|done]. destruct (parseStoredRecord r) as [m|] eqn:Hp; [|done]. injection Hn as ->.
      unfold newer_record, record_concerns. by rewrite Hh, Haf, Hp.
    - intros (r & Hr & [Hn Hc]%andb_prop). apply andb_prop in Hn as [Hh Haf]. unfold record_concerns in Hc.
      destruct (parseStoredRecord r) as [n|] eqn:Hp; [|done]. exists n. split; [|done].
      apply list_elem_of_omap. exists r. rewrite Haf, Hp. split; [|done]. by apply Hrs. }
  destruct (resolveVisit_fold e at_ id_ rs (newEventCoverage e)) as [(ns1 & ns2 & E1 & E2 & ->)| ->].
  { intros Hh r Hr Haf. apply Hrs in Hr as [Hr Hm]. apply (Hread Hh r Hr). unfold newer_record. by rewrite Hm, Haf. }
  - exists true, (cover (newEventCoverage e) ns1). split; [done|]. intros k Hk. rewrite <- Hlater, E1, existsb_app'.
    pose proof (allows_cover e k ns1 Hk Hnb) as Ha. rewrite E1 in Hns.
    assert (Hf : allows (cover (newEventCoverage e) ns1) (effect_of k) = false).
    { unfold allows. assert (Hz : hasRemainingEffect (cover (newEventCoverage e) ns1) (effect_of k) = false); [|by rewrite Hz].
      apply not_true_iff_false. rewrite hasRemainingEffect_spec, E2. set_solver. }
    rewrite Ha in Hf by (intros n Hn; apply Hns; apply elem_of_app; by left).
    apply negb_false_iff in Hf. by rewrite Hf.
  - exists false, (cover (newEventCoverage e) (newer_events at_ id_ rs)). split; [done|]. intros k Hk.
    rewrite <- Hlater. by apply allows_cover.
Qed.

End resolver_theory.
