(* ===== verification/Residual.v ===== *)
(** * The residual of a partly superseded event

    Models the second half of [fault-quarantine/pkg/coldstart/supersession.go]:
    [ProjectHealthEvent] turns the effects that newer events left of a stored
    event into events the rules can be evaluated on.  The effects are a relation
    between entities and error codes; every maximal rectangle of the relation
    becomes one event.  The rectangles are found by closing the code sets of the
    entities under intersection, with a limit of 256 sets. *)

From stdpp Require Import gmap strings list sorting.
From Stdlib Require Import ZArith Lia.
From S2P Require Import Prelude HealthEvent AnnotationMap EventRecord Supersession.

#[local] Open Scope nat_scope.

Definition maxRecoveryProjectionRectangles : nat := 256.

(** An entity is its type and value. *)
Definition residualEntity : Type := string * string.

Record residualRectangle := {
  r_entities : list residualEntity;
  r_errorCodes : list string;
}.

(** ** Sets of strings *)

Definition sortedStringSet (values : gset string) : list string := merge_sort String.le (elements values).

Definition stringSliceKey (values : list string) : string := frames "" values.

Definition sortedStringSetKey (values : gset string) : string := stringSliceKey (sortedStringSet values).

Definition residualEntitySliceKey (entities : list residualEntity) : string :=
  stringSliceKey (flat_map (fun e => [e.1; e.2]) entities).

(** [intersectStringSets] and [stringSetContainsAll] are [∩] and [⊆]. *)

(** ** The relation *)

Definition entity_of (effect : eventEffect) : residualEntity := (entityType effect, entityValue effect).

Definition addNeighbor (m : gmap residualEntity (gset string)) (effect : eventEffect) :
    gmap residualEntity (gset string) :=
  <[entity_of effect := {[errorCode effect]} ∪ default ∅ (m !! entity_of effect)]> m.

Definition neighborsOf (remaining : gset eventEffect) : gmap residualEntity (gset string) :=
  fold_left addNeighbor (elements remaining) ∅.

Definition residual_entity_le (a b : residualEntity) : Prop :=
  if decide (a.1 = b.1) then String.le a.2 b.2 else String.le a.1 b.1.
#[export] Instance residual_entity_le_dec a b : Decision (residual_entity_le a b).
Proof. unfold residual_entity_le. case_decide; apply _. Defined.

Definition sortedEntities (neighbors : gmap residualEntity (gset string)) : list residualEntity :=
  merge_sort residual_entity_le (map_to_list neighbors).*1.

(** ** The closure of the code sets *)

Record closureState := {
  codeSets : list (gset string);
  seenCodeSets : gset string;
  overflow : bool;
}.

Definition addCodeSet (st : closureState) (codes : gset string) : closureState :=
  if bool_decide (codes = ∅) then st
  else if bool_decide (sortedStringSetKey codes ∈ seenCodeSets st) then st
  else if maxRecoveryProjectionRectangles <=? length (codeSets st) then
    {| codeSets := codeSets st; seenCodeSets := seenCodeSets st; overflow := true |}
  else
    {| codeSets := codeSets st ++ [codes]; seenCodeSets := {[sortedStringSetKey codes]} ∪ seenCodeSets st;
       overflow := overflow st |}.

(** The code set at an index; the loops stay within bounds. *)
Definition code_set (st : closureState) (i : nat) : gset string := default ∅ (codeSets st !! i).

(** The inner loop of row [i] over [js]; [None] is the early return on overflow. *)
Fixpoint closeRow (st : closureState) (i : nat) (js : list nat) : option closureState :=
  match js with
  | [] => Some st
  | j :: rest =>
      let st' := addCodeSet st (code_set st i ∩ code_set st j) in
      if overflow st' then None else closeRow st' i rest
  end.

(** The outer loop; the outer [None] is running out of fuel. *)
Fixpoint closeSets (fuel : nat) (st : closureState) (i : nat) : option (option closureState) :=
  match fuel with
  | 0 => None
  | S fuel =>
      if i <? length (codeSets st) then
        match closeRow st i (seq 0 i) with
        | None => Some None
        | Some st' => closeSets fuel st' (S i)
        end
      else Some (Some st)
  end.

(** ** The rectangles *)

Definition neighbors_at (neighbors : gmap residualEntity (gset string)) (e : residualEntity) : gset string :=
  default ∅ (neighbors !! e).

Definition conceptOf (neighbors : gmap residualEntity (gset string)) (entities : list residualEntity)
    (codes : gset string) : option (string * residualRectangle) :=
  match filter (fun e => codes ⊆ neighbors_at neighbors e) entities with
  | [] => None
  | e0 :: rest =>
      let closedCodes := fold_left (fun cs e => cs ∩ neighbors_at neighbors e) rest (neighbors_at neighbors e0) in
      Some (sortedStringSetKey closedCodes, {| r_entities := e0 :: rest; r_errorCodes := sortedStringSet closedCodes |})
  end.

Definition rectangle_le (a b : residualRectangle) : Prop :=
  let ka := stringSliceKey (r_errorCodes a) in
  let kb := stringSliceKey (r_errorCodes b) in
  if decide (ka = kb) then String.le (residualEntitySliceKey (r_entities a)) (residualEntitySliceKey (r_entities b))
  else String.le ka kb.
#[export] Instance rectangle_le_dec a b : Decision (rectangle_le a b).
Proof. unfold rectangle_le. cbv zeta. case_decide; apply _. Defined.

Definition sortResidualRectangles (rectangles : list residualRectangle) : list residualRectangle :=
  merge_sort rectangle_le rectangles.

Section projection.
Context `{MapRange}.

Definition maximalResidualRectangles (remaining : gset eventEffect) : option (list residualRectangle * bool) :=
  let neighbors := neighborsOf remaining in
  let entities := sortedEntities neighbors in
  let st := fold_left (fun st e => addCodeSet st (neighbors_at neighbors e)) entities
              {| codeSets := []; seenCodeSets := ∅; overflow := false |} in
  match closeSets (S maxRecoveryProjectionRectangles) st 0 with
  | None => None
  | Some None => Some ([], true)
  | Some (Some st') =>
      let concepts : gmap string residualRectangle :=
        fold_left (fun m codes => match conceptOf neighbors entities codes with
                                  | Some (key, rectangle) => <[key := rectangle]> m
                                  | None => m
                                  end) (codeSets st') ∅ in
      Some (sortResidualRectangles (range concepts).*2, false)
  end.

Definition projectedErrorCodes (event : HealthEvent) (codes : list string) : list string :=
  if bool_decide (codes = [""%string]) && negb (bool_decide (""%string ∈ ErrorCode event)) then [] else codes.

Definition projectHealthEventRectangles (event : HealthEvent) (rectangles : list residualRectangle) :
    list HealthEvent :=
  map (fun rectangle =>
         with_entities_codes event
           (map (fun e => {| EntityType := e.1; EntityValue := e.2 |}) (r_entities rectangle))
           (projectedErrorCodes event (r_errorCodes rectangle))) rectangles.

Definition projectCheckWideHealthEvent (event : HealthEvent) (remaining : gset eventEffect) : list HealthEvent :=
  let codes := merge_sort String.le (map errorCode (elements remaining)) in
  [with_entities_codes event [] (projectedErrorCodes event codes)].

(** [None] is running out of fuel. *)
Definition ProjectHealthEvent (ctx : option eventCoverage) (event : HealthEvent) : option (list HealthEvent) :=
  match ctx with
  | None => Some [event]
  | Some coverage =>
      if negb (projected coverage) || bool_decide (remaining coverage = ∅) then Some [event]
      else if checkWide coverage then Some (projectCheckWideHealthEvent event (remaining coverage))
      else
        match maximalResidualRectangles (remaining coverage) with
        | None => None
        | Some (_, true) => Some [event]
        | Some (rectangles, false) => Some (projectHealthEventRectangles event rectangles)
        end
  end.

End projection.

(** ** Keys of sets *)

Lemma sortedStringSet_spec s c : c ∈ sortedStringSet s <-> c ∈ s.
Proof. unfold sortedStringSet. by rewrite merge_sort_Permutation, elem_of_elements. Qed.

Lemma sortedStringSetKey_inj s t : sortedStringSetKey s = sortedStringSetKey t -> s = t.
Proof.
  intros Hk%frames_inj. apply set_eq. intros c. by rewrite <- !sortedStringSet_spec, Hk.
Qed.

(** ** The relation *)

Definition effect (e : residualEntity) (c : string) : eventEffect :=
  {| entityType := e.1; entityValue := e.2; errorCode := c |}.

Lemma addNeighbor_spec m x e c :
  c ∈ neighbors_at (addNeighbor m x) e <-> x = effect e c \/ c ∈ neighbors_at m e.
Proof.
  unfold neighbors_at, addNeighbor. destruct x as [t v d], e as [t' v']. unfold entity_of, effect. cbn.
  destruct (decide ((t, v) = (t', v'))) as [[= -> ->]|Hne].
  - rewrite lookup_insert_eq. cbn. rewrite elem_of_union, elem_of_singleton. naive_solver.
  - rewrite lookup_insert_ne by done. naive_solver.
Qed.

Lemma neighborsOf_spec rem e c : c ∈ neighbors_at (neighborsOf rem) e <-> effect e c ∈ rem.
Proof.
  unfold neighborsOf. rewrite <- (elem_of_elements rem).
  assert (Hgen : forall l m, c ∈ neighbors_at (fold_left addNeighbor l m) e <-> effect e c ∈ l \/ c ∈ neighbors_at m e).
  { induction l as [|x l IH]; intros m; cbn [fold_left].
    - split; [by right|]. intros [?%not_elem_of_nil|?]; done.
    - rewrite IH, addNeighbor_spec, elem_of_cons. naive_solver. }
  rewrite Hgen. unfold neighbors_at. rewrite lookup_empty. cbn. set_solver.
Qed.

Lemma neighborsOf_dom rem e : is_Some (neighborsOf rem !! e) <-> exists c, effect e c ∈ rem.
Proof.
  unfold neighborsOf. setoid_rewrite <- (elem_of_elements rem).
  assert (Hgen : forall l m, is_Some (fold_left addNeighbor l m !! e) <->
    (exists c, effect e c ∈ l) \/ is_Some (m !! e)).
  { induction l as [|x l IH]; intros m; cbn [fold_left].
    - split; [by right|]. intros [[c ?%not_elem_of_nil]|?]; done.
    - rewrite IH. setoid_rewrite elem_of_cons. unfold addNeighbor.
      destruct (decide (entity_of x = e)) as [<-|Hne].
      + rewrite lookup_insert_eq. split; [|intros _; right; by eexists].
        intros _. left. exists (errorCode x). left. by destruct x.
      + rewrite lookup_insert_ne by done. split; [intros [[c ?]|?]; eauto|].
        intros [[c [Hc|?]]|?]; eauto. exfalso. apply Hne. rewrite <- Hc. by destruct e. }
  rewrite Hgen, lookup_empty. split; [intros [?|[? ?]]; [done|done]|auto].
Qed.

Lemma elem_of_sortedEntities rem e : e ∈ sortedEntities (neighborsOf rem) <-> exists c, effect e c ∈ rem.
Proof.
  unfold sortedEntities. rewrite merge_sort_Permutation, list_elem_of_fmap, <- neighborsOf_dom. split.
  - intros ([e' s] & -> & Hin%elem_of_map_to_list). by eexists.
  - intros [s Hs]. exists (e, s). split; [done|]. by apply elem_of_map_to_list.
Qed.

(** ** The closure loop *)

Record closure_inv (st : closureState) : Prop := {
  inv_bound : length (codeSets st) <= maxRecoveryProjectionRectangles;
  inv_seen k : k ∈ seenCodeSets st <-> exists s, s ∈ codeSets st /\ sortedStringSetKey s = k;
  inv_nonempty s : s ∈ codeSets st -> s <> ∅;
  inv_NoDup : NoDup (codeSets st) }.

Lemma addCodeSet_spec st codes :
  closure_inv st ->
  closure_inv (addCodeSet st codes) /\
  (exists l, codeSets (addCodeSet st codes) = codeSets st ++ l /\ (l = [] \/ l = [codes] /\ codes <> ∅)) /\
  (overflow (addCodeSet st codes) = false -> codes = ∅ \/ codes ∈ codeSets (addCodeSet st codes)).
Proof.
  intros Hinv. unfold addCodeSet. case_bool_decide as Hempty.
  { split; [done|]. split; [exists []; rewrite app_nil_r; auto|auto]. }
  case_bool_decide as Hseen.
  { split; [done|]. split; [exists []; rewrite app_nil_r; auto|]. intros _. right.
    apply (inv_seen _ Hinv) in Hseen as (s & Hs & Hk). by apply sortedStringSetKey_inj in Hk as ->. }
  destruct (_ <=? _) eqn:Hlen.
  { split; [|split; [exists []; cbn; rewrite app_nil_r; auto|done]].
    destruct Hinv. by split. }
  apply Nat.leb_gt in Hlen. cbn [codeSets overflow]. split; [|split; [exists [codes]; auto|]].
  - destruct Hinv as [H1 H2 H3 H4]. split; cbn [codeSets seenCodeSets].
    + rewrite length_app. cbn. lia.
    + intros k. rewrite elem_of_union, elem_of_singleton, H2. setoid_rewrite elem_of_app.
      setoid_rewrite list_elem_of_singleton. naive_solver.
    + intros s [Hs| ->%list_elem_of_singleton]%elem_of_app; auto.
    + apply NoDup_app. split; [done|]. split; [|apply NoDup_singleton].
      intros s Hs ->%list_elem_of_singleton. apply Hseen, H2. eauto.
  - intros _. right. apply elem_of_app. right. left.
Qed.

(** What a run of the loops keeps: the sets found stay in place, and every new one
    has the properties that intersections preserve. *)
Definition extends (P : gset string -> Prop) (st st' : closureState) : Prop :=
  closure_inv st' /\ (exists l, codeSets st' = codeSets st ++ l) /\
  ((forall s, s ∈ codeSets st -> P s) -> forall s, s ∈ codeSets st' -> P s).

Lemma extends_trans P st1 st2 st3 : extends P st1 st2 -> extends P st2 st3 -> extends P st1 st3.
Proof.
  intros (_ & [l1 E1] & H1) (Hi & [l2 E2] & H2). split; [done|]. split; [|auto].
  exists (l1 ++ l2). by rewrite E2, E1, app_assoc.
Qed.

Lemma code_set_elem st i : i < length (codeSets st) -> code_set st i ∈ codeSets st.
Proof.
  intros Hi. unfold code_set. destruct (lookup_lt_is_Some_2 _ _ Hi) as [s Hs]. rewrite Hs. by eapply list_elem_of_lookup_2.
Qed.

Lemma code_set_extends P st st' i : extends P st st' -> i < length (codeSets st) -> code_set st' i = code_set st i.
Proof. intros (_ & [l E] & _) Hi. unfold code_set. by rewrite E, lookup_app_l. Qed.

Lemma addCodeSet_extends P st a b :
  closure_inv st -> a < length (codeSets st) -> b < length (codeSets st) ->
  (forall s t, P s -> P t -> s ∩ t <> ∅ -> P (s ∩ t)) ->
  extends P st (addCodeSet st (code_set st a ∩ code_set st b)).
Proof.
  intros Hinv Ha Hb HP. destruct (addCodeSet_spec st (code_set st a ∩ code_set st b) Hinv) as (H1 & (l & E & Hl) & _).
  split; [done|]. split; [eauto|]. intros Hall s. rewrite E. intros [Hs|Hs]%elem_of_app; [auto|].
  destruct Hl as [->|[-> Hne]]; [by apply not_elem_of_nil in Hs|]. apply list_elem_of_singleton in Hs as ->.
  apply HP; [apply Hall, code_set_elem; done..|done].
Qed.

Definition meets (st : closureState) (a b : nat) : Prop :=
  code_set st a ∩ code_set st b = ∅ \/ code_set st a ∩ code_set st b ∈ codeSets st.

Lemma meets_extends P st st' a b :
  extends P st st' -> a < length (codeSets st) -> b < length (codeSets st) -> meets st a b -> meets st' a b.
Proof.
  intros He Ha Hb Hm. unfold meets. rewrite !(code_set_extends P st st') by done.
  destruct He as (_ & [l E] & _). destruct Hm as [?|?]; [by left|right]. rewrite E. apply elem_of_app. by left.
Qed.

Lemma closeRow_spec P i : (forall s t, P s -> P t -> s ∩ t <> ∅ -> P (s ∩ t)) -> forall js st st',
  closure_inv st -> i < length (codeSets st) -> Forall (fun j => j < length (codeSets st)) js ->
  closeRow st i js = Some st' ->
  extends P st st' /\ (forall j, j ∈ js -> meets st' i j).
Proof.
  intros HP. induction js as [|j js IH]; intros st st' Hinv Hi Hjs; cbn [closeRow].
  { intros [= <-]. split; [|by intros j ?%not_elem_of_nil]. split; [done|]. split; [exists []; by rewrite app_nil_r|auto]. }
  inversion_clear Hjs as [|? ? Hj Hjs'].
  pose proof (addCodeSet_extends P st i j Hinv Hi Hj HP) as Hext.
  destruct (addCodeSet_spec st (code_set st i ∩ code_set st j) Hinv) as (_ & (l & E & _) & Hadd).
  set (st1 := addCodeSet st (code_set st i ∩ code_set st j)) in *.
  destruct (overflow st1) eqn:Hov; [done|]. intros Hrow.
  assert (Hlen : length (codeSets st) <= length (codeSets st1)) by (rewrite E, length_app; lia).
  destruct (IH st1 st') as [Hext' Hm]; [by destruct Hext|lia| |done|].
  { eapply Forall_impl; [exact Hjs'|]. cbn. lia. }
  split; [by eapply extends_trans|]. intros j' [->|Hj']%elem_of_cons; [|by apply Hm].
  apply (meets_extends P st1 st'); [done|lia..|]. unfold meets. rewrite !(code_set_extends P st st1) by done. by apply Hadd.
Qed.

Definition closed_below (st : closureState) (i : nat) : Prop := forall a b, b < a -> a < i -> meets st a b.

Lemma closeSets_spec P : (forall s t, P s -> P t -> s ∩ t <> ∅ -> P (s ∩ t)) -> forall fuel st i st',
  closure_inv st -> i <= length (codeSets st) -> closed_below st i ->
  closeSets fuel st i = Some (Some st') ->
  extends P st st' /\ closed_below st' (length (codeSets st')).
Proof.
  intros HP. induction fuel as [|fuel IH]; intros st i st' Hinv Hi Hcl; cbn [closeSets]; [done|].
  destruct (i <? length (codeSets st)) eqn:Hlt.
  - apply Nat.ltb_lt in Hlt. destruct (closeRow st i (seq 0 i)) as [st1|] eqn:Hrow; [|done]. intros Hrest.
    destruct (closeRow_spec P i HP (seq 0 i) st st1) as [Hext Hm]; [done|lia| |done|].
    { apply Forall_forall. intros j Hj%elem_of_seq. lia. }
    assert (Hlen : length (codeSets st) <= length (codeSets st1)).
    { destruct Hext as (_ & [l E] & _). rewrite E, length_app. lia. }
    destruct (IH st1 (S i) st') as [Hext' Hcl']; [by destruct Hext|lia| |done|].
    + intros a b Hb Ha. destruct (decide (a = i)) as [->|Hne].
      * apply Hm. apply elem_of_seq. lia.
      * apply (meets_extends P st st1); [done|lia..|]. apply Hcl; lia.
    + split; [by eapply extends_trans|done].
  - apply Nat.ltb_ge in Hlt. intros [= <-]. split.
    + split; [done|]. split; [exists []; by rewrite app_nil_r|auto].
    + intros a b Hb Ha. apply Hcl; lia.
Qed.

(** The loop ends within the fuel: there are never more than 256 sets. *)
Lemma closeSets_total : forall fuel st i,
  closure_inv st -> i <= length (codeSets st) -> maxRecoveryProjectionRectangles < fuel + i ->
  is_Some (closeSets fuel st i).
Proof.
  induction fuel as [|fuel IH]; intros st i Hinv Hi Hf; cbn [closeSets].
  { pose proof (inv_bound _ Hinv). lia. }
  destruct (i <? length (codeSets st)) eqn:Hlt; [|by eexists]. apply Nat.ltb_lt in Hlt.
  destruct (closeRow st i (seq 0 i)) as [st1|] eqn:Hrow; [|by eexists].
  destruct (closeRow_spec (fun _ => True) i (fun _ _ _ _ _ => I) (seq 0 i) st st1) as [Hext _]; [done|done| |done|].
  { apply Forall_forall. intros j Hj%elem_of_seq. lia. }
  destruct Hext as (Hinv1 & [l E] & _). apply IH; [done| |lia]. rewrite E, length_app. lia.
Qed.

(** ** Meets of the code sets of entities *)

Section concepts.
Context (rem : gset eventEffect).

Notation N := (neighbors_at (neighborsOf rem)).
Notation ents := (sortedEntities (neighborsOf rem)).

(** [s] holds the codes common to the entities of [E]. *)
Definition meet_of (E : list residualEntity) (s : gset string) : Prop :=
  E <> [] /\ (forall e, e ∈ E -> e ∈ ents) /\ forall c, c ∈ s <-> forall e, e ∈ E -> c ∈ N e.

Definition is_meet (s : gset string) : Prop := exists E, meet_of E s.

Lemma meet_inter s t : is_meet s -> is_meet t -> s ∩ t <> ∅ -> is_meet (s ∩ t).
Proof.
  intros (E1 & H1 & H2 & H3) (E2 & H4 & H5 & H6) _. exists (E1 ++ E2). split; [by destruct E1|]. split.
  - intros e [?|?]%elem_of_app; auto.
  - intros c. rewrite elem_of_intersection, H3, H6. setoid_rewrite elem_of_app. naive_solver.
Qed.

Lemma meet_single e : e ∈ ents -> meet_of [e] (N e).
Proof.
  intros He. split; [done|]. split; [by intros e' ->%list_elem_of_singleton|]. intros c.
  split; [by intros ? e' ->%list_elem_of_singleton|]. intros Hc. apply Hc. left.
Qed.

Definition initial : closureState :=
  fold_left (fun st e => addCodeSet st (N e)) ents {| codeSets := []; seenCodeSets := ∅; overflow := false |}.

(** The state after the first loop. *)
Record started (st : closureState) (es : list residualEntity) : Prop := {
  st_inv : closure_inv st;
  st_meets s : s ∈ codeSets st -> is_meet s;
  st_full : overflow st = true -> length (codeSets st) = maxRecoveryProjectionRectangles;
  st_found e : overflow st = false -> e ∈ es -> N e ∈ codeSets st }.

Lemma entity_nonempty e : e ∈ ents -> N e <> ∅.
Proof.
  intros [c Hc]%elem_of_sortedEntities Hn. apply neighborsOf_spec in Hc. rewrite Hn in Hc. by apply not_elem_of_empty in Hc.
Qed.

Lemma addCodeSet_overflow st codes :
  overflow st = true -> overflow (addCodeSet st codes) = true.
Proof. intros Ho. unfold addCodeSet. by repeat case_match. Qed.

Lemma addCodeSet_full st codes :
  closure_inv st -> (overflow st = true -> length (codeSets st) = maxRecoveryProjectionRectangles) ->
  overflow (addCodeSet st codes) = true -> length (codeSets (addCodeSet st codes)) = maxRecoveryProjectionRectangles.
Proof.
  intros Hinv Hfull. unfold addCodeSet. case_bool_decide; [done|]. case_bool_decide; [done|].
  destruct (_ <=? _) eqn:Hlen; cbn [overflow codeSets].
  - apply Nat.leb_le in Hlen. pose proof (inv_bound _ Hinv). lia.
  - intros Ho. apply Nat.leb_gt in Hlen. specialize (Hfull Ho). lia.
Qed.

Lemma initial_started : started initial ents.
Proof.
  unfold initial. assert (Hgen : forall es2 st es1, started st es1 -> (forall e, e ∈ es2 -> e ∈ ents) ->
    started (fold_left (fun st e => addCodeSet st (N e)) es2 st) (es1 ++ es2)).
  { induction es2 as [|e es2 IH]; intros st es1 Hs Hin; cbn [fold_left]; [by rewrite app_nil_r|].
    change (e :: es2) with ([e] ++ es2). rewrite app_assoc. apply IH; [|intros x Hx; apply Hin; by right].
    assert (He : e ∈ ents) by (apply Hin; left).
    destruct (addCodeSet_spec st (N e) (st_inv _ _ Hs)) as (H1 & (l & E & Hl) & H3). split; [done| | |].
    - intros s. rewrite E. intros [?|Hs']%elem_of_app; [by apply (st_meets _ _ Hs)|].
      destruct Hl as [->|[-> _]]; [by apply not_elem_of_nil in Hs'|]. apply list_elem_of_singleton in Hs' as ->.
      exists [e]. by apply meet_single.
    - apply addCodeSet_full; [apply (st_inv _ _ Hs)|apply (st_full _ _ Hs)].
    - intros x Ho [Hx|Hx]%elem_of_app.
      + rewrite E. apply elem_of_app. left. apply (st_found _ _ Hs); [|done].
        destruct (overflow st) eqn:Hos; [|done]. by rewrite addCodeSet_overflow in Ho.
      + apply list_elem_of_singleton in Hx as ->. destruct (H3 Ho) as [Hz|?]; [|done].
        by apply entity_nonempty in He. }
  apply (Hgen ents _ []); [|done]. split; cbn; [split; cbn|..].
  - unfold maxRecoveryProjectionRectangles. lia.
  - intros k. split; [by intros ?%not_elem_of_empty|]. by intros (s & ?%not_elem_of_nil & _).
  - by intros s ?%not_elem_of_nil.
  - constructor.
  - by intros s ?%not_elem_of_nil.
  - done.
  - by intros e _ ?%not_elem_of_nil.
Qed.

(** A run that overflowed in the first loop is abandoned in the second. *)
Lemma closeSets_overflow st st' fuel :
  closure_inv st -> overflow st = true -> 2 <= length (codeSets st) -> closeSets (S (S fuel)) st 0 = Some (Some st') -> False.
Proof.
  intros Hinv Ho Hlen. cbn [closeSets]. rewrite (proj2 (Nat.ltb_lt 0 _)) by lia. cbn [seq closeRow].
  rewrite (proj2 (Nat.ltb_lt 1 _)) by lia. cbn [seq closeRow]. by rewrite addCodeSet_overflow.
Qed.

(** More code sets than the limit, each the non-empty set of codes that remain for
    all entities of some group. *)
Definition crowded : Prop :=
  exists sets : list (gset string), NoDup sets /\ maxRecoveryProjectionRectangles < length sets /\
    forall codes, codes ∈ sets -> codes <> ∅ /\ exists E, E <> [] /\ forall c, c ∈ codes <-> forall e, e ∈ E -> effect e c ∈ rem.

(** Overflow is only reported when the sets kept and the one refused are too many. *)
Lemma addCodeSet_crowded st codes :
  closure_inv st -> (forall s, s ∈ codeSets st -> is_meet s) -> (codes <> ∅ -> is_meet codes) ->
  overflow st = false -> overflow (addCodeSet st codes) = true -> crowded.
Proof.
  intros Hinv Hm Hc Ho. unfold addCodeSet. case_bool_decide as Hne; [by rewrite Ho|]. case_bool_decide as Hseen; [by rewrite Ho|].
  destruct (_ <=? _) eqn:Hlen; cbn [overflow]; [|by rewrite Ho]. intros _. apply Nat.leb_le in Hlen.
  exists (codeSets st ++ [codes]). split; [|split; [rewrite length_app; cbn; lia|]].
  - apply NoDup_app. split; [apply (inv_NoDup _ Hinv)|]. split; [|apply NoDup_singleton].
    intros s Hs ->%list_elem_of_singleton. apply Hseen, (inv_seen _ Hinv). eauto.
  - intros s Hs. assert (Hs' : is_meet s /\ s <> ∅).
    { apply elem_of_app in Hs as [Hs| ->%list_elem_of_singleton]; [|auto]. split; [auto|by apply (inv_nonempty _ Hinv)]. }
    destruct Hs' as [(E & HE & _ & Hin) ?]. split; [done|]. exists E. split; [done|]. intros c. rewrite Hin. by setoid_rewrite neighborsOf_spec.
Qed.

Lemma closeRow_crowded i js : forall st,
  closure_inv st -> (forall s, s ∈ codeSets st -> is_meet s) -> i < length (codeSets st) ->
  Forall (fun j => j < length (codeSets st)) js -> overflow st = false ->
  match closeRow st i js with None => crowded | Some st' => overflow st' = false end.
Proof.
  induction js as [|j js IH]; intros st Hinv Hm Hi Hjs Ho; cbn [closeRow]; [done|]. inversion_clear Hjs as [|? ? Hj Hjs'].
  destruct (addCodeSet_extends is_meet st i j Hinv Hi Hj meet_inter) as (Hinv1 & [l E] & Hm1).
  destruct (overflow (addCodeSet st (code_set st i ∩ code_set st j))) eqn:Hov.
  - eapply addCodeSet_crowded; [exact Hinv|exact Hm| |exact Ho|exact Hov]. intros Hne. apply meet_inter; [apply Hm, code_set_elem; done..|done].
  - apply IH; [done|auto|rewrite E, length_app; lia| |done]. rewrite E, length_app. eapply Forall_impl; [exact Hjs'|]. cbn. lia.
Qed.

Lemma closeSets_crowded fuel : forall st i,
  closure_inv st -> (forall s, s ∈ codeSets st -> is_meet s) -> overflow st = false -> closeSets fuel st i = Some None -> crowded.
Proof.
  induction fuel as [|fuel IH]; intros st i Hinv Hm Ho; cbn [closeSets]; [done|].
  destruct (i <? length (codeSets st)) eqn:Hlt; [|done]. apply Nat.ltb_lt in Hlt.
  assert (Hjs : Forall (fun j => j < length (codeSets st)) (seq 0 i)) by (apply Forall_forall; intros j Hj%elem_of_seq; lia).
  pose proof (closeRow_crowded i (seq 0 i) st Hinv Hm Hlt Hjs Ho) as Hrow.
  destruct (closeRow st i (seq 0 i)) as [st1|] eqn:Hr; [|done].
  destruct (closeRow_spec is_meet i meet_inter (seq 0 i) st st1 Hinv Hlt Hjs Hr) as [(Hinv1 & _ & Hm1) _].
  apply IH; auto.
Qed.

Lemma initial_crowded : overflow initial = true -> crowded.
Proof.
  unfold initial. assert (Hgen : forall es st, (forall e, e ∈ es -> e ∈ ents) -> closure_inv st -> (forall s, s ∈ codeSets st -> is_meet s) ->
    (overflow st = true -> crowded) -> overflow (fold_left (fun st e => addCodeSet st (N e)) es st) = true -> crowded).
  { induction es as [|e es IH]; intros st Hin Hinv Hm Ho; cbn [fold_left]; [done|].
    assert (He : is_meet (N e)) by (exists [e]; apply meet_single, Hin; left).
    destruct (addCodeSet_spec st (N e) Hinv) as (Hinv1 & (l & E & Hl) & _). apply IH; [intros x Hx; apply Hin; by right|done| |].
    - intros s. rewrite E. intros [?|Hs]%elem_of_app; [auto|]. destruct Hl as [->|[-> _]]; [by apply not_elem_of_nil in Hs|].
      by apply list_elem_of_singleton in Hs as ->.
    - intros Ho1. destruct (overflow st) eqn:Hos; [auto|]. eapply (addCodeSet_crowded st (N e)); auto. }
  apply Hgen; cbn; [done| |by intros s ?%not_elem_of_nil|done]. split; cbn.
  - unfold maxRecoveryProjectionRectangles. lia.
  - intros k. split; [by intros ?%not_elem_of_empty|]. by intros (s & ?%not_elem_of_nil & _).
  - by intros s ?%not_elem_of_nil.
  - constructor.
Qed.

(** The final code sets are exactly the non-empty meets. *)
Lemma final_sets st' :
  closeSets (S maxRecoveryProjectionRectangles) initial 0 = Some (Some st') ->
  closure_inv st' /\ forall s, s ∈ codeSets st' <-> is_meet s /\ s <> ∅.
Proof.
  intros Hrun. destruct initial_started as [Hinv Hmeets Hfull Hfound].
  assert (Ho : overflow initial = false).
  { destruct (overflow initial) eqn:Ho; [|done]. exfalso. eapply closeSets_overflow; [exact Hinv|exact Ho| |exact Hrun].
    rewrite Hfull by done. unfold maxRecoveryProjectionRectangles. lia. }
  destruct (closeSets_spec is_meet meet_inter _ initial 0 st' Hinv ltac:(lia) ltac:(intros a b ? ?; lia) Hrun)
    as [(Hinv' & [l E] & Hall) Hcl].
  split; [done|]. intros s. split.
  { intros Hs. split; [by apply Hall|by apply (inv_nonempty _ Hinv')]. }
  intros [[E0 Hm] Hne]. revert s Hm Hne. induction E0 as [|e E0 IH]; intros s (H1 & H2 & H3) Hne; [done|].
  assert (He : N e ∈ codeSets st').
  { rewrite E. apply elem_of_app. left. apply Hfound; [done|]. apply H2. left. }
  destruct E0 as [|e2 E0].
  { assert (s = N e) as ->; [|done]. apply set_eq. intros c. rewrite H3. split; [intros Hc; apply Hc; left|].
    by intros ? x ->%list_elem_of_singleton. }
  set (t := fold_right (fun x s => N x ∩ s) (N e2) E0).
  assert (Ht : forall c, c ∈ t <-> forall x, x ∈ e2 :: E0 -> c ∈ N x).
  { intros c. unfold t. clear. induction E0 as [|x E0 IH]; cbn [fold_right].
    - split; [by intros ? x ->%list_elem_of_singleton|]. intros Hc. apply Hc. left.
    - rewrite elem_of_intersection, IH. setoid_rewrite elem_of_cons. setoid_rewrite elem_of_cons. naive_solver. }
  assert (Hst : s = N e ∩ t).
  { apply set_eq. intros c. rewrite elem_of_intersection, H3, Ht. split.
    - intros Hc. split; [apply Hc; left|]. intros x Hx. apply Hc. by right.
    - intros [? ?] x [->|?]%elem_of_cons; auto. }
  assert (Htin : t ∈ codeSets st').
  { apply IH; [split; [done|split; [intros x Hx; apply H2; by right|done]]|].
    intros Hz. apply Hne. rewrite Hst, Hz. apply intersection_empty_r_L. }
  apply list_elem_of_lookup in He as [a Ha]. apply list_elem_of_lookup in Htin as [b Hb].
  assert (Hca : code_set st' a = N e) by (unfold code_set; by rewrite Ha).
  assert (Hcb : code_set st' b = t) by (unfold code_set; by rewrite Hb).
  pose proof (lookup_lt_Some _ _ _ Ha) as Hla. pose proof (lookup_lt_Some _ _ _ Hb) as Hlb.
  destruct (Nat.lt_trichotomy a b) as [Hab|[Hab|Hab]].
  - destruct (Hcl b a Hab Hlb) as [Hz|Hin]; rewrite Hca, Hcb in *; rewrite (intersection_comm_L t) in *; rewrite <- Hst in *; done.
  - subst b. rewrite Ha in Hb. injection Hb as Hb. rewrite Hst, Hb. rewrite (intersection_idemp_L t).
    rewrite <- Hb. by eapply list_elem_of_lookup_2.
  - destruct (Hcl a b Hab Hla) as [Hz|Hin]; rewrite Hca, Hcb in *; rewrite <- Hst in *; done.
Qed.

(** ** The rectangle of a meet *)

Lemma fold_inter es s c :
  c ∈ fold_left (fun cs e => cs ∩ N e) es s <-> c ∈ s /\ forall e, e ∈ es -> c ∈ N e.
Proof.
  revert s. induction es as [|e es IH]; intros s; cbn [fold_left].
  - split; [|by intros [? _]]. intros ?. split; [done|]. by intros e ?%not_elem_of_nil.
  - rewrite IH, elem_of_intersection. setoid_rewrite elem_of_cons. naive_solver.
Qed.

Definition rectangle_of (s : gset string) : residualRectangle :=
  {| r_entities := filter (fun e => s ⊆ N e) ents; r_errorCodes := sortedStringSet s |}.

Lemma conceptOf_meet s :
  is_meet s -> conceptOf (neighborsOf rem) ents s = Some (sortedStringSetKey s, rectangle_of s) /\
               r_entities (rectangle_of s) <> [].
Proof.
  intros (E & HE & Hin & Hs). unfold conceptOf, rectangle_of.
  assert (Hsub : forall e, e ∈ E -> e ∈ filter (fun e => s ⊆ N e) ents).
  { intros e He. apply list_elem_of_filter. split; [|auto]. intros c Hc. by apply Hs. }
  destruct (filter (fun e => s ⊆ N e) ents) as [|e0 rest] eqn:Hf.
  { exfalso. destruct E as [|e E]; [done|]. apply (not_elem_of_nil e). apply Hsub. left. }
  assert (Hcl : fold_left (fun cs e => cs ∩ N e) rest (N e0) = s).
  { apply set_eq. intros c. rewrite fold_inter. split.
    - intros [H0 Hr]. apply Hs. intros e He. apply Hsub, elem_of_cons in He as [->|?]; auto.
    - intros Hc. assert (Hall : forall e, e ∈ e0 :: rest -> c ∈ N e).
      { intros e He. rewrite <- Hf in He. apply list_elem_of_filter in He as [Hsube _]. by apply Hsube. }
      split; [apply Hall; left|]. intros e He. apply Hall. by right. }
  cbv zeta. rewrite Hcl. by split.
Qed.

Definition concept_map (sets : list (gset string)) : gmap string residualRectangle :=
  fold_left (fun m codes => match conceptOf (neighborsOf rem) ents codes with
                            | Some (key, rectangle) => <[key := rectangle]> m
                            | None => m
                            end) sets ∅.

Lemma concept_map_spec sets key r :
  (forall s, s ∈ sets -> is_meet s) ->
  concept_map sets !! key = Some r <-> exists s, s ∈ sets /\ key = sortedStringSetKey s /\ r = rectangle_of s.
Proof.
  intros Hm. unfold concept_map. 
  assert (Hgen : forall l (m : gmap string residualRectangle), (forall s, s ∈ l -> is_meet s) ->
    fold_left (fun m codes => match conceptOf (neighborsOf rem) ents codes with
                              | Some (key, rectangle) => <[key := rectangle]> m
                              | None => m end) l m !! key = Some r <->
    (exists s, s ∈ l /\ key = sortedStringSetKey s /\ r = rectangle_of s) \/
    (m !! key = Some r /\ forall s, s ∈ l -> key <> sortedStringSetKey s)).
  { induction l as [|s l IH]; intros m Hl; cbn [fold_left].
    - split; [intros ?; right; split; [done|by intros s ?%not_elem_of_nil]|].
      intros [(s & ?%not_elem_of_nil & _)|[? _]]; done.
    - destruct (conceptOf_meet s (Hl s ltac:(left))) as [-> _].
      rewrite IH by (intros t Ht; apply Hl; by right). setoid_rewrite elem_of_cons.
      destruct (decide (key = sortedStringSetKey s)) as [->|Hne].
      + rewrite lookup_insert_eq. split.
        * intros [(t & ? & ? & ?)|[[= <-] _]]; left; eauto 6.
        * intros [(t & [->|Ht] & Hk & ->)|[_ Hn]]; [|left; eauto|exfalso; by apply (Hn s); [left|]].
          destruct (decide (s ∈ l)); [left; eauto|]. right. split; [done|]. intros t Ht Hk'.
          apply sortedStringSetKey_inj in Hk' as ->. done.
      + rewrite lookup_insert_ne by done. naive_solver. }
  rewrite Hgen by done. rewrite lookup_empty. naive_solver.
Qed.

End concepts.

Section theorems.
Context {MR : MapRange} {MRL : MapRangeLaws}.

Lemma maximalResidualRectangles_unfold rem :
  maximalResidualRectangles rem =
  match closeSets (S maxRecoveryProjectionRectangles) (initial rem) 0 with
  | None => None
  | Some None => Some ([], true)
  | Some (Some st') => Some (sortResidualRectangles (range (concept_map rem (codeSets st'))).*2, false)
  end.
Proof. done. Qed.

(** The closure of the code sets terminates: with one round more than the limit
    on the number of sets, the search for rectangles always returns, whatever the
    remaining effects are. *)
Theorem rectangle_search_terminates (rem : gset eventEffect) : is_Some (maximalResidualRectangles rem).
Proof.
  rewrite maximalResidualRectangles_unfold.
  destruct (closeSets_total (S maxRecoveryProjectionRectangles) (initial rem) 0) as [r ->];
    [apply initial_started|lia|lia|]. destruct r; by eexists.
Qed.

Lemma elem_of_rectangles rem rects :
  maximalResidualRectangles rem = Some (rects, false) ->
  NoDup rects /\ forall r, r ∈ rects <-> exists s, is_meet rem s /\ s <> ∅ /\ r = rectangle_of rem s.
Proof.
  rewrite maximalResidualRectangles_unfold.
  destruct (closeSets _ (initial rem) 0) as [[st'|]|] eqn:Hrun; [|done..]. intros [= <-].
  destruct (final_sets rem st' Hrun) as [_ Hsets].
  assert (Hm : forall s, s ∈ codeSets st' -> is_meet rem s) by (intros s Hs; by apply Hsets).
  unfold sortResidualRectangles. split.
  - rewrite merge_sort_Permutation. apply NoDup_fmap_2_strong.
    + intros [k1 r1] [k2 r2] H1%elem_of_range H2%elem_of_range E. cbn in E. subst r2.
      apply (concept_map_spec rem _ _ _ Hm) in H1 as (s1 & _ & -> & E1).
      apply (concept_map_spec rem _ _ _ Hm) in H2 as (s2 & _ & -> & E2).
      rewrite E1 in E2. apply (f_equal r_errorCodes) in E2. cbn in E2. unfold sortedStringSetKey. by rewrite E2.
    + eapply NoDup_fmap_1. apply NoDup_range.
  - intros r. rewrite merge_sort_Permutation, list_elem_of_fmap. split.
    + intros ([k r'] & -> & H%elem_of_range). apply (concept_map_spec rem _ _ _ Hm) in H as (s & Hs & _ & ->).
      apply Hsets in Hs as [? ?]. eauto.
    + intros (s & Hms & Hne & ->). exists (sortedStringSetKey s, rectangle_of rem s). split; [done|].
      apply elem_of_range. apply (concept_map_spec rem _ _ _ Hm). exists s. split; [|done]. by apply Hsets.
Qed.

Lemma rectangle_of_spec rem s e :
  e ∈ r_entities (rectangle_of rem s) <-> e ∈ sortedEntities (neighborsOf rem) /\ forall c, c ∈ s -> effect e c ∈ rem.
Proof.
  cbn [rectangle_of r_entities]. rewrite list_elem_of_filter. setoid_rewrite <- neighborsOf_spec. rewrite elem_of_subseteq. tauto.
Qed.

Lemma rectangles_concepts (rem : gset eventEffect) (rects : list residualRectangle) :
  maximalResidualRectangles rem = Some (rects, false) ->
  NoDup rects /\
  (forall r, r ∈ rects ->
     r_entities r <> [] /\ r_errorCodes r <> [] /\
     (forall e c, e ∈ r_entities r -> c ∈ r_errorCodes r -> effect e c ∈ rem) /\
     (forall e, (forall c, c ∈ r_errorCodes r -> effect e c ∈ rem) -> e ∈ r_entities r) /\
     (forall c, (forall e, e ∈ r_entities r -> effect e c ∈ rem) -> c ∈ r_errorCodes r)) /\
  (forall E C, E <> [] -> C <> [] -> (forall e c, e ∈ E -> c ∈ C -> effect e c ∈ rem) ->
     exists r, r ∈ rects /\ E ⊆ r_entities r /\ C ⊆ r_errorCodes r).
Proof.
  intros Hrun. destruct (elem_of_rectangles rem rects Hrun) as [Hnd Hin]. split; [done|]. split.
  - intros r (s & Hm & Hne & ->)%Hin. destruct (conceptOf_meet rem s Hm) as [_ Hents].
    assert (Hcodes : forall c, c ∈ r_errorCodes (rectangle_of rem s) <-> c ∈ s) by apply sortedStringSet_spec.
    setoid_rewrite Hcodes. setoid_rewrite rectangle_of_spec.
    destruct (set_choose_L s Hne) as [c0 Hc0].
    split; [done|]. split; [|split; [|split]].
    + intros Hz. apply (not_elem_of_nil c0). rewrite <- Hz. by apply Hcodes.
    + intros e c [_ He] Hc. by apply He.
    + intros e He. split; [|done]. apply elem_of_sortedEntities. eauto.
    + intros c Hc. destruct Hm as (E & _ & HE & Hs). apply Hs. intros e He. apply neighborsOf_spec, Hc.
      split; [by apply HE|]. intros c' Hc'. apply neighborsOf_spec. by apply Hs.
  - intros E C HE HC Hbox.
    destruct E as [|e0 E]; [done|]. destruct C as [|c0 C]; [done|].
    set (s := fold_left (fun cs e => cs ∩ neighbors_at (neighborsOf rem) e) E (neighbors_at (neighborsOf rem) e0)).
    assert (Hs : forall c, c ∈ s <-> forall e, e ∈ e0 :: E -> effect e c ∈ rem).
    { intros c. unfold s. rewrite fold_inter, neighborsOf_spec. setoid_rewrite neighborsOf_spec.
      setoid_rewrite elem_of_cons. naive_solver. }
    assert (HCs : forall c, c ∈ c0 :: C -> c ∈ s) by (intros c Hc; apply Hs; intros e He; by apply Hbox).
    assert (Hents : forall e, e ∈ e0 :: E -> e ∈ sortedEntities (neighborsOf rem)).
    { intros e He. apply elem_of_sortedEntities. exists c0. apply Hbox; [done|left]. }
    exists (rectangle_of rem s). split; [|split].
    + apply Hin. exists s. split; [|split; [|done]].
      * exists (e0 :: E). split; [done|]. split; [done|]. intros c. rewrite Hs. by setoid_rewrite neighborsOf_spec.
      * intros Hz. apply (not_elem_of_empty (C := gset string) c0). rewrite <- Hz. apply HCs. left.
    + intros e He. apply rectangle_of_spec. split; [by apply Hents|]. intros c Hc. by apply Hs.
    + intros c Hc. apply sortedStringSet_spec. by apply HCs.
Qed.

(** C19 The projection finds the formal concepts of the remaining effects: without
    overflow, every rectangle is non-empty, lies within the remaining effects and
    is maximal on both sides, no rectangle is repeated, and every group of entities
    and codes whose combinations all remain lies within one rectangle, so a rule
    about such a group is evaluated on an event that contains it. *)
Theorem rectangles_are_concepts (rem : gset eventEffect) (rects : list residualRectangle) :
  maximalResidualRectangles rem = Some (rects, false) ->
  NoDup rects /\
  (forall r, r ∈ rects ->
     r_entities r <> [] /\ r_errorCodes r <> [] /\
     (forall e c, e ∈ r_entities r -> c ∈ r_errorCodes r -> effect e c ∈ rem) /\
     (forall e, (forall c, c ∈ r_errorCodes r -> effect e c ∈ rem) -> e ∈ r_entities r) /\
     (forall c, (forall e, e ∈ r_entities r -> effect e c ∈ rem) -> c ∈ r_errorCodes r)) /\
  (forall E C, E <> [] -> C <> [] -> (forall e c, e ∈ E -> c ∈ C -> effect e c ∈ rem) ->
     exists r, r ∈ rects /\ E ⊆ r_entities r /\ C ⊆ r_errorCodes r).
Proof. apply rectangles_concepts. Qed.

(** ** Projected events *)

Lemma projected_codes event codes : codes <> [] ->
  event_codes (with_entities_codes event [] (projectedErrorCodes event codes)) = codes.
Proof.
  intros Hne. unfold event_codes, projectedErrorCodes. cbn [with_entities_codes ErrorCode].
  destruct (bool_decide (codes = [""%string])) eqn:Hb; cbn [andb].
  - apply bool_decide_eq_true in Hb as ->. by destruct (negb _).
  - by destruct codes.
Qed.

(** The keys of the projected events, taken together. *)
Lemma projected_keys event r k :
  r_entities r <> [] -> r_errorCodes r <> [] ->
  k ∈ createEventKeys (with_entities_codes event (map (fun e => {| EntityType := e.1; EntityValue := e.2 |}) (r_entities r))
                         (projectedErrorCodes event (r_errorCodes r))) <->
  key_ident k = event_ident event /\ key_entity k ∈ r_entities r /\ kErrorCode k ∈ r_errorCodes r.
Proof.
  intros He Hc. rewrite elem_of_createEventKeys.
  assert (Hcodes : event_codes (with_entities_codes event (map (fun e => {| EntityType := e.1; EntityValue := e.2 |}) (r_entities r))
    (projectedErrorCodes event (r_errorCodes r))) = r_errorCodes r) by exact (projected_codes event _ Hc).
  rewrite Hcodes. apply and_iff_compat_l. apply and_iff_compat_r. unfold event_entities. cbn [with_entities_codes EntitiesImpacted].
  destruct (r_entities r) as [|e0 es]; [done|].
  cbn [map]. rewrite elem_of_cons, list_elem_of_fmap, elem_of_cons. cbn. destruct e0 as [t v]. cbn. apply ZifyClasses.or_morph; [done|].
  split.
  - intros (x & -> & Hx). apply list_elem_of_fmap in Hx as ([t' v'] & -> & Hin). done.
  - intros Hin. exists {| EntityType := (key_entity k).1; EntityValue := (key_entity k).2 |}. split; [done|].
    apply list_elem_of_fmap. exists (key_entity k). done.
Qed.

Lemma overflow_crowded rem rects : maximalResidualRectangles rem = Some (rects, true) -> crowded rem.
Proof.
  rewrite maximalResidualRectangles_unfold. destruct (closeSets _ (initial rem) 0) as [[st'|]|] eqn:Hrun; [done| |done]. intros _.
  destruct (overflow (initial rem)) eqn:Ho; [by apply initial_crowded|]. destruct (initial_started rem) as [Hinv Hm _ _].
  by eapply closeSets_crowded.
Qed.

(** C29 Nothing is lost and nothing is revived by the projection of a fault: when
    some effects of a stored fault were superseded and some remain, the projection
    returns events that concern exactly the keys of the remaining effects.  The one
    exception is the limit of 256: only if the remaining effects have more than 256
    different sets of codes that are common to some of the entities can the whole
    event be evaluated instead, and never for a fault without entities. *)
Theorem projection_exact (event : HealthEvent) (ns : list HealthEvent) :
  let coverage := cover (newEventCoverage event) ns in
  IsHealthy event = false -> projected coverage = true -> remaining coverage <> ∅ ->
  exists events, ProjectHealthEvent (Some coverage) event = Some events /\
    ((forall k, (exists e, e ∈ events /\ k ∈ createEventKeys e) <->
                key_ident k = event_ident event /\ effect_of k ∈ remaining coverage) \/
     events = [event] /\ EntitiesImpacted event <> [] /\ crowded (remaining coverage)).
Proof.
  intros coverage Hh Hp Hne. unfold ProjectHealthEvent. rewrite Hp, (bool_decide_eq_false_2 _ Hne). cbn [negb orb].
  destruct (cover_flags (newEventCoverage event) ns) as (Hcw & _ & _). fold coverage in Hcw. rewrite Hcw.
  destruct (checkWide (newEventCoverage event)) eqn:Hw.
  - eexists. split; [done|]. left. intros k. unfold projectCheckWideHealthEvent.
    set (codes := merge_sort String.le (map errorCode (elements (remaining coverage)))).
    assert (Hcodes : forall c, c ∈ codes <-> exists r, r ∈ remaining coverage /\ errorCode r = c).
    { intros c. unfold codes. rewrite merge_sort_Permutation, list_elem_of_fmap. setoid_rewrite elem_of_elements. naive_solver. }
    assert (Hcne : codes <> []).
    { destruct (set_choose_L _ Hne) as [r Hr]. intros Hz. apply (not_elem_of_nil (errorCode r)). rewrite <- Hz.
      apply Hcodes. eauto. }
    assert (Hblank : forall r, r ∈ remaining coverage -> entityType r = ""%string /\ entityValue r = ""%string).
    { intros r Hr. apply cover_remaining in Hr as [Hr _]. apply elem_of_effects in Hr as [Hr _]. unfold event_entities in Hr.
      cbn [newEventCoverage checkWide] in Hw. destruct (EntitiesImpacted event); [|done].
      apply list_elem_of_singleton in Hr. by injection Hr. }
    setoid_rewrite list_elem_of_singleton. split.
    + intros (e & -> & Hk). apply elem_of_createEventKeys in Hk as (Hid & Hent & Hc). rewrite projected_codes in Hc by done.
      split; [done|]. apply Hcodes in Hc as (r & Hr & Hc). destruct (Hblank r Hr) as [Ht Hv].
      apply list_elem_of_singleton in Hent. injection Hent as Ht' Hv'.
      replace (effect_of k) with r; [done|]. destruct r. unfold effect_of. cbn in *. congruence.
    + intros [Hid Hk]. eexists. split; [done|]. apply elem_of_createEventKeys. rewrite projected_codes by done.
      split; [done|]. destruct (Hblank _ Hk) as [Ht Hv]. cbn in Ht, Hv. split.
      * apply list_elem_of_singleton. unfold key_entity. by rewrite Ht, Hv.
      * apply Hcodes. eauto.
  - destruct (rectangle_search_terminates (remaining coverage)) as [[rects over] Hrun]. rewrite Hrun. destruct over; (eexists; split; [done|]).
    { right. split; [done|]. split; [|by eapply overflow_crowded]. intros Hen. cbn in Hw. by rewrite Hen in Hw. }
    left. intros k. destruct (rectangles_concepts _ _ Hrun) as (_ & Hrects & Hcov).
    unfold projectHealthEventRectangles. setoid_rewrite list_elem_of_fmap. split.
    + intros (e & (r & -> & Hr) & Hk). destruct (Hrects r Hr) as (H1 & H2 & H3 & _).
      apply projected_keys in Hk as (Hid & Hent & Hc); [|done..]. split; [done|]. exact (H3 _ _ Hent Hc).
    + intros [Hid Hk]. destruct (Hcov [key_entity k] [kErrorCode k]) as (r & Hr & HE & HC); [done..| |].
      { intros e c ->%list_elem_of_singleton ->%list_elem_of_singleton. exact Hk. }
      destruct (Hrects r Hr) as (H1 & H2 & _). eexists. split; [eauto|]. apply projected_keys; [done..|].
      split; [done|]. split; [apply HE|apply HC]; left.
Qed.

End theorems.

(** ** A concrete residual *)

Module ResidualDemo.

#[local] Existing Instance list_range.
#[local] Existing Instance list_range_laws.

Definition gpu1 := {| EntityType := "GPU"; EntityValue := "1" |}.

(** Two GPUs with two codes; the first code of the first GPU recovered later. *)
Definition fault : HealthEvent := AnnotationDemo.xid_fault RESTART_BM ["79"; "119"] [AnnotationDemo.gpu0; gpu1].
Definition newer : list HealthEvent := [AnnotationDemo.recovery ["79"] [AnnotationDemo.gpu0]].

Definition left_over : gset eventEffect := remaining (cover (newEventCoverage fault) newer).

Definition two_rectangles : list residualRectangle :=
  [{| r_entities := [("GPU", "0"); ("GPU", "1")]%string; r_errorCodes := ["119"]%string |};
   {| r_entities := [("GPU", "1")]%string; r_errorCodes := ["119"; "79"]%string |}].

Example residual_rectangles : maximalResidualRectangles left_over = Some (two_rectangles, false).
Proof. vm_compute. reflexivity. Qed.

Lemma rectangles_are_concepts_witness :
  exists r, r ∈ two_rectangles /\ [("GPU", "1")]%string ⊆ r_entities r /\ ["79"; "119"]%string ⊆ r_errorCodes r.
Proof.
  destruct (rectangles_are_concepts left_over two_rectangles residual_rectangles) as (_ & _ & H).
  apply H; [discriminate..|].
  intros e c ->%list_elem_of_singleton [->|[->|Hn]%elem_of_cons]%elem_of_cons;
    [apply (bool_decide_unpack _); vm_compute; exact I..|by apply not_elem_of_nil in Hn].
Defined.

Lemma projection_exact_witness :
  exists events, ProjectHealthEvent (Some (cover (newEventCoverage fault) newer)) fault = Some events /\
    ((forall k, (exists e, e ∈ events /\ k ∈ createEventKeys e) <-> key_ident k = event_ident fault /\ effect_of k ∈ left_over) \/
     events = [fault] /\ EntitiesImpacted fault <> [] /\ crowded left_over).
Proof.
  apply (projection_exact fault newer).
  - reflexivity.
  - vm_compute. reflexivity.
  - apply (bool_decide_unpack _). vm_compute. exact I.
Defined.

End ResidualDemo.
