(* ===== verification/ColdStart.v ===== *)
(** * Cold start of fault-quarantine

    Models [fault-quarantine/pkg/coldstart/coldstart.go]: at startup the stored
    events that were never resolved are replayed, faults first and recoveries
    only if no fault failed; each event is first reduced to what newer events
    left of it ([Supersession]).  The store, the event processor and the context
    are interfaces. *)

From stdpp Require Import gmap strings list.
From Stdlib Require Import ZArith Lia.
From S2P Require Import Prelude HealthEvent AnnotationMap EventRecord Query StoreScan Supersession.

#[local] Open Scope nat_scope.

(** ** Errors *)

(** The errors the classification walks over: a marked error, an aggregate
    ([multierror] or [errors.Join]), a wrapper, anything else. *)
Inductive goError :=
| permanentError (e : goError)
| aggregate (es : list goError)
| wrapped (e : goError)
| plain (msg : string).

(** [IsPermanentError] and [allPermanentErrors] on a non-nil error. *)
Fixpoint IsPermanentError (e : goError) : bool :=
  match e with
  | permanentError _ => true
  | aggregate es => negb (nil es) && forallb IsPermanentError es
  | wrapped e => IsPermanentError e
  | plain _ => false
  end.

(** [PermanentError]; nil stays nil. *)
Definition PermanentError (e : option goError) : option goError := permanentError <$> e.

(** [errors.Is] with [context.Canceled] or [context.DeadlineExceeded]. *)
Class ErrorKinds := is_cancelled : error -> bool.

(** ** One API-server snapshot per node and event *)

Section recovery_node.
Context {N : Type} (stripped : N -> N).

(** [GetRecoveryNode]: the context holds the snapshots of one replayed event, or
    nothing outside recovery.  [stripped] is the copy without the node status. *)
Definition GetRecoveryNode (state : option (gmap string (result N))) (nodeName : string)
    (load : result N) : option (gmap string (result N)) * result N :=
  match state with
  | None => (None, load)
  | Some nodes =>
      match nodes !! nodeName with
      | Some r => (Some nodes, r)
      | None =>
          let r := match load with Ok n => Ok (stripped n) | Err e => Err e end in
          (Some (<[nodeName := r]> nodes), r)
      end
  end.

End recovery_node.

(** ** Interfaces *)

Inductive ProcessResult :=
| ProcessResultProcessed | ProcessResultSkipped | ProcessResultSuperseded
| ProcessResultInvalid | ProcessResultFailed.

#[export] Instance ProcessResult_eq_dec : EqDecision ProcessResult.
Proof. solve_decision. Defined.

Record StoredDocumentID := { String_ : string; Native : string }.
Record StoredEventCompletion := { DocumentID : StoredDocumentID; Result : ProcessResult }.

Class EventProcessor (W : Type) := {
  ProcessStoredEvent : W -> option eventCoverage -> HealthEvent -> string -> W * result ProcessResult;
  CompleteStoredEvents : W -> list StoredEventCompletion -> W * option error;
  ctxErr : W -> option error }.

Class NativeIDs (R : Type) := ExtractDocumentIDNative : R -> result string.

(** ** Replay *)

Section cold_start.
Context {W R : Type} `{StoredRecords R} `{NativeIDs R} `{HealthEventStore W R} `{EventProcessor W} `{ErrorKinds}.

Record storedRecoveryEvent := { record : R; parsed_ : result HealthEvent }.

Definition parseStoredRecoveryEvent (r : R) : storedRecoveryEvent :=
  {| record := r; parsed_ := parseStoredRecord r |}.

Definition storedDocumentID (r : R) : result StoredDocumentID :=
  match ExtractDocumentID r, ExtractDocumentIDNative r with
  | Ok s, Ok n => Ok {| String_ := s; Native := n |}
  | Err e, Ok _ | Ok _, Err e => Err e
  | Err e1, Err e2 => Err (e1 +:+ String (Ascii.ascii_of_nat 10) "" +:+ e2)
  end.

(** The completion to record, if any, and the error. *)
Definition recoverStoredEvent (w : W) (until : Z) (event : storedRecoveryEvent) :
    W * option StoredEventCompletion * option error :=
  match ctxErr w with
  | Some e => (w, None, Some e)
  | None =>
      match storedDocumentID (record event), parsed_ event with
      | Err idErr, Err _ => (w, None, Some (wrapf "cannot identify invalid stored event" idErr))
      | Ok documentID, Err _ =>
          (w, Some {| DocumentID := documentID; Result := ProcessResultInvalid |}, None)
      | Err idErr, Ok _ => (w, None, Some (wrapf "cannot identify stored event" idErr))
      | Ok documentID, Ok parsed =>
          match resolve w until (Some parsed) (record_createdAt (record event)) (String_ documentID) with
          | Err e => (w, None, Some (wrapf "failed to resolve stored event state" e))
          | Ok (true, _) => (w, Some {| DocumentID := documentID; Result := ProcessResultSuperseded |}, None)
          | Ok (false, effects) =>
              match ProcessStoredEvent w effects parsed (String_ documentID) with
              | (w', Err e) => (w', None, Some (wrapf "failed to recover stored event" e))
              | (w', Ok result) =>
                  if bool_decide (result = ProcessResultSkipped) || bool_decide (result = ProcessResultInvalid)
                  then (w', Some {| DocumentID := documentID; Result := result |}, None)
                  else (w', None, None)
              end
          end
      end
  end.

Record recoveryProgress := { firstErr : option error; failures : nat }.

(** [recordFailure]: cancellation is passed on, anything else is counted. *)
Definition recordFailure (p : recoveryProgress) (err : option error) : recoveryProgress * option error :=
  match err with
  | None => (p, None)
  | Some e =>
      if is_cancelled e then (p, Some e)
      else ({| firstErr := match firstErr p with None => Some e | Some e0 => Some e0 end;
               failures := S (failures p) |}, None)
  end.

(** The loop of [recoverEvents]: the world, the progress and the completions. *)
Fixpoint recoverLoop (until : Z) (w : W) (p : recoveryProgress) (completions : list StoredEventCompletion)
    (events : list storedRecoveryEvent) : (W * recoveryProgress * list StoredEventCompletion) * option error :=
  match events with
  | [] => ((w, p, completions), None)
  | event :: rest =>
      let '(w1, completion, err) := recoverStoredEvent w until event in
      let completions := match completion with Some c => completions ++ [c] | None => completions end in
      match recordFailure p err with
      | (p1, Some e) => ((w1, p1, completions), Some e)
      | (p1, None) => recoverLoop until w1 p1 completions rest
      end
  end.

Definition recoverEvents (until : Z) (x : W * recoveryProgress) (events : list storedRecoveryEvent) :
    (W * recoveryProgress) * option error :=
  match recoverLoop until x.1 x.2 [] events with
  | ((w, p, _), Some e) => ((w, p), Some e)
  | ((w, p, completions), None) =>
      if nil completions then ((w, p), None)
      else match CompleteStoredEvents w completions with
           | (w', Some e) => ((w', p), Some (wrapf "failed to record recovery completion batch" e))
           | (w', None) => ((w', p), None)
           end
  end.

Definition selects (recoverHealthy : bool) (candidate : storedRecoveryEvent) : bool :=
  Bool.eqb (match parsed_ candidate with Ok e => IsHealthy e | Err _ => false end) recoverHealthy.

Definition recoverBatch (until : Z) (recoverHealthy : bool) (x : W * recoveryProgress) (events : list R) :
    (W * recoveryProgress) * option error :=
  recoverEvents until x
    (filter (fun c => selects recoverHealthy c = true) (map parseStoredRecoveryEvent events)).

(** ** Queries *)

Definition RecoveryCompletionStatusPath : string := "healtheventstatus.faultquarantinerecovery".

Definition recoveryIncompleteCondition : Condition :=
  Or [Eq RecoveryCompletionStatusPath VNil; Eq RecoveryCompletionStatusPath (VString "")].

Definition coldStartQuery (coldStartAfter coldStartUntil : Z) : Condition :=
  let unresolved :=
    Or [Eq "healtheventstatus.nodequarantined" VNil; Eq "healtheventstatus.nodequarantined" (VString "");
        Eq "healtheventstatus.nodequarantined" (VString StatusNotStarted)] in
  let condition := And [unresolved; recoveryIncompleteCondition; processableCondition] in
  let condition :=
    if (coldStartAfter =? 0)%Z then condition else And [Gt "createdAt" (VTime coldStartAfter); condition] in
  if (coldStartUntil =? 0)%Z then condition else And [condition; Lte "createdAt" (VTime coldStartUntil)].

Definition defaultColdStartLookback : Z := 24 * Hour.

Definition flat_err (e : error + error) : error := match e with inl e | inr e => e end.

(** [Handle] with both dependencies present. *)
Definition Handle (startedAt after_ until : Z) (w : W) : W * option error :=
  let after_ :=
    if (after_ =? 0)%Z then
      if (until =? 0)%Z then startedAt else (until - defaultColdStartLookback)%Z
    else after_ in
  let recoveryQuery := coldStartQuery after_ until in
  let '((w1, p1), err1) :=
    FindBatched w recoveryQuery batchSize (recoverBatch until false) (w, {| firstErr := None; failures := 0 |}) in
  match err1 with
  | Some e => (w1, Some (wrapf "fault-quarantine cold start failed" (flat_err e)))
  | None =>
      let '((w2, p2), err2) :=
        match firstErr p1 with
        | None => FindBatched w1 recoveryQuery batchSize (recoverBatch until true) (w1, p1)
        | Some _ => ((w1, p1), None)
        end in
      match err2 with
      | Some e => (w2, Some (wrapf "fault-quarantine healthy recovery phase failed" (flat_err e)))
      | None =>
          match firstErr p2 with
          | Some e => (w2, Some (wrapf ("fault-quarantine cold start completed with " +:+ itoa (failures p2)
                                         +:+ " event failures") e))
          | None => (w2, None)
          end
      end
  end.

End cold_start.

(** ** The record a cold start leaves *)

(** Two versions of a stored document: the status may differ, the event, its
    position and its membership in the history of a check do not. *)
Definition same_event {R} `{ObjectIDs} `{StoredRecords R} (r r' : R) : Prop :=
  parseStoredRecord r' = parseStoredRecord r /\ record_createdAt r' = record_createdAt r /\
  ExtractDocumentID r' = ExtractDocumentID r /\
  forall until i at_, holds (record_test r') (newerCondition until i at_) = holds (record_test r) (newerCondition until i at_).

(** Only the documents with the given ids changed, and only their status. *)
Definition touched {W R} `{HealthEventStoreLaws W R} (ids : list string) (w w' : W) : Prop :=
  Forall2 (fun r r' => same_event r r' /\ (record_id r ∉ ids -> r' = r)) (records w) (records w').

(** Whether a processed event acts on the record: a recovery that finds nothing to
    clear is skipped, and so is a fault that no rule matches. *)
Definition applied (e : HealthEvent) (res : ProcessResult) : bool :=
  match res with ProcessResultProcessed => true | ProcessResultSkipped => IsHealthy e | _ => false end.

(** The record of open faults, and what processing a stored event does to it
    ([QuarantineSpec.event_record] shows it of the handler): an event that is applied
    is applied with the filter of the replay, any other leaves the record alone;
    completing events changes statuses only. *)
Class RecordWorld (W R : Type) `{HealthEventStoreLaws W R} `{EventProcessor W} := {
  action : W -> HealthEventKey -> option RecommendedAction;
  process_record w ctx e i w' res : ProcessStoredEvent w ctx e i = (w', Ok res) ->
    touched [i] w w' /\
    forall k, slotless e k ->
      action w' k = if applied e res && (concerns e k && recoveryEffectFilter ctx k) then outcome e else action w k;
  complete_record w cs w' : CompleteStoredEvents w cs = (w', None) ->
    touched (map (fun c => String_ (DocumentID c)) cs) w w' /\ forall k, action w' k = action w k }.

Section theory.
Context {W R : Type} `{!ObjectIDs} `{!StoredRecords R} `{!NativeIDs R} `{!HealthEventStore W R} `{!EventProcessor W}.
Context `{!ErrorKinds} `{!HealthEventStoreLaws W R} `{!StoredRecordLaws R} `{!RecordWorld W R}.

Implicit Types (w : W) (r : R) (k : HealthEventKey).

Lemma same_event_refl r : same_event r r.
Proof. done. Qed.

Lemma same_event_trans r1 r2 r3 : same_event r1 r2 -> same_event r2 r3 -> same_event r1 r3.
Proof.
  intros (A1 & A2 & A3 & A4) (B1 & B2 & B3 & B4). split; [congruence|]. split; [congruence|]. split; [congruence|].
  intros. by rewrite B4, A4.
Qed.

Lemma same_event_id r r' : same_event r r' -> record_id r' = record_id r.
Proof. intros (_ & _ & A & _). unfold record_id. by rewrite A. Qed.

Lemma touched_refl ids w : touched ids w w.
Proof. unfold touched. apply Forall_Forall2_diag, Forall_true. intros r. split; [apply same_event_refl|done]. Qed.

Lemma touched_trans ids1 ids2 w1 w2 w3 :
  touched ids1 w1 w2 -> touched ids2 w2 w3 -> touched (ids1 ++ ids2) w1 w3.
Proof.
  unfold touched. generalize (records w1) as l1, (records w2) as l2, (records w3) as l3.
  intros l1 l2 l3 H12. revert l3. induction H12 as [|x y l1 l2 [Hs1 Hk1] _ IH]; intros l3 H23.
  - inversion H23. constructor.
  - inversion H23 as [|? z ? l3' [Hs2 Hk2] H23']. subst. constructor; [|by apply IH].
    split; [by eapply same_event_trans|]. rewrite not_elem_of_app. intros [Hn1 Hn2].
    rewrite Hk2, Hk1; [done..|]. by rewrite (same_event_id x y).
Qed.

Lemma touched_in ids w w' r' : touched ids w w' -> r' ∈ records w' -> exists r, r ∈ records w /\ same_event r r' /\ (record_id r ∉ ids -> r' = r).
Proof.
  intros Ht Hin. apply list_elem_of_lookup in Hin as [i Hi]. destruct (Forall2_lookup_r _ _ _ _ _ Ht Hi) as (r & Hr & Hs & Hk).
  exists r. split; [by eapply list_elem_of_lookup_2|done].
Qed.

Lemma touched_out ids w w' r : touched ids w w' -> r ∈ records w -> exists r', r' ∈ records w' /\ same_event r r' /\ (record_id r ∉ ids -> r' = r).
Proof.
  intros Ht Hin. apply list_elem_of_lookup in Hin as [i Hi]. destruct (Forall2_lookup_l _ _ _ _ _ Ht Hi) as (r' & Hr & Hs & Hk).
  exists r'. split; [by eapply list_elem_of_lookup_2|done].
Qed.

(** The history that decides about an effect does not depend on the statuses. *)
Lemma decided_later_touched ids w w' until e at_ i k :
  touched ids w w' -> decided_later w' until e at_ i k = decided_later w until e at_ i k.
Proof.
  intros Ht. unfold decided_later. unfold touched in Ht. induction Ht as [|r r' l l' [(A1 & A2 & A3 & A4) _] _ IH]; [done|].
  cbn [existsb]. rewrite IH. f_equal. unfold newer_record, record_concerns, record_id. by rewrite A1, A2, A3, A4.
Qed.

(** What a replay of record [r] writes under [k]. *)
Definition writes (w : W) (until : Z) (k : HealthEventKey) (r : R) : option (option RecommendedAction) :=
  match parseStoredRecord r with
  | Err _ => None
  | Ok e => if concerns e k && negb (decided_later w until e (record_createdAt r) (record_id r) k)
            then Some (outcome e) else None
  end.

(** The event was processed, and this is what it left under a key whose action was
    [a]. *)
Definition left_by (e : HealthEvent) (i : string) (a a' : option RecommendedAction) : Prop :=
  exists w cov w' res, ProcessStoredEvent w (Some cov) e i = (w', Ok res) /\ a' = if applied e res then outcome e else a.

(** What the replay of a record does to a key: nothing if it does not write it. *)
Definition replays (w : W) (until : Z) (k : HealthEventKey) (r : R) (a a' : option RecommendedAction) : Prop :=
  match writes w until k r with
  | None => a' = a
  | Some _ => exists e, parseStoredRecord r = Ok e /\ left_by e (record_id r) a a'
  end.

(** Documents of the history decode, and no entity is blank. *)
Definition readable (w : W) : Prop :=
  forall r, r ∈ records w -> record_createdAt r <> 0%Z /\ exists e, parseStoredRecord r = Ok e /\ no_blank e.

Lemma readable_touched ids w w' : touched ids w w' -> readable w -> readable w'.
Proof.
  intros Ht Hr r' Hin. destruct (touched_in _ _ _ _ Ht Hin) as (r & Hr0 & (A1 & A2 & _) & _).
  destruct (Hr r Hr0) as (Hc & e & He & Hnb). rewrite A1, A2. eauto.
Qed.

Lemma storedDocumentID_id r d : storedDocumentID r = Ok d -> String_ d = record_id r.
Proof.
  unfold storedDocumentID, record_id. destruct (ExtractDocumentID r), (ExtractDocumentIDNative r); try done. by intros [= <-].
Qed.

(** One event, replayed without an error. *)
Lemma recoverStoredEvent_spec w until r w1 c e :
  readable w -> record_createdAt r <> 0%Z -> parseStoredRecord r = Ok e -> no_blank e ->
  recoverStoredEvent w until (parseStoredRecoveryEvent r) = (w1, c, None) ->
  touched [record_id r] w w1 /\ (forall x, c = Some x -> String_ (DocumentID x) = record_id r) /\
  forall k, slotless e k -> replays w until k r (action w k) (action w1 k).
Proof.
  intros Hread Hcr Hp Hnb. unfold recoverStoredEvent. destruct (ctxErr w); [done|].
  cbn [parseStoredRecoveryEvent record parsed_]. rewrite Hp.
  destruct (storedDocumentID r) as [d|] eqn:Hd; [|done]. pose proof (storedDocumentID_id r d Hd) as Hid. rewrite Hid.
  destruct (resolve_correct w until e (record_createdAt r) (record_id r) Hcr Hnb) as (resolved & cov & -> & Hcov).
  { intros r' n Hr' Hn. destruct (Hread r' Hr') as (_ & e' & He' & Hnb').
    rewrite Hn in He'. by injection He' as ->. }
  { intros _ r' Hr' _. destruct (Hread r' Hr') as (_ & e' & He' & _). eauto. }
  unfold replays, writes. rewrite Hp. destruct resolved.
  - intros [= <- <-]. split; [apply touched_refl|]. split; [by intros x [= <-]|]. intros k _.
    destruct (concerns e k) eqn:Hc; [|done]. by rewrite <- (Hcov k Hc).
  - destruct (ProcessStoredEvent w (Some cov) e (record_id r)) as [w' [res|err]] eqn:Hproc; [|done].
    destruct (process_record _ _ _ _ _ _ Hproc) as [Ht Hact]. intros Hres.
    assert (w1 = w' /\ forall x, c = Some x -> String_ (DocumentID x) = record_id r) as [-> Hx].
    { destruct (_ || _); injection Hres as <- <-; split; try done. by intros x [= <-]. }
    split; [done|]. split; [done|]. intros k Hs. specialize (Hact k Hs). destruct (concerns e k) eqn:Hc; cbn [andb] in *; [|by rewrite Hact, andb_false_r].
    change (recoveryEffectFilter (Some cov) k) with (allows cov (effect_of k)) in Hact. rewrite (Hcov k Hc) in Hact.
    destruct (negb _); [|by rewrite Hact, andb_false_r]. rewrite andb_true_r in Hact. exists e. split; [done|]. by exists w, cov, w', res.
Qed.

Lemma recordFailure_none p err p1 :
  recordFailure p err = (p1, None) -> firstErr p1 = None -> err = None /\ firstErr p = None /\ p1 = p.
Proof.
  unfold recordFailure. destruct err as [e|]; [|by intros [= <-]]. destruct (is_cancelled e); [done|].
  intros [= <-]. cbn. by destruct (firstErr p).
Qed.

Lemma recoverLoop_progress until : forall evs w p cs w1 p1 cs1,
  recoverLoop until w p cs evs = ((w1, p1, cs1), None) -> firstErr p1 = None -> firstErr p = None.
Proof.
  induction evs as [|ev evs IH]; intros w p cs w1 p1 cs1; cbn [recoverLoop]; [by intros [= _ <- _]|].
  destruct (recoverStoredEvent w until ev) as [[w' c] err]. destruct (recordFailure p err) as [p' [e'|]] eqn:Hf; [done|].
  intros Hrest Hn. apply (IH _ _ _ _ _ _ Hrest) in Hn. by apply recordFailure_none in Hf as (_ & ? & _).
Qed.

(** Replaying a list of records. *)
Inductive replayed (w : W) (until : Z) (k : HealthEventKey) : list R -> option RecommendedAction -> option RecommendedAction -> Prop :=
| replayed_nil a : replayed w until k [] a a
| replayed_cons r rs a a1 a' : replays w until k r a a1 -> replayed w until k rs a1 a' -> replayed w until k (r :: rs) a a'.

Lemma writes_touched ids w w' until k r : touched ids w w' -> writes w' until k r = writes w until k r.
Proof. intros Ht. unfold writes. destruct (parseStoredRecord r); [|done]. by rewrite (decided_later_touched _ _ _ _ _ _ _ _ Ht). Qed.

Lemma replayed_touched ids w w' until k rs a a' : touched ids w w' -> replayed w' until k rs a a' -> replayed w until k rs a a'.
Proof.
  intros Ht. induction 1 as [|r rs a a1 a' Hr _ IH]; [constructor|]. apply replayed_cons with a1; [|done]. unfold replays in *. by rewrite (writes_touched _ _ _ _ _ _ Ht) in Hr.
Qed.

Lemma replayed_app w until k rs1 rs2 a a1 a' : replayed w until k rs1 a a1 -> replayed w until k rs2 a1 a' -> replayed w until k (rs1 ++ rs2) a a'.
Proof. induction 1 as [|r rs a a1 a2 Hr _ IH]; [done|]. intros H2. econstructor; eauto. Qed.

Definition record_slotless (k : HealthEventKey) (r : R) : Prop := forall e, parseStoredRecord r = Ok e -> slotless e k.

Definition replayable (r : R) : Prop :=
  record_createdAt r <> 0%Z /\ exists e, parseStoredRecord r = Ok e /\ no_blank e.

Lemma recoverLoop_spec until k : forall rs w p cs w1 p1 cs1,
  readable w -> Forall replayable rs -> Forall (record_slotless k) rs ->
  recoverLoop until w p cs (map parseStoredRecoveryEvent rs) = ((w1, p1, cs1), None) -> firstErr p1 = None ->
  firstErr p = None /\ touched (map record_id rs) w w1 /\
  replayed w until k rs (action w k) (action w1 k) /\
  (forall x, x ∈ cs1 -> x ∈ cs \/ String_ (DocumentID x) ∈ map record_id rs).
Proof.
  induction rs as [|r rs IH]; intros w p cs w1 p1 cs1 Hread HF Hsl; cbn [map recoverLoop].
  { intros [= <- <- <-] Hn. split; [done|]. split; [apply touched_refl|]. split; [constructor|]. auto. }
  apply Forall_cons in HF as [(Hcr & e & Hp & Hnb) HF']. apply Forall_cons in Hsl as [Hs Hsl'].
  destruct (recoverStoredEvent w until (parseStoredRecoveryEvent r)) as [[w' c] err] eqn:Hrec.
  destruct (recordFailure p err) as [p' [e'|]] eqn:Hf; [done|]. intros Hrest Hn.
  apply recordFailure_none in Hf as (-> & Hpn & ->); [|by eapply recoverLoop_progress].
  destruct (recoverStoredEvent_spec w until r w' c e Hread Hcr Hp Hnb Hrec) as (Ht1 & Hc & Ha1).
  destruct (IH w' p (match c with Some c => cs ++ [c] | None => cs end) w1 p1 cs1) as (Hp' & Ht & Ha & Hcs); try done.
  { by eapply readable_touched. }
  split; [done|]. split; [|split].
  - exact (touched_trans _ _ _ _ _ Ht1 Ht).
  - econstructor; [by apply Ha1, Hs|]. by eapply replayed_touched.
  - intros x Hx. apply Hcs in Hx as [Hx|Hx]; [|right; by right].
    destruct c as [c|]; [|by left]. apply elem_of_app in Hx as [Hx| ->%list_elem_of_singleton]; [by left|].
    right. cbn. rewrite (Hc c eq_refl). left.
Qed.


Lemma touched_mono ids ids' w w' : (forall i, i ∈ ids -> i ∈ ids') -> touched ids w w' -> touched ids' w w'.
Proof.
  intros Hsub Ht. unfold touched in *. eapply Forall2_impl; [exact Ht|]. intros r r' [Hs Hk]. split; [done|].
  intros Hn. apply Hk. intros Hi. by apply Hn, Hsub.
Qed.

(** The records of a batch that a phase replays. *)
Definition wanted (recoverHealthy : bool) (r : R) : bool := selects recoverHealthy (parseStoredRecoveryEvent r).

Lemma filter_parsed h b :
  filter (fun c => selects h c = true) (map parseStoredRecoveryEvent b) =
  map parseStoredRecoveryEvent (filter (fun r => wanted h r = true) b).
Proof.
  induction b as [|r b IH]; [done|]. cbn [map]. rewrite !filter_cons. unfold wanted at 1.
  destruct (decide (selects h (parseStoredRecoveryEvent r) = true)); cbn [map]; by rewrite IH.
Qed.

Lemma recoverBatch_progress until h w p b w1 p1 :
  recoverBatch until h (w, p) b = ((w1, p1), None) -> firstErr p1 = None -> firstErr p = None.
Proof.
  unfold recoverBatch, recoverEvents. cbn [fst snd]. destruct (recoverLoop _ _ _ _ _) as [[[w' p'] cs] [e|]] eqn:Hl; [done|].
  intros Hres Hn. apply (recoverLoop_progress _ _ _ _ _ _ _ _ Hl).
  destruct (nil cs); [by injection Hres as _ ->|]. destruct (CompleteStoredEvents w' cs) as [w'' [e|]]; [done|].
  by injection Hres as _ ->.
Qed.

Lemma recoverBatch_spec until h k w p b w1 p1 :
  readable w -> Forall replayable b -> Forall (record_slotless k) b ->
  recoverBatch until h (w, p) b = ((w1, p1), None) -> firstErr p1 = None ->
  touched (map record_id (filter (fun r => wanted h r = true) b)) w w1 /\
  replayed w until k (filter (fun r => wanted h r = true) b) (action w k) (action w1 k).
Proof.
  intros Hread HF Hsl. unfold recoverBatch, recoverEvents. cbn [fst snd]. rewrite filter_parsed.
  set (rs := filter (fun r => wanted h r = true) b).
  assert (HFr : Forall replayable rs) by (by apply Forall_filter || (apply Forall_forall; intros x Hx%list_elem_of_filter; rewrite Forall_forall in HF; naive_solver)).
  assert (Hslr : Forall (record_slotless k) rs) by (apply Forall_forall; intros x Hx%list_elem_of_filter; rewrite Forall_forall in Hsl; naive_solver).
  destruct (recoverLoop until w p [] (map parseStoredRecoveryEvent rs)) as [[[w' p'] cs] [e|]] eqn:Hl; [done|].
  intros Hres Hn.
  assert (Hp' : p1 = p').
  { destruct (nil cs); [by injection Hres as _ ->|]. destruct (CompleteStoredEvents w' cs) as [w'' [e|]]; [done|].
    by injection Hres as _ ->. }
  subst p'. destruct (recoverLoop_spec until k rs w p [] w' p1 cs Hread HFr Hslr Hl Hn) as (_ & Ht & Ha & Hcs).
  destruct (nil cs) eqn:Hnil; [injection Hres as <-; done|].
  destruct (CompleteStoredEvents w' cs) as [w'' [e|]] eqn:Hc; [done|]. injection Hres as <-.
  destruct (complete_record _ _ _ Hc) as [Ht2 Ha2]. split; [|by rewrite Ha2].
  eapply touched_mono; [|exact (touched_trans _ _ _ _ _ Ht Ht2)].
  intros i [Hi|Hi]%elem_of_app; [done|]. apply list_elem_of_fmap in Hi as (x & -> & Hx).
  apply Hcs in Hx as [Hx|Hx]; [by apply not_elem_of_nil in Hx|done].
Qed.

Lemma recoverBatches_progress until h : forall bs w p w1 p1,
  fold_batches (recoverBatch until h) (w, p) bs = ((w1, p1), None) -> firstErr p1 = None -> firstErr p = None.
Proof.
  induction bs as [|b bs IH]; intros w p w1 p1; cbn [fold_batches]; [by intros [= _ <-]|].
  destruct (recoverBatch until h (w, p) b) as [[w' p'] [e|]] eqn:Hb; [done|].
  intros Hrest Hn. by eapply recoverBatch_progress, IH.
Qed.

Lemma recoverBatches_spec until h k : forall bs w p w1 p1,
  readable w -> Forall replayable (concat bs) -> Forall (record_slotless k) (concat bs) ->
  fold_batches (recoverBatch until h) (w, p) bs = ((w1, p1), None) -> firstErr p1 = None ->
  touched (map record_id (filter (fun r => wanted h r = true) (concat bs))) w w1 /\
  replayed w until k (filter (fun r => wanted h r = true) (concat bs)) (action w k) (action w1 k).
Proof.
  induction bs as [|b bs IH]; intros w p w1 p1 Hread HF Hsl; cbn [fold_batches concat].
  { intros [= <- <-] _. split; [apply touched_refl|constructor]. }
  cbn [concat] in HF, Hsl. apply Forall_app in HF as [HF1 HF2]. apply Forall_app in Hsl as [Hs1 Hs2].
  destruct (recoverBatch until h (w, p) b) as [[w' p'] [e|]] eqn:Hb; [done|]. intros Hrest Hn.
  pose proof (recoverBatches_progress _ _ _ _ _ _ _ Hrest Hn) as Hn'.
  destruct (recoverBatch_spec until h k w p b w' p' Hread HF1 Hs1 Hb Hn') as [Ht1 Ha1].
  destruct (IH w' p' w1 p1) as [Ht2 Ha2]; try done; [by eapply readable_touched|].
  rewrite filter_app, map_app. split; [exact (touched_trans _ _ _ _ _ Ht1 Ht2)|].
  eapply replayed_app; [exact Ha1|]. by eapply replayed_touched.
Qed.

(** The events a cold start with this upper bound takes into account. *)
Definition in_scope (until : Z) (r : R) : bool :=
  holds (record_test r) processableCondition && ((until =? 0)%Z || (record_createdAt r <=? until)%Z).

(** The lower bound in effect, and the records the recovery query selects. *)
Definition effective_after (startedAt after_ until : Z) : Z :=
  if (after_ =? 0)%Z then if (until =? 0)%Z then startedAt else (until - defaultColdStartLookback)%Z else after_.

Definition candidate (startedAt after_ until : Z) (r : R) : bool :=
  holds (record_test r) (coldStartQuery (effective_after startedAt after_ until) until).

(** [r] is the newest event in scope about the key. *)
Definition latest (w : W) (until : Z) (k : HealthEventKey) (r : R) : Prop :=
  r ∈ records w /\ in_scope until r = true /\ record_concerns k r = true /\
  forall r', r' ∈ records w -> in_scope until r' = true -> record_concerns k r' = true -> record_id r' <> record_id r ->
    eventAfter {| createdAt := record_createdAt r; id := record_id r |} (record_createdAt r') (record_id r') = true.

Lemma until_holds until c r :
  holds (record_test r) (if (until =? 0)%Z then c else And [c; Lte "createdAt" (VTime until)]) =
  holds (record_test r) c && ((until =? 0)%Z || (record_createdAt r <=? until)%Z).
Proof.
  destruct (until =? 0)%Z; cbn [orb]; [by rewrite andb_true_r|]. cbn [holds forallb].
  change (field_value "createdAt" (VTime until)) with (VTime until). by rewrite test_created_until, andb_true_r.
Qed.

Lemma candidate_in_scope s a until r : candidate s a until r = true -> in_scope until r = true.
Proof.
  unfold candidate, coldStartQuery. rewrite until_holds. intros [Hc Hs]%andb_prop. unfold in_scope. rewrite Hs, andb_true_r.
  destruct (_ =? 0)%Z in Hc; cbn [holds forallb] in Hc; rewrite !andb_true_iff in Hc; tauto.
Qed.

(** The query of the resolver selects the events of the same check in scope. *)
Lemma newerCondition_scope until e at_ r n :
  parseStoredRecord r = Ok n -> event_ident n = event_ident e -> (at_ <= record_createdAt r)%Z ->
  holds (record_test r) (newerCondition until (identityFor e) at_) = in_scope until r.
Proof.
  intros Hp Hid Hat. injection Hid as I1 I2 I3 I4 I5. unfold newerCondition. rewrite until_holds. unfold in_scope. f_equal.
  cbn [identityFor agent componentClass checkName nodeName version]. cbn [holds forallb].
  change (field_value "healthevent.agent" (VString (Agent e))) with (VString (Agent e)).
  change (field_value "healthevent.componentclass" (VString (ComponentClass e))) with (VString (ComponentClass e)).
  change (field_value "healthevent.checkname" (VString (CheckName e))) with (VString (CheckName e)).
  change (field_value "healthevent.nodename" (VString (NodeName e))) with (VString (NodeName e)).
  change (field_value "createdAt" (VTime at_)) with (VTime at_).
  rewrite (test_agent r n), (test_componentclass r n), (test_checkname r n), (test_nodename r n) by done.
  rewrite test_created_from, (proj2 (Z.leb_le _ _) Hat). rewrite !bool_decide_eq_true_2 by done. cbn [andb]. rewrite andb_true_r.
  assert (Hv : holds (record_test r)
    (if (Version e =? 0)%Z then Or [Eq "healthevent.version" (VInt (Version e)); Eq "healthevent.version" VNil]
     else Eq "healthevent.version" (VInt (Version e))) = true).
  { destruct (Version e =? 0)%Z eqn:Hz.
    - apply Z.eqb_eq in Hz. cbn [holds existsb]. rewrite orb_false_r, Hz.
      change (field_value "healthevent.version" (VInt 0)) with (VInt 0). change (field_value "healthevent.version" VNil) with VNil.
      rewrite (test_version_absent r n) by done. apply bool_decide_eq_true_2. congruence.
    - apply Z.eqb_neq in Hz. cbn [holds]. change (field_value "healthevent.version" (VInt (Version e))) with (VInt (Version e)).
      rewrite (test_version r n) by done. by apply bool_decide_eq_true_2. }
  by rewrite Hv.
Qed.

Lemma in_scope_same until w r r' : readable w -> r ∈ records w -> same_event r r' -> in_scope until r' = in_scope until r.
Proof.
  intros Hread Hr (A1 & A2 & _ & A4). destruct (Hread r Hr) as (_ & e & He & _).
  rewrite <- (newerCondition_scope until e (record_createdAt r) r e), <- (newerCondition_scope until e (record_createdAt r) r' e);
    [by rewrite A4|congruence|done|lia|done|done|lia].
Qed.

Lemma concerns_ident e k : concerns e k = true -> key_ident k = event_ident e.
Proof.
  unfold concerns. destruct (IsHealthy e).
  - unfold covers. rewrite !andb_true_iff, !bool_decide_eq_true. tauto.
  - rewrite bool_decide_eq_true. by intros [? _]%elem_of_createEventKeys.
Qed.

Lemma eventAfter_created p at_ i : eventAfter p at_ i = true -> (at_ <= createdAt p)%Z.
Proof. unfold eventAfter. destruct (createdAt p =? at_)%Z eqn:He; [apply Z.eqb_eq in He|intros Hl%Z.ltb_lt]; lia. Qed.

Lemma eventAfter_asym t1 i1 t2 i2 :
  eventAfter {| createdAt := t1; id := i1 |} t2 i2 = true -> eventAfter {| createdAt := t2; id := i2 |} t1 i1 = false.
Proof.
  unfold eventAfter. cbn. rewrite (Z.eqb_sym t2 t1). destruct (t1 =? t2)%Z eqn:He.
  - rewrite negb_true_iff, negb_false_iff, bool_decide_eq_false, bool_decide_eq_true.
    intros Hn. by destruct (total String.le i1 i2).
  - intros Hl%Z.ltb_lt. apply Z.ltb_ge. lia.
Qed.

(** Documents are identified by their id. *)
Definition unique_ids (w : W) : Prop := NoDup (record_id <$> records w).

Lemma unique_record w r r' : unique_ids w -> r ∈ records w -> r' ∈ records w -> record_id r = record_id r' -> r = r'.
Proof.
  intros Hnd [i Hi]%list_elem_of_lookup [j Hj]%list_elem_of_lookup He.
  assert (i = j) as ->; [|congruence]. apply (NoDup_lookup _ _ _ (record_id r) Hnd); rewrite list_lookup_fmap; [by rewrite Hi|].
  rewrite Hj. cbn. by rewrite He.
Qed.

(** Only the newest event in scope about a key writes it. *)
Lemma writes_latest w until k r0 :
  readable w -> unique_ids w -> latest w until k r0 ->
  (exists e, parseStoredRecord r0 = Ok e /\ writes w until k r0 = Some (outcome e)) /\
  forall r, r ∈ records w -> in_scope until r = true -> writes w until k r <> None -> record_id r = record_id r0.
Proof.
  intros Hread Hu (Hin & Hsc & Hc & Hlast). unfold record_concerns in Hc. destruct (parseStoredRecord r0) as [e0|] eqn:Hp0; [|done].
  split.
  - exists e0. split; [done|]. unfold writes. rewrite Hp0, Hc. cbn [andb].
    assert (Hd : decided_later w until e0 (record_createdAt r0) (record_id r0) k = false); [|by rewrite Hd].
    apply existsb_none. intros r Hr. apply not_true_iff_false. intros [[Hn Haf]%andb_prop Hrc]%andb_prop.
    destruct (decide (record_id r = record_id r0)) as [Heq|Hne].
    + rewrite (unique_record w r r0) in Haf by done. pose proof (eventAfter_asym _ _ _ _ Haf). congruence.
    + destruct (Hread r Hr) as (_ & n & Hpn & _).
      assert (Hs : in_scope until r = true).
      { rewrite <- Hn. symmetry. unfold record_concerns in Hrc. rewrite Hpn in Hrc.
        apply (newerCondition_scope until e0 _ r n); [done| |by apply eventAfter_created in Haf].
        apply concerns_ident in Hrc, Hc. congruence. }
      pose proof (Hlast r Hr Hs Hrc Hne) as Hb. apply eventAfter_asym in Hb. congruence.
  - intros r Hr Hs Hw. destruct (decide (record_id r = record_id r0)) as [|Hne]; [done|]. exfalso. apply Hw.
    unfold writes. destruct (Hread r Hr) as (_ & e & Hp & _). rewrite Hp. destruct (concerns e k) eqn:Hce; [|done]. cbn [andb].
    assert (Hd : decided_later w until e (record_createdAt r) (record_id r) k = true); [|by rewrite Hd].
    assert (Hrc : record_concerns k r = true) by (unfold record_concerns; by rewrite Hp).
    pose proof (Hlast r Hr Hs Hrc Hne) as Haf.
    apply existsb_elem. exists r0. split; [done|]. unfold newer_record, record_concerns. rewrite Hp0, Hc, Haf, andb_true_r, andb_true_r.
    rewrite (newerCondition_scope until e _ r0 e0); [done|done| |by apply eventAfter_created in Haf].
    apply concerns_ident in Hce, Hc. congruence.
Qed.

(** If only records of one event write the key, they leave what one of them left. *)
Lemma replayed_one w until k e i rs a a' :
  (forall r, r ∈ rs -> writes w until k r = None \/ parseStoredRecord r = Ok e /\ record_id r = i) -> replayed w until k rs a a' ->
  (forall r, r ∈ rs -> writes w until k r = None) /\ a' = a \/ left_by e i a a'.
Proof.
  intros Hall Hrep. induction Hrep as [a|r rs a a1 a' Hr _ IH]; [left; split; [by intros r ?%not_elem_of_nil|done]|].
  specialize (IH ltac:(intros x Hx; apply Hall; by right)). specialize (Hall r ltac:(left)). unfold replays in Hr.
  destruct (writes w until k r) eqn:Hw; [|subst a1].
  - right. destruct Hall as [?|[Hp <-]]; [done|]. destruct Hr as (e' & Hp' & Hl). rewrite Hp in Hp'. injection Hp' as <-.
    destruct IH as [[_ ->]|(w2 & cov2 & w3 & res2 & Hpr & ->)]; [done|]. destruct Hl as (w0 & cov & w1 & res & Hpr1 & ->).
    destruct (applied e res2) eqn:Hap; [exists w2, cov2, w3, res2; by rewrite Hap|]. by exists w0, cov, w1, res.
  - destruct IH as [[Hn ->]|Hl]; [left; split; [|done]|by right]. intros x [->|Hx]%elem_of_cons; auto.
Qed.

Lemma replayed_none w until k rs a a' : (forall r, r ∈ rs -> writes w until k r = None) -> replayed w until k rs a a' -> a' = a.
Proof.
  intros Hn. induction 1 as [|r rs a a1 a' Hr _ IH]; [done|]. rewrite IH by (intros x Hx; apply Hn; by right). unfold replays in Hr. by rewrite (Hn r ltac:(left)) in Hr.
Qed.

Lemma coldStartQuery_well_formed a until : well_formed (coldStartQuery a until) = true.
Proof. unfold coldStartQuery. destruct (a =? 0)%Z, (until =? 0)%Z; reflexivity. Qed.

(** The records one phase replays. *)
Lemma phase_spec until h k q w p w1 p1 :
  well_formed q = true -> readable w -> Forall (record_slotless k) (records w) ->
  FindBatched w q batchSize (recoverBatch until h) (w, p) = ((w1, p1), None) -> firstErr p1 = None ->
  exists rs, touched (map record_id rs) w w1 /\ replayed w until k rs (action w k) (action w1 k) /\
    forall r, r ∈ rs <-> r ∈ records w /\ holds (record_test r) q = true /\ wanted h r = true.
Proof.
  intros Hq Hread Hsl. unfold FindBatched. destruct (scan_complete w q batchSize Hq) as [Hnone Hperm]; [unfold batchSize; lia|].
  destruct (scan_batches w q batchSize) as [bs e]. cbn [fst snd] in Hnone, Hperm. subst e.
  destruct (fold_batches _ _ bs) as [[w' p'] [e|]] eqn:Hf; [done|]. intros [= <- <-] Hn.
  assert (Hin : forall r, r ∈ concat bs -> r ∈ records w).
  { intros r. rewrite Hperm. by intros [_ ?]%list_elem_of_filter. }
  destruct (recoverBatches_spec until h k bs w p w' p') as [Ht Ha]; try done.
  { apply Forall_forall. intros r Hr%Hin. exact (Hread r Hr). }
  { apply Forall_forall. intros r Hr%Hin. rewrite Forall_forall in Hsl. by apply Hsl. }
  exists (filter (fun r => wanted h r = true) (concat bs)). split; [done|]. split; [done|].
  intros r. rewrite list_elem_of_filter, Hperm, list_elem_of_filter. tauto.
Qed.

(** Both phases of a run without errors. *)
Lemma Handle_phases startedAt after_ until k w w' :
  readable w -> Forall (record_slotless k) (records w) ->
  Handle startedAt after_ until w = (w', None) ->
  exists w1 rs1 rs2,
    touched (map record_id rs1) w w1 /\
    replayed w until k (rs1 ++ rs2) (action w k) (action w' k) /\
    (forall r, r ∈ rs1 <-> r ∈ records w /\ candidate startedAt after_ until r = true /\ wanted false r = true) /\
    (forall r, r ∈ rs2 <-> r ∈ records w1 /\ candidate startedAt after_ until r = true /\ wanted true r = true).
Proof.
  intros Hread Hsl. unfold Handle. fold (effective_after startedAt after_ until).
  set (q := coldStartQuery (effective_after startedAt after_ until) until). cbv zeta.
  assert (Hq : well_formed q = true) by apply coldStartQuery_well_formed.
  destruct (FindBatched w q batchSize (recoverBatch until false) _) as [[w1 p1] [e|]] eqn:H1; [done|].
  destruct (firstErr p1) as [e1|] eqn:Hp1; [by rewrite Hp1|].
  destruct (phase_spec until false k q w _ w1 p1 Hq Hread Hsl H1 Hp1) as (rs1 & Ht1 & Ha1 & Hrs1).
  destruct (FindBatched w1 q batchSize (recoverBatch until true) (w1, p1)) as [[w2 p2] [e|]] eqn:H2; [done|].
  destruct (firstErr p2) as [e2|] eqn:Hp2; [done|]. intros [= <-].
  assert (Hsl1 : Forall (record_slotless k) (records w1)).
  { apply Forall_forall. intros r Hr. destruct (touched_in _ _ _ _ Ht1 Hr) as (r0 & Hr0 & (A1 & _) & _).
    rewrite Forall_forall in Hsl. unfold record_slotless. rewrite A1. by apply Hsl. }
  destruct (phase_spec until true k q w1 p1 w2 p2 Hq (readable_touched _ _ _ Ht1 Hread) Hsl1 H2 Hp2) as (rs2 & _ & Ha2 & Hrs2).
  exists w1, rs1, rs2. split; [done|]. split; [|split; [exact Hrs1|exact Hrs2]].
  eapply replayed_app; [exact Ha1|]. by eapply replayed_touched.
Qed.

Lemma writes_same w until k r r' : same_event r r' -> writes w until k r' = writes w until k r.
Proof. intros (A1 & A2 & A3 & _). unfold writes, record_id. by rewrite A1, A2, A3. Qed.


End theory.

(** ** A concrete store and processor *)

Module ColdStartDemo.

#[local] Existing Instance list_range.
#[local] Existing Instance list_range_laws.
#[local] Existing Instance AnnotationDemo.bit_codec.
#[local] Existing Instance QueryDemo.demo_ids.

(** A stored document: id, creation time, event and the two status fields. *)
Record doc := { d_id : string; d_at : Z; d_event : HealthEvent; d_status : string; d_recovery : string }.

Definition field (d : doc) (f : string) : Value :=
  if f ==s "healthevent.agent" then VString (Agent (d_event d))
  else if f ==s "healthevent.componentclass" then VString (ComponentClass (d_event d))
  else if f ==s "healthevent.checkname" then VString (CheckName (d_event d))
  else if f ==s "healthevent.nodename" then VString (NodeName (d_event d))
  else if f ==s "healthevent.version" then VInt (Version (d_event d))
  else if f ==s "healthevent.processingstrategy" then
    VInt (match Strategy (d_event d) with UNSPECIFIED => 0 | EXECUTE_REMEDIATION => 1 | STORE_ONLY => 2 | STORE_AND_ANALYSE => 3 end)
  else if f ==s "healtheventstatus.nodequarantined" then VString (d_status d)
  else if f ==s RecoveryCompletionStatusPath then VString (d_recovery d)
  else VNil.

Definition test (d : doc) (f : string) (t : FieldTest) : bool :=
  match t with
  | FValue v => bool_decide (field d f = v)
  | FOp op (VTime t) => (f ==s "createdAt") &&
      (if op ==s "$gte" then (t <=? d_at d)%Z else if op ==s "$lte" then (d_at d <=? t)%Z
       else if op ==s "$gt" then (t <? d_at d)%Z else false)
  | _ => false
  end.

#[local] Instance doc_records : StoredRecords doc :=
  {| record_createdAt := d_at; ExtractDocumentID d := Ok (d_id d); StoredDocument := HealthEvent;
     RawEvent d := Some (d_event d); record_parts := d_event; ParseHealthEventFromEvent := Ok; record_test := test |}.
#[local] Instance doc_native : NativeIDs doc := fun d => Ok (d_id d).

Lemma string_value_eq a b : bool_decide (VString a = VString b) = bool_decide (a = b).
Proof. apply bool_decide_ext. split; [intros Hx; by injection Hx|intros Hx; by rewrite Hx]. Qed.

Lemma int_value_eq a b : bool_decide (VInt a = VInt b) = bool_decide (a = b).
Proof. apply bool_decide_ext. split; [intros Hx; by injection Hx|intros Hx; by rewrite Hx]. Qed.

#[local] Instance doc_laws : StoredRecordLaws doc.
Proof.
  split; intros *; unfold parseStoredRecord; cbn [doc_records RawEvent ParseHealthEventFromEvent record_test]; try (intros [= <-]); try done.
  - exact (string_value_eq (Agent (d_event r)) a).
  - exact (string_value_eq (ComponentClass (d_event r)) c).
  - exact (string_value_eq (CheckName (d_event r)) c).
  - exact (string_value_eq (NodeName (d_event r)) n).
  - intros _. exact (int_value_eq (Version (d_event r)) v).
  - change (test r "healthevent.version" (FValue VNil)) with (bool_decide (VInt (Version (d_event r)) = VNil)).
    rewrite (bool_decide_eq_false_2 (VInt _ = VNil)) by done. rewrite orb_false_r.
    exact (int_value_eq (Version (d_event r)) 0).
Qed.

(** The documents and the record of open faults of the node. *)
Record world := { docs_ : list doc; he : HealthEventsAnnotationMap; he_wf : ann_wf he }.

#[local] Instance world_store : HealthEventStore world doc := fun w q n =>
  (chunks n (filter (fun d => holds (test d) q = true) (docs_ w)), None).

#[local] Instance world_store_laws : HealthEventStoreLaws world doc.
Proof.
  refine {| records := docs_ |}. intros w q n _ Hn. split; [done|]. cbn. by rewrite chunks_concat.
Defined.

Definition set_status (i s : string) (d : doc) : doc :=
  if d_id d ==s i then {| d_id := d_id d; d_at := d_at d; d_event := d_event d; d_status := s; d_recovery := d_recovery d |} else d.
Definition set_completed (ids : list string) (d : doc) : doc :=
  if bool_decide (d_id d ∈ ids)
  then {| d_id := d_id d; d_at := d_at d; d_event := d_event d; d_status := d_status d; d_recovery := "completed" |} else d.

(** One rule: XID 79.  A recovery of a node without faults and a fault the rule does
    not match are skipped; the status of any other event is what the handler reports. *)
Definition matches_rule (e : HealthEvent) : bool := existsb (fun c => c ==s "79") (ErrorCode e).

Definition skips (w : world) (e : HealthEvent) : bool := if IsHealthy e then IsEmpty (he w) else negb (matches_rule e).

Definition status_after (w : world) (e : HealthEvent) (after : HealthEventsAnnotationMap) : string :=
  if IsHealthy e && IsEmpty after then UnQuarantined else if IsEmpty (he w) then Quarantined else AlreadyQuarantined.

#[local] Instance world_processor : EventProcessor world := {|
  ProcessStoredEvent w ctx e i :=
    if skips w e then (w, Ok ProcessResultSkipped)
    else ({| docs_ := map (set_status i (status_after w e (deliver (he w) e (Some (recoveryEffectFilter ctx))))) (docs_ w);
             he := deliver (he w) e (Some (recoveryEffectFilter ctx));
             he_wf := deliver_wf (he w) e (Some (recoveryEffectFilter ctx)) (he_wf w) |}, Ok ProcessResultProcessed);
  CompleteStoredEvents w cs :=
    ({| docs_ := map (set_completed (map (fun c => String_ (DocumentID c)) cs)) (docs_ w);
        he := he w; he_wf := he_wf w |}, None);
  ctxErr _ := None |}.

#[local] Instance no_cancel : ErrorKinds := fun _ => false.

(** Statuses do not occur in the history query. *)
Lemma newer_status d s c until i at_ :
  holds (test {| d_id := d_id d; d_at := d_at d; d_event := d_event d; d_status := s; d_recovery := c |})
    (newerCondition until i at_) = holds (test d) (newerCondition until i at_).
Proof. unfold newerCondition. destruct (version i =? 0)%Z, (until =? 0)%Z; reflexivity. Qed.

Lemma touched_map (f : doc -> doc) (ids : list string) l :
  (forall d, f d = d \/ d_id d ∈ ids /\ exists s c,
     f d = {| d_id := d_id d; d_at := d_at d; d_event := d_event d; d_status := s; d_recovery := c |}) ->
  Forall2 (fun r r' => same_event r r' /\ (record_id r ∉ ids -> r' = r)) l (map f l).
Proof.
  intros Hf. induction l as [|d l IH]; [constructor|]. cbn [map]. constructor; [|done].
  destruct (Hf d) as [->|(Hid & s & c & ->)]; [done|]. split; [|by intros ?].
  split; [done|]. split; [done|]. split; [done|]. intros. apply newer_status.
Qed.

#[local] Instance world_record : RecordWorld world doc.
Proof.
  refine {| action w k := action_at (he w) k |}.
  - intros w ctx e i w' res. cbn [ProcessStoredEvent world_processor]. destruct (skips w e) eqn:Hsk; intros [= <- <-]; split.
    + apply touched_refl.
    + intros k _. unfold skips, applied, outcome in *. destruct (IsHealthy e); [|done]. destruct (_ && _); [|done].
      unfold action_at. apply Nat.eqb_eq, map_size_empty_iff in Hsk. by rewrite Hsk, lookup_empty.
    + apply touched_map. intros d. unfold set_status. destruct (d_id d ==s i) eqn:Hi; [|by left]. right.
      apply go_eqb_true in Hi as ->. split; [left|eauto].
    + intros k Hs. cbn [he applied andb]. rewrite deliver_action; [done|apply he_wf|done].
  - intros w cs w' [= <-]. split; [|done]. apply touched_map. intros d. unfold set_completed.
    case_bool_decide; [|by left]. right. eauto.
Defined.

(** A fault recorded before the restart, then an escalation and a recovery of its
    entity and a fault of another GPU that were missed. *)
Definition gpu1 := {| EntityType := "GPU"; EntityValue := "1" |}.

Definition known_fault := AnnotationDemo.xid_fault COMPONENT_RESET ["79"] [AnnotationDemo.gpu0].
Definition escalated_fault := AnnotationDemo.xid_fault RESTART_BM ["79"] [AnnotationDemo.gpu0].
Definition other_fault := AnnotationDemo.xid_fault RESTART_BM ["79"] [gpu1].
Definition recovered := AnnotationDemo.recovery [] [AnnotationDemo.gpu0].

Definition stored (i : string) (at_ : Z) (e : HealthEvent) (status : string) : doc :=
  {| d_id := i; d_at := at_; d_event := e; d_status := status; d_recovery := "" |}.

Definition before : world :=
  {| docs_ := [stored "a" 10 known_fault Quarantined; stored "b" 20 escalated_fault "";
               stored "c" 30 recovered ""; stored "d" 25 other_fault ""];
     he := deliver (NewHealthEventsAnnotationMap 0) known_fault None;
     he_wf := deliver_wf _ known_fault None (NewHealthEventsAnnotationMap_wf 0) |}.

Definition key (e : HealthEvent) (x : Entity) (code : string) : HealthEventKey :=
  with_code (CreateEventKeyForEntity e (Some x)) code.

Definition after_restart : world := (Handle 0 5 100 before).1.

Lemma restart_ok : Handle 0 5 100 before = (after_restart, None).
Proof.
  unfold after_restart. rewrite (surjective_pairing (Handle 0 5 100 before)) at 1. by f_equal.
Qed.

Lemma before_readable : readable before.
Proof.
  intros r Hr. split; [|exists (d_event r); split; [done|]];
    repeat (apply elem_of_cons in Hr as [->|Hr]); try (by apply not_elem_of_nil in Hr);
    try (by cbn); intros x Hx ->%list_elem_of_singleton || (intros x ->%list_elem_of_singleton [? ?]; done).
Qed.

Lemma before_unique : unique_ids before.
Proof. apply (bool_decide_unpack _). vm_compute. exact I. Qed.

Lemma before_slotless x c : EntityType x = "GPU"%string -> Forall (record_slotless (key known_fault x c)) (records before).
Proof. intros Hx. apply Forall_forall. intros r _ e _. right. cbn. by rewrite Hx. Qed.

(** The recovery is the newest event about the first GPU, the missed fault about
    the second. *)
Lemma latest_recovery : latest before 100 (key known_fault AnnotationDemo.gpu0 "79") (stored "c" 30 recovered "").
Proof.
  split; [by apply (list_elem_of_lookup_2 _ 2)|]. split; [reflexivity|]. split; [vm_compute; reflexivity|].
  intros r Hr _ Hc Hne.
  repeat (apply elem_of_cons in Hr as [->|Hr]); try (by apply not_elem_of_nil in Hr); vm_compute in Hc |- *; try done.
Qed.


Example restart_clears_recovered : action after_restart (key known_fault AnnotationDemo.gpu0 "79") = None.
Proof. vm_compute. reflexivity. Qed.

Example restart_keeps_other_fault :
  action after_restart (key known_fault gpu1 "79") = Some RESTART_BM.
Proof. vm_compute. reflexivity. Qed.

(** A missed fault that no rule matches is skipped and leaves no record. *)
Definition unmatched_fault := AnnotationDemo.xid_fault RESTART_BM ["13"] [gpu1].

Example restart_skips_unmatched :
  action (Handle 0 5 100 {| docs_ := [stored "e" 20 unmatched_fault ""]; he := he before; he_wf := he_wf before |}).1 (key unmatched_fault gpu1 "13") = None.
Proof. vm_compute. reflexivity. Qed.

(** A GPU was replaced: the recovery of its slot carries another UUID. *)
Definition slot_fault := AnnotationDemo.xid_fault RESTART_BM ["79"] [AnnotationDemo.gpu0; AnnotationDemo.pci0; AnnotationDemo.uuid0].
Definition slot_recovery := AnnotationDemo.recovery []
  [AnnotationDemo.gpu0; AnnotationDemo.pci0; {| EntityType := "GPU_UUID"; EntityValue := "GPU-b" |}].

Definition slot_record : HealthEventsAnnotationMap := deliver (NewHealthEventsAnnotationMap 0) slot_fault None.

Definition replaced : world :=
  {| docs_ := [stored "a" 10 slot_fault Quarantined; stored "b" 20 slot_recovery ""];
     he := slot_record; he_wf := deliver_wf _ slot_fault None (NewHealthEventsAnnotationMap_wf 0) |}.

(** A missed recovery of a replaced GPU is lost: delivered live it empties the
    record of the node, which lifts the quarantine; replayed at startup it leaves
    the entry of the old UUID in place, because the effects a replay may touch are
    those that name an entity of the event, and the event is not replayed again. *)
Example replay_misses_replaced_gpu :
  IsEmpty (deliver slot_record slot_recovery None) = true /\
  (Handle 0 5 100 replaced).2 = None /\
  action (Handle 0 5 100 replaced).1 (key slot_fault AnnotationDemo.uuid0 "79") = Some RESTART_BM /\
  forallb (fun d => negb (d_status d ==s "")) (docs_ (Handle 0 5 100 replaced).1) = true.
Proof. vm_compute. done. Qed.

End ColdStartDemo.
