(* ===== verification/NodeSession.v ===== *)
(** * Quarantine actions on a node

    Models the node operations of [fault-quarantine/pkg/informer/k8s_client.go]:
    the functions that change a copy of the node when a quarantine session
    starts, grows or ends (taints, cordon, labels and the annotations that
    remember them), with [commons/pkg/annotation] and the configuration types of
    [fault-quarantine/pkg/config].  A mutation is a function on [Node] that may
    fail; [UpdateNode] carries it to the API server and is the interface
    [NodeAPI].  JSON is the interface [JSON]. *)

From stdpp Require Import gmap strings list fin_maps sorting.
From Stdlib Require Import ZArith Lia.
From S2P Require Import Prelude HealthEvent AnnotationMap EventRecord KubeRetry.

#[local] Open Scope nat_scope.

(** ** Configuration data *)

Record Taint := { Key : string; Value : string; Effect : string; PreExisting : bool }.

Record Label := { LabelKey : string; LabelValue : string }.

Record AppliedLabel := { alKey : string; alValue : string; alPriority : Z; alOrder : Z }.

#[export] Instance Taint_eq_dec : EqDecision Taint.
Proof. solve_decision. Defined.
#[export] Instance AppliedLabel_eq_dec : EqDecision AppliedLabel.
Proof. solve_decision. Defined.

(** An event and the validation tests it asked for. *)
Record HealthEventWithTests := { testedEvent : HealthEvent; Tests : list string }.

(** ** The node

    The fields of [v1.Node] that fault-quarantine reads or changes.  A nil map
    and an empty one are the same here: every write to a map is preceded by its
    creation. *)

Record NodeTaint := { ntKey : string; ntValue : string; ntEffect : string; ntTimeAdded : option Z }.

Record Node := {
  Name : string;
  Labels : gmap string string;
  Annotations : gmap string string;
  Taints : list NodeTaint;
  Unschedulable : bool }.

#[export] Instance NodeTaint_eq_dec : EqDecision NodeTaint.
Proof. solve_decision. Defined.

Definition with_labels (n : Node) (m : gmap string string) : Node :=
  {| Name := Name n; Labels := m; Annotations := Annotations n; Taints := Taints n; Unschedulable := Unschedulable n |}.
Definition with_annotations (n : Node) (m : gmap string string) : Node :=
  {| Name := Name n; Labels := Labels n; Annotations := m; Taints := Taints n; Unschedulable := Unschedulable n |}.
Definition with_taints (n : Node) (l : list NodeTaint) : Node :=
  {| Name := Name n; Labels := Labels n; Annotations := Annotations n; Taints := l; Unschedulable := Unschedulable n |}.
Definition with_unschedulable (n : Node) (b : bool) : Node :=
  {| Name := Name n; Labels := Labels n; Annotations := Annotations n; Taints := Taints n; Unschedulable := b |}.

Lemma with_labels_self n : with_labels n (Labels n) = n.
Proof. by destruct n. Qed.

(** [m[k]] of a Go map of strings: the zero value when the key is missing. *)
Definition at_key (m : gmap string string) (k : string) : string := default "" (m !! k).

(** ** Annotation keys *)

Definition QuarantineHealthEventAnnotationKey : string := "quarantineHealthEvent".
Definition QuarantineHealthEventAppliedTaintsAnnotationKey : string := "quarantineHealthEventAppliedTaints".
Definition QuarantineHealthEventAppliedLabelsAnnotationKey : string := "quarantineHealthEventAppliedLabels".
Definition QuarantineHealthEventIsCordonedAnnotationKey : string := "quarantineHealthEventIsCordoned".
Definition QuarantineHealthEventCordonPreExistingAnnotationKey : string := "quarantineHealthEventCordonPreExisting".
Definition QuarantinedNodeUncordonedManuallyAnnotationKey : string := "quarantinedNodeUncordonedManually".
Definition QuarantinedNodeIsUntaintedManuallyAnnotationKey : string := "quarantinedNodeUntaintedManually".
Definition QuarantineValidationHealthEventAnnotationKey : string := "quarantineValidationHealthEvent".
Definition QuarantineHealthEventDryRunAnnotationKey : string := "quarantineHealthEventDryRun".

(** The common value of the flags. *)
Definition AnnotationValueTrue : string := "True".

Definition QuarantineAnnotationKeys : list string :=
  [QuarantineHealthEventAnnotationKey; QuarantineHealthEventAppliedTaintsAnnotationKey;
   QuarantineHealthEventAppliedLabelsAnnotationKey; QuarantineHealthEventIsCordonedAnnotationKey;
   QuarantineHealthEventCordonPreExistingAnnotationKey; QuarantinedNodeUncordonedManuallyAnnotationKey;
   QuarantinedNodeIsUntaintedManuallyAnnotationKey; QuarantineValidationHealthEventAnnotationKey;
   QuarantineHealthEventDryRunAnnotationKey].

Definition IsEmptyValue (value : string) : bool :=
  (TrimSpace value ==s "") || (TrimSpace value ==s "[]").

(** ** JSON *)

Class JSON (A : Type) := {
  json_marshal : A -> result string;
  json_unmarshal : string -> result A }.

(** What the code relies on: what was encoded is decoded again. *)
Class JSONLaws (A : Type) `{JSON A} :=
  json_roundtrip : forall (a : A) s, json_marshal a = Ok s -> json_unmarshal s = Ok a.

(** The text of a slice is never blank, and is the empty array only for an empty
    slice. *)
Class JSONListLaws (A : Type) `{JSON (list A)} :=
  json_list_text : forall (l : list A) s, json_marshal l = Ok s -> l <> [] -> IsEmptyValue s = false.

(** ** The API client *)

(** [cached_node] reads the informer's cache, [api_node] the API server;
    [update_node] is [UpdateNode]: the mutation may be run several times, on the
    node of each attempt, and its captured result is that of the last run. *)
Class NodeAPI (W : Type) := {
  cached_node : W -> string -> result Node;
  api_node : W -> string -> Node + kerror;
  update_node : forall {A}, W -> string -> (Node -> result (Node * A)) -> W * result A }.

(** A view of the node shows all fault-quarantine reads of it. *)
Definition agrees (n m : Node) : Prop :=
  Taints n = Taints m /\ Unschedulable n = Unschedulable m /\
  forall key, key ∈ QuarantineAnnotationKeys -> Annotations n !! key = Annotations m !! key.

#[export] Instance agrees_equiv : Equivalence agrees.
Proof.
  split.
  - by intros n.
  - intros n m (A & B & C). repeat split; [done..|]. intros key Hk. by rewrite C.
  - intros n1 n2 n3 (A1 & B1 & C1) (A2 & B2 & C2). repeat split; [congruence..|]. intros key Hk. by rewrite C1, C2.
Qed.

(** [m] with the changes from [base] to [desired]. *)
Definition rebase_map (base desired m : gmap string string) : gmap string string :=
  filter (fun kv => base !! kv.1 = None \/ is_Some (desired !! kv.1))
    (filter (fun kv => base !! kv.1 <> Some kv.2) desired ∪ m).

Definition rebase (base desired n : Node) : Node :=
  {| Name := Name n;
     Labels := rebase_map (Labels base) (Labels desired) (Labels n);
     Annotations := rebase_map (Annotations base) (Annotations desired) (Annotations n);
     Taints := if decide (Taints desired = Taints base) then Taints n else Taints desired;
     Unschedulable := if eqb (Unschedulable desired) (Unschedulable base) then Unschedulable n else Unschedulable desired |}.

(** The node the API server holds.  A successful update ran the mutation on a
    view of it and carried the changes over; a failed one changed nothing, or its
    answer was lost. *)
Class NodeAPILaws (W : Type) `{NodeAPI W} := {
  live : W -> string -> option Node;
  api_current w name n : api_node w name = inl n -> live w name = Some n;
  update_ok {A} w name (f : Node -> result (Node * A)) w' a : update_node w name f = (w', Ok a) ->
    exists n base n', live w name = Some n /\ agrees base n /\ f base = Ok (n', a) /\ live w' name = Some (rebase base n' n);
  update_err {A} w name (f : Node -> result (Node * A)) w' e : update_node w name f = (w', Err e) ->
    live w' name = live w name \/
    exists n base n' a, live w name = Some n /\ agrees base n /\ f base = Ok (n', a) /\ live w' name = Some (rebase base n' n);
  update_other {A} w name (f : Node -> result (Node * A)) w' r other :
    update_node w name f = (w', r) -> other <> name -> live w' other = live w other }.

(** After an update of its own the cache shows the node before it or after it. *)
Class CacheLaws (W : Type) `{NodeAPILaws W} :=
  cache_after : forall A w name (f : Node -> result (Node * A)) w' r n,
    update_node w name f = (w', r) -> cached_node w' name = Ok n ->
    cached_node w name = Ok n \/ exists m, live w' name = Some m /\ agrees n m.

Lemma rebase_map_lookup base desired m k :
  rebase_map base desired m !! k = if decide (desired !! k = base !! k) then m !! k else desired !! k.
Proof.
  unfold rebase_map. apply option_eq. intros v. rewrite map_lookup_filter_Some. simpl.
  rewrite lookup_union_Some_raw, map_lookup_filter_Some, map_lookup_filter_None. simpl. case_decide as Hd.
  - rewrite Hd. split.
    + intros [[[H1 H2]|[_ H2]] _]; [congruence|done].
    + intros Hm. split; [|destruct (base !! k); [right|left]; eauto]. right. split; [|done].
      destruct (base !! k); [|by left]. right. intros x [= ->] Hx. by apply Hx.
  - split.
    + intros [[[H1 _]|[Hn Hm]] Hk]; [done|]. exfalso. destruct (desired !! k) as [x|] eqn:Hx.
      * destruct Hn as [?|Hn]; [done|]. by apply (Hn x eq_refl).
      * destruct Hk as [Hb|[y Hy]]; congruence.
    + intros Hv. split; [|right; eauto]. left. split; [done|]. congruence.
Qed.

(** Where the view shows the value of [m], the changes carry over. *)
Lemma rebase_map_view base desired m k : base !! k = m !! k -> rebase_map base desired m !! k = desired !! k.
Proof. intros Hk. rewrite rebase_map_lookup. case_decide; congruence. Qed.

Lemma rebase_map_untouched base desired m k : desired !! k = base !! k -> rebase_map base desired m !! k = m !! k.
Proof. intros Hk. rewrite rebase_map_lookup. by case_decide. Qed.

Lemma rebase_agrees base desired n : agrees base n -> agrees (rebase base desired n) desired.
Proof.
  intros (A & B & C). repeat split; simpl.
  - case_decide; congruence.
  - destruct (eqb _ _) eqn:He; [apply eqb_prop in He; congruence|done].
  - intros key Hk. by apply rebase_map_view, C.
Qed.

(** ** Taints *)

Definition taintIdentity : Type := string * string.
Definition nt_identity (t : NodeTaint) : taintIdentity := (ntKey t, ntEffect t).
Definition cfg_identity (t : Taint) : taintIdentity := (Key t, Effect t).

(** The first loop of [applyTaints]: the first taint of each identity and its
    index. *)
Definition uniqueTaints (taints : list NodeTaint) : gmap taintIdentity nat * list NodeTaint :=
  fold_left (fun '(existing, unique) taint =>
    match existing !! nt_identity taint with
    | Some _ => (existing, unique)
    | None => (<[nt_identity taint := length unique]> existing, unique ++ [taint])
    end) taints (∅, []).

Definition set_value (v : string) (t : NodeTaint) : NodeTaint :=
  {| ntKey := ntKey t; ntValue := v; ntEffect := ntEffect t; ntTimeAdded := ntTimeAdded t |}.

(** The body of the second loop: an identity on the node gets the configured
    value, a new one is appended. *)
Definition applyTaint (s : gmap taintIdentity nat * list NodeTaint) (taintConfig : Taint) :
    gmap taintIdentity nat * list NodeTaint :=
  let '(existing, l) := s in
  match existing !! cfg_identity taintConfig with
  | Some index => (existing, alter (set_value (Value taintConfig)) index l)
  | None =>
      (<[cfg_identity taintConfig := length l]> existing,
       l ++ [{| ntKey := Key taintConfig; ntValue := Value taintConfig; ntEffect := Effect taintConfig;
                ntTimeAdded := None |}])
  end.

Definition applyTaints (dryRun : bool) (taints : list Taint) (node : Node) : Node :=
  if dryRun then node else with_taints node (fold_left applyTaint taints (uniqueTaints (Taints node))).2.

(** [removeNodeTaints]: the removed set is keyed by the whole configured taint, so
    one marked pre-existing matches no taint of the node. *)
Definition as_config (t : NodeTaint) : Taint :=
  {| Key := ntKey t; Value := ntValue t; Effect := ntEffect t; PreExisting := false |}.

Definition removeNodeTaints (dryRun : bool) (taintsToRemove : list Taint) (node : Node) : Node :=
  if dryRun then node
  else with_taints node (filter (fun t => as_config t ∉ taintsToRemove) (Taints node)).

Definition removeTaints (dryRun : bool) (taints : list Taint) (node : Node) : Node :=
  if dryRun then node else
  let present := as_config <$> Taints node in
  let taintsToActuallyRemove :=
    filter (fun t => {| Key := Key t; Value := Value t; Effect := Effect t; PreExisting := false |} ∈ present) taints in
  if (length taintsToActuallyRemove =? 0)%nat then node else removeNodeTaints dryRun taintsToActuallyRemove node.

(** ** Cordon and labels *)

Definition handleCordon (dryRun : bool) (node : Node) : Node :=
  if Unschedulable node then node else if dryRun then node else with_unschedulable node true.

Definition applyLabels (dryRun : bool) (labels : gmap string string) (node : Node) : Node :=
  if dryRun then node else with_labels node (labels ∪ Labels node).

Definition removeLabels (dryRun : bool) (labelKeys : list string) (node : Node) : Node :=
  if (length labelKeys =? 0)%nat then node else if dryRun then node
  else with_labels node (fold_left (fun m k => delete k m) labelKeys (Labels node)).

(** The label keys the client was configured with. *)
Record LabelKeys := {
  cordonedByLabelKey : string; cordonedReasonLabelKey : string; cordonedTimestampLabelKey : string;
  uncordonedByLabelKey : string; uncordonedReasonLabelKey : string; uncordonedTimestampLabelKey : string }.

Definition SetLabelKeys (prefix : string) : LabelKeys :=
  {| cordonedByLabelKey := prefix +:+ "cordon-by"; cordonedReasonLabelKey := prefix +:+ "cordon-reason";
     cordonedTimestampLabelKey := prefix +:+ "cordon-timestamp"; uncordonedByLabelKey := prefix +:+ "uncordon-by";
     uncordonedReasonLabelKey := prefix +:+ "uncordon-reason";
     uncordonedTimestampLabelKey := prefix +:+ "uncordon-timestamp" |}.

Definition handleUncordon (lk : LabelKeys) (dryRun : bool) (labels : gmap string string) (node : Node) : Node :=
  let node := if dryRun then node else with_unschedulable node false in
  if (size labels =? 0)%nat then node else
  let node := applyLabels dryRun labels node in
  let uncordonReason := at_key (Labels node) (cordonedReasonLabelKey lk) in
  if uncordonReason ==s "" then node
  else with_labels node (<[uncordonedReasonLabelKey lk := String.substring 0 55 uncordonReason +:+ "-removed"]> (Labels node)).

(** ** Merging the session annotations *)

Section session.
Context `{MapRange} `{SlotCodec}.
Context `{JSON (list Taint)} `{JSON (list AppliedLabel)} `{JSON (list HealthEvent)} `{JSON HealthEvent}
  `{JSON (list HealthEventWithTests)}.

Definition mergeAppliedTaints (existingTaints incomingTaints : list Taint) : list Taint :=
  let mergedByKey : gmap taintIdentity Taint :=
    fold_left (fun m taint =>
      <[cfg_identity taint :=
          match m !! cfg_identity taint with
          | Some existing => {| Key := Key taint; Value := Value taint; Effect := Effect taint;
                                PreExisting := PreExisting existing || PreExisting taint |}
          | None => taint
          end]> m) (existingTaints ++ incomingTaints) ∅ in
  (range mergedByKey).*2.

(** The label that stays when two rules set the same key: the higher priority,
    and the later rule at equal priority. *)
Definition outranks (p1 o1 p2 o2 : Z) : bool := (p2 <? p1)%Z || ((p1 =? p2)%Z && (o2 <? o1)%Z).

Definition mergeLabel (m : gmap string AppliedLabel) (incoming : AppliedLabel) : gmap string AppliedLabel :=
  match m !! alKey incoming with
  | Some existing =>
      if outranks (alPriority existing) (alOrder existing) (alPriority incoming) (alOrder incoming) then m
      else <[alKey incoming := incoming]> m
  | None => <[alKey incoming := incoming]> m
  end.

Definition mergeAppliedLabels (existingLabels incomingLabels : list AppliedLabel) : list AppliedLabel :=
  let mergedByKey := fold_left mergeLabel incomingLabels
    (fold_left (fun m label => <[alKey label := label]> m) existingLabels ∅) in
  omap (fun key => mergedByKey !! key) (merge_sort String.le (range mergedByKey).*1).

(** Decoding the record of open faults, with the single-event format of older
    versions as a fallback; [next] is the next free address. *)
Definition parseHealthEventsAnnotation (next : nat) (value : string) : result HealthEventsAnnotationMap :=
  match json_unmarshal (A := list HealthEvent) value with
  | Ok events => Ok (UnmarshalJSON (NewHealthEventsAnnotationMap next) events)
  | Err _ =>
      let? singleEvent := json_unmarshal (A := HealthEvent) value in
      Ok (AddOrUpdateEvent (NewHealthEventsAnnotationMap (S next)) {| addr := next; ev := singleEvent |}).1
  end.

Definition mergeHealthEventsAnnotations (existing incoming : HealthEventsAnnotationMap) : HealthEventsAnnotationMap :=
  fold_left (fun he event => (AddOrUpdateEvent he event).1) (range (Events incoming)).*2
    {| Events := Events existing; fresh := fresh incoming |}.

(** [mergeAnnotation]; [merge] decodes the second value after the first. *)
Definition mergeAnnotation {T} (existingValue incomingValue annotationName : string)
    (parse : nat -> string -> result T) (next : T -> nat) (merge : T -> T -> T) (marshal : T -> result string) :
    result string :=
  if IsEmptyValue existingValue then Ok incomingValue
  else if IsEmptyValue incomingValue then Ok existingValue
  else
    let? existing := rwrap ("failed to parse existing " +:+ annotationName +:+ " annotation") (parse 0 existingValue) in
    let? incoming := rwrap ("failed to parse incoming " +:+ annotationName +:+ " annotation")
                       (parse (next existing) incomingValue) in
    rwrap ("failed to marshal merged " +:+ annotationName +:+ " annotation") (marshal (merge existing incoming)).

Definition marshalRecord (he : HealthEventsAnnotationMap) : result string := json_marshal (MarshalJSON he).

Definition mergeQuarantineHealthEventAnnotation (e i : string) : result string :=
  mergeAnnotation e i "quarantine health event" parseHealthEventsAnnotation fresh mergeHealthEventsAnnotations marshalRecord.

Definition mergeAppliedTaintsAnnotation (e i : string) : result string :=
  mergeAnnotation e i "applied taints" (fun _ => json_unmarshal (A := list Taint)) (fun _ => 0)
    mergeAppliedTaints json_marshal.

Definition mergeAppliedLabelsAnnotation (e i : string) : result string :=
  mergeAnnotation e i "applied labels" (fun _ => json_unmarshal (A := list AppliedLabel)) (fun _ => 0)
    mergeAppliedLabels json_marshal.

Definition mergeQuarantineValidationHealthEventAnnotation (e i : string) : result string :=
  mergeAnnotation e i "quarantine validation health event"
    (fun _ => json_unmarshal (A := list HealthEventWithTests)) (fun _ => 0) app json_marshal.

(** The merge function of a key, where it has one. *)
Definition annotationMergers (key : string) : option (string -> string -> result string) :=
  if key ==s QuarantineHealthEventAnnotationKey then Some mergeQuarantineHealthEventAnnotation
  else if key ==s QuarantineHealthEventAppliedTaintsAnnotationKey then Some mergeAppliedTaintsAnnotation
  else if key ==s QuarantineHealthEventAppliedLabelsAnnotationKey then Some mergeAppliedLabelsAnnotation
  else if key ==s QuarantineValidationHealthEventAnnotationKey then Some mergeQuarantineValidationHealthEventAnnotation
  else None.

Definition mergedValue (key existing incoming : string) : result string :=
  match annotationMergers key with Some merge => merge existing incoming | None => Ok incoming end.

Definition applyAnnotations (annotations : gmap string string) (node : Node) : result Node :=
  fold_left (fun r '(key, value) =>
    let? n := r in
    let? v := rwrap ("failed to merge annotation " +:+ key +:+ " on node " +:+ Name node)
                (mergedValue key (at_key (Annotations n) key) value) in
    Ok (with_annotations n (<[key := v]> (Annotations n)))) (range annotations) (Ok node).

Definition hasNonEmptyQuarantineHealthEvent (node : Node) : bool :=
  negb (IsEmptyValue (at_key (Annotations node) QuarantineHealthEventAnnotationKey)).

Definition labelsWithSessionWinners (node : Node) (labels : gmap string string) : result (gmap string string) :=
  let appliedLabelsJSON := at_key (Annotations node) QuarantineHealthEventAppliedLabelsAnnotationKey in
  if IsEmptyValue appliedLabelsJSON then Ok labels
  else
    let? appliedLabels := json_unmarshal (A := list AppliedLabel) appliedLabelsJSON in
    Ok (fold_left (fun m label => <[alKey label := alValue label]> m) appliedLabels labels).

(** ** The two operations *)

Definition quarantineNode (dryRun : bool) (taints : list Taint) (isCordon : bool)
    (annotations labels : gmap string string) (node : Node) : result (Node * bool) :=
  let alreadyQuarantined := hasNonEmptyQuarantineHealthEvent node in
  let node := if dryRun then node
              else with_annotations node (delete QuarantineHealthEventDryRunAnnotationKey (Annotations node)) in
  let node := if (0 <? length taints)%nat then applyTaints dryRun taints node else node in
  let node := if isCordon then handleCordon dryRun node else node in
  let? node := if (0 <? size annotations)%nat then applyAnnotations annotations node else Ok node in
  if (0 <? size labels)%nat then
    let? labelsToApply := rwrap ("failed to get merged applied labels on node " +:+ Name node)
                            (labelsWithSessionWinners node labels) in
    Ok (applyLabels dryRun labelsToApply node, alreadyQuarantined)
  else Ok (node, alreadyQuarantined).

Definition unquarantineNode (lk : LabelKeys) (dryRun : bool) (taints : list Taint) (shouldUncordon : bool)
    (annotationKeys labelsToRemove : list string) (labels : gmap string string) (node : Node) : Node :=
  let node := if (0 <? length taints)%nat then removeTaints dryRun taints node else node in
  let node := if shouldUncordon then handleUncordon lk dryRun labels node else node in
  let node := with_annotations node (fold_left (fun m k => delete k m) annotationKeys (Annotations node)) in
  removeLabels dryRun labelsToRemove node.

(** ** Clean-up after an operator's change *)

Record ConditionalLabelRemoval := { Keys : list string; GuardKey : string; GuardValue : string }.

Definition updateNodeAnnotationsForManualUncordon (annotationsToRemove : list string)
    (annotationsToAdd : gmap string string) (node : Node) : Node :=
  with_annotations node
    (annotationsToAdd ∪ fold_left (fun m k => delete k m) annotationsToRemove (Annotations node)).

Definition manualUncordonCleanup (dryRun : bool) (annotationsToRemove : list string)
    (annotationsToAdd : gmap string string) (labelsToRemove : list string)
    (conditionalLabels : option ConditionalLabelRemoval) (node : Node) : Node :=
  let node := updateNodeAnnotationsForManualUncordon annotationsToRemove annotationsToAdd node in
  let node := removeLabels dryRun labelsToRemove node in
  match conditionalLabels with
  | Some c =>
      if (0 <? length (Keys c))%nat && (at_key (Labels node) (GuardKey c) ==s GuardValue c)
      then removeLabels dryRun (Keys c) node else node
  | None => node
  end.

Definition manualUntaintCleanup (dryRun : bool) (annotationsToRemove : list string)
    (annotationsToAdd : gmap string string) (labelsToRemove : list string) (node : Node) : Node :=
  removeLabels dryRun labelsToRemove
    (updateNodeAnnotationsForManualUncordon annotationsToRemove annotationsToAdd node).

(** ** Against the API *)

Context {W : Type} `{NodeAPI W}.

Definition QuarantineNodeAndSetAnnotations (dryRun : bool) (w : W) (nodename : string) (taints : list Taint)
    (isCordon : bool) (annotations labels : gmap string string) : W * result bool :=
  update_node w nodename (quarantineNode dryRun taints isCordon annotations labels).

Definition UnQuarantineNodeAndRemoveAnnotations (lk : LabelKeys) (dryRun : bool) (w : W) (nodename : string)
    (taints : list Taint) (shouldUncordon : bool) (annotationKeys labelsToRemove : list string)
    (labels : gmap string string) : W * result unit :=
  update_node w nodename (fun node =>
    Ok (unquarantineNode lk dryRun taints shouldUncordon annotationKeys labelsToRemove labels node, tt)).

Definition HandleManualUncordonCleanup (dryRun : bool) (w : W) (nodename : string)
    (annotationsToRemove : list string) (annotationsToAdd : gmap string string) (labelsToRemove : list string)
    (conditionalLabels : option ConditionalLabelRemoval) : W * result unit :=
  update_node w nodename (fun node =>
    Ok (manualUncordonCleanup dryRun annotationsToRemove annotationsToAdd labelsToRemove conditionalLabels node, tt)).

Definition HandleManualUntaintCleanup (dryRun : bool) (w : W) (nodename : string)
    (annotationsToRemove : list string) (annotationsToAdd : gmap string string) (labelsToRemove : list string) :
    W * result unit :=
  update_node w nodename (fun node =>
    Ok (manualUntaintCleanup dryRun annotationsToRemove annotationsToAdd labelsToRemove node, tt)).

End session.

(** ** What the taint operations do *)

Abbreviation ids l := (nt_identity <$> l).

(** The configured taint that is applied last among those of an identity. *)
Definition last_at (T : list Taint) (i : taintIdentity) : option Taint :=
  fold_left (fun acc t => if decide (cfg_identity t = i) then Some t else acc) T None.

Lemma last_at_snoc T t i :
  last_at (T ++ [t]) i = if decide (cfg_identity t = i) then Some t else last_at T i.
Proof. unfold last_at. by rewrite fold_left_app. Qed.

Lemma last_at_Some T i t : last_at T i = Some t -> t ∈ T /\ cfg_identity t = i.
Proof.
  induction T as [|x T IH] using rev_ind; [done|]. rewrite last_at_snoc. case_decide.
  - intros [= <-]. split; [set_solver|done].
  - intros [? ?]%IH. split; [set_solver|done].
Qed.

Lemma last_at_None T i : last_at T i = None <-> forall t, t ∈ T -> cfg_identity t <> i.
Proof.
  induction T as [|x T IH] using rev_ind; [set_solver|]. rewrite last_at_snoc. case_decide as Hd.
  - split; [done|]. intros Hn. by destruct (Hn x); [set_solver|].
  - rewrite IH. split; intros Hn t; [rewrite elem_of_app, list_elem_of_singleton|]; [intros [?| ->]; eauto|].
    intros Ht. apply Hn. set_solver.
Qed.

Lemma last_at_app_r T1 T2 i t : last_at T2 i = Some t -> last_at (T1 ++ T2) i = Some t.
Proof.
  induction T2 as [|x T2 IH] using rev_ind; [done|]. rewrite app_assoc, !last_at_snoc. case_decide; auto.
Qed.

Lemma last_at_app_l T1 T2 i : last_at T2 i = None -> last_at (T1 ++ T2) i = last_at T1 i.
Proof.
  induction T2 as [|x T2 IH] using rev_ind; [by rewrite app_nil_r|]. rewrite app_assoc, !last_at_snoc. case_decide; auto.
  done.
Qed.

(** A taint of the node with the value the configuration gives its identity. *)
Definition revalue (T : list Taint) (t : NodeTaint) : NodeTaint :=
  match last_at T (nt_identity t) with Some c => set_value (Value c) t | None => t end.

Lemma revalue_identity T t : nt_identity (revalue T t) = nt_identity t.
Proof. unfold revalue. by destruct (last_at T _). Qed.

(** The index of the taints of the node. *)
Definition indexed (s : gmap taintIdentity nat * list NodeTaint) : Prop :=
  NoDup (ids s.2) /\ forall i n, s.1 !! i = Some n <-> exists t, s.2 !! n = Some t /\ nt_identity t = i.

Lemma indexed_missing s i : indexed s -> s.1 !! i = None <-> i ∉ ids s.2.
Proof.
  intros [_ Hix]. rewrite list_elem_of_fmap. split.
  - intros Hn (t & -> & [n Hl]%list_elem_of_lookup). assert (s.1 !! nt_identity t = Some n) as He by (apply Hix; eauto). by rewrite Hn in He.
  - intros Hn. destruct (s.1 !! i) as [n|] eqn:He; [|done]. apply Hix in He as (t & Ht & <-). destruct Hn. exists t.
    split; [done|]. by eapply list_elem_of_lookup_2.
Qed.

Lemma indexed_snoc m l t : indexed (m, l) -> nt_identity t ∉ ids l -> indexed (<[nt_identity t := length l]> m, l ++ [t]).
Proof.
  intros [Hnd Hix] Hnew. simpl in *. split; simpl.
  - rewrite fmap_app. apply NoDup_app. split; [done|]. split; [|apply NoDup_singleton].
    intros x Hx ->%list_elem_of_singleton. done.
  - intros i n. rewrite lookup_insert_Some, Hix. split.
    + intros [[<- <-]|[Hne (u & Hu & Hid)]].
      * exists t. split; [|done]. by apply list_lookup_middle.
      * exists u. split; [|done]. by apply lookup_app_l_Some.
    + intros (u & Hu & Hid). apply lookup_app_Some in Hu as [Hu|[Hlen Hu]].
      * right. split; [|eauto]. intros <-. apply Hnew. rewrite <- Hid. apply list_elem_of_fmap_2.
        by eapply list_elem_of_lookup_2.
      * apply list_lookup_singleton_Some in Hu as [Hz <-]. left. split; [done|lia].
Qed.

Lemma uniqueTaints_indexed l : indexed (uniqueTaints l).
Proof.
  unfold uniqueTaints. induction l as [|t l IH] using rev_ind.
  { split; simpl; [by apply NoDup_nil|]. intros i n. rewrite lookup_empty. split; [done|]. by intros (t & ? & _). }
  rewrite fold_left_app. simpl. destruct (fold_left _ l _) as [m u]. destruct (m !! nt_identity t) eqn:Hm; [done|].
  apply indexed_snoc; [done|]. by apply (indexed_missing (m, u)).
Qed.

Lemma uniqueTaints_nodup l : NoDup (ids l) -> (uniqueTaints l).2 = l.
Proof.
  pose proof (uniqueTaints_indexed) as Hix. unfold uniqueTaints in *. induction l as [|t l IH] using rev_ind; [done|].
  intros Hnd. rewrite fmap_app in Hnd. apply NoDup_app in Hnd as (Hnd & Hdis & _). specialize (Hix l). specialize (IH Hnd).
  rewrite fold_left_app. simpl. destruct (fold_left _ l _) as [m u] eqn:Hf. simpl in IH. subst u.
  enough (m !! nt_identity t = None) as -> by done. apply (indexed_missing (m, l)); [done|]. simpl. intros Hin.
  apply (Hdis (nt_identity t)); [done|]. by apply list_elem_of_singleton.
Qed.

(** Writing a value through the index is writing it to the taint of that
    identity. *)
Definition touch (t : Taint) (u : NodeTaint) : NodeTaint :=
  if decide (nt_identity u = cfg_identity t) then set_value (Value t) u else u.

Lemma touch_identity t u : nt_identity (touch t u) = nt_identity u.
Proof. unfold touch. by case_decide. Qed.

Lemma ids_fmap (f : NodeTaint -> NodeTaint) (l : list NodeTaint) : (forall u, nt_identity (f u) = nt_identity u) -> ids (f <$> l) = ids l.
Proof. intros Hf. rewrite <- list_fmap_compose. apply list_fmap_ext. intros. apply Hf. Qed.

Lemma alter_touch m l t n :
  indexed (m, l) -> m !! cfg_identity t = Some n -> alter (set_value (Value t)) n l = touch t <$> l.
Proof.
  intros [Hnd Hix] Hn. simpl in *. apply list_eq. intros i. rewrite list_lookup_fmap.
  apply Hix in Hn as (u & Hu & Hid). destruct (decide (i = n)) as [->|Hne].
  - rewrite list_lookup_alter_eq, Hu. simpl. unfold touch. by rewrite decide_True.
  - rewrite list_lookup_alter_ne by done. destruct (l !! i) as [x|] eqn:Hx; [|done]. simpl. f_equal. unfold touch.
    rewrite decide_False; [done|]. intros He. apply Hne. eapply (NoDup_lookup (ids l) i n (cfg_identity t)); [done|..].
    + by rewrite list_lookup_fmap, Hx, <- He.
    + by rewrite list_lookup_fmap, Hu, <- Hid.
Qed.

Lemma indexed_fmap m l (f : NodeTaint -> NodeTaint) :
  (forall u, nt_identity (f u) = nt_identity u) -> indexed (m, l) -> indexed (m, f <$> l).
Proof.
  intros Hf [Hnd Hix]. split; simpl in *; [by rewrite ids_fmap|]. intros i n. rewrite Hix, list_lookup_fmap.
  split; [intros (t & -> & <-); exists (f t); by rewrite Hf|].
  destruct (l !! n) as [t|]; simpl; [|by intros (? & ? & _)]. intros (? & [= <-] & <-). exists t. by rewrite Hf.
Qed.

Lemma revalue_snoc T t u : revalue (T ++ [t]) u = touch t (revalue T u).
Proof.
  unfold revalue, touch. fold (revalue T u). rewrite last_at_snoc. fold (revalue T u) in *.
  change (nt_identity (match last_at T (nt_identity u) with Some c => set_value (Value c) u | None => u end))
    with (nt_identity (revalue T u)). rewrite revalue_identity. unfold revalue.
  case_decide as H1; case_decide as H2; try congruence; by destruct (last_at T _).
Qed.

(** The whole effect: known taints get the value configured last for their
    identity, the others are appended. *)
Lemma applyTaint_spec l T :
  NoDup (ids l) ->
  exists added, (fold_left applyTaint T (uniqueTaints l)).2 = (revalue T <$> l) ++ added /\
    indexed (fold_left applyTaint T (uniqueTaints l)) /\
    (forall a, a ∈ added -> nt_identity a ∉ ids l /\ exists t, last_at T (nt_identity a) = Some t /\ Value t = ntValue a) /\
    (forall t, t ∈ T -> cfg_identity t ∈ ids l \/ cfg_identity t ∈ ids added).
Proof.
  intros Hnd. induction T as [|t T IH] using rev_ind.
  { exists []. rewrite app_nil_r. split; [|split; [apply uniqueTaints_indexed|set_solver]].
    simpl. rewrite (uniqueTaints_nodup l Hnd). rewrite <- (list_fmap_id l) at 1. apply list_fmap_ext. by intros. }
  destruct IH as (added & Heq & Hix & Hadd & Hcov). rewrite fold_left_app. simpl.
  destruct (fold_left applyTaint T _) as [m cur]. simpl in Heq, Hix. subst cur. unfold applyTaint.
  assert (Hids : ids ((revalue T <$> l) ++ added) = ids l ++ ids added).
  { rewrite fmap_app, ids_fmap; [done|]. apply revalue_identity. }
  assert (Hrev : forall l' : list NodeTaint, touch t <$> (revalue T <$> l') = revalue (T ++ [t]) <$> l').
  { intros l'. rewrite <- list_fmap_compose. apply list_fmap_ext. intros. by rewrite revalue_snoc. }
  destruct (m !! cfg_identity t) as [n|] eqn:Hm.
  - exists (touch t <$> added). rewrite (alter_touch m _ t n Hix Hm). simpl. rewrite fmap_app, Hrev. split; [done|].
    split; [rewrite <- Hrev, <- fmap_app; apply indexed_fmap; [apply touch_identity|done]|]. split.
    + intros a (u & -> & Hu)%list_elem_of_fmap. rewrite touch_identity, last_at_snoc. destruct (Hadd u Hu) as [Hn (c & Hc & Hv)].
      split; [done|]. unfold touch. case_decide as H1; case_decide as H2; try congruence; [by exists t|eauto].
    + rewrite (ids_fmap (touch t)) by apply touch_identity. intros x [Hx|Hx%list_elem_of_singleton]%elem_of_app; [eauto|]. subst x.
      apply Hix in Hm as (u & Hu & <-). apply elem_of_app. rewrite <- Hids. apply list_elem_of_fmap_2.
      by eapply list_elem_of_lookup_2.
  - pose proof (proj1 (indexed_missing _ _ Hix) Hm) as Hmiss. simpl in Hmiss. rewrite Hids, not_elem_of_app in Hmiss.
    destruct Hmiss as [Hm1 Hm2].
    set (new := {| ntKey := Key t; ntValue := Value t; ntEffect := Effect t; ntTimeAdded := None |}).
    exists (added ++ [new]). simpl. rewrite app_assoc. split; [|split; [|split]].
    + f_equal. f_equal. apply list_fmap_ext. intros i u Hu. rewrite revalue_snoc. unfold touch. rewrite decide_False; [done|].
      rewrite revalue_identity. intros He. apply Hm1. rewrite <- He. apply list_elem_of_fmap_2.
      by eapply list_elem_of_lookup_2.
    + apply (indexed_snoc m _ new Hix). rewrite Hids, not_elem_of_app. done.
    + intros a [Ha|Ha%list_elem_of_singleton]%elem_of_app; rewrite last_at_snoc.
      * destruct (Hadd a Ha) as [Hn (c & Hc & Hv)]. split; [done|]. rewrite decide_False; [eauto|].
        intros He. apply Hm2. rewrite He. by apply list_elem_of_fmap_2.
      * subst a. split; [done|]. exists t. by rewrite decide_True.
    + intros x [Hx|Hx%list_elem_of_singleton]%elem_of_app; rewrite fmap_app, elem_of_app.
      * destruct (Hcov x Hx); auto.
      * subst x. right. right. by apply list_elem_of_singleton.
Qed.

(** Releasing removes exactly the given taints that are on the node. *)
Lemma removeTaints_spec taints node :
  removeTaints false taints node =
  with_taints node (filter (fun t => as_config t ∉ taints) (Taints node)).
Proof.
  unfold removeTaints, removeNodeTaints. cbv zeta.
  set (actual := filter _ taints).
  assert (Hf : filter (fun t => as_config t ∉ actual) (Taints node) = filter (fun t => as_config t ∉ taints) (Taints node)).
  { apply filter_agree. intros t Ht. unfold actual. rewrite list_elem_of_filter.
    assert (as_config t ∈ as_config <$> Taints node) by (by apply list_elem_of_fmap_2). simpl.
    split; [intros Hn Hi; by apply Hn|by intros Hn [_ Hi]]. }
  destruct (length actual =? 0)%nat eqn:Hl; [|by rewrite Hf].
  apply Nat.eqb_eq, length_zero_iff_nil in Hl. rewrite <- Hf, Hl. rewrite filter_all; [by destruct node|].
  intros t Ht. apply not_elem_of_nil.
Qed.

(** ** What the merges keep *)

Definition mark (b : bool) (t : Taint) : Taint :=
  {| Key := Key t; Value := Value t; Effect := Effect t; PreExisting := b |}.

Definition any_pre (L : list Taint) (i : taintIdentity) : bool :=
  existsb (fun t => bool_decide (cfg_identity t = i) && PreExisting t) L.

Section theory.
Context {MR : MapRange} {MRL : MapRangeLaws} {SC : SlotCodec}.
Context `{JT : JSON (list Taint), JTL : !JSONLaws (list Taint), JTN : !JSONListLaws Taint}.
Context `{JL : JSON (list AppliedLabel)} `{JV : JSON (list HealthEventWithTests)}.
Context `{JE : JSON (list HealthEvent), JEL : !JSONLaws (list HealthEvent), JEN : !JSONListLaws HealthEvent}.
Context `{JS : JSON HealthEvent}.

(** A merged list has one taint per identity: the last one recorded, marked when
    one of them was marked. *)
Lemma last_at_merge E I i :
  last_at (mergeAppliedTaints E I) i = mark (any_pre (E ++ I) i) <$> last_at (E ++ I) i.
Proof.
  unfold mergeAppliedTaints. generalize (E ++ I) as L. intros L. set (step := fun (m : gmap taintIdentity Taint) taint => _).
  assert (Hm : forall j, fold_left step L ∅ !! j = mark (any_pre L j) <$> last_at L j).
  { induction L as [|x L IH] using rev_ind; intros j; [done|].
    rewrite fold_left_app, last_at_snoc. unfold any_pre. rewrite existsb_app. fold (any_pre L j). simpl. unfold step at 1.
    rewrite orb_false_r. destruct (decide (cfg_identity x = j)) as [<-|Hne].
    - rewrite lookup_insert_eq, bool_decide_eq_true_2 by done. simpl. f_equal. rewrite IH.
      destruct (last_at L (cfg_identity x)) as [c|] eqn:Hc; simpl; [done|].
      enough (any_pre L (cfg_identity x) = false) as -> by by destruct x.
      apply existsb_none. intros y Hy. rewrite bool_decide_eq_false_2; [done|]. by eapply last_at_None.
    - rewrite lookup_insert_ne by done. rewrite IH, bool_decide_eq_false_2 by done. simpl. by rewrite orb_false_r. }
  rewrite <- Hm. set (m := fold_left step L ∅) in *. clearbody m. clear step.
  assert (Hid : forall j t, m !! j = Some t -> cfg_identity t = j).
  { intros j t. rewrite Hm. intros (c & Hc & ->)%fmap_Some. apply last_at_Some in Hc as [_ <-]. done. }
  destruct (last_at (range m).*2 i) as [t|] eqn:Ht.
  - apply last_at_Some in Ht as [([j t'] & -> & Hj%elem_of_range)%list_elem_of_fmap Hi]. simpl in *.
    pose proof (Hid j t' Hj). by rewrite <- Hi, H.
  - destruct (m !! i) as [t|] eqn:Hmi; [|done]. exfalso. rewrite last_at_None in Ht. apply (Ht t); [|by apply Hid].
    apply list_elem_of_fmap. exists (i, t). split; [done|]. by apply elem_of_range.
Qed.

(** Every merged taint comes from the lists. *)
Lemma elem_of_merge E I t : t ∈ mergeAppliedTaints E I -> exists c, c ∈ E ++ I /\ cfg_identity c = cfg_identity t /\
  PreExisting t = any_pre (E ++ I) (cfg_identity t).
Proof.
  intros Ht. destruct (last_at (mergeAppliedTaints E I) (cfg_identity t)) as [u|] eqn:Hl.
  2: { rewrite last_at_None in Hl. by destruct (Hl t Ht). }
  assert (u = t) as ->.
  { unfold mergeAppliedTaints in Hl, Ht. set (m := fold_left _ _ ∅) in *. apply last_at_Some in Hl as [Hu Hid].
    apply list_elem_of_fmap in Hu as ([i1 t1] & -> & H1%elem_of_range), Ht as ([i2 t2] & -> & H2%elem_of_range). simpl in *.
    enough (Hk : forall i x, m !! i = Some x -> cfg_identity x = i).
    { pose proof (Hk _ _ H1). pose proof (Hk _ _ H2). congruence. }
    unfold m. clear m H1 H2 Hid. induction (E ++ I) as [|x l IH] using rev_ind; intros i y; [simpl; by rewrite lookup_empty|].
    rewrite fold_left_app. simpl. rewrite lookup_insert_Some. intros [[<- <-]|[_ Hy]]; [by case_match|by apply IH]. }
  rewrite last_at_merge in Hl. apply fmap_Some in Hl as (c & Hc & ->). apply last_at_Some in Hc as [Hin Hid]. exists c. split; [done|]. split; [done|].
  simpl. change (cfg_identity (mark _ c)) with (cfg_identity c). by rewrite Hid.
Qed.

(** ** The record in the annotation *)

(** The text [v] decodes, at any address, to a record that says [f]. *)
Definition parses (v : string) (f : HealthEventKey -> option RecommendedAction) : Prop :=
  forall next, exists he, parseHealthEventsAnnotation next v = Ok he /\ ann_wf he /\
    (forall k, action_at he k = f k) /\ next <= fresh he /\
    forall k r, Events he !! k = Some r -> next <= addr r.

Lemma UnmarshalJSON_addr next events :
  next <= fresh (UnmarshalJSON (NewHealthEventsAnnotationMap next) events) /\
  forall k r, Events (UnmarshalJSON (NewHealthEventsAnnotationMap next) events) !! k = Some r -> next <= addr r.
Proof.
  unfold UnmarshalJSON. induction events as [|e events [IH1 IH2]] using rev_ind.
  { split; [done|]. intros k r. simpl. by rewrite lookup_empty. }
  rewrite fold_left_app. cbn [fold_left fresh Events]. split; [by apply le_S|]. intros k r. rewrite fold_insert_lookup. case_decide; [|apply IH2].
  intros [= <-]. done.
Qed.

(** What this version writes is read back. *)
Lemma parses_marshal he s : ann_wf he -> marshalRecord he = Ok s -> parses s (action_at he).
Proof.
  intros Hwf Hs next. unfold parseHealthEventsAnnotation. rewrite (json_roundtrip _ _ Hs). eexists. split; [done|].
  split; [by apply read_back_wf|]. split; [by apply read_back|]. apply UnmarshalJSON_addr.
Qed.

(** So is the single event older versions wrote. *)
Lemma parses_single v e msg : json_unmarshal (A := list HealthEvent) v = Err msg ->
  json_unmarshal (A := HealthEvent) v = Ok e ->
  parses v (fun k => if bool_decide (k ∈ createEventKeys e) then Some (Action e) else None).
Proof.
  intros Hl Hs next. unfold parseHealthEventsAnnotation. rewrite Hl, Hs. simpl. eexists. split; [done|].
  set (new := {| addr := next; ev := e |}).
  assert (Hkn : known (NewHealthEventsAnnotationMap (S next)) new) by (split; simpl; [lia|done]).
  destruct (AddOrUpdateEventFiltered_refines _ new None (NewHealthEventsAnnotationMap_wf (S next)) Hkn) as (H1 & _ & H3).
  split; [exact H1|]. destruct (add_grown (NewHealthEventsAnnotationMap (S next)) new None) as [F G].
  split; [|split].
  - intros k. rewrite action_of_payload. unfold AddOrUpdateEvent. rewrite H3. simpl. unfold needs, payload_at. simpl.
    case_bool_decide; simpl; [|done]. rewrite lookup_empty. cbn. f_equal. exact (stored_action new (S next)).
  - unfold AddOrUpdateEvent. simpl in F. lia.
  - intros k r [Hr|[->%list_elem_of_singleton|Hr]]%G; simpl in *; [done|done|lia].
Qed.

Lemma marshal_not_empty he s : ann_wf he -> Events he <> ∅ -> marshalRecord he = Ok s -> IsEmptyValue s = false.
Proof.
  intros Hwf Hne Hs. apply (json_list_text _ _ Hs). apply map_choose in Hne as (k & r & Hk).
  intros Hn. assert (ev r ∈ MarshalJSON he) as Hi by (apply elem_of_MarshalJSON; [apply Hwf|eauto]).
  rewrite Hn in Hi. by apply not_elem_of_nil in Hi.
Qed.

(** Two records merge to what the incoming one says, and what the existing one
    says otherwise. *)
Lemma mergeHealthEventsAnnotations_spec existing incoming :
  ann_wf existing -> ann_wf incoming -> fresh existing <= fresh incoming ->
  (forall k r, Events incoming !! k = Some r -> fresh existing <= addr r) ->
  ann_wf (mergeHealthEventsAnnotations existing incoming) /\
  forall k, action_at (mergeHealthEventsAnnotations existing incoming) k =
    match action_at incoming k with Some a => Some a | None => action_at existing k end.
Proof.
  intros [[Ho1 Ho2 Ho3] Hec] [[Hi1 Hi2 Hi3] Hic] Hf Hlow. unfold mergeHealthEventsAnnotations.
  set (refs := (range (Events incoming)).*2).
  assert (Hrefs : forall r, r ∈ refs <-> exists k, Events incoming !! k = Some r).
  { intros r. unfold refs. rewrite list_elem_of_fmap. split.
    - intros ([k r'] & -> & Hk%elem_of_range). eauto.
    - intros [k Hk]. exists (k, r). by rewrite elem_of_range. }
  destruct (add_all_actions refs {| Events := Events existing; fresh := fresh incoming |}) as (Hwf & Hin & Hout).
  - split; [split|]; simpl; [|done..]. intros k r Hr%Ho1. lia.
  - intros r [k Hk]%Hrefs. split; simpl; [eauto|]. intros k' r' Hr' Ha. apply Ho1 in Hr'. apply Hlow in Hk. lia.
  - intros r1 r2 [k1 H1]%Hrefs [k2 H2]%Hrefs. by apply (Hi2 k1 k2).
  - intros r1 r2 k [k1 H1]%Hrefs [k2 H2]%Hrefs Hk1 Hk2.
    pose proof (Hic k1 r1 k H1 Hk1) as E1. pose proof (Hic k2 r2 k H2 Hk2) as E2. congruence.
  - split; [done|]. intros k. unfold action_at at 2. destruct (Events incoming !! k) as [r|] eqn:Hk; simpl.
    + apply Hin; [apply Hrefs; eauto|by eapply Hi3].
    + rewrite Hout; [done|]. intros r [k' Hr]%Hrefs Hkr. pose proof (Hic k' r k Hr Hkr) as E. unfold action_at in E.
      by rewrite Hk in E.
Qed.

(** The open faults an annotation text records. *)
Definition tracked_text (v : string) (k : HealthEventKey) : option RecommendedAction :=
  if IsEmptyValue v then None
  else match parseHealthEventsAnnotation 0 v with Ok he => action_at he k | Err _ => None end.

Definition record_wf (v : string) : Prop := IsEmptyValue v = true \/ exists f, parses v f.

Lemma parses_tracked v f : IsEmptyValue v = false -> parses v f -> forall k, tracked_text v k = f k.
Proof.
  intros He Hp k. unfold tracked_text. rewrite He. destruct (Hp 0) as (he & -> & _ & Hk & _). apply Hk.
Qed.

Lemma record_wf_marshal he s : ann_wf he -> Events he <> ∅ -> marshalRecord he = Ok s ->
  IsEmptyValue s = false /\ record_wf s /\ forall k, tracked_text s k = action_at he k.
Proof.
  intros Hwf Hne Hs. pose proof (marshal_not_empty he s Hwf Hne Hs) as He. pose proof (parses_marshal he s Hwf Hs) as Hp.
  split; [done|]. split; [right; eauto|]. by apply parses_tracked.
Qed.

(** Merging texts. *)
Lemma merge_record_text v he s r :
  record_wf v -> ann_wf he -> Events he <> ∅ -> marshalRecord he = Ok s ->
  mergeQuarantineHealthEventAnnotation v s = Ok r ->
  IsEmptyValue r = false /\ record_wf r /\
  forall k, tracked_text r k = match action_at he k with Some a => Some a | None => tracked_text v k end.
Proof.
  intros Hv Hwf Hne Hs. destruct (record_wf_marshal he s Hwf Hne Hs) as (He & Hrs & Hts).
  unfold mergeQuarantineHealthEventAnnotation, mergeAnnotation. destruct (IsEmptyValue v) eqn:Hev.
  { intros [= <-]. split; [done|]. split; [done|]. intros k. rewrite Hts. unfold tracked_text. rewrite Hev. by destruct (action_at he k). }
  rewrite He. destruct Hv as [?|[f Hf]]; [congruence|]. pose proof (parses_tracked v f Hev Hf) as Hft.
  destruct (Hf 0) as (existing & -> & Hw1 & Ha1 & _). simpl.
  destruct (parses_marshal he s Hwf Hs (fresh existing)) as (incoming & -> & Hw2 & Ha2 & Hfr & Had). simpl.
  destruct (mergeHealthEventsAnnotations_spec existing incoming Hw1 Hw2 Hfr Had) as [Hw3 Ha3].
  destruct (marshalRecord (mergeHealthEventsAnnotations existing incoming)) as [t|] eqn:Ht; unfold rwrap; [|done]. intros Hr. injection Hr as <-.
  destruct (record_wf_marshal _ t Hw3) as (H1 & H2 & H3); [|done|].
  - apply map_choose in Hne as (k & x & Hk). intros Hn. specialize (Ha3 k). rewrite Ha2 in Ha3. unfold action_at in Ha3.
    by rewrite Hk, Hn, lookup_empty in Ha3.
  - split; [done|]. split; [done|]. intros k. rewrite H3, Ha3, Ha2, Ha1, Hft. done.
Qed.

(** ** One update of the node *)

(** [key] holds what merging [incoming] into the annotations [m] gives. *)
Definition merged_at (incoming m m' : gmap string string) (key : string) : Prop :=
  match incoming !! key with
  | Some v => exists v', mergedValue key (at_key m key) v = Ok v' /\ m' !! key = Some v'
  | None => m' !! key = m !! key
  end.

Lemma applyAnnotations_ok annotations n n' :
  applyAnnotations annotations n = Ok n' ->
  n' = with_annotations n (Annotations n') /\ forall key, merged_at annotations (Annotations n) (Annotations n') key.
Proof.
  unfold applyAnnotations. set (f := fun (r : result Node) '(key, value) => _). intros Hr.
  assert (Hf : forall l r m, NoDup l.*1 -> fold_left f l (Ok (with_annotations n m)) = Ok r ->
    r = with_annotations n (Annotations r) /\
    (forall key v, (key, v) ∈ l -> exists v', mergedValue key (at_key m key) v = Ok v' /\ Annotations r !! key = Some v') /\
    (forall key, key ∉ l.*1 -> Annotations r !! key = m !! key)).
  { clear Hr. induction l as [|[key v] l IH]; intros r m Hnd.
    { simpl. intros Hr. injection Hr as <-. split; [done|]. split; [|done]. intros key v Hv. by apply not_elem_of_nil in Hv. }
    apply NoDup_cons in Hnd as [Hni Hnd]. cbn [fold_left]. unfold f at 2. cbn [rbind Annotations with_annotations].
    destruct (mergedValue key (at_key m key) v) as [v'|e] eqn:Hv; cbn [rwrap rbind].
    - intros Hr. destruct (IH r (<[key := v']> m) Hnd Hr) as (H1 & H2 & H3). split; [done|]. split.
      + intros key0 v0 [[= -> ->]|Hin]%elem_of_cons.
        * exists v'. split; [done|]. rewrite H3 by done. by rewrite lookup_insert_eq.
        * destruct (H2 key0 v0 Hin) as (v1 & E1 & E2). exists v1. split; [|done]. rewrite <- E1. f_equal. unfold at_key.
          rewrite lookup_insert_ne; [done|]. intros ->. apply Hni. apply list_elem_of_fmap. by exists (key0, v0).
      + intros key0 Hn. rewrite fmap_cons, not_elem_of_cons in Hn. destruct Hn as [Hne Hn]. simpl in Hne. rewrite H3 by done.
        by rewrite lookup_insert_ne by congruence.
    - assert (Herr : forall l0, fold_left f l0 (Err (wrapf ("failed to merge annotation " +:+ key +:+ " on node " +:+ Name n) e)) <> Ok r).
      { induction l0 as [|[? ?] l0 IH0]; [done|]. simpl. apply IH0. }
      intros Hr. by apply Herr in Hr. }
  destruct (Hf (range annotations) n' (Annotations n) (NoDup_range annotations)) as (H1 & H2 & H3).
  { rewrite <- Hr. by destruct n. }
  split; [done|]. intros key. unfold merged_at. destruct (annotations !! key) as [v|] eqn:Hk.
  - apply H2. by apply elem_of_range.
  - apply H3. intros ([key0 v] & -> & Hv%elem_of_range)%list_elem_of_fmap. simpl in *. congruence.
Qed.

(** The annotations a mutation starts from. *)
Definition session_base (dryRun : bool) (n : Node) : gmap string string :=
  if dryRun then Annotations n else delete QuarantineHealthEventDryRunAnnotationKey (Annotations n).

Lemma quarantineNode_spec dryRun T cordon A L n n' b :
  quarantineNode dryRun T cordon A L n = Ok (n', b) ->
  b = hasNonEmptyQuarantineHealthEvent n /\ Name n' = Name n /\
  Taints n' = (if dryRun || (length T =? 0)%nat then Taints n else (fold_left applyTaint T (uniqueTaints (Taints n))).2) /\
  Unschedulable n' = Unschedulable n || (cordon && negb dryRun) /\
  (forall key, merged_at A (session_base dryRun n) (Annotations n') key) /\
  (dryRun = true -> Labels n' = Labels n).
Proof.
  unfold quarantineNode. cbv zeta.
  set (n1 := if dryRun then n else _). assert (H1 : n1 = with_annotations n (session_base dryRun n)).
  { unfold n1, session_base. destruct dryRun; by destruct n. }
  set (n2 := if (0 <? length T)%nat then _ else _).
  assert (H2 : n2 = with_taints n1 (if dryRun || (length T =? 0)%nat then Taints n
    else (fold_left applyTaint T (uniqueTaints (Taints n))).2)).
  { unfold n2. destruct T as [|t T]; simpl.
    - rewrite H1, orb_true_r. by destruct n.
    - rewrite orb_false_r. unfold applyTaints. rewrite H1. destruct dryRun; by destruct n. }
  set (n3 := if cordon then _ else _).
  assert (H3 : n3 = with_unschedulable n2 (Unschedulable n || (cordon && negb dryRun))).
  { unfold n3, handleCordon. rewrite H2, H1. destruct n as [? ? ? ? u]. simpl. by destruct cordon, u, dryRun. }
  destruct (if (0 <? size A)%nat then applyAnnotations A n3 else Ok n3) as [n4|e] eqn:H4; cbn [rbind]; [|done].
  assert (H5 : n4 = with_annotations n3 (Annotations n4) /\ forall key, merged_at A (session_base dryRun n) (Annotations n4) key).
  { replace (session_base dryRun n) with (Annotations n3) by (rewrite H3, H2, H1; done).
    destruct (0 <? size A)%nat eqn:Hsz; [by apply applyAnnotations_ok|]. injection H4 as <-. split; [by destruct n3|].
    intros key. apply Nat.ltb_ge in Hsz. unfold merged_at. assert (A = ∅) as -> by (apply map_size_empty_iff; lia). by rewrite lookup_empty. }
  destruct H5 as [H5 H6]. intros Hq.
  assert (Hend : exists ls, n' = (if dryRun then n4 else with_labels n4 ls) /\ b = hasNonEmptyQuarantineHealthEvent n).
  { destruct (0 <? size L)%nat; [|injection Hq as <- <-; exists (Labels n4); destruct dryRun; by destruct n4].
    destruct (labelsWithSessionWinners n4 L) as [ls|]; cbn [rwrap rbind] in Hq; [|done]. injection Hq as <- <-.
    unfold applyLabels. exists (ls ∪ Labels n4). by destruct dryRun. }
  destruct Hend as (ls & -> & ->). split; [done|].
  assert (Hp : forall (P : Node -> Prop), (forall m, P (with_labels n4 m)) -> P (if dryRun then n4 else with_labels n4 ls)).
  { intros P HP. destruct dryRun; [|done]. specialize (HP (Labels n4)). by destruct n4. }
  split; [apply (Hp (fun x => Name x = _)); intros; simpl; rewrite H5, H3, H2, H1; done|].
  split; [apply (Hp (fun x => Taints x = _)); intros; simpl; rewrite H5, H3, H2; done|].
  split; [apply (Hp (fun x => Unschedulable x = _)); intros; simpl; rewrite H5, H3; done|].
  split; [intros key; apply (Hp (fun x => merged_at _ _ (Annotations x) _)); intros; apply H6|].
  intros ->. rewrite H5, H3, H2, H1. done.
Qed.

Lemma fold_delete_string ks (m : gmap string string) k :
  fold_left (fun m k => delete k m) ks m !! k = if decide (k ∈ ks) then None else m !! k.
Proof.
  revert m. induction ks as [|x ks IH]; intros m; simpl; [done|]. rewrite IH. destruct (decide (k = x)) as [->|Hne].
  - rewrite (decide_True (P := x ∈ x :: ks)) by (by left). case_decide; [done|]. by rewrite lookup_delete_eq.
  - rewrite lookup_delete_ne by done. rewrite (decide_ext (k ∈ x :: ks) (k ∈ ks)); [done|].
    rewrite elem_of_cons. tauto.
Qed.

Lemma unquarantineNode_spec lk dryRun T uncordon A L labels n :
  let n' := unquarantineNode lk dryRun T uncordon A L labels n in
  Taints n' = (if dryRun then Taints n else filter (fun t => as_config t ∉ T) (Taints n)) /\
  Unschedulable n' = (if uncordon && negb dryRun then false else Unschedulable n) /\
  forall key, Annotations n' !! key = if decide (key ∈ A) then None else Annotations n !! key.
Proof.
  unfold unquarantineNode. cbv zeta.
  set (n1 := if (0 <? length T)%nat then _ else _).
  assert (H1 : n1 = with_taints n (if dryRun then Taints n else filter (fun t => as_config t ∉ T) (Taints n))).
  { unfold n1. destruct T as [|t T]; simpl.
    - rewrite filter_all by (intros; apply not_elem_of_nil). destruct dryRun; by destruct n.
    - destruct dryRun; [by destruct n|]. apply removeTaints_spec. }
  set (n2 := if uncordon then _ else _).
  assert (H2 : exists ls, n2 = with_labels (with_unschedulable n1 (if uncordon && negb dryRun then false else Unschedulable n)) ls).
  { unfold n2. destruct uncordon; [|exists (Labels n1); rewrite H1; by destruct n].
    unfold handleUncordon. cbv zeta. set (n3 := if dryRun then n1 else _).
    assert (H3 : n3 = with_unschedulable n1 (if true && negb dryRun then false else Unschedulable n)).
    { unfold n3. destruct dryRun; [rewrite H1; by destruct n|done]. }
    rewrite H3. unfold applyLabels. destruct (size labels =? 0)%nat; [eexists; symmetry; apply with_labels_self|].
    destruct dryRun; (destruct (_ ==s ""); [|by eexists]); [eexists; symmetry; apply with_labels_self|by eexists]. }
  destruct H2 as [ls H2].
  assert (Hr : exists ls', removeLabels dryRun L (with_annotations n2 (fold_left (fun m k => delete k m) A (Annotations n2))) =
    with_labels (with_annotations n2 (fold_left (fun m k => delete k m) A (Annotations n2))) ls').
  { unfold removeLabels. destruct (_ =? 0)%nat; [eexists; symmetry; apply with_labels_self|].
    destruct dryRun; [eexists; symmetry; apply with_labels_self|by eexists]. }
  destruct Hr as [ls' ->]. rewrite H2, H1. simpl. split; [done|]. split; [done|]. intros key. apply fold_delete_string.
Qed.

End theory.
