(* ===== verification/NodePatch.v ===== *)
(** * Patching a node

    Models [commons/pkg/kubeclient/nodepatch.go]: the merge patch that carries the
    changes of a mutation to a node of which the caller may hold only a pruned,
    lagging copy, and the cache-aware retry loop around it; with [UpdateNode] of
    [fault-quarantine/pkg/informer/k8s_client.go].  The strategic-merge library,
    the API server and [retry.OnError] are interfaces with laws.  The last part
    implements the interface [NodeAPI] of [NodeSession] with this code. *)

From stdpp Require Import gmap strings list fin_maps.
From Stdlib Require Import ZArith Lia.
From S2P Require Import Prelude HealthEvent AnnotationMap KubeRetry NodeSession.

#[local] Open Scope nat_scope.

(** ** Objects and documents *)

(** [v1.Node] with maps that may be nil.  [oRest] stands for the status, which no
    component here writes and which the cache drops; the remaining metadata and spec
    fields, which the code neither reads nor writes, are left out.  A nil slice of
    taints is not told from an empty one: the comparison of the code does so, and
    then only adds the resource version to the patch. *)
Record v1Node := {
  oName : string;
  oResourceVersion : string;
  oLabels : option (gmap string string);
  oAnnotations : option (gmap string string);
  oTaints : list NodeTaint;
  oUnschedulable : bool;
  oRest : string }.

(** The node without its version, nil maps read as empty ones. *)
Definition node_of (o : v1Node) : Node :=
  {| Name := oName o; Labels := default ∅ (oLabels o); Annotations := default ∅ (oAnnotations o);
     Taints := oTaints o; Unschedulable := oUnschedulable o |}.

(** The JSON document of a projected node; [None] is an absent field. *)
Record document := {
  dResourceVersion : option string;
  dLabels : option (gmap string string);
  dAnnotations : option (gmap string string);
  dTaints : option (list NodeTaint);
  dUnschedulable : option bool }.

#[export] Instance document_eq_dec : EqDecision document.
Proof. solve_decision. Defined.

Definition projectNodePatchableFields (node : v1Node) : v1Node :=
  {| oName := ""; oResourceVersion := ""; oLabels := oLabels node; oAnnotations := oAnnotations node;
     oTaints := oTaints node; oUnschedulable := oUnschedulable node; oRest := "" |}.

Definition with_version (rv : string) (o : v1Node) : v1Node :=
  {| oName := oName o; oResourceVersion := rv; oLabels := oLabels o; oAnnotations := oAnnotations o;
     oTaints := oTaints o; oUnschedulable := oUnschedulable o; oRest := oRest o |}.

(** [json:",omitempty"]. *)
Definition omit_empty {A} (empty : bool) (a : A) : option A := if empty then None else Some a.
Definition omit_map (m : option (gmap string string)) : option (gmap string string) :=
  match m with Some x => omit_empty (size x =? 0)%nat x | None => None end.

(** The maps to keep are present even when they are empty. *)
Definition patchProjectionJSON (projection : v1Node) (keepLabels keepAnnotations : bool) : document :=
  let kept (keep : bool) (m : option (gmap string string)) :=
    match omit_map m with Some x => Some x | None => if keep then Some ∅ else None end in
  {| dResourceVersion := omit_empty (oResourceVersion projection ==s "") (oResourceVersion projection);
     dLabels := kept keepLabels (oLabels projection);
     dAnnotations := kept keepAnnotations (oAnnotations projection);
     dTaints := omit_empty (length (oTaints projection) =? 0)%nat (oTaints projection);
     dUnschedulable := omit_empty (negb (oUnschedulable projection)) (oUnschedulable projection) |}.

(** ** Merge patches *)

(** [strategicpatch.CreateTwoWayMergePatch], the test for the text ["{}"], the
    version a patch names, and what the API server makes of a patch. *)
Class StrategicPatch (P : Type) := {
  CreateTwoWayMergePatch : document -> document -> result P;
  is_empty_patch : P -> bool;
  patch_version : P -> option string;
  merge_patch : P -> document -> document }.

(** RFC 7386 on documents of this shape: a field that differs is set, one that
    went missing is deleted, maps are compared entry by entry where both
    documents have them, lists are replaced. *)
Definition merged_field {A} `{EqDecision A} (original modified target : option A) : option A :=
  if decide (original = modified) then target else modified.

Definition merged_map (original modified target : option (gmap string string)) : option (gmap string string) :=
  match original, modified with
  | None, None => target
  | Some _, None => None
  | None, Some m => Some (m ∪ default ∅ target)
  | Some o, Some m => if decide (o = m) then target else Some (rebase_map o m (default ∅ target))
  end.

Definition merged (original modified target : document) : document :=
  {| dResourceVersion := merged_field (dResourceVersion original) (dResourceVersion modified) (dResourceVersion target);
     dLabels := merged_map (dLabels original) (dLabels modified) (dLabels target);
     dAnnotations := merged_map (dAnnotations original) (dAnnotations modified) (dAnnotations target);
     dTaints := merged_field (dTaints original) (dTaints modified) (dTaints target);
     dUnschedulable := merged_field (dUnschedulable original) (dUnschedulable modified) (dUnschedulable target) |}.

Class StrategicPatchLaws (P : Type) `{StrategicPatch P} := {
  create_merges original modified p : CreateTwoWayMergePatch original modified = Ok p ->
    forall target, merge_patch p target = merged original modified target;
  create_empty original modified p : CreateTwoWayMergePatch original modified = Ok p ->
    is_empty_patch p = true <-> original = modified;
  create_version original modified p : CreateTwoWayMergePatch original modified = Ok p ->
    patch_version p = if decide (dResourceVersion original = dResourceVersion modified) then None else dResourceVersion modified }.

Section patch.
Context {P : Type} `{StrategicPatch P}.

Definition NodeMergePatch (original modified : v1Node) : result (option P) :=
  let originalProjection := projectNodePatchableFields original in
  let modifiedProjection := projectNodePatchableFields modified in
  let specChanged := negb (bool_decide (oTaints original = oTaints modified)) ||
                     negb (eqb (oUnschedulable original) (oUnschedulable modified)) in
  let modifiedProjection :=
    if specChanged then with_version (oResourceVersion original) modifiedProjection else modifiedProjection in
  let keepLabels := bool_decide (is_Some (oLabels original)) || bool_decide (is_Some (oLabels modified)) in
  let keepAnnotations := bool_decide (is_Some (oAnnotations original)) || bool_decide (is_Some (oAnnotations modified)) in
  let originalJSON := patchProjectionJSON originalProjection keepLabels keepAnnotations in
  let modifiedJSON := patchProjectionJSON modifiedProjection keepLabels keepAnnotations in
  let? patch := rwrap "build strategic merge patch for node" (CreateTwoWayMergePatch originalJSON modifiedJSON) in
  Ok (if is_empty_patch patch then None else Some patch).

End patch.

(** ** Retries *)

(** The errors of the API machinery that are worth another attempt beside a
    conflict, and those [wait.Interrupted] recognises. *)
Class ErrorClasses := {
  is_transient : kerror -> bool;
  is_interrupted : kerror -> bool }.

Section retry.
Context `{ErrorClasses} {S : Type}.

Definition IsRetryableNodePatchError (e : kerror) : bool := IsConflict e || is_transient e.

Definition retryable (a : attempt) : bool := match a with Failed e => IsRetryableNodePatchError e | _ => false end.

(** [retry.OnError] ends with the result of the last attempt, except that an
    error [wait.Interrupted] recognises is replaced by the last retryable error,
    which may be nil. *)
Definition interruptible_law {S'} (OnError : on_error S') : Prop :=
  forall retriable f s, exists a,
    retry_run retriable f s a (OnError retriable f s).2 /\
    ((OnError retriable f s).1 = a \/
     exists e, a = Failed e /\ is_interrupted e = true /\ ((OnError retriable f s).1 = Done \/ exists e', (OnError retriable f s).1 = Failed e')).

(** [lastErr] is the second component of the state. *)
Definition RetryNodePatch (OnError : on_error (S * attempt)) (fn : S -> attempt * S) (s : S) : attempt * S :=
  let '(err, (s', lastErr)) :=
    OnError retryable (fun '(s, _) => let '(a, s') := fn s in (a, (s', a))) (s, Done) in
  (match err, lastErr with Done, Failed e => Failed e | _, _ => err end, s').

End retry.

(** ** The patcher *)

(** The node part of the API client and the informer's cache. *)
Class NodeServer (W P : Type) := {
  nodes_Get : string -> W -> (v1Node + kerror) * W;
  nodes_Patch : string -> P -> W -> (v1Node + kerror) * W;
  cached_object : W -> string -> option v1Node }.

Section patcher.
Context `{ErrorClasses} {P : Type} `{StrategicPatch P} {W : Type} `{NS : NodeServer W P}.

(** The server and [pendingVersions]. *)
Definition PatcherState : Type := W * gmap string string.

Definition api_Get (name context : string) (st : PatcherState) : (v1Node + kerror) * PatcherState :=
  match nodes_Get name st.1 with
  | (inl o, w) => (inl o, (w, st.2))
  | (inr e, w) => (inr (kwrap context e), (w, st.2))
  end.

Definition currentNode (nodeName : string) (cached : option v1Node) (st : PatcherState) : (v1Node + kerror) * PatcherState :=
  match st.2 !! nodeName with
  | None =>
      match cached with
      | Some c => (inl c, st)
      | None => api_Get nodeName "get node from API server" st
      end
  | Some writtenVersion =>
      match cached with
      | Some c =>
          if (writtenVersion <>s "") && (oResourceVersion c ==s writtenVersion)
          then (inl c, (st.1, delete nodeName st.2))
          else api_Get nodeName "refresh node while pending write is not in cache" st
      | None => api_Get nodeName "refresh node while pending write is not in cache" st
      end
  end.

(** The variables of [Patch] the second loop changes; [pCaptured] is the result
    the mutation left behind. *)
Record patching (A : Type) := {
  pState : PatcherState; pCurrent : v1Node; pChanged : bool; pCaptured : option A }.
Arguments Build_patching {A} pState pCurrent pChanged pCaptured.
Arguments pState {A}. Arguments pCurrent {A}. Arguments pChanged {A}. Arguments pCaptured {A}.

Definition patchAttempt {A} (nodeName : string) (mutate : v1Node -> result (v1Node * A)) (s : patching A) : attempt * patching A :=
  let '(w, pending) := pState s in
  match mutate (pCurrent s) with
  | Err e => (Failed (plain_error (wrapf "mutate node" e)), s)
  | Ok (desired, a) =>
      match NodeMergePatch (pCurrent s) desired with
      | Err e => (Failed (plain_error (wrapf "build merge patch for node" e)), s)
      | Ok None => (Done, Build_patching (w, pending) (pCurrent s) (pChanged s) (Some a))
      | Ok (Some patch) =>
          match nodes_Patch nodeName patch w with
          | (inl updated, w) =>
              (Done, Build_patching (w, <[nodeName := oResourceVersion updated]> pending) (pCurrent s) true (Some a))
          | (inr e, w) =>
              if IsConflict e then
                match nodes_Get nodeName w with
                | (inr e2, w) =>
                    (Failed (kwrap "refresh node after patch conflict" e2),
                     Build_patching (w, pending) (pCurrent s) (pChanged s) (Some a))
                | (inl refreshed, w) =>
                    (Failed (kwrap "patch node" e), Build_patching (w, pending) refreshed (pChanged s) (Some a))
                end
              else (Failed (kwrap "patch node" e), Build_patching (w, pending) (pCurrent s) (pChanged s) (Some a))
          end
      end
  end.

(** The first loop reads the node. *)
Definition readAttempt (nodeName : string) (cached : option v1Node) (s : PatcherState * option v1Node) :
    attempt * (PatcherState * option v1Node) :=
  match currentNode nodeName cached s.1 with
  | (inl o, st) => (Done, (st, Some o))
  | (inr e, st) => (Failed e, (st, s.2))
  end.

Context (OnError : forall S, on_error S).

Definition Patch {A} (nodeName : string) (cached : option v1Node) (mutate : v1Node -> result (v1Node * A)) (st : PatcherState) :
    PatcherState * ((bool * A) + kerror) :=
  match RetryNodePatch (OnError _) (readAttempt nodeName cached) (st, None) with
  | (Done, (st, Some current)) =>
      match RetryNodePatch (OnError _) (patchAttempt nodeName mutate) (Build_patching st current false None) with
      | (Done, s) =>
          (pState s, match pCaptured s with Some a => inl (pChanged s, a) | None => inr (plain_error "unreachable") end)
      | (Failed e, s) => (pState s, inr e)
      | (Panicked, s) => (pState s, inr (plain_error "panic"))
      end
  | (Failed e, (st, _)) => (st, inr e)
  | (_, (st, _)) => (st, inr (plain_error "unreachable"))
  end.

(** A mutation of the fields in [Node], on the object; a nil map stays nil until
    it gets an entry. *)
Definition set_map (old : option (gmap string string)) (m : gmap string string) : option (gmap string string) :=
  match old with None => omit_empty (size m =? 0)%nat m | Some _ => Some m end.

Definition with_node (o : v1Node) (n : Node) : v1Node :=
  {| oName := Name n; oResourceVersion := oResourceVersion o; oLabels := set_map (oLabels o) (Labels n);
     oAnnotations := set_map (oAnnotations o) (Annotations n); oTaints := Taints n; oUnschedulable := Unschedulable n; oRest := oRest o |}.

Definition on_object {A} (f : Node -> result (Node * A)) (o : v1Node) : result (v1Node * A) :=
  let? na := f (node_of o) in Ok (with_node o na.1, na.2).

(** [UpdateNode] of the fault-quarantine client. *)
Definition UpdateNode {A} (st : PatcherState) (nodeName : string) (updateFn : Node -> result (Node * A)) : PatcherState * result A :=
  match Patch nodeName (cached_object st.1 nodeName) (on_object updateFn) st with
  | (st, inl (_, a)) => (st, Ok a)
  | (st, inr e) => (st, Err (kmsg e))
  end.

End patcher.
Arguments Build_patching {W A} pState pCurrent pChanged pCaptured.
Arguments pState {W A}. Arguments pCurrent {W A}. Arguments pChanged {W A}. Arguments pCaptured {W A}.

(** ** What a patch does *)

(** The document of an object, as the server would write it. *)
Definition describe (o : v1Node) : document := patchProjectionJSON (projectNodePatchableFields o) false false.

(** An object with the content of a document. *)
Definition describes (d : document) (o : v1Node) : Prop :=
  default ∅ (dLabels d) = default ∅ (oLabels o) /\ default ∅ (dAnnotations d) = default ∅ (oAnnotations o) /\
  default [] (dTaints d) = oTaints o /\ default false (dUnschedulable d) = oUnschedulable o.

(** The server applied the patch [p] to [cur]. *)
Definition applied {P} `{StrategicPatch P} (p : P) (cur new : v1Node) : Prop :=
  oName new = oName cur /\ oRest new = oRest cur /\ describes (merge_patch p (describe cur)) new /\
  forall v, patch_version p = Some v -> oResourceVersion cur = v.

Definition spec_changed (original modified : v1Node) : Prop :=
  oTaints original <> oTaints modified \/ oUnschedulable original <> oUnschedulable modified.

Lemma rebase_map_same base m : rebase_map base base m = m.
Proof. apply map_eq. intros k. by apply rebase_map_untouched. Qed.

Lemma rebase_map_empty desired m : rebase_map ∅ desired m = desired ∪ m.
Proof.
  apply map_eq. intros k. rewrite rebase_map_lookup, lookup_empty, lookup_union. case_decide as Hd.
  - rewrite Hd. by destruct (m !! k).
  - destruct (desired !! k); [|done]. by destruct (m !! k).
Qed.

Lemma omit_map_default m : default ∅ (omit_map m) = default ∅ m.
Proof.
  destruct m as [m|]; [|done]. simpl. unfold omit_empty. destruct (size m =? 0)%nat eqn:Hz; [|done]. simpl.
  by apply Nat.eqb_eq, map_size_empty_iff in Hz as ->.
Qed.

Lemma omit_list_default {A} (l : list A) : default [] (omit_empty (length l =? 0)%nat l) = l.
Proof. by destruct l. Qed.

Lemma omit_bool_default b : default false (omit_empty (negb b) b) = b.
Proof. by destruct b. Qed.

Lemma merged_field_default {A} `{EqDecision A} (d : A) original modified target :
  default d (merged_field original modified target) =
  if decide (original = modified) then default d target else default d modified.
Proof. unfold merged_field. by case_decide. Qed.

(** The maps of the two documents are both present when one side has a map, so
    the patch names single entries. *)
Lemma merged_map_kept (o m target : option (gmap string string)) :
  let keep := bool_decide (is_Some o) || bool_decide (is_Some m) in
  let kept x := match omit_map x with Some y => Some y | None => if keep then Some ∅ else None end in
  default ∅ (merged_map (kept o) (kept m) target) = rebase_map (default ∅ o) (default ∅ m) (default ∅ target).
Proof.
  intros keep kept.
  assert (Hk : keep = true -> forall x, kept x = Some (default ∅ x)).
  { intros Hk x. unfold kept. rewrite Hk. pose proof (omit_map_default x) as Hx. destruct (omit_map x); simpl in Hx; by rewrite <- Hx. }
  destruct keep eqn:Hkeep.
  - rewrite !Hk by done. simpl. case_decide as He; [|done]. by rewrite He, rebase_map_same.
  - unfold keep in Hkeep. apply orb_false_iff in Hkeep as [H1 H2]. apply bool_decide_eq_false in H1, H2.
    destruct o; [by destruct H1; eauto|]. destruct m; [by destruct H2; eauto|]. simpl. by rewrite rebase_map_same.
Qed.

Section merge.
Context {P : Type} `{SPL : StrategicPatchLaws P}.

Lemma omit_list_inj {A} (l1 l2 : list A) : omit_empty (length l1 =? 0)%nat l1 = omit_empty (length l2 =? 0)%nat l2 -> l1 = l2.
Proof. destruct l1, l2; simpl; congruence. Qed.

Lemma spec_changed_bool original modified :
  negb (bool_decide (oTaints original = oTaints modified)) || negb (eqb (oUnschedulable original) (oUnschedulable modified)) = true <->
  spec_changed original modified.
Proof.
  unfold spec_changed. rewrite orb_true_iff, !negb_true_iff, bool_decide_eq_false, eqb_false_iff. done.
Qed.

Lemma merged_list_kept (o m target : list NodeTaint) :
  default [] (merged_field (omit_empty (length o =? 0)%nat o) (omit_empty (length m =? 0)%nat m) (omit_empty (length target =? 0)%nat target)) =
  if decide (m = o) then target else m.
Proof.
  rewrite merged_field_default, !omit_list_default. destruct (decide (m = o)) as [->|Hne]; [by rewrite decide_True|].
  rewrite decide_False; [done|]. intros He. by apply Hne, symmetry, omit_list_inj.
Qed.

Lemma merged_bool_kept (o m target : bool) :
  default false (merged_field (omit_empty (negb o) o) (omit_empty (negb m) m) (omit_empty (negb target) target)) =
  if eqb m o then target else m.
Proof. by destruct o, m, target. Qed.

Lemma describe_labels o : default ∅ (dLabels (describe o)) = default ∅ (oLabels o).
Proof. unfold describe. simpl. rewrite <- (omit_map_default (oLabels o)). by destruct (omit_map _). Qed.

Lemma describe_annotations o : default ∅ (dAnnotations (describe o)) = default ∅ (oAnnotations o).
Proof. unfold describe. simpl. rewrite <- (omit_map_default (oAnnotations o)). by destruct (omit_map _). Qed.

Lemma versioned_field (b : bool) rv o {A} (f : v1Node -> A) :
  (forall o, f (with_version rv o) = f o) -> f (if b then with_version rv o else o) = f o.
Proof. intros Hf. by destruct b. Qed.

(** A patch carries the changes over, and names the version it was computed from
    when the spec changed. *)
Lemma NodeMergePatch_some original modified p cur new :
  NodeMergePatch original modified = Ok (Some p) -> applied p cur new ->
  node_of new = rebase (node_of original) (node_of modified) (node_of cur) /\ oRest new = oRest cur /\
  (spec_changed original modified -> oResourceVersion original <> ""%string -> oResourceVersion cur = oResourceVersion original).
Proof.
  unfold NodeMergePatch. cbv zeta. set (changed := negb _ || _). destruct (CreateTwoWayMergePatch _ _) as [q|] eqn:Hq; cbn [rwrap rbind]; [|done].
  destruct (is_empty_patch q); [done|]. intros [= ->] (Hn & Hr & (D1 & D2 & D3 & D4) & Hv). split; [|split; [done|]].
  - rewrite (create_merges _ _ _ Hq) in D1, D2, D3, D4. unfold merged in *. cbn [dLabels dAnnotations dTaints dUnschedulable] in *.
    unfold node_of at 1, rebase. cbn [node_of Name Labels Annotations Taints Unschedulable].
    rewrite <- D1, <- D2, <- D3, <- D4, Hn. unfold patchProjectionJSON. cbn [dLabels dAnnotations dTaints dUnschedulable].
    rewrite !(versioned_field _ _ _ oLabels), !(versioned_field _ _ _ oAnnotations), !(versioned_field _ _ _ oTaints),
      !(versioned_field _ _ _ oUnschedulable) by done.
    rewrite !merged_map_kept, describe_labels, describe_annotations.
    unfold describe, patchProjectionJSON. cbn [dTaints dUnschedulable projectNodePatchableFields oTaints oUnschedulable].
    by rewrite merged_list_kept, merged_bool_kept.
  - intros Hs Hne. apply Hv. rewrite (create_version _ _ _ Hq). apply spec_changed_bool in Hs. fold changed in Hs. rewrite Hs.
    cbn [dResourceVersion patchProjectionJSON oResourceVersion projectNodePatchableFields]. unfold omit_empty at 1 3. simpl.
    apply go_eqb_false in Hne. rewrite Hne. by rewrite decide_False.
Qed.

(** No patch: nothing to carry over. *)
Lemma NodeMergePatch_none original modified n :
  NodeMergePatch (P := P) original modified = Ok None ->
  rebase (node_of original) (node_of modified) n = n.
Proof.
  unfold NodeMergePatch. cbv zeta. set (changed := negb _ || _). destruct (CreateTwoWayMergePatch _ _) as [q|] eqn:Hq; cbn [rwrap rbind]; [|done].
  destruct (is_empty_patch q) eqn:He; [|done]. intros _. apply (create_empty _ _ _ Hq) in He.
  unfold rebase. cbn [node_of Name Labels Annotations Taints Unschedulable].
  assert (Hmap : forall o m target : option (gmap string string), 
    let keep := bool_decide (is_Some o) || bool_decide (is_Some m) in
    let kept x := match omit_map x with Some y => Some y | None => if keep then Some ∅ else None end in
    kept o = kept m -> default ∅ o = default ∅ m).
  { intros o m target keep kept Hk. pose proof (f_equal (default ∅) Hk) as Hd. unfold kept in Hd.
    rewrite <- (omit_map_default o), <- (omit_map_default m). destruct (omit_map o), (omit_map m); simpl in *; by destruct keep. }
  pose proof (f_equal dLabels He) as E1. pose proof (f_equal dAnnotations He) as E2. pose proof (f_equal dTaints He) as E3.
  pose proof (f_equal dUnschedulable He) as E4. clear He Hq. unfold patchProjectionJSON in *. cbn [dLabels dAnnotations dTaints dUnschedulable] in *.
  rewrite (versioned_field _ _ _ oLabels) in E1 by done. rewrite (versioned_field _ _ _ oAnnotations) in E2 by done.
  rewrite (versioned_field _ _ _ oTaints) in E3 by done. rewrite (versioned_field _ _ _ oUnschedulable) in E4 by done.
  apply (Hmap _ _ None) in E1, E2. apply omit_list_inj in E3. cbn [projectNodePatchableFields oLabels oAnnotations oTaints oUnschedulable] in *.
  assert (oUnschedulable original = oUnschedulable modified) as E4' by (by destruct (oUnschedulable original), (oUnschedulable modified)).
  rewrite E1, E2, E3, E4', !rebase_map_same, decide_True, eqb_reflx by done. by destruct n.
Qed.
End merge.

(** ** The retry loop *)

Section retry_theory.
Context `{ErrorClasses} {S : Type}.

(** [nil] is returned only after an attempt that succeeded, also when the
    backoff is interrupted; an error only after one that failed. *)
Lemma RetryNodePatch_run (OnError : on_error (S * attempt)) fn s a s' :
  interruptible_law OnError -> RetryNodePatch OnError fn s = (a, s') ->
  exists b, retry_run retryable fn s b s' /\ (a = b \/ exists e e', a = Failed e /\ b = Failed e').
Proof.
  intros Hlaw. unfold RetryNodePatch. set (f := fun '(s, _) => _).
  destruct (Hlaw retryable f (s, Done)) as (b & Hrun & Hb). destruct (OnError retryable f (s, Done)) as [err [s1 lastErr]]. cbn [fst snd] in *.
  assert (Hinv : forall x y z, retry_run retryable f x y z -> retry_run retryable fn x.1 y z.1 /\ z.2 = y).
  { induction 1 as [[x l] y z Hf|[x l] y1 x1 y z Hf Hr _ [IH1 IH2]]; simpl in Hf; destruct (fn x) as [a0 s0] eqn:Hfn; injection Hf as <- <-; simpl in *.
    - split; [by apply run_last|done].
    - split; [by eapply run_again|done]. }
  destruct (Hinv _ _ _ Hrun) as [Hr Hl]. simpl in Hr, Hl. subst lastErr. intros [= <- <-]. exists b. split; [done|].
  destruct Hb as [->|(e & -> & _ & [->|[e' ->]])]; [|by left|right; eauto]. destruct b; by left.
Qed.
End retry_theory.

(** ** Other writers *)

(** The history of each node, newest first.  A call may be preceded and followed
    by commits of others; a patch whose answer is lost may have been applied. *)
Class NodeServerLaws (W P : Type) `{StrategicPatch P, !NodeServer W P} := {
  node_versions : string -> W -> list v1Node;
  Get_newest k w o w' : nodes_Get k w = (inl o, w') -> head (node_versions k w') = Some o;
  Get_extends k w r w' : nodes_Get k w = (r, w') -> node_versions k w `suffix_of` node_versions k w';
  Patch_extends k p w r w' : nodes_Patch k p w = (r, w') -> node_versions k w `suffix_of` node_versions k w';
  Patch_commits k p w new w' : nodes_Patch k p w = (inl new, w') ->
    exists later cur earlier, node_versions k w' = later ++ new :: cur :: earlier /\ applied p cur new;
  version_identifies k w o1 o2 : o1 ∈ node_versions k w -> o2 ∈ node_versions k w ->
    oResourceVersion o1 = oResourceVersion o2 -> o1 = o2;
  version_named k w o : o ∈ node_versions k w -> oResourceVersion o <> ""%string;
  cache_shows w k c : cached_object w k = Some c ->
    exists o, o ∈ node_versions k w /\ oResourceVersion o = oResourceVersion c /\ agrees (node_of c) (node_of o) }.

Section patcher_theory.
Context `{ErrorClasses} {P : Type} `{SPL : StrategicPatchLaws P} {W : Type} `{!NodeServer W P, NSL : !NodeServerLaws W P}.
Context (OnError : forall S, on_error S) (Hlaw : forall S, interruptible_law (OnError S)).

(** [o] has the version, the spec and the session annotations of one of the versions in
    the history; a cached object is pruned of the rest. *)
Definition seen (k : string) (w : W) (o : v1Node) : Prop :=
  exists v, v ∈ node_versions k w /\ oResourceVersion v = oResourceVersion o /\ oTaints v = oTaints o /\ oUnschedulable v = oUnschedulable o /\
    agrees (node_of o) (node_of v).

Lemma seen_mono k w w' o : node_versions k w `suffix_of` node_versions k w' -> seen k w o -> seen k w' o.
Proof. intros [l Hl] (v & Hv & ?). exists v. split; [|done]. rewrite Hl. apply elem_of_app. by right. Qed.

Lemma seen_newest k w o : head (node_versions k w) = Some o -> seen k w o.
Proof. intros Hh. exists o. split; [|done]. destruct (node_versions k w); simplify_eq/=. left. Qed.

Lemma seen_cache k w c : cached_object w k = Some c -> seen k w c.
Proof. intros (o & Ho & Hv & Ha)%cache_shows. pose proof Ha as (A & B & _). by exists o. Qed.

Lemma currentNode_seen k cached st o st' :
  (forall c, cached = Some c -> seen k st.1 c) -> currentNode k cached st = (inl o, st') -> seen k st'.1 o.
Proof.
  intros Hc. unfold currentNode, api_Get.
  assert (Hget : forall ctx, match nodes_Get k st.1 with (inl o, w) => (inl o, (w, st.2)) | (inr e, w) => (inr (kwrap ctx e), (w, st.2)) end = (inl o, st') ->
    seen k st'.1 o).
  { intros ctx. destruct (nodes_Get k st.1) as [[x|e] w] eqn:Hg; [|done]. intros [= <- <-]. by eapply seen_newest, Get_newest. }
  destruct (st.2 !! k) as [written|]; destruct cached as [c|]; [| |..]; try (by apply Hget).
  - destruct (_ && _); [|by apply Hget]. intros [= <- <-]. by apply Hc.
  - intros [= <- <-]. by apply Hc.
Qed.

Lemma currentNode_extends k cached st r st' :
  currentNode k cached st = (r, st') -> node_versions k st.1 `suffix_of` node_versions k st'.1.
Proof.
  unfold currentNode, api_Get.
  assert (Hget : forall ctx, match nodes_Get k st.1 with (inl o, w) => (inl o, (w, st.2)) | (inr e, w) => (inr (kwrap ctx e), (w, st.2)) end = (r, st') ->
    node_versions k st.1 `suffix_of` node_versions k st'.1).
  { intros ctx. destruct (nodes_Get k st.1) as [[x|e] w] eqn:Hg; intros [= _ <-]; by eapply Get_extends. }
  destruct (st.2 !! k) as [written|]; destruct cached as [c|]; try (by apply Hget).
  - destruct (_ && _); [|by apply Hget]. by intros [= _ <-].
  - by intros [= _ <-].
Qed.

(** What an attempt that succeeds has done. *)
Definition carried (k : string) (w : W) (base desired : v1Node) (changed : bool) : Prop :=
  if changed then
    exists later new cur earlier, node_versions k w = later ++ new :: cur :: earlier /\
      node_of new = rebase (node_of base) (node_of desired) (node_of cur) /\ oRest new = oRest cur /\
      (spec_changed base desired -> oTaints cur = oTaints base /\ oUnschedulable cur = oUnschedulable base)
  else forall n, rebase (node_of base) (node_of desired) n = n.

Lemma patchAttempt_done {A} k (mutate : v1Node -> result (v1Node * A)) s s' :
  seen k (pState s).1 (pCurrent s) -> pChanged s = false -> patchAttempt k mutate s = (Done, s') ->
  exists desired a, mutate (pCurrent s) = Ok (desired, a) /\ pCaptured s' = Some a /\ seen k (pState s').1 (pCurrent s) /\
    carried k (pState s').1 (pCurrent s) desired (pChanged s').
Proof.
  intros Hseen Hch. unfold patchAttempt. destruct s as [[w pending] current changed cap]. cbn [pState pCurrent pChanged fst] in *.
  destruct (mutate current) as [[desired a]|] eqn:Hm; [|done]. destruct (NodeMergePatch current desired) as [[p|]|] eqn:Hp; [..|done].
  - destruct (nodes_Patch k p w) as [[updated|e] w1] eqn:Hn.
    + intros [= <-]. exists desired, a. split; [done|]. split; [done|]. cbn [pState pChanged fst].
      split; [by eapply seen_mono; [eapply Patch_extends|]|].
      destruct (Patch_commits _ _ _ _ _ Hn) as (later & cur & earlier & Hv & Hap).
      destruct (NodeMergePatch_some _ _ _ _ _ Hp Hap) as (H1 & H2 & H3). exists later, updated, cur, earlier. split; [done|]. split; [done|].
      split; [done|]. intros Hs. apply (seen_mono _ _ _ _ (Patch_extends _ _ _ _ _ Hn)) in Hseen as (v & Hvin & Hvr & Hvt & Hvu & _).
      pose proof (version_named _ _ _ Hvin) as Hne. rewrite Hvr in Hne. specialize (H3 Hs Hne).
      assert (cur = v) as ->; [|done]. apply (version_identifies k w1); [|done|congruence]. rewrite Hv. set_solver.
    + destruct (IsConflict e); [|done]. destruct (nodes_Get k w1) as [[] ?]; done.
  - intros [= <-]. exists desired, a. split; [done|]. split; [done|]. split; [done|]. cbn [pChanged]. rewrite Hch. intros n. by eapply NodeMergePatch_none.
Qed.

Lemma patchAttempt_failed {A} k (mutate : v1Node -> result (v1Node * A)) s e s' :
  seen k (pState s).1 (pCurrent s) -> patchAttempt k mutate s = (Failed e, s') ->
  seen k (pState s').1 (pCurrent s') /\ pChanged s' = pChanged s.
Proof.
  intros Hseen. unfold patchAttempt. destruct s as [[w pending] current changed cap]. cbn [pState pCurrent pChanged fst] in *.
  destruct (mutate current) as [[desired a]|]; [|by intros [= _ <-]]. destruct (NodeMergePatch current desired) as [[p|]|]; [|done|by intros [= _ <-]].
  destruct (nodes_Patch k p w) as [[updated|x] w1] eqn:Hn; [done|]. pose proof (seen_mono _ _ _ _ (Patch_extends _ _ _ _ _ Hn) Hseen) as Hs1.
  destruct (IsConflict x); [|by intros [= _ <-]]. destruct (nodes_Get k w1) as [[o|y] w2] eqn:Hg; intros [= _ <-]; cbn [pState pCurrent pChanged fst].
  - split; [by eapply seen_newest, Get_newest|done].
  - split; [by eapply seen_mono; [eapply Get_extends|]|done].
Qed.

(** The two loops. *)
Lemma read_seen k cached st b st' o :
  (forall c, cached = Some c -> seen k st.1 c) -> retry_run retryable (readAttempt k cached) (st, b) Done (st', Some o) -> seen k st'.1 o.
Proof.
  intros Hc Hr. enough (exists o', Some o = Some o' /\ seen k st'.1 o') as (? & [= <-] & ?) by done.
  refine (retry_run_ind_inv retryable (readAttempt k cached) (fun s => forall c, cached = Some c -> seen k s.1.1 c)
    (fun a s => a = Done -> exists o, s.2 = Some o /\ seen k s.1.1 o) _ _ _ _ _ Hr Hc eq_refl).
  - intros [x y] a s1 Hx Hf _ c Hcc. unfold readAttempt in Hf. destruct (currentNode k cached (x, y).1) as [[v|e] z] eqn:Hcn; injection Hf as <- <-;
      (eapply seen_mono; [by eapply currentNode_extends|by apply Hx]).
  - intros [x y] a s1 Hx Hf ->. unfold readAttempt in Hf. destruct (currentNode k cached (x, y).1) as [[v|e] z] eqn:Hcn; [|done]. injection Hf as <-.
    exists v. split; [done|]. by eapply currentNode_seen.
Qed.

Lemma patch_loop {A} k (mutate : v1Node -> result (v1Node * A)) s s' :
  seen k (pState s).1 (pCurrent s) -> pChanged s = false -> retry_run retryable (patchAttempt k mutate) s Done s' ->
  exists base desired a, mutate base = Ok (desired, a) /\ pCaptured s' = Some a /\ seen k (pState s').1 base /\ carried k (pState s').1 base desired (pChanged s').
Proof.
  intros Hs Hch Hr. refine (retry_run_ind_inv retryable (patchAttempt k mutate)
    (fun s => seen k (pState s).1 (pCurrent s) /\ pChanged s = false)
    (fun a s => a = Done -> exists base desired x, mutate base = Ok (desired, x) /\ pCaptured s = Some x /\ seen k (pState s).1 base /\ carried k (pState s).1 base desired (pChanged s))
    _ _ _ _ _ Hr (conj Hs Hch) eq_refl).
  - intros x [|e|] x' [H1 H2] Hx Hre; [done| |done]. destruct (patchAttempt_failed _ _ _ _ _ H1 Hx) as [? ->]. done.
  - intros x y x' [H1 H2] Hx ->. destruct (patchAttempt_done _ _ _ _ H1 H2 Hx) as (desired & a & ?). eauto.
Qed.

End patcher_theory.

(** ** The node API of fault-quarantine *)

(** Nobody else writes during the calls, and no answer is lost; the cache may
    show a patch at once or later. *)
Class QuietServer (W P : Type) `{NodeServerLaws W P} := {
  quiet_Get k w r w' : nodes_Get k w = (r, w') -> w' = w;
  quiet_error k p w e w' : nodes_Patch k p w = (inr e, w') -> w' = w;
  quiet_commit k p w new w' : nodes_Patch k p w = (inl new, w') ->
    (exists cur earlier, node_versions k w = cur :: earlier /\ applied p cur new) /\
    node_versions k w' = new :: node_versions k w /\
    forall k', k' <> k -> node_versions k' w' = node_versions k' w /\ cached_object w' k' = cached_object w k';
  quiet_cache k p w new w' c : nodes_Patch k p w = (inl new, w') -> cached_object w' k = Some c ->
    cached_object w k = Some c \/ oResourceVersion c = oResourceVersion new }.

Lemma node_of_with_node o n : node_of (with_node o n) = n.
Proof.
  destruct n. unfold node_of, with_node. cbn [oName oLabels oAnnotations oTaints oUnschedulable NodeSession.Labels NodeSession.Annotations].
  assert (Hs : forall old m, default ∅ (set_map old m) = m).
  { intros [old|] m; [done|]. simpl. unfold omit_empty. destruct (size m =? 0)%nat eqn:Hz; [|done]. simpl.
    by apply Nat.eqb_eq, map_size_empty_iff in Hz as ->. }
  by rewrite !Hs.
Qed.

Section node_api.
Context `{ErrorClasses} {P : Type} `{SPL : StrategicPatchLaws P} {W : Type} `{!NodeServer W P, NSL : !NodeServerLaws W P, QS : !QuietServer W P}.
Context (OnError : forall S, on_error S) (Hlaw : forall S, interruptible_law (OnError S)).
#[local] Abbreviation State := (PatcherState (W := W)).

(** What the patcher remembers: a version it wrote is the newest one; without
    one the cache, if it has the node, shows the newest one. *)
Definition coherent (st : State) : Prop := forall k,
  match st.2 !! k with
  | Some v => exists o, head (node_versions k st.1) = Some o /\ oResourceVersion o = v
  | None => forall c, cached_object st.1 k = Some c -> exists o, head (node_versions k st.1) = Some o /\ agrees (node_of c) (node_of o)
  end.

Definition shows_newest (k : string) (w : W) (c : v1Node) : Prop :=
  exists o, head (node_versions k w) = Some o /\ agrees (node_of c) (node_of o).

Lemma cache_of_newest k w c o :
  cached_object w k = Some c -> head (node_versions k w) = Some o -> oResourceVersion o = oResourceVersion c -> shows_newest k w c.
Proof.
  intros (o' & Hin & Hv & Ha)%cache_shows Hh He. exists o. split; [done|]. enough (o' = o) as <- by done.
  apply (version_identifies k w); [done| |congruence]. destruct (node_versions k w); simplify_eq/=. left.
Qed.

(** Reading the node changes nothing but the memory of a write the cache shows. *)
Lemma currentNode_quiet k st r st' :
  coherent st -> currentNode k (cached_object st.1 k) st = (r, st') ->
  st'.1 = st.1 /\ coherent st' /\ forall o, r = inl o -> shows_newest k st.1 o.
Proof.
  intros Hco. unfold currentNode.
  assert (Hget : forall ctx, api_Get k ctx st = (r, st') -> st'.1 = st.1 /\ coherent st' /\ forall o, r = inl o -> shows_newest k st.1 o).
  { intros ctx. unfold api_Get. destruct st as [w pending]. cbn [fst snd]. destruct (nodes_Get k w) as [[x|e] w1] eqn:Hg; pose proof (quiet_Get _ _ _ _ Hg) as ->;
      intros [= <- <-]; (split; [done|]); (split; [done|]); [|done]. intros o [= <-]. exists x. split; [by eapply Get_newest|done]. }
  pose proof (Hco k) as Hk. destruct (st.2 !! k) as [written|] eqn:Hp; destruct (cached_object st.1 k) as [c|] eqn:Hc; try (by apply Hget).
  - destruct (_ && _) eqn:Hb; [|by apply Hget]. apply andb_true_iff in Hb as [_ Hb%go_eqb_true]. destruct Hk as (o & Ho & Hv).
    pose proof (cache_of_newest k st.1 c o Hc Ho) as Hsh. intros [= <- <-]. split; [done|].
    split; [|intros x [= <-]; apply Hsh; congruence]. intros k'. simpl. destruct (decide (k' = k)) as [->|Hne].
    + rewrite lookup_delete_eq. intros c'. rewrite Hc. intros [= <-]. apply Hsh. congruence.
    + rewrite lookup_delete_ne by congruence. apply (Hco k').
  - intros [= <- <-]. split; [done|]. split; [done|]. intros o [= <-]. by apply Hk.
Qed.

Definition live_node (st : State) (k : string) : option Node := node_of <$> head (node_versions k st.1).

(** The attempts that fail leave everything as it was. *)
Lemma patchAttempt_quiet {A} k (mutate : v1Node -> result (v1Node * A)) s a s' :
  shows_newest k (pState s).1 (pCurrent s) -> patchAttempt k mutate s = (a, s') -> a <> Done ->
  pState s' = pState s /\ shows_newest k (pState s).1 (pCurrent s').
Proof.
  intros Hsh. unfold patchAttempt. destruct s as [[w pending] current changed cap]. cbn [pState pCurrent pChanged fst] in *.
  destruct (mutate current) as [[desired x]|]; [|by intros [= _ <-]]. destruct (NodeMergePatch current desired) as [[p|]|]; [|by intros [= <- _]|by intros [= _ <-]].
  destruct (nodes_Patch k p w) as [[updated|e] w1] eqn:Hn; [by intros [= <- _]|]. pose proof (quiet_error _ _ _ _ _ Hn) as ->.
  destruct (IsConflict e); [|by intros [= _ <-]]. destruct (nodes_Get k w) as [[o|y] w2] eqn:Hg; pose proof (quiet_Get _ _ _ _ Hg) as ->; intros [= _ <-] _;
    cbn [pState pCurrent]; (split; [done|]); [|done]. exists o. split; [by eapply Get_newest|done].
Qed.

(** The one that succeeds carries the changes to the newest version. *)
Definition committed_update {A} (k : string) (st st' : State) (mutate : v1Node -> result (v1Node * A)) (a : A) : Prop :=
  exists o base desired, head (node_versions k st.1) = Some o /\ agrees (node_of base) (node_of o) /\ mutate base = Ok (desired, a) /\
    live_node st' k = Some (rebase (node_of base) (node_of desired) (node_of o)) /\
    (forall k', k' <> k -> live_node st' k' = live_node st k' /\ cached_object st'.1 k' = cached_object st.1 k') /\
    (forall c, cached_object st'.1 k = Some c -> cached_object st.1 k = Some c \/ shows_newest k st'.1 c) /\ coherent st'.

Lemma patchAttempt_commit {A} k (mutate : v1Node -> result (v1Node * A)) s s' :
  shows_newest k (pState s).1 (pCurrent s) -> coherent (pState s) -> patchAttempt k mutate s = (Done, s') ->
  exists a, pCaptured s' = Some a /\ committed_update k (pState s) (pState s') mutate a.
Proof.
  intros (o & Ho & Ha) Hco. unfold patchAttempt, committed_update, live_node. destruct s as [[w pending] current changed cap]. cbn [pState pCurrent pChanged fst] in *.
  destruct (mutate current) as [[desired x]|] eqn:Hm; [|done]. destruct (NodeMergePatch current desired) as [[p|]|] eqn:Hp; [..|done].
  - destruct (nodes_Patch k p w) as [[new|e] w1] eqn:Hn.
    2: { destruct (IsConflict e); [|done]. destruct (nodes_Get k w1) as [[] ?]; done. }
    intros [= <-]. exists x. split; [done|]. exists o, current, desired. cbn [pState fst]. split; [done|]. split; [done|]. split; [done|].
    destruct (quiet_commit _ _ _ _ _ Hn) as ((cur & earlier & Hcur & Hap) & Hv & Hoth). rewrite Hcur in Ho. injection Ho as <-.
    destruct (NodeMergePatch_some _ _ _ _ _ Hp Hap) as (H1 & _ & _). split; [rewrite Hv; simpl; by rewrite H1|].
    split; [intros k' Hk'; destruct (Hoth k' Hk') as [-> ->]; done|]. split.
    + intros c Hc. destruct (quiet_cache _ _ _ _ _ _ Hn Hc) as [?|He]; [by left|right]. apply (cache_of_newest k w1 c new Hc); [by rewrite Hv|done].
    + intros k'. cbn [fst snd]. destruct (decide (k' = k)) as [->|Hne].
      * rewrite lookup_insert_eq. exists new. rewrite Hv. done.
      * rewrite lookup_insert_ne by congruence. destruct (Hoth k' Hne) as [-> ->]. apply (Hco k').
  - intros [= <-]. exists x. split; [done|]. exists o, current, desired. cbn [pState fst]. do 3 (split; [done|]).
    rewrite (NodeMergePatch_none (P := P) current desired (node_of o) Hp), Ho. split; [done|]. split; [done|]. split; [by left|done].
Qed.

Lemma read_quiet k st b a s' :
  coherent st -> retry_run retryable (readAttempt k (cached_object st.1 k)) (st, b) a s' ->
  s'.1.1 = st.1 /\ coherent s'.1 /\ (a = Done -> forall o, s'.2 = Some o -> shows_newest k st.1 o).
Proof.
  intros Hco Hr. assert (Hstep : forall x y a' s1, x.1 = st.1 -> coherent x -> readAttempt k (cached_object st.1 k) (x, y) = (a', s1) ->
    s1.1.1 = st.1 /\ coherent s1.1 /\ (a' = Done -> forall o, s1.2 = Some o -> shows_newest k st.1 o)).
  { intros x y a' s1 Hx Hcx. unfold readAttempt. cbn [fst]. rewrite <- Hx. destruct (currentNode _ _ _) as [r z] eqn:Hcn.
    destruct (currentNode_quiet _ _ _ _ Hcx Hcn) as (E1 & E2 & E3). destruct r as [v|e]; intros [= <- <-]; cbn [fst snd]; (split; [done|]); (split; [done|]); [|done].
    intros _ o [= <-]. by apply E3. }
  refine (retry_run_ind_inv retryable (readAttempt k (cached_object st.1 k)) (fun s => s.1.1 = st.1 /\ coherent s.1)
    (fun a s => s.1.1 = st.1 /\ coherent s.1 /\ (a = Done -> forall o, s.2 = Some o -> shows_newest k st.1 o)) _ _ _ _ _ Hr (conj eq_refl Hco)).
  - intros [x y] a' s1 [Hx Hcx] Hf _. by destruct (Hstep _ _ _ _ Hx Hcx Hf) as (? & ? & _).
  - intros [x y] a' s1 [Hx Hcx] Hf. by apply (Hstep _ _ _ _ Hx Hcx Hf).
Qed.

Definition attempted {A} k (mutate : v1Node -> result (v1Node * A)) (st : State) (a : attempt) (s : patching A) : Prop :=
  match a with
  | Done => exists x, pCaptured s = Some x /\ committed_update k st (pState s) mutate x
  | _ => pState s = st
  end.

Lemma patch_quiet {A} k (mutate : v1Node -> result (v1Node * A)) s a s' :
  shows_newest k (pState s).1 (pCurrent s) -> coherent (pState s) -> retry_run retryable (patchAttempt k mutate) s a s' ->
  attempted k mutate (pState s) a s'.
Proof.
  intros Hsh Hco Hr. refine (retry_run_ind_inv retryable (patchAttempt k mutate)
    (fun x => pState x = pState s /\ shows_newest k (pState s).1 (pCurrent x)) (attempted k mutate (pState s)) _ _ _ _ _ Hr (conj eq_refl Hsh)).
  - intros x a' x' [H1 H2] Hf Hre. rewrite <- H1 in H2 |- *. eapply patchAttempt_quiet; [done|done|]. by intros ->.
  - intros x a' x' [H1 H2] Hf. rewrite <- H1 in H2, Hco |- *. destruct a'; [by apply patchAttempt_commit|by eapply patchAttempt_quiet..].
Qed.

Lemma UpdateNode_quiet {A} (st : State) k (f : Node -> result (Node * A)) st' r :
  coherent st -> UpdateNode OnError st k f = (st', r) ->
  match r with
  | Ok a => committed_update k st st' (on_object f) a
  | Err _ => st'.1 = st.1 /\ coherent st'
  end.
Proof.
  intros Hco. unfold UpdateNode, Patch. destruct (RetryNodePatch (OnError _) (readAttempt _ _) _) as [r1 [st1 o]] eqn:Hr1.
  destruct (RetryNodePatch_run _ _ _ _ _ (Hlaw _) Hr1) as (b1 & Hrun1 & Hb1). destruct (read_quiet _ _ _ _ _ Hco Hrun1) as (E1 & E2 & E3). cbn [fst snd] in *.
  destruct r1 as [|e|]; [|by intros [= <- <-]|by intros [= <- <-]]. destruct o as [current|]; [|by intros [= <- <-]].
  destruct Hb1 as [<-|(? & ? & ? & _)]; [|done]. specialize (E3 eq_refl current eq_refl). rewrite <- E1 in E3.
  destruct (RetryNodePatch (OnError _) (patchAttempt _ _) _) as [r2 s2] eqn:Hr2.
  destruct (RetryNodePatch_run _ _ _ _ _ (Hlaw _) Hr2) as (b2 & Hrun2 & Hb2).
  pose proof (patch_quiet k (on_object f) (Build_patching st1 current false None) b2 s2 E3 E2 Hrun2) as Hq. cbn [pState] in Hq.
  assert (Hfail : r2 <> Done -> pState s2 = st1).
  { intros Hne. destruct Hb2 as [->|(? & ? & -> & ->)]; [by destruct b2|done]. }
  destruct r2 as [|e|]; [|intros [= <- <-]; rewrite Hfail by done; done..]. clear Hfail.
  destruct Hb2 as [<-|(? & ? & ? & _)]; [|done]. destruct Hq as (x & -> & o & base & desired & C1 & C2 & C3 & C4 & C5 & C6 & C7).
  intros [= <- <-]. exists o, base, desired. unfold live_node in *. rewrite <- E1. done.
Qed.

(** *** The interface implemented *)

Lemma UpdateNode_coherent {A} (st : State) k (f : Node -> result (Node * A)) : coherent st -> coherent (UpdateNode OnError st k f).1.
Proof.
  intros Hco. destruct (UpdateNode OnError st k f) as [st' r] eqn:Hu. pose proof (UpdateNode_quiet st k f st' r Hco Hu) as Hq.
  destruct r; [by destruct Hq as (? & ? & ? & _ & _ & _ & _ & _ & _ & ?)|by destruct Hq].
Qed.

Record cluster := { cl : State; cl_ok : coherent cl }.

#[export] Instance patched_api : NodeAPI cluster := {|
  cached_node c name := match cached_object (cl c).1 name with Some o => Ok (node_of o) | None => Err "not found" end;
  api_node c name := match (nodes_Get name (cl c).1).1 with inl o => inl (node_of o) | inr e => inr e end;
  update_node A c name f :=
    ({| cl := (UpdateNode OnError (cl c) name f).1; cl_ok := UpdateNode_coherent (cl c) name f (cl_ok c) |},
     (UpdateNode OnError (cl c) name f).2) |}.

Lemma update_spec {A} c name (f : Node -> result (Node * A)) c' r :
  update_node c name f = (c', r) ->
  match r with Ok a => committed_update name (cl c) (cl c') (on_object f) a | Err _ => (cl c').1 = (cl c).1 end.
Proof.
  intros Hq. injection Hq as <- <-. cbn [cl].
  pose proof (UpdateNode_quiet (cl c) name f _ _ (cl_ok c) (surjective_pairing _)) as Hs.
  destruct (UpdateNode OnError (cl c) name f).2; [done|apply Hs].
Qed.

#[export] Instance patched_laws : NodeAPILaws cluster.
Proof.
  refine {| live c name := live_node (cl c) name |}.
  - intros c name n. simpl. destruct (nodes_Get name (cl c).1) as [[o|e] w] eqn:Hg; [|done]. intros [= <-].
    pose proof (quiet_Get _ _ _ _ Hg) as ->. unfold live_node. by rewrite (Get_newest _ _ _ _ Hg).
  - intros A c name f c' a (o & base & desired & C1 & C2 & C3 & C4 & _)%update_spec. unfold on_object in C3.
    destruct (f (node_of base)) as [[n' x]|] eqn:Hf; cbn [rbind] in C3; [|done]. injection C3 as <- <-.
    exists (node_of o), (node_of base), n'. unfold live_node at 1. rewrite C1. rewrite node_of_with_node in C4. done.
  - intros A c name f c' e Hu%update_spec. left. unfold live_node. by rewrite Hu.
  - intros A c name f c' r other Hu%update_spec Hne. destruct r as [a|e]; [|unfold live_node; by rewrite Hu].
    destruct Hu as (? & ? & ? & _ & _ & _ & _ & C5 & _). by destruct (C5 other Hne).
Defined.

#[export] Instance patched_cache : CacheLaws cluster.
Proof.
  intros A c name f c' r n Hu%update_spec Hc. simpl in Hc. destruct (cached_object (cl c').1 name) as [o|] eqn:Ho; [|done]. injection Hc as <-.
  destruct r as [a|e]; [|left; simpl; rewrite <- Hu; by rewrite Ho].
  destruct Hu as (? & ? & ? & _ & _ & _ & _ & _ & C6 & _). destruct (C6 o Ho) as [Hold|(m & Hm & Ha)].
  - left. simpl. by rewrite Hold.
  - right. exists (node_of m). split; [|done]. simpl. unfold live_node. by rewrite Hm.
Qed.

End node_api.

(** ** A server *)

Module PatchDemo.

(** A patch is the pair of documents it was made from. *)
Definition pair_patch : Type := document * document.

#[export] Instance pair_strategic : StrategicPatch pair_patch := {|
  CreateTwoWayMergePatch o m := Ok (o, m);
  is_empty_patch p := bool_decide (p.1 = p.2);
  patch_version p := if decide (dResourceVersion p.1 = dResourceVersion p.2) then None else dResourceVersion p.2;
  merge_patch p target := merged p.1 p.2 target |}.

#[export] Instance pair_strategic_laws : StrategicPatchLaws pair_patch.
Proof.
  split; intros o m p [= <-]; [done| |done]. simpl. apply bool_decide_eq_true.
Qed.

#[export] Instance no_errors : ErrorClasses := {| is_transient _ := false; is_interrupted _ := false |}.

(** Versions are numbered; [of_number] reads the number back. *)
Definition version_text (z : Z) : string := AnnotationDemo.bits (encode z).
Definition number_of (o : v1Node) : Z := default 0%Z (AnnotationDemo.unbits (oResourceVersion o) ≫= decode).

Definition versioned (z : Z) (o : v1Node) : v1Node := with_version (version_text z) o.

Lemma number_versioned z o : number_of (versioned z o) = z.
Proof.
  unfold number_of, versioned, with_version, version_text. cbn [oResourceVersion]. rewrite AnnotationDemo.unbits_bits. cbn [mbind option_bind].
  by rewrite decode_encode.
Qed.

Definition patched_object (p : pair_patch) (cur : v1Node) : v1Node :=
  let d := merge_patch p (describe cur) in
  {| oName := oName cur; oResourceVersion := ""; oLabels := dLabels d; oAnnotations := dAnnotations d;
     oTaints := default [] (dTaints d); oUnschedulable := default false (dUnschedulable d); oRest := oRest cur |}.

(** One node with its history; [foreign] is what another writer commits just
    before a patch, by the length of the history. *)
Definition history : Type := list v1Node.

Section server.
Context (foreign : nat -> option (v1Node -> v1Node)).

Definition the_name : string := "node-1".

Definition before_patch (h : history) : history :=
  match foreign (length h), h with Some f, cur :: _ => f cur :: h | _, _ => h end.

Definition server_Get (k : string) (h : history) : (v1Node + kerror) * history :=
  match numbered versioned h with
  | o :: _ => if k ==s the_name then (inl o, h) else (inr (plain_error "not found"), h)
  | [] => (inr (plain_error "not found"), h)
  end.

Definition server_Patch (k : string) (p : pair_patch) (h : history) : (v1Node + kerror) * history :=
  if negb (k ==s the_name) then (inr (plain_error "not found"), h) else
  let h := before_patch h in
  match numbered versioned h with
  | cur :: _ =>
      if from_option (go_eqb (oResourceVersion cur)) true (patch_version p)
      then (inl (versioned (Z.of_nat (length h)) (patched_object p cur)), patched_object p cur :: h)
      else (inr {| kreason := ReasonConflict; kmsg := "modified" |}, h)
  | [] => (inr (plain_error "not found"), h)
  end.

Definition server_cache (h : history) (k : string) : option v1Node :=
  if k ==s the_name then head (numbered versioned h) else None.

#[export] Instance server : NodeServer history pair_patch :=
  {| nodes_Get := server_Get; nodes_Patch := server_Patch; cached_object := server_cache |}.

Lemma before_patch_suffix h : numbered versioned h `suffix_of` numbered versioned (before_patch h).
Proof.
  unfold before_patch. destruct (foreign _); [|done]. destruct h as [|o h]; [done|]. apply (numbered_app versioned [v o]).
Qed.

Lemma patched_applied p z z' cur :
  (forall v, patch_version p = Some v -> oResourceVersion (versioned z cur) = v) ->
  applied p (versioned z cur) (versioned z' (patched_object p (versioned z cur))).
Proof. intros Hv. by repeat split. Qed.

#[export] Instance server_laws : NodeServerLaws history pair_patch.
Proof.
  refine {| node_versions k h := if k ==s the_name then numbered versioned h else [] |}; simpl.
  - intros k h o h'. unfold server_Get. destruct (numbered versioned h) eqn:Hn; [done|]. destruct (k ==s the_name); [|done].
    intros [= <- <-]. by rewrite Hn.
  - intros k h r h'. unfold server_Get. intros Hg. enough (h' = h) as -> by done.
    destruct (numbered versioned h); [by injection Hg|]. by destruct (k ==s the_name); injection Hg.
  - intros k p h r h'. unfold server_Patch. destruct (k ==s the_name); [|done]. cbn [negb]. pose proof (before_patch_suffix h) as Hs.
    destruct (numbered versioned (before_patch h)) as [|cur l] eqn:Hn; [by intros [= _ <-]; rewrite Hn|]. rewrite <- Hn in Hs.
    destruct (from_option _ _ _); intros [= _ <-]; [|done]. etrans; [exact Hs|]. apply (numbered_app versioned [_]).
  - intros k p h new h'. unfold server_Patch. destruct (k ==s the_name); [|done]. cbn [negb].
    destruct (numbered versioned (before_patch h)) as [|cur l] eqn:Hn; [done|]. destruct (from_option _ _ _) eqn:Hv; intros [= <- <-].
    exists [], cur, l. simpl. rewrite Hn. split; [done|].
    destruct (before_patch h) as [|c0 h0]; [done|]. simpl in Hn. injection Hn as <- _. apply patched_applied.
    intros v Hpv. rewrite Hpv in Hv. by apply go_eqb_true in Hv.
  - intros k h o1 o2. destruct (k ==s the_name); [|by intros ?%not_elem_of_nil]. intros H1 H2 He.
    apply (numbered_unique versioned number_of number_versioned h); [done..|]. unfold number_of. by rewrite He.
  - intros k h o. destruct (k ==s the_name); [|by intros ?%not_elem_of_nil]. induction h as [|c h IH]; simpl; [by intros ?%not_elem_of_nil|].
    intros [->|Hin]%elem_of_cons; [|by apply IH]. simpl. unfold version_text. by destruct (encode _).
  - intros h k c. unfold server_cache. destruct (k ==s the_name); [|done]. intros Hh. exists c. split; [|done].
    destruct (numbered versioned h); simplify_eq/=. left.
Defined.
End server.

Definition alone : nat -> option (v1Node -> v1Node) := fun _ => None.

#[export] Instance alone_quiet : @QuietServer history pair_patch _ (server alone) (server_laws alone).
Proof.
  split; simpl.
  - intros k h r h'. unfold server_Get. destruct (numbered versioned h); [by intros [= _ <-]|]. destruct (k ==s the_name); by intros [= _ <-].
  - intros k p h e h'. unfold server_Patch. destruct (k ==s the_name); [|by intros [= _ <-]]. cbn [negb]. change (before_patch alone h) with h.
    destruct (numbered versioned h); [by intros [= _ <-]|]. destruct (from_option _ _ _); [done|by intros [= _ <-]].
  - intros k p h new h'. unfold server_Patch, server_cache. destruct (k ==s the_name) eqn:Hk; [|done]. cbn [negb]. change (before_patch alone h) with h.
    destruct (numbered versioned h) as [|cur l] eqn:Hn; [done|]. destruct (from_option _ _ _) eqn:Hv; [|done]. intros [= <- <-]. split.
    { exists cur, l. split; [done|]. destruct h as [|c0 h0]; [done|]. injection Hn as <- _. apply patched_applied.
      intros v Hpv. rewrite Hpv in Hv. by apply go_eqb_true in Hv. }
    split; [simpl; by rewrite Hn|]. intros k' Hne. destruct (k' ==s the_name) eqn:Hk'; [|done]. to_prop. congruence.
  - intros k p h new h' c. unfold server_Patch, server_cache. destruct (k ==s the_name) eqn:Hk; [|done]. cbn [negb].
    change (before_patch alone h) with h. destruct (numbered versioned h) as [|cur l]; [done|]. destruct (from_option _ _ _); [|done].
    intros [= <- <-]. intros [= <-]. by right.
Qed.

(** [client-go] with ten attempts. *)
Definition ten_attempts (S : Type) : on_error S := bounded_retry 9.

Lemma ten_attempts_law S : interruptible_law (ten_attempts S).
Proof. intros retriable f s. exists (ten_attempts S retriable f s).1. split; [apply bounded_retry_law|by left]. Qed.

(** Another writer sets a label after the first attempt was computed; the
    mutation adds a taint and an annotation. *)
Definition set_label (k v : string) (o : v1Node) : v1Node :=
  {| oName := oName o; oResourceVersion := oResourceVersion o; oLabels := Some (<[k := v]> (default ∅ (oLabels o)));
     oAnnotations := oAnnotations o; oTaints := oTaints o; oUnschedulable := oUnschedulable o; oRest := oRest o |}.

Definition other_writer (len : nat) : option (v1Node -> v1Node) :=
  if (len =? 1)%nat then Some (set_label "zone" "a") else None.

Definition start : v1Node :=
  {| oName := the_name; oResourceVersion := ""; oLabels := None; oAnnotations := None; oTaints := []; oUnschedulable := false; oRest := "status" |}.

Definition faulty : NodeTaint := {| ntKey := "gpu"; ntValue := "faulty"; ntEffect := "NoSchedule"; ntTimeAdded := None |}.

Definition add_taint (o : v1Node) : result (v1Node * unit) :=
  on_object (fun n => Ok (with_taints (with_annotations n (<["note" := "x"]> (Annotations n))) (Taints n ++ [faulty]), tt)) o.

Definition contended_patch : PatcherState * ((bool * unit) + kerror) :=
  Patch (NS := server other_writer) ten_attempts the_name None add_taint ([start], ∅).


(** The label of the other writer and the taint are both there. *)
Example contended_result :
  match contended_patch.1.1 with
  | o :: _ => oLabels o = Some {["zone" := "a"]} /\ oTaints o = [faulty] /\ oRest o = "status"%string
  | [] => False
  end.
Proof. by vm_compute. Qed.

End PatchDemo.
