(* ===== verification/RuleEval.v ===== *)
(** * Rule evaluation of fault-quarantine

    Models [fault-quarantine/pkg/evaluator] and the evaluation part of
    [fault-quarantine/pkg/reconciler/reconciler.go]: rule sets are evaluated
    concurrently, and the ones that match contribute a cordon, a taint and a
    label to shared maps.  The order in which the evaluations finish is the class
    [Scheduler]; the read and the write of the cordon-reason label count as one
    step.  CEL is the interface [CelRules]. *)

From stdpp Require Import gmap strings list fin_maps.
From Stdlib Require Import ZArith Lia.
From S2P Require Import Prelude HealthEvent AnnotationMap Supersession Residual ColdStart NodeSession.

#[local] Open Scope nat_scope.

(** ** Errors *)

(** [errors.Join] and [multierror.Append] of possibly nil errors.  Errors joined one
    after the other are joined at once here: neither [errors.Is] nor
    [IsPermanentError] sees the nesting. *)
Definition errors_Join (es : list (option goError)) : option goError :=
  match omap (fun e => e) es with [] => None | l => Some (aggregate l) end.

(** [errors.Is] with a sentinel. *)
Fixpoint errors_Is (sentinel : string) (e : goError) : bool :=
  match e with
  | plain msg => msg ==s sentinel
  | permanentError e | wrapped e => errors_Is sentinel e
  | aggregate es => existsb (errors_Is sentinel) es
  end.

(** ** Rule sets *)

Record Rule := { Kind : string; Expression : string }.
Record Match_ := { Any : list Rule; All : list Rule }.
Record RuleSetMeta := { rsEnabled : bool; rsVersion : string; rsName : string; rsPriority : Z; rsMatch : Match_ }.
Record QuarantineRuleSet := { Meta : RuleSetMeta; rsTaint : Taint; rsLabel : Label; ShouldCordon : bool }.

(** A compiled expression: its value, or an evaluation error. *)
Class CelRules := {
  NewHealthEventRule : string -> (HealthEvent -> bool + goError) + goError;
  NewNodeRule : string -> (Node -> bool + goError) + goError;
  IsEvaluationError : goError -> bool }.

Inductive RuleEvaluator :=
| healthEventRule (rule : HealthEvent -> bool + goError)
| nodeRule (rule : Node -> bool + goError).

Inductive RuleSetEvaluator :=
| AnyRuleSetEvaluator (name : string) (evaluators : list RuleEvaluator)
| AllRuleSetEvaluator (name : string) (evaluators : list RuleEvaluator).

Definition GetName (e : RuleSetEvaluator) : string :=
  match e with AnyRuleSetEvaluator name _ | AllRuleSetEvaluator name _ => name end.

Section evaluators.
Context `{CelRules} `{MapRange}.

(** Errors are collected, and none of the evaluators is used if there is one. *)
Definition createEvaluators (rules : list Rule) : list RuleEvaluator + goError :=
  let compiled := map (fun rule =>
    if Kind rule ==s "HealthEvent" then
      match NewHealthEventRule (Expression rule) with inl r => inl (healthEventRule r) | inr e => inr e end
    else if Kind rule ==s "Node" then
      match NewNodeRule (Expression rule) with inl r => inl (nodeRule r) | inr e => inr e end
    else inr (plain ("unknown evaluator kind: " +:+ Kind rule))) rules in
  match omap (fun c => match c with inr e => Some e | inl _ => None end) compiled with
  | [] => inl (omap (fun c => match c with inl r => Some r | inr _ => None end) compiled)
  | es => inr (aggregate es)
  end.

Definition InitializeRuleSetEvaluators (ruleSets : list RuleSetMeta) : list RuleSetEvaluator * option goError :=
  let '(evals, errs) := fold_left (fun '(evals, errs) ruleSet =>
    if negb (rsEnabled ruleSet) then (evals, errs) else
    let add mk rules '(evals, errs) :=
      if (0 <? length rules)%nat then
        match createEvaluators rules with
        | inl l => (evals ++ [mk (rsName ruleSet) l], errs)
        | inr e => (evals, errs ++ [Some e])
        end
      else (evals, errs) in
    add AllRuleSetEvaluator (All (rsMatch ruleSet)) (add AnyRuleSetEvaluator (Any (rsMatch ruleSet)) (evals, errs)))
    ruleSets ([], []) in
  (evals, errors_Join errs).

(** One rule; [view] is the answer of [GetRuleNode]. *)
Definition evaluateRule (view : Node + goError) (evaluator : RuleEvaluator) (event : HealthEvent) :
    bool * option goError :=
  let r := match evaluator with
    | healthEventRule rule => rule event
    | nodeRule rule => match view with inl node => rule node | inr e => inr (wrapped e) end
    end in
  match r with
  | inl matched => (matched, None)
  | inr e => (false, Some (if IsEvaluationError e then permanentError e else e))
  end.

Fixpoint evaluateAll (view : Node + goError) (l : list RuleEvaluator) (event : HealthEvent)
    (errs : list (option goError)) : bool * option goError :=
  match l with
  | [] => (true, errors_Join errs)
  | e :: rest =>
      let '(matched, err) := evaluateRule view e event in
      if matched then evaluateAll view rest event (errs ++ [err]) else (false, errors_Join (errs ++ [err]))
  end.

Fixpoint evaluateAny (view : Node + goError) (l : list RuleEvaluator) (event : HealthEvent)
    (errs : list (option goError)) : bool * option goError :=
  match l with
  | [] => (false, errors_Join errs)
  | e :: rest =>
      let '(matched, err) := evaluateRule view e event in
      if matched then (true, None) else evaluateAny view rest event (errs ++ [err])
  end.

Definition Evaluate (view : Node + goError) (e : RuleSetEvaluator) (event : HealthEvent) : bool * option goError :=
  match e with
  | AnyRuleSetEvaluator _ l => evaluateAny view l event []
  | AllRuleSetEvaluator _ l => evaluateAll view l event []
  end.

(** The parts of the event that the replay still has to apply, each evaluated. *)
Definition evaluateRuleAgainstRecoveryEffects (effects : option eventCoverage) (view : Node + goError)
    (event : HealthEvent) (eval : RuleSetEvaluator) : bool * option goError :=
  let results := map (Evaluate view eval) (default [] (ProjectHealthEvent effects event)) in
  (existsb (fun '(matched, err) => match err with None => matched | Some _ => false end) results,
   errors_Join (map snd results)).

Definition eventMatchesAnyRule (effects : option eventCoverage) (view : Node + goError) (event : HealthEvent)
    (evals : list RuleSetEvaluator) : bool * option goError :=
  let results := map (evaluateRuleAgainstRecoveryEffects effects view event) evals in
  (existsb fst results, errors_Join (map snd results)).

End evaluators.

(** ** The configuration of the rule sets *)

Record rulesetsConfig := {
  TaintConfigMap : gmap string Taint;
  LabelConfigMap : gmap string Label;
  CordonConfigMap : gmap string bool;
  RuleSetPriorityMap : gmap string Z;
  RuleSetOrderMap : gmap string Z }.

Definition buildRulesetsConfig (ruleSets : list QuarantineRuleSet) : rulesetsConfig :=
  (fold_left (fun '(order, c) ruleSet =>
     let name := rsName (Meta ruleSet) in
     ((order + 1)%Z,
      {| TaintConfigMap := if Key (rsTaint ruleSet) <>s "" then <[name := rsTaint ruleSet]> (TaintConfigMap c) else TaintConfigMap c;
         LabelConfigMap := if LabelKey (rsLabel ruleSet) <>s "" then <[name := rsLabel ruleSet]> (LabelConfigMap c) else LabelConfigMap c;
         CordonConfigMap := if ShouldCordon ruleSet then <[name := true]> (CordonConfigMap c) else CordonConfigMap c;
         RuleSetPriorityMap := if (0 <? rsPriority (Meta ruleSet))%Z then <[name := rsPriority (Meta ruleSet)]> (RuleSetPriorityMap c)
                               else RuleSetPriorityMap c;
         RuleSetOrderMap := <[name := order]> (RuleSetOrderMap c) |}))
     ruleSets
     (0%Z, {| TaintConfigMap := ∅; LabelConfigMap := ∅; CordonConfigMap := ∅; RuleSetPriorityMap := ∅; RuleSetOrderMap := ∅ |})).2.

(** [map[string]int] lookups. *)
Definition priority_of (c : rulesetsConfig) (name : string) : Z := default 0%Z (RuleSetPriorityMap c !! name).
Definition order_of (c : rulesetsConfig) (name : string) : Z := default 0%Z (RuleSetOrderMap c !! name).

Definition keyValTaint : Type := string * string.

Definition precomputeTaintInitKeys (evals : list RuleSetEvaluator) (c : rulesetsConfig) : list keyValTaint :=
  omap (fun eval => (fun t => (Key t, Value t)) <$> TaintConfigMap c !! GetName eval) evals.

(** ** Collecting the actions of the rule sets that match *)

Record selectedLabel := { slValue : string; slPriority : Z; slOrder : Z }.

(** The maps the goroutines share. *)
Record Evaluation := {
  taintAppliedMap : gmap keyValTaint string;
  taintEffectPriorityMap : gmap keyValTaint Z;
  labelsMap : gmap string string;
  appliedLabelsMap : gmap string AppliedLabel;
  selectedLabels : gmap string selectedLabel;
  isCordoned : bool }.

Definition initEvaluation (taintInitKeys : list keyValTaint) : Evaluation :=
  {| taintAppliedMap := fold_left (fun m k => <[k := ""%string]> m) taintInitKeys ∅;
     taintEffectPriorityMap := fold_left (fun m k => <[k := (-1)%Z]> m) taintInitKeys ∅;
     labelsMap := ∅; appliedLabelsMap := ∅; selectedLabels := ∅; isCordoned := false |}.

(** The regular expression keeps these; any other rune becomes one dash. *)
Definition label_char (n : nat) : bool :=
  ((48 <=? n) && (n <=? 57)) || ((65 <=? n) && (n <=? 90)) || ((97 <=? n) && (n <=? 122))
  || (n =? 95) || (n =? 46) || (n =? 45).

Definition dash : Ascii.ascii := Ascii.ascii_of_nat 45.

(** On UTF-8 text: a continuation byte belongs to the rune its first byte
    started. *)
Fixpoint replace_runes (s : string) : string :=
  match s with
  | EmptyString => ""
  | String c rest =>
      let n := Ascii.nat_of_ascii c in
      if label_char n then String c (replace_runes rest)
      else if (128 <=? n) && (n <? 192) then replace_runes rest
      else String dash (replace_runes rest)
  end.

Fixpoint trim_dashes_left (s : string) : string :=
  match s with String c rest => if decide (c = dash) then trim_dashes_left rest else s | EmptyString => s end.

Fixpoint trim_dashes_right (s : string) : string :=
  match s with
  | EmptyString => ""
  | String c rest =>
      match trim_dashes_right rest with
      | EmptyString => if decide (c = dash) then "" else String c ""
      | t => String c t
      end
  end.

Definition formatCordonOrUncordonReasonValue (input : string) (len : nat) : string :=
  trim_dashes_right (trim_dashes_left (String.substring 0 len (replace_runes input))).

Definition selectRuleLabel (selected : gmap string selectedLabel) (candidate : Label) (priority order : Z) :
    gmap string selectedLabel :=
  let new := {| slValue := LabelValue candidate; slPriority := priority; slOrder := order |} in
  match selected !! LabelKey candidate with
  | Some current =>
      if outranks (slPriority current) (slOrder current) priority order then selected
      else <[LabelKey candidate := new]> selected
  | None => <[LabelKey candidate := new]> selected
  end.

Definition updateTaintMaps (evalName : string) (taintConfig : Taint) (c : rulesetsConfig)
    (maps : gmap keyValTaint string * gmap keyValTaint Z) : gmap keyValTaint string * gmap keyValTaint Z :=
  let '(applied, priorities) := maps in
  let keyVal := (Key taintConfig, Value taintConfig) in
  let newPriority := priority_of c evalName in
  let currentEffect := default "" (applied !! keyVal) in
  let currentPriority := default 0%Z (priorities !! keyVal) in
  if (currentEffect ==s "") || (currentPriority <? newPriority)%Z
  then (<[keyVal := Effect taintConfig]> applied, <[keyVal := newPriority]> priorities) else maps.

Definition cordonStep (lk : LabelKeys) (c : rulesetsConfig) (name : string) (s : bool * gmap string string) :
    bool * gmap string string :=
  if default false (CordonConfigMap c !! name) then
    let newCordonReason := match s.2 !! cordonedReasonLabelKey lk with
      | Some old => old +:+ "-" +:+ name | None => name end in
    (true, <[cordonedReasonLabelKey lk := formatCordonOrUncordonReasonValue newCordonReason 63]> s.2)
  else s.

Definition taintStep (c : rulesetsConfig) (name : string) (maps : gmap keyValTaint string * gmap keyValTaint Z) :
    gmap keyValTaint string * gmap keyValTaint Z :=
  match TaintConfigMap c !! name with Some t => updateTaintMaps name t c maps | None => maps end.

Definition labelStep (c : rulesetsConfig) (name : string)
    (s : gmap string selectedLabel * gmap string string * gmap string AppliedLabel) :
    gmap string selectedLabel * gmap string string * gmap string AppliedLabel :=
  match LabelConfigMap c !! name with
  | None => s
  | Some labelConfig =>
      let '(selected, labels, applied) := s in
      let selected := selectRuleLabel selected labelConfig (priority_of c name) (order_of c name) in
      match selected !! LabelKey labelConfig with
      | Some w =>
          (selected, <[LabelKey labelConfig := slValue w]> labels,
           <[LabelKey labelConfig := {| alKey := LabelKey labelConfig; alValue := slValue w;
                                        alPriority := slPriority w; alOrder := slOrder w |}]> applied)
      | None => (selected, labels, applied)
      end
  end.

(** One step here: the load and the store of the cordon-reason label are separate
    in the code, so two evaluations finishing at once can lose one of the names. *)
Definition handleSuccessfulRuleEvaluation (lk : LabelKeys) (c : rulesetsConfig) (s : Evaluation) (name : string) : Evaluation :=
  let '(cordoned, labels) := cordonStep lk c name (isCordoned s, labelsMap s) in
  let '(applied, priorities) := taintStep c name (taintAppliedMap s, taintEffectPriorityMap s) in
  let '(selected, labels, appliedLabels) := labelStep c name (selectedLabels s, labels, appliedLabelsMap s) in
  {| taintAppliedMap := applied; taintEffectPriorityMap := priorities; labelsMap := labels;
     appliedLabelsMap := appliedLabels; selectedLabels := selected; isCordoned := cordoned |}.

(** The order in which goroutines finish. *)
Class Scheduler := completion : forall {A}, list A -> list A.
Class SchedulerLaws `{Scheduler} := completion_perm : forall A (l : list A), completion l ≡ₚ l.

Definition isForceQuarantine (event : HealthEvent) : bool :=
  match QuarantineOverrides event with Some o => Force o | None => false end.

(** The start of [evaluateRulesets]: the override of the event. *)
Definition forceActions (lk : LabelKeys) (event : HealthEvent) (s : Evaluation) : Evaluation :=
  if isForceQuarantine event then
    let creatorID := default "" (Metadata event !! "creator_id"%string) in
    let labels := match labelsMap s !! cordonedByLabelKey lk with
      | Some _ => labelsMap s
      | None => <[cordonedByLabelKey lk := Agent event +:+ "-" +:+ creatorID]> (labelsMap s)
      end in
    {| taintAppliedMap := taintAppliedMap s; taintEffectPriorityMap := taintEffectPriorityMap s;
       labelsMap := <[cordonedReasonLabelKey lk := formatCordonOrUncordonReasonValue (Message event) 63]> labels;
       appliedLabelsMap := appliedLabelsMap s; selectedLabels := selectedLabels s; isCordoned := true |}
  else s.

Section reconciler.
Context `{CelRules} `{MapRange} `{Scheduler}.

Definition evaluateRulesets (lk : LabelKeys) (c : rulesetsConfig) (effects : option eventCoverage)
    (view : Node + goError) (event : HealthEvent) (evals : list RuleSetEvaluator) (s : Evaluation) :
    Evaluation * option goError :=
  let finished := map (fun eval => (GetName eval, evaluateRuleAgainstRecoveryEffects effects view event eval))
                    (completion evals) in
  (fold_left (fun s '(name, (matched, _)) => if matched : bool then handleSuccessfulRuleEvaluation lk c s name else s)
     finished (forceActions lk event s),
   errors_Join (map (fun r => snd (snd r)) finished)).

Definition collectTaintsToApply (m : gmap keyValTaint string) : list Taint :=
  omap (fun kv : keyValTaint * string => let '((key, value), effect) := kv in
    if effect <>s "" then Some {| Key := key; Value := value; Effect := effect; PreExisting := false |} else None) (range m).

Definition collectLabelsToApply (m : gmap string AppliedLabel) : list AppliedLabel := (range m).*2.

End reconciler.

(** ** The outcome does not depend on the schedule *)

(** Rule sets that give one taint several effects rank them. *)
Definition ranked_effects (c : rulesetsConfig) : Prop :=
  forall n1 n2 t1 t2, TaintConfigMap c !! n1 = Some t1 -> TaintConfigMap c !! n2 = Some t2 ->
    Key t1 = Key t2 -> Value t1 = Value t2 ->
    Effect t1 <> ""%string /\ (priority_of c n1 <> priority_of c n2 \/ Effect t1 = Effect t2).

(** Rule sets with a label have orders of their own. *)
Definition ordered_labels (c : rulesetsConfig) : Prop :=
  forall n1 n2 l1 l2, LabelConfigMap c !! n1 = Some l1 -> LabelConfigMap c !! n2 = Some l2 ->
    order_of c n1 = order_of c n2 -> n1 = n2.

Lemma buildRulesetsConfig_ordered rs : ordered_labels (buildRulesetsConfig rs).
Proof.
  unfold buildRulesetsConfig. set (step := fun '(order, c) ruleSet => _).
  set (init := (0%Z, {| TaintConfigMap := ∅; LabelConfigMap := ∅; CordonConfigMap := ∅; RuleSetPriorityMap := ∅; RuleSetOrderMap := ∅ |})).
  enough (Hinv : let c := fold_left step rs init in
    (forall n o, RuleSetOrderMap c.2 !! n = Some o -> (o < c.1)%Z) /\
    (forall n1 n2 o, RuleSetOrderMap c.2 !! n1 = Some o -> RuleSetOrderMap c.2 !! n2 = Some o -> n1 = n2) /\
    (forall n l, LabelConfigMap c.2 !! n = Some l -> is_Some (RuleSetOrderMap c.2 !! n))).
  { destruct Hinv as (_ & Hinj & Hdom). intros n1 n2 l1 l2 [o1 H1]%Hdom [o2 H2]%Hdom. unfold order_of. rewrite H1, H2. simpl.
    intros ->. by eapply Hinj. }
  induction rs as [|r rs IH] using rev_ind; [by repeat split|]. rewrite fold_left_app. simpl.
  destruct (fold_left step rs init) as [order c]. simpl in IH. destruct IH as (Hlt & Hinj & Hdom). simpl. split; [|split].
  - intros n o [[_ <-]|[_ Ho]]%lookup_insert_Some; [lia|]. apply Hlt in Ho. lia.
  - intros n1 n2 o [[<- <-]|[_ H1]]%lookup_insert_Some [[<- H2]|[_ H2]]%lookup_insert_Some.
    + done.
    + apply Hlt in H2. lia.
    + subst. apply Hlt in H1. lia.
    + by eapply Hinj.
  - intros n l. destruct (decide (n = rsName (Meta r))) as [->|Hne]; [rewrite lookup_insert_eq; eauto|].
    rewrite lookup_insert_ne by congruence. destruct (LabelKey _ <>s _); [rewrite lookup_insert_ne by congruence|]; apply Hdom.
Qed.

Lemma outranks_spec p1 o1 p2 o2 :
  if outranks p1 o1 p2 o2 then (p2 < p1 \/ p1 = p2 /\ o2 < o1)%Z else (p1 < p2 \/ p1 = p2 /\ o1 <= o2)%Z.
Proof. unfold outranks. destruct (Z.ltb_spec p2 p1), (Z.eqb_spec p1 p2), (Z.ltb_spec o2 o1); cbn [orb andb]; lia. Qed.

Lemma selectRuleLabel_comm l1 l2 p1 o1 p2 o2 s :
  o1 <> o2 \/ LabelKey l1 = LabelKey l2 /\ LabelValue l1 = LabelValue l2 /\ p1 = p2 ->
  selectRuleLabel (selectRuleLabel s l1 p1 o1) l2 p2 o2 = selectRuleLabel (selectRuleLabel s l2 p2 o2) l1 p1 o1.
Proof.
  destruct l1 as [k1 v1], l2 as [k2 v2]. simpl. intros Hc. destruct (decide (k1 = k2)) as [<-|Hne].
  - destruct (decide (o1 = o2)) as [<-|Ho]; [destruct Hc as [?|(_ & <- & <-)]; [done|reflexivity]|]. clear Hc.
    unfold selectRuleLabel. cbn [LabelKey LabelValue].
    pose proof (outranks_spec p1 o1 p2 o2) as R12. pose proof (outranks_spec p2 o2 p1 o1) as R21.
    destruct (s !! k1) as [[cv cp co]|] eqn:Hs; cbn [slPriority slOrder].
    + pose proof (outranks_spec cp co p1 o1) as C1. pose proof (outranks_spec cp co p2 o2) as C2.
      destruct (outranks cp co p1 o1) eqn:E1, (outranks cp co p2 o2) eqn:E2; rewrite ?lookup_insert_eq, ?Hs; cbn [slPriority slOrder];
        rewrite ?E1, ?E2; destruct (outranks p1 o1 p2 o2), (outranks p2 o2 p1 o1); rewrite ?insert_insert_eq; try done; lia.
    + rewrite !lookup_insert_eq. cbn [slPriority slOrder].
      destruct (outranks p1 o1 p2 o2), (outranks p2 o2 p1 o1); rewrite ?insert_insert_eq; try done; lia.
  - unfold selectRuleLabel. cbn [LabelKey LabelValue].
    destruct (s !! k1) as [a|] eqn:H1, (s !! k2) as [b|] eqn:H2;
      repeat (case_match; rewrite ?lookup_insert_ne, ?H1, ?H2 in * by congruence; simplify_eq);
      rewrite ?lookup_insert_ne, ?H1, ?H2 by congruence; simplify_eq; try done; try congruence; by apply insert_insert_ne.
Qed.

Lemma taintStep_comm c n1 n2 s : ranked_effects c -> taintStep c n2 (taintStep c n1 s) = taintStep c n1 (taintStep c n2 s).
Proof.
  intros Hr. unfold taintStep. destruct (TaintConfigMap c !! n1) as [t1|] eqn:H1, (TaintConfigMap c !! n2) as [t2|] eqn:H2; try done.
  destruct s as [applied prio]. destruct (decide ((Key t1, Value t1) = (Key t2, Value t2))) as [Heq|Hne].
  - pose proof Heq as [= Hk Hv]. destruct (Hr n1 n2 t1 t2 H1 H2 Hk Hv) as [Hn1 Hp].
    destruct (Hr n2 n1 t2 t1 H2 H1 (eq_sym Hk) (eq_sym Hv)) as [Hn2 _].
    unfold updateTaintMaps. rewrite Heq. set (k := (Key t2, Value t2)).
    assert (E1 : (Effect t1 ==s "") = false) by (by apply go_eqb_false). assert (E2 : (Effect t2 ==s "") = false) by (by apply go_eqb_false).
    destruct (default "" (applied !! k) ==s "") eqn:Hcur; cbn [orb];
      [|destruct (Z.ltb_spec (default 0%Z (prio !! k)) (priority_of c n1)), (Z.ltb_spec (default 0%Z (prio !! k)) (priority_of c n2))];
      rewrite ?lookup_insert_eq, ?Hcur; cbn [default from_option Datatypes.id]; rewrite ?E1, ?E2; cbn [orb];
      repeat match goal with |- context [ (?a <? ?b)%Z ] => destruct (Z.ltb_spec a b) end; rewrite ?insert_insert_eq; try done; try lia;
      assert (priority_of c n1 = priority_of c n2) as Hpe by lia; destruct Hp as [?|He]; try lia; by rewrite He, Hpe.
  - unfold updateTaintMaps. set (k1 := (Key t1, Value t1)) in *. set (k2 := (Key t2, Value t2)) in *.
    destruct ((default "" (applied !! k1) ==s "") || _) eqn:B1, ((default "" (applied !! k2) ==s "") || _) eqn:B2;
      rewrite ?lookup_insert_ne by done; rewrite ?B1, ?B2; try done.
    f_equal; by apply insert_insert_ne.
Qed.

(** The labels follow the selected ones. *)
Definition label_view (lk : LabelKeys) (init s : Evaluation) : Prop :=
  (forall key, key <> cordonedReasonLabelKey lk ->
     labelsMap s !! key = match selectedLabels s !! key with Some w => Some (slValue w) | None => labelsMap init !! key end) /\
  (forall key, appliedLabelsMap s !! key = match selectedLabels s !! key with
     | Some w => Some {| alKey := key; alValue := slValue w; alPriority := slPriority w; alOrder := slOrder w |}
     | None => appliedLabelsMap init !! key end).

(** The selection alone. *)
Definition selectStep (c : rulesetsConfig) (sel : gmap string selectedLabel) (name : string) : gmap string selectedLabel :=
  match LabelConfigMap c !! name with
  | Some l => selectRuleLabel sel l (priority_of c name) (order_of c name)
  | None => sel
  end.

Lemma selectRuleLabel_other s l p o key : key <> LabelKey l -> selectRuleLabel s l p o !! key = s !! key.
Proof. intros Hne. unfold selectRuleLabel. case_match; [case_match; [done|]|]; by rewrite lookup_insert_ne. Qed.

Lemma selectRuleLabel_here s l p o : is_Some (selectRuleLabel s l p o !! LabelKey l).
Proof. unfold selectRuleLabel. case_match eqn:Hs; [case_match; [by rewrite Hs|]|]; rewrite lookup_insert_eq; eauto. Qed.

Lemma handle_components lk c s name :
  let s' := handleSuccessfulRuleEvaluation lk c s name in
  isCordoned s' = isCordoned s || default false (CordonConfigMap c !! name) /\
  (taintAppliedMap s', taintEffectPriorityMap s') = taintStep c name (taintAppliedMap s, taintEffectPriorityMap s) /\
  selectedLabels s' = selectStep c (selectedLabels s) name /\
  forall init, label_view lk init s -> label_view lk init s'.
Proof.
  unfold handleSuccessfulRuleEvaluation, selectStep. destruct (cordonStep lk c name _) as [cordoned labels] eqn:Hc.
  assert (Hcord : cordoned = isCordoned s || default false (CordonConfigMap c !! name) /\
    forall key, key <> cordonedReasonLabelKey lk -> labels !! key = labelsMap s !! key).
  { unfold cordonStep in Hc. destruct (default false _); simpl in Hc; injection Hc as <- <-.
    - split; [by rewrite orb_true_r|]. intros. by rewrite lookup_insert_ne.
    - split; [by rewrite orb_false_r|done]. }
  destruct Hcord as [-> Hlab]. destruct (taintStep c name _) as [applied prio]. unfold labelStep.
  destruct (LabelConfigMap c !! name) as [l|]; simpl.
  2: { split; [done|]. split; [done|]. split; [done|]. intros init [V1 V2]. split; simpl; [|done]. intros key Hk. rewrite Hlab by done. by apply V1. }
  destruct (selectRuleLabel_here (selectedLabels s) l (priority_of c name) (order_of c name)) as [w Hw]. rewrite Hw. simpl.
  split; [done|]. split; [done|]. split; [done|]. intros init [V1 V2]. split; simpl.
  - intros key Hk. destruct (decide (key = LabelKey l)) as [->|Hne]; [by rewrite lookup_insert_eq, Hw|].
    rewrite lookup_insert_ne, selectRuleLabel_other, Hlab by congruence. by apply V1.
  - intros key. destruct (decide (key = LabelKey l)) as [->|Hne]; [by rewrite lookup_insert_eq, Hw|].
    rewrite lookup_insert_ne, selectRuleLabel_other by congruence. apply V2.
Qed.

(** The whole loop, component by component. *)
Lemma evaluation_components lk c names s :
  let s' := fold_left (handleSuccessfulRuleEvaluation lk c) names s in
  isCordoned s' = isCordoned s || existsb (fun name => default false (CordonConfigMap c !! name)) names /\
  (taintAppliedMap s', taintEffectPriorityMap s') =
    fold_left (fun m name => taintStep c name m) names (taintAppliedMap s, taintEffectPriorityMap s) /\
  selectedLabels s' = fold_left (selectStep c) names (selectedLabels s) /\
  (label_view lk s s -> label_view lk s s').
Proof.
  cbv zeta. enough (Hgen : forall init, label_view lk init s -> label_view lk init (fold_left (handleSuccessfulRuleEvaluation lk c) names s)).
  2: { revert s. induction names as [|n names IH]; intros s init Hv; simpl; [done|]. apply IH. by apply handle_components. }
  split; [|split; [|split; [|by apply Hgen]]]; clear Hgen; revert s; induction names as [|n names IH]; intros s; simpl.
  - by rewrite orb_false_r.
  - rewrite IH. destruct (handle_components lk c s n) as (-> & _). by rewrite orb_assoc.
  - done.
  - rewrite IH. destruct (handle_components lk c s n) as (_ & -> & _). done.
  - done.
  - rewrite IH. destruct (handle_components lk c s n) as (_ & _ & -> & _). done.
Qed.

Section order.
Context `{CelRules} {MR : MapRange}.

(** The rule sets that match, in the given order. *)
Definition matchedNames (effects : option eventCoverage) (view : Node + goError) (event : HealthEvent)
    (evals : list RuleSetEvaluator) : list string :=
  GetName <$> filter (fun eval => (evaluateRuleAgainstRecoveryEffects effects view event eval).1 = true) evals.

Lemma evaluateRulesets_fold `{Scheduler} lk c effects view event evals s :
  (evaluateRulesets lk c effects view event evals s).1 =
  fold_left (handleSuccessfulRuleEvaluation lk c) (matchedNames effects view event (completion evals)) (forceActions lk event s).
Proof.
  unfold evaluateRulesets, matchedNames. cbn [fst].
  generalize (evaluateRuleAgainstRecoveryEffects effects view event) as run, (completion evals) as l, (forceActions lk event s) as x.
  intros run l. induction l as [|e l IH]; intros x; [done|]. rewrite filter_cons. cbn [map fold_left].
  destruct (run e) as [[] err]; simpl; apply IH.
Qed.

Lemma initEvaluation_view lk event keys : label_view lk (forceActions lk event (initEvaluation keys)) (forceActions lk event (initEvaluation keys)).
Proof. unfold forceActions. split; destruct (isForceQuarantine event); simpl; intros *; by rewrite ?lookup_empty. Qed.

Lemma errors_Join_perm l1 l2 : l1 ≡ₚ l2 ->
  (errors_Join l1 = None <-> errors_Join l2 = None) /\
  (IsPermanentError <$> errors_Join l1) = (IsPermanentError <$> errors_Join l2).
Proof.
  intros Hp. unfold errors_Join. assert (Ho : omap (fun e : option goError => e) l1 ≡ₚ omap (fun e => e) l2) by by rewrite Hp.
  destruct (omap _ l1) as [|a l] eqn:E1, (omap _ l2) as [|b l'] eqn:E2; [done|by apply Permutation_nil_l in Ho|by apply Permutation_nil_r in Ho|].
  split; [done|]. cbn [fmap option_fmap option_map IsPermanentError negb andb]. f_equal.
  change (forallb IsPermanentError (a :: l) = forallb IsPermanentError (b :: l')). apply eq_true_iff_eq. rewrite !forallb_elem. by setoid_rewrite Ho.
Qed.

(** C8 (evaluation order).  Rule sets are evaluated concurrently; whichever order
    the evaluations finish in, the decision to cordon, the winning labels with
    their recorded priorities, every label except the text of the cordon reason,
    and the presence and permanence of an evaluation error are the same; so are
    the taints, when rule sets that disagree on the effect of one taint have
    different priorities. *)
Theorem evaluation_order_independent (S1 S2 : Scheduler) {L1 : @SchedulerLaws S1} {L2 : @SchedulerLaws S2}
    (lk : LabelKeys) (rs : list QuarantineRuleSet) (effects : option eventCoverage) (view : Node + goError)
    (event : HealthEvent) (evals : list RuleSetEvaluator) (keys : list keyValTaint) :
  let c := buildRulesetsConfig rs in
  let r1 := evaluateRulesets (H1 := S1) lk c effects view event evals (initEvaluation keys) in
  let r2 := evaluateRulesets (H1 := S2) lk c effects view event evals (initEvaluation keys) in
  let e1 := r1.1 in let e2 := r2.1 in let err1 := r1.2 in let err2 := r2.2 in
  isCordoned e1 = isCordoned e2 /\ appliedLabelsMap e1 = appliedLabelsMap e2 /\
  (forall key, key <> cordonedReasonLabelKey lk -> labelsMap e1 !! key = labelsMap e2 !! key) /\
  (ranked_effects c -> taintAppliedMap e1 = taintAppliedMap e2) /\
  (err1 = None <-> err2 = None) /\ (IsPermanentError <$> err1) = (IsPermanentError <$> err2).
Proof.
  cbv zeta. set (c := buildRulesetsConfig rs).
  destruct (evaluateRulesets (H1 := S1) lk c effects view event evals (initEvaluation keys)) as [e1 err1] eqn:E1.
  destruct (evaluateRulesets (H1 := S2) lk c effects view event evals (initEvaluation keys)) as [e2 err2] eqn:E2. cbn [fst snd].
  set (f := forceActions lk event (initEvaluation keys)).
  assert (Hp : @completion S1 _ evals ≡ₚ @completion S2 _ evals) by (by rewrite (L1 _ evals), (L2 _ evals)).
  assert (F1 := evaluateRulesets_fold (H0 := S1) lk c effects view event evals (initEvaluation keys)).
  assert (F2 := evaluateRulesets_fold (H0 := S2) lk c effects view event evals (initEvaluation keys)).
  fold f in F1, F2. assert (G1 := f_equal snd E1). assert (G2 := f_equal snd E2). rewrite E1 in F1. rewrite E2 in F2. simpl in F1, F2, G1, G2.
  set (n1 := matchedNames effects view event (@completion S1 _ evals)) in *.
  set (n2 := matchedNames effects view event (@completion S2 _ evals)) in *.
  assert (Hn : n1 ≡ₚ n2) by (unfold n1, n2, matchedNames; by rewrite Hp).
  destruct (evaluation_components lk c n1 f) as (C1 & T1 & S1' & V1). destruct (evaluation_components lk c n2 f) as (C2 & T2 & S2' & V2).
  rewrite <- F1 in C1, T1, S1', V1. rewrite <- F2 in C2, T2, S2', V2.
  specialize (V1 (initEvaluation_view lk event keys)). specialize (V2 (initEvaluation_view lk event keys)).
  assert (Hsel : selectedLabels e1 = selectedLabels e2).
  { rewrite S1', S2'. apply fold_left_perm; [done|]. intros x y b _ _. unfold selectStep.
    destruct (LabelConfigMap c !! x) as [lx|] eqn:Hx, (LabelConfigMap c !! y) as [ly|] eqn:Hy; try done.
    apply selectRuleLabel_comm. destruct (decide (order_of c x = order_of c y)) as [He|]; [right|by left].
    pose proof (buildRulesetsConfig_ordered rs x y lx ly Hx Hy He). subst y. rewrite Hx in Hy. injection Hy as <-. done. }
  split; [rewrite C1, C2; f_equal; by apply existsb_perm|].
  split; [apply map_eq; intros key; destruct V1 as [_ ->], V2 as [_ ->]; by rewrite Hsel|].
  split; [intros key Hk; by rewrite (proj1 V1 key Hk), (proj1 V2 key Hk), Hsel|].
  split.
  - intros Hr. enough ((taintAppliedMap e1, taintEffectPriorityMap e1) = (taintAppliedMap e2, taintEffectPriorityMap e2)) as [= ? ?] by done.
    rewrite T1, T2. apply fold_left_perm; [done|]. intros. by apply taintStep_comm.
  - rewrite <- G1, <- G2. apply errors_Join_perm. by rewrite Hp.
Qed.

End order.

(** ** Two rule sets for one fault *)

Module RuleDemo.

#[local] Existing Instance list_range.

(** An expression is the name of a check. *)
#[local] Instance by_check : CelRules := {|
  NewHealthEventRule expr := inl (fun e => inl (CheckName e ==s expr));
  NewNodeRule _ := inr (plain "unsupported");
  IsEvaluationError _ := false |}.

Definition in_order : Scheduler := fun A l => l.
Definition reversed : Scheduler := fun A l => rev l.

Lemma in_order_laws : @SchedulerLaws in_order.
Proof. by intros A l. Qed.
Lemma reversed_laws : @SchedulerLaws reversed.
Proof. intros A l. symmetry. apply Permutation_rev. Qed.

Definition rule_set (name : string) (priority : Z) (effect label : string) : QuarantineRuleSet :=
  {| Meta := {| rsEnabled := true; rsVersion := "1"; rsName := name; rsPriority := priority;
                rsMatch := {| Any := [{| Kind := "HealthEvent"; Expression := "xid" |}]; All := [] |} |};
     rsTaint := {| Key := "nvidia.com/gpu"; Value := "faulty"; Effect := effect; PreExisting := false |};
     rsLabel := {| LabelKey := "severity"; LabelValue := label |}; ShouldCordon := true |}.

Definition evals_of (rs : list QuarantineRuleSet) : list RuleSetEvaluator :=
  (InitializeRuleSetEvaluators (map Meta rs)).1.

Definition xid : HealthEvent := AnnotationDemo.xid_fault RESTART_BM ["79"] [AnnotationDemo.gpu0].
Definition fault : HealthEvent := {|
  Version := Version xid; Agent := Agent xid; ComponentClass := ComponentClass xid; CheckName := "xid"; IsFatal := true;
  IsHealthy := false; Message := Message xid; Action := RESTART_BM; ErrorCode := ["79"]; EntitiesImpacted := [AnnotationDemo.gpu0];
  Metadata := ∅; GeneratedSeconds := None; NodeName := "node-1"; QuarantineOverrides := None; DrainOverrides := None;
  Strategy := EXECUTE_REMEDIATION; Id := "e1"; CustomRecommendedAction := "" |}.

Definition run (S : Scheduler) (rs : list QuarantineRuleSet) : Evaluation :=
  let c := buildRulesetsConfig rs in
  (evaluateRulesets (SetLabelKeys "k8s/") c None (inr (plain "no node")) fault (evals_of rs)
     (initEvaluation (precomputeTaintInitKeys (evals_of rs) c))).1.

Definition ranked := [rule_set "hard" 10 "NoExecute" "critical"; rule_set "soft" 5 "NoSchedule" "warning"].
Definition tied := [rule_set "hard" 5 "NoExecute" "critical"; rule_set "soft" 5 "NoSchedule" "warning"].

Lemma evaluation_order_independent_witness :
  appliedLabelsMap (run in_order tied) = appliedLabelsMap (run reversed tied) /\
  taintAppliedMap (run in_order ranked) = taintAppliedMap (run reversed ranked).
Proof.
  split.
  - apply (evaluation_order_independent in_order reversed (L1 := in_order_laws) (L2 := reversed_laws)
      (SetLabelKeys "k8s/") tied None (inr (plain "no node")) fault (evals_of tied)
      (precomputeTaintInitKeys (evals_of tied) (buildRulesetsConfig tied))).
  - apply (evaluation_order_independent in_order reversed (L1 := in_order_laws) (L2 := reversed_laws)
      (SetLabelKeys "k8s/") ranked None (inr (plain "no node")) fault (evals_of ranked)
      (precomputeTaintInitKeys (evals_of ranked) (buildRulesetsConfig ranked))).
    intros n1 n2 t1 t2 H1 H2 _ _.
    assert (E : forall n t, TaintConfigMap (buildRulesetsConfig ranked) !! n = Some t ->
      n = "hard"%string /\ t = rsTaint (rule_set "hard" 10 "NoExecute" "critical") \/
      n = "soft"%string /\ t = rsTaint (rule_set "soft" 5 "NoSchedule" "warning")).
    { intros n t. cbn [buildRulesetsConfig ranked fold_left rule_set Meta rsTaint rsName Key snd TaintConfigMap go_eqb negb].
      destruct (_ <>s ""); [|by rewrite lookup_empty]. rewrite !lookup_insert_Some, lookup_empty.
      intros [[<- <-]|[_ [[<- <-]|[_ ?]]]]; [by right|by left|done]. }
    apply E in H1 as [[-> ->]|[-> ->]], H2 as [[-> ->]|[-> ->]]; (split; [done|]); vm_compute; auto; left; discriminate.
Defined.

(** Rule sets of equal priority that disagree on the effect of a taint: the one
    that happens to finish first decides. *)
Example tied_effects_depend_on_order :
  taintAppliedMap (run in_order tied) !! ("nvidia.com/gpu", "faulty")%string = Some "NoExecute"%string /\
  taintAppliedMap (run reversed tied) !! ("nvidia.com/gpu", "faulty")%string = Some "NoSchedule"%string.
Proof. vm_compute. done. Qed.

(** The label of the later rule set wins at equal priority, in both orders. *)
Example tied_labels_agree :
  (alValue <$> appliedLabelsMap (run in_order tied) !! "severity"%string) = Some "warning"%string /\
  (alValue <$> appliedLabelsMap (run reversed tied) !! "severity"%string) = Some "warning"%string.
Proof. vm_compute. done. Qed.

End RuleDemo.
