(* ===== verification/Quarantine.v ===== *)
(** * The reconciler of fault-quarantine

    Models the event handlers of
    [fault-quarantine/pkg/reconciler/reconciler.go]: a health event starts,
    extends, shrinks or ends the quarantine session of its node; an operator's
    change of the node ends it.  The node API is [NodeAPI] of [NodeSession], the
    rules are [RuleEval]; breaker, validation client and event watcher are the
    interface [Services].  The informer's cache ([cached_node]) may lag behind the
    API server. *)

From stdpp Require Import gmap strings list fin_maps.
From Stdlib Require Import ZArith Lia.
From S2P Require Import Prelude HealthEvent AnnotationMap EventRecord KubeRetry StateManager Supersession Residual ColdStart NodeSession RuleEval.

#[local] Open Scope nat_scope.

(** The node of this component is [NodeSession.Node]. *)
#[local] Abbreviation Node := NodeSession.Node.

(** ** Context and services *)

(** The context of an event: live processing, or replay with the API server's
    answer for the node (one read per event, [GetRecoveryNode]) and the effects
    left to apply. *)
Inductive Ctx :=
| Live
| Recovery (snapshot : Node + kerror) (effects : option eventCoverage).

Definition IsRecoveryContext (ctx : Ctx) : bool := match ctx with Live => false | Recovery _ _ => true end.
Definition recoveryEffects (ctx : Ctx) : option eventCoverage := match ctx with Live => None | Recovery _ e => e end.

Class Services (W : Type) := {
  IsTripped : W -> W * (bool + goError);
  AddCordonEvent : W -> string -> W;
  UpdateQuarantineValidationAnnotation : string -> HealthEvent -> result string;
  FetchValidationTestsFromQuarantineSession : W -> string -> string -> (list string * string) + goError;
  CreateValidationRequest : W -> Node -> list string -> string -> W * option goError;
  CancelLatestQuarantiningEvents : W -> string -> string -> W * option goError;
  timestamp : W -> string }.

(** They do not write to nodes. *)
Class ServicesLaws (W : Type) `{NodeAPILaws W, Services W} := {
  tripped_live w w' r name : IsTripped w = (w', r) -> live w' name = live w name;
  cordon_event_live w node name : live (AddCordonEvent w node) name = live w name;
  validation_live w n tests session w' r name : CreateValidationRequest w n tests session = (w', r) -> live w' name = live w name;
  cancel_live w node reason w' r name : CancelLatestQuarantiningEvents w node reason = (w', r) -> live w' name = live w name }.

(** The configured reconciler. *)
Record Reconciler := {
  DryRun : bool;
  CircuitBreakerEnabled : bool;
  validationClient : bool;
  labelKeys : LabelKeys;
  ruleSetEvals : list RuleSetEvaluator;
  rulesets : rulesetsConfig;
  taintInitKeys : list keyValTaint }.

Definition errNoQuarantineAnnotation : string := "no quarantine annotation".
Definition errQuarantinedNodeNotUpdated : string := "quarantined node was not updated".

Definition CordonServiceName : string := "NVSentinel".

Section reconciler.
Context `{MapRange} `{SlotCodec} `{CelRules} `{Scheduler}.
Context `{JSON (list Taint)} `{JSON (list AppliedLabel)} `{JSON (list HealthEvent)} `{JSON HealthEvent}
  `{JSON (list HealthEventWithTests)}.
Context {W : Type} `{NodeAPI W} `{Services W} (r : Reconciler).

(** ** Reading the node *)

Definition getNode (ctx : Ctx) (w : W) (nodeName : string) : Node + goError :=
  match ctx with
  | Live => match cached_node w nodeName with Ok n => inl n | Err e => inr (plain e) end
  | Recovery (inl n) _ => inl n
  | Recovery (inr e) _ =>
      let wrappedErr := wrapped (plain (kmsg e)) in
      inr (if IsNotFound e then permanentError wrappedErr else wrappedErr)
  end.

Definition getNodeQuarantineAnnotations (ctx : Ctx) (w : W) (nodeName : string) : gmap string string + goError :=
  match getNode ctx w nodeName with
  | inl node => inl (filter (fun kv => kv.1 ∈ QuarantineAnnotationKeys) (Annotations node))
  | inr e => inr (wrapped e)
  end.

Definition hasExistingQuarantine (ctx : Ctx) (w : W) (nodeName : string) : (gmap string string * bool) + goError :=
  match getNodeQuarantineAnnotations ctx w nodeName with
  | inr e => inr (wrapped e)
  | inl annotations =>
      inl (annotations, match annotations !! QuarantineHealthEventAnnotationKey with
                        | Some v => negb (IsEmptyValue v) | None => false end)
  end.

Definition getHealthEventsFromAnnotation (ctx : Ctx) (w : W) (event : HealthEvent) :
    (HealthEventsAnnotationMap * gmap string string) + goError :=
  match getNodeQuarantineAnnotations ctx w (NodeName event) with
  | inr e => inr (wrapped e)
  | inl annotations =>
      let v := at_key annotations QuarantineHealthEventAnnotationKey in
      if v ==s "" then inr (plain errNoQuarantineAnnotation)
      else match parseHealthEventsAnnotation 0 v with
           | Ok he => inl (he, annotations)
           | Err e => inr (wrapped (plain e))
           end
  end.

(** [GetRuleNode]. *)
Definition GetRuleNode (ctx : Ctx) (w : W) (nodeName : string) : Node + goError :=
  match ctx with
  | Live => match cached_node w nodeName with Ok n => inl n | Err e => inr (wrapped (plain e)) end
  | Recovery (inl n) _ => inl n
  | Recovery (inr e) _ =>
      let wrappedErr := wrapped (plain (kmsg e)) in
      inr (if IsNotFound e then permanentError wrappedErr else wrappedErr)
  end.

(** ** Breaker *)

Definition breakerActive : bool := CircuitBreakerEnabled r && negb (DryRun r).

Definition recordCordonEventInCircuitBreaker (w : W) (event : HealthEvent) : W :=
  if breakerActive && negb (isForceQuarantine event) then AddCordonEvent w (NodeName event) else w.

(** A tripped breaker blocks live processing until the context ends. *)
Definition checkCircuitBreakerAndHalt (ctx : Ctx) (w : W) : W * bool * option goError :=
  if negb breakerActive then (w, false, None)
  else match IsTripped w with
  | (w, inr e) => (w, true, if IsRecoveryContext ctx then Some (wrapped e) else None)
  | (w, inl true) => (w, true, if IsRecoveryContext ctx then Some (plain "circuit breaker is tripped") else None)
  | (w, inl false) => (w, false, None)
  end.

Definition shouldDeferRecoveryActions (ctx : Ctx) (err : option goError) : bool :=
  IsRecoveryContext ctx && match err with Some e => negb (IsPermanentError e) | None => false end.

(** ** Starting a session *)

Definition markPreExistingTaints (node : Node) (taints : list Taint) : list Taint :=
  map (fun t =>
    if bool_decide ({| Key := Key t; Value := Value t; Effect := Effect t; PreExisting := false |} ∈ as_config <$> Taints node)
    then {| Key := Key t; Value := Value t; Effect := Effect t; PreExisting := true |} else t) taints.

(** [annotationsMap[key] = json] unless encoding failed. *)
Definition put_json {A} `{JSON A} (key : string) (a : A) (m : gmap string string) : gmap string string :=
  match json_marshal a with Ok s => <[key := s]> m | Err _ => m end.

(** The annotations, and the taints and labels after the marks and bookkeeping. *)
Definition prepareAnnotations (now : string) (node : Node) (taints : list Taint) (applied : list AppliedLabel)
    (labels : gmap string string) (cordoned : bool) : gmap string string * list Taint * gmap string string :=
  let lk := labelKeys r in
  let '(m, taints) :=
    if (0 <? length taints)%nat then
      let taints := markPreExistingTaints node taints in
      (put_json QuarantineHealthEventAppliedTaintsAnnotationKey taints ∅, taints)
    else (∅, taints) in
  let m := if (0 <? length applied)%nat then put_json QuarantineHealthEventAppliedLabelsAnnotationKey applied m else m in
  let '(m, labels) :=
    if cordoned then
      let m := <[QuarantineHealthEventIsCordonedAnnotationKey := AnnotationValueTrue]> m in
      if Unschedulable node then
        (<[QuarantineHealthEventCordonPreExistingAnnotationKey := AnnotationValueTrue]> m,
         delete (cordonedReasonLabelKey lk) (delete (cordonedByLabelKey lk) labels))
      else
        (m, <[cordonedTimestampLabelKey lk := now]>
              match labels !! cordonedByLabelKey lk with
              | Some _ => labels | None => <[cordonedByLabelKey lk := CordonServiceName]> labels end)
    else (m, labels) in
  let labels := if (0 <? length taints)%nat || (0 <? length applied)%nat || cordoned
                then <[NVSentinelStateLabelKey := QuarantinedLabelValue]> labels else labels in
  (m, taints, labels).

Definition updateValidationAnnotation (annotations : gmap string string) (event : HealthEvent) :
    result (gmap string string) :=
  if negb (validationClient r) then Ok annotations
  else
    let? updated := rwrap ("failed to merge validation annotation for node " +:+ NodeName event)
      (UpdateQuarantineValidationAnnotation (at_key annotations QuarantineValidationHealthEventAnnotationKey) event) in
    Ok (if updated <>s "" then <[QuarantineValidationHealthEventAnnotationKey := updated]> annotations else annotations).

Definition cleanupManualAnnotation (w : W) (nodeName : string) (annotations : gmap string string) (key : string) :
    W * option goError :=
  match annotations !! key with
  | None => (w, None)
  | Some _ =>
      match update_node w nodeName (fun node => Ok (with_annotations node (delete key (Annotations node)), tt)) with
      | (w, Ok _) => (w, None)
      | (w, Err e) => (w, Some (wrapped (plain e)))
      end
  end.

(** The status to store with the event, if any, and the error. *)
Abbreviation Outcome := (option string * option goError)%type.

Definition applyQuarantine (ctx : Ctx) (w : W) (event : HealthEvent) (annotations : gmap string string)
    (taints : list Taint) (annotationsMap labels : gmap string string) (cordoned : bool) : W * Outcome :=
  let w := recordCordonEventInCircuitBreaker w event in
  let '(healthEvents, updated) :=
    AddOrUpdateEventFiltered (NewHealthEventsAnnotationMap 1) {| addr := 0; ev := event |}
      (Some (recoveryEffectFilter (recoveryEffects ctx))) in
  if negb updated then (w, (None, None)) else
  let annotationsMap := if DryRun r then <[QuarantineHealthEventDryRunAnnotationKey := AnnotationValueTrue]> annotationsMap
                        else annotationsMap in
  match marshalRecord healthEvents with
  | Err e => (w, (None, Some (wrapped (plain e))))
  | Ok text =>
      let annotationsMap := <[QuarantineHealthEventAnnotationKey := text]> annotationsMap in
      match updateValidationAnnotation annotationsMap event with
      | Err e => (w, (None, Some (plain e)))
      | Ok annotationsMap =>
          match cleanupManualAnnotation w (NodeName event) annotations QuarantinedNodeUncordonedManuallyAnnotationKey with
          | (w, Some e) => (w, (None, Some e))
          | (w, None) =>
              match cleanupManualAnnotation w (NodeName event) annotations QuarantinedNodeIsUntaintedManuallyAnnotationKey with
              | (w, Some e) => (w, (None, Some e))
              | (w, None) =>
                  match QuarantineNodeAndSetAnnotations (DryRun r) w (NodeName event) taints cordoned annotationsMap labels with
                  | (w, Err e) => (w, (None, Some (plain e)))
                  | (w, Ok alreadyQuarantined) =>
                      (w, (Some (if alreadyQuarantined : bool then AlreadyQuarantined else Quarantined), None))
                  end
              end
          end
      end
  end.

(** ** Growing a session *)

Record sessionActionUpdate := {
  su_taints : list Taint; su_cordon : bool; su_annotations : gmap string string; su_labels : gmap string string }.

Definition isEmptyUpdate (u : sessionActionUpdate) : bool :=
  (length (su_taints u) =? 0)%nat && negb (su_cordon u) && (size (su_annotations u) =? 0)%nat && (size (su_labels u) =? 0)%nat.

Definition evaluateSessionActions (ctx : Ctx) (w : W) (event : HealthEvent) : (sessionActionUpdate + goError) * option goError :=
  let '(s, evaluationErr) := evaluateRulesets (labelKeys r) (rulesets r) (recoveryEffects ctx)
    (GetRuleNode ctx w (NodeName event)) event (ruleSetEvals r) (initEvaluation (taintInitKeys r)) in
  let required annotations := {| su_taints := collectTaintsToApply (taintAppliedMap s); su_cordon := isCordoned s;
    su_annotations := annotations; su_labels := labelsMap s |} in
  let applied := collectLabelsToApply (appliedLabelsMap s) in
  if (0 <? length applied)%nat then
    match json_marshal applied with
    | Ok text => (inl (required {[QuarantineHealthEventAppliedLabelsAnnotationKey := text]}), evaluationErr)
    | Err e => (inr (plain e), evaluationErr)
    end
  else (inl (required ∅), evaluationErr).

Definition keyEffectTaint : Type := string * string.

Definition sessionTaintsToAdd (node : Node) (desired : list Taint) : result (list Taint) :=
  let recordedJSON := at_key (Annotations node) QuarantineHealthEventAppliedTaintsAnnotationKey in
  let? recordedTaints := if recordedJSON ==s "" then Ok []
    else rwrap ("unmarshal applied taints annotation for node " +:+ Name node) (json_unmarshal (A := list Taint) recordedJSON) in
  let recorded : gset keyEffectTaint := list_to_set (cfg_identity <$> recordedTaints) in
  let onNode : gmap keyEffectTaint string := fold_left (fun m t => <[nt_identity t := ntValue t]> m) (Taints node) ∅ in
  Ok (omap (fun t =>
    if bool_decide (cfg_identity t ∈ recorded) then None
    else match onNode !! cfg_identity t with
         | Some value => if value <>s Value t then None else Some (mark true t)
         | None => Some t
         end) desired).

Definition deleteCordonLabels (labels : gmap string string) : gmap string string :=
  delete (cordonedTimestampLabelKey (labelKeys r)) (delete (cordonedReasonLabelKey (labelKeys r))
    (delete (cordonedByLabelKey (labelKeys r)) labels)).

Definition addSessionCordon (now : string) (node : Node) (requiresCordon recordActions : bool) (u : sessionActionUpdate) :
    sessionActionUpdate :=
  let lk := labelKeys r in
  let sessionCordoned := at_key (Annotations node) QuarantineHealthEventIsCordonedAnnotationKey ==s AnnotationValueTrue in
  if negb requiresCordon || sessionCordoned || negb recordActions then
    {| su_taints := su_taints u; su_cordon := su_cordon u; su_annotations := su_annotations u;
       su_labels := deleteCordonLabels (su_labels u) |}
  else
    let annotations := <[QuarantineHealthEventIsCordonedAnnotationKey := AnnotationValueTrue]> (su_annotations u) in
    if Unschedulable node then
      {| su_taints := su_taints u; su_cordon := su_cordon u;
         su_annotations := <[QuarantineHealthEventCordonPreExistingAnnotationKey := AnnotationValueTrue]> annotations;
         su_labels := deleteCordonLabels (su_labels u) |}
    else
      let labels := match su_labels u !! cordonedByLabelKey lk with
        | Some _ => su_labels u | None => <[cordonedByLabelKey lk := CordonServiceName]> (su_labels u) end in
      {| su_taints := su_taints u; su_cordon := true; su_annotations := annotations;
         su_labels := <[cordonedTimestampLabelKey lk := now]> labels |}.

Definition buildSessionActionUpdate (now : string) (node : Node) (required : sessionActionUpdate) : result sessionActionUpdate :=
  let dryRunSession := bool_decide (is_Some (Annotations node !! QuarantineHealthEventDryRunAnnotationKey)) in
  let recordActions := negb (DryRun r) || dryRunSession in
  let base := {| su_taints := []; su_cordon := false; su_annotations := su_annotations required; su_labels := su_labels required |} in
  let? update :=
    if recordActions then
      let? taints := sessionTaintsToAdd node (su_taints required) in
      if (0 <? length taints)%nat then
        let? text := rwrap "marshal session applied taints" (json_marshal taints) in
        Ok {| su_taints := taints; su_cordon := false;
              su_annotations := <[QuarantineHealthEventAppliedTaintsAnnotationKey := text]> (su_annotations required);
              su_labels := su_labels required |}
      else Ok base
    else Ok base in
  Ok (addSessionCordon now node (su_cordon required) recordActions update).

Definition notUpdated (e : goError) : goError := aggregate [plain errQuarantinedNodeNotUpdated; e].

Definition applyRuleActionsForEvent (ctx : Ctx) (w : W) (event : HealthEvent) : W * option goError :=
  let '(required, evaluationErr) := evaluateSessionActions ctx w event in
  let required_err := match required with inl _ => evaluationErr | inr e => errors_Join [evaluationErr; Some e] end in
  if shouldDeferRecoveryActions ctx required_err then
    (w, errors_Join [required_err; Some (plain errQuarantinedNodeNotUpdated)])
  else
    let required := match required with inl u => u
      | inr _ => {| su_taints := []; su_cordon := false; su_annotations := ∅; su_labels := ∅ |} end in
    match getNode ctx w (NodeName event) with
    | inr e => (w, errors_Join [required_err; Some (notUpdated e)])
    | inl node =>
        match buildSessionActionUpdate (timestamp w) node required with
        | Err e => (w, errors_Join [required_err; Some (notUpdated (plain e))])
        | Ok update =>
            if isEmptyUpdate update then (w, required_err)
            else
              let w := if su_cordon update then recordCordonEventInCircuitBreaker w event else w in
              match QuarantineNodeAndSetAnnotations (DryRun r) w (NodeName event) (su_taints update) (su_cordon update)
                      (su_annotations update) (su_labels update) with
              | (w, Err e) => (w, errors_Join [required_err; Some (notUpdated (plain e))])
              | (w, Ok _) => (w, required_err)
              end
        end
    end.

(** ** The record of open faults *)

(** The mutation of [addEventToAnnotation]. *)
Definition addEvent (ctx : Ctx) (event : HealthEvent) (node : Node) : result (Node * unit) :=
  let annotations := if DryRun r then Annotations node else delete QuarantineHealthEventDryRunAnnotationKey (Annotations node) in
  let existing := at_key annotations QuarantineHealthEventAnnotationKey in
  let? he := if existing ==s "" then Ok (NewHealthEventsAnnotationMap 0)
    else rwrap "failed to parse existing annotation (tried both formats)" (parseHealthEventsAnnotation 0 existing) in
  let '(he', added) := AddOrUpdateEventFiltered {| Events := Events he; fresh := S (fresh he) |}
    {| addr := fresh he; ev := event |} (Some (recoveryEffectFilter (recoveryEffects ctx))) in
  if negb added then Ok (with_annotations node annotations, tt)
  else
    let? text := rwrap "failed to marshal health events" (marshalRecord he') in
    let? annotations := updateValidationAnnotation (<[QuarantineHealthEventAnnotationKey := text]> annotations) event in
    Ok (with_annotations node annotations, tt).

Definition addEventToAnnotation (ctx : Ctx) (w : W) (event : HealthEvent) : W * result unit :=
  update_node w (NodeName event) (addEvent ctx event).

(** The mutation of [removeEventFromAnnotation], with the record it leaves; a
    record that became empty stays in the annotation until the release. *)
Definition removeEvent (ctx : Ctx) (event : HealthEvent) (node : Node) : result (Node * HealthEventsAnnotationMap) :=
  let existing := at_key (Annotations node) QuarantineHealthEventAnnotationKey in
  if existing ==s "" then Ok (node, NewHealthEventsAnnotationMap 0)
  else
    let? he := rwrap "failed to parse existing annotation (tried both formats)" (parseHealthEventsAnnotation 0 existing) in
    let '(he', removed) := RemoveEventFiltered he event (Some (recoveryEffectFilter (recoveryEffects ctx))) in
    if (removed =? 0)%nat then Ok (node, he')
    else if IsEmpty he' then Ok (node, he')
    else
      let? text := rwrap "failed to marshal health events after removal" (marshalRecord he') in
      Ok (with_annotations node (<[QuarantineHealthEventAnnotationKey := text]> (Annotations node)), he').

Definition removeEventFromAnnotation (ctx : Ctx) (w : W) (event : HealthEvent) : W * result HealthEventsAnnotationMap :=
  update_node w (NodeName event) (removeEvent ctx event).

(** ** Ending a session *)

Definition appliedLabelsRemovalParams (annotations : gmap string string) : result (list Label * list string) :=
  let text := at_key annotations QuarantineHealthEventAppliedLabelsAnnotationKey in
  if text ==s "" then Ok ([], [])
  else
    let? persisted := rwrap "unmarshal applied labels annotation" (json_unmarshal (A := list AppliedLabel) text) in
    Ok (map (fun l => {| LabelKey := alKey l; LabelValue := alValue l |}) persisted,
        [QuarantineHealthEventAppliedLabelsAnnotationKey]).

Definition appliedLabelCleanupParams (annotations : gmap string string) : result (list string * list string) :=
  let? params := appliedLabelsRemovalParams annotations in
  let '(labels, keys) := params in
  Ok (keys, List.filter (fun k => k <>s "") (map LabelKey labels)).

Record UncordonParams := {
  up_taints : list Taint; up_annotations : list string; up_labels : list Label; up_uncordon : bool;
  up_labelsMap : gmap string string }.

Definition prepareUncordonParams (now : string) (event : HealthEvent) (annotations : gmap string string) : result UncordonParams :=
  let text := at_key annotations QuarantineHealthEventAppliedTaintsAnnotationKey in
  let? taintParams :=
    if text ==s "" then Ok ([], [])
    else
      let? allTaints := rwrap ("failed to unmarshal taints annotation for node " +:+ NodeName event)
        (json_unmarshal (A := list Taint) text) in
      Ok (List.filter (fun t => negb (PreExisting t)) allTaints, [QuarantineHealthEventAppliedTaintsAnnotationKey]) in
  let? labelParams := rwrap ("failed to unmarshal labels annotation for node " +:+ NodeName event)
    (appliedLabelsRemovalParams annotations) in
  let '(taintsToBeRemoved, toRemove) := taintParams in
  let '(labels, labelAnnotations) := labelParams in
  let toRemove := toRemove ++ labelAnnotations in
  if at_key annotations QuarantineHealthEventIsCordonedAnnotationKey ==s AnnotationValueTrue then
    let toRemove := toRemove ++ [QuarantineHealthEventIsCordonedAnnotationKey] in
    if at_key annotations QuarantineHealthEventCordonPreExistingAnnotationKey ==s AnnotationValueTrue then
      Ok {| up_taints := taintsToBeRemoved; up_annotations := toRemove ++ [QuarantineHealthEventCordonPreExistingAnnotationKey];
            up_labels := labels; up_uncordon := false; up_labelsMap := ∅ |}
    else
      Ok {| up_taints := taintsToBeRemoved; up_annotations := toRemove; up_labels := labels; up_uncordon := true;
            up_labelsMap := <[uncordonedTimestampLabelKey (labelKeys r) := now]>
                              {[uncordonedByLabelKey (labelKeys r) := CordonServiceName]} |}
  else Ok {| up_taints := taintsToBeRemoved; up_annotations := toRemove; up_labels := labels; up_uncordon := false; up_labelsMap := ∅ |}.

Definition appendIfPresent (annotations : gmap string string) (toRemove keys : list string) : list string :=
  toRemove ++ List.filter (fun k => bool_decide (is_Some (annotations !! k))) keys.

Definition createValidationRequestIfRequested (ctx : Ctx) (w : W) (event : HealthEvent) (annotations : gmap string string) :
    W * (bool + goError) :=
  if negb (validationClient r) then (w, inl false)
  else match FetchValidationTestsFromQuarantineSession w (NodeName event)
               (at_key annotations QuarantineValidationHealthEventAnnotationKey) with
  | inr e => (w, inr (wrapped e))
  | inl (tests, sessionID) =>
      if (length tests =? 0)%nat then (w, inl false)
      else match cached_node w (NodeName event) with
      | Err e => (w, inr (wrapped (plain e)))
      | Ok node =>
          match CreateValidationRequest w node tests sessionID with
          | (w, Some e) => (w, inr e)
          | (w, None) => (w, inl true)
          end
      end
  end.

(** Taints, uncordon flag and annotation keys after a possible validation
    request, and whether there is one. *)
Definition triggerValidationOnUnquarantine (ctx : Ctx) (w : W) (event : HealthEvent) (annotations : gmap string string)
    (p : UncordonParams) : W * ((UncordonParams * bool) + goError) :=
  match annotations !! QuarantineValidationHealthEventAnnotationKey with
  | None => (w, inl (p, false))
  | Some _ =>
      match createValidationRequestIfRequested ctx w event annotations with
      | (w, inr e) => (w, inr e)
      | (w, inl created) =>
          let keys := up_annotations p ++ [QuarantineValidationHealthEventAnnotationKey] in
          (w, inl (if created : bool
            then {| up_taints := []; up_annotations := keys; up_labels := up_labels p; up_uncordon := false; up_labelsMap := up_labelsMap p |}
            else {| up_taints := up_taints p; up_annotations := keys; up_labels := up_labels p; up_uncordon := up_uncordon p;
                    up_labelsMap := up_labelsMap p |}, created))
      end
  end.

Definition buildUncordonLabelsToRemove (labels : list Label) (validationRequestCreated : bool) : list string :=
  let lk := labelKeys r in
  [NVSentinelStateLabelKey]
  ++ (if validationRequestCreated then [] else [cordonedByLabelKey lk; cordonedReasonLabelKey lk; cordonedTimestampLabelKey lk])
  ++ map LabelKey labels.

(** Whether the node stays quarantined, and the error. *)
Definition performUncordon (ctx : Ctx) (w : W) (event : HealthEvent) (annotations : gmap string string) :
    W * (bool * option goError) :=
  match prepareUncordonParams (timestamp w) event annotations with
  | Err e => (w, (true, Some (wrapped (plain e))))
  | Ok p =>
      let keys := appendIfPresent annotations (up_annotations p)
        [QuarantineHealthEventAnnotationKey; QuarantineHealthEventDryRunAnnotationKey] in
      let p := {| up_taints := up_taints p; up_annotations := keys; up_labels := up_labels p; up_uncordon := up_uncordon p;
                  up_labelsMap := up_labelsMap p |} in
      if (length (up_taints p) =? 0)%nat && (length (up_labels p) =? 0)%nat && negb (up_uncordon p) && (length keys =? 0)%nat
      then (w, (false, None))
      else match triggerValidationOnUnquarantine ctx w event annotations p with
      | (w, inr e) => (w, (true, Some e))
      | (w, inl (p, created)) =>
          match UnQuarantineNodeAndRemoveAnnotations (labelKeys r) (DryRun r) w (NodeName event) (up_taints p) (up_uncordon p)
                  (up_annotations p) (buildUncordonLabelsToRemove (up_labels p) created) (up_labelsMap p) with
          | (w, Err e) => (w, (true, Some (wrapped (plain e))))
          | (w, Ok _) => (w, (false, None))
          end
      end
  end.

(** ** Handlers *)

Definition handleUnhealthyEventOnQuarantinedNode (ctx : Ctx) (w : W) (event : HealthEvent) (he : HealthEventsAnnotationMap) :
    W * (bool * option goError) :=
  let '(matched, evaluationErr) :=
    if isForceQuarantine event then (false, None)
    else eventMatchesAnyRule (recoveryEffects ctx) (GetRuleNode ctx w (NodeName event)) event (ruleSetEvals r) in
  if negb (isForceQuarantine event) && negb matched then (w, (true, evaluationErr))
  else
    let '(_, added) := AddOrUpdateEventFiltered {| Events := Events he; fresh := S (fresh he) |}
      {| addr := fresh he; ev := event |} (Some (recoveryEffectFilter (recoveryEffects ctx))) in
    let '(w, stored) := if added : bool then addEventToAnnotation ctx w event else (w, Ok tt) in
    match stored with
    | Err e => (w, (true, errors_Join [evaluationErr; Some (notUpdated (plain e))]))
    | Ok _ =>
        match applyRuleActionsForEvent ctx w event with
        | (w, Some e) => (w, (true, errors_Join [evaluationErr; Some e]))
        | (w, None) => (w, (true, evaluationErr))
        end
    end.

(** Whether the node stays quarantined, and the error. *)
Definition handleQuarantinedNode (ctx : Ctx) (w : W) (event : HealthEvent) : W * (bool * option goError) :=
  match getHealthEventsFromAnnotation ctx w event with
  | inr e => if errors_Is errNoQuarantineAnnotation e then (w, (false, None)) else (w, (true, Some e))
  | inl (he, annotations) =>
      if negb (IsHealthy event) then handleUnhealthyEventOnQuarantinedNode ctx w event he
      else match GetEvent he event with
      | None => (w, (true, None))
      | Some _ =>
          match removeEventFromAnnotation ctx w event with
          | (w, Err e) => (w, (true, Some (plain e)))
          | (w, Ok updated) =>
              if IsEmpty updated then performUncordon ctx w event annotations else (w, (true, None))
          end
      end
  end.

Definition shouldProcessAlreadyQuarantinedEvent (ctx : Ctx) (w : W) (event : HealthEvent) : bool * option goError :=
  match getHealthEventsFromAnnotation ctx w event with
  | inr e => if errors_Is errNoQuarantineAnnotation e then (false, None) else (false, Some e)
  | inl (he, _) =>
      if IsHealthy event then (bool_decide (is_Some (GetEvent he event)), None)
      else if isForceQuarantine event then (true, None)
      else eventMatchesAnyRule (recoveryEffects ctx) (GetRuleNode ctx w (NodeName event)) event (ruleSetEvals r)
  end.

Definition resolveAlreadyQuarantinedStatus (stayQuarantined : bool) : string :=
  if stayQuarantined then AlreadyQuarantined else UnQuarantined.

Definition handleAlreadyQuarantinedNode (ctx : Ctx) (w : W) (event : HealthEvent) : W * Outcome :=
  let '(shouldProcess, eligibilityErr) := shouldProcessAlreadyQuarantinedEvent ctx w event in
  if negb shouldProcess then (w, (None, eligibilityErr))
  else
    let '(w, (stayQuarantined, processingErr)) := handleQuarantinedNode ctx w event in
    let err := errors_Join [eligibilityErr; processingErr] in
    if match processingErr with Some e => errors_Is errQuarantinedNodeNotUpdated e | None => false end
    then (w, (None, err)) else (w, (Some (resolveAlreadyQuarantinedStatus stayQuarantined), err)).

Definition handleEvent (ctx : Ctx) (w : W) (event : HealthEvent) : W * Outcome :=
  match hasExistingQuarantine ctx w (NodeName event) with
  | inr e => (w, (None, Some e))
  | inl (annotations, true) => handleAlreadyQuarantinedNode ctx w event
  | inl (annotations, false) =>
      if IsHealthy event then (w, (None, None))
      else
        let '(s, evaluationErr) := evaluateRulesets (labelKeys r) (rulesets r) (recoveryEffects ctx)
          (GetRuleNode ctx w (NodeName event)) event (ruleSetEvals r) (initEvaluation (taintInitKeys r)) in
        if shouldDeferRecoveryActions ctx evaluationErr then (w, (None, evaluationErr))
        else
          let taints := collectTaintsToApply (taintAppliedMap s) in
          let applied := collectLabelsToApply (appliedLabelsMap s) in
          match getNode ctx w (NodeName event) with
          | inr e => (w, (None, errors_Join [evaluationErr; Some e]))
          | inl node =>
              let '(annotationsMap, taints, labels) :=
                prepareAnnotations (timestamp w) node taints applied (labelsMap s) (isCordoned s) in
              if (length taints =? 0)%nat && (length applied =? 0)%nat && negb (isCordoned s) then (w, (None, evaluationErr))
              else
                let '(w, (status, quarantineErr)) :=
                  applyQuarantine ctx w event annotations taints annotationsMap labels (isCordoned s) in
                (w, (status, errors_Join [evaluationErr; quarantineErr]))
          end
  end.

Definition ProcessEvent (ctx : Ctx) (w : W) (event : HealthEvent) : W * Outcome :=
  let '(w, shouldHalt, err) := checkCircuitBreakerAndHalt ctx w in
  if shouldHalt : bool then (w, (None, err)) else handleEvent ctx w event.

(** ** Changes made by an operator *)

Definition manualUnquarantineAnnotationKeys : list string :=
  [QuarantineHealthEventAppliedTaintsAnnotationKey; QuarantineHealthEventAnnotationKey;
   QuarantineHealthEventIsCordonedAnnotationKey; QuarantineHealthEventCordonPreExistingAnnotationKey;
   QuarantineValidationHealthEventAnnotationKey; QuarantineHealthEventDryRunAnnotationKey].

(** The end of all three handlers: failing to cancel is logged only. *)
Definition cancelEvents (eventWatcher : bool) (w : W) (nodeName reason : string) : W :=
  if eventWatcher then (CancelLatestQuarantiningEvents w nodeName reason).1 else w.

Definition handleDryRunQuarantineOnNodeChange (eventWatcher : bool) (w : W) (nodeName : string) (annotations : gmap string string) :
    W * option goError :=
  if DryRun r then (w, None)
  else match appliedLabelCleanupParams annotations with
  | Err e => (w, Some (wrapped (plain e)))
  | Ok (labelAnnotations, _) =>
      let toRemove := appendIfPresent annotations [] manualUnquarantineAnnotationKeys ++ labelAnnotations in
      match HandleManualUntaintCleanup (DryRun r) w nodeName toRemove ∅ [] with
      | (w, Err e) => (w, Some (wrapped (plain e)))
      | (w, Ok _) => (cancelEvents eventWatcher w nodeName "Dry-run quarantine discarded", None)
      end
  end.

Definition handleManualUncordon (eventWatcher : bool) (w : W) (nodeName : string) : W * option goError :=
  match getNodeQuarantineAnnotations Live w nodeName with
  | inr e => (w, Some (wrapped e))
  | inl annotations =>
      if bool_decide (is_Some (annotations !! QuarantineHealthEventDryRunAnnotationKey))
      then handleDryRunQuarantineOnNodeChange eventWatcher w nodeName annotations
      else match appliedLabelCleanupParams annotations with
      | Err e => (w, Some (wrapped (plain e)))
      | Ok (labelAnnotations, _) =>
          let lk := labelKeys r in
          let toRemove := appendIfPresent annotations [] manualUnquarantineAnnotationKeys ++ labelAnnotations in
          let cordonLabels := {| Keys := [cordonedByLabelKey lk; cordonedReasonLabelKey lk; cordonedTimestampLabelKey lk];
                                 GuardKey := cordonedByLabelKey lk; GuardValue := CordonServiceName |} in
          match HandleManualUncordonCleanup (DryRun r) w nodeName toRemove
                  {[QuarantinedNodeUncordonedManuallyAnnotationKey := AnnotationValueTrue]}
                  [NVSentinelStateLabelKey] (Some cordonLabels) with
          | (w, Err e) => (w, Some (wrapped (plain e)))
          | (w, Ok _) => (cancelEvents eventWatcher w nodeName "Manual uncordoning detected", None)
          end
      end
  end.

Definition handleManualUntaint (eventWatcher : bool) (w : W) (nodeName : string) : W * option goError :=
  match getNodeQuarantineAnnotations Live w nodeName with
  | inr e => (w, Some (wrapped e))
  | inl annotations =>
      if bool_decide (is_Some (annotations !! QuarantineHealthEventDryRunAnnotationKey))
      then handleDryRunQuarantineOnNodeChange eventWatcher w nodeName annotations
      else match appliedLabelCleanupParams annotations with
      | Err e => (w, Some (wrapped (plain e)))
      | Ok (labelAnnotations, _) =>
          let toRemove := appendIfPresent annotations [] manualUnquarantineAnnotationKeys ++ labelAnnotations in
          match HandleManualUntaintCleanup (DryRun r) w nodeName toRemove
                  {[QuarantinedNodeIsUntaintedManuallyAnnotationKey := AnnotationValueTrue]} [NVSentinelStateLabelKey] with
          | (w, Err e) => (w, Some (wrapped (plain e)))
          | (w, Ok _) => (cancelEvents eventWatcher w nodeName "Manual untainting detected", None)
          end
      end
  end.

End reconciler.
