(* ===== verification/NodeCache.v ===== *)
(** * What the node cache keeps

    Models [fault-quarantine/pkg/nodecache]: the informer keeps only the labels
    and annotations that fault-quarantine or one of its rules needs.  A removal
    travels to the API server as a difference to the cached object, so a key the
    cache dropped could never be removed.  The theorems show that nothing is lost:
    the handlers' mutations, run on the pruned object and carried over by
    [NodePatch], do what they would do on the whole node. *)

From stdpp Require Import gmap strings list fin_maps.
From Stdlib Require Import ZArith Lia.
From S2P Require Import Prelude HealthEvent AnnotationMap EventRecord KubeRetry StateManager Supersession Residual ColdStart NodeSession NodePatch RuleEval Quarantine.

#[local] Open Scope nat_scope.
#[local] Abbreviation Node := NodeSession.Node.

(** ** Retained keys *)

Record Operational := { GPUNodeLabelKey : string }.

(** The configuration, as far as the cache looks at it: the validation rule sets
    contribute their rules only. *)
Record CacheConfig := {
  LabelPrefix : string;
  RuleSets : list QuarantineRuleSet;
  ValidationRuleSets : list RuleSetMeta }.

Record CacheKeys := {
  ck_labels : gset string; ck_annotations : gset string; pruneLabels : bool; pruneAnnotations : bool }.

(** The zero value keeps every key. *)
Definition no_keys : CacheKeys := {| ck_labels := ∅; ck_annotations := ∅; pruneLabels := false; pruneAnnotations := false |}.

Definition add_label (key : string) (k : CacheKeys) : CacheKeys :=
  {| ck_labels := {[key]} ∪ ck_labels k; ck_annotations := ck_annotations k; pruneLabels := pruneLabels k; pruneAnnotations := pruneAnnotations k |}.
Definition add_annotation (key : string) (k : CacheKeys) : CacheKeys :=
  {| ck_labels := ck_labels k; ck_annotations := {[key]} ∪ ck_annotations k; pruneLabels := pruneLabels k; pruneAnnotations := pruneAnnotations k |}.
Definition retainAllLabels (k : CacheKeys) : CacheKeys :=
  {| ck_labels := ck_labels k; ck_annotations := ck_annotations k; pruneLabels := false; pruneAnnotations := pruneAnnotations k |}.
Definition retainAllAnnotations (k : CacheKeys) : CacheKeys :=
  {| ck_labels := ck_labels k; ck_annotations := ck_annotations k; pruneLabels := pruneLabels k; pruneAnnotations := false |}.

(** [celrule.NodeFieldPaths]: the paths an expression reads, and whether they are
    all it reads. *)
Class NodeFieldPaths := node_field_paths : string -> result (list (list string) * bool).

Section derive.
Context `{NodeFieldPaths}.

Definition nodeRuleKind : string := "Node".

Definition nodeRuleExpressions (cfg : CacheConfig) : list string :=
  let appendFrom (meta : RuleSetMeta) :=
    map Expression (List.filter (fun rule => Kind rule ==s nodeRuleKind) (Any (rsMatch meta) ++ All (rsMatch meta))) in
  concat (map (fun rs => appendFrom (Meta rs)) (RuleSets cfg)) ++ concat (map appendFrom (ValidationRuleSets cfg)).

Definition addOperational (cfg : CacheConfig) (operational : Operational) (k : CacheKeys) : CacheKeys :=
  let k := fold_left (fun k key => add_annotation key k) QuarantineAnnotationKeys k in
  let k := add_label NVSentinelStateLabelKey k in
  let k := if GPUNodeLabelKey operational <>s "" then add_label (GPUNodeLabelKey operational) k else k in
  let lk := SetLabelKeys (LabelPrefix cfg) in
  let k := fold_left (fun k key => add_label key k)
    [cordonedByLabelKey lk; cordonedReasonLabelKey lk; cordonedTimestampLabelKey lk;
     uncordonedByLabelKey lk; uncordonedReasonLabelKey lk; uncordonedTimestampLabelKey lk] k in
  fold_left (fun k rs => if LabelKey (rsLabel rs) <>s "" then add_label (LabelKey (rsLabel rs)) k else k) (RuleSets cfg) k.

(** [addPath]; the third segment of a path into one of the maps is a key. *)
Definition addPath (path : list string) (k : CacheKeys) : CacheKeys :=
  match path with
  | [] => retainAllAnnotations (retainAllLabels k)
  | first :: rest =>
      if first <>s "metadata" then k
      else match rest with
      | [] => retainAllAnnotations (retainAllLabels k)
      | second :: keys =>
          if second ==s "labels" then match keys with [] => retainAllLabels k | key :: _ => add_label key k end
          else if second ==s "annotations" then match keys with [] => retainAllAnnotations k | key :: _ => add_annotation key k end
          else k
      end
  end.

Definition addExpression (k : CacheKeys) (expression : string) : CacheKeys :=
  match node_field_paths expression with
  | Err _ => retainAllAnnotations (retainAllLabels k)
  | Ok (paths, isComplete) =>
      if negb isComplete then retainAllAnnotations (retainAllLabels k) else fold_left (fun k path => addPath path k) paths k
  end.

Definition Derive (cfg : CacheConfig) (operational : Operational) : CacheKeys :=
  let keys := {| ck_labels := ∅; ck_annotations := ∅; pruneLabels := true; pruneAnnotations := true |} in
  fold_left addExpression (nodeRuleExpressions cfg) (addOperational cfg operational keys).

End derive.

(** ** Pruning *)

Section transform.
Context `{JSON (list AppliedLabel)}.

(** [None]: the annotation does not parse, so nothing is known. *)
Definition appliedLabelKeys (annotations : option (gmap string string)) : option (list string) :=
  match default ∅ annotations !! QuarantineHealthEventAppliedLabelsAnnotationKey with
  | None => Some []
  | Some value =>
      if value ==s "" then Some []
      else match json_unmarshal (A := list AppliedLabel) value with
           | Err _ => None
           | Ok appliedLabels => Some (List.filter (fun key => key <>s "") (map alKey appliedLabels))
           end
  end.

Definition retain (m : option (gmap string string)) (keys : gset string) (extra : list string) : option (gmap string string) :=
  match m with
  | None => None
  | Some m => Some (filter (fun kv => kv.1 ∈ keys \/ kv.1 ∈ extra) m)
  end.

Definition Transform (k : CacheKeys) (node : v1Node) : v1Node :=
  let sessionLabels := appliedLabelKeys (oAnnotations node) in
  {| oName := oName node; oResourceVersion := oResourceVersion node;
     oLabels := match sessionLabels with
                | Some extra => if pruneLabels k then retain (oLabels node) (ck_labels k) extra else oLabels node
                | None => oLabels node
                end;
     oAnnotations := if pruneAnnotations k then retain (oAnnotations node) (ck_annotations k) [] else oAnnotations node;
     oTaints := oTaints node; oUnschedulable := oUnschedulable node; oRest := "" |}.

End transform.

(** ** Changes that hidden entries do not disturb *)

(** A map entry before and after a change, in the view and in the node: shown, or
    hidden and left alone, or hidden and written. *)
Definition entry_tracks (c n c' n' : option string) : Prop :=
  (c = n /\ c' = n') \/ (c = None /\ c' = None /\ n' = n) \/ (c = None /\ is_Some c' /\ n' = c').

Definition map_tracks (c n c' n' : gmap string string) : Prop :=
  forall k, entry_tracks (c !! k) (n !! k) (c' !! k) (n' !! k).

Section map_tracks.
Context (c n : gmap string string).
Implicit Types (c n m : gmap string string).

Lemma tracks_start : (forall k, c !! k = n !! k \/ c !! k = None) -> map_tracks c n c n.
Proof. intros Hc k. destruct (Hc k) as [?|Hk]; [by left|]. right. left. done. Qed.

Lemma tracks_shown c' n' k : map_tracks c n c' n' -> c !! k = n !! k -> c' !! k = n' !! k.
Proof. intros Ht Hk. destruct (Ht k) as [[_ ?]|[(H1 & H2 & H3)|(_ & _ & H3)]]; congruence. Qed.

Lemma tracks_insert c' n' k v : map_tracks c n c' n' -> map_tracks c n (<[k := v]> c') (<[k := v]> n').
Proof.
  intros Ht j. destruct (decide (j = k)) as [->|Hne]; [|rewrite !lookup_insert_ne by congruence; apply Ht].
  rewrite !lookup_insert_eq. destruct (Ht k) as [[? _]|[(? & _)|(? & _)]]; [by left|right; right..]; eauto.
Qed.

Lemma tracks_delete c' n' k : map_tracks c n c' n' -> c !! k = n !! k -> map_tracks c n (delete k c') (delete k n').
Proof.
  intros Ht Hk j. destruct (decide (j = k)) as [->|Hne]; [|rewrite !lookup_delete_ne by congruence; apply Ht].
  rewrite !lookup_delete_eq. by left.
Qed.

Lemma tracks_deletes c' n' l : map_tracks c n c' n' -> (forall k, k ∈ l -> c !! k = n !! k) ->
  map_tracks c n (fold_left (fun m k => delete k m) l c') (fold_left (fun m k => delete k m) l n').
Proof.
  revert c' n'. induction l as [|k l IH]; intros c' n' Ht Hl; [done|]. simpl. apply IH; [|set_solver]. apply tracks_delete; [done|]. apply Hl. left.
Qed.

Lemma tracks_union c' n' m : map_tracks c n c' n' -> map_tracks c n (m ∪ c') (m ∪ n').
Proof.
  intros Ht k. rewrite !lookup_union. destruct (m !! k) as [v|].
  - rewrite !union_Some_l. destruct (Ht k) as [[? _]|[(? & _)|(? & _)]]; [by left|right; right..]; eauto.
  - rewrite !(left_id_L None _). apply Ht.
Qed.

Lemma tracks_rebase c' n' : map_tracks c n c' n' -> rebase_map c c' n = n'.
Proof.
  intros Ht. apply map_eq. intros k. rewrite rebase_map_lookup.
  destruct (Ht k) as [[H1 H2]|[(H1 & H2 & H3)|(H1 & [v H2] & H3)]]; case_decide; congruence.
Qed.
End map_tracks.

(** The same for nodes. *)
Record node_tracks (c n c' n' : Node) : Prop := {
  nt_name : Name c' = Name n' /\ Name n' = Name n;
  nt_taints : Taints c = Taints n /\ Taints c' = Taints n';
  nt_sched : Unschedulable c = Unschedulable n /\ Unschedulable c' = Unschedulable n';
  nt_labels : map_tracks (Labels c) (Labels n) (Labels c') (Labels n');
  nt_annotations : map_tracks (Annotations c) (Annotations n) (Annotations c') (Annotations n') }.

Lemma node_tracks_rebase c n c' n' : node_tracks c n c' n' -> rebase c c' n = n'.
Proof.
  intros [[N1 N2] [T1 T2] [U1 U2] HL HA]. unfold rebase. rewrite (tracks_rebase _ _ _ _ HL), (tracks_rebase _ _ _ _ HA). destruct n' as [a b d e f]. simpl in *.
  rewrite <- N2. f_equal.
  - case_decide; congruence.
  - destruct (eqb _ _) eqn:He; [apply eqb_prop in He|]; congruence.
Qed.

(** Two runs with the same outcome. *)
Definition runs_track {A} (c n : Node) (rc rn : result (Node * A)) : Prop :=
  match rc, rn with
  | Ok (c', a), Ok (n', b) => a = b /\ node_tracks c n c' n'
  | Err e, Err e' => e = e'
  | _, _ => False
  end.

(** [c] shows the session annotations, the labels of [shown] and the spec of [n],
    and nothing the node does not have. *)
Record pruned (shown : string -> Prop) (c n : Node) : Prop := {
  pr_agrees : agrees c n;
  pr_name : Name c = Name n;
  pr_labels k : Labels c !! k = Labels n !! k \/ Labels c !! k = None;
  pr_shown k : shown k -> Labels c !! k = Labels n !! k;
  pr_annotations k : Annotations c !! k = Annotations n !! k \/ Annotations c !! k = None }.

Lemma pruned_start shown c n : pruned shown c n -> node_tracks c n c n.
Proof.
  intros [(A1 & A2 & A3) Hn Hl _ Ha]. split; [done|done|done|by apply tracks_start|by apply tracks_start].
Qed.

Section mutations.
Context `{MapRange} `{SlotCodec}.
Context `{JSON (list Taint)} `{JL : JSON (list AppliedLabel)} `{JSON (list HealthEvent)} `{JSON HealthEvent} `{JSON (list HealthEventWithTests)}.
Context (c n : Node) (shown : string -> Prop) (Hpr : pruned shown c n).

Lemma annotation_shown key : key ∈ QuarantineAnnotationKeys -> Annotations c !! key = Annotations n !! key.
Proof. apply (pr_agrees _ _ _ Hpr). Qed.

Lemma read_annotation c' n' key : node_tracks c n c' n' -> key ∈ QuarantineAnnotationKeys ->
  at_key (Annotations c') key = at_key (Annotations n') key.
Proof. intros Ht Hk. unfold at_key. by rewrite (tracks_shown _ _ _ _ key (nt_annotations _ _ _ _ Ht) (annotation_shown key Hk)). Qed.

Lemma read_label c' n' key : node_tracks c n c' n' -> shown key -> at_key (Labels c') key = at_key (Labels n') key.
Proof. intros Ht Hk. unfold at_key. by rewrite (tracks_shown _ _ _ _ key (nt_labels _ _ _ _ Ht) (pr_shown _ _ _ Hpr key Hk)). Qed.

Lemma track_annotations c' n' mc mn : node_tracks c n c' n' -> map_tracks (Annotations c) (Annotations n) mc mn ->
  node_tracks c n (with_annotations c' mc) (with_annotations n' mn).
Proof. by intros [] Hm. Qed.

Lemma track_labels c' n' mc mn : node_tracks c n c' n' -> map_tracks (Labels c) (Labels n) mc mn ->
  node_tracks c n (with_labels c' mc) (with_labels n' mn).
Proof. by intros [] Hm. Qed.

Lemma track_taints c' n' l : node_tracks c n c' n' -> node_tracks c n (with_taints c' l) (with_taints n' l).
Proof. by intros [? [] ? ? ?]. Qed.

Lemma track_sched c' n' b : node_tracks c n c' n' -> node_tracks c n (with_unschedulable c' b) (with_unschedulable n' b).
Proof. by intros [? ? [] ? ?]. Qed.

Lemma applyTaints_tracks dry T c' n' : node_tracks c n c' n' -> node_tracks c n (applyTaints dry T c') (applyTaints dry T n').
Proof. intros Ht. unfold applyTaints. destruct dry; [done|]. rewrite <- (proj2 (nt_taints _ _ _ _ Ht)). by apply track_taints. Qed.

Lemma removeTaints_tracks dry T c' n' : node_tracks c n c' n' -> node_tracks c n (removeTaints dry T c') (removeTaints dry T n').
Proof.
  intros Ht. unfold removeTaints, removeNodeTaints. destruct dry; [done|]. rewrite <- (proj2 (nt_taints _ _ _ _ Ht)). cbv zeta.
  destruct (_ =? 0)%nat; [done|]. by apply track_taints.
Qed.

Lemma handleCordon_tracks dry c' n' : node_tracks c n c' n' -> node_tracks c n (handleCordon dry c') (handleCordon dry n').
Proof.
  intros Ht. unfold handleCordon. rewrite <- (proj2 (nt_sched _ _ _ _ Ht)). destruct (Unschedulable c'), dry; [done..|]. by apply track_sched.
Qed.

Lemma applyLabels_tracks dry m c' n' : node_tracks c n c' n' -> node_tracks c n (applyLabels dry m c') (applyLabels dry m n').
Proof. intros Ht. unfold applyLabels. destruct dry; [done|]. apply track_labels; [done|]. apply tracks_union, Ht. Qed.

Lemma removeLabels_tracks dry l c' n' : (forall k, k ∈ l -> shown k) -> node_tracks c n c' n' ->
  node_tracks c n (removeLabels dry l c') (removeLabels dry l n').
Proof.
  intros Hl Ht. unfold removeLabels. destruct (_ =? 0)%nat, dry; [done..|]. apply track_labels; [done|]. apply tracks_deletes; [apply Ht|].
  intros k Hk. apply (pr_shown _ _ _ Hpr). by apply Hl.
Qed.

Lemma handleUncordon_tracks lk dry m c' n' : shown (cordonedReasonLabelKey lk) -> node_tracks c n c' n' ->
  node_tracks c n (handleUncordon lk dry m c') (handleUncordon lk dry m n').
Proof.
  intros Hs Ht. unfold handleUncordon. cbv zeta.
  assert (Hc1 : node_tracks c n (if dry then c' else with_unschedulable c' false) (if dry then n' else with_unschedulable n' false))
    by (destruct dry; [done|by apply track_sched]).
  destruct (size m =? 0)%nat; [done|]. apply (applyLabels_tracks dry m) in Hc1. rewrite (read_label _ _ _ Hc1 Hs).
  destruct (_ ==s ""); [done|]. apply track_labels; [done|]. apply tracks_insert, Hc1.
Qed.

Lemma applyAnnotations_tracks m c' n' : node_tracks c n c' n' ->
  match applyAnnotations m c', applyAnnotations m n' with
  | Ok c1, Ok n1 => node_tracks c n c1 n1 | Err e, Err e' => e = e' | _, _ => False end.
Proof.
  intros Ht. unfold applyAnnotations. destruct (nt_name _ _ _ _ Ht) as [-> _]. generalize (Name n'). intros name.
  assert (Hgen : forall l rc rn, match rc, rn with Ok c1, Ok n1 => node_tracks c n c1 n1 | Err e, Err e' => e = e' | _, _ => False end ->
    let step := fun (r : result Node) '(key, value) => let? x := r in
      let? v := rwrap ("failed to merge annotation " +:+ key +:+ " on node " +:+ name) (mergedValue key (at_key (Annotations x) key) value) in
      Ok (with_annotations x (<[key := v]> (Annotations x))) in
    match fold_left step l rc, fold_left step l rn with Ok c1, Ok n1 => node_tracks c n c1 n1 | Err e, Err e' => e = e' | _, _ => False end).
  { induction l as [|[key value] l IH]; intros rc rn Hr step; [done|]. simpl. apply IH. destruct rc as [c1|e], rn as [n1|e']; cbn [rbind]; try done.
    assert (Hv : mergedValue key (at_key (Annotations c1) key) value = mergedValue key (at_key (Annotations n1) key) value).
    { unfold mergedValue. destruct (annotationMergers key) eqn:Hm; [|done]. f_equal. apply read_annotation; [done|].
      unfold annotationMergers in Hm. unfold QuarantineAnnotationKeys. repeat (destruct (key ==s _) eqn:Hk in Hm; [to_prop; set_solver|clear Hk]). done. }
    unfold step. cbn [rbind]. rewrite Hv. destruct (mergedValue key (at_key (Annotations n1) key) value) as [v|]; cbn [rwrap rbind]; [|done].
    apply track_annotations; [done|]. apply tracks_insert, Hr. }
  apply (Hgen (range m) (Ok c') (Ok n') Ht).
Qed.

Lemma quarantineNode_tracks dry T cordon A L :
  runs_track c n (quarantineNode dry T cordon A L c) (quarantineNode dry T cordon A L n).
Proof.
  pose proof (pruned_start _ _ _ Hpr) as Ht. unfold quarantineNode, hasNonEmptyQuarantineHealthEvent. cbv zeta.
  rewrite (read_annotation c n _ Ht) by (unfold QuarantineAnnotationKeys; set_solver). set (b := negb _).
  assert (Ht1 : node_tracks c n (if dry then c else with_annotations c (delete QuarantineHealthEventDryRunAnnotationKey (Annotations c)))
    (if dry then n else with_annotations n (delete QuarantineHealthEventDryRunAnnotationKey (Annotations n)))).
  { destruct dry; [done|]. apply track_annotations; [done|]. apply tracks_delete; [apply Ht|]. apply annotation_shown. unfold QuarantineAnnotationKeys. set_solver. }
  revert Ht1. generalize (if dry then c else with_annotations c (delete QuarantineHealthEventDryRunAnnotationKey (Annotations c)))
    (if dry then n else with_annotations n (delete QuarantineHealthEventDryRunAnnotationKey (Annotations n))). intros c1 n1 Ht1.
  assert (Ht2 : node_tracks c n (if (0 <? length T)%nat then applyTaints dry T c1 else c1) (if (0 <? length T)%nat then applyTaints dry T n1 else n1))
    by (destruct (0 <? length T)%nat; [by apply applyTaints_tracks|done]).
  revert Ht2. generalize (if (0 <? length T)%nat then applyTaints dry T c1 else c1) (if (0 <? length T)%nat then applyTaints dry T n1 else n1).
  clear c1 n1 Ht1. intros c1 n1 Ht1.
  assert (Ht2 : node_tracks c n (if cordon then handleCordon dry c1 else c1) (if cordon then handleCordon dry n1 else n1))
    by (destruct cordon; [by apply handleCordon_tracks|done]).
  revert Ht2. generalize (if cordon then handleCordon dry c1 else c1) (if cordon then handleCordon dry n1 else n1).
  clear c1 n1 Ht1. intros c1 n1 Ht1.
  assert (Ht2 : match (if (0 <? size A)%nat then applyAnnotations A c1 else Ok c1), (if (0 <? size A)%nat then applyAnnotations A n1 else Ok n1) with
    | Ok c2, Ok n2 => node_tracks c n c2 n2 | Err e, Err e' => e = e' | _, _ => False end)
    by (destruct (0 <? size A)%nat; [by apply applyAnnotations_tracks|done]).
  destruct (if (0 <? size A)%nat then applyAnnotations A c1 else Ok c1) as [c2|], (if (0 <? size A)%nat then applyAnnotations A n1 else Ok n1) as [n2|];
    cbn [rbind]; [|done..]. destruct (0 <? size L)%nat; [|done]. unfold labelsWithSessionWinners. cbv zeta.
  rewrite (read_annotation c2 n2 _ Ht2) by (unfold QuarantineAnnotationKeys; set_solver). rewrite (proj1 (nt_name _ _ _ _ Ht2)).
  destruct (if IsEmptyValue _ then Ok L else _) as [m|]; cbn [rwrap rbind]; [|done]. split; [done|]. by apply applyLabels_tracks.
Qed.

Lemma unquarantineNode_tracks lk dry T u A L labels :
  shown (cordonedReasonLabelKey lk) -> (forall k, k ∈ L -> shown k) -> (forall k, k ∈ A -> k ∈ QuarantineAnnotationKeys) ->
  node_tracks c n (unquarantineNode lk dry T u A L labels c) (unquarantineNode lk dry T u A L labels n).
Proof.
  intros Hr HL HA. pose proof (pruned_start _ _ _ Hpr) as Ht. unfold unquarantineNode. cbv zeta. apply removeLabels_tracks; [done|].
  assert (Ht1 : node_tracks c n (if (0 <? length T)%nat then removeTaints dry T c else c) (if (0 <? length T)%nat then removeTaints dry T n else n))
    by (destruct (0 <? length T)%nat; [by apply removeTaints_tracks|done]).
  revert Ht1. generalize (if (0 <? length T)%nat then removeTaints dry T c else c) (if (0 <? length T)%nat then removeTaints dry T n else n). intros c1 n1 Ht1.
  assert (Ht2 : node_tracks c n (if u then handleUncordon lk dry labels c1 else c1) (if u then handleUncordon lk dry labels n1 else n1))
    by (destruct u; [by apply handleUncordon_tracks|done]).
  apply track_annotations; [done|]. apply tracks_deletes; [apply Ht2|]. intros k Hk. by apply annotation_shown, HA.
Qed.

Lemma manualCleanup_tracks dry A m L :
  (forall k, k ∈ L -> shown k) -> (forall k, k ∈ A -> k ∈ QuarantineAnnotationKeys) ->
  node_tracks c n (manualUntaintCleanup dry A m L c) (manualUntaintCleanup dry A m L n).
Proof.
  intros HL HA. pose proof (pruned_start _ _ _ Hpr) as Ht. apply removeLabels_tracks; [done|]. apply track_annotations; [done|].
  apply tracks_union, tracks_deletes; [apply Ht|]. intros k Hk. by apply annotation_shown, HA.
Qed.

Lemma manualUncordonCleanup_tracks dry A m L cond :
  (forall k, k ∈ L -> shown k) -> (forall k, k ∈ A -> k ∈ QuarantineAnnotationKeys) ->
  (forall x, cond = Some x -> shown (GuardKey x) /\ forall k, k ∈ Keys x -> shown k) ->
  node_tracks c n (manualUncordonCleanup dry A m L cond c) (manualUncordonCleanup dry A m L cond n).
Proof.
  intros HL HA Hc. pose proof (manualCleanup_tracks dry A m L HL HA) as Ht. unfold manualUncordonCleanup, manualUntaintCleanup in *. cbv zeta.
  destruct cond as [x|]; [|done]. destruct (Hc x eq_refl) as [Hg Hk]. rewrite (read_label _ _ _ Ht Hg). destruct (_ && _); [|done].
  by apply removeLabels_tracks.
Qed.

End mutations.

(** ** The cached object *)

Section cache.
Context `{NodeFieldPaths} `{JL : JSON (list AppliedLabel)}.

(** Retained keys only accumulate. *)
Definition keeps (k1 k2 : CacheKeys) : Prop :=
  ck_labels k1 ⊆ ck_labels k2 /\ ck_annotations k1 ⊆ ck_annotations k2 /\
  (pruneLabels k2 = true -> pruneLabels k1 = true) /\ (pruneAnnotations k2 = true -> pruneAnnotations k1 = true).

#[local] Instance keeps_preorder : PreOrder keeps.
Proof.
  split; [by intros k|]. intros k1 k2 k3 (A1 & B1 & C1 & D1) (A2 & B2 & C2 & D2). repeat split; [set_solver..|auto|auto].
Qed.

Lemma keeps_fold {A} (f : CacheKeys -> A -> CacheKeys) l k : (forall k a, keeps k (f k a)) -> keeps k (fold_left f l k).
Proof. intros Hf. revert k. induction l as [|a l IH]; intros k; simpl; [done|]. etrans; [apply Hf|apply IH]. Qed.

Lemma keeps_all k : keeps k (retainAllAnnotations (retainAllLabels k)).
Proof. repeat split; [set_solver..|done|done]. Qed.

Lemma keeps_path path k : keeps k (addPath path k).
Proof.
  assert (Hl : forall x, keeps k (add_label x k)) by (repeat split; simpl; set_solver).
  assert (Ha : forall x, keeps k (add_annotation x k)) by (repeat split; simpl; set_solver).
  assert (HL : keeps k (retainAllLabels k)) by (by repeat split). assert (HA : keeps k (retainAllAnnotations k)) by (by repeat split).
  unfold addPath. pose proof (keeps_all k). repeat case_match; done.
Qed.

Lemma keeps_expression k e : keeps k (addExpression k e).
Proof.
  unfold addExpression. destruct (node_field_paths e) as [[paths []]|]; simpl; [|apply keeps_all..].
  apply (keeps_fold (fun k path => addPath path k)). intros. apply keeps_path.
Qed.

Lemma keeps_label x k : keeps k (add_label x k).
Proof. repeat split; simpl; set_solver. Qed.

Lemma keeps_annotation x k : keeps k (add_annotation x k).
Proof. repeat split; simpl; set_solver. Qed.

(** A key added by one step of a fold is there at its end. *)
Lemma fold_adds {A} (f : CacheKeys -> A -> CacheKeys) (P : A -> CacheKeys -> Prop) l k a :
  (forall k a, keeps k (f k a)) -> (forall k a, P a (f k a)) -> (forall a k1 k2, keeps k1 k2 -> P a k1 -> P a k2) ->
  a ∈ l -> P a (fold_left f l k).
Proof.
  intros Hf Hp Hm. revert k. induction l as [|x l IH]; intros k Ha; [by apply not_elem_of_nil in Ha|]. simpl.
  apply elem_of_cons in Ha as [->|Ha]; [|by apply IH]. eapply Hm; [by apply keeps_fold|apply Hp].
Qed.

Definition cordonLabels (cfg : CacheConfig) : list string :=
  let lk := SetLabelKeys (LabelPrefix cfg) in
  [cordonedByLabelKey lk; cordonedReasonLabelKey lk; cordonedTimestampLabelKey lk;
   uncordonedByLabelKey lk; uncordonedReasonLabelKey lk; uncordonedTimestampLabelKey lk].

(** What fault-quarantine reads or removes on its own account is retained. *)
Lemma Derive_operational cfg op :
  (forall key, key ∈ QuarantineAnnotationKeys -> key ∈ ck_annotations (Derive cfg op)) /\
  (forall key, key ∈ NVSentinelStateLabelKey :: cordonLabels cfg -> key ∈ ck_labels (Derive cfg op)).
Proof.
  unfold Derive. set (k0 := Build_CacheKeys _ _ _ _).
  assert (He : keeps (addOperational cfg op k0) (fold_left addExpression (nodeRuleExpressions cfg) (addOperational cfg op k0)))
    by (apply keeps_fold, keeps_expression).
  enough ((forall key, key ∈ QuarantineAnnotationKeys -> key ∈ ck_annotations (addOperational cfg op k0)) /\
    (forall key, key ∈ NVSentinelStateLabelKey :: cordonLabels cfg -> key ∈ ck_labels (addOperational cfg op k0))) as [E1 E2].
  { destruct He as (S1 & S2 & _). split; intros key Hk; [apply S2, E1, Hk|apply S1, E2, Hk]. }
  clear He. unfold addOperational. cbv zeta. set (k1 := fold_left _ QuarantineAnnotationKeys k0). set (k2 := add_label NVSentinelStateLabelKey k1).
  set (k3 := if _ <>s "" then _ else k2). set (k4 := fold_left _ _ k3).
  assert (E4 : keeps k4 (fold_left (fun k rs => if LabelKey (rsLabel rs) <>s "" then add_label (LabelKey (rsLabel rs)) k else k) (RuleSets cfg) k4)).
  { apply (keeps_fold (fun k rs => if LabelKey (rsLabel rs) <>s "" then add_label (LabelKey (rsLabel rs)) k else k)).
    intros k rs. destruct (LabelKey (rsLabel rs) <>s ""); [apply keeps_label|done]. }
  assert (E3 : keeps k3 k4) by (apply (keeps_fold (fun k key => add_label key k)); intros; apply keeps_label).
  assert (E2 : keeps k2 k3) by (unfold k3; destruct (GPUNodeLabelKey op <>s ""); [apply keeps_label|done]).
  assert (E1 : keeps k1 k2) by apply keeps_label. split.
  - intros key Hk. apply E4, E3, E2, E1. refine (fold_adds (fun k key => add_annotation key k) (fun key k => key ∈ ck_annotations k) _ k0 key _ _ _ Hk).
    + intros. apply keeps_annotation.
    + intros k a. simpl. set_solver.
    + intros a x y (_ & Hxy & _) Hx. by apply Hxy.
  - intros key [->|Hk]%elem_of_cons; apply E4.
    + apply E3, E2. unfold k2. simpl. set_solver.
    + refine (fold_adds (fun k key => add_label key k) (fun key k => key ∈ ck_labels k) _ k3 key _ _ _ Hk).
      * intros. apply keeps_label.
      * intros k a. simpl. set_solver.
      * intros a x y (Hxy & _) Hx. by apply Hxy.
Qed.

Lemma retain_lookup m keys extra k :
  default ∅ (retain m keys extra) !! k = if decide (k ∈ keys \/ k ∈ extra) then default ∅ m !! k else None.
Proof.
  destruct m as [m|]; simpl; [|rewrite lookup_empty; by case_decide]. case_decide as Hk.
  - destruct (m !! k) eqn:Hm; [by apply map_lookup_filter_Some|]. apply map_lookup_filter_None. by left.
  - apply map_lookup_filter_None. right. by intros.
Qed.

(** So is the label that marks GPU nodes. *)
Lemma Derive_gpu cfg op : GPUNodeLabelKey op <> ""%string -> GPUNodeLabelKey op ∈ ck_labels (Derive cfg op).
Proof.
  intros Hne. unfold Derive. set (k0 := Build_CacheKeys _ _ _ _).
  assert (He : keeps (addOperational cfg op k0) (fold_left addExpression (nodeRuleExpressions cfg) (addOperational cfg op k0)))
    by (apply keeps_fold, keeps_expression).
  apply He. clear He. unfold addOperational. cbv zeta. set (k2 := add_label NVSentinelStateLabelKey _).
  rewrite (proj2 (negb_true_iff _) (proj2 (go_eqb_false _ _) Hne)). set (k3 := add_label (GPUNodeLabelKey op) k2). set (k4 := fold_left _ _ k3).
  assert (E4 : keeps k4 (fold_left (fun k rs => if LabelKey (rsLabel rs) <>s "" then add_label (LabelKey (rsLabel rs)) k else k) (RuleSets cfg) k4)).
  { apply (keeps_fold (fun k rs => if LabelKey (rsLabel rs) <>s "" then add_label (LabelKey (rsLabel rs)) k else k)).
    intros k rs. destruct (LabelKey (rsLabel rs) <>s ""); [apply keeps_label|done]. }
  assert (E3 : keeps k3 k4) by (apply (keeps_fold (fun k key => add_label key k)); intros; apply keeps_label).
  apply E4, E3. unfold k3. simpl. set_solver.
Qed.

Lemma Transform_shows k o :
  (forall key, key ∈ ck_labels k -> Labels (node_of (Transform k o)) !! key = Labels (node_of o) !! key) /\
  (forall key, key ∈ ck_annotations k -> Annotations (node_of (Transform k o)) !! key = Annotations (node_of o) !! key).
Proof.
  split; intros key Hk; simpl.
  - destruct (appliedLabelKeys _); [|done]. destruct (pruneLabels k); [|done]. by rewrite retain_lookup, decide_True by auto.
  - destruct (pruneAnnotations k); [|done]. by rewrite retain_lookup, decide_True by auto.
Qed.

(** The labels that can be removed from a node: those of the session, the ones its
    annotation lists, and those it does not have. *)
Definition removable (cfg : CacheConfig) (o : v1Node) (key : string) : Prop :=
  key ∈ NVSentinelStateLabelKey :: cordonLabels cfg \/
  (forall extra, appliedLabelKeys (oAnnotations o) = Some extra -> key ∈ extra) \/
  Labels (node_of o) !! key = None.

Lemma Transform_pruned cfg op o : pruned (removable cfg o) (node_of (Transform (Derive cfg op) o)) (node_of o).
Proof.
  destruct (Derive_operational cfg op) as [HA HL]. set (k := Derive cfg op) in *. split.
  - split; [done|]. split; [done|]. intros key Hk. simpl. destruct (pruneAnnotations k); [|done]. rewrite retain_lookup.
    by rewrite decide_True by (left; by apply HA).
  - done.
  - intros key. simpl. destruct (appliedLabelKeys _) as [extra|]; [|by left]. destruct (pruneLabels k); [|by left]. rewrite retain_lookup. case_decide; auto.
  - intros key Hk. simpl. destruct (appliedLabelKeys (oAnnotations o)) as [extra|] eqn:He; [|done]. destruct (pruneLabels k); [|done].
    rewrite retain_lookup. destruct Hk as [Hk|[Hk|Hk]]; [rewrite decide_True; [done|left; by apply HL]|rewrite decide_True; [done|right; by apply Hk]|].
    simpl in Hk. rewrite Hk. by case_decide.
  - intros key. simpl. destruct (pruneAnnotations k); [|by left]. rewrite retain_lookup. case_decide; auto.
Qed.
End cache.

Section exact.
Context `{NodeFieldPaths} `{MapRange} `{SlotCodec}.
Context `{JT : JSON (list Taint)} `{JL : JSON (list AppliedLabel)} `{JSON (list HealthEvent)} `{JSON HealthEvent} `{JSON (list HealthEventWithTests)}.
Context (r : Reconciler) (cfg : CacheConfig) (op : Operational) (Hlk : labelKeys r = SetLabelKeys (LabelPrefix cfg)).

(** The labels a release removes are removable. *)
Lemma release_labels_removable o m now event p created key :
  (forall key, key ∈ QuarantineAnnotationKeys -> m !! key = Annotations (node_of o) !! key) ->
  prepareUncordonParams r now event m = Ok p -> Labels (node_of o) !! ""%string = None ->
  key ∈ buildUncordonLabelsToRemove r (up_labels p) created -> removable cfg o key.
Proof.
  intros Hm Hp Hne. unfold buildUncordonLabelsToRemove, removable, cordonLabels. cbv zeta. rewrite Hlk. intros Hin.
  apply elem_of_app in Hin as [Hin|[Hin|Hin]%elem_of_app]; [left; set_solver|left; destruct created; set_solver|right].
  destruct (decide (key = ""%string)) as [->|Hkey]; [by right|left].
  assert (Hl : exists labelAnnotations, appliedLabelsRemovalParams m = Ok (up_labels p, labelAnnotations)).
  { unfold prepareUncordonParams in Hp. destruct (if _ ==s "" then Ok ([], []) else _) as [[taints rm]|]; cbn [rbind] in Hp; [|done].
    destruct (appliedLabelsRemovalParams m) as [[labels la]|]; cbn [rwrap rbind] in Hp; [|done]. exists la.
    destruct (_ ==s AnnotationValueTrue); [destruct (_ ==s AnnotationValueTrue)|]; by injection Hp as <-. }
  destruct Hl as [la Hl]. unfold appliedLabelsRemovalParams, at_key in Hl. rewrite Hm in Hl by (unfold QuarantineAnnotationKeys; set_solver).
  unfold appliedLabelKeys. simpl in Hl. intros extra.
  destruct (default ∅ (oAnnotations o) !! QuarantineHealthEventAppliedLabelsAnnotationKey) as [value|]; simpl in Hl.
  2: { injection Hl as Hl _. rewrite <- Hl in Hin. by apply not_elem_of_nil in Hin. }
  destruct (value ==s ""); [injection Hl as Hl _; rewrite <- Hl in Hin; by apply not_elem_of_nil in Hin|].
  destruct (json_unmarshal value) as [persisted|]; cbn [rwrap rbind] in Hl; [|done]. injection Hl as Hl _. intros [= <-].
  apply list_elem_of_In, filter_In. split; [|by apply negb_true_iff, go_eqb_false].
  rewrite <- Hl, map_map in Hin. apply list_elem_of_In in Hin. exact Hin.
Qed.

(** C11 (the pruned cache suffices).  Carried over from the pruned object in the
    informer's cache, starting or extending a session and releasing it change the
    whole node exactly as the same operation on the whole node would, labels of
    rules that are no longer configured included; an error is the same error. *)
Theorem cached_updates_exact (o : v1Node) :
  let c := node_of (Transform (Derive cfg op) o) in
  let n := node_of o in
  (forall dryRun taints cordon annotations labels,
     match quarantineNode dryRun taints cordon annotations labels c with
     | Ok (c', already) => quarantineNode dryRun taints cordon annotations labels n = Ok (rebase c c' n, already)
     | Err e => quarantineNode dryRun taints cordon annotations labels n = Err e
     end) /\
  (forall dryRun m now event p taints uncordon annotationKeys labels created,
     (forall key, key ∈ QuarantineAnnotationKeys -> m !! key = Annotations n !! key) -> Labels n !! ""%string = None ->
     prepareUncordonParams r now event m = Ok p -> (forall key, key ∈ annotationKeys -> key ∈ QuarantineAnnotationKeys) ->
     let release := unquarantineNode (labelKeys r) dryRun taints uncordon annotationKeys
                      (buildUncordonLabelsToRemove r (up_labels p) created) labels in
     release n = rebase c (release c) n).
Proof.
  intros c n. pose proof (Transform_pruned cfg op o : pruned (removable cfg o) c n) as Hpr. split.
  - intros dryRun taints cordon annotations labels. pose proof (quarantineNode_tracks c n _ Hpr dryRun taints cordon annotations labels) as Ht.
    unfold runs_track in Ht. destruct (quarantineNode _ _ _ _ _ c) as [[c' b]|e], (quarantineNode _ _ _ _ _ n) as [[n' b']|e']; try done.
    + destruct Ht as [-> Ht]. by rewrite (node_tracks_rebase _ _ _ _ Ht).
    + by rewrite Ht.
  - intros dryRun m now event p taints uncordon annotationKeys labels created Hm Hempty Hp HA release.
    symmetry. apply node_tracks_rebase, (unquarantineNode_tracks c n _ Hpr); [|intros k Hk; by eapply release_labels_removable|done].
    left. rewrite Hlk. unfold cordonLabels. set_solver.
Qed.

End exact.

(** ** Rules *)

(** What a path shows of a node whose status is stripped: the maps are read by
    key, and [has(node.metadata.labels)] tells a nil map. *)
Definition same_reading (path : list string) (o1 o2 : v1Node) : Prop :=
  let same_map (m1 m2 : option (gmap string string)) keys :=
    match keys with
    | [] => m1 = m2
    | key :: _ => (is_Some m1 <-> is_Some m2) /\ default ∅ m1 !! key = default ∅ m2 !! key
    end in
  let same_metadata := oName o1 = oName o2 /\ oResourceVersion o1 = oResourceVersion o2 in
  let same_spec := oTaints o1 = oTaints o2 /\ oUnschedulable o1 = oUnschedulable o2 in
  match path with
  | [] => same_metadata /\ same_spec /\ oLabels o1 = oLabels o2 /\ oAnnotations o1 = oAnnotations o2
  | first :: rest =>
      if first <>s "metadata" then same_spec
      else match rest with
      | [] => same_metadata /\ oLabels o1 = oLabels o2 /\ oAnnotations o1 = oAnnotations o2
      | second :: keys =>
          if second ==s "labels" then same_map (oLabels o1) (oLabels o2) keys
          else if second ==s "annotations" then same_map (oAnnotations o1) (oAnnotations o2) keys
          else same_metadata
      end
  end.

(** The evaluation of a Node rule: it depends on the paths the analysis reports,
    when the analysis is complete. *)
Class NodeRules (Answer : Type) := node_rule : string -> v1Node -> Answer.
Class NodeRulesLaws (Answer : Type) `{NodeFieldPaths, NodeRules Answer} := {
  rule_paths e paths o1 o2 : node_field_paths e = Ok (paths, true) ->
    (forall p, p ∈ paths -> same_reading p o1 o2) -> node_rule e o1 = node_rule e o2;
  rule_whole e o1 o2 : same_reading [] o1 o2 -> node_rule e o1 = node_rule e o2 }.

Section rules.
Context {Answer : Type} `{NodeRulesLaws Answer} `{JL : JSON (list AppliedLabel)}.

(** The cached object under keys that keep what a path needs. *)
Definition path_kept (path : list string) (k : CacheKeys) : Prop :=
  keeps (addPath path k) k.

Lemma path_kept_add k path : path_kept path (addPath path k).
Proof.
  unfold path_kept, addPath. destruct path as [|first rest]; [by repeat split|]. destruct (first <>s "metadata"); [done|].
  destruct rest as [|second keys]; [by repeat split|]. destruct (second ==s "labels"), (second ==s "annotations"), keys; repeat split; simpl; set_solver.
Qed.

Lemma path_kept_all k : path_kept [] (retainAllAnnotations (retainAllLabels k)).
Proof. by repeat split. Qed.

Lemma path_kept_mono path k1 k2 : keeps k1 k2 -> path_kept path k1 -> path_kept path k2.
Proof.
  intros (A1 & A2 & A3 & A4). unfold path_kept, addPath. destruct path as [|first rest].
  - intros (_ & _ & B3 & B4). repeat split; simpl in *; auto.
  - destruct (first <>s "metadata"); [done|]. destruct rest as [|second keys].
    + intros (_ & _ & B3 & B4). repeat split; simpl in *; auto.
    + destruct (second ==s "labels"), (second ==s "annotations"), keys; intros (B1 & B2 & B3 & B4); repeat split; simpl in *; auto; set_solver.
Qed.

Lemma kept_reading path k o : path_kept path k -> same_reading path (Transform k o) o.
Proof.
  intros (HL & HA & PL & PA).
  assert (Hl : pruneLabels k = false -> oLabels (Transform k o) = oLabels o) by (intros Hp; simpl; rewrite Hp; by destruct (appliedLabelKeys _)).
  assert (Ha : pruneAnnotations k = false -> oAnnotations (Transform k o) = oAnnotations o) by (intros Hp; simpl; by rewrite Hp).
  assert (Hsl : forall key, key ∈ ck_labels k -> (is_Some (oLabels (Transform k o)) <-> is_Some (oLabels o)) /\
    default ∅ (oLabels (Transform k o)) !! key = default ∅ (oLabels o) !! key).
  { intros key Hk. simpl. destruct (appliedLabelKeys _); [|done]. destruct (pruneLabels k); [|done].
    rewrite retain_lookup, decide_True by auto. by destruct (oLabels o). }
  assert (Hsa : forall key, key ∈ ck_annotations k -> (is_Some (oAnnotations (Transform k o)) <-> is_Some (oAnnotations o)) /\
    default ∅ (oAnnotations (Transform k o)) !! key = default ∅ (oAnnotations o) !! key).
  { intros key Hk. simpl. destruct (pruneAnnotations k); [|done]. rewrite retain_lookup, decide_True by auto. by destruct (oAnnotations o). }
  assert (Hfl : forall b : bool, (b = true -> false = true) -> b = false) by (intros [] Hb; [by symmetry; apply Hb|done]).
  unfold same_reading, addPath in *. destruct path as [|first rest].
  { split; [done|]. split; [done|]. split; [apply Hl, Hfl, PL|apply Ha, Hfl, PA]. }
  destruct (first <>s "metadata"); [done|]. destruct rest as [|second keys].
  { split; [done|]. split; [apply Hl, Hfl, PL|apply Ha, Hfl, PA]. }
  destruct (second ==s "labels").
  { destruct keys; [apply Hl, Hfl, PL|apply Hsl]. simpl in HL. set_solver. }
  destruct (second ==s "annotations"); [|done]. destruct keys; [apply Ha, Hfl, PA|apply Hsa]. simpl in HA. set_solver.
Qed.

(** Rules give the answer they would give on the whole node. *)
Lemma cached_rules_exact cfg op e o : e ∈ nodeRuleExpressions cfg ->
  node_rule e (Transform (Derive cfg op) o) = node_rule e o.
Proof.
  intros He. unfold Derive. set (k0 := addOperational _ _ _).
  pose proof (fold_adds addExpression (fun e k => forall p, (match node_field_paths e with Ok (paths, true) => p ∈ paths | _ => p = [] end) -> path_kept p k)
    (nodeRuleExpressions cfg) k0 e keeps_expression) as Hk.
  assert (Hall : forall p, (match node_field_paths e with Ok (paths, true) => p ∈ paths | _ => p = [] end) ->
    path_kept p (fold_left addExpression (nodeRuleExpressions cfg) k0)).
  { apply Hk; [| |done].
    - intros k x p. unfold addExpression. destruct (node_field_paths x) as [[paths []]|]; simpl; intros Hp; [|subst p; apply path_kept_all..].
      refine (fold_adds (fun k path => addPath path k) path_kept paths k p _ _ _ Hp); [intros; apply keeps_path|apply path_kept_add|apply path_kept_mono].
    - intros x k1 k2 Hks Hx p Hp. eapply path_kept_mono; [done|by apply Hx]. }
  destruct (node_field_paths e) as [[paths []]|] eqn:Hp.
  - apply (rule_paths e paths); [done|]. intros p Hin. by apply kept_reading, Hall.
  - apply rule_whole, kept_reading, Hall. done.
  - apply rule_whole, kept_reading, Hall. done.
Qed.
End rules.

(** ** A session started by a rule that is no longer configured *)

Module NodeCacheDemo.

#[local] Existing Instance list_range.
#[local] Existing Instance AnnotationDemo.bit_codec.

Definition no_text (A : Type) : JSON A := {| json_marshal _ := Err "unused"; json_unmarshal _ := Err "unused" |}.
#[local] Instance taint_text : JSON (list Taint) := no_text _.
#[local] Instance record_text : JSON (list HealthEvent) := no_text _.
#[local] Instance event_text : JSON HealthEvent := no_text _.
#[local] Instance tests_text : JSON (list HealthEventWithTests) := no_text _.

(** One list of labels has a text. *)
Definition severity : AppliedLabel := {| alKey := "severity"; alValue := "high"; alPriority := 1; alOrder := 0 |}.
#[local] Instance label_text : JSON (list AppliedLabel) := {|
  json_marshal l := if bool_decide (l = [severity]) then Ok "[severity]" else Err "unknown";
  json_unmarshal s := if s ==s "[severity]" then Ok [severity] else Err "unknown" |}.

(** The analysis of the one expression that is used. *)
#[local] Instance zone_paths : NodeFieldPaths := fun e =>
  if e ==s "zone" then Ok ([["metadata"; "labels"; "zone"]], true) else Err "does not parse".

Definition rules (expression : string) : CacheConfig :=
  {| LabelPrefix := "k8s/"; RuleSets := [];
     ValidationRuleSets := [{| rsEnabled := true; rsVersion := "1"; rsName := "zone"; rsPriority := 1;
       rsMatch := {| Any := [{| Kind := "Node"; Expression := expression |}]; All := [] |} |}] |}.
Definition gpu_label : Operational := {| GPUNodeLabelKey := "gpu" |}.

Definition node : v1Node :=
  {| oName := "node-1"; oResourceVersion := "7";
     oLabels := Some (list_to_map [("severity", "high"); ("team", "a"); ("zone", "z1"); ("gpu", "true"); (NVSentinelStateLabelKey, "quarantined")]);
     oAnnotations := Some (list_to_map [(QuarantineHealthEventAppliedLabelsAnnotationKey, "[severity]");
       (QuarantineHealthEventAnnotationKey, "j0"); ("note", "long")]);
     oTaints := []; oUnschedulable := true; oRest := "images" |}.

(** The cache drops what nobody needs, and everything is kept when an expression
    cannot be analysed. *)
Example pruned_labels : default ∅ (oLabels (Transform (Derive (rules "zone") gpu_label) node)) !! "team" = None /\
  default ∅ (oLabels (Transform (Derive (rules "zone") gpu_label) node)) !! "zone" = Some "z1" /\
  default ∅ (oLabels (Transform (Derive (rules "zone") gpu_label) node)) !! "severity" = Some "high" /\
  default ∅ (oAnnotations (Transform (Derive (rules "zone") gpu_label) node)) !! "note" = None /\
  default ∅ (oLabels (Transform (Derive (rules "bad") gpu_label) node)) !! "team" = Some "a".
Proof. by vm_compute. Qed.

Definition reconciler : Reconciler :=
  {| DryRun := false; CircuitBreakerEnabled := true; validationClient := false; labelKeys := SetLabelKeys "k8s/";
     ruleSetEvals := []; rulesets := buildRulesetsConfig []; taintInitKeys := [] |}.

Definition params : UncordonParams :=
  {| up_taints := []; up_annotations := [QuarantineHealthEventAppliedLabelsAnnotationKey];
     up_labels := [{| LabelKey := "severity"; LabelValue := "high" |}]; up_uncordon := false; up_labelsMap := ∅ |}.

Definition released : Node -> Node :=
  unquarantineNode (labelKeys reconciler) false [] false [QuarantineHealthEventAppliedLabelsAnnotationKey; QuarantineHealthEventAnnotationKey]
    (buildUncordonLabelsToRemove reconciler (up_labels params) false) ∅.

Lemma cached_updates_exact_witness :
  let c := node_of (Transform (Derive (rules "zone") gpu_label) node) in
  released (node_of node) = rebase c (released c) (node_of node) /\ Labels (released (node_of node)) !! "severity" = None /\
  Labels (released (node_of node)) !! "team" = Some "a" /\
  labelKeys reconciler = SetLabelKeys (LabelPrefix (rules "zone")).
Proof.
  split; [|by vm_compute].
  apply (proj2 (cached_updates_exact reconciler (rules "zone") gpu_label eq_refl node) false
    (Annotations (node_of node)) "now" RuleDemo.fault params [] false
    [QuarantineHealthEventAppliedLabelsAnnotationKey; QuarantineHealthEventAnnotationKey] ∅ false).
  - done.
  - by vm_compute.
  - by vm_compute.
  - unfold QuarantineAnnotationKeys. set_solver.
Defined.

End NodeCacheDemo.
