(* ===== verification/QuarantineSpec.v ===== *)
(** * What the reconciler guarantees

    Theorems about [Quarantine]: the record of open faults after an event is the
    one the event prescribes, and a dry run changes nothing the cluster sees. *)

From stdpp Require Import gmap strings list fin_maps.
From Stdlib Require Import ZArith Lia.
From S2P Require Import Prelude HealthEvent AnnotationMap EventRecord KubeRetry StateManager Supersession Residual ColdStart NodeSession RuleEval Quarantine.

#[local] Open Scope nat_scope.
#[local] Abbreviation Node := NodeSession.Node.

(** ** Views *)

(** The value of a session annotation. *)
Abbreviation ann n key := (at_key (Annotations n) key).

(** The part of the node a session changes, apart from the record of faults. *)
Definition same_session (n m : Node) : Prop :=
  Taints n = Taints m /\ Unschedulable n = Unschedulable m /\
  forall key, key ∈ [QuarantineHealthEventAppliedTaintsAnnotationKey; QuarantineHealthEventIsCordonedAnnotationKey;
                     QuarantineHealthEventCordonPreExistingAnnotationKey] -> ann n key = ann m key.

Lemma agrees_ann n m key : agrees n m -> key ∈ QuarantineAnnotationKeys -> ann n key = ann m key.
Proof. intros (_ & _ & Hk) Hin. unfold at_key. by rewrite Hk. Qed.

Lemma agrees_session n m : agrees n m -> same_session n m.
Proof.
  intros Ha. split; [apply Ha|]. split; [apply Ha|]. intros key Hk. apply (agrees_ann _ _ _ Ha).
  unfold QuarantineAnnotationKeys. set_solver.
Qed.

(** Everything about the record depends on its annotation only. *)
Lemma agrees_record n m : agrees n m -> ann n QuarantineHealthEventAnnotationKey = ann m QuarantineHealthEventAnnotationKey.
Proof. intros Ha. apply (agrees_ann _ _ _ Ha). left. Qed.

(** [n'] is [n] after the mutation [f], run on a view of [n]. *)
Definition updated {A} (f : Node -> result (Node * A)) (n n' : Node) (a : A) : Prop :=
  exists base n1, agrees base n /\ f base = Ok (n1, a) /\ agrees n' n1.

Lemma same_session_refl n : same_session n n.
Proof. by repeat split. Qed.

Lemma same_session_trans n1 n2 n3 : same_session n1 n2 -> same_session n2 n3 -> same_session n1 n3.
Proof.
  intros (A1 & B1 & C1) (A2 & B2 & C2). split; [congruence|]. split; [congruence|].
  intros key Hk. by rewrite C1, C2.
Qed.

Lemma same_session_via n n' base n1 : agrees base n -> agrees n' n1 -> same_session n1 base -> same_session n' n.
Proof.
  intros A1%agrees_session A2%agrees_session Hs. eapply same_session_trans; [exact A2|]. by eapply same_session_trans.
Qed.

(** The open faults recorded on the node. *)
Definition tracked `{MapRange} `{SlotCodec} `{JSON (list HealthEvent)} `{JSON HealthEvent} (n : Node) :
    HealthEventKey -> option RecommendedAction :=
  tracked_text (ann n QuarantineHealthEventAnnotationKey).
(** The record itself. *)
Definition record_of `{MapRange} `{SlotCodec} `{JSON (list HealthEvent)} `{JSON HealthEvent} (n : Node) : HealthEventsAnnotationMap :=
  match parseHealthEventsAnnotation 0 (ann n QuarantineHealthEventAnnotationKey) with Ok he => he | Err _ => NewHealthEventsAnnotationMap 0 end.
Definition node_record_wf `{MapRange} `{SlotCodec} `{JSON (list HealthEvent)} `{JSON HealthEvent} (n : Node) : Prop :=
  record_wf (ann n QuarantineHealthEventAnnotationKey).

Lemma errors_Join_None l : errors_Join l = None <-> Forall (fun e => e = None) l.
Proof.
  unfold errors_Join. induction l as [|[e|] l IH]; simpl.
  - by rewrite Forall_nil.
  - rewrite Forall_cons. split; [done|by intros [? _]].
  - rewrite IH, Forall_cons. tauto.
Qed.

Section theory.
Context {MR : MapRange} {MRL : MapRangeLaws} {SC : SlotCodec} {CR : CelRules} {SCH : Scheduler}.
Context `{JT : JSON (list Taint), JTL : !JSONLaws (list Taint), JTN : !JSONListLaws Taint}.
Context `{JL : JSON (list AppliedLabel)} `{JV : JSON (list HealthEventWithTests)}.
Context `{JE : JSON (list HealthEvent), JEL : !JSONLaws (list HealthEvent), JEN : !JSONListLaws HealthEvent}.
Context `{JS : JSON HealthEvent}.
Context {W : Type} `{NA : NodeAPI W, NAL : !NodeAPILaws W, SV : !Services W, SVL : !ServicesLaws W}.
Context (r : Reconciler).

(** What the handler reads is the node of the API server. *)
Definition synced (ctx : Ctx) (w : W) (name : string) : Prop :=
  forall v, getNode ctx w name = inl v -> exists n, live w name = Some n /\ agrees v n.

Lemma record_cordon_live w event name : live (recordCordonEventInCircuitBreaker r w event) name = live w name.
Proof. unfold recordCordonEventInCircuitBreaker. destruct (_ && _); [apply cordon_event_live|done]. Qed.

(** ** Reading *)

Lemma getNodeQuarantineAnnotations_view ctx w name annotations :
  getNodeQuarantineAnnotations ctx w name = inl annotations ->
  exists v, getNode ctx w name = inl v /\ forall key, key ∈ QuarantineAnnotationKeys -> annotations !! key = Annotations v !! key.
Proof.
  unfold getNodeQuarantineAnnotations. destruct (getNode ctx w name) as [v|]; [|done]. intros [= <-]. exists v. split; [done|].
  intros key Hk. destruct (Annotations v !! key) as [x|] eqn:Hx.
  - by apply map_lookup_filter_Some.
  - apply map_lookup_filter_None. by left.
Qed.

Lemma key_in_record : QuarantineHealthEventAnnotationKey ∈ QuarantineAnnotationKeys.
Proof. left. Qed.

(** No session in the view. *)
Lemma no_session ctx w name n annotations :
  synced ctx w name -> live w name = Some n -> hasExistingQuarantine ctx w name = inl (annotations, false) ->
  exists v, getNode ctx w name = inl v /\ agrees v n /\ IsEmptyValue (ann n QuarantineHealthEventAnnotationKey) = true.
Proof.
  intros Hs Hn. unfold hasExistingQuarantine. destruct (getNodeQuarantineAnnotations ctx w name) as [m|] eqn:Hm; [|done].
  apply getNodeQuarantineAnnotations_view in Hm as (v & Hv & Hk). intros [= <- Hex].
  destruct (Hs v Hv) as (n' & Hn' & Ha). rewrite Hn in Hn'. injection Hn' as <-. exists v. split; [done|]. split; [done|].
  rewrite <- (agrees_ann v n _ Ha key_in_record). unfold at_key. rewrite <- Hk by apply key_in_record.
  destruct (m !! _) as [x|]; [by apply negb_false_iff in Hex|]. done.
Qed.

Lemma in_session ctx w name n annotations :
  synced ctx w name -> live w name = Some n -> hasExistingQuarantine ctx w name = inl (annotations, true) ->
  IsEmptyValue (ann n QuarantineHealthEventAnnotationKey) = false.
Proof.
  intros Hs Hn. unfold hasExistingQuarantine. destruct (getNodeQuarantineAnnotations ctx w name) as [m|] eqn:Hm; [|done].
  apply getNodeQuarantineAnnotations_view in Hm as (v & Hv & Hk). intros [= <- Hex].
  destruct (Hs v Hv) as (n' & Hn' & Ha). rewrite Hn in Hn'. injection Hn' as <-.
  rewrite <- (agrees_ann v n _ Ha key_in_record). unfold at_key. rewrite <- Hk by apply key_in_record.
  destruct (m !! _) as [x|]; [by apply negb_true_iff in Hex|done].
Qed.

(** The record a handler decodes is the node's. *)
Lemma read_record ctx w event v n :
  getNode ctx w (NodeName event) = inl v -> agrees v n -> node_record_wf n ->
  IsEmptyValue (ann n QuarantineHealthEventAnnotationKey) = false ->
  exists he m, getHealthEventsFromAnnotation ctx w event = inl (he, m) /\ he = record_of n /\ ann_wf he /\
    (forall k, action_at he k = tracked n k) /\
    forall key, key ∈ QuarantineAnnotationKeys -> m !! key = Annotations n !! key.
Proof.
  intros Hv Hag Hwf Hne. unfold getHealthEventsFromAnnotation.
  destruct (getNodeQuarantineAnnotations ctx w (NodeName event)) as [m|] eqn:Hm.
  2: { unfold getNodeQuarantineAnnotations in Hm. by rewrite Hv in Hm. }
  apply getNodeQuarantineAnnotations_view in Hm as (v' & Hv' & Hk). rewrite Hv in Hv'. injection Hv' as <-.
  assert (Hk' : forall key, key ∈ QuarantineAnnotationKeys -> m !! key = Annotations n !! key).
  { intros key Hin. rewrite Hk by done. by apply Hag. }
  assert (Ht : at_key m QuarantineHealthEventAnnotationKey = ann n QuarantineHealthEventAnnotationKey).
  { unfold at_key. by rewrite Hk' by apply key_in_record. }
  rewrite Ht. destruct Hwf as [?|[f Hf]]; [congruence|].
  assert ((ann n QuarantineHealthEventAnnotationKey ==s "") = false) as -> by (apply go_eqb_false; intros He; by rewrite He in Hne).
  destruct (Hf 0) as (he & Hp & Hw & Hact & _). rewrite Hp. exists he, m. split; [done|]. split; [by unfold record_of; rewrite Hp|]. split; [done|]. split; [|done].
  intros k. unfold tracked. rewrite (parses_tracked _ f Hne Hf). apply Hact.
Qed.

(** ** The mutations of the record *)

Abbreviation keep_filter ctx := (recoveryEffectFilter (recoveryEffects ctx)).

Lemma parsed_record n : node_record_wf n -> IsEmptyValue (ann n QuarantineHealthEventAnnotationKey) = false ->
  exists he, parseHealthEventsAnnotation 0 (ann n QuarantineHealthEventAnnotationKey) = Ok he /\ ann_wf he /\
    forall k, action_at he k = tracked n k.
Proof.
  intros [?|[f Hf]] Hne; [congruence|]. destruct (Hf 0) as (he & Hp & Hw & Ha & _). exists he. split; [done|]. split; [done|].
  intros k. unfold tracked. by rewrite (parses_tracked _ f Hne Hf).
Qed.

Lemma not_blank v : IsEmptyValue v = false -> (v ==s "") = false.
Proof. intros Hv. apply go_eqb_false. by intros ->. Qed.

Lemma updateValidationAnnotation_ok m event m' :
  updateValidationAnnotation r m event = Ok m' ->
  forall key, key <> QuarantineValidationHealthEventAnnotationKey -> m' !! key = m !! key.
Proof.
  unfold updateValidationAnnotation. destruct (negb _); [by intros [= <-]|].
  destruct (UpdateQuarantineValidationAnnotation _ _) as [t|]; cbn [rwrap rbind]; [|done].
  intros Hm key Hk. injection Hm as <-. destruct (_ <>s _); [by rewrite lookup_insert_ne by congruence|done].
Qed.

(** Keys of other annotations than the record and the markers. *)
Lemma session_keys key : key ∈ [QuarantineHealthEventAppliedTaintsAnnotationKey; QuarantineHealthEventIsCordonedAnnotationKey;
    QuarantineHealthEventCordonPreExistingAnnotationKey] ->
  key <> QuarantineHealthEventAnnotationKey /\ key <> QuarantineHealthEventDryRunAnnotationKey /\
  key <> QuarantineValidationHealthEventAnnotationKey /\ key <> QuarantinedNodeUncordonedManuallyAnnotationKey /\
  key <> QuarantinedNodeIsUntaintedManuallyAnnotationKey /\ key <> QuarantineHealthEventAppliedLabelsAnnotationKey.
Proof. rewrite !elem_of_cons, elem_of_nil. by intros [->|[->|[->|[]]]]. Qed.

Lemma same_session_annotations n m :
  (forall key, key ∈ [QuarantineHealthEventAppliedTaintsAnnotationKey; QuarantineHealthEventIsCordonedAnnotationKey;
    QuarantineHealthEventCordonPreExistingAnnotationKey] -> m !! key = Annotations n !! key) ->
  same_session (with_annotations n m) n.
Proof. intros Hm. split; [done|]. split; [done|]. intros key Hk. unfold at_key. simpl. by rewrite Hm. Qed.

Lemma addEvent_run ctx event n n' u :
  node_record_wf n -> IsEmptyValue (ann n QuarantineHealthEventAnnotationKey) = false ->
  addEvent r ctx event n = Ok (n', u) ->
  IsEmptyValue (ann n' QuarantineHealthEventAnnotationKey) = false /\ node_record_wf n' /\ same_session n' n /\
  forall k, tracked n' k = if bool_decide (k ∈ createEventKeys event) && keep_filter ctx k then Some (Action event) else tracked n k.
Proof.
  intros Hwf Hne. destruct (parsed_record n Hwf Hne) as (he & Hp & Hw & Ha). unfold addEvent.
  set (m := if DryRun r then _ else _).
  assert (Hm : forall key, key <> QuarantineHealthEventDryRunAnnotationKey -> m !! key = Annotations n !! key).
  { intros key Hk. unfold m. destruct (DryRun r); [done|]. by rewrite lookup_delete_ne. }
  assert (Hmq : at_key m QuarantineHealthEventAnnotationKey = ann n QuarantineHealthEventAnnotationKey) by (unfold at_key; by rewrite Hm).
  rewrite Hmq, (not_blank _ Hne), Hp. cbn [rwrap rbind]. fold (received he).
  pose proof (add_action he event (Some (keep_filter ctx))) as Hadd. pose proof (add_unchanged he event (Some (keep_filter ctx))) as Hsame.
  pose proof (add_changed_nonempty he event (Some (keep_filter ctx)) Hw) as Hnem.
  destruct (AddOrUpdateEventFiltered_refines (received he) {| addr := fresh he; ev := event |} (Some (keep_filter ctx))
              (received_wf he Hw) (received_known he event Hw)) as (Hw' & _ & _).
  destruct (AddOrUpdateEventFiltered (received he) _ _) as [he' added]. cbn [fst snd keep_ok] in *. destruct added; cbn [negb].
  - destruct (marshalRecord he') as [text|] eqn:Ht; cbn [rwrap rbind]; [|done].
    destruct (updateValidationAnnotation r _ event) as [m'|] eqn:Hv; cbn [rbind]; [|done]. intros Hq. injection Hq as <- _.
    pose proof (updateValidationAnnotation_ok _ _ _ Hv) as Hm'.
    assert (Hq : at_key m' QuarantineHealthEventAnnotationKey = text).
    { unfold at_key. rewrite Hm' by done. by rewrite lookup_insert_eq. }
    destruct (record_wf_marshal he' text Hw' (Hnem eq_refl) Ht) as (R1 & R2 & R3).
    unfold node_record_wf, tracked. cbn [Annotations with_annotations]. rewrite Hq. split; [done|]. split; [done|]. split.
    + apply same_session_annotations. intros key (K1 & K2 & K3 & _)%session_keys. rewrite Hm' by done.
      rewrite lookup_insert_ne by congruence. by apply Hm.
    + intros k. rewrite R3, Hadd by done. fold (tracked n k). by rewrite Ha.
  - intros Hq. injection Hq as <- _. unfold node_record_wf, tracked. cbn [Annotations with_annotations]. rewrite Hmq. split; [done|]. split; [done|]. split.
    + apply same_session_annotations. intros key (K1 & K2 & K3 & _)%session_keys. by apply Hm.
    + intros k. fold (tracked n k). destruct (_ && _) eqn:Hk; [|done]. rewrite <- Ha. by apply Hsame.
Qed.

Lemma addEvent_ok ctx event n n' u :
  node_record_wf n -> IsEmptyValue (ann n QuarantineHealthEventAnnotationKey) = false ->
  updated (addEvent r ctx event) n n' u ->
  IsEmptyValue (ann n' QuarantineHealthEventAnnotationKey) = false /\ node_record_wf n' /\ same_session n' n /\
  forall k, tracked n' k = if bool_decide (k ∈ createEventKeys event) && keep_filter ctx k then Some (Action event) else tracked n k.
Proof.
  intros Hw Hne (base & n1 & A1 & Hf & A2). pose proof (addEvent_run ctx event base n1 u) as Hrun.
  unfold node_record_wf, tracked in *. rewrite (agrees_record _ _ A2). rewrite (agrees_record _ _ A1) in Hrun.
  destruct (Hrun Hw Hne Hf) as (R1 & R2 & R3 & R4). split; [done|]. split; [done|]. split; [by eapply (same_session_via n n' base n1)|done].
Qed.

Lemma removeEvent_run ctx event n n' he' :
  node_record_wf n -> IsEmptyValue (ann n QuarantineHealthEventAnnotationKey) = false -> IsHealthy event = true ->
  removeEvent ctx event n = Ok (n', he') ->
  same_session n' n /\ IsEmptyValue (ann n' QuarantineHealthEventAnnotationKey) = false /\
  (forall k, action_at he' k = if answers (record_of n) event k && keep_filter ctx k then None else tracked n k) /\
  (IsEmpty he' = false -> node_record_wf n' /\ forall k, tracked n' k = action_at he' k).
Proof.
  intros Hwf Hne Hh. destruct (parsed_record n Hwf Hne) as (he & Hp & Hw & Ha). unfold removeEvent. rewrite (not_blank _ Hne), Hp.
  cbn [rwrap rbind].
  assert (Hd : forall k, action_at (RemoveEventFiltered he event (Some (keep_filter ctx))).1 k =
    if answers (record_of n) event k && keep_filter ctx k then None else tracked n k).
  { intros k. rewrite remove_action by done. cbn [keep_ok]. rewrite Ha. unfold record_of. by rewrite Hp. }
  destruct (removed_keys he event (Some (keep_filter ctx))) as (ks & Hrk & _). rewrite Hrk in *.
  destruct (removeKeys_spec he ks Hw) as (Hw' & Hlen & Hpay). destruct (removeKeys he ks) as [he1 removed] eqn:Hrm. cbn [fst snd] in *.
  destruct (removed =? 0)%nat eqn:Hz.
  { intros Hq. injection Hq as <- <-. apply Nat.eqb_eq in Hz. assert (ks = []) as -> by (apply length_zero_iff_nil; lia).
    split; [apply same_session_refl|]. split; [done|]. split; [done|]. intros _. split; [done|]. intros k. rewrite action_of_payload, Hpay.
    rewrite decide_False by apply not_elem_of_nil. by rewrite <- action_of_payload. }
  destruct (IsEmpty he1) eqn:He; [intros Hq; injection Hq as <- <-; split; [apply same_session_refl|]; by rewrite He|].
  destruct (marshalRecord he1) as [text|] eqn:Ht; cbn [rwrap rbind]; [|done]. intros Hq. injection Hq as <- <-.
  destruct (record_wf_marshal he1 text Hw') as (R1 & R2 & R3); [|done|].
  { intros Hem. unfold IsEmpty in He. by rewrite Hem, map_size_empty in He. }
  assert (Hq : ann (with_annotations n (<[QuarantineHealthEventAnnotationKey := text]> (Annotations n))) QuarantineHealthEventAnnotationKey = text).
  { unfold at_key. simpl. by rewrite lookup_insert_eq. }
  split; [|split; [|split; [done|]]].
  - apply same_session_annotations. intros key (K1 & _)%session_keys. by rewrite lookup_insert_ne by congruence.
  - by rewrite Hq.
  - intros _. unfold node_record_wf, tracked. rewrite Hq. done.
Qed.

Lemma removeEvent_ok ctx event n n' he' :
  node_record_wf n -> IsEmptyValue (ann n QuarantineHealthEventAnnotationKey) = false -> IsHealthy event = true ->
  updated (removeEvent ctx event) n n' he' ->
  same_session n' n /\ IsEmptyValue (ann n' QuarantineHealthEventAnnotationKey) = false /\
  (forall k, action_at he' k = if answers (record_of n) event k && keep_filter ctx k then None else tracked n k) /\
  (IsEmpty he' = false -> node_record_wf n' /\ forall k, tracked n' k = action_at he' k).
Proof.
  intros Hw Hne Hh (base & n1 & A1 & Hf & A2). pose proof (removeEvent_run ctx event base n1 he') as Hrun.
  unfold node_record_wf, tracked, record_of in *. rewrite (agrees_record _ _ A2). rewrite (agrees_record _ _ A1) in Hrun.
  destruct (Hrun Hw Hne Hh Hf) as (R1 & R2 & R3 & R4). split; [by eapply (same_session_via n n' base n1)|done].
Qed.

(** ** One update *)

Lemma update_on w name A (f : Node -> result (Node * A)) w' a n :
  live w name = Some n -> update_node w name f = (w', Ok a) -> exists n', updated f n n' a /\ live w' name = Some n'.
Proof.
  intros Hn (n0 & base & n1 & Hn0 & Ha & Hf & Hl)%update_ok. rewrite Hn in Hn0. injection Hn0 as <-.
  exists (rebase base n1 n). split; [|done]. exists base, n1. split; [done|]. split; [done|]. by apply rebase_agrees.
Qed.

(** Only the marks of an operator's change were removed. *)
Definition unmarked (n' n : Node) : Prop :=
  Taints n' = Taints n /\ Unschedulable n' = Unschedulable n /\
  forall key, key ∈ QuarantineAnnotationKeys ->
    key <> QuarantinedNodeUncordonedManuallyAnnotationKey -> key <> QuarantinedNodeIsUntaintedManuallyAnnotationKey ->
    Annotations n' !! key = Annotations n !! key.

Lemma agrees_unmarked n n' : agrees n' n -> unmarked n' n.
Proof. intros (A & B & C). split; [done|]. split; [done|]. intros key Hk _ _. by apply C. Qed.

Lemma unmarked_trans n1 n2 n3 : unmarked n1 n2 -> unmarked n2 n3 -> unmarked n1 n3.
Proof.
  intros (A1 & B1 & C1) (A2 & B2 & C2). split; [congruence|]. split; [congruence|]. intros key Hk H1 H2. by rewrite C1, C2.
Qed.

Lemma cleanupManualAnnotation_ok w name annotations key w' n :
  key = QuarantinedNodeUncordonedManuallyAnnotationKey \/ key = QuarantinedNodeIsUntaintedManuallyAnnotationKey ->
  live w name = Some n -> cleanupManualAnnotation w name annotations key = (w', None) ->
  exists n', live w' name = Some n' /\ unmarked n' n.
Proof.
  intros Hkey Hn. unfold cleanupManualAnnotation. destruct (annotations !! key); [|intros [= <-]; exists n; by repeat split].
  destruct (update_node w name _) as [w1 [x|e]] eqn:Hu; [|done]. intros [= <-].
  destruct (update_on _ _ _ _ _ _ _ Hn Hu) as (n' & (base & n1 & A1 & Hf & A2) & Hl). injection Hf as <- _. exists n'. split; [done|].
  apply (unmarked_trans _ (with_annotations base (delete key (Annotations base)))); [by apply agrees_unmarked|].
  apply (unmarked_trans _ base); [|by apply agrees_unmarked]. split; [done|]. split; [done|].
  intros k _ K1 K2. simpl. rewrite lookup_delete_ne; [done|]. destruct Hkey; congruence.
Qed.

(** Starting a session, when no error is reported. *)
Lemma applyQuarantine_ok ctx w event annotations taints m labels cordoned w' status n :
  live w (NodeName event) = Some n ->
  applyQuarantine r ctx w event annotations taints m labels cordoned = (w', (status, None)) ->
  let start := AddOrUpdateEventFiltered (received (NewHealthEventsAnnotationMap 0)) {| addr := 0; ev := event |} (Some (keep_filter ctx)) in
  start.2 = false /\ status = None /\ live w' (NodeName event) = Some n \/
  start.2 = true /\ exists n1 n' text m' b, status = Some (if b : bool then AlreadyQuarantined else Quarantined) /\
    live w' (NodeName event) = Some n' /\ unmarked n1 n /\ marshalRecord start.1 = Ok text /\
    m' !! QuarantineHealthEventAnnotationKey = Some text /\
    (forall key, key ∈ [QuarantineHealthEventAppliedTaintsAnnotationKey; QuarantineHealthEventIsCordonedAnnotationKey;
       QuarantineHealthEventCordonPreExistingAnnotationKey] -> m' !! key = m !! key) /\
    updated (quarantineNode (DryRun r) taints cordoned m' labels) n1 n' b.
Proof.
  intros Hn. unfold applyQuarantine. cbv zeta. change (NewHealthEventsAnnotationMap 1) with (received (NewHealthEventsAnnotationMap 0)).
  set (w0 := recordCordonEventInCircuitBreaker r w event).
  assert (H0 : live w0 (NodeName event) = Some n) by (unfold w0; by rewrite record_cordon_live).
  destruct (AddOrUpdateEventFiltered _ _ _) as [he updated]. destruct updated; cbn [negb fst snd].
  2: { intros [= <- <-]. by left. }
  intros Hq. right. split; [done|]. revert Hq.
  set (m1 := if DryRun r then <[QuarantineHealthEventDryRunAnnotationKey := AnnotationValueTrue]> m else m). destruct (marshalRecord he) as [text|] eqn:Ht; [|done].
  destruct (updateValidationAnnotation r _ event) as [m'|] eqn:Hv; [|done].
  destruct (cleanupManualAnnotation w0 _ _ _) as [w1 [e1|]] eqn:Hc1; [done|].
  destruct (cleanupManualAnnotation w1 _ _ _) as [w2 [e2|]] eqn:Hc2; [done|].
  destruct (cleanupManualAnnotation_ok _ _ _ _ _ _ (or_introl eq_refl) H0 Hc1) as (n1 & Hn1 & Hu1).
  destruct (cleanupManualAnnotation_ok _ _ _ _ _ _ (or_intror eq_refl) Hn1 Hc2) as (n2 & Hn2 & Hu2).
  unfold QuarantineNodeAndSetAnnotations. destruct (update_node w2 _ _) as [w3 [b|e]] eqn:Hu; [|done]. intros [= <- <-].
  destruct (update_on _ _ _ _ _ _ _ Hn2 Hu) as (n' & Hf & Hl). exists n2, n', text, m', b.
  pose proof (updateValidationAnnotation_ok _ _ _ Hv) as Hm'.
  split; [done|]. split; [done|]. split; [by eapply unmarked_trans|]. split; [done|].
  split; [rewrite Hm' by done; by rewrite lookup_insert_eq|]. split; [|done].
  intros key (K1 & K2 & K3 & _)%session_keys. rewrite Hm' by done. rewrite lookup_insert_ne by congruence. unfold m1.
  destruct (DryRun r); [by rewrite lookup_insert_ne by congruence|done].
Qed.

(** ** Growing a session *)

Definition labels_only (m : gmap string string) : Prop :=
  forall key, key <> QuarantineHealthEventAppliedLabelsAnnotationKey -> m !! key = None.

Lemma evaluateSessionActions_labels ctx w event u err :
  evaluateSessionActions r ctx w event = (inl u, err) -> labels_only (su_annotations u).
Proof.
  unfold evaluateSessionActions. destruct (evaluateRulesets _ _ _ _ _ _ _) as [s e].
  destruct (0 <? _)%nat; [destruct (json_marshal _) as [t|]; [|done]|]; intros [= <- _] key Hk; cbn [su_annotations].
  - by rewrite lookup_singleton_ne by congruence.
  - apply lookup_empty.
Qed.

(** The taints a session adds, and the annotation that remembers them. *)
Definition session_taints (v : Node) (required u : sessionActionUpdate) : Prop :=
  sessionTaintsToAdd v (su_taints required) = Ok (su_taints u) /\
  (su_annotations u !! QuarantineHealthEventAppliedTaintsAnnotationKey = None /\ su_taints u = [] \/
   exists text, su_annotations u !! QuarantineHealthEventAppliedTaintsAnnotationKey = Some text /\
     json_marshal (su_taints u) = Ok text /\ su_taints u <> []).

(** The cordon a session adds. *)
Definition session_cordon (v : Node) (required u : sessionActionUpdate) : Prop :=
  let c := su_cordon required && negb (ann v QuarantineHealthEventIsCordonedAnnotationKey ==s AnnotationValueTrue) in
  su_annotations u !! QuarantineHealthEventIsCordonedAnnotationKey = (if c then Some AnnotationValueTrue else None) /\
  su_annotations u !! QuarantineHealthEventCordonPreExistingAnnotationKey =
    (if c && Unschedulable v then Some AnnotationValueTrue else None) /\
  su_cordon u = c && negb (Unschedulable v).

Lemma build_spec now v required u :
  labels_only (su_annotations required) -> buildSessionActionUpdate r now v required = Ok u ->
  su_annotations u !! QuarantineHealthEventAnnotationKey = None /\
  (DryRun r = false -> session_taints v required u /\ session_cordon v required u).
Proof.
  intros Hl. unfold buildSessionActionUpdate. cbv zeta.
  set (record := negb (DryRun r) || _). set (base := {| su_taints := []; su_cordon := false |}).
  assert (Hbase : forall key, key <> QuarantineHealthEventAppliedLabelsAnnotationKey -> su_annotations base !! key = None) by done.
  destruct (if record then _ else Ok base) as [u0|] eqn:Hu0; cbn [rbind]; [|done]. intros Hq. injection Hq as <-.
  assert (H0 : su_cordon u0 = false /\
    (forall key, key <> QuarantineHealthEventAppliedLabelsAnnotationKey -> key <> QuarantineHealthEventAppliedTaintsAnnotationKey ->
       su_annotations u0 !! key = None) /\ (record = true -> session_taints v required u0)).
  { destruct record; [|injection Hu0 as <-; split; [done|]; split; [intros; by apply Hbase|done]]. unfold session_taints.
    destruct (sessionTaintsToAdd v (su_taints required)) as [T|] eqn:HT; cbn [rbind] in Hu0; [|done].
    destruct (0 <? length T)%nat eqn:Hlen.
    - destruct (json_marshal T) as [text|] eqn:Ht; cbn [rwrap rbind] in Hu0; [|done]. injection Hu0 as <-. split; [done|]. split.
      + intros key K1 K2. cbn [su_annotations]. rewrite lookup_insert_ne by congruence. by apply Hl.
      + intros _. split; [done|]. right. exists text. cbn [su_annotations su_taints]. rewrite lookup_insert_eq. split; [done|]. split; [done|].
        intros ->. done.
    - injection Hu0 as <-. split; [done|]. split; [intros; by apply Hbase|]. intros _. apply Nat.ltb_ge in Hlen.
      assert (T = []) as -> by (apply length_zero_iff_nil; lia). split; [done|]. left. split; [by apply Hbase|done]. }
  destruct H0 as (C0 & K0 & T0).
  assert (Hc : forall b, su_taints (addSessionCordon r now v (su_cordon required) b u0) = su_taints u0).
  { intros b. unfold addSessionCordon. cbv zeta. by destruct (negb (su_cordon required) || _ || _), (Unschedulable v). }
  assert (Hkeys : forall b key, key <> QuarantineHealthEventIsCordonedAnnotationKey -> key <> QuarantineHealthEventCordonPreExistingAnnotationKey ->
    su_annotations (addSessionCordon r now v (su_cordon required) b u0) !! key = su_annotations u0 !! key).
  { intros b key K1 K2. unfold addSessionCordon. cbv zeta.
    destruct (negb (su_cordon required) || _ || _), (Unschedulable v); cbn [su_annotations]; by rewrite ?lookup_insert_ne by congruence. }
  split; [rewrite Hkeys by done; by apply K0|]. intros Hd.
  assert (record = true) as Hrec by (unfold record; by rewrite Hd). split.
  - specialize (T0 Hrec). unfold session_taints in *. rewrite Hc, Hkeys by done. done.
  - unfold session_cordon, addSessionCordon. cbv zeta. fold record. rewrite Hrec. cbn [negb orb]. rewrite orb_false_r.
    set (was := ann v QuarantineHealthEventIsCordonedAnnotationKey ==s AnnotationValueTrue).
    destruct (su_cordon required), was, (Unschedulable v); cbn [negb orb andb su_annotations su_cordon];
      (split; [|split]); rewrite ?C0; try done; repeat (rewrite lookup_insert_eq || rewrite lookup_insert_ne by done); try done; by apply K0.
Qed.

(** Without an error, at most one update of the node. *)
Lemma applyRuleActionsForEvent_ok ctx w event w' n :
  live w (NodeName event) = Some n -> applyRuleActionsForEvent r ctx w event = (w', None) ->
  exists v required u, getNode ctx w (NodeName event) = inl v /\ labels_only (su_annotations required) /\
    evaluateSessionActions r ctx w event = (inl required, None) /\
    buildSessionActionUpdate r (timestamp w) v required = Ok u /\
    (isEmptyUpdate u = true /\ live w' (NodeName event) = Some n \/
     exists n' b, updated (quarantineNode (DryRun r) (su_taints u) (su_cordon u) (su_annotations u) (su_labels u)) n n' b /\
       live w' (NodeName event) = Some n').
Proof.
  intros Hn. unfold applyRuleActionsForEvent. destruct (evaluateSessionActions r ctx w event) as [required evalErr] eqn:Hev.
  destruct required as [required|e]; cbv zeta.
  2: { assert (Hs : exists x, errors_Join [evalErr; Some e] = Some x) by (unfold errors_Join; simpl; destruct evalErr; simpl; eauto).
       destruct Hs as [x Hx]. rewrite Hx. destruct (shouldDeferRecoveryActions ctx (Some x)); [done|].
       destruct (getNode _ _ _); [|done]. destruct (buildSessionActionUpdate _ _ _ _); [|done].
       destruct (isEmptyUpdate _); [done|]. destruct (QuarantineNodeAndSetAnnotations _ _ _ _ _ _ _) as [? []]; done. }
  pose proof (evaluateSessionActions_labels _ _ _ _ _ Hev) as Hl.
  destruct (shouldDeferRecoveryActions ctx evalErr); [destruct evalErr; done|].
  destruct (getNode ctx w (NodeName event)) as [v|e] eqn:Hv; [|destruct evalErr; done].
  destruct (buildSessionActionUpdate r (timestamp w) v required) as [u|e] eqn:Hb; [|destruct evalErr; done].
  intros Hq. assert (evalErr = None) as ->.
  { destruct (isEmptyUpdate u); [by injection Hq|]. destruct (QuarantineNodeAndSetAnnotations _ _ _ _ _ _ _) as [? []]; [by injection Hq|].
    destruct evalErr; done. }
  exists v, required, u. do 4 (split; [done|]). destruct (isEmptyUpdate u) eqn:Hem.
  { injection Hq as <-. by left. }
  right. unfold QuarantineNodeAndSetAnnotations in Hq. set (w0 := if su_cordon u then _ else w) in *.
  assert (H0 : live w0 (NodeName event) = Some n) by (unfold w0; destruct (su_cordon u); [by rewrite record_cordon_live|done]).
  destruct (update_node w0 _ _) as [w1 [b|e]] eqn:Hu; [|done]. injection Hq as <-.
  destruct (update_on _ _ _ _ _ _ _ H0 Hu) as (n' & Hf & Hl'). eauto.
Qed.

(** ** Ending a session *)

Lemma createValidation_live ctx w event m w' x name :
  createValidationRequestIfRequested r ctx w event m = (w', x) -> live w' name = live w name /\ (validationClient r = false -> x = inl false).
Proof.
  unfold createValidationRequestIfRequested. destruct (validationClient r); cbn [negb]; [|by intros [= <- <-]].
  destruct (FetchValidationTestsFromQuarantineSession _ _ _) as [[tests session]|]; [|by intros [= <- <-]].
  destruct (_ =? 0)%nat; [by intros [= <- <-]|]. destruct (cached_node w _) as [v|]; [|by intros [= <- <-]].
  destruct (CreateValidationRequest w v tests session) as [w1 [e|]] eqn:Hc; intros [= <- <-];
    (split; [by eapply validation_live|done]).
Qed.

(** The release, when no error is reported: one update, which removes the record
    and the annotations of the session. *)
Lemma performUncordon_ok ctx w event m w' stay n :
  live w (NodeName event) = Some n -> is_Some (m !! QuarantineHealthEventAnnotationKey) ->
  performUncordon r ctx w event m = (w', (stay, None)) ->
  stay = false /\ exists p p' L base n', prepareUncordonParams r (timestamp w) event m = Ok p /\
    live w' (NodeName event) = Some n' /\ agrees base n /\
    agrees n' (unquarantineNode (labelKeys r) (DryRun r) (up_taints p') (up_uncordon p') (up_annotations p') L (up_labelsMap p') base) /\
    QuarantineHealthEventAnnotationKey ∈ up_annotations p' /\
    (forall k, k ∈ up_annotations p -> k ∈ up_annotations p') /\
    (validationClient r = false -> up_taints p' = up_taints p /\ up_uncordon p' = up_uncordon p).
Proof.
  intros Hn Hq. unfold performUncordon. destruct (prepareUncordonParams r (timestamp w) event m) as [p|] eqn:Hp; [|done]. cbv zeta.
  set (keys := appendIfPresent m (up_annotations p) _).
  assert (Hk : QuarantineHealthEventAnnotationKey ∈ keys /\ forall k, k ∈ up_annotations p -> k ∈ keys).
  { unfold keys, appendIfPresent. split.
    - apply elem_of_app. right. apply list_elem_of_In, filter_In. split; [by left|]. by apply bool_decide_eq_true.
    - intros k Hk. apply elem_of_app. by left. }
  destruct Hk as [Hk1 Hk2]. cbn [up_taints up_labels up_uncordon up_annotations].
  assert ((length keys =? 0)%nat = false) as ->.
  { destruct keys; [by apply not_elem_of_nil in Hk1|done]. }
  rewrite andb_false_r. set (p1 := {| up_taints := up_taints p; up_annotations := keys |}).
  destruct (triggerValidationOnUnquarantine r ctx w event m p1) as [w1 [[p' created]|e]] eqn:Ht; [|done].
  assert (Hp' : live w1 (NodeName event) = Some n /\ (forall k, k ∈ keys -> k ∈ up_annotations p') /\
    (validationClient r = false -> up_taints p' = up_taints p /\ up_uncordon p' = up_uncordon p)).
  { unfold triggerValidationOnUnquarantine in Ht. destruct (m !! QuarantineValidationHealthEventAnnotationKey).
    - destruct (createValidationRequestIfRequested r ctx w event m) as [w2 [c|e]] eqn:Hc; [|done]. injection Ht as <- <- <-.
      destruct (createValidation_live _ _ _ _ _ _ (NodeName event) Hc) as [Hl Hv]. split; [by rewrite Hl|]. split.
      + intros k Hk. destruct c; cbn [up_annotations]; apply elem_of_app; by left.
      + intros Hvc. specialize (Hv Hvc). injection Hv as ->. done.
    - injection Ht as <- <- <-. done. }
  destruct Hp' as (Hl1 & Hk3 & Hval). unfold UnQuarantineNodeAndRemoveAnnotations.
  destruct (update_node w1 _ _) as [w2 [x|e]] eqn:Hu; [|done]. intros [= <- <-]. split; [done|].
  destruct (update_on _ _ _ _ _ _ _ Hl1 Hu) as (n' & (base & n1 & A1 & Hf & A2) & Hl2). injection Hf as <- _.
  exists p, p', (buildUncordonLabelsToRemove r (up_labels p') created), base, n'.
  split; [done|]. split; [done|]. split; [done|]. split; [done|]. split; [by apply Hk3|]. split; [|done]. intros k Hk. by apply Hk3, Hk2.
Qed.

(** ** The record after an event *)

(** Nothing of a recovery is recorded when no stored event answers to it. *)
Lemma untracked_recovery he event k : IsHealthy event = true -> GetEvent he event = None -> answers he event k = false.
Proof.
  intros Hh Hg. pose proof (proj1 (GetEvent_spec he event)) as Hspec. rewrite Hg in Hspec. unfold answers. rewrite Hh. unfold cleared.
  destruct (Events he !! k) as [x|] eqn:Hx; [|done]. destruct (Hspec k x Hx) as [H1 H2]. destruct (length (EntitiesImpacted event) =? 0)%nat eqn:Hl.
  - apply Nat.eqb_eq, length_zero_iff_nil in Hl. unfold keyMatchesCheckRecovery. by rewrite (H2 Hl).
  - by rewrite H1.
Qed.

(** What the record says after an event that was accepted. *)
Definition after_event (ctx : Ctx) (event : HealthEvent) (n n' : Node) : Prop :=
  node_record_wf n' /\ forall k,
    tracked n' k = if answers (record_of n) event k && keep_filter ctx k then outcome event else tracked n k.

Lemma tracked_empty n k : IsEmptyValue (ann n QuarantineHealthEventAnnotationKey) = true -> tracked n k = None.
Proof. intros He. unfold tracked, tracked_text. by rewrite He. Qed.

Lemma same_record n n' : ann n' QuarantineHealthEventAnnotationKey = ann n QuarantineHealthEventAnnotationKey ->
  node_record_wf n -> node_record_wf n' /\ forall k, tracked n' k = tracked n k.
Proof. intros He Hw. unfold node_record_wf, tracked. by rewrite He. Qed.

(** An update without a record leaves the record. *)
Lemma quarantineNode_same_record dry T c A L n n' b :
  updated (quarantineNode dry T c A L) n n' b -> A !! QuarantineHealthEventAnnotationKey = None ->
  ann n' QuarantineHealthEventAnnotationKey = ann n QuarantineHealthEventAnnotationKey.
Proof.
  intros (base & n1 & A1 & (_ & _ & _ & _ & Hm & _)%quarantineNode_spec & A2) HA. specialize (Hm QuarantineHealthEventAnnotationKey).
  rewrite (agrees_record _ _ A2), <- (agrees_record _ _ A1).
  unfold merged_at in Hm. rewrite HA in Hm. unfold at_key. rewrite Hm. unfold session_base. destruct dry; [done|]. by rewrite lookup_delete_ne.
Qed.

(** A record started by an event and merged into the one on the node. *)
Lemma quarantineNode_record ctx event dry T c A L n n' b text :
  node_record_wf n -> IsHealthy event = false ->
  let start := AddOrUpdateEventFiltered (received (NewHealthEventsAnnotationMap 0)) {| addr := 0; ev := event |} (Some (keep_filter ctx)) in
  start.2 = true -> marshalRecord start.1 = Ok text -> A !! QuarantineHealthEventAnnotationKey = Some text ->
  updated (quarantineNode dry T c A L) n n' b ->
  IsEmptyValue (ann n' QuarantineHealthEventAnnotationKey) = false /\ after_event ctx event n n'.
Proof.
  intros Hw Hh start Hs Ht HA (base & n1 & A1 & (_ & _ & _ & _ & Hm & _)%quarantineNode_spec & A2).
  specialize (Hm QuarantineHealthEventAnnotationKey). unfold after_event, node_record_wf, tracked in *.
  rewrite (agrees_record _ _ A2). rewrite <- (agrees_record _ _ A1) in *.
  unfold merged_at in Hm. rewrite HA in Hm. destruct Hm as (v' & Hmv & Hl).
  assert (Hb : at_key (session_base dry base) QuarantineHealthEventAnnotationKey = ann base QuarantineHealthEventAnnotationKey).
  { unfold session_base. destruct dry; [done|]. unfold at_key. by rewrite lookup_delete_ne. }
  rewrite Hb in Hmv. change (mergeQuarantineHealthEventAnnotation (ann base QuarantineHealthEventAnnotationKey) text = Ok v') in Hmv.
  pose proof (NewHealthEventsAnnotationMap_wf 0) as Hn0.
  destruct (AddOrUpdateEventFiltered_refines (received (NewHealthEventsAnnotationMap 0)) {| addr := 0; ev := event |} (Some (keep_filter ctx))
    (received_wf _ Hn0) (received_known _ event Hn0)) as (Hw' & _ & _).
  destruct (merge_record_text _ start.1 text v' Hw Hw' (add_changed_nonempty _ event (Some (keep_filter ctx)) Hn0 Hs) Ht Hmv) as (R1 & R2 & R3).
  assert (Hv : ann n1 QuarantineHealthEventAnnotationKey = v') by (unfold at_key; by rewrite Hl).
  split; [by rewrite Hv|]. split; [by rewrite Hv|]. intros k. rewrite Hv, R3. unfold start.
  rewrite (add_action (NewHealthEventsAnnotationMap 0) event (Some (keep_filter ctx)) k Hn0). unfold answers, outcome. rewrite Hh. cbn [keep_ok].
  by destruct (bool_decide _ && _).
Qed.

Lemma unhealthy_record ctx w event he n w' stay :
  live w (NodeName event) = Some n -> node_record_wf n -> IsEmptyValue (ann n QuarantineHealthEventAnnotationKey) = false ->
  ann_wf he -> (forall k, action_at he k = tracked n k) -> IsHealthy event = false ->
  (isForceQuarantine event = false ->
   (eventMatchesAnyRule (recoveryEffects ctx) (GetRuleNode ctx w (NodeName event)) event (ruleSetEvals r)).1 = true) ->
  handleUnhealthyEventOnQuarantinedNode r ctx w event he = (w', (stay, None)) ->
  stay = true /\ exists n', live w' (NodeName event) = Some n' /\ after_event ctx event n n'.
Proof.
  intros Hn Hw Hne Hwf Ha Hh Hm. unfold handleUnhealthyEventOnQuarantinedNode.
  set (ev0 := if isForceQuarantine event then _ else _). destruct ev0 as [matched evalErr] eqn:Hev.
  assert (Hgo : negb (isForceQuarantine event) && negb matched = false).
  { unfold ev0 in Hev. destruct (isForceQuarantine event); [done|]. specialize (Hm eq_refl). rewrite Hev in Hm. simpl in Hm. by rewrite Hm. }
  rewrite Hgo. fold (received he). destruct (AddOrUpdateEventFiltered (received he) _ _) as [he' added] eqn:Hadd.
  destruct (if added then addEventToAnnotation r ctx w event else (w, Ok tt)) as [w1 [x|e]] eqn:Hst; [|by destruct evalErr].
  assert (H1 : exists n1, live w1 (NodeName event) = Some n1 /\ after_event ctx event n n1).
  { destruct added.
    - unfold addEventToAnnotation in Hst. destruct (update_on _ _ _ _ _ _ _ Hn Hst) as (n1 & Hf & Hl).
      destruct (addEvent_ok _ _ _ _ _ Hw Hne Hf) as (_ & R2 & _ & R4). exists n1. split; [done|]. split; [done|].
      intros k. rewrite R4. unfold answers, outcome. by rewrite Hh.
    - injection Hst as <- _. exists n. split; [done|]. split; [done|]. intros k. unfold answers, outcome. rewrite Hh.
      destruct (bool_decide _ && _) eqn:Hk; [|done]. rewrite <- Ha.
      apply (add_unchanged he event (Some (keep_filter ctx)) k Hwf); [by rewrite Hadd|done]. }
  destruct H1 as (n1 & Hl1 & Haf). destruct (applyRuleActionsForEvent r ctx w1 event) as [w2 [e|]] eqn:Hap; [by destruct evalErr|].
  intros [= <- <- _]. split; [done|].
  destruct (applyRuleActionsForEvent_ok _ _ _ _ _ Hl1 Hap) as (v & required & u & _ & Hlab & _ & Hb & [[_ Hl2]|(n2 & b & Hq & Hl2)]); [eauto|].
  exists n2. split; [done|]. destruct (build_spec _ _ _ _ Hlab Hb) as [HA _]. destruct Haf as [A1 A2].
  destruct (same_record n1 n2 (quarantineNode_same_record _ _ _ _ _ _ _ _ Hq HA) A1) as [S1 S2]. split; [done|]. intros k. rewrite S2. by apply A2.
Qed.

Lemma healthy_record ctx w event m n w' stay :
  live w (NodeName event) = Some n -> node_record_wf n -> IsEmptyValue (ann n QuarantineHealthEventAnnotationKey) = false ->
  IsHealthy event = true -> is_Some (m !! QuarantineHealthEventAnnotationKey) ->
  (match removeEventFromAnnotation ctx w event with
   | (w, Err e) => (w, (true, Some (plain e)))
   | (w, Ok updated) => if IsEmpty updated then performUncordon r ctx w event m else (w, (true, None))
   end) = (w', (stay, None)) ->
  exists n', live w' (NodeName event) = Some n' /\ after_event ctx event n n'.
Proof.
  intros Hn Hw Hne Hh Hm. unfold removeEventFromAnnotation. destruct (update_node w _ _) as [w1 [he'|e]] eqn:Hu; [|done].
  destruct (update_on _ _ _ _ _ _ _ Hn Hu) as (n1 & Hf & Hl1). destruct (removeEvent_ok _ _ _ _ _ Hw Hne Hh Hf) as (_ & _ & R3 & R4).
  unfold after_event, outcome. rewrite Hh. destruct (IsEmpty he') eqn:He.
  - intros Hp. destruct (performUncordon_ok _ _ _ _ _ _ _ Hl1 Hm Hp) as (_ & p & p' & L & base & n' & _ & Hl2 & _ & A2 & Hk & _). exists n'. split; [done|].
    destruct (unquarantineNode_spec (labelKeys r) (DryRun r) (up_taints p') (up_uncordon p') (up_annotations p') L (up_labelsMap p') base) as (_ & _ & Ha).
    specialize (Ha QuarantineHealthEventAnnotationKey). rewrite decide_True in Ha by done.
    assert (Hem : IsEmptyValue (ann n' QuarantineHealthEventAnnotationKey) = true) by (rewrite (agrees_record _ _ A2); unfold at_key; by rewrite Ha).
    split; [by left|]. intros k. rewrite tracked_empty by done. specialize (R3 k). unfold action_at in R3.
    assert (Events he' = ∅) as Hem' by (apply map_size_empty_iff, Nat.eqb_eq, He). rewrite Hem', lookup_empty in R3. simpl in R3.
    by destruct (_ && _).
  - intros [= <- <-]. destruct (R4 eq_refl) as [S1 S2]. exists n1. split; [done|]. split; [done|]. intros k. rewrite S2. by apply R3.
Qed.

(** What [handleAlreadyQuarantinedNode] does without an error. *)
Lemma already_quarantined_record ctx w event v n w' status :
  getNode ctx w (NodeName event) = inl v -> agrees v n -> live w (NodeName event) = Some n -> node_record_wf n ->
  IsEmptyValue (ann n QuarantineHealthEventAnnotationKey) = false ->
  handleAlreadyQuarantinedNode r ctx w event = (w', (status, None)) ->
  exists n', live w' (NodeName event) = Some n' /\
    (IsHealthy event || bool_decide (is_Some status) = true /\ after_event ctx event n n' \/
     IsHealthy event || bool_decide (is_Some status) = false /\ n' = n).
Proof.
  intros Hv Hag Hn Hw Hne. destruct (read_record ctx w event v n Hv Hag Hw Hne) as (he & m & Hg & Hhe & Hwf & Ha & Hm).
  unfold handleAlreadyQuarantinedNode, shouldProcessAlreadyQuarantinedEvent, handleQuarantinedNode. rewrite Hg.
  assert (Hsome : is_Some (m !! QuarantineHealthEventAnnotationKey)).
  { rewrite Hm by apply key_in_record. destruct (Annotations n !! _) eqn:Hq'; [eauto|]. unfold at_key in Hne. by rewrite Hq' in Hne. }
  destruct (IsHealthy event) eqn:Hh; cbn [negb].
  - destruct (GetEvent he event) as [x|] eqn:Hge.
    + rewrite bool_decide_eq_true_2 by eauto. cbn [negb].
      destruct (match removeEventFromAnnotation ctx w event with (_, Ok _) => _ | (_, Err _) => _ end) as [w1 [stay perr]] eqn:Hrun.
      cbv zeta. intros Hq. assert (perr = None /\ w1 = w') as [-> ->].
      { destruct perr as [e|]; [destruct (errors_Is _ e); done|]. by injection Hq. }
      destruct (healthy_record ctx w event m n w' stay Hn Hw Hne Hh Hsome Hrun) as (n' & Hl & Haf). exists n'. split; [done|]. by left.
    + rewrite bool_decide_eq_false_2 by (by intros []). cbn [negb]. intros [= <- <-]. exists n. split; [done|]. left. split; [done|].
      split; [done|]. intros k. by rewrite <- Hhe, (untracked_recovery he event k Hh Hge).
  - set (se := if isForceQuarantine event then _ else _). destruct se as [should eligErr] eqn:Hse. destruct should; cbn [negb].
    2: { intros [= <- <- ->]. exists n. split; [done|]. right. split; [|done]. by rewrite bool_decide_eq_false_2 by (by intros []). }
    destruct (handleUnhealthyEventOnQuarantinedNode r ctx w event he) as [w1 [stay perr]] eqn:Hrun. cbv zeta. intros Hq.
    assert (perr = None /\ w1 = w' /\ status = Some (resolveAlreadyQuarantinedStatus stay)) as (-> & -> & ->).
    { destruct perr as [e|]; [|by injection Hq as -> <- _]. exfalso.
      assert (exists x, errors_Join [eligErr; Some e] = Some x) as [x Hx] by (destruct eligErr; simpl; unfold errors_Join; simpl; eauto).
      rewrite Hx in Hq. by destruct (errors_Is _ e). }
    destruct (unhealthy_record ctx w event he n w' stay Hn Hw Hne Hwf Ha Hh) as (_ & n' & Hl & Haf); [|done|].
    + intros Hf. unfold se in Hse. rewrite Hf in Hse. by rewrite Hse.
    + exists n'. split; [done|]. left. by rewrite bool_decide_eq_true_2 by eauto.
Qed.

(** The record after an event handled without an error. *)
Lemma event_record (ctx : Ctx) (w w' : W) (event : HealthEvent) (n : Node) (status : option string) :
  synced ctx w (NodeName event) -> live w (NodeName event) = Some n -> node_record_wf n ->
  handleEvent r ctx w event = (w', (status, None)) ->
  exists n', live w' (NodeName event) = Some n' /\ node_record_wf n' /\
    forall k,
      tracked n' k = if (IsHealthy event || bool_decide (is_Some status)) && (answers (record_of n) event k && recoveryEffectFilter (recoveryEffects ctx) k)
                     then outcome event else tracked n k.
Proof.
  intros Hs Hn Hw. unfold handleEvent. destruct (hasExistingQuarantine ctx w (NodeName event)) as [[annotations []]|] eqn:Hex; [..|done].
  { intros Hq. pose proof (in_session _ _ _ _ _ Hs Hn Hex) as Hne.
    assert (exists v, getNode ctx w (NodeName event) = inl v) as [v Hv].
    { unfold hasExistingQuarantine in Hex. destruct (getNodeQuarantineAnnotations ctx w (NodeName event)) as [m|] eqn:Hm; [|done].
      by apply getNodeQuarantineAnnotations_view in Hm as (v & Hv & _); exists v. }
    destruct (Hs v Hv) as (n0 & Hn0 & Hag). rewrite Hn in Hn0. injection Hn0 as <-.
    destruct (already_quarantined_record _ _ _ _ _ _ _ Hv Hag Hn Hw Hne Hq) as (n' & Hl & [[-> [H1 H2]]|[-> ->]]); eauto. }
  destruct (no_session _ _ _ _ _ Hs Hn Hex) as (v & Hv & Hag & He). destruct (IsHealthy event) eqn:Hh.
  { intros [= <- <-]. exists n. split; [done|]. split; [done|]. intros k. unfold outcome. rewrite Hh, tracked_empty by done. by destruct (_ && _). }
  destruct (evaluateRulesets _ _ _ _ _ _ _) as [s evalErr].
  assert (Hskip : exists n', live w (NodeName event) = Some n' /\ node_record_wf n' /\ forall k, tracked n' k =
    if (false || bool_decide (is_Some (None : option string))) && (answers (record_of n) event k && recoveryEffectFilter (recoveryEffects ctx) k)
    then outcome event else tracked n k).
  { exists n. rewrite bool_decide_eq_false_2 by (by intros []). done. }
  destruct (shouldDeferRecoveryActions ctx evalErr); [by intros [= <- <- _]|]. rewrite Hv.
  destruct (prepareAnnotations r (timestamp w) v _ _ _ _) as [[m taints] labels]. destruct (_ && _ && _); [by intros [= <- <- _]|].
  destruct (applyQuarantine r ctx w event annotations taints m labels (isCordoned s)) as [w1 [st qErr]] eqn:Hap. intros Hq.
  injection Hq as <- <- Hj. apply errors_Join_None in Hj. apply Forall_cons in Hj as [_ Hj]. apply Forall_cons in Hj as [-> _].
  destruct (applyQuarantine_ok _ _ _ _ _ _ _ _ _ _ _ Hn Hap) as [(_ & -> & Hl)|(Hst & n1 & n' & text & m' & b & -> & Hl & Hun & Ht & HA & _ & Hqn)].
  { exists n. rewrite bool_decide_eq_false_2 by (by intros []). done. }
  exists n'. split; [done|]. rewrite bool_decide_eq_true_2 by eauto. cbn [orb andb].
  assert (Hrec : ann n1 QuarantineHealthEventAnnotationKey = ann n QuarantineHealthEventAnnotationKey).
  { unfold at_key. by rewrite (proj2 (proj2 Hun)) by (done || apply key_in_record). }
  destruct (same_record n n1 Hrec Hw) as [W1 T1].
  destruct (quarantineNode_record ctx event _ _ _ _ _ _ _ _ text W1 Hh Hst Ht HA Hqn) as (_ & W2 & T2). split; [done|].
  intros k. rewrite T2, T1. unfold record_of. by rewrite Hrec.
Qed.


(** ** Dry run *)

(** The parts of the node that matter to the cluster are as before; the text of
    one bookkeeping label may differ. *)
Definition quiet (n n' : Node) : Prop :=
  Taints n' = Taints n /\ Unschedulable n' = Unschedulable n /\
  forall key, key <> uncordonedReasonLabelKey (labelKeys r) -> Labels n' !! key = Labels n !! key.

Definition kept (name : string) (w w' : W) : Prop :=
  forall n, live w name = Some n -> exists n', live w' name = Some n' /\ quiet n n'.

Lemma quiet_refl n : quiet n n.
Proof. by repeat split. Qed.

Lemma quiet_annotations n m : quiet n (with_annotations n m).
Proof. by repeat split. Qed.

Lemma kept_refl name w : kept name w w.
Proof. intros n Hn. exists n. split; [done|]. apply quiet_refl. Qed.

Lemma kept_trans name w1 w2 w3 : kept name w1 w2 -> kept name w2 w3 -> kept name w1 w3.
Proof.
  intros H12 H23 n Hn. destruct (H12 n Hn) as (n' & Hn' & A1 & B1 & C1). destruct (H23 n' Hn') as (n'' & Hn'' & A2 & B2 & C2).
  exists n''. split; [done|]. split; [congruence|]. split; [congruence|]. intros key Hk. by rewrite C2, C1.
Qed.

Lemma kept_live name w w' : live w' name = live w name -> kept name w w'.
Proof. intros He n Hn. exists n. rewrite He. split; [done|]. apply quiet_refl. Qed.

Lemma kept_update name w A (f : Node -> result (Node * A)) w' x :
  (forall n n' a, f n = Ok (n', a) -> quiet n n') -> update_node w name f = (w', x) -> kept name w w'.
Proof.
  intros Hf Hu n Hn.
  assert (Hone : forall base n1 a, agrees base n -> f base = Ok (n1, a) -> quiet n (rebase base n1 n)).
  { intros base n1 a Ha Hq. pose proof (rebase_agrees base n1 n Ha) as (B1 & B2 & _). destruct (Hf base n1 a Hq) as (C1 & C2 & C3).
    destruct Ha as (A1 & A2 & _). split; [congruence|]. split; [congruence|]. intros key Hk. by apply rebase_map_untouched, C3. }
  destruct x as [a|e].
  - apply update_ok in Hu as (n0 & base & n1 & Hn0 & Ha & Hq & Hl). rewrite Hn in Hn0. injection Hn0 as <-. eauto.
  - apply update_err in Hu as [Hl|(n0 & base & n1 & a & Hn0 & Ha & Hq & Hl)]; [exists n; rewrite Hl; split; [done|apply quiet_refl]|].
    rewrite Hn in Hn0. injection Hn0 as <-. eauto.
Qed.

Lemma kept_cordon name w event : kept name w (recordCordonEventInCircuitBreaker r w event).
Proof. apply kept_live, record_cordon_live. Qed.

Lemma kept_cleanup w name m key w' x : cleanupManualAnnotation w name m key = (w', x) -> kept name w w'.
Proof.
  unfold cleanupManualAnnotation. destruct (m !! key); [|intros [= <- _]; apply kept_refl].
  destruct (update_node w name _) as [w1 y] eqn:Hu. intros Hq. assert (w1 = w') as <- by (destruct y; by injection Hq).
  eapply kept_update; [|exact Hu]. intros n n' a Hf. injection Hf as <- _. apply quiet_annotations.
Qed.

Lemma kept_add ctx event w w' x : addEventToAnnotation r ctx w event = (w', x) -> kept (NodeName event) w w'.
Proof.
  apply kept_update. intros n n' a. unfold addEvent. cbv zeta. destruct (if _ ==s _ then _ else _) as [he|]; cbn [rbind]; [|done].
  destruct (AddOrUpdateEventFiltered _ _ _) as [he' added]. destruct (negb added); [intros [= <- _]; apply quiet_annotations|].
  destruct (marshalRecord he'); cbn [rwrap rbind]; [|done]. destruct (updateValidationAnnotation _ _ _); cbn [rbind]; [|done].
  intros [= <- _]. apply quiet_annotations.
Qed.

Lemma kept_remove ctx event w w' x : removeEventFromAnnotation ctx w event = (w', x) -> kept (NodeName event) w w'.
Proof.
  apply kept_update. intros n n' a. unfold removeEvent. cbv zeta. destruct (_ ==s _); [intros [= <- _]; apply quiet_refl|].
  destruct (parseHealthEventsAnnotation 0 _) as [he|]; cbn [rwrap rbind]; [|done]. destruct (RemoveEventFiltered _ _ _) as [he' removed].
  destruct (_ =? 0)%nat; [intros [= <- _]; apply quiet_refl|]. destruct (IsEmpty he'); [intros [= <- _]; apply quiet_refl|].
  destruct (marshalRecord he'); cbn [rwrap rbind]; [|done]. intros [= <- _]. apply quiet_annotations.
Qed.

Context (Hdry : DryRun r = true).

Lemma kept_quarantine w name T c A L w' x : QuarantineNodeAndSetAnnotations (DryRun r) w name T c A L = (w', x) -> kept name w w'.
Proof.
  apply kept_update. intros n n' b. rewrite Hdry. intros (_ & _ & Ht & Hu & _ & Hl)%quarantineNode_spec. simpl in Ht, Hu. rewrite andb_false_r, orb_false_r in Hu.
  split; [done|]. split; [done|]. intros. by rewrite Hl.
Qed.

Lemma kept_unquarantine w name T u A L labels w' x :
  UnQuarantineNodeAndRemoveAnnotations (labelKeys r) (DryRun r) w name T u A L labels = (w', x) -> kept name w w'.
Proof.
  apply kept_update. intros n n' b Hq. injection Hq as <- _. rewrite Hdry. 
  destruct (unquarantineNode_spec (labelKeys r) true T u A L labels n) as (Ht & Hu & _). rewrite andb_false_r in Hu.
  split; [done|]. split; [done|]. intros key Hk. unfold unquarantineNode, removeLabels, removeTaints, handleUncordon, applyLabels. cbv zeta.
  destruct (length L =? 0)%nat, (0 <? length T)%nat, u, (size labels =? 0)%nat; simpl; try done;
    destruct (_ ==s _); simpl; try done; by rewrite lookup_insert_ne by congruence.
Qed.

Lemma kept_actions ctx w event w' x : applyRuleActionsForEvent r ctx w event = (w', x) -> kept (NodeName event) w w'.
Proof.
  unfold applyRuleActionsForEvent. destruct (evaluateSessionActions r ctx w event) as [required err]. cbv zeta.
  destruct (shouldDeferRecoveryActions _ _); [intros [= <- _]; apply kept_refl|]. destruct (getNode _ _ _); [|intros [= <- _]; apply kept_refl].
  destruct (buildSessionActionUpdate _ _ _ _) as [u|]; [|intros [= <- _]; apply kept_refl].
  destruct (isEmptyUpdate u); [intros [= <- _]; apply kept_refl|].
  destruct (QuarantineNodeAndSetAnnotations _ _ _ _ _ _ _) as [w1 y] eqn:Hq. intros Hr. assert (w1 = w') as <- by (destruct y; by injection Hr).
  eapply kept_trans; [|eapply kept_quarantine, Hq]. destruct (su_cordon u); [apply kept_cordon|apply kept_refl].
Qed.

Lemma kept_apply ctx w event m0 T m L c w' x : applyQuarantine r ctx w event m0 T m L c = (w', x) -> kept (NodeName event) w w'.
Proof.
  unfold applyQuarantine. cbv zeta. destruct (AddOrUpdateEventFiltered _ _ _) as [he updated].
  destruct (negb updated); [intros [= <- _]; apply kept_cordon|]. destruct (marshalRecord he); [|intros [= <- _]; apply kept_cordon].
  destruct (updateValidationAnnotation _ _ _); [|intros [= <- _]; apply kept_cordon].
  destruct (cleanupManualAnnotation _ _ _ _) as [w1 o1] eqn:H1. assert (K1 : kept (NodeName event) w w1)
    by (eapply kept_trans; [apply kept_cordon|eapply kept_cleanup, H1]).
  destruct o1; [by intros [= <- _]|]. destruct (cleanupManualAnnotation w1 _ _ _) as [w2 o2] eqn:H2.
  assert (K2 : kept (NodeName event) w w2) by (eapply kept_trans; [exact K1|eapply kept_cleanup, H2]). destruct o2; [by intros [= <- _]|].
  destruct (QuarantineNodeAndSetAnnotations _ _ _ _ _ _ _) as [w3 y] eqn:H3. intros Hr. assert (w3 = w') as <- by (destruct y; by injection Hr).
  eapply kept_trans; [exact K2|eapply kept_quarantine, H3].
Qed.

Lemma kept_uncordon ctx w event m w' x : performUncordon r ctx w event m = (w', x) -> kept (NodeName event) w w'.
Proof.
  unfold performUncordon. destruct (prepareUncordonParams _ _ _ _) as [p|]; [|intros [= <- _]; apply kept_refl]. cbv zeta.
  destruct (_ && _ && _ && _); [intros [= <- _]; apply kept_refl|].
  destruct (triggerValidationOnUnquarantine _ _ _ _ _ _) as [w1 y] eqn:Ht.
  assert (K1 : kept (NodeName event) w w1).
  { unfold triggerValidationOnUnquarantine in Ht. destruct (m !! _); [|injection Ht as <- _; apply kept_refl].
    destruct (createValidationRequestIfRequested _ _ _ _ _) as [w2 z] eqn:Hc. apply kept_live.
    destruct (createValidation_live _ _ _ _ _ _ (NodeName event) Hc) as [Hl _]. destruct z; by injection Ht as <- _. }
  destruct y as [[p' created]|]; [|by intros [= <- _]].
  destruct (UnQuarantineNodeAndRemoveAnnotations _ _ _ _ _ _ _ _ _) as [w2 z] eqn:Hu. intros Hr. assert (w2 = w') as <- by (destruct z; by injection Hr).
  eapply kept_trans; [exact K1|eapply kept_unquarantine, Hu].
Qed.

Lemma kept_quarantined ctx w event w' x : handleQuarantinedNode r ctx w event = (w', x) -> kept (NodeName event) w w'.
Proof.
  unfold handleQuarantinedNode. destruct (getHealthEventsFromAnnotation _ _ _) as [[he m]|e].
  2: { destruct (errors_Is _ _); intros [= <- _]; apply kept_refl. }
  destruct (negb (IsHealthy event)).
  - unfold handleUnhealthyEventOnQuarantinedNode. destruct (if isForceQuarantine event then (false, None) else _) as [matched err].
    destruct (_ && _); [intros [= <- _]; apply kept_refl|]. destruct (AddOrUpdateEventFiltered _ _ _) as [he' added].
    destruct (if added then addEventToAnnotation r ctx w event else (w, Ok tt)) as [w1 y] eqn:Ha.
    assert (K1 : kept (NodeName event) w w1) by (destruct added; [by eapply kept_add|injection Ha as <- _; apply kept_refl]).
    destruct y; [|by intros [= <- _]]. destruct (applyRuleActionsForEvent _ _ _ _) as [w2 z] eqn:Hp. intros Hr.
    assert (w2 = w') as <- by (destruct z; by injection Hr). eapply kept_trans; [exact K1|eapply kept_actions, Hp].
  - destruct (GetEvent he event); [|intros [= <- _]; apply kept_refl]. destruct (removeEventFromAnnotation _ _ _) as [w1 y] eqn:Hrm.
    pose proof (kept_remove _ _ _ _ _ Hrm) as K1. destruct y as [u|]; [|by intros [= <- _]]. destruct (IsEmpty u); [|by intros [= <- _]].
    intros Hu. eapply kept_trans; [exact K1|eapply kept_uncordon, Hu].
Qed.

(** C10 (dry run).  In a dry run no event, whatever its outcome, errors and lost
    answers included, changes the taints, the schedulability or the labels of the
    node; the one exception is the text of the uncordon-reason label. *)
Theorem dry_run_inert (ctx : Ctx) (w w' : W) (event : HealthEvent) (x : option string * option goError) (n : Node) :
  live w (NodeName event) = Some n -> ProcessEvent r ctx w event = (w', x) ->
  exists n', live w' (NodeName event) = Some n' /\ Taints n' = Taints n /\ Unschedulable n' = Unschedulable n /\
    forall key, key <> uncordonedReasonLabelKey (labelKeys r) -> Labels n' !! key = Labels n !! key.
Proof.
  intros Hn Hp. enough (Hk : kept (NodeName event) w w') by (destruct (Hk n Hn) as (n' & ? & ?); eauto).
  revert Hp. unfold ProcessEvent, checkCircuitBreakerAndHalt, breakerActive. rewrite Hdry, andb_false_r. cbn [negb]. unfold handleEvent.
  destruct (hasExistingQuarantine ctx w (NodeName event)) as [[m []]|e]; [..|intros [= <- _]; apply kept_refl].
  - unfold handleAlreadyQuarantinedNode. destruct (shouldProcessAlreadyQuarantinedEvent _ _ _ _) as [should err].
    destruct (negb should); [intros [= <- _]; apply kept_refl|]. destruct (handleQuarantinedNode _ _ _ _) as [w1 [stay perr]] eqn:Hq.
    cbv zeta. intros Hr. assert (w1 = w') as <- by (destruct perr as [e|]; [destruct (errors_Is _ e)|]; by injection Hr). by eapply kept_quarantined.
  - destruct (IsHealthy event); [intros [= <- _]; apply kept_refl|]. destruct (evaluateRulesets _ _ _ _ _ _ _) as [s err].
    destruct (shouldDeferRecoveryActions _ _); [intros [= <- _]; apply kept_refl|]. destruct (getNode _ _ _); [|intros [= <- _]; apply kept_refl].
    destruct (prepareAnnotations _ _ _ _ _ _ _) as [[m' T] L]. destruct (_ && _ && _); [intros [= <- _]; apply kept_refl|].
    destruct (applyQuarantine _ _ _ _ _ _ _ _ _) as [w1 [st qe]] eqn:Ha. intros [= <- _]. by eapply kept_apply.
Qed.

End theory.
