(* ===== verification/QuarantineSession.v ===== *)
(** * Quarantine sessions

    A session starts with the first fault accepted on a node and ends with the
    recovery of the last one.  What the session adds to the node (taints, a
    cordon) is remembered in annotations, with marks on what was there before;
    the release undoes exactly the additions. *)

From stdpp Require Import gmap strings list fin_maps.
From Stdlib Require Import ZArith Lia.
From S2P Require Import Prelude HealthEvent AnnotationMap EventRecord KubeRetry StateManager Supersession Residual ColdStart NodeSession RuleEval Quarantine QuarantineSpec.

#[local] Open Scope nat_scope.
#[local] Abbreviation Node := NodeSession.Node.

(** Encoding taints does not fail: they hold strings and a flag. *)
Class JSONTotal (A : Type) `{JSON A} := json_total : forall a : A, exists s, json_marshal a = Ok s.

(** ** The taints a rule may ask for *)

(** A taint of the configuration. *)
Definition configured (c : rulesetsConfig) (t : Taint) : Prop :=
  exists name tc, TaintConfigMap c !! name = Some tc /\ Key tc = Key t /\ Value tc = Value t /\ Effect tc = Effect t.

Lemma applied_configured lk c names s :
  (forall kv e, taintAppliedMap s !! kv = Some e -> e <> ""%string -> configured c {| Key := kv.1; Value := kv.2; Effect := e; PreExisting := false |}) ->
  forall kv e, taintAppliedMap (fold_left (handleSuccessfulRuleEvaluation lk c) names s) !! kv = Some e -> e <> ""%string ->
    configured c {| Key := kv.1; Value := kv.2; Effect := e; PreExisting := false |}.
Proof.
  revert s. induction names as [|name names IH]; intros s Hs; simpl; [done|]. apply IH. intros kv e.
  destruct (handle_components lk c s name) as (_ & Ht & _). unfold taintStep, updateTaintMaps in Ht.
  destruct (TaintConfigMap c !! name) as [tc|] eqn:Htc; [|injection Ht as -> _; apply Hs].
  destruct (_ || _); injection Ht as -> _; [|apply Hs]. rewrite lookup_insert_Some. intros [[<- <-]|[_ ?]] Hne; [|by apply Hs].
  exists name, tc. done.
Qed.

Lemma desired_configured `{CelRules, MapRangeLaws, Scheduler} lk c effects view event evals keys t :
  t ∈ collectTaintsToApply (taintAppliedMap (evaluateRulesets lk c effects view event evals (initEvaluation keys)).1) ->
  PreExisting t = false /\ configured c t.
Proof.
  unfold collectTaintsToApply. rewrite list_elem_of_omap. intros ([[key value] effect] & Hin%elem_of_range & Ht).
  destruct (effect <>s "") eqn:He; [|done]. injection Ht as <-. split; [done|]. to_prop.
  rewrite evaluateRulesets_fold in Hin. refine (applied_configured lk c _ _ _ (key, value) effect Hin He). clear Hin He.
  intros kv e. replace (taintAppliedMap (forceActions lk event (initEvaluation keys))) with (taintAppliedMap (initEvaluation keys))
    by (unfold forceActions; by destruct (isForceQuarantine event)). simpl. intros Hl Hne. exfalso. apply Hne. clear Hne.
  assert (Hall : forall (m : gmap keyValTaint string), (forall x, m !! kv = Some x -> x = ""%string) ->
    forall x, fold_left (fun m k => <[k := ""%string]> m) keys m !! kv = Some x -> x = ""%string).
  { clear Hl. induction keys as [|k ks IH]; intros m Hm; simpl; [done|]. apply IH. intros x. rewrite lookup_insert_Some.
    intros [[_ <-]|[_ Hx]]; [done|by apply Hm]. }
  apply (Hall ∅); [by intros x; rewrite lookup_empty|done].
Qed.

(** ** The state of a session *)

Section session.
Context `{JT : JSON (list Taint)}.

(** The taints the annotation lists. *)
Definition recorded (n : Node) : list Taint :=
  if ann n QuarantineHealthEventAppliedTaintsAnnotationKey ==s "" then []
  else match json_unmarshal (A := list Taint) (ann n QuarantineHealthEventAppliedTaintsAnnotationKey) with Ok l => l | Err _ => [] end.

Definition recorded_ok (n : Node) : Prop :=
  ann n QuarantineHealthEventAppliedTaintsAnnotationKey = ""%string \/
  exists l, l <> [] /\ json_marshal l = Ok (ann n QuarantineHealthEventAppliedTaintsAnnotationKey).

Definition cordonFlag (n : Node) : bool := ann n QuarantineHealthEventIsCordonedAnnotationKey ==s AnnotationValueTrue.
Definition preFlag (n : Node) : bool := ann n QuarantineHealthEventCordonPreExistingAnnotationKey ==s AnnotationValueTrue.

(** [n] is [n0] with the additions of a session. *)
Record session (n0 n : Node) : Prop := {
  s_ids : NoDup (ids (Taints n));
  s_text : recorded_ok n;
  s_taints : exists added, Taints n = Taints n0 ++ added /\
    forall a, a ∈ added -> exists t, last_at (recorded n) (nt_identity a) = Some t /\ Value t = ntValue a;
  s_pre t : t ∈ recorded n -> PreExisting t = true <-> cfg_identity t ∈ ids (Taints n0);
  s_sched : Unschedulable n = Unschedulable n0 || cordonFlag n;
  s_preflag : preFlag n = cordonFlag n && Unschedulable n0 }.

(** A node without a session. *)
Record idle (n : Node) : Prop := {
  i_ids : NoDup (ids (Taints n));
  i_text : ann n QuarantineHealthEventAppliedTaintsAnnotationKey = ""%string;
  i_cordon : cordonFlag n = false;
  i_pre : preFlag n = false }.

Lemma recorded_idle n : ann n QuarantineHealthEventAppliedTaintsAnnotationKey = ""%string -> recorded n = [].
Proof. intros He. unfold recorded. by rewrite He. Qed.

Lemma idle_session n : idle n -> session n n.
Proof.
  intros [H1 H2 H3 H4]. split; [done|by left| | |by rewrite H3, orb_false_r|by rewrite H3, H4].
  - exists []. rewrite app_nil_r. split; [done|]. intros a Ha. by apply not_elem_of_nil in Ha.
  - intros t. rewrite (recorded_idle n H2). intros Ht. by apply not_elem_of_nil in Ht.
Qed.

Lemma same_session_fields n n' : same_session n' n ->
  recorded n' = recorded n /\ (recorded_ok n -> recorded_ok n') /\ cordonFlag n' = cordonFlag n /\ preFlag n' = preFlag n.
Proof.
  intros (_ & _ & Hk). unfold recorded, recorded_ok, cordonFlag, preFlag. by rewrite !Hk by (rewrite !elem_of_cons; auto).
Qed.

Lemma session_same n0 n n' : same_session n' n -> session n0 n -> session n0 n'.
Proof.
  intros Hs [H1 H2 H3 H4 H5 H6]. destruct (same_session_fields _ _ Hs) as (R1 & R2 & R3 & R4). destruct Hs as (S1 & S2 & _).
  split; rewrite ?S1, ?S2, ?R1, ?R3, ?R4; auto.
Qed.
End session.

Section theory.
Context {MR : MapRange} {MRL : MapRangeLaws} {SC : SlotCodec} {CR : CelRules} {SCH : Scheduler}.
Context `{JT : JSON (list Taint), JTL : !JSONLaws (list Taint), JTN : !JSONListLaws Taint, JTT : !JSONTotal (list Taint)}.
Context `{JL : JSON (list AppliedLabel)} `{JV : JSON (list HealthEventWithTests)}.
Context `{JE : JSON (list HealthEvent), JEL : !JSONLaws (list HealthEvent), JEN : !JSONListLaws HealthEvent}.
Context `{JS : JSON HealthEvent}.

Lemma recorded_text n l : l <> [] -> json_marshal l = Ok (ann n QuarantineHealthEventAppliedTaintsAnnotationKey) ->
  recorded n = l /\ IsEmptyValue (ann n QuarantineHealthEventAppliedTaintsAnnotationKey) = false.
Proof.
  intros Hl Ht. pose proof (json_list_text _ _ Ht Hl) as He. split; [|done]. unfold recorded.
  rewrite (not_blank _ He). by rewrite (json_roundtrip _ _ Ht).
Qed.

(** ** Growing *)

(** The taints [T] fit the node: none is listed yet, one is marked exactly when
    its identity is on the node, and then with the value it has there. *)
Definition fits (n : Node) (T : list Taint) : Prop :=
  forall t, t ∈ T -> cfg_identity t ∉ (cfg_identity <$> recorded n) /\
    (PreExisting t = true <-> cfg_identity t ∈ ids (Taints n)) /\
    (forall u, u ∈ Taints n -> nt_identity u = cfg_identity t -> ntValue u = Value t).

Lemma revalue_fits n T u : fits n T -> u ∈ Taints n -> revalue T u = u.
Proof.
  intros Hf Hu. unfold revalue. destruct (last_at T (nt_identity u)) as [c|] eqn:Hc; [|done]. apply last_at_Some in Hc as [Hin Hid].
  destruct (Hf c Hin) as (_ & _ & Hv). unfold set_value. rewrite <- (Hv u Hu) by done. by destruct u.
Qed.

Lemma added_recorded n0 n added a : session n0 n -> Taints n = Taints n0 ++ added ->
  (forall a, a ∈ added -> exists t, last_at (recorded n) (nt_identity a) = Some t /\ Value t = ntValue a) ->
  a ∈ added -> nt_identity a ∈ (cfg_identity <$> recorded n) /\ nt_identity a ∉ ids (Taints n0).
Proof.
  intros Hs Heq Hadd Ha. split.
  - destruct (Hadd a Ha) as (t & Ht & _). apply last_at_Some in Ht as [Hin <-]. by apply list_elem_of_fmap_2.
  - pose proof (s_ids _ _ Hs) as Hnd. rewrite Heq, fmap_app in Hnd. apply NoDup_app in Hnd as (_ & Hdis & _). intros Hin.
    apply (Hdis _ Hin). by apply list_elem_of_fmap_2.
Qed.

(** The annotation after the merge, and the taints it lists. *)
Lemma grown_taints n0 n n' T c A L b :
  session n0 n -> fits n T -> quarantineNode false T c A L n = Ok (n', b) ->
  A !! QuarantineHealthEventAppliedTaintsAnnotationKey = None /\ T = [] \/
  (exists text, A !! QuarantineHealthEventAppliedTaintsAnnotationKey = Some text /\ json_marshal T = Ok text /\ T <> []) ->
  recorded_ok n' /\ (T = [] /\ recorded n' = recorded n /\ Taints n' = Taints n \/
    T <> [] /\ (forall i, last_at (recorded n') i = (fun x => mark (any_pre (recorded n ++ T) i) x) <$> last_at (recorded n ++ T) i \/
                          last_at (recorded n') i = last_at (recorded n ++ T) i) /\
    (forall t, t ∈ recorded n' -> t ∈ recorded n ++ T \/ exists x, x ∈ recorded n ++ T /\ cfg_identity x = cfg_identity t /\
        PreExisting t = any_pre (recorded n ++ T) (cfg_identity t))).
Proof.
  intros Hs Hf Hq HA. destruct (quarantineNode_spec _ _ _ _ _ _ _ _ Hq) as (_ & _ & Ht & _ & Hm & _).
  specialize (Hm QuarantineHealthEventAppliedTaintsAnnotationKey). unfold merged_at in Hm.
  assert (Hbase : session_base false n !! QuarantineHealthEventAppliedTaintsAnnotationKey =
    Annotations n !! QuarantineHealthEventAppliedTaintsAnnotationKey) by (unfold session_base; by rewrite lookup_delete_ne).
  destruct HA as [[HA HT]|(text & HA & HT & Hne)]; rewrite HA in Hm.
  - subst T. assert (Ha : ann n' QuarantineHealthEventAppliedTaintsAnnotationKey = ann n QuarantineHealthEventAppliedTaintsAnnotationKey)
      by (unfold at_key; by rewrite Hm, Hbase).
    split; [|left; split; [done|]; split; [by unfold recorded; rewrite Ha|done]]. unfold recorded_ok. rewrite Ha. apply (s_text _ _ Hs).
  - destruct Hm as (v & Hmv & Hl). assert (Hv : ann n' QuarantineHealthEventAppliedTaintsAnnotationKey = v) by (unfold at_key; by rewrite Hl).
    assert (Hb : at_key (session_base false n) QuarantineHealthEventAppliedTaintsAnnotationKey = ann n QuarantineHealthEventAppliedTaintsAnnotationKey)
      by (unfold at_key; by rewrite Hbase).
    rewrite Hb in Hmv. change (mergeAppliedTaintsAnnotation (ann n QuarantineHealthEventAppliedTaintsAnnotationKey) text = Ok v) in Hmv.
    unfold mergeAppliedTaintsAnnotation, mergeAnnotation in Hmv. destruct (s_text _ _ Hs) as [He|(l & Hl0 & Hl1)].
    + rewrite He in Hmv. simpl in Hmv. injection Hmv as Hvt. rewrite <- Hvt in Hv. rewrite <- Hv in HT.
      destruct (recorded_text n' T Hne HT) as [Hr _]. split; [right; by exists T|]. right. rewrite Hr, (recorded_idle n He). simpl.
      split; [done|]. split; [by right|by left].
    + destruct (recorded_text n l Hl0 Hl1) as [Hr Hre]. rewrite Hre, (json_list_text _ _ HT Hne), (json_roundtrip _ _ Hl1), (json_roundtrip _ _ HT) in Hmv.
      cbn [rwrap rbind] in Hmv. destruct (json_marshal (mergeAppliedTaints l T)) as [merged|] eqn:Hmg; [|done]. injection Hmv as Hvt. rewrite <- Hv in Hvt.
      assert (Hmne : mergeAppliedTaints l T <> []).
      { intros Hz. destruct l as [|x l]; [done|]. pose proof (last_at_merge (x :: l) T (cfg_identity x)) as Hlm. rewrite Hz in Hlm.
        simpl in Hlm. symmetry in Hlm. apply fmap_None in Hlm. rewrite last_at_None in Hlm. by destruct (Hlm x); [left|]. }
      rewrite Hvt in Hmg. destruct (recorded_text n' _ Hmne Hmg) as [Hr' _]. split; [right; eauto|]. right. rewrite Hr', Hr.
      split; [done|]. split; [intros i; left; apply last_at_merge|]. intros t Ht'. right. by apply elem_of_merge.
Qed.

(** A taint that fits is marked exactly when the node had it before the
    session. *)
Lemma fits_pre n0 n T t : session n0 n -> fits n T -> t ∈ T -> PreExisting t = true <-> cfg_identity t ∈ ids (Taints n0).
Proof.
  intros Hs Hf Ht. destruct (Hf t Ht) as (Hnr & Hp & _). rewrite Hp. destruct (s_taints _ _ Hs) as (added & Heq & Hadd).
  rewrite Heq, fmap_app, elem_of_app. split; [|by left]. intros [?|(a & Ha & Hin)%list_elem_of_fmap]; [done|]. exfalso. apply Hnr. rewrite Ha.
  by apply (added_recorded n0 n added a).
Qed.

Lemma session_grow_run n0 n n' T c flag A L b :
  session n0 n -> fits n T -> quarantineNode false T c A L n = Ok (n', b) ->
  A !! QuarantineHealthEventAppliedTaintsAnnotationKey = None /\ T = [] \/
  (exists text, A !! QuarantineHealthEventAppliedTaintsAnnotationKey = Some text /\ json_marshal T = Ok text /\ T <> []) ->
  A !! QuarantineHealthEventIsCordonedAnnotationKey = (if flag : bool then Some AnnotationValueTrue else None) ->
  A !! QuarantineHealthEventCordonPreExistingAnnotationKey = (if flag && Unschedulable n then Some AnnotationValueTrue else None) ->
  Unschedulable n || c = Unschedulable n || flag -> (flag = true -> cordonFlag n = false) ->
  session n0 n'.
Proof.
  intros Hs Hf Hq HA HC HP Hc Hflag. destruct (grown_taints _ _ _ _ _ _ _ _ Hs Hf Hq HA) as [Hok Hrec].
  destruct (quarantineNode_spec _ _ _ _ _ _ _ _ Hq) as (_ & _ & Ht & Hu & Hm & _). cbn [orb] in Ht. rewrite andb_true_r, Hc in Hu.
  destruct (s_taints _ _ Hs) as (added & Heq & Hadd).
  assert (Hpre : forall x, x ∈ recorded n ++ T -> PreExisting x = true <-> cfg_identity x ∈ ids (Taints n0)).
  { intros x [Hx|Hx]%elem_of_app; [by apply (s_pre _ _ Hs)|by apply (fits_pre n0 n T)]. }
  assert (Hflags : cordonFlag n' = cordonFlag n || flag /\ preFlag n' = preFlag n || (flag && Unschedulable n)).
  { assert (Hone : forall key (f : bool), key <> QuarantineHealthEventDryRunAnnotationKey -> annotationMergers key = None ->
      A !! key = (if f then Some AnnotationValueTrue else None) -> (ann n' key ==s AnnotationValueTrue) = (ann n key ==s AnnotationValueTrue) || f).
    { intros key f Hk Hmg HAk. specialize (Hm key). unfold merged_at in Hm. rewrite HAk in Hm. unfold at_key. destruct f.
      - destruct Hm as (v & Hv & ->). unfold mergedValue in Hv. rewrite Hmg in Hv. injection Hv as <-. simpl. by rewrite orb_true_r.
      - rewrite Hm. unfold session_base. rewrite lookup_delete_ne by congruence. by rewrite orb_false_r. }
    unfold cordonFlag, preFlag. split; apply Hone; done. }
  destruct Hflags as [F1 F2].
  assert (Hspec : Unschedulable n' = Unschedulable n0 || cordonFlag n' /\ preFlag n' = cordonFlag n' && Unschedulable n0).
  { rewrite F1, F2, Hu, (s_preflag _ _ Hs), (s_sched _ _ Hs). destruct flag; [|by rewrite !orb_false_r; destruct (cordonFlag n), (Unschedulable n0)].
    rewrite (Hflag eq_refl). by destruct (Unschedulable n0). }
  destruct Hrec as [(HT & Hr & HTn)|(Hne & Hlast & Helem)].
  { split; [rewrite HTn; apply Hs|done| | |apply Hspec|apply Hspec]; rewrite ?Hr, ?HTn; [by exists added|apply Hs]. }
  assert ((length T =? 0)%nat = false) as Hz by (by destruct T). rewrite Hz in Ht.
  destruct (applyTaint_spec (Taints n) T (s_ids _ _ Hs)) as (new & Hnew & [Hix _] & Hnadd & _). rewrite Hnew in Ht.
  assert (Hrev : revalue T <$> Taints n = Taints n).
  { rewrite <- (list_fmap_id (Taints n)) at 2. apply list_fmap_ext. intros j u Hu'. apply (revalue_fits n T u Hf). by eapply list_elem_of_lookup_2. }
  rewrite Hrev in Ht. rewrite Hnew, Hrev in Hix.
  split; [by rewrite Ht|done| | |apply Hspec|apply Hspec].
  - exists (added ++ new). rewrite Ht, Heq, app_assoc. split; [done|].
    assert (Hl : forall a t, last_at (recorded n ++ T) (nt_identity a) = Some t -> Value t = ntValue a ->
      exists t', last_at (recorded n') (nt_identity a) = Some t' /\ Value t' = ntValue a).
    { intros a t Hla Hv. destruct (Hlast (nt_identity a)) as [->| ->]; rewrite Hla; simpl; eauto. }
    intros a [Ha|Ha]%elem_of_app.
    + destruct (Hadd a Ha) as (t & Hla & Hv). apply (Hl a t); [|done]. rewrite last_at_app_l; [done|]. apply last_at_None.
      intros x Hx He. destruct (Hf x Hx) as (Hn & _). apply Hn. rewrite He. by apply (added_recorded n0 n added a).
    + destruct (Hnadd a Ha) as (_ & t & Hla & Hv). apply (Hl a t); [|done]. by apply last_at_app_r.
  - intros t Htr. destruct (Helem t Htr) as [Hin|(x & Hin & Hid & ->)]; [by apply Hpre|].
    unfold any_pre. rewrite existsb_elem. split.
    + intros (y & Hy & [Hyi Hyp]%andb_true_iff). to_prop. rewrite <- Hyi. by apply Hpre.
    + intros Hi. exists x. split; [done|]. rewrite bool_decide_eq_true_2 by done. simpl. apply Hpre; [done|]. by rewrite Hid.
Qed.

Lemma fits_same n n' T : same_session n' n -> fits n T -> fits n' T.
Proof.
  intros Hs Hf t Ht. destruct (same_session_fields _ _ Hs) as (R1 & _). destruct Hs as (S1 & _). rewrite R1, S1. by apply Hf.
Qed.

Lemma session_grow n0 n n' T c flag A L b :
  session n0 n -> fits n T -> updated (quarantineNode false T c A L) n n' b ->
  A !! QuarantineHealthEventAppliedTaintsAnnotationKey = None /\ T = [] \/
  (exists text, A !! QuarantineHealthEventAppliedTaintsAnnotationKey = Some text /\ json_marshal T = Ok text /\ T <> []) ->
  A !! QuarantineHealthEventIsCordonedAnnotationKey = (if flag : bool then Some AnnotationValueTrue else None) ->
  A !! QuarantineHealthEventCordonPreExistingAnnotationKey = (if flag && Unschedulable n then Some AnnotationValueTrue else None) ->
  Unschedulable n || c = Unschedulable n || flag -> (flag = true -> cordonFlag n = false) ->
  session n0 n'.
Proof.
  intros Hs Hf (base & n1 & A1 & Hq & A2) HA HC HP Hc Hflag. pose proof (agrees_session _ _ A1) as S1.
  apply (session_same _ n1); [by apply agrees_session|]. destruct A1 as (_ & U1 & _). rewrite <- U1 in HP, Hc.
  apply (session_grow_run n0 base n1 T c flag A L b); try done.
  - by apply (session_same _ n).
  - by apply (fits_same n).
  - destruct (same_session_fields _ _ S1) as (_ & _ & -> & _). done.
Qed.

(** ** Releasing *)

Lemma release_taints n0 n : session n0 n ->
  filter (fun t => as_config t ∉ List.filter (fun t => negb (PreExisting t)) (recorded n)) (Taints n) = Taints n0.
Proof.
  intros Hs. destruct (s_taints _ _ Hs) as (added & Heq & Hadd). rewrite Heq, filter_app, filter_all, filter_none; [by rewrite app_nil_r|..].
  - intros a Ha Hn. apply Hn. destruct (Hadd a Ha) as (t & Ht & Hv). destruct (added_recorded n0 n added a Hs Heq Hadd Ha) as [_ Hni].
    apply last_at_Some in Ht as [Hin Hid]. assert (Hp : PreExisting t = false).
    { destruct (PreExisting t) eqn:Hp; [|done]. apply (s_pre _ _ Hs t Hin) in Hp. by rewrite Hid in Hp. }
    apply list_elem_of_In, filter_In. split; [|done]. apply list_elem_of_In.
    enough (as_config a = t) as -> by done. destruct t as [k v e p], a as [k' v' e' ta]. unfold cfg_identity, nt_identity in Hid. simpl in *.
    injection Hid as -> ->. by subst.
  - intros u Hu Hin%list_elem_of_In. apply filter_In in Hin as [Hin _]. apply list_elem_of_In in Hin.
    assert (PreExisting (as_config u) = true) as Hp; [|done]. apply (s_pre _ _ Hs _ Hin). change (cfg_identity (as_config u)) with (nt_identity u).
    by apply list_elem_of_fmap_2.
Qed.

Context {W : Type} `{NA : NodeAPI W, NAL : !NodeAPILaws W, SV : !Services W, SVL : !ServicesLaws W, CL : !CacheLaws W}.
Context (r : Reconciler).

Definition session_view (m : gmap string string) (n : Node) : Prop :=
  forall key, key ∈ QuarantineAnnotationKeys -> m !! key = Annotations n !! key.

Lemma view_at m n key : session_view m n -> key ∈ QuarantineAnnotationKeys -> at_key m key = ann n key.
Proof. intros Hv Hk. unfold at_key. by rewrite Hv. Qed.

Ltac in_keys := unfold QuarantineAnnotationKeys; rewrite !elem_of_cons; tauto.

Lemma prepareUncordonParams_ok now event m n p :
  session_view m n -> recorded_ok n -> prepareUncordonParams r now event m = Ok p ->
  up_taints p = List.filter (fun t => negb (PreExisting t)) (recorded n) /\
  up_uncordon p = cordonFlag n && negb (preFlag n) /\
  (ann n QuarantineHealthEventAppliedTaintsAnnotationKey <> ""%string -> QuarantineHealthEventAppliedTaintsAnnotationKey ∈ up_annotations p) /\
  (cordonFlag n = true -> QuarantineHealthEventIsCordonedAnnotationKey ∈ up_annotations p) /\
  (cordonFlag n && preFlag n = true -> QuarantineHealthEventCordonPreExistingAnnotationKey ∈ up_annotations p).
Proof.
  intros Hv Hok. unfold prepareUncordonParams. cbv zeta. rewrite !(view_at m n _ Hv) by in_keys. fold (cordonFlag n) (preFlag n).
  set (tp := if ann n QuarantineHealthEventAppliedTaintsAnnotationKey ==s "" then _ else _).
  destruct tp as [[taints toRemove]|] eqn:Htp; cbn [rbind]; [|done].
  assert (HT : taints = List.filter (fun t => negb (PreExisting t)) (recorded n) /\
    (ann n QuarantineHealthEventAppliedTaintsAnnotationKey <> ""%string -> QuarantineHealthEventAppliedTaintsAnnotationKey ∈ toRemove)).
  { unfold tp, recorded in *. destruct (ann n QuarantineHealthEventAppliedTaintsAnnotationKey ==s "") eqn:He.
    - injection Htp as <- <-. split; [done|]. intros Hn. apply go_eqb_true in He. done.
    - destruct (json_unmarshal _) as [l|]; cbn [rwrap rbind] in Htp; [|done]. injection Htp as <- <-. split; [done|]. intros _. by left. }
  destruct HT as [-> Hk]. destruct (appliedLabelsRemovalParams m) as [[labels la]|]; cbn [rwrap rbind]; [|done].
  destruct (cordonFlag n), (preFlag n); intros Hp; injection Hp as <-; cbn [up_taints up_uncordon up_annotations];
    (split; [done|]); (split; [done|]); rewrite !elem_of_app, ?list_elem_of_singleton; repeat split; intros; try done; tauto.
Qed.

Lemma idle_same n n' : same_session n' n -> idle n -> idle n'.
Proof.
  intros Hs [H1 H2 H3 H4]. destruct (same_session_fields _ _ Hs) as (_ & _ & R3 & R4). destruct Hs as (S1 & _ & S3).
  split; [by rewrite S1|rewrite S3; [done|by left]|by rewrite R3|by rewrite R4].
Qed.

(** The release of a session. *)
Lemma session_release ctx w event m w' stay n0 n1 n :
  DryRun r = false -> validationClient r = false ->
  live w (NodeName event) = Some n1 -> is_Some (m !! QuarantineHealthEventAnnotationKey) ->
  session n0 n1 -> same_session n1 n -> session_view m n ->
  performUncordon r ctx w event m = (w', (stay, None)) ->
  exists n', live w' (NodeName event) = Some n' /\ stay = false /\
    Taints n' = Taints n0 /\ Unschedulable n' = Unschedulable n0 /\ idle n' /\
    IsEmptyValue (ann n' QuarantineHealthEventAnnotationKey) = true.
Proof.
  intros Hd Hvc Hl Hsome Hs Hsame Hv Hp. destruct (performUncordon_ok _ _ _ _ _ _ _ _ Hl Hsome Hp) as (-> & p & p' & L & base & n2 & Hpp & Hl' & A1 & A2 & Hq & Hk & Hval).
  apply (session_same n0 n1 base (agrees_session _ _ A1)) in Hs. apply (same_session_trans base n1 n (agrees_session _ _ A1)) in Hsame.
  clear Hp Hl A1. clear n1. rename base into n1.
  destruct (Hval Hvc) as [Hv1 Hv2]. assert (Hsn : same_session n n1).
  { destruct Hsame as (A & B & C). split; [done|]. split; [done|]. intros. by rewrite C. }
  pose proof (session_same _ _ _ Hsn Hs) as Hs0. destruct (same_session_fields _ _ Hsn) as (R1 & _ & R3 & R4).
  destruct (prepareUncordonParams_ok _ _ _ _ _ Hv (s_text _ _ Hs0) Hpp) as (P1 & P2 & P3 & P4 & P5). rewrite R1, R3, R4 in *.
  exists n2. split; [exact Hl'|]. split; [done|]. set (n' := unquarantineNode _ _ _ _ _ _ _ _) in A2.
  enough (Hn' : Taints n' = Taints n0 /\ Unschedulable n' = Unschedulable n0 /\ idle n' /\
    IsEmptyValue (ann n' QuarantineHealthEventAnnotationKey) = true).
  { destruct Hn' as (T1 & T2 & T3 & T4). pose proof (agrees_session _ _ A2) as S2. rewrite (agrees_record _ _ A2).
    destruct A2 as (B1 & B2 & _). rewrite B1, B2. split; [done|]. split; [done|]. split; [by apply (idle_same n')|done]. }
  destruct (unquarantineNode_spec (labelKeys r) (DryRun r) (up_taints p') (up_uncordon p') (up_annotations p') L (up_labelsMap p') n1) as (U1 & U2 & U3).
  fold n' in U1, U2, U3. rewrite Hd in U1, U2. rewrite Hv1, P1, (release_taints n0 n1 Hs) in U1. rewrite Hv2, P2 in U2.
  split; [done|]. split.
  { rewrite U2, (s_sched _ _ Hs), (s_preflag _ _ Hs). by destruct (cordonFlag n1), (Unschedulable n0). }
  assert (Hgone : forall key, key ∈ up_annotations p -> ann n' key = ""%string).
  { intros key Hin. unfold at_key. rewrite U3, decide_True by auto. done. }
  assert (Hkeep : forall key, ann n' key = ""%string \/ ann n' key = ann n1 key).
  { intros key. unfold at_key. rewrite U3. case_decide; auto. }
  assert (Ht0 : ann n QuarantineHealthEventAppliedTaintsAnnotationKey = ann n1 QuarantineHealthEventAppliedTaintsAnnotationKey).
  { apply Hsn. by left. }
  split; [split|].
  - rewrite U1. pose proof (s_ids _ _ Hs) as Hnd. destruct (s_taints _ _ Hs) as (added & Heq & _). rewrite Heq, fmap_app in Hnd.
    by apply NoDup_app in Hnd as (? & _).
  - destruct (decide (ann n1 QuarantineHealthEventAppliedTaintsAnnotationKey = ""%string)) as [He|Hne].
    + destruct (Hkeep QuarantineHealthEventAppliedTaintsAnnotationKey) as [?|Hx]; [done|]. by rewrite Hx.
    + apply Hgone, P3. by rewrite Ht0.
  - unfold cordonFlag in *. destruct (ann n1 QuarantineHealthEventIsCordonedAnnotationKey ==s AnnotationValueTrue) eqn:Hc.
    + by rewrite Hgone by (by apply P4).
    + destruct (Hkeep QuarantineHealthEventIsCordonedAnnotationKey) as [Hx|Hx]; by rewrite Hx.
  - pose proof (s_preflag _ _ Hs) as Hpf. unfold preFlag in *.
    destruct (ann n1 QuarantineHealthEventCordonPreExistingAnnotationKey ==s AnnotationValueTrue) eqn:Hc.
    + symmetry in Hpf. apply andb_true_iff in Hpf as [Hcf _]. rewrite Hgone; [done|]. apply P5. by rewrite Hcf.
    + destruct (Hkeep QuarantineHealthEventCordonPreExistingAnnotationKey) as [Hx|Hx]; by rewrite Hx.
  - unfold at_key. rewrite U3, decide_True by done. done.
Qed.

(** ** The taints the handlers ask for fit *)

Lemma onNode_spec (l : list NodeTaint) i x :
  NoDup (ids l) -> (fold_left (fun (m : gmap keyEffectTaint string) t => <[nt_identity t := ntValue t]> m) l ∅ !! i = Some x <->
    exists u, u ∈ l /\ nt_identity u = i /\ ntValue u = x).
Proof.
  induction l as [|t l IH] using rev_ind; intros Hnd.
  { simpl. rewrite lookup_empty. split; [done|]. intros (u & Hu & _). by apply not_elem_of_nil in Hu. }
  rewrite fmap_app in Hnd. apply NoDup_app in Hnd as (Hnd & Hdis & _). rewrite fold_left_app. simpl. rewrite lookup_insert_Some, IH by done.
  split.
  - intros [[<- <-]|[Hne (u & Hu & Hr)]]; [exists t|exists u]; rewrite elem_of_app, list_elem_of_singleton; tauto.
  - intros (u & [Hu| ->%list_elem_of_singleton]%elem_of_app & <- & <-); [|by left]. right. split; [|by exists u].
    intros He. apply (Hdis (nt_identity u)); [by apply list_elem_of_fmap_2|]. simpl. rewrite <- He. by apply list_elem_of_singleton.
Qed.

Lemma sessionTaintsToAdd_fits v n T0 T :
  same_session v n -> recorded_ok n -> NoDup (ids (Taints n)) -> (forall t, t ∈ T0 -> PreExisting t = false) ->
  sessionTaintsToAdd v T0 = Ok T -> fits n T.
Proof.
  intros Hs Hok Hnd Hpre. destruct (same_session_fields _ _ Hs) as (R1 & _). destruct Hs as (S1 & _ & S3).
  unfold sessionTaintsToAdd. cbv zeta. rewrite S3 by (by left). rewrite S1.
  set (rec := if ann n QuarantineHealthEventAppliedTaintsAnnotationKey ==s "" then Ok [] else _).
  assert (Hrec : rec = Ok (recorded n)).
  { unfold rec, recorded. destruct Hok as [->|(l & Hl & Ht)]; [done|]. destruct (recorded_text n l Hl Ht) as [_ He].
    by rewrite (not_blank _ He), (json_roundtrip _ _ Ht). }
  rewrite Hrec. cbn [rbind]. intros Hq. injection Hq as <-. intros t. rewrite list_elem_of_omap. intros (t0 & Ht0 & Ht).
  case_bool_decide as Hr; [done|]. rewrite elem_of_list_to_set in Hr.
  destruct (fold_left _ (Taints n) ∅ !! cfg_identity t0) as [value|] eqn:Hon.
  - destruct (value <>s Value t0) eqn:Hval; [done|]. injection Ht as <-. to_prop. apply onNode_spec in Hon as (u & Hu & Hid & Hv); [|done].
    split; [done|]. split.
    + split; [|done]. intros _. change (cfg_identity (mark true t0)) with (cfg_identity t0). rewrite <- Hid. by apply list_elem_of_fmap_2.
    + intros u' Hu' Hid'. change (nt_identity u' = cfg_identity t0) in Hid'. cbn [mark Value]. rewrite <- Hval, <- Hv. f_equal.
      apply list_elem_of_lookup in Hu as [a Ha], Hu' as [b Hb].
      assert (b = a) as -> by (eapply (NoDup_lookup (ids (Taints n))); [done|rewrite list_lookup_fmap, Hb; simpl; by rewrite Hid'|rewrite list_lookup_fmap, Ha; simpl; by rewrite Hid]).
      congruence.
  - injection Ht as <-. assert (Hnone : forall u, u ∈ Taints n -> nt_identity u <> cfg_identity t0).
    { intros u Hu Hid. assert (fold_left (fun (m : gmap keyEffectTaint string) t => <[nt_identity t := ntValue t]> m) (Taints n) ∅ !! cfg_identity t0 = Some (ntValue u)) as Hx
        by (apply onNode_spec; [done|]; eauto). by rewrite Hon in Hx. }
    split; [done|]. split.
    + rewrite (Hpre t0 Ht0). split; [done|]. intros (u & Hu & Hin)%list_elem_of_fmap. by destruct (Hnone u Hin).
    + intros u Hu Hid. by destruct (Hnone u Hu).
Qed.

(** The node has no taint that a rule would give another value. *)
Definition no_conflict (c : rulesetsConfig) (n : Node) : Prop :=
  forall t u, configured c t -> u ∈ Taints n -> nt_identity u = cfg_identity t -> ntValue u = Value t.

Lemma markPreExistingTaints_fits v n T0 :
  agrees v n -> idle n -> no_conflict (rulesets r) n -> (forall t, t ∈ T0 -> PreExisting t = false /\ configured (rulesets r) t) ->
  fits n (markPreExistingTaints v T0).
Proof.
  intros (A1 & _ & _) Hi Hc HT t Ht. unfold markPreExistingTaints in Ht. rewrite A1 in Ht. apply list_elem_of_In, in_map_iff in Ht as (t0 & Heq & Hin%list_elem_of_In).
  destruct (HT t0 Hin) as [Hp Hcf]. rewrite (recorded_idle n (i_text _ Hi)).
  assert (Hid : cfg_identity t = cfg_identity t0 /\ Value t = Value t0) by (subst t; by case_bool_decide). destruct Hid as [Hid Hval].
  split; [apply not_elem_of_nil|]. rewrite Hid, Hval. split.
  - subst t. case_bool_decide as Hb.
    + split; [intros _|done]. apply list_elem_of_fmap in Hb as (u & Hu & Hin'). apply list_elem_of_fmap. exists u. split; [|done].
      unfold cfg_identity, nt_identity. by injection Hu as -> _ ->.
    + rewrite Hp. split; [done|]. intros (u & Hu & Hin')%list_elem_of_fmap. exfalso. apply Hb. apply list_elem_of_fmap. exists u. split; [|done].
      pose proof (Hc t0 u Hcf Hin' (eq_sym Hu)) as Hv. unfold cfg_identity, nt_identity in Hu. unfold as_config. injection Hu as -> ->. by rewrite Hv.
  - intros u Hu Hiu. by apply (Hc t0).
Qed.

Lemma no_conflict_same c n n' : Taints n' = Taints n -> no_conflict c n -> no_conflict c n'.
Proof. intros He Hc t u. rewrite He. apply Hc. Qed.

(** ** One event *)

Lemma prepareAnnotations_ok now v T0 applied labels cordoned m T labels' :
  prepareAnnotations r now v T0 applied labels cordoned = (m, T, labels') ->
  T = markPreExistingTaints v T0 /\
  (m !! QuarantineHealthEventAppliedTaintsAnnotationKey = None /\ T = [] \/
   exists text, m !! QuarantineHealthEventAppliedTaintsAnnotationKey = Some text /\ json_marshal T = Ok text /\ T <> []) /\
  m !! QuarantineHealthEventIsCordonedAnnotationKey = (if cordoned then Some AnnotationValueTrue else None) /\
  m !! QuarantineHealthEventCordonPreExistingAnnotationKey = (if cordoned && Unschedulable v then Some AnnotationValueTrue else None).
Proof.
  unfold prepareAnnotations. cbv zeta.
  set (mt := if (0 <? length T0)%nat then _ else _).
  assert (Hmt : exists m0, mt = (m0, markPreExistingTaints v T0) /\
    (m0 = ∅ /\ markPreExistingTaints v T0 = [] \/ exists text, m0 = {[QuarantineHealthEventAppliedTaintsAnnotationKey := text]} /\
       json_marshal (markPreExistingTaints v T0) = Ok text /\ markPreExistingTaints v T0 <> [])).
  { unfold mt, put_json. destruct T0 as [|t T0]; simpl; [exists ∅; split; [done|]; by left|].
    destruct (json_total (markPreExistingTaints v (t :: T0))) as [text Ht]. simpl in Ht. rewrite Ht. eexists. split; [done|]. right. exists text.
    split; [done|]. split; [done|]. done. }
  destruct Hmt as (m0 & -> & Hm0). set (m1 := if (0 <? length applied)%nat then _ else _).
  assert (Hm1 : forall key, key <> QuarantineHealthEventAppliedLabelsAnnotationKey -> m1 !! key = m0 !! key).
  { intros key Hk. unfold m1, put_json. destruct (0 <? _)%nat; [|done]. destruct (json_marshal applied); [by rewrite lookup_insert_ne by congruence|done]. }
  assert (H0 : forall key, key <> QuarantineHealthEventAppliedTaintsAnnotationKey -> m0 !! key = None).
  { intros key Hk. destruct Hm0 as [[-> _]|(text & -> & _)]; [apply lookup_empty|by rewrite lookup_singleton_ne by congruence]. }
  assert (HT : forall m2 : gmap string string, m2 !! QuarantineHealthEventAppliedTaintsAnnotationKey = m0 !! QuarantineHealthEventAppliedTaintsAnnotationKey ->
    m2 !! QuarantineHealthEventAppliedTaintsAnnotationKey = None /\ markPreExistingTaints v T0 = [] \/
    exists text, m2 !! QuarantineHealthEventAppliedTaintsAnnotationKey = Some text /\ json_marshal (markPreExistingTaints v T0) = Ok text /\ markPreExistingTaints v T0 <> []).
  { intros m2 ->. destruct Hm0 as [[-> Hn]|(text & -> & H1 & H2)]; [left; by rewrite lookup_empty|right]. exists text. by rewrite lookup_singleton_eq. }
  destruct cordoned, (Unschedulable v); intros Hq; injection Hq as <- <- _; (split; [done|]);
    (split; [apply HT; rewrite ?lookup_insert_ne by done; by apply Hm1|]); cbn [andb];
    (split; repeat (rewrite lookup_insert_eq || rewrite lookup_insert_ne by done); try done; rewrite Hm1 by done; by apply H0).
Qed.

Lemma unmarked_session n1 n : unmarked n1 n -> same_session n1 n.
Proof.
  intros (A & B & C). split; [done|]. split; [done|]. intros key Hk. pose proof (session_keys _ Hk) as (_ & _ & _ & K1 & K2 & _).
  unfold at_key. rewrite C; [done|set_solver|done..].
Qed.

(** An idle node in a session is the node before it. *)
Lemma session_idle n0 n : session n0 n -> idle n -> Taints n = Taints n0 /\ Unschedulable n = Unschedulable n0.
Proof.
  intros Hs Hi. split; [|by rewrite (s_sched _ _ Hs), (i_cordon _ Hi), orb_false_r].
  destruct (s_taints _ _ Hs) as ([|a added] & Heq & Hadd); [by rewrite app_nil_r in Heq|]. destruct (Hadd a) as (t & Ht & _); [by left|].
  by rewrite (recorded_idle n (i_text _ Hi)) in Ht.
Qed.

(** The second look of the handler at the node. *)
Lemma second_view ctx w w1 name A (f : Node -> result (Node * A)) x n n1 v :
  (forall v, getNode ctx w name = inl v -> same_session v n) -> update_node w name f = (w1, x) ->
  live w1 name = Some n1 -> same_session n1 n -> getNode ctx w1 name = inl v -> same_session v n1.
Proof.
  intros Hv Hu Hl Hs Hg. assert (Hback : same_session n n1).
  { destruct Hs as (A1 & B1 & C1). split; [done|]. split; [done|]. intros. by rewrite C1. }
  destruct ctx as [|snap eff]; simpl in *.
  - destruct (cached_node w1 name) as [v1|] eqn:Hc; [|done]. injection Hg as <-.
    destruct (cache_after _ _ _ _ _ _ _ Hu Hc) as [Hold|(m & Hm & Hag)].
    + eapply same_session_trans; [|exact Hback]. apply Hv. by rewrite Hold.
    + rewrite Hl in Hm. injection Hm as <-. by apply agrees_session.
  - eapply same_session_trans; [|exact Hback]. by apply Hv.
Qed.

Context (Hlive : DryRun r = false) (Hnoval : validationClient r = false).

Lemma session_actions ctx w event w' n0 n :
  live w (NodeName event) = Some n -> session n0 n ->
  (forall v, getNode ctx w (NodeName event) = inl v -> same_session v n) ->
  applyRuleActionsForEvent r ctx w event = (w', None) ->
  exists n', live w' (NodeName event) = Some n' /\ session n0 n' /\
    ann n' QuarantineHealthEventAnnotationKey = ann n QuarantineHealthEventAnnotationKey.
Proof.
  intros Hn Hs Hview Hap. destruct (applyRuleActionsForEvent_ok _ _ _ _ _ _ Hn Hap) as (v & required & u & Hv & Hlab & Hev & Hb & [[_ Hl]|(n' & b & Hq & Hl)]); [eauto|].
  exists n'. split; [done|]. destruct (build_spec _ _ _ _ _ Hlab Hb) as [Hrec Hst]. destruct (Hst Hlive) as [[Ht1 Ht2] (C1 & C2 & C3)].
  rewrite Hlive in Hq. split; [|by apply (quarantineNode_same_record _ _ _ _ _ _ _ _ Hq Hrec)]. specialize (Hview v Hv).
  pose proof (sessionTaintsToAdd_fits v n (su_taints required) (su_taints u) Hview (s_text _ _ Hs) (s_ids _ _ Hs)) as Hfit.
  assert (Hpre : forall t, t ∈ su_taints required -> PreExisting t = false).
  { unfold evaluateSessionActions in Hev. destruct (evaluateRulesets _ _ _ _ _ _ _) as [s e] eqn:He.
    assert (su_taints required = collectTaintsToApply (taintAppliedMap s)) as ->.
    { destruct (0 <? _)%nat; [destruct (json_marshal _); [|done]|]; by injection Hev as <- _. }
    intros t Ht. replace s with (s, e).1 in Ht by done. rewrite <- He in Ht. by apply desired_configured in Ht as [? _]. }
  destruct (same_session_fields _ _ Hview) as (_ & _ & F1 & _). destruct Hview as (_ & V2 & _).
  set (flag := su_cordon required && negb (cordonFlag n)).
  unfold session_cordon in *. fold (cordonFlag v) in C1, C2, C3. rewrite F1 in C1, C2, C3. rewrite V2 in C2, C3. fold flag in C1, C2, C3.
  apply (session_grow n0 n n' _ _ flag _ _ _ Hs (Hfit Hpre Ht1) Hq Ht2 C1 C2).
  - rewrite C3. by destruct flag, (Unschedulable n).
  - unfold flag. by destruct (su_cordon required), (cordonFlag n).
Qed.

(** A node left by a step of a session: still in it, or idle after its end. *)
Definition stepped (n0 n' : Node) (status : option string) : Prop :=
  session n0 n' /\
  (IsEmptyValue (ann n' QuarantineHealthEventAnnotationKey) = false /\ status <> Some UnQuarantined \/
   idle n' /\ IsEmptyValue (ann n' QuarantineHealthEventAnnotationKey) = true).

(** A recovery of a recorded fault. *)
Lemma recovery_session ctx w event m w' stay perr n0 n :
  live w (NodeName event) = Some n -> node_record_wf n -> IsEmptyValue (ann n QuarantineHealthEventAnnotationKey) = false ->
  IsHealthy event = true -> session n0 n -> is_Some (m !! QuarantineHealthEventAnnotationKey) -> session_view m n ->
  (match removeEventFromAnnotation ctx w event with
   | (w, Err e) => (w, (true, Some (plain e)))
   | (w, Ok updated) => if IsEmpty updated then performUncordon r ctx w event m else (w, (true, None))
   end) = (w', (stay, perr)) -> perr = None ->
  exists n', live w' (NodeName event) = Some n' /\ stepped n0 n' (Some (resolveAlreadyQuarantinedStatus stay)).
Proof.
  intros Hn Hw Hne Hh Hse Hsome Hm. unfold removeEventFromAnnotation.
  destruct (update_node w _ _) as [w1 [he'|e]] eqn:Hu; [|by intros [= _ _ <-]].
  destruct (update_on _ _ _ _ _ _ _ Hn Hu) as (n1 & Hf & Hl1). destruct (removeEvent_ok _ _ _ _ _ Hw Hne Hh Hf) as (R1 & R2 & _ & _).
  destruct (IsEmpty he').
  - intros Hp ->. destruct (session_release ctx w1 event m w' stay n0 n1 n Hlive Hnoval Hl1 Hsome (session_same _ _ _ R1 Hse) R1 Hm Hp)
      as (n' & Hl & _ & T1 & T2 & Hi & Hem).
    exists n'. split; [done|]. split; [|by right]. pose proof (idle_session n' Hi) as [I1 I2 I3 I4 I5 I6].
    split; [done|done|by rewrite <- T1|by rewrite <- T1|by rewrite <- T2|by rewrite <- T2].
  - intros [= <- <- _] _. exists n1. split; [done|]. split; [by apply (session_same _ n)|]. by left.
Qed.

(** A fault on a quarantined node. *)
Lemma fault_session ctx w event he w' stay n0 n :
  live w (NodeName event) = Some n -> node_record_wf n -> IsEmptyValue (ann n QuarantineHealthEventAnnotationKey) = false ->
  session n0 n -> (forall v, getNode ctx w (NodeName event) = inl v -> same_session v n) ->
  handleUnhealthyEventOnQuarantinedNode r ctx w event he = (w', (stay, None)) ->
  exists n', live w' (NodeName event) = Some n' /\ stepped n0 n' (Some (resolveAlreadyQuarantinedStatus stay)).
Proof.
  intros Hn Hw Hne Hse Hview. unfold handleUnhealthyEventOnQuarantinedNode.
  destruct (if isForceQuarantine event then (false, None) else _) as [matched evalErr].
  destruct (negb (isForceQuarantine event) && negb matched); [intros [= <- <- _]; exists n; split; [done|]; split; [done|]; by left|].
  destruct (AddOrUpdateEventFiltered _ _ _) as [he' added].
  destruct (if added then addEventToAnnotation r ctx w event else (w, Ok tt)) as [w1 [x|e]] eqn:Hst; [|by destruct evalErr].
  assert (H1 : exists n1, live w1 (NodeName event) = Some n1 /\ same_session n1 n /\
    IsEmptyValue (ann n1 QuarantineHealthEventAnnotationKey) = false /\ forall v, getNode ctx w1 (NodeName event) = inl v -> same_session v n1).
  { destruct added.
    - unfold addEventToAnnotation in Hst. destruct (update_on _ _ _ _ _ _ _ Hn Hst) as (n1 & Hf & Hl).
      destruct (addEvent_ok _ _ _ _ _ _ Hw Hne Hf) as (R1 & _ & R3 & _). exists n1. split; [done|]. split; [done|]. split; [done|].
      intros v1. by apply (second_view ctx w w1 (NodeName event) _ _ _ n n1 v1 Hview Hst Hl R3).
    - injection Hst as <- _. exists n. split; [done|]. split; [apply same_session_refl|]. done. }
  destruct H1 as (n1 & Hl1 & Hs1 & Hne1 & Hv1). destruct (applyRuleActionsForEvent r ctx w1 event) as [w2 [e|]] eqn:Hap; [by destruct evalErr|].
  intros [= <- <- _]. destruct (session_actions ctx w1 event w2 n0 n1 Hl1 (session_same _ _ _ Hs1 Hse) Hv1 Hap) as (n2 & Hl2 & Hs2 & Hr2).
  exists n2. split; [done|]. split; [done|]. left. rewrite Hr2. done.
Qed.

(** The first fault of a session. *)
Lemma start_session ctx w event annotations v s m taints labels w' status n0 n :
  live w (NodeName event) = Some n -> node_record_wf n -> IsHealthy event = false -> no_conflict (rulesets r) n0 ->
  session n0 n -> idle n -> IsEmptyValue (ann n QuarantineHealthEventAnnotationKey) = true -> agrees v n ->
  (forall t, t ∈ collectTaintsToApply (taintAppliedMap s) -> PreExisting t = false /\ configured (rulesets r) t) ->
  prepareAnnotations r (timestamp w) v (collectTaintsToApply (taintAppliedMap s)) (collectLabelsToApply (appliedLabelsMap s))
    (labelsMap s) (isCordoned s) = (m, taints, labels) ->
  applyQuarantine r ctx w event annotations taints m labels (isCordoned s) = (w', (status, None)) ->
  exists n', live w' (NodeName event) = Some n' /\ stepped n0 n' status.
Proof.
  intros Hn Hw Hh Hnc Hse Hidle Hem Hag Hdes Hpa Hap.
  destruct (applyQuarantine_ok _ _ _ _ _ _ _ _ _ _ _ _ Hn Hap) as [(_ & -> & Hl)|(Hst & n1 & n' & text & m' & b & -> & Hl & Hun & Ht & HA & Hkeys & Hqn)].
  { exists n. split; [done|]. split; [done|]. by right. }
  exists n'. split; [done|]. pose proof (unmarked_session n1 n Hun) as Hs1.
  assert (Hrec : ann n1 QuarantineHealthEventAnnotationKey = ann n QuarantineHealthEventAnnotationKey) by (unfold at_key; by rewrite (proj2 (proj2 Hun)) by (done || apply key_in_record)).
  destruct (same_record n n1 Hrec Hw) as [W1 _].
  destruct (quarantineNode_record ctx event _ _ _ _ _ _ _ _ text W1 Hh Hst Ht HA Hqn) as (Hne' & _).
  split; [|left; split; [done|by destruct b]].
  destruct (prepareAnnotations_ok _ _ _ _ _ _ _ _ _ Hpa) as (-> & PT & PC & PP). rewrite Hlive in Hqn.
  pose proof (session_idle n0 n Hse Hidle) as [HT0 _].
  assert (Hfit : fits n (markPreExistingTaints v (collectTaintsToApply (taintAppliedMap s)))).
  { apply (markPreExistingTaints_fits v n); [done|done|by apply (no_conflict_same _ n0)|done]. }
  destruct Hag as (_ & V2 & _). pose proof Hs1 as (S1 & S2 & _).
  apply (session_grow n0 n1 n' _ _ (isCordoned s) _ _ _ (session_same _ _ _ Hs1 Hse) (fits_same _ _ _ Hs1 Hfit) Hqn).
  - rewrite Hkeys by (by left). done.
  - rewrite Hkeys; [done|]. right. by left.
  - rewrite Hkeys; [by rewrite PP, V2, S2|]. right. right. by left.
  - done.
  - intros _. apply (i_cordon _ (idle_same _ _ Hs1 Hidle)).
Qed.

(** An event on a quarantined node. *)
Lemma quarantined_session ctx w event v w' status n0 n :
  getNode ctx w (NodeName event) = inl v -> agrees v n -> live w (NodeName event) = Some n -> node_record_wf n ->
  IsEmptyValue (ann n QuarantineHealthEventAnnotationKey) = false -> session n0 n ->
  handleAlreadyQuarantinedNode r ctx w event = (w', (status, None)) ->
  exists n', live w' (NodeName event) = Some n' /\ stepped n0 n' status.
Proof.
  intros Hv Hag Hn Hw Hne Hse. destruct (read_record ctx w event v n Hv Hag Hw Hne) as (he & m & Hg & _ & Hwf & Ha & Hm).
  assert (Hsome : is_Some (m !! QuarantineHealthEventAnnotationKey)).
  { rewrite Hm by apply key_in_record. destruct (Annotations n !! _) eqn:Hq'; [eauto|]. unfold at_key in Hne. by rewrite Hq' in Hne. }
  assert (Hview : forall v, getNode ctx w (NodeName event) = inl v -> same_session v n).
  { intros v' Hv'. rewrite Hv in Hv'. injection Hv' as <-. by apply agrees_session. }
  unfold handleAlreadyQuarantinedNode, shouldProcessAlreadyQuarantinedEvent, handleQuarantinedNode. rewrite Hg.
  assert (Hskip : exists n', live w (NodeName event) = Some n' /\ stepped n0 n' None).
  { exists n. split; [done|]. split; [done|]. by left. }
  assert (Hres : forall elig w1 stay perr,
    (if match perr with Some e => errors_Is errQuarantinedNodeNotUpdated e | None => false end
     then (w1, (None, errors_Join [elig; perr])) else (w1, (Some (resolveAlreadyQuarantinedStatus stay), errors_Join [elig; perr]))) = (w', (status, None)) ->
    perr = None /\ w1 = w' /\ status = Some (resolveAlreadyQuarantinedStatus stay)).
  { intros elig w1 stay perr Hq. destruct perr as [e|]; [|by injection Hq as -> <- _]. exfalso.
    assert (exists x, errors_Join [elig; Some e] = Some x) as [x Hx] by (destruct elig; simpl; unfold errors_Join; simpl; eauto).
    rewrite Hx in Hq. by destruct (errors_Is _ e). }
  destruct (IsHealthy event) eqn:Hh; cbn [negb].
  - destruct (GetEvent he event) as [x|]; [rewrite bool_decide_eq_true_2 by eauto|rewrite bool_decide_eq_false_2 by (by intros [])];
      cbn [negb]; [|by intros [= <- <-]].
    destruct (match removeEventFromAnnotation ctx w event with (_, Ok _) => _ | (_, Err _) => _ end) as [w1 [stay perr]] eqn:Hrun. cbv zeta.
    intros (Hp & -> & ->)%Hres. by apply (recovery_session ctx w event m w' stay perr n0 n).
  - destruct (if isForceQuarantine event then (true, None) else _) as [[] elig]; cbn [negb]; [|by intros [= <- <- ->]].
    destruct (handleUnhealthyEventOnQuarantinedNode r ctx w event he) as [w1 [stay perr]] eqn:Hrun. cbv zeta.
    intros (-> & -> & ->)%Hres. by apply (fault_session ctx w event he w' stay n0 n).
Qed.

(** What an event does to a session, when no error is reported. *)
Lemma event_session ctx w event w' status n0 n :
  synced ctx w (NodeName event) -> live w (NodeName event) = Some n -> node_record_wf n -> no_conflict (rulesets r) n0 ->
  session n0 n -> (IsEmptyValue (ann n QuarantineHealthEventAnnotationKey) = true -> idle n) ->
  handleEvent r ctx w event = (w', (status, None)) ->
  exists n', live w' (NodeName event) = Some n' /\ stepped n0 n' status.
Proof.
  intros Hs Hn Hw Hnc Hse Hidle. unfold handleEvent. destruct (hasExistingQuarantine ctx w (NodeName event)) as [[annotations []]|] eqn:Hex; [..|done].
  - pose proof (in_session _ _ _ _ _ Hs Hn Hex) as Hne.
    assert (exists v, getNode ctx w (NodeName event) = inl v) as [v Hv].
    { unfold hasExistingQuarantine in Hex. destruct (getNodeQuarantineAnnotations ctx w (NodeName event)) as [m|] eqn:Hm; [|done].
      by apply getNodeQuarantineAnnotations_view in Hm as (v & Hv & _); exists v. }
    destruct (Hs v Hv) as (n1 & Hn1 & Hag). rewrite Hn in Hn1. injection Hn1 as <-. by apply (quarantined_session ctx w event v w' status n0 n).
  - destruct (no_session _ _ _ _ _ Hs Hn Hex) as (v & Hv & Hag & He). specialize (Hidle He).
    assert (Hstay : exists n', live w (NodeName event) = Some n' /\ stepped n0 n' None).
    { exists n. split; [done|]. split; [done|]. by right. }
    destruct (IsHealthy event) eqn:Hh; [by intros [= <- <-]|]. destruct (evaluateRulesets _ _ _ _ _ _ _) as [s evalErr] eqn:Hev.
    destruct (shouldDeferRecoveryActions ctx evalErr); [by intros [= <- <- _]|]. rewrite Hv.
    destruct (prepareAnnotations r (timestamp w) v _ _ _ _) as [[m taints] labels] eqn:Hpa. destruct (_ && _ && _); [by intros [= <- <- _]|].
    destruct (applyQuarantine r ctx w event annotations taints m labels (isCordoned s)) as [w1 [st qErr]] eqn:Hap. intros Hq.
    injection Hq as <- <- Hj. apply errors_Join_None in Hj. apply Forall_cons in Hj as [_ Hj]. apply Forall_cons in Hj as [-> _].
    apply (start_session ctx w event annotations v s m taints labels w1 st n0 n); try done.
    intros t Ht0. replace s with (s, evalErr).1 in Ht0 by done. rewrite <- Hev in Ht0. by apply desired_configured in Ht0.
Qed.

(** ** Whole sessions *)

(** Events handled without an error, each with a current view, between changes of
    the node by others that leave the session alone. *)
Inductive session_run (name : string) : W -> W -> Prop :=
| run_done w : session_run name w w
| run_event ctx event status w w1 w' : NodeName event = name -> synced ctx w name ->
    handleEvent r ctx w event = (w1, (status, None)) -> session_run name w1 w' -> session_run name w w'
| run_other n n1 w w1 w' : live w name = Some n -> live w1 name = Some n1 -> same_session n1 n ->
    ann n1 QuarantineHealthEventAnnotationKey = ann n QuarantineHealthEventAnnotationKey ->
    session_run name w1 w' -> session_run name w w'.

Definition in_run (n0 n : Node) : Prop :=
  session n0 n /\ node_record_wf n /\ (IsEmptyValue (ann n QuarantineHealthEventAnnotationKey) = true -> idle n).

Lemma run_event_inv ctx event w w1 status name n0 n :
  NodeName event = name -> synced ctx w name -> no_conflict (rulesets r) n0 -> live w name = Some n -> in_run n0 n ->
  handleEvent r ctx w event = (w1, (status, None)) ->
  exists n1, live w1 name = Some n1 /\ in_run n0 n1 /\ (status = Some UnQuarantined -> idle n1 /\ IsEmptyValue (ann n1 QuarantineHealthEventAnnotationKey) = true).
Proof.
  intros <- Hs Hnc Hn (Hse & Hw & Hi) He.
  destruct (event_session ctx w event w1 status n0 n Hs Hn Hw Hnc Hse Hi He) as (n1 & Hl1 & Hs1 & Hor).
  destruct (event_record r ctx w w1 event n status Hs Hn Hw He) as (n1' & Hl1' & Hw1 & _). rewrite Hl1 in Hl1'. injection Hl1' as <-.
  exists n1. split; [done|]. split; [|destruct Hor as [[_ ?]|?]; done]. split; [done|]. split; [done|].
  intros Hem. destruct Hor as [[? _]|[? _]]; congruence.
Qed.

Lemma session_run_inv name w w' n0 : no_conflict (rulesets r) n0 -> session_run name w w' ->
  forall n, live w name = Some n -> in_run n0 n -> exists n', live w' name = Some n' /\ in_run n0 n'.
Proof.
  intros Hnc. induction 1 as [w|ctx event status w w1 w' Hname Hs He _ IH|m m1 w w1 w' Hm Hm1 Hsame Hrec _ IH]; intros n Hn Hin; [eauto|..].
  - destruct (run_event_inv ctx event w w1 status name n0 n Hname Hs Hnc Hn Hin He) as (n1 & Hl & Hin1 & _). eauto.
  - rewrite Hn in Hm. injection Hm as <-. apply (IH m1 Hm1). destruct Hin as (H1 & H2 & H3). split; [by apply (session_same _ n)|].
    split; [unfold node_record_wf; by rewrite Hrec|]. rewrite Hrec. intros He. by apply (idle_same n), H3.
Qed.

(** C1 (release).  For a reconciler that is not in dry-run mode and has no validation
    client (with one, a release may keep taints and cordon until the validation is
    done).  From a node without a session, after any sequence of faults and
    recoveries handled without an error and with current views, interleaved with
    changes by others that leave the session's fields alone: when a recovery ends
    the session, the node has exactly the taints, in order, and the schedulability
    it had before the first fault, no fault on record, and none of the annotations
    that record the session's taints and cordon, provided no rule asks for a taint
    the node has with another value.  Labels and their annotation are not covered. *)
Theorem release_restores (name : string) (w w1 w2 : W) (ctx : Ctx) (event : HealthEvent) (n0 : Node) :
  live w name = Some n0 -> idle n0 -> node_record_wf n0 -> no_conflict (rulesets r) n0 ->
  session_run name w w1 ->
  NodeName event = name -> synced ctx w1 name -> handleEvent r ctx w1 event = (w2, (Some UnQuarantined, None)) ->
  exists n2, live w2 name = Some n2 /\ Taints n2 = Taints n0 /\ Unschedulable n2 = Unschedulable n0 /\ idle n2 /\
    IsEmptyValue (ann n2 QuarantineHealthEventAnnotationKey) = true.
Proof.
  intros Hn Hi Hw Hnc Hrun Hname Hs He.
  destruct (session_run_inv name w w1 n0 Hnc Hrun n0 Hn) as (n1 & Hl1 & Hin); [split; [by apply idle_session|done]|].
  destruct (run_event_inv ctx event w1 w2 (Some UnQuarantined) name n0 n1 Hname Hs Hnc Hl1 Hin He) as (n2 & Hl2 & (Hs2 & _) & Hid).
  destruct (Hid eq_refl) as [Hid2 Hem]. destruct (session_idle n0 n2 Hs2 Hid2). exists n2. auto.
Qed.

End theory.
