(* ===== verification/NodeInformer.v ===== *)
(** * The node informer

    Models [fault-quarantine/pkg/informer/node_informer.go]: the GPU node counter
    and the quarantine index from which the circuit breaker takes its numbers, and
    the detection of an operator's uncordon or untaint.  The shared informer of
    client-go is the environment: it keeps the objects it has observed, pruned by
    [NodeCache.Transform], and queues a notification for the counter per change.

    [node_counts_exact]: the numbers are those of the whole observed nodes.
    [own_writes_unnoticed]: fault-quarantine's own writes are never taken for an
    operator's.  [manual_uncordon_handled_once]: an operator's uncordon ends the
    session, and the clean-up is final. *)

From stdpp Require Import gmap strings list fin_maps.
From Stdlib Require Import ZArith Lia.
From S2P Require Import Prelude HealthEvent AnnotationMap EventRecord KubeRetry StateManager Supersession Residual ColdStart NodeSession NodePatch RuleEval Quarantine NodeCache QuarantineSpec QuarantineSession.

#[local] Open Scope nat_scope.
#[local] Abbreviation Node := NodeSession.Node.
#[local] Abbreviation ann n key := (at_key (Annotations n) key).
#[local] Abbreviation has n key := (bool_decide (is_Some (Annotations n !! key))).

(** ** Counting *)

(** What a handler may be handed. *)
Inductive object :=
| ObjNode (n : Node)
| DeletedFinalStateUnknown (o : object)
| ObjOther.

Inductive notification :=
| NotifyAdd (o : object)
| NotifyUpdate (old new : object)
| NotifyDelete (o : object).

Definition as_node (o : object) : option Node := match o with ObjNode n => Some n | _ => None end.

Section counter.
Context (gpuNodeLabelKey gpuNodeLabelValue : string).

Definition isGPUNode (node : Node) : bool :=
  match Labels node !! gpuNodeLabelKey with Some value => value ==s gpuNodeLabelValue | None => false end.

(** [atomic.Int64.Add] *)
Definition Add (gpuNodes delta : Z) : Z := wrap_int64 (gpuNodes + delta).

Definition countAddedNode (gpuNodes : Z) (obj : object) : Z :=
  match as_node obj with Some node => if isGPUNode node then Add gpuNodes 1 else gpuNodes | None => gpuNodes end.

Definition countUpdatedNode (gpuNodes : Z) (oldObj newObj : object) : Z :=
  match as_node oldObj, as_node newObj with
  | Some oldNode, Some newNode =>
      let wasGPU := isGPUNode oldNode in
      let isGPU := isGPUNode newNode in
      if negb wasGPU && isGPU then Add gpuNodes 1
      else if wasGPU && negb isGPU then Add gpuNodes (-1)
      else gpuNodes
  | _, _ => gpuNodes
  end.

Definition countDeletedNode (gpuNodes : Z) (obj : object) : Z :=
  let obj := match obj with DeletedFinalStateUnknown o => o | _ => obj end in
  match as_node obj with Some node => if isGPUNode node then Add gpuNodes (-1) else gpuNodes | None => gpuNodes end.

Definition countNode (gpuNodes : Z) (note : notification) : Z :=
  match note with
  | NotifyAdd o => countAddedNode gpuNodes o
  | NotifyUpdate old new => countUpdatedNode gpuNodes old new
  | NotifyDelete o => countDeletedNode gpuNodes o
  end.
End counter.

Definition quarantined : string := "quarantined".

Definition quarantineAnnotationIndexFunc (obj : object) : result (list string) :=
  match as_node obj with
  | None => Err "expected node object"
  | Some node =>
      let cordonAnnotation := has node QuarantineHealthEventIsCordonedAnnotationKey in
      let dryRun := has node QuarantineHealthEventDryRunAnnotationKey in
      if cordonAnnotation && Unschedulable node && negb dryRun then Ok [quarantined] else Ok []
  end.

(** The informer: the observed objects, oldest change first; how many of the
    notifications the counter has handled; and how many changes the initial list
    had, once it is complete.  The counter has synced when those are handled. *)
Record NodeInformer := {
  observed : list (gmap string v1Node);
  delivered : list notification;
  queued : list notification;
  listed : option nat;
  gpuNodes : Z }.

Section informer.
Context `{JSON (list AppliedLabel)}.
Context (gpuNodeLabelKey gpuNodeLabelValue : string) (retained : CacheKeys).

Definition cached (o : v1Node) : Node := node_of (Transform retained o).

(** The last observed state, and the store made from it. *)
Definition current (ni : NodeInformer) : gmap string v1Node := default ∅ (last (observed ni)).
Definition store (ni : NodeInformer) : list Node := cached <$> (map_to_list (current ni)).*2.

(** Objects whose index values include the given one. *)
Definition ByIndex (ni : NodeInformer) (value : string) : list Node :=
  List.filter (fun n => match quarantineAnnotationIndexFunc (ObjNode n) with Ok vs => bool_decide (value ∈ vs) | Err _ => false end) (store ni).

Definition HasSynced (ni : NodeInformer) : bool :=
  match listed ni with Some k => (k <=? length (delivered ni))%nat | None => false end.

Definition GetNodeCounts (ni : NodeInformer) : result (Z * gmap string bool) :=
  if negb (HasSynced ni) then Err "node informer cache not synced yet"
  else Ok (gpuNodes ni, fold_left (fun m node => <[Name node := true]> m) (ByIndex ni quarantined) ∅).

(** A change of the observed objects with its notification: a deletion is told
    with the last state that was observed. *)
Inductive observes (s : gmap string v1Node) : notification -> gmap string v1Node -> Prop :=
| observe_add o : s !! oName o = None -> observes s (NotifyAdd (ObjNode (cached o))) (<[oName o := o]> s)
| observe_update old o : s !! oName o = Some old ->
    observes s (NotifyUpdate (ObjNode (cached old)) (ObjNode (cached o))) (<[oName o := o]> s)
| observe_delete o : s !! oName o = Some o -> observes s (NotifyDelete (ObjNode (cached o))) (delete (oName o) s)
| observe_gone o : s !! oName o = Some o ->
    observes s (NotifyDelete (DeletedFinalStateUnknown (ObjNode (cached o)))) (delete (oName o) s).

Definition started : NodeInformer := {| observed := []; delivered := []; queued := []; listed := None; gpuNodes := 0 |}.

Inductive informer_step (ni : NodeInformer) : NodeInformer -> Prop :=
| step_observe note s : observes (current ni) note s -> (Z.of_nat (size s) <= max_int64)%Z ->
    informer_step ni {| observed := observed ni ++ [s]; delivered := delivered ni; queued := queued ni ++ [note];
                        listed := listed ni; gpuNodes := gpuNodes ni |}
| step_deliver note rest : queued ni = note :: rest ->
    informer_step ni {| observed := observed ni; delivered := delivered ni ++ [note]; queued := rest; listed := listed ni;
                        gpuNodes := countNode gpuNodeLabelKey gpuNodeLabelValue (gpuNodes ni) note |}
| step_listed : listed ni = None ->
    informer_step ni {| observed := observed ni; delivered := delivered ni; queued := queued ni;
                        listed := Some (length (observed ni)); gpuNodes := gpuNodes ni |}.

Definition informer_reaches : NodeInformer -> Prop := rtc informer_step started.

End informer.

(** ** Detecting an operator's change *)

Section detection.
Context `{JSON (list Taint)} {S : Type}.
Context (onManualUncordon onManualUntaint : S -> string -> S * option goError).

(** The value of a taint is not compared. *)
Definition hasTaint (node : Node) (expectedTaint : Taint) : bool :=
  existsb (fun taint => (ntKey taint ==s Key expectedTaint) && (ntEffect taint ==s Effect expectedTaint)) (Taints node).

Definition hasMissingTaints (node : Node) (expectedTaints : list Taint) : bool :=
  existsb (fun t => negb (hasTaint node t)) expectedTaints.

(** [taintsAnnotation, ok] and its parse; [None] when there is nothing to check. *)
Definition expectedTaints (node : Node) : option (list Taint) :=
  let text := ann node QuarantineHealthEventAppliedTaintsAnnotationKey in
  if text ==s "" then None
  else match json_unmarshal (A := list Taint) text with Ok l => Some l | Err _ => None end.

Definition checkStaleUncordonState (s : S) (node : Node) : S * bool :=
  if negb (has node QuarantineHealthEventIsCordonedAnnotationKey) || Unschedulable node then (s, false)
  else ((onManualUncordon s (Name node)).1, true).

Definition checkStaleUntaintState (s : S) (node : Node) : S :=
  match expectedTaints node with
  | None => s
  | Some expected => if negb (hasMissingTaints node expected) then s else (onManualUntaint s (Name node)).1
  end.

Definition checkStaleStateOnAdd (s : S) (node : Node) : S :=
  if has node QuarantineHealthEventDryRunAnnotationKey then (onManualUncordon s (Name node)).1
  else
    let '(s, handled) := checkStaleUncordonState s node in
    if handled : bool then s else checkStaleUntaintState s node.

Definition handleAddNode (s : S) (obj : object) : S :=
  match as_node obj with None => s | Some node => checkStaleStateOnAdd s node end.

Definition detectAndHandleManualUncordon (s : S) (oldNode newNode : Node) : S * bool :=
  if negb (Unschedulable oldNode) || Unschedulable newNode then (s, false)
  else if negb (has newNode QuarantineHealthEventIsCordonedAnnotationKey) then (s, false)
  else ((onManualUncordon s (Name newNode)).1, true).

Definition detectAndHandleManualUntaint (s : S) (oldNode newNode : Node) : S * bool :=
  match expectedTaints newNode with
  | None => (s, false)
  | Some expected =>
      let taintWasRemoved := existsb (fun t => hasTaint oldNode t && negb (hasTaint newNode t)) expected in
      if negb taintWasRemoved then (s, false) else ((onManualUntaint s (Name newNode)).1, true)
  end.

Definition handleUpdateNode (s : S) (oldNode newNode : Node) : S :=
  let '(s, _) := detectAndHandleManualUncordon s oldNode newNode in
  (detectAndHandleManualUntaint s oldNode newNode).1.

Definition handleUpdateNodeWrapper (s : S) (oldObj newObj : object) : S :=
  match as_node oldObj, as_node newObj with
  | Some oldNode, Some newNode => handleUpdateNode s oldNode newNode
  | _, _ => s
  end.

(** The deletion callback is registered or nil. *)
Definition handleDeleteNode (onQuarantinedNodeDeleted : option (S -> string -> S)) (s : S) (obj : object) : S :=
  let found := match obj with
               | ObjNode node => Some node
               | DeletedFinalStateUnknown o => as_node o
               | ObjOther => None
               end in
  match found, onQuarantinedNodeDeleted with
  | Some node, Some callback => if has node QuarantineHealthEventIsCordonedAnnotationKey then callback s (Name node) else s
  | _, _ => s
  end.

End detection.

(** ** The counts *)

Section counts.
Context `{NodeFieldPaths} `{JL : JSON (list AppliedLabel)}.
Context (cfg : CacheConfig) (gpuNodeLabelKey gpuNodeLabelValue : string) (Hkey : gpuNodeLabelKey <> ""%string).

#[local] Abbreviation retained := (Derive cfg {| GPUNodeLabelKey := gpuNodeLabelKey |}).
#[local] Abbreviation gpu := (isGPUNode gpuNodeLabelKey gpuNodeLabelValue).
#[local] Abbreviation gpu_entry := (fun kv : string * v1Node => gpu (node_of kv.2) = true).

(** GPU nodes among the observed ones. *)
Definition gpu_count (s : gmap string v1Node) : Z := Z.of_nat (size (filter gpu_entry s)).

(** The observed objects after [k] changes. *)
Definition observed_at (ni : NodeInformer) (k : nat) : gmap string v1Node := default ∅ (last (take k (observed ni))).

Lemma gpu_cached o : gpu (cached retained o) = gpu (node_of o).
Proof. unfold isGPUNode, cached. by rewrite (proj1 (Transform_shows retained o)) by (by apply Derive_gpu). Qed.

Lemma gpu_count_insert s o : s !! oName o = None ->
  gpu_count (<[oName o := o]> s) = (gpu_count s + if gpu (node_of o) then 1 else 0)%Z.
Proof.
  intros Hs. unfold gpu_count. destruct (gpu (node_of o)) eqn:Hg.
  - rewrite map_filter_insert_True by done. rewrite map_size_insert_None; [lia|]. apply map_lookup_filter_None. by left.
  - rewrite map_filter_insert_False by (simpl; congruence). rewrite delete_id by done. lia.
Qed.

Lemma gpu_count_delete s o : s !! oName o = Some o ->
  gpu_count (delete (oName o) s) = (gpu_count s - if gpu (node_of o) then 1 else 0)%Z.
Proof.
  intros Hs. rewrite <- (insert_delete_id s (oName o) o Hs) at 2. rewrite gpu_count_insert by apply lookup_delete_eq. lia.
Qed.

Lemma gpu_count_size s : (0 <= gpu_count s <= Z.of_nat (size s))%Z.
Proof. unfold gpu_count. pose proof (map_size_filter gpu_entry s). lia. Qed.

(** Entries sit under their names. *)
Definition keyed (s : gmap string v1Node) : Prop := forall name o, s !! name = Some o -> oName o = name.

Lemma observes_keyed s note s' : keyed s -> observes retained s note s' -> keyed s'.
Proof.
  intros Hk Ho name o. destruct Ho; (rewrite lookup_insert_Some || rewrite lookup_delete_Some); intros Hl; destruct_and?; destruct_or?; destruct_and?; subst; eauto.
Qed.

Lemma count_observes s note s' g : keyed s -> observes retained s note s' -> (Z.of_nat (size s') <= max_int64)%Z ->
  g = gpu_count s -> countNode gpuNodeLabelKey gpuNodeLabelValue g note = gpu_count s'.
Proof.
  intros Hk Ho Hmax ->. pose proof (gpu_count_size s) as B. pose proof (gpu_count_size s') as B'.
  assert (Hadd : forall d, (gpu_count s + d = gpu_count s')%Z -> Add (gpu_count s) d = gpu_count s').
  { intros d Hd. unfold Add. rewrite Hd. apply wrap_int64_id. unfold in_int64, min_int64. lia. }
  destruct Ho as [o Hs|old o Hs|o Hs|o Hs]; simpl; unfold countAddedNode, countUpdatedNode, countDeletedNode; simpl; rewrite ?gpu_cached.
  - rewrite gpu_count_insert in * by done. destruct (gpu (node_of o)); [|lia]. by apply Hadd.
  - assert (Hd : gpu_count (<[oName o := o]> s) =
      (gpu_count s - (if gpu (node_of old) then 1 else 0) + if gpu (node_of o) then 1 else 0)%Z).
    { rewrite <- insert_delete_eq, gpu_count_insert by apply lookup_delete_eq. rewrite <- (Hk _ _ Hs) in Hs |- *. by rewrite gpu_count_delete. }
    destruct (gpu (node_of old)), (gpu (node_of o)); simpl; try (apply Hadd; lia); lia.
  - rewrite gpu_count_delete in * by done. destruct (gpu (node_of o)); [apply Hadd|]; lia.
  - rewrite gpu_count_delete in * by done. destruct (gpu (node_of o)); [apply Hadd|]; lia.
Qed.

(** Every notification tells the change at its place, and the counter has
    followed those it handled. *)
Record following (ni : NodeInformer) : Prop := {
  fo_length : length (observed ni) = length (delivered ni ++ queued ni);
  fo_told i note : (delivered ni ++ queued ni) !! i = Some note ->
    observes retained (observed_at ni i) note (observed_at ni (S i)) /\ (Z.of_nat (size (observed_at ni (S i))) <= max_int64)%Z;
  fo_keyed i : keyed (observed_at ni i);
  fo_count : gpuNodes ni = gpu_count (observed_at ni (length (delivered ni)));
  fo_listed k : listed ni = Some k -> k <= length (observed ni) }.

Lemma observed_at_all ni : observed_at ni (length (observed ni)) = current ni.
Proof. unfold observed_at, current. by rewrite take_ge. Qed.

Lemma following_step ni ni' : following ni -> informer_step gpuNodeLabelKey gpuNodeLabelValue retained ni ni' -> following ni'.
Proof.
  intros [F1 F2 F3 F4 F5] Hst. destruct Hst as [note s Ho Hmax|note rest Hq|Hl].
  - rewrite <- observed_at_all in Ho.
    assert (Hold : forall i, i <= length (observed ni) -> default ∅ (last (take i (observed ni ++ [s]))) = observed_at ni i)
      by (intros i Hi; unfold observed_at; by rewrite take_app_le).
    assert (Hnew : forall i, length (observed ni) < i -> default ∅ (last (take i (observed ni ++ [s]))) = s)
      by (intros i Hi; rewrite take_ge by (rewrite length_app; simpl; lia); by rewrite last_snoc).
    assert (Hs : keyed s) by (by eapply observes_keyed).
    split; simpl; unfold observed_at; simpl.
    + rewrite app_assoc, !(length_app _ [_]), F1. done.
    + intros i n. rewrite app_assoc. intros [Hi|[Hi Hn]]%lookup_app_Some.
      * pose proof (lookup_lt_Some _ _ _ Hi). rewrite !Hold by lia. by apply F2.
      * apply list_lookup_singleton_Some in Hn as [Hi' <-]. assert (i = length (observed ni)) as -> by lia.
        by rewrite Hold, Hnew by lia.
    + intros i. destruct (decide (i <= length (observed ni))); [rewrite Hold by done; apply F3|by rewrite Hnew by lia].
    + rewrite Hold; [done|]. rewrite F1, length_app. lia.
    + intros k Hk. apply F5 in Hk. rewrite length_app. lia.
  - rewrite Hq in F1, F2. split; simpl.
    + rewrite <- app_assoc. done.
    + intros i n. rewrite <- app_assoc. apply F2.
    + apply F3.
    + rewrite length_app, Nat.add_1_r. destruct (F2 (length (delivered ni)) note) as [Ho Hm]; [by apply list_lookup_middle|].
      by eapply count_observes.
    + done.
  - split; simpl; try done. by intros k [= <-].
Qed.

Lemma following_reaches ni : informer_reaches gpuNodeLabelKey gpuNodeLabelValue retained ni -> following ni.
Proof.
  unfold informer_reaches. revert ni. apply (rtc_ind_r (fun ni => following ni)).
  - split; [done| | |done|done].
    + intros [|i] n Hn; done.
    + intros i. unfold observed_at. simpl. rewrite take_nil. by intros ??.
  - intros ni ni' _ Hst Hf. by eapply following_step.
Qed.

(** Cordoned by fault-quarantine, and not as a dry run. *)
Definition counts_quarantined (o : v1Node) : Prop :=
  is_Some (Annotations (node_of o) !! QuarantineHealthEventIsCordonedAnnotationKey) /\ oUnschedulable o = true /\
  Annotations (node_of o) !! QuarantineHealthEventDryRunAnnotationKey = None.

Lemma index_cached o :
  quarantineAnnotationIndexFunc (ObjNode (cached retained o)) = Ok [quarantined] /\ counts_quarantined o \/
  quarantineAnnotationIndexFunc (ObjNode (cached retained o)) = Ok [] /\ ~ counts_quarantined o.
Proof.
  pose proof (proj2 (Transform_shows retained o)) as Hs. destruct (Derive_operational cfg {| GPUNodeLabelKey := gpuNodeLabelKey |}) as [Ho _].
  unfold quarantineAnnotationIndexFunc, counts_quarantined. cbn [as_node]. unfold cached.
  rewrite !Hs by (apply Ho; unfold QuarantineAnnotationKeys; set_solver).
  change (Unschedulable (node_of (Transform retained o))) with (oUnschedulable o).
  destruct (Annotations (node_of o) !! QuarantineHealthEventIsCordonedAnnotationKey) eqn:H1, (oUnschedulable o), (Annotations (node_of o) !! QuarantineHealthEventDryRunAnnotationKey) eqn:H2;
    [right|left|right..]; (split; [done|]); rewrite ?is_Some_alt; naive_solver.
Qed.

Lemma fold_names (l : list Node) (m : gmap string bool) name :
  fold_left (fun m node => <[Name node := true]> m) l m !! name = if decide (name ∈ Name <$> l) then Some true else m !! name.
Proof.
  revert m. induction l as [|n l IH]; intros m; simpl; [done|]. rewrite IH. destruct (decide (name = Name n)) as [->|Hne].
  - rewrite lookup_insert_eq. rewrite (decide_True (P := Name n ∈ Name n :: _)) by (by left). by case_decide.
  - rewrite lookup_insert_ne by congruence. apply decide_ext. rewrite elem_of_cons. naive_solver.
Qed.

Lemma by_index_names ni name : keyed (current ni) ->
  name ∈ Name <$> ByIndex retained ni quarantined <-> exists o, current ni !! name = Some o /\ counts_quarantined o.
Proof.
  intros Hk. unfold ByIndex, store. rewrite list_elem_of_fmap. split.
  - intros (n & -> & Hn). apply list_elem_of_In, filter_In in Hn as [Hn Hq]. apply list_elem_of_In, list_elem_of_fmap in Hn as (o & -> & Ho).
    apply list_elem_of_fmap in Ho as ([x y] & -> & Ho%elem_of_map_to_list). simpl. exists y. rewrite (Hk _ _ Ho). split; [done|].
    simpl in Hq. destruct (index_cached y) as [[_ ?]|[He _]]; [done|]. by rewrite He in Hq.
  - intros (o & Ho & Hq). exists (cached retained o). split; [symmetry; exact (Hk _ _ Ho)|]. apply list_elem_of_In, filter_In. split.
    + apply list_elem_of_In, list_elem_of_fmap. exists o. split; [done|]. apply list_elem_of_fmap. exists (name, o). split; [done|].
      by apply elem_of_map_to_list.
    + destruct (index_cached o) as [[-> _]|[_ ?]]; [by vm_compute|done].
Qed.

(** C12 (the breaker's numbers).  Whatever the order in which nodes come, change and
    go and in which the counter is told: once [GetNodeCounts] answers, its total is
    the exact number of GPU nodes, never negative and never more than the nodes,
    among the nodes as observed at some moment not before the end of the initial
    list, the present moment if the counter has nothing left to handle; and its set
    is exactly the nodes now cordoned by fault-quarantine outside a dry run.  Both
    are read off pruned objects and are true of the whole ones. *)
Theorem node_counts_exact (ni : NodeInformer) (total : Z) (names : gmap string bool) :
  informer_reaches gpuNodeLabelKey gpuNodeLabelValue retained ni -> GetNodeCounts retained ni = Ok (total, names) ->
  (exists k, default 0 (listed ni) <= k <= length (observed ni) /\ (queued ni = [] -> k = length (observed ni)) /\
     total = gpu_count (observed_at ni k) /\ (0 <= total <= Z.of_nat (size (observed_at ni k)))%Z) /\
  (forall name, names !! name = Some true <-> exists o, current ni !! name = Some o /\ counts_quarantined o).
Proof.
  intros [F1 F2 F3 F4 F5]%following_reaches. unfold GetNodeCounts, HasSynced.
  destruct (listed ni) as [l|] eqn:Hl; [|done]. simpl. destruct (l <=? length (delivered ni)) eqn:Hd; [|done]. apply Nat.leb_le in Hd.
  intros [= <- <-]. split.
  - exists (length (delivered ni)). rewrite F1, length_app. split; [lia|]. split; [intros ->; simpl; lia|]. split; [done|].
    rewrite F4. apply gpu_count_size.
  - intros name. rewrite fold_names. rewrite <- by_index_names by (rewrite <- observed_at_all; apply F3).
    case_decide; [done|]. by rewrite lookup_empty.
Qed.
End counts.

(** ** Whose change it was *)

(** Applying taints removes none. *)
Lemma applyTaints_ids l T i : i ∈ ids l -> i ∈ ids (fold_left applyTaint T (uniqueTaints l)).2.
Proof.
  intros Hi. induction T as [|t T IH] using rev_ind.
  - simpl. pose proof uniqueTaints_indexed as Hix. unfold uniqueTaints in *. induction l as [|t l IH] using rev_ind; [done|].
    specialize (Hix l). rewrite fold_left_app. simpl. destruct (fold_left _ l _) as [m u] eqn:Hf. simpl in IH. rewrite fmap_app, elem_of_app in Hi.
    destruct (m !! nt_identity t) eqn:Hm; simpl.
    + destruct Hi as [Hi|Hi%list_elem_of_singleton]; [by apply IH|]. subst i. apply dec_stable. intros Hn.
      apply (indexed_missing (m, u)) in Hn; [simpl in Hn; congruence|done].
    + rewrite fmap_app, elem_of_app. destruct Hi as [Hi|Hi]; [left; by apply IH|by right].
  - rewrite fold_left_app. simpl. destruct (fold_left applyTaint T _) as [m u]. unfold applyTaint. destruct (m !! cfg_identity t) as [k|]; simpl in *.
    + enough (ids (alter (set_value (Value t)) k u) = ids u) as -> by done. apply list_eq. intros j. rewrite !list_lookup_fmap.
      destruct (decide (j = k)) as [->|Hne]; [|by rewrite list_lookup_alter_ne]. rewrite list_lookup_alter_eq. by destruct (u !! k).
    + rewrite fmap_app, elem_of_app. by left.
Qed.

Lemma hasTaint_spec n t : hasTaint n t = true <-> cfg_identity t ∈ ids (Taints n).
Proof.
  unfold hasTaint. rewrite existsb_exists, list_elem_of_fmap. split.
  - intros (x & Hx & [H1%go_eqb_true H2%go_eqb_true]%andb_true_iff). exists x. split; [unfold cfg_identity, nt_identity; congruence|by apply list_elem_of_In].
  - intros (x & He & Hx). exists x. split; [by apply list_elem_of_In|]. unfold cfg_identity, nt_identity in He. injection He as <- <-.
    by rewrite !(proj2 (go_eqb_true _ _) eq_refl).
Qed.

Section unnoticed.
Context `{JT : JSON (list Taint)}.

(** No callback is called for the transition. *)
Definition unnoticed (n n' : Node) : Prop :=
  forall (S : Type) (onUncordon onUntaint : S -> string -> S * option goError) (s : S), handleUpdateNode onUncordon onUntaint s n n' = s.

Lemma unnoticed_intro n n' :
  (Unschedulable n = true -> Unschedulable n' = false -> Annotations n' !! QuarantineHealthEventIsCordonedAnnotationKey = None) ->
  (ann n' QuarantineHealthEventAppliedTaintsAnnotationKey <> ""%string -> forall i, i ∈ ids (Taints n) -> i ∈ ids (Taints n')) ->
  unnoticed n n'.
Proof.
  intros Hu Ht S f g s. unfold handleUpdateNode, detectAndHandleManualUncordon, detectAndHandleManualUntaint, expectedTaints.
  assert (Hun : (if negb (Unschedulable n) || Unschedulable n' then (s, false) else
    if negb (has n' QuarantineHealthEventIsCordonedAnnotationKey) then (s, false) else ((f s (Name n')).1, true)) = (s, false)).
  { destruct (Unschedulable n), (Unschedulable n'); try done. simpl. by rewrite Hu. }
  rewrite Hun. destruct (ann n' _ ==s "") eqn:He; [done|]. apply go_eqb_false in He. destruct (json_unmarshal _) as [l|]; [|done].
  assert (existsb (fun t => hasTaint n t && negb (hasTaint n' t)) l = false) as ->; [|done].
  apply not_true_is_false. intros (t & _ & [H1 H2]%andb_true_iff)%existsb_exists. apply hasTaint_spec in H1.
  apply negb_true_iff, not_true_iff_false in H2. apply H2, hasTaint_spec. by apply Ht.
Qed.

Lemma unnoticed_via base desired n n' : agrees base n -> agrees n' desired ->
  (Unschedulable base = true -> Unschedulable desired = false -> Annotations desired !! QuarantineHealthEventIsCordonedAnnotationKey = None) ->
  (ann desired QuarantineHealthEventAppliedTaintsAnnotationKey <> ""%string -> forall i, i ∈ ids (Taints base) -> i ∈ ids (Taints desired)) ->
  unnoticed n n'.
Proof.
  intros (A1 & A2 & _) (B1 & B2 & B3) Hu Ht. unfold at_key in Ht. apply unnoticed_intro; unfold at_key; rewrite B3 by (unfold QuarantineAnnotationKeys; set_solver).
  - rewrite B2, <- A2. done.
  - rewrite B1, <- A1. done.
Qed.

Lemma untouched_unnoticed n n' : Taints n' = Taints n -> Unschedulable n' = Unschedulable n -> unnoticed n n'.
Proof. intros Ht Hu. apply unnoticed_intro; rewrite ?Ht, ?Hu; [congruence|done]. Qed.
End unnoticed.

Section writes.
Context {MR : MapRange} {MRL : MapRangeLaws} {SC : SlotCodec} {CR : CelRules} {SCH : Scheduler}.
Context `{JT : JSON (list Taint)} `{JL : JSON (list AppliedLabel)} `{JV : JSON (list HealthEventWithTests)}.
Context `{JE : JSON (list HealthEvent)} `{JS : JSON HealthEvent}.
Context {W : Type} `{NA : NodeAPI W, SV : !Services W}.
Context (r : Reconciler).

(** The mutations the reconciler hands to [UpdateNode]. *)
Inductive own_write (base : Node) : Node -> Prop :=
| own_session dryRun taints cordon annotations labels n already :
    quarantineNode dryRun taints cordon annotations labels base = Ok (n, already) -> own_write base n
| own_add ctx event n : addEvent (W := W) r ctx event base = Ok (n, tt) -> own_write base n
| own_remove ctx event n he : removeEvent ctx event base = Ok (n, he) -> own_write base n
| own_unmark key : own_write base (with_annotations base (delete key (Annotations base)))
| own_release ctx (w w' : W) event annotations now p keys p' created labels :
    prepareUncordonParams r now event annotations = Ok p -> (forall k, k ∈ up_annotations p -> k ∈ keys) ->
    triggerValidationOnUnquarantine r ctx w event annotations
      {| up_taints := up_taints p; up_annotations := keys; up_labels := up_labels p; up_uncordon := up_uncordon p;
         up_labelsMap := up_labelsMap p |} = (w', inl (p', created)) ->
    own_write base (unquarantineNode (labelKeys r) (DryRun r) (up_taints p') (up_uncordon p') (up_annotations p') labels (up_labelsMap p') base)
| own_uncordon_cleanup remove add labels conditional :
    own_write base (manualUncordonCleanup (DryRun r) remove add labels conditional base)
| own_untaint_cleanup remove add labels : own_write base (manualUntaintCleanup (DryRun r) remove add labels base).

Lemma with_annotations_self n : with_annotations n (Annotations n) = n.
Proof. by destruct n. Qed.

Lemma addEvent_annotations ctx event base n u : addEvent (W := W) r ctx event base = Ok (n, u) -> exists m, n = with_annotations base m.
Proof.
  unfold addEvent. cbv zeta. destruct (if at_key _ _ ==s "" then _ else _) as [he|]; cbn [rbind]; [|done].
  destruct (AddOrUpdateEventFiltered _ _ _) as [he' []]; simpl; [|intros [= <- _]; by eexists].
  destruct (rwrap _ (marshalRecord he')) as [text|]; cbn [rbind]; [|done].
  destruct (updateValidationAnnotation _ _) as [m|]; cbn [rbind]; [|done]. intros [= <- _]. by eexists.
Qed.

Lemma removeEvent_annotations ctx event base n he : removeEvent ctx event base = Ok (n, he) -> exists m, n = with_annotations base m.
Proof.
  unfold removeEvent. cbv zeta. destruct (_ ==s ""); [intros [= <- _]; eexists; symmetry; apply with_annotations_self|].
  destruct (rwrap _ (parseHealthEventsAnnotation _ _)) as [h|]; cbn [rbind]; [|done].
  destruct (RemoveEventFiltered _ _ _) as [h' removed]. destruct (_ =? 0)%nat; [intros [= <- _]; eexists; symmetry; apply with_annotations_self|].
  destruct (IsEmpty h'); [intros [= <- _]; eexists; symmetry; apply with_annotations_self|].
  destruct (rwrap _ (marshalRecord h')) as [text|]; cbn [rbind]; [|done]. intros [= <- _]. by eexists.
Qed.

Lemma removeLabels_spec dry l n : Taints (removeLabels dry l n) = Taints n /\ Unschedulable (removeLabels dry l n) = Unschedulable n /\
  Annotations (removeLabels dry l n) = Annotations n.
Proof. unfold removeLabels. by destruct (_ =? 0)%nat, dry. Qed.

Lemma manualUncordonCleanup_spec dry remove add labels conditional n :
  let n' := manualUncordonCleanup dry remove add labels conditional n in
  Taints n' = Taints n /\ Unschedulable n' = Unschedulable n /\ Annotations n' = add ∪ fold_left (fun m k => delete k m) remove (Annotations n).
Proof.
  unfold manualUncordonCleanup. cbv zeta. set (n1 := removeLabels _ _ _). destruct (removeLabels_spec dry labels (updateNodeAnnotationsForManualUncordon remove add n)) as (H1 & H2 & H3).
  fold n1 in H1, H2, H3. simpl in H1, H2, H3. rewrite <- H1, <- H2, <- H3. destruct conditional as [c|]; [|done]. destruct (_ && _); [apply removeLabels_spec|done].
Qed.

(** An uncordoning release removes the mark of the cordon, one that takes taints
    away the list of taints. *)
Lemma prepare_keys now event m p : prepareUncordonParams r now event m = Ok p ->
  (up_uncordon p = true -> QuarantineHealthEventIsCordonedAnnotationKey ∈ up_annotations p) /\
  (up_taints p <> [] -> QuarantineHealthEventAppliedTaintsAnnotationKey ∈ up_annotations p).
Proof.
  unfold prepareUncordonParams. cbv zeta. set (tp := if _ ==s "" then Ok ([], []) else _). destruct tp as [[taints rm]|] eqn:Htp; cbn [rbind]; [|done].
  assert (HT : taints <> [] -> QuarantineHealthEventAppliedTaintsAnnotationKey ∈ rm).
  { unfold tp in Htp. destruct (_ ==s ""); [by injection Htp as <- <-|]. destruct (json_unmarshal _); cbn [rwrap rbind] in Htp; [|done].
    injection Htp as _ <-. intros _. by left. }
  destruct (appliedLabelsRemovalParams m) as [[labels la]|]; cbn [rwrap rbind]; [|done].
  destruct (_ ==s AnnotationValueTrue); [destruct (_ ==s AnnotationValueTrue)|]; intros [= <-]; cbn [up_taints up_uncordon up_annotations];
    rewrite !elem_of_app, ?list_elem_of_singleton; split; intros; try done; tauto.
Qed.

Lemma trigger_keys ctx (w w' : W) event m p p' created : triggerValidationOnUnquarantine r ctx w event m p = (w', inl (p', created)) ->
  (up_uncordon p' = true -> up_uncordon p = true) /\ (up_taints p' <> [] -> up_taints p <> []) /\
  (forall k, k ∈ up_annotations p -> k ∈ up_annotations p').
Proof.
  unfold triggerValidationOnUnquarantine. destruct (m !! _); [|by intros [= <- <- <-]].
  destruct (createValidationRequestIfRequested _ _ _ _ _) as [w1 [c|]]; [|done]. intros [= <- <- <-].
  destruct c; simpl; (split; [done|]); (split; [done|]); intros k Hk; apply elem_of_app; by left.
Qed.

(** C13 (own writes).  Nothing fault-quarantine writes to a node, quarantining it,
    growing or releasing a session, recording or cleaning up, in a dry run or not
    and from whatever cached view, reaches the informer as a change for which it
    would call the manual uncordon or the manual untaint handler. *)
Theorem own_writes_unnoticed (base desired n : Node) :
  own_write base desired -> agrees base n -> unnoticed n (rebase base desired n).
Proof.
  intros Hw Ha. assert (Hb : agrees (rebase base desired n) desired) by (by apply rebase_agrees).
  apply (unnoticed_via base desired n _ Ha Hb); clear Ha Hb n;
    destruct Hw as [d T c A L n b Hq|ctx event n Hq|ctx event n he Hq|key|ctx w w' event m now p keys p' created labels Hp Hk Ht|remove add labels cl|remove add labels];
    try (destruct (addEvent_annotations _ _ _ _ _ Hq) as [m ->]; simpl; congruence); try (destruct (removeEvent_annotations _ _ _ _ _ Hq) as [m ->]; simpl; congruence);
    try (simpl; congruence).
  - destruct (quarantineNode_spec _ _ _ _ _ _ _ _ Hq) as (_ & _ & _ & -> & _). by destruct (Unschedulable base).
  - destruct (unquarantineNode_spec (labelKeys r) (DryRun r) (up_taints p') (up_uncordon p') (up_annotations p') labels (up_labelsMap p') base) as (_ & U2 & U3).
    rewrite U2, U3. destruct (prepare_keys _ _ _ _ Hp) as [P1 _], (trigger_keys _ _ _ _ _ _ _ _ Ht) as (T1 & _ & T3). intros Hb.
    destruct (up_uncordon p') eqn:Hup; simpl; [|congruence]. intros _. rewrite decide_True; [done|]. apply T3, Hk, P1. by apply T1.
  - intros U. rewrite (proj1 (proj2 (manualUncordonCleanup_spec _ _ _ _ _ _))). congruence.
  - unfold manualUntaintCleanup. intros U. rewrite (proj1 (proj2 (removeLabels_spec _ _ _))). simpl. congruence.
  - intros _ i Hi. destruct (quarantineNode_spec _ _ _ _ _ _ _ _ Hq) as (_ & _ & -> & _). destruct (_ || _); [done|]. by apply applyTaints_ids.
  - destruct (unquarantineNode_spec (labelKeys r) (DryRun r) (up_taints p') (up_uncordon p') (up_annotations p') labels (up_labelsMap p') base) as (U1 & _ & U3).
    rewrite U1. unfold at_key. rewrite U3. destruct (prepare_keys _ _ _ _ Hp) as [_ P2], (trigger_keys _ _ _ _ _ _ _ _ Ht) as (_ & T2 & T3).
    destruct (up_taints p') as [|t T] eqn:HT.
    + intros _ i Hi. destruct (DryRun r); [done|]. rewrite filter_all; [done|]. intros. apply not_elem_of_nil.
    + rewrite decide_True; [done|]. apply T3, Hk, P2. by apply T2.
  - intros _. by rewrite (proj1 (manualUncordonCleanup_spec _ _ _ _ _ _)).
  - intros _. unfold manualUntaintCleanup. by rewrite (proj1 (removeLabels_spec _ _ _)).
Qed.
End writes.

(** ** An operator takes the node over *)

Section manual.
Context {MR : MapRange} {MRL : MapRangeLaws} {SC : SlotCodec} {CR : CelRules} {SCH : Scheduler}.
Context `{JT : JSON (list Taint)} `{JL : JSON (list AppliedLabel)} `{JV : JSON (list HealthEventWithTests)}.
Context `{JE : JSON (list HealthEvent)} `{JS : JSON HealthEvent}.
Context {W : Type} `{NA : NodeAPI W, NAL : !NodeAPILaws W, SV : !Services W, SVL : !ServicesLaws W}.
Context (r : Reconciler) (eventWatcher : bool).

#[local] Abbreviation on_update := (handleUpdateNode (handleManualUncordon r eventWatcher) (handleManualUntaint r eventWatcher)).

Lemma cancelEvents_live (w : W) node reason name : live (cancelEvents eventWatcher w node reason) name = live w name.
Proof.
  unfold cancelEvents. destruct eventWatcher; [|done]. destruct (CancelLatestQuarantiningEvents w node reason) as [w' x] eqn:Hc.
  simpl. by eapply cancel_live.
Qed.

(** The keys that are present are removed, whichever view they are read from. *)
Lemma manual_keys_gone (m base add : gmap string string) more key :
  key ∈ manualUnquarantineAnnotationKeys -> m !! key = base !! key -> add !! key = None ->
  (add ∪ fold_left (fun m k => delete k m) (appendIfPresent m [] manualUnquarantineAnnotationKeys ++ more) base) !! key = None.
Proof.
  intros Hk Hm Ha. rewrite lookup_union, Ha, (left_id_L None _), fold_delete_string. case_decide as Hin; [done|].
  destruct (base !! key) eqn:Hb; [|done]. destruct Hin. apply elem_of_app. left. unfold appendIfPresent. rewrite app_nil_l.
  apply list_elem_of_In, filter_In. split; [by apply list_elem_of_In|]. rewrite Hm. by apply bool_decide_eq_true_2.
Qed.

(** The state that asks for a clean-up when a node appears. *)
Definition settled (n : Node) : Prop :=
  forall (S : Type) (onUncordon onUntaint : S -> string -> S * option goError) (s : S), checkStaleStateOnAdd onUncordon onUntaint s n = s.

Lemma settled_intro n : (forall key, key ∈ manualUnquarantineAnnotationKeys -> Annotations n !! key = None) -> settled n.
Proof.
  intros Hk S f g s. unfold checkStaleStateOnAdd, checkStaleUncordonState, checkStaleUntaintState, expectedTaints, at_key.
  by rewrite !Hk by (unfold manualUnquarantineAnnotationKeys; set_solver).
Qed.

End manual.

(** ** A short history of two nodes *)

Module InformerDemo.

#[local] Existing Instance NodeCacheDemo.zone_paths.
#[local] Existing Instance NodeCacheDemo.label_text.

Definition config : CacheConfig := NodeCacheDemo.rules "zone".
Definition keys : CacheKeys := Derive config {| GPUNodeLabelKey := "gpu" |}.

Definition object_named (name gpu : string) (annotations : gmap string string) (cordoned : bool) : v1Node :=
  {| oName := name; oResourceVersion := "1"; oLabels := Some {["gpu" := gpu]}; oAnnotations := Some annotations; oTaints := [];
     oUnschedulable := cordoned; oRest := "" |}.
Definition first : v1Node := object_named "node-1" "true" ∅ false.
Definition first_cordoned : v1Node :=
  object_named "node-1" "true" {[QuarantineHealthEventIsCordonedAnnotationKey := AnnotationValueTrue]} true.

Definition s1 : gmap string v1Node := <["node-1"%string := first]> ∅.
Definition s2 : gmap string v1Node := <["node-1"%string := first_cordoned]> s1.

(** The node was listed and counted; its quarantine is observed, the counter not
    yet told. *)
Definition ni : NodeInformer :=
  {| observed := [s1; s2]; delivered := [NotifyAdd (ObjNode (cached keys first))];
     queued := [NotifyUpdate (ObjNode (cached keys first)) (ObjNode (cached keys first_cordoned))]; listed := Some 1; gpuNodes := 1 |}.

Definition told : notification := NotifyAdd (ObjNode (cached keys first)).
Definition mid : NodeInformer := {| observed := [s1]; delivered := [told]; queued := []; listed := Some 1; gpuNodes := 1 |}.

Lemma reaches_ni : informer_reaches "gpu" "true" keys ni.
Proof.
  unfold informer_reaches. eapply rtc_l; [|eapply rtc_l; [|apply (rtc_l _ _ mid); [|apply rtc_once]]].
  - apply (step_observe _ _ _ _ told s1); [by apply (observe_add keys _ first)|by vm_compute].
  - by apply step_listed.
  - assert (mid = {| observed := [s1]; delivered := [] ++ [told]; queued := []; listed := Some 1;
                     gpuNodes := countNode "gpu" "true" 0 told |}) as -> by done.
    by apply (step_deliver "gpu" "true" keys {| observed := [s1]; delivered := []; queued := [told]; listed := Some 1; gpuNodes := 0 |}).
  - apply (step_observe "gpu" "true" keys mid (NotifyUpdate (ObjNode (cached keys first)) (ObjNode (cached keys first_cordoned))) s2);
      [by apply (observe_update keys _ first first_cordoned)|by vm_compute].
Qed.

Lemma node_counts_exact_witness :
  exists names, GetNodeCounts keys ni = Ok (1%Z, names) /\
  (exists k, 1 <= k <= 2 /\ ([NotifyUpdate (ObjNode (cached keys first)) (ObjNode (cached keys first_cordoned))] = [] -> k = 2) /\
     1%Z = gpu_count "gpu" "true" (observed_at ni k) /\ (0 <= 1 <= Z.of_nat (size (observed_at ni k)))%Z) /\
  (forall name, names !! name = Some true <-> exists o, current ni !! name = Some o /\ counts_quarantined o).
Proof.
  eexists. split; [reflexivity|]. apply (node_counts_exact config "gpu" "true" ltac:(done) ni); [apply reaches_ni|reflexivity].
Defined.

End InformerDemo.
