(* ===== verification/QuarantineDemo.v ===== *)
(** * The reconciler on a concrete node

    A one-node cluster whose informer cache follows the API server or lags behind
    it, two faults and their recoveries.  The theorems of [QuarantineSpec] and
    [QuarantineSession] are applied to it, and the examples at the end run the
    handlers in the situations those theorems exclude. *)

From stdpp Require Import gmap strings list fin_maps.
From Stdlib Require Import ZArith Lia Ascii.
From S2P Require Import Prelude HealthEvent AnnotationMap EventRecord KubeRetry StateManager Supersession Residual ColdStart NodeSession RuleEval Quarantine QuarantineSpec QuarantineSession NodeInformer.

#[local] Open Scope nat_scope.
#[local] Abbreviation Node := NodeSession.Node.

Module QuarantineDemo.

#[local] Existing Instance list_range.
#[local] Existing Instance list_range_laws.
#[local] Existing Instance AnnotationDemo.bit_codec.
#[local] Existing Instance RuleDemo.by_check.
#[local] Existing Instance RuleDemo.in_order.

(** ** Events *)

Definition gpu (i : string) : Entity := {| EntityType := "GPU"; EntityValue := i |}.

Definition event (check : string) (healthy : bool) (entity : Entity) : HealthEvent := {|
  Version := 1; Agent := "monitor"; ComponentClass := "GPU"; CheckName := check; IsFatal := negb healthy;
  IsHealthy := healthy; Message := ""; Action := if healthy then NONE else RESTART_BM; ErrorCode := [];
  EntitiesImpacted := [entity]; Metadata := ∅; GeneratedSeconds := None; NodeName := "node-1";
  QuarantineOverrides := None; DrainOverrides := None; Strategy := EXECUTE_REMEDIATION; Id := "";
  CustomRecommendedAction := "" |}.

Definition fault0 := event "xid" false (gpu "0").
Definition fault1 := event "xid" false (gpu "1").
Definition recovered0 := event "xid" true (gpu "0").
Definition recovered1 := event "xid" true (gpu "1").

(** ** Texts *)

#[local] Instance overrides_eq_dec : EqDecision BehaviourOverrides.
Proof. solve_decision. Defined.
#[local] Instance event_eq_dec : EqDecision HealthEvent.
Proof. solve_decision. Defined.

#[local] Instance Taint_countable : Countable Taint.
Proof.
  apply (inj_countable' (fun t => (Key t, Value t, Effect t, PreExisting t))
    (fun '(k, v, e, p) => Build_Taint k v e p)). by intros [].
Defined.

#[local] Instance taint_text : JSON (list Taint) := {|
  json_marshal l := Ok (String "j"%char (AnnotationDemo.bits (encode l)));
  json_unmarshal s :=
    match s with
    | String _ s' => match AnnotationDemo.unbits s' ≫= decode with Some l => Ok l | None => Err "not a list" end
    | _ => Err "blank"
    end |}.

(** A text that starts with a letter is not blank. *)
Lemma letter_not_empty s : IsEmptyValue (String "j"%char s) = false.
Proof. unfold IsEmptyValue, TrimSpace. simpl. by destruct (trim_right s). Qed.

#[local] Instance taint_text_laws : JSONLaws (list Taint).
Proof. intros l s [= <-]. simpl. rewrite AnnotationDemo.unbits_bits. simpl. by rewrite decode_encode. Qed.
#[local] Instance taint_text_list : JSONListLaws Taint.
Proof. intros l s [= <-] _. apply letter_not_empty. Qed.
#[local] Instance taint_text_total : JSONTotal (list Taint).
Proof. intros l. by eexists. Qed.

(** The records of this demonstration have the texts j0, j1, ... *)
Definition records : list (list HealthEvent * string) :=
  [([fault0], "j0"); ([fault1], "j1"); ([fault0; fault1], "j2"); ([fault1; fault0], "j3")].

#[local] Instance record_text : JSON (list HealthEvent) := {|
  json_marshal l := match find (fun r => bool_decide (r.1 = l)) records with Some r => Ok r.2 | None => Err "unknown" end;
  json_unmarshal s := match find (fun r => bool_decide (r.2 = s)) records with Some r => Ok r.1 | None => Err "unknown" end |}.

Lemma record_known (l : list HealthEvent) s : json_marshal l = Ok s -> (l, s) ∈ records.
Proof.
  cbn [json_marshal record_text]. destruct (find _ _) as [r|] eqn:Hf; [|done]. intros [= <-]. apply List.find_some in Hf as [Hin <-%bool_decide_eq_true].
  destruct r. by apply list_elem_of_In.
Qed.

#[local] Instance record_text_laws : JSONLaws (list HealthEvent).
Proof.
  intros l s Hr%record_known. unfold records in Hr.
  repeat (apply elem_of_cons in Hr as [[= -> ->]|Hr]; [by vm_compute|]). by apply not_elem_of_nil in Hr.
Qed.
#[local] Instance record_text_list : JSONListLaws HealthEvent.
Proof.
  intros l s Hr%record_known _. unfold records in Hr.
  repeat (apply elem_of_cons in Hr as [[= -> ->]|Hr]; [by vm_compute|]). by apply not_elem_of_nil in Hr.
Qed.

(** Texts no run of this demonstration needs. *)
Definition no_text (A : Type) : JSON A := {| json_marshal _ := Err "unused"; json_unmarshal _ := Err "unused" |}.
#[local] Instance label_text : JSON (list AppliedLabel) := no_text _.
#[local] Instance event_text : JSON HealthEvent := no_text _.
#[local] Instance tests_text : JSON (list HealthEventWithTests) := no_text _.

(** ** The cluster *)

Record world := { w_live : Node; w_cache : Node; w_lag : bool }.

Definition the_node : string := "node-1".

#[local] Instance world_api : NodeAPI world := {|
  cached_node w name := if name ==s the_node then Ok (w_cache w) else Err "not found";
  api_node w name := if name ==s the_node then inl (w_live w) else inr (plain_error "not found");
  update_node A w name f :=
    if name ==s the_node then
      match f (w_live w) with
      | Ok (desired, a) =>
          let n := rebase (w_live w) desired (w_live w) in
          ({| w_live := n; w_cache := if w_lag w then w_cache w else n; w_lag := w_lag w |}, Ok a)
      | Err e => (w, Err e)
      end
    else (w, Err "not found") |}.

#[local] Instance world_laws : NodeAPILaws world.
Proof.
  refine {| live w name := if name ==s the_node then Some (w_live w) else None |}; simpl.
  - intros w name n. destruct (name ==s the_node); [by intros [= ->]|done].
  - intros A w name f w' a. destruct (name ==s the_node); [|done].
    destruct (f (w_live w)) as [[n x]|] eqn:Hf; [|done]. intros [= <- <-]. by exists (w_live w), (w_live w), n.
  - intros A w name f w' e. destruct (name ==s the_node); [|by intros [= <- _]; left].
    destruct (f (w_live w)) as [[n x]|] eqn:Hf; [done|]. intros [= <- _]. by left.
  - intros A w name f w' x other Hu Hne. destruct (other ==s the_node) eqn:Ho; [|done]. to_prop. subst other.
    destruct (name ==s the_node) eqn:Hn; [to_prop; congruence|]. by injection Hu as <- _.
Defined.

#[local] Instance world_cache : CacheLaws world.
Proof.
  intros A w name f w' x n. simpl. destruct (name ==s the_node) eqn:Hn; simpl; [|by intros [= <- _]].
  destruct (f (w_live w)) as [[m a]|]; intros [= <- _]; simpl; [|by left]. intros [= <-].
  destruct (w_lag w); [by left|]. right. eexists. by repeat split.
Qed.

#[local] Instance world_services : Services world := {|
  IsTripped w := (w, inl false);
  AddCordonEvent w _ := w;
  UpdateQuarantineValidationAnnotation v _ := Ok v;
  FetchValidationTestsFromQuarantineSession _ _ _ := inl ([], ""%string);
  CreateValidationRequest w _ _ _ := (w, None);
  CancelLatestQuarantiningEvents w _ _ := (w, None);
  timestamp _ := "2026-01-01" |}.

#[local] Instance world_services_laws : ServicesLaws world.
Proof. split; try done; intros *; by intros [= <- _]. Qed.

(** ** One rule: an [xid] fault taints and cordons *)

Definition gpu_rule : QuarantineRuleSet :=
  {| Meta := {| rsEnabled := true; rsVersion := "1"; rsName := "gpu"; rsPriority := 1;
                rsMatch := {| Any := [{| Kind := "HealthEvent"; Expression := "xid" |}]; All := [] |} |};
     rsTaint := {| Key := "gpu"; Value := "faulty"; Effect := "NoSchedule"; PreExisting := false |};
     rsLabel := {| LabelKey := ""; LabelValue := "" |}; ShouldCordon := true |}.

Definition reconciler (dryRun : bool) : Reconciler :=
  let evals := RuleDemo.evals_of [gpu_rule] in
  let c := buildRulesetsConfig [gpu_rule] in
  {| DryRun := dryRun; CircuitBreakerEnabled := true; validationClient := false; labelKeys := SetLabelKeys "k8s/";
     ruleSetEvals := evals; rulesets := c; taintInitKeys := precomputeTaintInitKeys evals c |}.

Definition team_taint : NodeTaint := {| ntKey := "team"; ntValue := "a"; ntEffect := "NoSchedule"; ntTimeAdded := None |}.

Definition node_with (taints : list NodeTaint) : Node :=
  {| Name := the_node; Labels := ∅; Annotations := ∅; Taints := taints; Unschedulable := false |}.

Definition fresh_world (n : Node) : world := {| w_live := n; w_cache := n; w_lag := false |}.

Definition w0 := fresh_world (node_with [team_taint]).

(** The worlds after the events, handled in order, and their results. *)
Definition handle (dryRun : bool) (w : world) (e : HealthEvent) := handleEvent (reconciler dryRun) Live w e.
Definition after (dryRun : bool) (w : world) (es : list HealthEvent) : world :=
  fold_left (fun w e => (handle dryRun w e).1) es w.
Definition statuses (dryRun : bool) (w : world) (es : list HealthEvent) : list (option string * option goError) :=
  (fold_left (fun '(w, l) e => let '(w', s) := handle dryRun w e in (w', l ++ [s])) es (w, [])).2.

Lemma blank_wf n : at_key (Annotations n) QuarantineHealthEventAnnotationKey = ""%string -> node_record_wf n.
Proof. intros He. left. by rewrite He. Qed.

(** A cache that does not lag shows the node. *)
Lemma following_synced w : w_cache w = w_live w -> synced Live w the_node.
Proof. intros He v. simpl. intros [= <-]. exists (w_live w). rewrite He. by repeat split. Qed.


(** In a dry run the fault changes nothing the cluster sees. *)
Lemma dry_run_inert_witness :
  exists n', live (after true w0 [fault0]) the_node = Some n' /\ Taints n' = [team_taint] /\ Unschedulable n' = false /\
    forall key, key <> uncordonedReasonLabelKey (labelKeys (reconciler true)) -> Labels n' !! key = (∅ : gmap string string) !! key.
Proof.
  apply (dry_run_inert (reconciler true) eq_refl Live w0 (after true w0 [fault0]) fault0 (Some Quarantined, None) (w_live w0)).
  - done.
  - by vm_compute.
Defined.

(** Two faults, the recovery of the first, and the recovery that ends the session. *)
Lemma release_restores_witness :
  exists n2, live (after false w0 [fault0; fault1; recovered0; recovered1]) the_node = Some n2 /\
    Taints n2 = [team_taint] /\ Unschedulable n2 = false /\ idle n2 /\ IsEmptyValue (ann n2 QuarantineHealthEventAnnotationKey) = true.
Proof.
  apply (release_restores (reconciler false) eq_refl eq_refl the_node w0 (after false w0 [fault0; fault1; recovered0])
    (after false w0 [fault0; fault1; recovered0; recovered1]) Live recovered1 (w_live w0)).
  - done.
  - split; [|done..]. apply NoDup_singleton.
  - by apply blank_wf.
  - intros t u (name & tc & Hl & Hk & Hv & He) Hu Hid. exfalso. apply list_elem_of_singleton in Hu as ->.
    assert (Htc : tc = rsTaint gpu_rule).
    { revert Hl. cbn [reconciler rulesets buildRulesetsConfig fold_left gpu_rule Meta rsTaint rsName Key snd TaintConfigMap go_eqb negb].
      destruct (_ <>s ""); [|by rewrite lookup_empty]. rewrite lookup_insert_Some, lookup_empty. by intros [[_ <-]|[_ ?]]. }
    subst tc. injection Hid as Hk' _. rewrite <- Hk in Hk'. done.
  - assert (Hstep : forall w e st w', NodeName e = the_node -> w_cache w = w_live w ->
      handle false w e = (after false w [e], (st, None)) -> session_run (reconciler false) the_node (after false w [e]) w' ->
      session_run (reconciler false) the_node w w').
    { intros w e st w' Hn Hc He Hr. eapply run_event; [done|by apply following_synced|exact He|exact Hr]. }
    apply (Hstep _ fault0 (Some Quarantined)); [done..|by vm_compute|].
    apply (Hstep _ fault1 (Some AlreadyQuarantined)); [done|by vm_compute..|].
    apply (Hstep _ recovered0 (Some AlreadyQuarantined)); [done|by vm_compute..|]. apply run_done.
  - done.
  - apply following_synced. by vm_compute.
  - by vm_compute.
Defined.

(** The write that starts the session is not taken for an operator's. *)
Lemma own_writes_unnoticed_witness : exists n1,
  quarantineNode false [rsTaint gpu_rule] true ∅ ∅ (w_live w0) = Ok (n1, false) /\ Unschedulable n1 = true /\
  unnoticed (w_live w0) (rebase (w_live w0) n1 (w_live w0)).
Proof.
  eexists. split; [reflexivity|]. split; [reflexivity|].
  apply (own_writes_unnoticed (W := world) (reconciler false)); [|done]. by eapply (own_session _ _ false [rsTaint gpu_rule] true ∅ ∅).
Defined.

(** The operator uncordons the quarantined node. *)
Definition quarantined_node : Node := w_live (after false w0 [fault0]).
Definition uncordoned : Node := with_unschedulable quarantined_node false.
Definition cleaned : world := (handleManualUncordon (reconciler false) true (fresh_world uncordoned) the_node).1.


(** ** Outside the hypotheses *)

Definition lagging (w : world) : world := {| w_live := w_live w; w_cache := w_cache w; w_lag := true |}.

(** The recovery arrives before the cache shows the quarantine: it is skipped, and
    the fault stays recorded. *)
Example lagging_cache_loses_recovery :
  statuses false (lagging w0) [fault0; recovered0] = [(Some Quarantined, None); (None, None)] /\
  at_key (Annotations (w_live (after false (lagging w0) [fault0; recovered0]))) QuarantineHealthEventAnnotationKey = "j0"%string.
Proof. by vm_compute. Qed.

(** The next fault arrives before the cache shows the release: it is recorded as
    one of a session, but the node is neither tainted nor cordoned. *)
Example lagging_cache_skips_actions :
  let w := lagging (after false w0 [fault0]) in
  statuses false w [recovered0; fault1] = [(Some UnQuarantined, None); (Some AlreadyQuarantined, None)] /\
  at_key (Annotations (w_live (after false w [recovered0; fault1]))) QuarantineHealthEventAnnotationKey = "j1"%string /\
  Taints (w_live (after false w [recovered0; fault1])) = [team_taint] /\
  Unschedulable (w_live (after false w [recovered0; fault1])) = false.
Proof. by vm_compute. Qed.

(** A taint of the node with the key and effect of the rule's but another value is
    overwritten by the fault and deleted by the release. *)
Definition own_taint : NodeTaint := {| ntKey := "gpu"; ntValue := "reserved"; ntEffect := "NoSchedule"; ntTimeAdded := None |}.

Example conflicting_taint_lost :
  Taints (w_live (after false (fresh_world (node_with [own_taint])) [fault0; recovered0])) = [].
Proof. by vm_compute. Qed.

(** A dry run writes the uncordon-reason label. *)
Example dry_run_writes_label :
  let n := with_labels (node_with []) {[ "k8s/cordon-reason" := "manual" ]} in
  Labels (w_live (after true (fresh_world n) [fault0; recovered0])) !! "k8s/uncordon-reason" = Some "manual-removed"%string.
Proof. by vm_compute. Qed.

End QuarantineDemo.
