(* ===== verification/GoText.v ===== *)
(** * Text

    The functions of Go's [strings] package that the message code uses, on ASCII
    text, and what they do on text made of words separated by spaces. *)

From stdpp Require Import gmap strings list sorting.
From Stdlib Require Import ZArith Lia Ascii.
From S2P Require Import Prelude.

#[local] Open Scope nat_scope.

(** ** Functions *)

Fixpoint HasPrefix (s p : string) : bool :=
  match p, s with
  | "", _ => true
  | String a p', String b s' => if decide (a = b) then HasPrefix s' p' else false
  | _, _ => false
  end.

Fixpoint take_str (n : nat) (s : string) : string :=
  match n, s with S n, String c s' => String c (take_str n s') | _, _ => "" end.
Fixpoint drop_str (n : nat) (s : string) : string :=
  match n, s with S n, String c s' => drop_str n s' | _, _ => s end.

(** A string has a suffix of the length of [p] that equals [p]. *)
Definition HasSuffix (s p : string) : bool :=
  (String.length p <=? String.length s) && (drop_str (String.length s - String.length p) s ==s p).

Definition CutPrefix (s p : string) : option string := if HasPrefix s p then Some (drop_str (String.length p) s) else None.
Definition CutSuffix (s p : string) : option string :=
  if HasSuffix s p then Some (take_str (String.length s - String.length p) s) else None.
Definition TrimSuffix (s p : string) : string := default s (CutSuffix s p).

Fixpoint Contains (s sub : string) : bool :=
  HasPrefix s sub || match s with String _ s' => Contains s' sub | "" => false end.

(** [None] for -1. *)
Fixpoint LastIndex (s sub : string) : option nat :=
  match (match s with String _ s' => LastIndex s' sub | "" => None end) with
  | Some i => Some (S i)
  | None => if HasPrefix s sub then Some 0 else None
  end.

Fixpoint IndexChar (s : string) (x : ascii) : option nat :=
  match s with
  | "" => None
  | String c s' => if decide (c = x) then Some 0 else S <$> IndexChar s' x
  end.

(** [strings.TrimRight] with the cutset [" "]. *)
Fixpoint TrimRightSpaces (s : string) : string :=
  match s with
  | "" => ""
  | String c s' =>
      match TrimRightSpaces s' with
      | "" => if decide (c = " "%char) then "" else String c ""
      | t => String c t
      end
  end.

Fixpoint Fields (s : string) : list string :=
  match s with
  | "" => []
  | String c s' =>
      if is_space c then Fields s'
      else match s' with
      | "" => [String c ""]
      | String c' _ => if is_space c' then String c "" :: Fields s'
                       else match Fields s' with w :: ws => String c w :: ws | [] => [String c ""] end
      end
  end.

(** [strings.ReplaceAll] of one character by another. *)
Fixpoint ReplaceChar (s : string) (old new : ascii) : string :=
  match s with "" => "" | String c s' => String (if decide (c = old) then new else c) (ReplaceChar s' old new) end.

Definition EqualFold (s t : string) : bool := to_lower s ==s to_lower t.

Lemma string_cons_app c (a b : string) : String c a +:+ b = String c (a +:+ b).
Proof. done. Qed.

(** ** Characters of a text *)

Fixpoint chars (s : string) : list ascii := match s with "" => [] | String c s' => c :: chars s' end.

Fixpoint of_chars (l : list ascii) : string := match l with [] => ""%string | c :: l' => String c (of_chars l') end.
Lemma chars_of l : chars (of_chars l) = l.
Proof. induction l as [|c l IH]; [done|]. simpl. by rewrite IH. Qed.

Lemma chars_app a b : chars (a +:+ b) = chars a ++ chars b.
Proof. induction a as [|c a IH]; [done|]. simpl. by f_equal. Qed.

Lemma chars_length s : length (chars s) = String.length s.
Proof. induction s as [|c s IH]; [done|]. simpl. by f_equal. Qed.

Lemma chars_inj a b : chars a = chars b -> a = b.
Proof. revert b. induction a as [|c a IH]; intros [|d b]; try done. simpl. intros [= -> Hab]. f_equal. by apply IH. Qed.

Lemma string_length_app (a b : string) : String.length (a +:+ b) = String.length a + String.length b.
Proof. by rewrite <- !chars_length, chars_app, length_app. Qed.

Lemma no_char_chars x s : no_char x s <-> x ∉ chars s.
Proof. induction s as [|c s IH]; simpl; [set_solver|]. rewrite IH, not_elem_of_cons. naive_solver. Qed.

#[export] Instance no_char_dec x s : Decision (no_char x s).
Proof. refine (cast_if (decide (x ∉ chars s))); [by apply no_char_chars|by rewrite no_char_chars]. Defined.

Lemma no_char_cat x a b : no_char x (a +:+ b) <-> no_char x a /\ no_char x b.
Proof. rewrite !no_char_chars, chars_app, not_elem_of_app. done. Qed.

Lemma has_char_chars x s : has_char x s = true <-> x ∈ chars s.
Proof.
  induction s as [|c s IH]; simpl; [rewrite elem_of_nil; done|]. rewrite elem_of_cons. case_decide as Hc; [by subst; tauto|].
  rewrite IH. naive_solver.
Qed.

(** ** Prefixes, suffixes, parts *)

Lemma HasPrefix_spec s p : HasPrefix s p = true <-> exists t, s = p +:+ t.
Proof.
  revert s. induction p as [|c p IH]; intros s; [split; [by exists s|by destruct s]|].
  destruct s as [|d s]; cbn [HasPrefix]; [split; [done|by intros [t ?]]|]. case_decide as Hc.
  - subst d. rewrite IH. split; intros [t Ht]; exists t; [by rewrite Ht|by injection Ht].
  - split; [done|]. intros [t Ht]. injection Ht as -> _. done.
Qed.

Lemma take_drop_str n s : take_str n s +:+ drop_str n s = s.
Proof. revert s. induction n as [|n IH]; intros [|c s]; try done. simpl. by rewrite string_cons_app, IH. Qed.

Lemma take_str_app a b : take_str (String.length a) (a +:+ b) = a.
Proof. induction a as [|c a IH]; [by destruct b|]. rewrite string_cons_app. simpl. by rewrite IH. Qed.

Lemma take_str_app_le n a b : n <= String.length a -> take_str n (a +:+ b) = take_str n a.
Proof. revert n. induction a as [|c a IH]; intros [|n] Hn; try done; simpl in Hn; [lia|]. rewrite string_cons_app. simpl. by rewrite IH by lia. Qed.

Lemma take_str_app_ge n a b : take_str (String.length a + n) (a +:+ b) = a +:+ take_str n b.
Proof. induction a as [|c a IH]; [done|]. rewrite !string_cons_app. simpl. by rewrite IH. Qed.

Lemma take_str_prefix n s : HasPrefix s (take_str n s) = true.
Proof. revert s. induction n as [|n IH]; intros [|c s]; try done. simpl. rewrite decide_True by done. apply IH. Qed.

Lemma drop_str_app a b : drop_str (String.length a) (a +:+ b) = b.
Proof. induction a as [|c a IH]; [by destruct b|]. done. Qed.

Lemma take_str_length n s : String.length (take_str n s) = n `min` String.length s.
Proof. revert s. induction n as [|n IH]; intros [|c s]; try done. simpl. by rewrite IH. Qed.

Lemma take_str_all n s : String.length s <= n -> take_str n s = s.
Proof. revert s. induction n as [|n IH]; intros [|c s]; simpl; try done; [lia|]. intros Hl. f_equal. apply IH. lia. Qed.

Lemma HasSuffix_spec s p : HasSuffix s p = true <-> exists t, s = t +:+ p.
Proof.
  unfold HasSuffix. rewrite andb_true_iff, Nat.leb_le, go_eqb_true. split.
  - intros [Hl Hd]. exists (take_str (String.length s - String.length p) s). rewrite <- Hd at 2. by rewrite take_drop_str.
  - intros [t ->]. rewrite string_length_app. split; [lia|].
    replace (String.length t + String.length p - String.length p) with (String.length t) by lia. apply drop_str_app.
Qed.

Lemma HasSuffix_app t p : HasSuffix (t +:+ p) p = true.
Proof. apply HasSuffix_spec. by exists t. Qed.

Lemma Contains_spec s sub : Contains s sub = true <-> exists a b, s = a +:+ sub +:+ b.
Proof.
  induction s as [|c s IH]; cbn [Contains].
  - rewrite orb_false_r, HasPrefix_spec. split; [intros [t Ht]; by exists "", t|]. intros (a & b & He). exists b. destruct a; done.
  - rewrite orb_true_iff, HasPrefix_spec, IH. split.
    + intros [[t ->]|(a & b & ->)]; [by exists "", t|by exists (String c a), b].
    + intros (a & b & He). destruct a as [|d a]; [left; by exists b|]. right. injection He as <- ->. by exists a, b.
Qed.

Lemma LastIndex_None s sub : LastIndex s sub = None <-> Contains s sub = false.
Proof.
  induction s as [|c s IH]; cbn [LastIndex Contains].
  - destruct (HasPrefix "" sub); done.
  - destruct (LastIndex s sub) as [i|].
    + split; [done|]. rewrite orb_false_iff. intros [_ Hs]. apply IH in Hs. done.
    + rewrite (proj1 IH eq_refl), orb_false_r. destruct (HasPrefix (String c s) sub); done.
Qed.

(** The last occurrence is the one after which there is no other. *)
Lemma LastIndex_last a sub b : (forall s, s <> ""%string -> (exists t, t +:+ s = sub +:+ b) -> s <> sub +:+ b -> HasPrefix s sub = false) ->
  HasPrefix "" sub = false -> LastIndex (a +:+ sub +:+ b) sub = Some (String.length a).
Proof.
  intros Hb He. induction a as [|c a IH]; [|simpl; by rewrite IH].
  change ("" +:+ sub +:+ b)%string with (sub +:+ b)%string.
  assert (Hp : HasPrefix (sub +:+ b) sub = true) by (apply HasPrefix_spec; by exists b).
  assert (Hn : forall s, (exists t, t +:+ s = sub +:+ b) -> s <> sub +:+ b -> LastIndex s sub = None).
  { induction s as [|d s IHs]; intros [t Ht] Hne; cbn [LastIndex]; [by rewrite He|].
    rewrite IHs.
    - rewrite Hb; [done|done|by exists t|done].
    - exists (t +:+ String d ""). by rewrite string_app_assoc.
    - intros ->. apply (f_equal String.length) in Ht. rewrite string_length_app in Ht. simpl in Ht. lia. }
  destruct (sub +:+ b) as [|d s] eqn:Hs; cbn [LastIndex]; [by rewrite Hp|]. rewrite (Hn s), Hp; [done|by exists (String d "")|].
  intros Hx. apply (f_equal String.length) in Hx. simpl in Hx. lia.
Qed.

(** ** Words *)

Definition spaceless (s : string) : Prop := Forall (fun c => is_space c = false) (chars s).
Definition word (s : string) : Prop := s <> ""%string /\ spaceless s.

#[export] Instance spaceless_dec s : Decision (spaceless s).
Proof. unfold spaceless. apply _. Defined.
#[export] Instance word_dec s : Decision (word s).
Proof. unfold word. apply _. Defined.

Lemma spaceless_app a b : spaceless (a +:+ b) <-> spaceless a /\ spaceless b.
Proof. unfold spaceless. by rewrite chars_app, Forall_app. Qed.

Lemma spaceless_cons c s : spaceless (String c s) <-> is_space c = false /\ spaceless s.
Proof. unfold spaceless. simpl. by rewrite Forall_cons. Qed.

Lemma Fields_cons c s : is_space c = true -> Fields (String c s) = Fields s.
Proof. intros Hc. simpl. by rewrite Hc. Qed.

Lemma Fields_step c d s : Fields (String c (String d s)) =
  if is_space c then Fields (String d s)
  else if is_space d then String c "" :: Fields (String d s)
  else match Fields (String d s) with w :: ws => String c w :: ws | [] => [String c ""] end.
Proof. done. Qed.

Lemma Fields_word w s : word w -> Fields (w +:+ String " "%char s) = w :: Fields s.
Proof.
  intros [Hne Hw]. induction w as [|c w IH]; [done|]. apply spaceless_cons in Hw as [Hc Hw]. rewrite string_cons_app. cbn [Fields]. rewrite Hc.
  destruct w as [|d w]; [done|]. rewrite string_cons_app. pose proof Hw as Hw'. apply spaceless_cons in Hw' as [Hd _]. rewrite Hd.
  rewrite <- string_cons_app, IH by done. done.
Qed.

Lemma Fields_last w : word w -> Fields w = [w].
Proof.
  intros [Hne Hw]. induction w as [|c w IH]; [done|]. apply spaceless_cons in Hw as [Hc Hw]. cbn [Fields]. rewrite Hc.
  destruct w as [|d w]; [done|]. pose proof Hw as Hw'. apply spaceless_cons in Hw' as [Hd _]. by rewrite Hd, IH.
Qed.

(** A space separates. *)
Lemma Fields_app a b : Fields (a +:+ String " "%char b) = Fields a ++ Fields b.
Proof.
  induction a as [|c a IH]; [done|]. rewrite string_cons_app. cbn [Fields]. destruct (is_space c); [done|].
  destruct a as [|d a].
  - change ("" +:+ String " " b)%string with (String " " b). by simpl.
  - rewrite string_cons_app in IH |- *. destruct (is_space d) eqn:Hd; [by rewrite IH|].
    rewrite IH. destruct (Fields (String d a)) as [|w ws] eqn:Hf; [|done]. exfalso. simpl in Hf. rewrite Hd in Hf.
    destruct a as [|x a]; [done|]. destruct (is_space x); [done|]. by destruct (Fields (String x a)).
Qed.

Lemma Fields_elem s w : w ∈ Fields s -> word w /\ forall c, c ∈ chars w -> c ∈ chars s.
Proof.
  revert w. induction s as [|c s IH]; intros w Hw; [by apply not_elem_of_nil in Hw|]. cbn [Fields] in Hw. destruct (is_space c) eqn:Hc.
  { destruct (IH w Hw) as [? Hch]. split; [done|]. intros x Hx. right. by apply Hch. }
  assert (Hone : word (String c "") /\ forall x, x ∈ chars (String c "") -> x ∈ chars (String c s)).
  { split; [split; [done|apply spaceless_cons; split; [done|constructor]]|]. intros x Hx. apply list_elem_of_singleton in Hx as ->. left. }
  destruct s as [|d s]; [apply list_elem_of_singleton in Hw as ->; exact Hone|]. destruct (is_space d) eqn:Hd.
  { apply elem_of_cons in Hw as [->|Hw]; [exact Hone|]. destruct (IH w Hw) as [? Hch]. split; [done|]. intros x Hx. right. by apply Hch. }
  destruct (Fields (String d s)) as [|v vs]; [apply list_elem_of_singleton in Hw as ->; exact Hone|].
  apply elem_of_cons in Hw as [->|Hw].
  - destruct (IH v) as [[_ Hv] Hch]; [left|]. split; [split; [done|by apply spaceless_cons]|]. intros x [->|Hx]%elem_of_cons; [left|right; by apply Hch].
  - destruct (IH w) as [? Hch]; [by right|]. split; [done|]. intros x Hx. right. by apply Hch.
Qed.

Lemma Fields_join ws : Forall word ws -> Fields (join " " ws) = ws.
Proof.
  induction 1 as [|w ws Hw Hws IH]; [done|]. destruct ws as [|v ws]; [by apply Fields_last|].
  change (join " " (w :: v :: ws)) with (w +:+ String " " (join " " (v :: ws))). by rewrite Fields_word, IH.
Qed.

Lemma Fields_trim s : Fields (TrimRightSpaces s) = Fields s.
Proof.
  induction s as [|c s IH]; [done|]. cbn [TrimRightSpaces]. destruct (TrimRightSpaces s) as [|d t] eqn:Ht.
  - assert (Hs : Fields s = []) by (by rewrite <- IH). destruct s as [|x s].
    + case_decide as Hc; [by subst c|done].
    + rewrite Fields_step, Hs. case_decide as Hc; [by subst c|]. simpl. destruct (is_space c); [done|]. by destruct (is_space x).
  - destruct s as [|x s]; [done|]. rewrite !Fields_step, IH.
    assert (x = d) as ->; [|done]. cbn [TrimRightSpaces] in Ht. destruct (TrimRightSpaces s); [case_decide; [done|]|]; by injection Ht.
Qed.

(** A token followed by a space ends a field. *)
Lemma Contains_field s tok : word tok -> Contains s (tok +:+ " ") = true -> exists w, w ∈ Fields s /\ HasSuffix w tok = true.
Proof.
  intros Hw. apply proj1 in Hw as Hne. intros (a & b & ->)%Contains_spec. rewrite string_app_assoc. change (" " +:+ b)%string with (String " " b).
  revert a. fix IH 1. intros [|c a].
  - change ("" +:+ tok +:+ String " " b)%string with (tok +:+ String " " b). rewrite Fields_word by done. exists tok. split; [left|].
    by apply HasSuffix_spec; exists ""%string.
  - rewrite string_cons_app. destruct (IH a) as (w & Hin & Hsuf). destruct (is_space c) eqn:Hc; [exists w; split; [by rewrite Fields_cons|done]|].
    destruct (a +:+ tok +:+ String " " b) as [|d r] eqn:Hr; [by apply not_elem_of_nil in Hin|].
    rewrite Fields_step, Hc. destruct (is_space d); [exists w; split; [by right|done]|].
    destruct (Fields (String d r)) as [|v vs]; [by apply not_elem_of_nil in Hin|]. apply elem_of_cons in Hin as [->|Hin].
    + exists (String c v). split; [left|]. apply HasSuffix_spec in Hsuf as [t ->]. apply HasSuffix_spec. by exists (String c t).
    + exists w. split; [by right|done].
Qed.

Lemma Contains_token a tok b : Contains (a +:+ tok +:+ String " "%char b) (tok +:+ " ") = true.
Proof. apply Contains_spec. exists a, b. by rewrite string_app_assoc. Qed.

(** ** Folding case *)

Lemma lower_fixed c : is_upper c = false -> lower c = c.
Proof. unfold lower. by intros ->. Qed.

Lemma to_lower_app a b : to_lower (a +:+ b) = to_lower a +:+ to_lower b.
Proof. induction a as [|c a IH]; [done|]. rewrite string_cons_app. cbn [to_lower]. by rewrite IH. Qed.

Lemma to_lower_chars s : chars (to_lower s) = lower <$> chars s.
Proof. induction s as [|c s IH]; [done|]. simpl. by rewrite IH. Qed.
