(* ===== verification/NodeCondition.v ===== *)
(** * Node conditions of the Kubernetes connector

    Models the message part of
    [platform-connectors/pkg/connectors/kubernetes/process_node_events.go]: the
    faults of a check are kept as text in the message of a node condition, one
    entry per fault, and recoveries find their fault in that text.  Lengths are
    bytes, as in the source; text is ASCII. *)

From stdpp Require Import gmap strings list fin_maps sorting.
From Stdlib Require Import ZArith Lia Ascii.
From S2P Require Import Prelude HealthEvent GoText.

#[local] Open Scope Z_scope.

Definition NoHealthFailureMsg : string := "No Health Failures".
Definition truncationSuffix : string := "...".
Definition recommendedActionMarker : string := "Recommended Action=".
Definition ErrorCodePrefix : string := "ErrorCode:".

Record K8sConnectorConfig := {
  MaxNodeConditionMessageLength : Z;
  CompactedHealthEventMsgLen : Z;
  MaxRetries : Z;
  MaxRetryDuration : Z }.

Definition slen (s : string) : Z := Z.of_nat (String.length s).

(** [s[:n]] and [s[n:]] for an index within bounds. *)
Definition upto (s : string) (n : Z) : string := take_str (Z.to_nat n) s.

(** ** Reading an entry *)

(** The text before the last marker and the text from it on. *)
Definition split_marker (msg : string) : option (string * string) :=
  match LastIndex msg recommendedActionMarker with
  | Some i => Some (take_str i msg, drop_str i msg)
  | None => None
  end.

Definition isStructuredEntityToken (token : string) : bool :=
  if HasPrefix token ErrorCodePrefix then false
  else match IndexChar token colon with
       | Some i => (0 <? Z.of_nat i) && (Z.of_nat i <? slen token - 1)
       | None => false
       end.

Definition identityToken (tok : string) : bool := HasPrefix tok ErrorCodePrefix || isStructuredEntityToken tok.

(** The longest prefix of identity tokens, and the rest. *)
Fixpoint identity_split (tokens : list string) : list string * list string :=
  match tokens with
  | tok :: rest =>
      if identityToken tok then let '(id, diag) := identity_split rest in (tok :: id, diag) else ([], tokens)
  | [] => ([], [])
  end.

Definition splitIdentityAndDiagnostic (beforeRA : string) : string * string :=
  let '(id, diag) := identity_split (Fields beforeRA) in (join " " id, join " " diag).

Definition extractMessageIdentity (msg : string) : list string * list string * string :=
  let '(prefix, recommendedAction) :=
    match split_marker msg with Some (p, ra) => (p, TrimRightSpaces ra) | None => (msg, ""%string) end in
  let '(identityPrefix, _) := splitIdentityAndDiagnostic (TrimRightSpaces prefix) in
  let tokens := Fields identityPrefix in
  (List.filter (fun t => HasPrefix t ErrorCodePrefix) tokens,
   List.filter (fun t => negb (HasPrefix t ErrorCodePrefix)) tokens, recommendedAction).

Definition sameEntity (a b : string) : bool :=
  if a ==s b then true
  else match CutSuffix a truncationSuffix with
  | Some cut => HasPrefix b cut
  | None => match CutSuffix b truncationSuffix with Some cut => HasPrefix a cut | None => false end
  end.

Definition messagesMatchByIdentity (a b : string) : bool :=
  let '(aErr, aEnt, aRA) := extractMessageIdentity a in
  let '(bErr, bEnt, bRA) := extractMessageIdentity b in
  if (aRA <>s bRA) || negb (bool_decide (aErr = bErr)) || negb (Nat.eqb (length aEnt) (length bEnt)) then false
  else forallb (fun ab => sameEntity ab.1 ab.2) (zip (merge_sort String.le aEnt) (merge_sort String.le bEnt)).

Definition EntityToken (entity : Entity) : string := EntityType entity +:+ ":" +:+ EntityValue entity.

(** The loop over the tokens; [i == len(tokens)-1] is "no token follows". *)
Fixpoint truncated_match (hasRecommendedAction : bool) (typePrefix entityToken : string) (tokens : list string) : bool :=
  match tokens with
  | [] => false
  | tok :: rest =>
      (HasPrefix tok typePrefix &&
       (let isTruncated := HasSuffix tok truncationSuffix || (negb hasRecommendedAction && Nat.eqb (length rest) 0) in
        let candidate := TrimSuffix tok truncationSuffix in
        isTruncated && (slen typePrefix <? slen candidate) && HasPrefix entityToken candidate))
      || truncated_match hasRecommendedAction typePrefix entityToken rest
  end.

Definition entityMatchesMessage (msg : string) (entity : Entity) : bool :=
  let fullToken := EntityToken entity +:+ " " in
  if Contains msg fullToken then true
  else
    let '(prefix, hasRecommendedAction) :=
      match split_marker msg with Some (p, _) => (p, true) | None => (msg, false) end in
    truncated_match hasRecommendedAction (EntityType entity +:+ ":") (EntityToken entity) (Fields prefix).

Definition entitiesMatchMessage (msg : string) (entities : list Entity) : bool :=
  if Nat.eqb (length entities) 0 then false else forallb (entityMatchesMessage msg) entities.

Definition messageMatchesAnyErrorCode (msg : string) (errorCodes : list string) : bool :=
  if Nat.eqb (length errorCodes) 0 then true
  else existsb (fun code => Contains msg (ErrorCodePrefix +:+ code +:+ " ")) errorCodes.

(** ** Entries *)

Definition codeToken (code : string) : string := ErrorCodePrefix +:+ code.

(** Every token followed by a space. *)
Definition spaced (tokens : list string) : string := fold_right (fun t s => t +:+ " " +:+ s) ""%string tokens.

Definition constructHealthEventMessage (healthEvent : HealthEvent) : string :=
  spaced (map codeToken (ErrorCode healthEvent))
  +:+ spaced (map EntityToken (EntitiesImpacted healthEvent))
  +:+ (if Message healthEvent <>s "" then ReplaceChar (Message healthEvent) ";"%char "."%char +:+ " " else "")
  +:+ recommendedActionMarker +:+ Action_String (Action healthEvent) +:+ ";".

Definition isNoHealthFailureMessage (msg : string) : bool := EqualFold (TrimSpace msg) NoHealthFailureMsg.

Definition parseMessages (message : string) : list string :=
  if message ==s "" then []
  else List.filter (fun msg => negb ((msg ==s "") || (msg ==s truncationSuffix) || isNoHealthFailureMessage msg))
         (split_on ";"%char message).

(** The new message is the constructed one without its last byte. *)
Definition addMessageIfNotExist (messages : list string) (healthEvent : HealthEvent) : list string :=
  let newMessage := constructHealthEventMessage healthEvent in
  let entry := upto newMessage (slen newMessage - 1) in
  if existsb (fun msg => (msg +:+ ";" ==s newMessage) || messagesMatchByIdentity msg entry) messages
  then messages else messages ++ [entry].

Definition removeImpactedEntitiesMessagesScoped (messages : list string) (entities : list Entity) (errorCodes : list string) : list string :=
  List.filter (fun msg => negb (entitiesMatchMessage msg entities && messageMatchesAnyErrorCode msg errorCodes)) messages.

Definition legacyIdentityTokens (msg : string) : list string * bool :=
  match split_marker msg with
  | None => ([], false)
  | Some (before, _) =>
      let '(identity, diagnostic) := splitIdentityAndDiagnostic before in
      let tokens := List.filter (fun t => negb (HasPrefix t ErrorCodePrefix)) (Fields identity) in
      let hasPCI := existsb (fun t => HasPrefix t "PCI:") tokens in
      (tokens, negb (Nat.eqb (length tokens) 0) && negb hasPCI && negb (HasPrefix diagnostic "PCI:"))
  end.

Definition legacyGPUMessageMatches (msg : string) (entities : list Entity) : bool :=
  let '(tokens, ok) := legacyIdentityTokens msg in
  if negb ok then false
  else
    let check (entity : Entity) :=
      let token := EntityToken entity in
      if EntityType entity ==s "PCI" then true
      else if EntityType entity ==s "GPU" then default ""%string (head tokens) ==s token
      else bool_decide (token ∈ tokens) in
    forallb check entities && existsb (fun entity => EntityType entity ==s "GPU") entities.

Definition removeLegacyGPUMessages (messages : list string) (entities : list Entity) (errorCodes : list string) : list string :=
  List.filter (fun msg => negb (legacyGPUMessageMatches msg entities) || negb (messageMatchesAnyErrorCode msg errorCodes)) messages.

Definition recoveryEntities (event : HealthEvent) : list Entity :=
  if negb (EqualFold (ComponentClass event) "GPU") then EntitiesImpacted event
  else
    let hasStableGPUIdentity :=
      existsb (fun e => EqualFold (EntityType e) "GPU" || EqualFold (EntityType e) "PCI") (EntitiesImpacted event) in
    if negb hasStableGPUIdentity then EntitiesImpacted event
    else List.filter (fun e => negb (EqualFold (EntityType e) "GPU_UUID")) (EntitiesImpacted event).

Definition aggregateEvent (messages : list string) (event : HealthEvent) : list string :=
  if negb (IsHealthy event) then addMessageIfNotExist messages event
  else if negb (Nat.eqb (length (EntitiesImpacted event)) 0) then
    let entities := recoveryEntities event in
    let messages := removeImpactedEntitiesMessagesScoped messages entities (ErrorCode event) in
    if EqualFold (ComponentClass event) "GPU" then removeLegacyGPUMessages messages entities (ErrorCode event) else messages
  else [].

Definition aggregateEventMessages (messages : list string) (events : list HealthEvent) : list string :=
  fold_left aggregateEvent events messages.

(** ** The length of the message *)

Fixpoint deduplicateMessagesByIdentity (messages : list string) : list string :=
  match messages with
  | [] => []
  | msg :: rest =>
      if existsb (messagesMatchByIdentity msg) rest then deduplicateMessagesByIdentity rest
      else msg :: deduplicateMessagesByIdentity rest
  end.

Definition totalMessageLength (messages : list string) : Z := slen (join ";" messages) + 1.

Definition truncateWithSuffix (text : string) (maxLen : Z) : string :=
  if maxLen <=? slen truncationSuffix then truncationSuffix
  else if maxLen - slen truncationSuffix <? slen text then upto text (maxLen - slen truncationSuffix) +:+ truncationSuffix
  else text.

Definition compactMessagePrefix (identityPrefix diagnosticText : string) (maxLen : Z) : string :=
  if identityPrefix ==s "" then truncateWithSuffix diagnosticText maxLen
  else if maxLen <=? slen identityPrefix then identityPrefix +:+ " " +:+ truncationSuffix
  else
    let available := maxLen - slen identityPrefix - 1 in
    if (available <=? 0) || (diagnosticText ==s "") then identityPrefix +:+ " " +:+ truncationSuffix
    else identityPrefix +:+ " " +:+ truncateWithSuffix diagnosticText available.

Definition compactMessageField (msg : string) (maxLen : Z) : string :=
  match split_marker msg with
  | None => msg
  | Some (before, raPart) =>
      let beforeRA := TrimRightSpaces before in
      if slen beforeRA <=? maxLen then msg
      else
        let '(identityPrefix, diagnosticText) := splitIdentityAndDiagnostic beforeRA in
        compactMessagePrefix identityPrefix diagnosticText maxLen +:+ " " +:+ raPart
  end.

Definition shortIdentityUUIDLen : Z := 8.

Definition shortenToken (hasStableGPUIdentity : bool) (tok : string) : string :=
  match CutPrefix tok "GPU_UUID:" with
  | Some value =>
      if negb hasStableGPUIdentity || (slen value <=? shortIdentityUUIDLen + slen truncationSuffix) then tok
      else "GPU_UUID:" +:+ upto value shortIdentityUUIDLen +:+ truncationSuffix
  | None => tok
  end.

Definition shortenIdentityForSpace (msg : string) : string :=
  match split_marker msg with
  | None => msg
  | Some (before, raPart) =>
      let '(identity, _) := splitIdentityAndDiagnostic (TrimRightSpaces before) in
      let tokens := Fields identity in
      if Nat.eqb (length tokens) 0 then msg
      else
        let hasStableGPUIdentity := existsb (fun tok => HasPrefix tok "GPU:" || HasPrefix tok "PCI:") tokens in
        let shortened := join " " (map (shortenToken hasStableGPUIdentity) tokens) +:+ " " +:+ truncationSuffix +:+ " " +:+ raPart in
        if slen msg <=? slen shortened then msg else shortened
  end.

(** The loop of the last tier: the text so far, and whether an entry was cut. *)
Fixpoint fill (maxLen : Z) (result : string) (separator : string) (messages : list string) : string * bool :=
  match messages with
  | [] => (result, false)
  | msg :: rest =>
      if maxLen <? slen result + slen separator + slen msg + 1 then
        let available := maxLen - slen result - slen separator - 1 - slen truncationSuffix in
        (if 0 <? available then result +:+ separator +:+ upto msg available else result, true)
      else fill maxLen (result +:+ separator +:+ msg) ";" rest
  end.

Section config.
Context (cfg : K8sConnectorConfig).

(** The entries after the first two tiers. *)
Definition fitted (messages : list string) : list string :=
  let maxLen := MaxNodeConditionMessageLength cfg in
  let messages := if maxLen <? totalMessageLength messages
    then map (fun msg => compactMessageField msg (CompactedHealthEventMsgLen cfg)) (deduplicateMessagesByIdentity messages)
    else messages in
  if maxLen <? totalMessageLength messages then map shortenIdentityForSpace messages else messages.

Definition truncateNodeConditionMessage (messages : list string) : string :=
  let '(result, truncated) := fill (MaxNodeConditionMessageLength cfg) "" "" (fitted messages) in
  result +:+ ";" +:+ (if truncated then truncationSuffix else "").

(** ** Conditions *)

Record NodeCondition := {
  cType : string; cStatus : string; cReason : string; cMessage : string; LastHeartbeatTime : Z; LastTransitionTime : Z }.

Definition ConditionTrue : string := "True".
Definition ConditionFalse : string := "False".

Definition updateHealthEventReason (checkName : string) (isHealthy : bool) : string :=
  checkName +:+ (if isHealthy then "IsHealthy" else "IsNotHealthy").

(** [GeneratedTimestamp] in nanoseconds, nil or not. *)
Context (GeneratedTimestamp : HealthEvent -> option Z) (now : Z).

Definition safeTimestamp (ts : option Z) : Z := default now ts.

Definition findNodeCondition (conditions : list NodeCondition) (conditionType : string) : option (nat * NodeCondition) :=
  list_find (fun c => cType c = conditionType) conditions.

Definition processNodeCondition (conditions : list NodeCondition) (conditionType : string) (events : list HealthEvent) :
    list NodeCondition * bool :=
  match last events with
  | None => (conditions, false)
  | Some latestEvent =>
      let latestTime := safeTimestamp (GeneratedTimestamp latestEvent) in
      let found := findNodeCondition conditions conditionType in
      let matched := match found with
        | Some (_, c) => c
        | None => {| cType := conditionType; cStatus := ""; cReason := ""; cMessage := "";
                     LastHeartbeatTime := latestTime; LastTransitionTime := latestTime |}
        end in
      let messages := aggregateEventMessages (parseMessages (cMessage matched)) events in
      let '(message, status, healthy) :=
        if Nat.eqb (length messages) 0 then (NoHealthFailureMsg, ConditionFalse, true)
        else (truncateNodeConditionMessage messages, ConditionTrue, false) in
      let updated transition := {| cType := cType matched; cStatus := status; cReason := updateHealthEventReason (CheckName latestEvent) healthy;
        cMessage := message; LastHeartbeatTime := latestTime; LastTransitionTime := transition |} in
      match found with
      | None => (conditions ++ [updated (LastTransitionTime matched)], true)
      | Some (conditionIndex, previous) =>
          let c := updated (if status <>s cStatus previous then latestTime else LastTransitionTime previous) in
          (<[conditionIndex := c]> conditions,
           (cStatus previous <>s cStatus c) || (cReason previous <>s cReason c) || (cMessage previous <>s cMessage c))
      end
  end.

Definition buildConditionEventsMap (events : list HealthEvent) : gmap string (list HealthEvent) :=
  fold_left (fun m event =>
    if negb (IsHealthy event) && negb (IsFatal event) then m
    else <[CheckName event := default [] (m !! CheckName event) ++ [event]]> m) events ∅.

(** The fold over the map, in the order the range visits it. *)
Definition foldConditions `{MapRange} (conditionEventsMap : gmap string (list HealthEvent)) (conditions : list NodeCondition) :
    list NodeCondition * bool :=
  fold_left (fun '(conditions, changed) '(conditionType, events) =>
    let '(conditions, c) := processNodeCondition conditions conditionType events in (conditions, c || changed))
    (range conditionEventsMap) (conditions, false).

End config.
