(* ===== verification/ConditionSpec.v ===== *)
(** * What a node condition says

    A condition's message stands for a list of faults.  [condition_refines_faults]:
    while the text fits, folding events into the condition is adding to and
    removing from that list.  [condition_message_bounded]: the length of the text.
    [compaction_keeps_fault]: a shortened entry is still the same fault to the
    duplicate check and to recoveries. *)

From stdpp Require Import gmap strings list fin_maps sorting.
From Stdlib Require Import ZArith Lia Ascii.
From S2P Require Import Prelude HealthEvent GoText NodeCondition.

#[local] Open Scope nat_scope.

(** ** Faults and their entries *)

Record fault := { fCodes : list string; fEntities : list Entity; fText : string; fAction : RecommendedAction }.

Definition fault_of (e : HealthEvent) : fault :=
  {| fCodes := ErrorCode e; fEntities := EntitiesImpacted e; fText := ReplaceChar (Message e) ";"%char "."%char; fAction := Action e |}.

Definition tokens (f : fault) : list string := map codeToken (fCodes f) ++ map EntityToken (fEntities f).

Definition text_part (text : string) : string := if text ==s "" then ""%string else text +:+ " ".
Definition action_part (a : RecommendedAction) : string := recommendedActionMarker +:+ Action_String a.

Definition entry (f : fault) : string := spaced (tokens f) +:+ text_part (fText f) +:+ action_part (fAction f).

(** The same fault, whatever the text. *)
Definition same_fault (f g : fault) : Prop :=
  fCodes f = fCodes g /\ fAction f = fAction g /\ map EntityToken (fEntities f) ≡ₚ map EntityToken (fEntities g).

#[export] Instance same_fault_equiv : Equivalence same_fault.
Proof. split; [by intros f|intros f g (A & B & C); by repeat split|]. intros f g h (A & B & C) (A' & B' & C'). split; [congruence|]. split; [congruence|]. by rewrite C. Qed.

#[export] Instance same_fault_dec f g : Decision (same_fault f g).
Proof. unfold same_fault. apply _. Defined.

(** Tokens are words without separators; no entity type is [ErrorCode], and no
    value looks like cut off. *)
Record wf_entity (e : Entity) : Prop := {
  we_type : word (EntityType e) /\ no_char colon (EntityType e) /\ no_char ";"%char (EntityType e) /\ EntityType e <> "ErrorCode"%string;
  we_value : word (EntityValue e) /\ no_char ";"%char (EntityValue e) /\ HasSuffix (EntityToken e) truncationSuffix = false }.

Record wf_fault (f : fault) : Prop := {
  wf_codes : Forall (fun c => spaceless c /\ no_char ";"%char c) (fCodes f);
  wf_entities : Forall wf_entity (fEntities f);
  wf_text : no_char ";"%char (fText f) /\ match head (Fields (fText f)) with Some w => identityToken w = false | None => True end }.

#[export] Instance wf_entity_dec e : Decision (wf_entity e).
Proof.
  refine (cast_if_and (decide (word (EntityType e) /\ no_char colon (EntityType e) /\ no_char ";"%char (EntityType e) /\ EntityType e <> "ErrorCode"%string))
    (decide (word (EntityValue e) /\ no_char ";"%char (EntityValue e) /\ HasSuffix (EntityToken e) truncationSuffix = false))); [by split|by intros []..].
Defined.

#[export] Instance wf_fault_dec f : Decision (wf_fault f).
Proof.
  refine (cast_if_and3 (decide (Forall (fun c => spaceless c /\ no_char ";"%char c) (fCodes f))) (decide (Forall wf_entity (fEntities f)))
    (decide (no_char ";"%char (fText f) /\ match head (Fields (fText f)) with Some w => identityToken w = false | None => True end)));
    [destruct (head (Fields (fText f))); apply _|by split|by intros []..].
Defined.

(** ** Text of an entry *)

Lemma spaced_app a b : spaced (a ++ b) = spaced a +:+ spaced b.
Proof. induction a as [|t a IH]; [done|]. cbn [app spaced fold_right]. fold (spaced (a ++ b)) (spaced a). rewrite IH. by rewrite !string_app_assoc. Qed.

Lemma replace_empty s a b : (ReplaceChar s a b ==s "") = (s ==s "").
Proof. by destruct s. Qed.

Lemma replace_no_char s a b : a <> b -> no_char a (ReplaceChar s a b).
Proof. intros Hab. induction s as [|c s IH]; [done|]. simpl. split; [|done]. case_decide; congruence. Qed.

(** What [addMessageIfNotExist] appends is the entry. *)
Lemma construct_entry e : constructHealthEventMessage e = entry (fault_of e) +:+ ";".
Proof.
  unfold constructHealthEventMessage, entry, tokens, text_part, action_part, fault_of. cbn [fCodes fEntities fText fAction].
  rewrite spaced_app, replace_empty. destruct (Message e ==s ""); cbn [negb]; by rewrite !string_app_assoc.
Qed.

Lemma entry_cut e : upto (constructHealthEventMessage e) (slen (constructHealthEventMessage e) - 1) = entry (fault_of e).
Proof.
  rewrite construct_entry. unfold upto, slen. rewrite string_length_app. cbn [String.length].
  replace (Z.to_nat _) with (String.length (entry (fault_of e))) by lia. apply take_str_app.
Qed.

Lemma code_word c : spaceless c -> word (codeToken c).
Proof. intros Hc. split; [done|]. apply spaceless_app. split; [by repeat constructor|done]. Qed.

Lemma entity_word e : wf_entity e -> word (EntityToken e).
Proof.
  intros [(T & _) (V & _)]. unfold EntityToken. destruct (EntityType e) as [|c t] eqn:Ht; [by destruct T|]. split; [done|]. rewrite !spaceless_app.
  split; [apply T|]. split; [by repeat constructor|apply V].
Qed.

Lemma tokens_words f : wf_fault f -> Forall word (tokens f).
Proof.
  intros [C E _]. unfold tokens. rewrite Forall_app, !List.Forall_map. split.
  - eapply Forall_impl; [exact C|]. intros c [? _]. by apply code_word.
  - eapply Forall_impl; [exact E|]. apply entity_word.
Qed.

Lemma Fields_spaced ts s : Forall word ts -> Fields (spaced ts +:+ s) = ts ++ Fields s.
Proof.
  induction 1 as [|t ts Ht Hts IH]; [done|]. cbn [spaced fold_right]. fold (spaced ts). rewrite !string_app_assoc.
  change (" " +:+ (spaced ts +:+ s))%string with (String " " (spaced ts +:+ s)). by rewrite Fields_word, IH.
Qed.

Lemma Fields_text_part text s : Fields (text_part text +:+ s) = Fields text ++ Fields s.
Proof.
  unfold text_part. destruct (text ==s "") eqn:He; [apply go_eqb_true in He; by subst|]. rewrite string_app_assoc.
  change (" " +:+ s)%string with (String " " s). apply Fields_app.
Qed.

Lemma action_no_equals a : no_char "="%char (Action_String a).
Proof. by destruct a; vm_compute. Qed.

Lemma unique_mark {A} (x : A) (t m u act : list A) : x ∉ act -> t ++ m ++ x :: u = m ++ x :: act -> u = act.
Proof.
  intros Hact Ht. rewrite app_assoc in Ht. apply app_eq_app in Ht as [l [[H1 H2]|[H1 H2]]].
  - destruct l as [|y l]; [by injection H2|]. injection H2 as <- H2. destruct Hact. rewrite H2. apply elem_of_app. right. left.
  - apply (f_equal length) in H1. rewrite !length_app in H1. destruct l; [by injection H2|]. simpl in H1. lia.
Qed.

(** The marker of the entry is its last one. *)
Lemma marker_last pre act : no_char "="%char act ->
  LastIndex (pre +:+ recommendedActionMarker +:+ act) recommendedActionMarker = Some (String.length pre).
Proof.
  intros Hact. apply LastIndex_last; [|done]. intros s _ [t Ht] Hne. apply not_true_is_false. intros [u ->]%HasPrefix_spec. apply Hne.
  enough (chars u = chars act) as ->%chars_inj by done. apply no_char_chars in Hact.
  apply (unique_mark "="%char (chars t) (chars "Recommended Action") _ _ Hact). apply (f_equal chars) in Ht. by rewrite !chars_app in Ht.
Qed.

Lemma split_entry f : split_marker (entry f) = Some (spaced (tokens f) +:+ text_part (fText f), action_part (fAction f)).
Proof.
  unfold split_marker, entry, action_part. rewrite <- string_app_assoc. rewrite marker_last by apply action_no_equals.
  by rewrite take_str_app, drop_str_app.
Qed.

(** ** The identity of an entry *)

Lemma IndexChar_app x a b : no_char x a -> IndexChar (a +:+ String x b) x = Some (String.length a).
Proof. induction a as [|c a IH]; [intros _; simpl; by rewrite decide_True|]. intros [Hc Ha]. rewrite string_cons_app. simpl. rewrite decide_False by done. by rewrite IH. Qed.

Lemma type_prefix e p : wf_entity e -> no_char colon p -> HasPrefix (EntityToken e) (p +:+ ":") = true -> EntityType e = p.
Proof.
  intros [(_ & Hc & _) _] Hp [t Ht]%HasPrefix_spec. rewrite string_app_assoc in Ht.
  pose proof (before_sep_app colon (EntityType e) (EntityValue e) Hc) as B1. pose proof (before_sep_app colon p t Hp) as B2.
  change (EntityType e +:+ String colon (EntityValue e)) with (EntityToken e) in B1. rewrite Ht in B1.
  change (p +:+ String colon t) with (p +:+ ":" +:+ t)%string in B2. rewrite B2 in B1. by injection B1.
Qed.

Lemma entity_not_code e : wf_entity e -> HasPrefix (EntityToken e) ErrorCodePrefix = false.
Proof.
  intros We. apply not_true_is_false. intros Hp. apply (type_prefix e "ErrorCode") in Hp; [|done|by vm_compute]. by destruct We as [(_ & _ & _ & ?) _].
Qed.

Lemma entity_token e : wf_entity e -> identityToken (EntityToken e) = true.
Proof.
  intros We. unfold identityToken, isStructuredEntityToken. rewrite (entity_not_code e We). simpl. destruct We as [(T & Hc & _) (V & _)].
  change (EntityToken e) with (EntityType e +:+ String colon (EntityValue e)). rewrite IndexChar_app by done.
  unfold slen. rewrite string_length_app. cbn [String.length]. destruct T as [T _], V as [V _].
  destruct (EntityType e); [done|]. destruct (EntityValue e); [done|]. cbn [String.length]. apply andb_true_iff. split; apply Z.ltb_lt; lia.
Qed.

Lemma code_token c : HasPrefix (codeToken c) ErrorCodePrefix = true.
Proof. apply HasPrefix_spec. by exists c. Qed.

Lemma tokens_identity f : wf_fault f -> Forall (fun t => identityToken t = true) (tokens f).
Proof.
  intros [_ E _]. unfold tokens. rewrite Forall_app, !List.Forall_map. split.
  - apply Forall_true. intros c. unfold identityToken. by rewrite code_token.
  - eapply Forall_impl; [exact E|]. apply entity_token.
Qed.

Lemma identity_split_app ids rest : Forall (fun t => identityToken t = true) ids ->
  match head rest with Some w => identityToken w = false | None => True end -> identity_split (ids ++ rest) = (ids, rest).
Proof.
  intros Hi Hr. induction Hi as [|t ids Ht _ IH]; simpl; [|by rewrite Ht, IH]. destruct rest as [|w rest]; [done|]. simpl in *. by rewrite Hr.
Qed.

(** The tokens, and the words of the text. *)
Lemma split_identity f : wf_fault f -> forall s, Fields s = tokens f ++ Fields (fText f) ->
  splitIdentityAndDiagnostic s = (join " " (tokens f), join " " (Fields (fText f))).
Proof.
  intros Hf s Hs. unfold splitIdentityAndDiagnostic. rewrite Hs, identity_split_app; [done|by apply tokens_identity|apply Hf].
Qed.

Lemma Fields_before f : wf_fault f -> Fields (spaced (tokens f) +:+ text_part (fText f)) = tokens f ++ Fields (fText f).
Proof.
  intros Hf. rewrite Fields_spaced by (by apply tokens_words). rewrite <- (string_app_nil_r (text_part _)), Fields_text_part. by rewrite app_nil_r.
Qed.

Lemma filter_codes f : wf_fault f ->
  List.filter (fun t => HasPrefix t ErrorCodePrefix) (tokens f) = map codeToken (fCodes f) /\
  List.filter (fun t => negb (HasPrefix t ErrorCodePrefix)) (tokens f) = map EntityToken (fEntities f).
Proof.
  intros [_ E _]. unfold tokens. rewrite !List.filter_app.
  assert (Hc : forall l, List.filter (fun t => HasPrefix t ErrorCodePrefix) (map codeToken l) = map codeToken l /\
    List.filter (fun t => negb (HasPrefix t ErrorCodePrefix)) (map codeToken l) = []).
  { induction l as [|c l [IH1 IH2]]; [done|]. cbn [map List.filter]. rewrite code_token. simpl. by rewrite IH1. }
  assert (He : List.filter (fun t => HasPrefix t ErrorCodePrefix) (map EntityToken (fEntities f)) = [] /\
    List.filter (fun t => negb (HasPrefix t ErrorCodePrefix)) (map EntityToken (fEntities f)) = map EntityToken (fEntities f)).
  { induction E as [|e l He _ [IH1 IH2]]; [done|]. cbn [map List.filter]. rewrite entity_not_code by done. simpl. by rewrite IH2. }
  destruct (Hc (fCodes f)) as [-> ->], He as [-> ->]. by rewrite app_nil_r.
Qed.

Lemma trim_action a : TrimRightSpaces (action_part a) = action_part a.
Proof. by destruct a; vm_compute. Qed.

Lemma identity_entry f : wf_fault f ->
  extractMessageIdentity (entry f) = (map codeToken (fCodes f), map EntityToken (fEntities f), action_part (fAction f)).
Proof.
  intros Hf. unfold extractMessageIdentity. rewrite split_entry, trim_action.
  rewrite (split_identity f Hf) by (by rewrite Fields_trim, Fields_before).
  rewrite Fields_join by (by apply tokens_words). by destruct (filter_codes f Hf) as [-> ->].
Qed.

Lemma sameEntity_whole a b : HasSuffix a truncationSuffix = false -> HasSuffix b truncationSuffix = false -> sameEntity a b = (a ==s b).
Proof. intros Ha Hb. unfold sameEntity, CutSuffix. rewrite Ha, Hb. by destruct (a ==s b). Qed.

Lemma zip_equal (l1 l2 : list string) : length l1 = length l2 ->
  Forall (fun t => HasSuffix t truncationSuffix = false) l1 -> Forall (fun t => HasSuffix t truncationSuffix = false) l2 ->
  forallb (fun ab => sameEntity ab.1 ab.2) (zip l1 l2) = true <-> l1 = l2.
Proof.
  revert l2. induction l1 as [|a l1 IH]; intros [|b l2] Hl H1 H2; try done. apply Forall_cons in H1 as [Ha H1], H2 as [Hb H2]. injection Hl as Hl.
  cbn [zip_with forallb fst snd]. rewrite andb_true_iff, sameEntity_whole, go_eqb_true by done.
  rewrite (IH l2 Hl H1 H2). naive_solver.
Qed.

Lemma action_part_inj a b : action_part a = action_part b -> a = b.
Proof. destruct a, b; (done || by vm_compute). Qed.

#[local] Instance codeToken_inj : Inj (=) (=) codeToken.
Proof. intros a b Hab. unfold codeToken in Hab. by apply string_app_inj_l in Hab. Qed.

Lemma decide_bool (b : bool) (P : Prop) `{Decision P} : (b = true <-> P) -> b = bool_decide P.
Proof. intros Hb. destruct b; symmetry; [apply bool_decide_eq_true; tauto|apply bool_decide_eq_false]. intros Hp. by apply Hb in Hp. Qed.

(** Entries of two faults match exactly when the faults are the same. *)
Lemma match_entries f g : wf_fault f -> wf_fault g -> messagesMatchByIdentity (entry f) (entry g) = bool_decide (same_fault f g).
Proof.
  intros Hf Hg. unfold messagesMatchByIdentity. rewrite !identity_entry by done.
  set (ef := map EntityToken (fEntities f)). set (eg := map EntityToken (fEntities g)).
  assert (Hw : forall h, wf_fault h -> Forall (fun t => HasSuffix t truncationSuffix = false) (merge_sort String.le (map EntityToken (fEntities h)))).
  { intros h [_ E _]. rewrite merge_sort_Permutation, List.Forall_map. eapply Forall_impl; [exact E|]. by intros e [_ (_ & _ & ?)]. }
  assert (Hl : forall h, length (merge_sort String.le (map EntityToken (fEntities h))) = length (map EntityToken (fEntities h)))
    by (intros h; apply Permutation_length, merge_sort_Permutation).
  assert (Hz : length ef = length eg -> forallb (fun ab => sameEntity ab.1 ab.2) (zip (merge_sort String.le ef) (merge_sort String.le eg)) = true <-> ef ≡ₚ eg).
  { intros He. unfold ef, eg in *. rewrite zip_equal; [|by rewrite !Hl|by apply Hw..]. split.
    - intros Hs. by rewrite <- (merge_sort_Permutation String.le (map _ (fEntities f))), Hs, merge_sort_Permutation.
    - intros Hp. apply (StronglySorted_unique String.le); [apply StronglySorted_merge_sort; apply _..|]. by rewrite !merge_sort_Permutation. }
  fold ef eg. apply decide_bool. unfold same_fault. fold ef eg. destruct (decide (fAction f = fAction g)) as [Ha|Ha].
  - rewrite Ha, (proj2 (go_eqb_true _ _) eq_refl). simpl. destruct (decide (fCodes f = fCodes g)) as [Hc|Hc].
    + rewrite Hc, bool_decide_eq_true_2 by done. simpl. destruct (Nat.eqb (length ef) (length eg)) eqn:He; simpl.
      * apply Nat.eqb_eq in He. rewrite (Hz He). tauto.
      * apply Nat.eqb_neq in He. split; [done|]. intros (_ & _ & Hp). by rewrite Hp in He.
    + rewrite bool_decide_eq_false_2 by (intros Hm; apply Hc; by apply (inj (fmap codeToken))). simpl. split; [done|]. by intros (? & _).
  - assert ((action_part (fAction f) ==s action_part (fAction g)) = false) as -> by (apply go_eqb_false; intros Hp; by apply Ha, action_part_inj).
    simpl. split; [done|]. by intros (_ & ? & _).
Qed.

(** ** What a recovery finds *)

(** The token cannot be mistaken in the entry of [f]: no other token and no word
    of the text ends with it. *)
Definition apart (f : fault) (tok : string) : Prop :=
  (forall w, w ∈ tokens f -> HasSuffix w tok = true -> w = tok) /\
  (forall w, w ∈ Fields (fText f) -> HasSuffix w tok = false).

Definition entity_apart (f : fault) (e : Entity) : Prop :=
  apart f (EntityToken e) /\ forall w, w ∈ Fields (fText f) -> HasPrefix w (EntityType e +:+ ":") = false.

#[export] Instance apart_dec f tok : Decision (apart f tok).
Proof.
  refine (cast_if_and (decide (Forall (fun w => HasSuffix w tok = true -> w = tok) (tokens f)))
    (decide (Forall (fun w => HasSuffix w tok = false) (Fields (fText f))))); unfold apart; rewrite <- !Forall_forall; tauto.
Defined.

#[export] Instance entity_apart_dec f e : Decision (entity_apart f e).
Proof.
  refine (cast_if_and (decide (apart f (EntityToken e))) (decide (Forall (fun w => HasPrefix w (EntityType e +:+ ":") = false) (Fields (fText f)))));
    unfold entity_apart; rewrite <- Forall_forall; tauto.
Defined.

Lemma Fields_entry f : wf_fault f -> Fields (entry f) = tokens f ++ Fields (fText f) ++ Fields (action_part (fAction f)).
Proof. intros Hf. unfold entry. rewrite Fields_spaced by (by apply tokens_words). by rewrite Fields_text_part. Qed.

Lemma suffix_chars w tok x : HasSuffix w tok = true -> x ∈ chars tok -> x ∈ chars w.
Proof. intros [t ->]%HasSuffix_spec Hx. rewrite chars_app, elem_of_app. by right. Qed.

Lemma action_fields a w : w ∈ Fields (action_part a) -> colon ∉ chars w.
Proof.
  intros Hw. destruct (Fields_elem _ _ Hw) as [_ Hc]. intros Hx. apply Hc in Hx. revert Hx. apply no_char_chars. by destruct a; vm_compute.
Qed.

Lemma spaced_contains l1 tok l2 s : Contains (spaced (l1 ++ tok :: l2) +:+ s) (tok +:+ " ") = true.
Proof.
  rewrite spaced_app. cbn [spaced fold_right]. fold (spaced l2). rewrite !string_app_assoc.
  change (" " +:+ (spaced l2 +:+ s))%string with (String " " (spaced l2 +:+ s)). apply Contains_token.
Qed.

(** A word with a colon that cannot be mistaken occurs exactly as a token. *)
Lemma contains_token f tok : wf_fault f -> word tok -> colon ∈ chars tok -> apart f tok ->
  Contains (entry f) (tok +:+ " ") = bool_decide (tok ∈ tokens f).
Proof.
  intros Hf Hw Hc [A1 A2]. apply decide_bool. split.
  - intros (w & Hin & Hs)%Contains_field; [|done]. rewrite Fields_entry, !elem_of_app in Hin by done. destruct Hin as [Hin|[Hin|Hin]].
    + by rewrite <- (A1 w Hin Hs).
    + by rewrite A2 in Hs.
    + destruct (action_fields _ _ Hin). by eapply suffix_chars.
  - intros (l1 & l2 & Hl)%list_elem_of_split. unfold entry. rewrite Hl. apply spaced_contains.
Qed.

Lemma entity_colon e : colon ∈ chars (EntityToken e).
Proof. unfold EntityToken. rewrite !chars_app, !elem_of_app. right. left. left. Qed.
Lemma code_colon c : colon ∈ chars (codeToken c).
Proof. unfold codeToken. rewrite chars_app, elem_of_app. left. by vm_compute; set_solver. Qed.

Lemma entity_in_tokens f e : wf_fault f -> wf_entity e -> EntityToken e ∈ tokens f <-> EntityToken e ∈ map EntityToken (fEntities f).
Proof.
  intros Hf He. unfold tokens. rewrite elem_of_app. split; [|by right]. intros [Hin|Hin]; [|done].
  apply list_elem_of_In, in_map_iff in Hin as (c & Hc & _). pose proof (entity_not_code e He) as Hn. by rewrite <- Hc, code_token in Hn.
Qed.

Lemma code_in_tokens f c : wf_fault f -> codeToken c ∈ tokens f <-> c ∈ fCodes f.
Proof.
  intros [_ E _]. unfold tokens. rewrite elem_of_app. split.
  - intros [Hin|Hin]; apply list_elem_of_In, in_map_iff in Hin as (x & Hx & Hin).
    + apply (inj codeToken) in Hx as ->. by apply list_elem_of_In.
    + rewrite List.Forall_forall in E. pose proof (entity_not_code x (E x Hin)) as Hn. by rewrite Hx, code_token in Hn.
  - intros Hin. left. apply list_elem_of_In, in_map, list_elem_of_In. done.
Qed.

(** No token of the entry is taken for a cut one. *)
Lemma truncated_match_none f e : wf_fault f -> wf_entity e -> entity_apart f e ->
  truncated_match true (EntityType e +:+ ":") (EntityToken e) (tokens f ++ Fields (fText f)) = false.
Proof.
  intros Hf He [_ Ht]. assert (Hall : forall w, w ∈ tokens f ++ Fields (fText f) ->
    HasPrefix w (EntityType e +:+ ":") = false \/ HasSuffix w truncationSuffix = false).
  { intros w [Hw|Hw]%elem_of_app; [|left; by apply Ht]. unfold tokens in Hw. apply elem_of_app in Hw as [Hw|Hw];
      apply list_elem_of_In, in_map_iff in Hw as (x & <- & Hin).
    - left. apply not_true_is_false. intros [t Hp]%HasPrefix_spec. destruct He as [(_ & Hc & _ & Hne) _]. apply Hne.
      rewrite string_app_assoc in Hp. pose proof (before_sep_app colon (EntityType e) t Hc) as B1.
      change (EntityType e +:+ String colon t) with (EntityType e +:+ ":" +:+ t)%string in B1. rewrite <- Hp in B1.
      change (codeToken x) with ("ErrorCode" +:+ String colon x) in B1. rewrite before_sep_app in B1 by (by vm_compute). by injection B1.
    - right. destruct Hf as [_ E _]. rewrite List.Forall_forall in E. by destruct (E x Hin) as [_ (_ & _ & ?)]. }
  revert Hall. generalize (tokens f ++ Fields (fText f)). induction l as [|w l IH]; intros Hall; [done|]. cbn [truncated_match].
  rewrite IH by (intros x Hx; apply Hall; by right). rewrite orb_false_r.
  destruct (Hall w) as [->|Hs]; [left|done|]. rewrite Hs. simpl. by rewrite andb_false_r.
Qed.

Lemma entity_match f e : wf_fault f -> wf_entity e -> entity_apart f e ->
  entityMatchesMessage (entry f) e = bool_decide (EntityToken e ∈ map EntityToken (fEntities f)).
Proof.
  intros Hf He Ha. unfold entityMatchesMessage. rewrite (contains_token f) by (done || by apply entity_word || apply entity_colon || apply Ha).
  rewrite split_entry, Fields_before, truncated_match_none by done.
  rewrite (bool_decide_ext _ _ (entity_in_tokens f e Hf He)). by destruct (bool_decide _).
Qed.

(** ** The specification *)

Definition names_all (f : fault) (es : list Entity) : bool :=
  negb (Nat.eqb (length es) 0) && forallb (fun e => bool_decide (EntityToken e ∈ map EntityToken (fEntities f))) es.

Definition in_scope_of (f : fault) (codes : list string) : bool :=
  Nat.eqb (length codes) 0 || existsb (fun c => bool_decide (c ∈ fCodes f)) codes.

(** A GPU fault recorded without its PCI address. *)
Definition legacy_names (f : fault) (es : list Entity) : bool :=
  match fEntities f with
  | [] => false
  | first :: _ =>
      negb (existsb (fun e => EntityType e ==s "PCI") (fEntities f)) &&
      negb (HasPrefix (join " " (Fields (fText f))) "PCI:") &&
      forallb (fun e => (EntityType e ==s "PCI") ||
        (if EntityType e ==s "GPU" then bool_decide (EntityToken first = EntityToken e)
         else bool_decide (EntityToken e ∈ map EntityToken (fEntities f)))) es &&
      existsb (fun e => EntityType e ==s "GPU") es
  end.

Definition clears (event : HealthEvent) (f : fault) : bool :=
  (names_all f (recoveryEntities event) || (EqualFold (ComponentClass event) "GPU" && legacy_names f (recoveryEntities event)))
  && in_scope_of f (ErrorCode event).

(** The list of faults after an event. *)
Definition fold_fault (fs : list fault) (event : HealthEvent) : list fault :=
  if negb (IsHealthy event) then
    if existsb (fun f => bool_decide (same_fault f (fault_of event))) fs then fs else fs ++ [fault_of event]
  else if negb (Nat.eqb (length (EntitiesImpacted event)) 0) then List.filter (fun f => negb (clears event f)) fs
  else [].

(** The recovery's tokens cannot be mistaken in the entry of [f]. *)
Definition recovery_apart (event : HealthEvent) (f : fault) : Prop :=
  (forall e, e ∈ EntitiesImpacted event -> wf_entity e /\ entity_apart f e) /\
  (forall c, c ∈ ErrorCode event -> spaceless c /\ apart f (codeToken c)).

#[export] Instance recovery_apart_dec event f : Decision (recovery_apart event f).
Proof.
  refine (cast_if_and (decide (Forall (fun e => wf_entity e /\ entity_apart f e) (EntitiesImpacted event)))
    (decide (Forall (fun c => spaceless c /\ apart f (codeToken c)) (ErrorCode event)))); unfold recovery_apart; rewrite <- !Forall_forall; tauto.
Defined.

Lemma pci_token e : wf_entity e -> HasPrefix (EntityToken e) "PCI:" = (EntityType e ==s "PCI").
Proof.
  intros He. destruct (EntityType e ==s "PCI") eqn:Ht.
  - apply go_eqb_true in Ht. apply HasPrefix_spec. exists (EntityValue e). unfold EntityToken. by rewrite Ht.
  - apply not_true_is_false. intros Hp. apply (type_prefix e "PCI") in Hp; [|done|by vm_compute]. by apply go_eqb_false in Ht.
Qed.

Lemma existsb_map_ext {A B} (g : A -> B) (p : B -> bool) (q : A -> bool) l : Forall (fun a => p (g a) = q a) l -> existsb p (map g l) = existsb q l.
Proof. induction 1 as [|a l Ha _ IH]; [done|]. simpl. by rewrite Ha, IH. Qed.

Lemma forallb_eq {A} (p q : A -> bool) l : (forall a, p a = q a) -> forallb p l = forallb q l.
Proof. intros Hpq. induction l as [|a l IH]; [done|]. simpl. by rewrite Hpq, IH. Qed.

Lemma Forall_keep {A} (P : A -> Prop) (p : A -> bool) l : Forall P l -> Forall P (List.filter p l).
Proof. rewrite !List.Forall_forall. intros HP x [Hx _]%filter_In. by apply HP. Qed.

Lemma filter_twice {A} (p q : A -> bool) l : List.filter p (List.filter q l) = List.filter (fun a => q a && p a) l.
Proof. induction l as [|a l IH]; [done|]. simpl. destruct (q a); simpl; [destruct (p a); by rewrite IH|done]. Qed.

Lemma legacy_match f es : wf_fault f -> Forall wf_entity es -> legacyGPUMessageMatches (entry f) es = legacy_names f es.
Proof.
  intros Hf Hes. unfold legacyGPUMessageMatches, legacyIdentityTokens. rewrite split_entry, (split_identity f Hf) by (by apply Fields_before).
  rewrite Fields_join by (by apply tokens_words). rewrite (proj2 (filter_codes f Hf)).
  rewrite (existsb_map_ext EntityToken _ (fun e => EntityType e ==s "PCI")) by (eapply Forall_impl; [apply Hf|apply pci_token]).
  unfold legacy_names. rewrite length_map. destruct (fEntities f) as [|first rest] eqn:Hef; [done|]. cbn [length Nat.eqb negb andb]. rewrite <- Hef.
  destruct (existsb _ (fEntities f)); [done|]. cbn [negb andb]. destruct (HasPrefix _ "PCI:"); [done|]. cbn [negb andb]. f_equal.
  apply forallb_eq. intros e. destruct (EntityType e ==s "PCI"); [done|]. simpl. destruct (EntityType e ==s "GPU"); [|done].
  rewrite Hef. simpl. apply decide_bool. by rewrite go_eqb_true.
Qed.

Lemma code_match f codes : wf_fault f -> (forall c, c ∈ codes -> spaceless c /\ apart f (codeToken c)) ->
  messageMatchesAnyErrorCode (entry f) codes = in_scope_of f codes.
Proof.
  intros Hf Hc. unfold messageMatchesAnyErrorCode, in_scope_of. destruct codes as [|c0 codes]; [done|]. cbn [length Nat.eqb orb].
  revert Hc. generalize (c0 :: codes). induction l as [|c l IH]; intros Hc; [done|]. cbn [existsb]. rewrite IH by (intros x Hx; apply Hc; by right).
  f_equal. destruct (Hc c) as [Hs Ha]; [left|]. rewrite <- string_app_assoc. change (ErrorCodePrefix +:+ c) with (codeToken c).
  rewrite (contains_token f) by (done || by apply code_word || apply code_colon). apply bool_decide_ext, code_in_tokens, Hf.
Qed.

Lemma entities_match f es : wf_fault f -> Forall (fun e => wf_entity e /\ entity_apart f e) es -> entitiesMatchMessage (entry f) es = names_all f es.
Proof.
  intros Hf Hes. unfold entitiesMatchMessage, names_all. destruct es as [|e0 es]; [done|]. cbn [length Nat.eqb negb andb].
  induction Hes as [|e l [He Ha] _ IH]; [done|]. cbn [forallb]. by rewrite IH, entity_match.
Qed.

Lemma recoveryEntities_sub event e : e ∈ recoveryEntities event -> e ∈ EntitiesImpacted event.
Proof.
  unfold recoveryEntities. destruct (negb _); [done|]. cbv zeta. destruct (negb _); [done|].
  intros Hin. apply list_elem_of_In, filter_In in Hin as [Hin _]. by apply list_elem_of_In.
Qed.

Lemma filter_map_entries (p : string -> bool) (q : fault -> bool) fs : Forall (fun f => p (entry f) = q f) fs ->
  List.filter p (map entry fs) = map entry (List.filter q fs).
Proof. induction 1 as [|f fs Hf _ IH]; [done|]. simpl. rewrite Hf, IH. by destruct (q f). Qed.

(** One event, as text and as faults. *)
Lemma aggregate_fold fs event : Forall wf_fault fs ->
  (if IsHealthy event then Forall (recovery_apart event) fs else wf_fault (fault_of event)) ->
  aggregateEvent (map entry fs) event = map entry (fold_fault fs event) /\ Forall wf_fault (fold_fault fs event).
Proof.
  intros Hfs He. unfold aggregateEvent, fold_fault. destruct (IsHealthy event); simpl.
  - destruct (Nat.eqb (length (EntitiesImpacted event)) 0); simpl; [done|].
    assert (Hsub : forall f, recovery_apart event f -> Forall (fun e => wf_entity e /\ entity_apart f e) (recoveryEntities event)).
    { intros f [Ha _]. apply Forall_forall. intros e Hin. apply Ha. by apply recoveryEntities_sub. }
    split; [|by apply Forall_keep]. unfold removeImpactedEntitiesMessagesScoped.
    assert (Hboth : Forall (fun f => wf_fault f /\ recovery_apart event f) fs) by (by apply Forall_and).
    rewrite (filter_map_entries _ (fun f => negb (names_all f (recoveryEntities event) && in_scope_of f (ErrorCode event)))).
    2: { eapply Forall_impl; [exact Hboth|]. intros f [Hf Ha]. simpl. rewrite entities_match by auto. by rewrite code_match by (done || apply Ha). }
    unfold clears. destruct (EqualFold (ComponentClass event) "GPU"); simpl.
    + unfold removeLegacyGPUMessages.
      rewrite (filter_map_entries _ (fun f => negb (legacy_names f (recoveryEntities event) && in_scope_of f (ErrorCode event)))).
      2: { apply Forall_keep. eapply Forall_impl; [exact Hboth|]. intros f [Hf Ha]. simpl.
           rewrite legacy_match by (done || (eapply Forall_impl; [by apply Hsub|by intros ? [? _]])). rewrite code_match by (done || apply Ha).
           by rewrite negb_andb. }
      rewrite filter_twice. f_equal. apply List.filter_ext. intros f. by destruct (names_all _ _), (in_scope_of _ _), (legacy_names _ _).
    + f_equal. apply List.filter_ext. intros f. by rewrite orb_false_r.
  - unfold addMessageIfNotExist. rewrite entry_cut.
    rewrite (existsb_map_ext entry _ (fun f => bool_decide (same_fault f (fault_of event)))).
    + destruct (existsb _ fs); [done|]. rewrite map_app. split; [done|]. apply Forall_app. split; [done|]. by apply Forall_singleton.
    + eapply Forall_impl; [exact Hfs|]. intros f Hf. simpl. rewrite match_entries by done. rewrite construct_entry.
      destruct (_ ==s _) eqn:Hx; [|done]. apply go_eqb_true in Hx. simpl. symmetry. apply bool_decide_eq_true.
      apply (f_equal chars) in Hx. rewrite !chars_app in Hx. apply app_inj_tail in Hx as [Hx%chars_inj _].
      pose proof (match_entries f _ Hf He) as Hm. rewrite Hx, match_entries in Hm by done.
      rewrite bool_decide_eq_true_2 in Hm by done. symmetry in Hm. by apply bool_decide_eq_true in Hm.
Qed.

(** ** Printing and parsing *)

Definition printed (ms : list string) : string := join ";" ms +:+ ";".

Lemma split_clean s rest : no_char ";"%char s -> split_on ";"%char (s +:+ String ";"%char rest) = s :: split_on ";"%char rest.
Proof.
  induction s as [|c s IH]; [done|]. intros [Hc Hs]. rewrite string_cons_app. cbn [split_on].
  rewrite decide_False by done. by rewrite IH.
Qed.

Lemma split_printed ms : ms <> [] -> Forall (no_char ";"%char) ms -> split_on ";"%char (printed ms) = ms ++ [""%string].
Proof.
  unfold printed. intros Hne Hms. induction Hms as [|m ms Hm Hms IH]; [done|]. destruct ms as [|m' ms].
  - change (join ";" [m] +:+ ";")%string with (m +:+ String ";" ""). by rewrite split_clean.
  - change (join ";" (m :: m' :: ms) +:+ ";")%string with ((m +:+ String ";" (join ";" (m' :: ms))) +:+ ";")%string.
    rewrite string_app_assoc, string_cons_app, split_clean by done. by rewrite IH.
Qed.

Lemma spaced_no_char x ts : x <> " "%char -> Forall (no_char x) ts -> no_char x (spaced ts).
Proof.
  intros Hx. induction 1 as [|t ts Ht _ IH]; [done|]. cbn [spaced fold_right]. fold (spaced ts). rewrite !no_char_cat. split; [done|]. split; [|done].
  split; [by intros <-|done].
Qed.

Lemma entry_clean f : wf_fault f -> no_char ";"%char (entry f).
Proof.
  intros [C E [T _]]. unfold entry. rewrite !no_char_cat. split; [|split].
  - apply spaced_no_char; [done|]. unfold tokens. rewrite Forall_app, !List.Forall_map. split.
    + eapply Forall_impl; [exact C|]. intros c [_ Hc]. apply no_char_cat. split; [by vm_compute|done].
    + eapply Forall_impl; [exact E|]. intros e [(_ & _ & A & _) (_ & B & _)]. unfold EntityToken. rewrite !no_char_cat. split; [done|].
      split; [by vm_compute|done].
  - unfold text_part. destruct (_ ==s ""); [done|]. apply no_char_cat. split; [done|by vm_compute].
  - by destruct (fAction f); vm_compute.
Qed.

Lemma entry_equals f : "="%char ∈ chars (entry f).
Proof. unfold entry, action_part. rewrite !chars_app, !elem_of_app. right. right. left. vm_compute. set_solver. Qed.

Lemma trim_left_chars c s : is_space c = false -> c ∈ chars s -> c ∈ chars (trim_left s).
Proof.
  intros Hc. induction s as [|d s IH]; [done|]. simpl. rewrite elem_of_cons. intros [->|Hin].
  - rewrite Hc. left.
  - destruct (is_space d); [by apply IH|]. by right.
Qed.

Lemma trim_right_chars c s : is_space c = false -> c ∈ chars s -> c ∈ chars (trim_right s).
Proof.
  intros Hc. induction s as [|d s IH]; [done|]. cbn [trim_right chars]. rewrite elem_of_cons. intros [->|Hin].
  - destruct (trim_right s); [rewrite Hc|]; left.
  - specialize (IH Hin). destruct (trim_right s); [by apply not_elem_of_nil in IH|]. by right.
Qed.

Lemma entry_kept f : negb ((entry f ==s "") || (entry f ==s truncationSuffix) || isNoHealthFailureMessage (entry f)) = true.
Proof.
  pose proof (entry_equals f) as He. apply negb_true_iff, orb_false_iff. split; [apply orb_false_iff; split; apply go_eqb_false; intros Hx; rewrite Hx in He|].
  - by apply not_elem_of_nil in He.
  - vm_compute in He. set_solver.
  - unfold isNoHealthFailureMessage, EqualFold. apply go_eqb_false. intros Hx. apply (f_equal chars) in Hx. rewrite !to_lower_chars in Hx.
    assert ("="%char ∈ lower <$> chars (TrimSpace (entry f))) as Hin.
    { change "="%char with (lower "="%char). apply list_elem_of_fmap_2. unfold TrimSpace. by apply trim_right_chars, trim_left_chars. }
    rewrite Hx in Hin. revert Hin. apply (bool_decide_eq_false (_ ∈ _)). by vm_compute.
Qed.

Lemma parse_printed fs : Forall wf_fault fs -> fs <> [] -> parseMessages (printed (map entry fs)) = map entry fs.
Proof.
  intros Hfs Hne. unfold parseMessages.
  assert ((printed (map entry fs) ==s "") = false) as ->.
  { apply go_eqb_false. unfold printed. intros Hx. apply (f_equal String.length) in Hx. rewrite string_length_app in Hx. simpl in Hx. lia. }
  rewrite split_printed; [|by destruct fs|rewrite List.Forall_map; eapply Forall_impl; [exact Hfs|apply entry_clean]].
  rewrite List.filter_app. simpl. rewrite app_nil_r. clear. induction fs as [|f fs IH]; [done|]. cbn [map List.filter]. by rewrite entry_kept, IH.
Qed.

(** ** Entries that fit *)

Lemma fill_fits (maxLen : Z) ms : forall result separator,
  (slen result + slen separator + slen (join ";" ms) + 1 <= maxLen)%Z ->
  fill maxLen result separator ms = (match ms with [] => result | _ => result +:+ separator +:+ join ";" ms end, false).
Proof.
  induction ms as [|m ms IH]; intros result separator Hl; [done|]. cbn [fill].
  assert (Hm : (slen (join ";" (m :: ms)) = slen m + match ms with [] => 0 | _ => 1 + slen (join ";" ms) end)%Z).
  { destruct ms as [|m' ms]; [simpl; lia|]. change (join ";" (m :: m' :: ms)) with (m +:+ ";" +:+ join ";" (m' :: ms)).
    unfold slen. rewrite !string_length_app. simpl. lia. }
  rewrite Hm in Hl. assert (0 <= slen (join ";" ms))%Z by (unfold slen; lia).
  rewrite (proj2 (Z.ltb_ge _ _)) by (destruct ms; lia). destruct ms as [|m' ms]; [done|].
  rewrite IH by (unfold slen in *; rewrite !string_length_app; cbn [String.length] in *; lia).
  change (join ";" (m :: m' :: ms)) with (m +:+ ";" +:+ join ";" (m' :: ms)). by rewrite !string_app_assoc.
Qed.

Definition fits (cfg : K8sConnectorConfig) (fs : list fault) : Prop :=
  (totalMessageLength (map entry fs) <= MaxNodeConditionMessageLength cfg)%Z.

Lemma truncate_fits cfg fs : fs <> [] -> fits cfg fs -> truncateNodeConditionMessage cfg (map entry fs) = printed (map entry fs).
Proof.
  intros Hne Hf. unfold fits in Hf. unfold truncateNodeConditionMessage, fitted. rewrite !(proj2 (Z.ltb_ge _ _) Hf). rewrite fill_fits.
  - destruct fs; [done|]. cbn [map]. unfold printed. by rewrite string_app_assoc.
  - unfold totalMessageLength in Hf. change (slen "") with 0%Z. lia.
Qed.

(** ** Conditions *)

(** The condition says these faults. *)
Definition shows (conditions : list NodeCondition) (type : string) (fs : list fault) : Prop :=
  match findNodeCondition conditions type with
  | Some (_, c) => parseMessages (cMessage c) = map entry fs
  | None => fs = []
  end.

(** The condition as the connector writes it. *)
Record canonical (c : NodeCondition) (fs : list fault) : Prop := {
  can_message : cMessage c = if Nat.eqb (length fs) 0 then NoHealthFailureMsg else printed (map entry fs);
  can_status : cStatus c = if Nat.eqb (length fs) 0 then ConditionFalse else ConditionTrue;
  can_reason : cReason c = updateHealthEventReason (cType c) (Nat.eqb (length fs) 0) }.

(** The events can be read: faults are well formed, and a recovery cannot mistake
    the faults on the list when it comes. *)
Fixpoint readable (fs : list fault) (events : list HealthEvent) : Prop :=
  match events with
  | [] => True
  | e :: es => (if IsHealthy e then Forall (recovery_apart e) fs else wf_fault (fault_of e)) /\ readable (fold_fault fs e) es
  end.

#[export] Instance readable_dec events : forall fs, Decision (readable fs events).
Proof.
  induction events as [|e es IH]; intros fs; [by left|]. simpl. specialize (IH (fold_fault fs e)). destruct (IsHealthy e); apply _.
Defined.

Lemma aggregate_events events : forall fs, Forall wf_fault fs -> readable fs events ->
  aggregateEventMessages (map entry fs) events = map entry (fold_left fold_fault events fs) /\ Forall wf_fault (fold_left fold_fault events fs).
Proof.
  unfold aggregateEventMessages. induction events as [|e es IH]; intros fs Hfs Hr; [done|]. destruct Hr as [He Hr]. cbn [fold_left].
  destruct (aggregate_fold fs e Hfs He) as [-> Hw]. by apply IH.
Qed.

Lemma find_insert_self (conditions : list NodeCondition) type i c c' : findNodeCondition conditions type = Some (i, c) -> cType c' = type ->
  findNodeCondition (<[i := c']> conditions) type = Some (i, c').
Proof.
  unfold findNodeCondition. rewrite !list_find_Some. intros (Hl & Ht & Hb) Hc. pose proof (lookup_lt_Some _ _ _ Hl). split; [by apply list_lookup_insert_eq|].
  split; [done|]. intros j y Hy Hlt. rewrite list_lookup_insert_ne in Hy by lia. by eapply Hb.
Qed.

Lemma find_append_self (conditions : list NodeCondition) type c' : findNodeCondition conditions type = None -> cType c' = type ->
  findNodeCondition (conditions ++ [c']) type = Some (length conditions, c').
Proof.
  unfold findNodeCondition. intros Hn Hc. rewrite list_find_app_r by done. simpl. by rewrite decide_True.
Qed.

Lemma find_other_insert (conditions : list NodeCondition) type other i c c' : findNodeCondition conditions type = Some (i, c) -> cType c' = type ->
  other <> type -> findNodeCondition (<[i := c']> conditions) other = findNodeCondition conditions other.
Proof.
  unfold findNodeCondition. rewrite list_find_Some. intros (Hl & Ht & _) Hc Ho. revert i Hl. induction conditions as [|d cs IH]; intros [|i] Hl; try done; simpl in *.
  - injection Hl as <-. by rewrite !decide_False by congruence.
  - destruct (decide (cType d = other)); [done|]. by rewrite IH.
Qed.

Lemma find_other_append (conditions : list NodeCondition) type other c' : cType c' = type -> other <> type ->
  snd <$> findNodeCondition (conditions ++ [c']) other = snd <$> findNodeCondition conditions other.
Proof.
  unfold findNodeCondition. intros Hc Ho. induction conditions as [|d cs IH]; simpl; [by rewrite decide_False by congruence|].
  destruct (decide (cType d = other)); [done|]. rewrite <- !option_fmap_compose. by destruct (list_find _ (cs ++ _)), (list_find _ cs).
Qed.

Lemma find_type (conditions : list NodeCondition) type i c : findNodeCondition conditions type = Some (i, c) -> cType c = type.
Proof. unfold findNodeCondition. rewrite list_find_Some. by intros (_ & ? & _). Qed.

Section theory.
Context (cfg : K8sConnectorConfig) (GeneratedTimestamp : HealthEvent -> option Z) (now : Z).

(** The condition that is written. *)
Definition written (fs : list fault) (type : string) (heartbeat transition : Z) : NodeCondition :=
  {| cType := type; cStatus := if Nat.eqb (length fs) 0 then ConditionFalse else ConditionTrue;
     cReason := updateHealthEventReason type (Nat.eqb (length fs) 0);
     cMessage := if Nat.eqb (length fs) 0 then NoHealthFailureMsg else printed (map entry fs);
     LastHeartbeatTime := heartbeat; LastTransitionTime := transition |}.

Lemma process_written conditions type events fs :
  let fs' := fold_left fold_fault events fs in
  shows conditions type fs -> Forall wf_fault fs -> events <> [] -> Forall (fun e => CheckName e = type) events ->
  readable fs events -> fits cfg fs' ->
  exists heartbeat transition, let c := written fs' type heartbeat transition in
    processNodeCondition cfg GeneratedTimestamp now conditions type events =
      match findNodeCondition conditions type with
      | None => (conditions ++ [c], true)
      | Some (i, previous) =>
          (<[i := c]> conditions, (cStatus previous <>s cStatus c) || (cReason previous <>s cReason c) || (cMessage previous <>s cMessage c))
      end.
Proof.
  intros fs' Hsh Hfs Hne Hty Hr Hfit. destruct (aggregate_events events fs Hfs Hr) as [Hag _]. fold fs' in Hag.
  unfold processNodeCondition. destruct (last events) as [latest|] eqn:Hlast; [|by apply last_None in Hlast].
  assert (Hlt : CheckName latest = type) by (rewrite Forall_forall in Hty; apply Hty; apply last_Some in Hlast as [l ->]; apply elem_of_app; right; left).
  set (t := safeTimestamp _ _). exists t.
  set (msgs := aggregateEventMessages _ events). assert (Hm : msgs = map entry fs').
  { unfold msgs. unfold shows in Hsh. destruct (findNodeCondition conditions type) as [[i c]|]; [by rewrite Hsh|]. rewrite Hsh in Hag. exact Hag. }
  rewrite Hm, length_map. unfold written.
  destruct (Nat.eqb (length fs') 0) eqn:H0; [|rewrite truncate_fits by (done || by destruct fs')];
    (destruct (findNodeCondition conditions type) as [[i c]|] eqn:Hf; [rewrite (find_type _ _ _ _ Hf)|]; rewrite Hlt; by eexists).
Qed.

Lemma written_canonical fs type h t : canonical (written fs type h t) fs.
Proof. by split. Qed.

Lemma parse_written fs type h t : Forall wf_fault fs -> parseMessages (cMessage (written fs type h t)) = map entry fs.
Proof. intros Hw. simpl. destruct fs as [|f fs]; [by vm_compute|]. cbn [length Nat.eqb]. by apply parse_printed. Qed.

End theory.

(** ** The length of the text *)

Lemma slen_app a b : slen (a +:+ b) = (slen a + slen b)%Z.
Proof. unfold slen. rewrite string_length_app. lia. Qed.

Lemma slen_upto s n : (0 <= n <= slen s)%Z -> slen (upto s n) = n.
Proof. intros Hn. unfold slen, upto in *. rewrite take_str_length. lia. Qed.

Lemma slen_nonneg s : (0 <= slen s)%Z.
Proof. unfold slen. lia. Qed.

(** The separator before the next entry. *)
Definition separator_after (whole : list string) : string := match whole with [] => ""%string | _ => ";"%string end.

Lemma join_snoc whole m : join ";" (whole ++ [m]) = (join ";" whole +:+ separator_after whole +:+ m)%string.
Proof.
  induction whole as [|a l IH]; [done|]. destruct l as [|b l]; [done|]. change ((a :: b :: l) ++ [m]) with (a :: b :: (l ++ [m])).
  change (join ";" (a :: b :: (l ++ [m]))) with (a +:+ ";" +:+ join ";" ((b :: l) ++ [m]))%string. rewrite IH.
  change (join ";" (a :: b :: l)) with (a +:+ ";" +:+ join ";" (b :: l))%string. cbn [separator_after]. by rewrite !string_app_assoc.
Qed.

(** What the last tier leaves of the entries, after [whole] was written. *)
Definition filled (maxLen : Z) (whole rest : list string) : string * bool :=
  match rest with
  | [] => (join ";" whole, false)
  | m :: _ =>
      let room := (maxLen - slen (join ";" whole) - slen (separator_after whole) - 1 - 3)%Z in
      (if (0 <? room)%Z then join ";" whole +:+ separator_after whole +:+ upto m room else join ";" whole, true)%string
  end.

Lemma fill_entries maxLen ms : forall whole, (slen (join ";" whole) + 1 <= maxLen)%Z ->
  exists more rest, ms = more ++ rest /\ (slen (join ";" (whole ++ more)) + 1 <= maxLen)%Z /\
    (forall m l, rest = m :: l -> (maxLen < slen (join ";" (whole ++ more ++ [m])) + 1)%Z) /\
    fill maxLen (join ";" whole) (separator_after whole) ms = filled maxLen (whole ++ more) rest.
Proof.
  induction ms as [|m ms IH]; intros whole Hw; [exists [], []; rewrite (app_nil_r whole); split_and!; done|]. cbn [fill].
  destruct (maxLen <? _)%Z eqn:Hm.
  - apply Z.ltb_lt in Hm. exists [], (m :: ms). rewrite app_nil_r. split; [done|]. split; [done|]. split; [|done]. intros m' l [= <- <-]. simpl.
    rewrite join_snoc, !slen_app. lia.
  - apply Z.ltb_ge in Hm. destruct (IH (whole ++ [m])) as (more & rest & -> & Hb & Hcut & Hf); [rewrite join_snoc, !slen_app; lia|].
    rewrite <- !app_assoc in *. exists (m :: more), rest. split; [done|]. split; [done|]. split; [intros m' l Hr; specialize (Hcut m' l Hr); by rewrite <- app_assoc in Hcut|].
    change (whole ++ m :: more) with (whole ++ [m] ++ more). rewrite <- Hf, join_snoc. f_equal. by destruct whole.
Qed.


(** ** Compaction *)

Definition with_text (f : fault) (text : string) : fault :=
  {| fCodes := fCodes f; fEntities := fEntities f; fText := text; fAction := fAction f |}.

(** A text made shorter: its words are words of the original, or begin one of them
    and end with the cut mark. *)
Definition shortened (text text' : string) : Prop :=
  (forall c, c ∈ chars text' -> c ∈ chars text \/ c = " "%char \/ c = "."%char) /\
  (forall w, w ∈ Fields text' -> w ∈ Fields text \/ exists p, w = (p +:+ truncationSuffix)%string /\ (p = ""%string \/ exists v, v ∈ Fields text /\ HasPrefix v p = true)) /\
  (head (Fields text') = head (Fields text) \/ exists p, head (Fields text') = Some (p +:+ truncationSuffix)%string /\
     (p = ""%string \/ exists v, head (Fields text) = Some v /\ HasPrefix v p = true)).

Lemma shortened_refl text : shortened text text.
Proof. split; [by left|]. split; by left. Qed.

Lemma shortened_dots text : shortened text truncationSuffix.
Proof.
  split; [intros c Hc; right; right; vm_compute in Hc; set_solver|]. split.
  - intros w Hw. right. exists ""%string. split; [|by left]. by apply list_elem_of_singleton in Hw.
  - right. exists ""%string. split; [done|by left].
Qed.

Lemma spaceless_take n s : spaceless s -> spaceless (take_str n s).
Proof. intros Hs. rewrite <- (take_drop_str n s) in Hs. by apply spaceless_app in Hs as [? _]. Qed.

Lemma word_dots p : spaceless p -> word (p +:+ truncationSuffix).
Proof. intros Hp. split; [by destruct p|]. apply spaceless_app. split; [done|]. by repeat constructor. Qed.

(** The first word survives or is cut; what follows it is cut likewise. *)
Lemma cut_cons w rest k : word w ->
  (exists p, Fields (take_str k (w +:+ String " "%char rest) +:+ truncationSuffix) = [p +:+ truncationSuffix]%string /\ HasPrefix w p = true) \/
  (exists k', Fields (take_str k (w +:+ String " "%char rest) +:+ truncationSuffix) = w :: Fields (take_str k' rest +:+ truncationSuffix)).
Proof.
  intros Hw. destruct (decide (k <= String.length w)) as [Hk|Hk].
  - left. exists (take_str k w). rewrite take_str_app_le by done. split; [|apply take_str_prefix]. apply Fields_last, word_dots, spaceless_take, Hw.
  - right. exists (k - String.length w - 1). replace k with (String.length w + S (k - String.length w - 1)) at 1 by lia.
    rewrite take_str_app_ge. cbn [take_str]. rewrite string_app_assoc, string_cons_app. by apply Fields_word.
Qed.

Lemma cut_fields ws : Forall word ws -> forall k,
  (forall w, w ∈ Fields (take_str k (join " " ws) +:+ truncationSuffix) -> w ∈ ws \/
     exists p, w = (p +:+ truncationSuffix)%string /\ (p = ""%string \/ exists v, v ∈ ws /\ HasPrefix v p = true)) /\
  (head (Fields (take_str k (join " " ws) +:+ truncationSuffix)) = head ws \/
     exists p, head (Fields (take_str k (join " " ws) +:+ truncationSuffix)) = Some (p +:+ truncationSuffix)%string /\
       (p = ""%string \/ exists v, head ws = Some v /\ HasPrefix v p = true)).
Proof.
  assert (Hnil : forall ws' : list string, exists p, truncationSuffix = (p +:+ truncationSuffix)%string /\ (p = ""%string \/ exists v, v ∈ ws' /\ HasPrefix v p = true))
    by (intros; exists ""%string; split; [done|by left]).
  induction 1 as [|w ws Hw Hws IH]; intros k.
  { simpl join. rewrite take_str_all by (simpl; lia). split; [|right; exists ""%string; split; [done|by left]].
    intros x Hx. apply list_elem_of_singleton in Hx as ->. right. apply Hnil. }
  destruct ws as [|v ws].
  - change (join " " [w]) with w. assert (Hf : Fields (take_str k w +:+ truncationSuffix) = [take_str k w +:+ truncationSuffix]%string)
      by (apply Fields_last, word_dots, spaceless_take, Hw).
    rewrite Hf. split; [intros x ->%list_elem_of_singleton; right|right]; exists (take_str k w); (split; [done|]); right; exists w;
      (split; [by (left || done)|apply take_str_prefix]).
  - change (join " " (w :: v :: ws)) with (w +:+ String " "%char (join " " (v :: ws))).
    destruct (cut_cons w (join " " (v :: ws)) k Hw) as [(p & -> & Hp)|[k' ->]].
    + split; [intros x ->%list_elem_of_singleton; right|right]; exists p; (split; [done|]); right; exists w; (split; [by (left || done)|done]).
    + destruct (IH k') as [I1 _]. split; [|by left]. intros x [->|Hx]%elem_of_cons; [left; left|].
      destruct (I1 x Hx) as [?|(p & -> & Hp)]; [left; by right|right]. exists p. split; [done|]. destruct Hp as [?|(y & Hy & ?)]; [by left|right]. exists y. split; [by right|done].
Qed.

Lemma fields_are_words s : Forall word (Fields s).
Proof. apply Forall_forall. intros w Hw. by apply Fields_elem in Hw as [? _]. Qed.

Lemma join_chars ws c : c ∈ chars (join " " ws) -> (exists w, w ∈ ws /\ c ∈ chars w) \/ c = " "%char.
Proof.
  induction ws as [|w ws IH]; [by intros Hc%not_elem_of_nil|]. destruct ws as [|v ws].
  - intros Hc. left. exists w. split; [left|done].
  - change (join " " (w :: v :: ws)) with (w +:+ String " "%char (join " " (v :: ws))). rewrite chars_app, elem_of_app. cbn [chars]. rewrite elem_of_cons.
    intros [Hc|[->|Hc]]; [left; exists w; split; [left|done]|by right|]. destruct (IH Hc) as [(x & Hx & ?)|?]; [left; exists x; split; [by right|done]|by right].
Qed.

(** A compacted diagnostic text is a shortened one. *)
Lemma truncate_shortened text n : shortened text (truncateWithSuffix (join " " (Fields text)) n).
Proof.
  assert (Hjoin : forall c, c ∈ chars (join " " (Fields text)) -> c ∈ chars text \/ c = " "%char).
  { intros c [(w & Hw & Hc)|?]%join_chars; [|by right]. left. destruct (Fields_elem _ _ Hw) as [_ Hch]. by apply Hch. }
  unfold truncateWithSuffix. destruct (_ <=? _)%Z; [apply shortened_dots|]. destruct (_ <? _)%Z; [|].
  - unfold upto. set (k := Z.to_nat _). destruct (cut_fields (Fields text) (fields_are_words text) k) as [H1 H2]. split; [|done].
    intros c. rewrite chars_app, elem_of_app. intros [Hc|Hc]; [|right; right; vm_compute in Hc; set_solver].
    rewrite <- (take_drop_str k (join " " (Fields text))) in Hjoin. destruct (Hjoin c) as [?|?]; [rewrite chars_app, elem_of_app; by left|by left|by right; left].
  - split; [intros c Hc; destruct (Hjoin c Hc) as [?|?]; [by left|by right; left]|]. rewrite (Fields_join (Fields text)) by apply fields_are_words. split; by left.
Qed.

(** The text does not start with something like a token. *)
Definition plain_start (text : string) : Prop := match head (Fields text) with Some w => colon ∉ chars w | None => True end.

Lemma no_colon_identity w : colon ∉ chars w -> identityToken w = false.
Proof.
  intros Hc. unfold identityToken, isStructuredEntityToken.
  assert (HasPrefix w ErrorCodePrefix = false) as ->.
  { apply not_true_is_false. intros [t ->]%HasPrefix_spec. apply Hc. rewrite chars_app, elem_of_app. left. vm_compute. set_solver. }
  simpl. assert (IndexChar w colon = None) as ->; [|done]. induction w as [|x w IH]; [done|]. simpl in *. rewrite not_elem_of_cons in Hc.
  rewrite decide_False by (intros ->; tauto). by rewrite IH by tauto.
Qed.

Lemma prefix_chars v p x : HasPrefix v p = true -> x ∈ chars p -> x ∈ chars v.
Proof. intros [t ->]%HasPrefix_spec Hx. rewrite chars_app, elem_of_app. by left. Qed.

Lemma dots_no_colon p : colon ∉ chars p -> colon ∉ chars (p +:+ truncationSuffix).
Proof. intros Hp. rewrite chars_app, not_elem_of_app. split; [done|]. vm_compute. set_solver. Qed.

Lemma shortened_plain text text' : shortened text text' -> plain_start text -> plain_start text'.
Proof.
  intros (_ & _ & Hh) Hp. unfold plain_start in *. destruct Hh as [->|(p & -> & Hv)]; [done|]. apply dots_no_colon.
  destruct Hv as [->|(v & Hv & Hpre)]; [apply not_elem_of_nil|]. rewrite Hv in Hp. intros Hx. apply Hp. by eapply prefix_chars.
Qed.

Lemma shortened_wf f text' : wf_fault f -> plain_start (fText f) -> shortened (fText f) text' -> wf_fault (with_text f text').
Proof.
  intros [C E [T _]] Hp Hs. split; [done|done|]. split; simpl.
  - apply no_char_chars. intros Hx. destruct Hs as (Hc & _). destruct (Hc _ Hx) as [?|[?|?]]; [by apply no_char_chars in T|done|done].
  - pose proof (shortened_plain _ _ Hs Hp) as Hp'. unfold plain_start in Hp'. destruct (head _); [by apply no_colon_identity|done].
Qed.

Lemma dots_suffix p tok : HasSuffix tok truncationSuffix = false -> 3 <= String.length tok -> HasSuffix (p +:+ truncationSuffix) tok = false.
Proof.
  intros Hd Hl. apply not_true_is_false. intros [t Ht]%HasSuffix_spec. apply (f_equal chars) in Ht. rewrite !chars_app in Ht.
  apply not_true_iff_false in Hd. apply Hd. apply app_eq_app in Ht as [l [[H1 H2]|[H1 H2]]].
  - apply HasSuffix_spec. exists (of_chars l). apply chars_inj. by rewrite chars_app, H2, chars_of.
  - destruct l as [|x l].
    + apply HasSuffix_spec. exists ""%string. apply chars_inj. symmetry. exact H2.
    + apply (f_equal length) in H2. rewrite length_app, !chars_length in H2. simpl in H2. lia.
Qed.

Lemma shortened_apart f text' tok : shortened (fText f) text' -> HasSuffix tok truncationSuffix = false -> 3 <= String.length tok ->
  apart f tok -> apart (with_text f text') tok.
Proof.
  intros (_ & Hs & _) Hd Hl [A1 A2]. split; [done|]. intros w Hw. destruct (Hs w Hw) as [Hin|(p & -> & _)]; [by apply A2|by apply dots_suffix].
Qed.

Lemma dots_prefix p type : (p = ""%string \/ HasPrefix p (type +:+ ":") = false) -> HasPrefix (p +:+ truncationSuffix) (type +:+ ":") = false.
Proof.
  intros Hp. apply not_true_is_false. intros [t Ht]%HasPrefix_spec.
  assert (Hc : colon ∈ chars (p +:+ truncationSuffix)) by (rewrite Ht, !chars_app, !elem_of_app; left; right; left).
  destruct Hp as [->|Hp]; [revert Hc; apply no_char_chars; by vm_compute|]. apply not_true_iff_false in Hp. apply Hp.
  apply (f_equal chars) in Ht. rewrite !chars_app in Ht. apply app_eq_app in Ht as [l [[H1 H2]|[H1 H2]]].
  - apply HasPrefix_spec. exists (of_chars l). apply chars_inj. by rewrite !chars_app, H1, chars_of.
  - destruct (decide (l = [])) as [->|Hne]; [rewrite app_nil_r in H1; apply HasPrefix_spec; exists ""%string; rewrite string_app_nil_r; symmetry; apply chars_inj; by rewrite chars_app|].
    exfalso. assert (Hl : last l = Some colon).
    { change (chars ":") with [colon] in H1. apply (f_equal last) in H1. rewrite last_snoc in H1. rewrite last_app in H1. destruct (last l) eqn:Hlast; [by injection H1 as <-|]. by apply last_None in Hlast. }
    apply last_Some in Hl as [l' ->]. assert (colon ∈ chars truncationSuffix) as Hx by (rewrite H2, !elem_of_app; left; right; left).
    revert Hx. apply no_char_chars. by vm_compute.
Qed.

Lemma shortened_entity f text' e : wf_entity e -> shortened (fText f) text' -> entity_apart f e -> entity_apart (with_text f text') e.
Proof.
  intros He Hs [A1 A2]. destruct He as [((T & _) & _) ((V & _) & _ & D)]. split.
  - apply shortened_apart; [done|done| |done]. unfold EntityToken. rewrite !string_length_app. simpl. destruct (EntityType e), (EntityValue e); simpl; (done || lia).
  - destruct Hs as (_ & Hs & _). intros w Hw. destruct (Hs w Hw) as [Hin|(p & -> & Hp)]; [by apply A2|]. apply dots_prefix.
    destruct Hp as [?|(v & Hv & Hpre)]; [by left|right]. apply not_true_is_false. intros [t ->]%HasPrefix_spec. specialize (A2 v Hv).
    apply not_true_iff_false in A2. apply A2. apply HasPrefix_spec in Hpre as [u ->]. apply HasPrefix_spec. exists (t +:+ u). by rewrite string_app_assoc.
Qed.

Lemma join_spaced ts : ts <> [] -> spaced ts = join " " ts +:+ " ".
Proof.
  induction ts as [|t ts IH]; [done|]. intros _. destruct ts as [|u ts]; [done|]. cbn [spaced fold_right] in *. fold (spaced ts) in *.
  rewrite IH by done. change (join " " (t :: u :: ts)) with (t +:+ " " +:+ join " " (u :: ts)). by rewrite !string_app_assoc.
Qed.

Lemma truncate_nonempty s n : s <> ""%string -> truncateWithSuffix s n <> ""%string.
Proof. intros Hs. unfold truncateWithSuffix. destruct (_ <=? _)%Z; [done|]. destruct (_ <? _)%Z; [|done]. by destruct (upto _ _). Qed.

(** A compacted entry is an entry with a shorter text. *)
Lemma compact_entry f n : wf_fault f -> tokens f <> [] ->
  exists text', compactMessageField (entry f) n = entry (with_text f text') /\ shortened (fText f) text'.
Proof.
  intros Hf Ht. unfold compactMessageField. rewrite split_entry. destruct (_ <=? _)%Z; [exists (fText f); split; [by destruct f|apply shortened_refl]|].
  rewrite (split_identity f Hf) by (by rewrite Fields_trim, Fields_before).
  assert (Hform : forall x, x <> ""%string -> ((join " " (tokens f) +:+ " " +:+ x) +:+ " " +:+ action_part (fAction f))%string = entry (with_text f x)).
  { intros x Hx. unfold entry, text_part. change (tokens (with_text f x)) with (tokens f). rewrite (join_spaced (tokens f)) by done. simpl fText. simpl fAction.
    rewrite (proj2 (go_eqb_false x "") Hx). by rewrite !string_app_assoc. }
  unfold compactMessagePrefix. assert ((join " " (tokens f) ==s "") = false) as ->.
  { apply go_eqb_false. intros Hj. pose proof (Fields_join _ (tokens_words f Hf)) as Hx. by rewrite Hj in Hx. }
  destruct (_ <=? _)%Z; [exists truncationSuffix; split; [by apply Hform|apply shortened_dots]|].
  destruct (_ <=? 0)%Z; simpl orb; [exists truncationSuffix; split; [by apply Hform|apply shortened_dots]|].
  destruct (join " " (Fields (fText f)) ==s "") eqn:Hd; [exists truncationSuffix; split; [by apply Hform|apply shortened_dots]|].
  apply go_eqb_false in Hd. eexists. split; [by apply Hform, truncate_nonempty|apply truncate_shortened].
Qed.

Lemma plain_no_pci text : plain_start text -> HasPrefix (join " " (Fields text)) "PCI:" = false.
Proof.
  intros Hp. unfold plain_start in Hp. destruct (Fields text) as [|w ws]; [done|]. simpl in Hp. apply not_true_is_false.
  assert (Hj : exists s, join " " (w :: ws) = (w +:+ s)%string /\ (s = ""%string \/ exists s', s = String " "%char s')).
  { destruct ws as [|v ws]; [exists ""%string; rewrite string_app_nil_r; split; [done|by left]|]. by exists (" " +:+ join " " (v :: ws))%string; split; [|right; eexists]. }
  destruct Hj as (s & -> & Hs). intros [t Ht]%HasPrefix_spec.
  do 4 (destruct w as [|? w]; [destruct Hs as [->|[s' ->]]; done|injection Ht as -> Ht; cbn [chars] in Hp; rewrite not_elem_of_cons in Hp; destruct Hp as [? Hp]; try done]).
Qed.

(** A shorter text changes neither which faults an entry matches nor which
    recoveries clear it. *)
Lemma clears_shortened event f text' : plain_start (fText f) -> shortened (fText f) text' -> clears event (with_text f text') = clears event f.
Proof.
  intros Hp Hs. unfold clears, names_all, in_scope_of, legacy_names. cbn [with_text fEntities fCodes fText].
  rewrite (plain_no_pci _ Hp), (plain_no_pci _ (shortened_plain _ _ Hs Hp)). done.
Qed.

(** Compaction.  Compacting the entry of a fault, to whatever length, leaves an
    entry that the duplicate check takes for the same fault as before, and that
    the same recoveries clear.  Proved of a well-formed fault that has a code or an
    entity and whose diagnostic text does not start with something like a token, and
    of recoveries that its text and tokens cannot be mistaken for ([recovery_apart])
    and none of whose codes ends with the cut mark. *)
Theorem compaction_keeps_fault (f : fault) (n : Z) :
  wf_fault f -> tokens f <> [] -> plain_start (fText f) ->
  (forall g, wf_fault g -> messagesMatchByIdentity (compactMessageField (entry f) n) (entry g) = messagesMatchByIdentity (entry f) (entry g)) /\
  (forall event, IsHealthy event = true -> recovery_apart event f ->
     Forall (fun c => HasSuffix (codeToken c) truncationSuffix = false) (ErrorCode event) ->
     aggregateEvent [compactMessageField (entry f) n] event = [] <-> aggregateEvent [entry f] event = []).
Proof.
  intros Hf Ht Hp. destruct (compact_entry f n Hf Ht) as (text' & -> & Hs). pose proof (shortened_wf f text' Hf Hp Hs) as Hw. split.
  - intros g Hg. by rewrite !match_entries.
  - intros event Hh Ha Hc.
    assert (Ha' : recovery_apart event (with_text f text')).
    { destruct Ha as [A1 A2]. split.
      - intros e He. destruct (A1 e He) as [We Ae]. split; [done|]. by apply shortened_entity.
      - intros c Hin. destruct (A2 c Hin) as [Sc Ac]. split; [done|]. rewrite Forall_forall in Hc. specialize (Hc c Hin).
        apply shortened_apart; [done|done|unfold codeToken; rewrite string_length_app; simpl; lia|done]. }
    destruct (aggregate_fold [f] event) as [E1 _]; [by apply Forall_singleton|by rewrite Hh; apply Forall_singleton|].
    destruct (aggregate_fold [with_text f text'] event) as [E2 _]; [by apply Forall_singleton|by rewrite Hh; apply Forall_singleton|].
    cbn [map] in E1, E2. rewrite E1, E2. unfold fold_fault. rewrite Hh. simpl. destruct (Nat.eqb _ 0); simpl; [done|].
    rewrite (clears_shortened event f text' Hp Hs). by destruct (clears event f).
Qed.
