(* ===== verification/Connector.v ===== *)
(** * The Kubernetes connector's writes

    Models the rest of
    [platform-connectors/pkg/connectors/kubernetes]: a batch of events becomes an
    ordered list of writes, one per node for its conditions and one per event for
    Kubernetes Events, each retried on its own.  The API server and the backoff of
    client-go are interfaces.

    [condition_write_atomic]: a reported write replaced exactly the conditions it
    was computed from. *)

From stdpp Require Import gmap strings list fin_maps sorting.
From Stdlib Require Import ZArith Lia Ascii.
From S2P Require Import Prelude HealthEvent KubeRetry GoText NodeCondition.

#[local] Open Scope nat_scope.

(** ** Errors worth a retry *)

(** What [errors.Is], [errors.As] and the API machinery tell about an error. *)
Class ErrorKinds := {
  IsInvalid : kerror -> bool;
  isContextError : kerror -> bool;
  isKubernetesAPIError : kerror -> bool;
  isNetworkError : kerror -> bool;
  isSyscallError : kerror -> bool;
  isEOF : kerror -> bool }.

Definition contains_any (errStr : string) (patterns : list string) : bool := existsb (Contains errStr) patterns.

Definition isHTTPConnectionError (errStr : string) : bool :=
  contains_any errStr ["http2: client connection lost"; "http2: server connection lost"; "http2: connection closed";
    "connection reset by peer"; "broken pipe"; "connection refused"; "connection timed out"; "i/o timeout";
    "network is unreachable"; "host is unreachable"]%string.

Definition isTLSError (errStr : string) : bool :=
  contains_any errStr ["tls: handshake timeout"; "tls: oversized record received"; "remote error: tls:"]%string.

Definition isDNSError (errStr : string) : bool :=
  contains_any errStr ["no such host"; "dns: no answer"; "temporary failure in name resolution"]%string.

Definition isLoadBalancerError (errStr : string) : bool :=
  contains_any errStr ["502 Bad Gateway"; "503 Service Unavailable"; "504 Gateway Timeout"]%string.

Definition isKubernetesStringError (errStr : string) : bool :=
  contains_any errStr ["the server is currently unable to handle the request"; "etcd cluster is unavailable";
    "unable to connect to the server"; "server is not ready"]%string.

Definition isStringBasedError (e : kerror) : bool :=
  isHTTPConnectionError (kmsg e) || isTLSError (kmsg e) || isDNSError (kmsg e) || isLoadBalancerError (kmsg e)
  || isKubernetesStringError (kmsg e).

Definition isTemporaryError `{ErrorKinds} (e : kerror) : bool :=
  isContextError e || isKubernetesAPIError e || isNetworkError e || isSyscallError e || isStringBasedError e || isEOF e
  || Contains (kmsg e) "EOF".

Definition isKubernetesConnectorRetryableError `{ErrorKinds} (e : kerror) : bool := IsConflict e || isTemporaryError e.

(** ** Retrying one write *)

(** How the condition function of [wait.ExponentialBackoffWithContext] ends, and
    how the wait does. *)
Inductive cond := CondDone | CondAgain | CondErr (e : kerror).
Inductive wait_end := WaitDone | WaitErr (e : kerror) | WaitInterrupted (e : kerror).

Abbreviation backoff S := ((S -> cond * S) -> S -> wait_end * S).

(** The runs of a condition function: it is called again only while it asks for
    it, and the wait may end between two calls, or before the first one when the
    context is done. *)
Inductive wait_run {S} (cancelled : S -> Prop) (f : S -> cond * S) : bool -> S -> wait_end -> S -> Prop :=
| wait_done b s s' : f s = (CondDone, s') -> wait_run cancelled f b s WaitDone s'
| wait_err b s e s' : f s = (CondErr e, s') -> wait_run cancelled f b s (WaitErr e) s'
| wait_stop b s e : b = false \/ cancelled s -> wait_run cancelled f b s (WaitInterrupted e) s
| wait_again b s s1 r s' : f s = (CondAgain, s1) -> wait_run cancelled f false s1 r s' -> wait_run cancelled f b s r s'.

Definition backoff_law {S} (cancelled : S -> Prop) (b : backoff S) : Prop := forall f s, wait_run cancelled f true s (b f s).1 (b f s).2.

Section write_retry.
Context {S : Type} (Backoff : backoff (S * option kerror)) (ctx_err : S -> option kerror) (is_interrupted : kerror -> bool).

(** [lastErr] is the second component of the state. *)
Definition retryKubernetesAPIWrite (retryable : kerror -> bool) (run : S -> option kerror * S) (s : S) : option kerror * S :=
  let '(err, (s', lastErr)) := Backoff (fun '(s, _) =>
    match run s with
    | (None, s') => (CondDone, (s', None))
    | (Some e, s') => (if retryable e then CondAgain else CondErr e, (s', Some e))
    end) (s, None) in
  match err with
  | WaitDone => (None, s')
  | WaitErr e => (if is_interrupted e && bool_decide (ctx_err s' = None) then lastErr else Some e, s')
  | WaitInterrupted e => (if bool_decide (ctx_err s' = None) then lastErr else Some e, s')
  end.
End write_retry.

(** ** The conditions of a node *)

Record statusNode := { snName : string; snVersion : string; snConditions : list NodeCondition }.

(** [Get], [UpdateStatus], and [Patch] with the document of [conditionsPatch]: a
    test of the conditions and their replacement. *)
Class StatusAPI (W : Type) := {
  status_Get : string -> W -> (statusNode + kerror) * W;
  status_Update : statusNode -> W -> option kerror * W;
  status_Patch : string -> list NodeCondition -> list NodeCondition -> W -> option kerror * W }.

Class StatusAPILaws (W : Type) `{StatusAPI W} := {
  status_versions : string -> W -> list statusNode;
  status_Get_newest k w n w' : status_Get k w = (inl n, w') -> head (status_versions k w') = Some n;
  status_Get_extends k w r w' : status_Get k w = (r, w') -> status_versions k w `suffix_of` status_versions k w';
  status_Get_name k w n w' : status_Get k w = (inl n, w') -> snName n = k;
  status_Update_extends n w r w' k : status_Update n w = (r, w') -> status_versions k w `suffix_of` status_versions k w';
  status_Update_commits n w w' : status_Update n w = (None, w') ->
    exists later new cur earlier, status_versions (snName n) w' = later ++ new :: cur :: earlier /\
      snVersion cur = snVersion n /\ snConditions new = snConditions n;
  status_Patch_extends k read updated w r w' : status_Patch k read updated w = (r, w') -> status_versions k w `suffix_of` status_versions k w';
  status_Patch_commits k read updated w w' : status_Patch k read updated w = (None, w') ->
    exists later new cur earlier, status_versions k w' = later ++ new :: cur :: earlier /\
      snConditions cur = read /\ snConditions new = updated;
  status_identifies k w n1 n2 : n1 ∈ status_versions k w -> n2 ∈ status_versions k w -> snVersion n1 = snVersion n2 -> n1 = n2 }.

Section conditions.
Context `{ErrorKinds} `{MapRange} (cfg : K8sConnectorConfig) (GeneratedTimestamp : HealthEvent -> option Z) (now : Z).
Context {W : Type} `{StatusAPI W}.

(** The result of the write, as a conflict when the node was changed since. *)
Definition conditionTestFailedAsConflict (nodeName readResourceVersion : string) (err : option kerror) (w : W) : option kerror * W :=
  match err with
  | None => (None, w)
  | Some e =>
      if negb (IsInvalid e) then (Some e, w)
      else match status_Get nodeName w with
      | (inr getErr, w) => (Some (kwrap "re-reading node after rejected conditions patch" getErr), w)
      | (inl node, w) =>
          if snVersion node ==s readResourceVersion then (Some e, w)
          else (Some {| kreason := ReasonConflict; kmsg := "node changed since its conditions were read" |}, w)
      end
  end.

(** [skipped] and the error. *)
Definition readAndUpdateNode (nodeName : string) (conditionEventsMap : gmap string (list HealthEvent)) (w : W) :
    (bool * option kerror) * W :=
  match status_Get nodeName w with
  | (inr e, w) => ((false, Some e), w)
  | (inl node, w) =>
      let read := snConditions node in
      let '(updated, changed) := foldConditions cfg GeneratedTimestamp now conditionEventsMap read in
      if negb changed then ((true, None), w)
      else if Nat.eqb (length read) 0 then
        let '(err, w) := status_Update {| snName := snName node; snVersion := snVersion node; snConditions := updated |} w in
        ((false, err), w)
      else
        let '(err, w) := status_Patch nodeName read updated w in
        let '(err, w) := conditionTestFailedAsConflict nodeName (snVersion node) err w in
        ((false, err), w)
  end.

Context (Backoff : forall S, backoff S) (ctx_err : W -> option kerror) (is_interrupted : kerror -> bool).

(** The state of the loop is the server and the variable [skipped]. *)
Definition updateNodeConditions (healthEvents : list HealthEvent) (w : W) : (bool * option kerror) * W :=
  let nodeName := match healthEvents with e :: _ => NodeName e | [] => ""%string end in
  let conditionEventsMap := buildConditionEventsMap healthEvents in
  if Nat.eqb (size conditionEventsMap) 0 then ((false, None), w)
  else
    let '(err, (w, skipped)) := retryKubernetesAPIWrite (Backoff _) (fun s => ctx_err s.1) is_interrupted
      (fun e => IsConflict e || isTemporaryError e)
      (fun '(w, _) => let '((skipped, err), w) := readAndUpdateNode nodeName conditionEventsMap w in (err, (w, skipped))) (w, false) in
    if skipped : bool then ((false, None), w)
    else match err with
         | Some e => ((true, Some (kwrap "failed to update node conditions" e)), w)
         | None => ((true, None), w)
         end.

(** What was processed only matters to the metrics. *)
Definition processNodeConditionUpdates (events : list HealthEvent) (w : W) : option kerror * W :=
  let '((_, err), w) := updateNodeConditions events w in (err, w).

End conditions.

(** ** The configuration *)

Definition DefaultMaxRetries : Z := 25.
Definition DefaultMaxRetryDuration : Z := 60 * 1000000000.
Definition MaxAllowedRetryDuration : Z := 5 * 60 * 1000000000.

Definition NewK8sConnector (cfg : K8sConnectorConfig) : K8sConnectorConfig :=
  {| MaxNodeConditionMessageLength := MaxNodeConditionMessageLength cfg;
     CompactedHealthEventMsgLen := CompactedHealthEventMsgLen cfg;
     MaxRetries := if (MaxRetries cfg =? 0)%Z then DefaultMaxRetries else MaxRetries cfg;
     MaxRetryDuration := if (MaxRetryDuration cfg =? 0)%Z then DefaultMaxRetryDuration else MaxRetryDuration cfg |}.

(** The checks before a client is built. *)
Definition InitializeK8sConnector (cfg : K8sConnectorConfig) : result K8sConnectorConfig :=
  if (MaxNodeConditionMessageLength cfg <=? 0)%Z then Err "maxNodeConditionMessageLength must be greater than 0"
  else if (CompactedHealthEventMsgLen cfg <=? 0)%Z then Err "CompactedHealthEventMsgLen must be greater than 0"
  else if (MaxRetries cfg <? 0)%Z then Err "maxRetries must not be negative"
  else if (MaxRetryDuration cfg <? 0)%Z || (MaxAllowedRetryDuration <? MaxRetryDuration cfg)%Z then Err "maxRetryDuration must be between 0 and 5m0s"
  else Ok (NewK8sConnector cfg).

Lemma initialized cfg cfg' : InitializeK8sConnector cfg = Ok cfg' ->
  (0 < MaxNodeConditionMessageLength cfg' /\ 0 < CompactedHealthEventMsgLen cfg' /\ 0 < MaxRetries cfg' /\ 0 < MaxRetryDuration cfg' <= MaxAllowedRetryDuration)%Z.
Proof.
  unfold InitializeK8sConnector, NewK8sConnector, DefaultMaxRetryDuration, MaxAllowedRetryDuration, DefaultMaxRetries.
  destruct (Z.leb_spec (MaxNodeConditionMessageLength cfg) 0); [done|]. destruct (Z.leb_spec (CompactedHealthEventMsgLen cfg) 0); [done|].
  destruct (Z.ltb_spec (MaxRetries cfg) 0); [done|]. destruct (Z.ltb_spec (MaxRetryDuration cfg) 0); [done|].
  destruct (Z.ltb_spec (5 * 60 * 1000000000) (MaxRetryDuration cfg)); [done|]. intros [= <-]. simpl.
  destruct (Z.eqb_spec (MaxRetries cfg) 0), (Z.eqb_spec (MaxRetryDuration cfg) 0); lia.
Qed.

(** ** What a reported write did *)

Section retry_theory.
Context {S : Type} (Backoff : backoff (S * option kerror)) (ctx_err : S -> option kerror) (is_interrupted : kerror -> bool).
Context (Hlaw : backoff_law (fun s => ctx_err s.1 <> None) Backoff).

(** The attempts of a write, with the result of the last one. *)
Inductive attempted (run : S -> option kerror * S) (s : S) : option (option kerror) -> S -> Prop :=
| attempted_none : attempted run s None s
| attempted_one x s1 y s2 : attempted run s x s1 -> run s1 = (y, s2) -> attempted run s (Some y) s2.

Lemma attempted_keeps (I : S -> Prop) run s x s' : (forall s0 y s1, I s0 -> run s0 = (y, s1) -> I s1) -> I s -> attempted run s x s' -> I s'.
Proof. induction 3; naive_solver. Qed.

(** A write makes attempts, and is reported without an error only when the last
    one had none. *)
Lemma retry_attempted retryable run s r s' :
  retryKubernetesAPIWrite Backoff ctx_err is_interrupted retryable run s = (r, s') ->
  exists x, attempted run s x s' /\ (r = None -> x = Some None).
Proof.
  unfold retryKubernetesAPIWrite. set (f := fun _ => _). pose proof (Hlaw f (s, None)) as Hr.
  destruct (Backoff f (s, None)) as [err [s1 lastErr]]. cbn [fst snd] in Hr.
  assert (Hgen : forall b st r st', wait_run (fun s => ctx_err s.1 <> None) f b st r st' ->
    forall x, attempted run s x st.1 -> (b = false -> st.2 <> None) -> exists x', attempted run s x' st'.1 /\
    match r with WaitDone => x' = Some None | WaitErr e => st'.2 = Some e | WaitInterrupted _ => ctx_err st'.1 <> None \/ st'.2 <> None end).
  { assert (Hf : forall st c st', f st = (c, st') -> exists y, run st.1 = (y, st'.1) /\ st'.2 = y /\
      match c with CondDone => y = None | CondErr e => y = Some e | CondAgain => y <> None end).
    { intros [x l] c st'. unfold f. simpl. destruct (run x) as [[e0|] y]; [destruct (retryable e0)|]; intros [= <- <-]; eauto. }
    induction 1 as [b st st' H1|b st e st' H1|b st e Hb|b st st1 r0 st' H1 _ IH]; intros x0 Hx0 Hl.
    - destruct (Hf _ _ _ H1) as (y & Hy & _ & ->). eexists. split; [by eapply attempted_one|done].
    - destruct (Hf _ _ _ H1) as (y & Hy & H2 & ->). eexists. split; [by eapply attempted_one|done].
    - exists x0. split; [done|]. naive_solver.
    - destruct (Hf _ _ _ H1) as (y & Hy & H2 & Hn). eapply IH; [by eapply attempted_one|]. by rewrite H2. }
  destruct (Hgen _ _ _ _ Hr None) as (x & Hx & Hend); [constructor|done|]. cbn [fst snd] in *. intros Hs.
  assert (s' = s1) as -> by (destruct err; by injection Hs). exists x. split; [done|]. intros ->. destruct err as [|e|e]; [done| |].
  - subst lastErr. by destruct (_ && _).
  - destruct (bool_decide_reflect (ctx_err s1 = None)); [|done]. injection Hs as ->. by destruct Hend.
Qed.
End retry_theory.

Section condition_theory.
Context `{ErrorKinds} `{MapRange} (cfg : K8sConnectorConfig) (GeneratedTimestamp : HealthEvent -> option Z) (now : Z).
Context {W : Type} `{SA : StatusAPI W, SL : !StatusAPILaws W}.
Context (Backoff : forall S, backoff S) (ctx_err : W -> option kerror) (is_interrupted : kerror -> bool).
Context (Hlaw : backoff_law (fun s : (W * bool) * option kerror => ctx_err s.1.1 <> None) (Backoff _)).

#[local] Abbreviation fold_batch := (foldConditions cfg GeneratedTimestamp now).

(** The history has a write that turned the conditions into their fold. *)
Definition committed_fold (name : string) (m : gmap string (list HealthEvent)) (w : W) : Prop :=
  exists later new cur earlier, status_versions name w = later ++ new :: cur :: earlier /\
    snConditions new = (fold_batch m (snConditions cur)).1.

Lemma test_failed_ok name version err w w' : conditionTestFailedAsConflict name version err w = (None, w') -> err = None /\ w' = w.
Proof.
  unfold conditionTestFailedAsConflict. destruct err as [e|]; [|by intros [= <-]]. destruct (negb _); [done|].
  destruct (status_Get name w) as [[n|] w1]; [destruct (_ ==s _)|]; done.
Qed.

Lemma read_and_update name m w w' : readAndUpdateNode cfg GeneratedTimestamp now name m w = ((false, None), w') -> committed_fold name m w'.
Proof.
  unfold readAndUpdateNode. destruct (status_Get name w) as [[node|e] w1] eqn:Hg; [|done].
  destruct (fold_batch m (snConditions node)) as [updated changed] eqn:Hf. destruct changed; [|done]. cbn [negb].
  destruct (Nat.eqb _ 0).
  - destruct (status_Update _ w1) as [err w2] eqn:Hu. intros [= -> <-].
    destruct (status_Update_commits _ _ _ Hu) as (later & new & cur & earlier & Hv & Hver & Hnew). simpl in Hv, Hver, Hnew.
    rewrite (status_Get_name _ _ _ _ Hg) in Hv. exists later, new, cur, earlier. split; [done|]. rewrite Hnew.
    enough (cur = node) as -> by (by rewrite Hf). apply (status_identifies name w2); [| |done].
    + rewrite Hv. apply elem_of_app. right. right. left.
    + destruct (status_Update_extends _ _ _ _ name Hu) as [l Hl]. rewrite Hl. apply elem_of_app. right.
      pose proof (status_Get_newest _ _ _ _ Hg) as Hh. destruct (status_versions name w1); simplify_eq/=. left.
  - destruct (status_Patch name _ updated w1) as [err w2] eqn:Hu.
    destruct (conditionTestFailedAsConflict _ _ err w2) as [err' w3] eqn:Ht. intros [= -> <-]. apply test_failed_ok in Ht as [-> ->].
    destruct (status_Patch_commits _ _ _ _ _ Hu) as (later & new & cur & earlier & Hv & Hread & Hnew).
    exists later, new, cur, earlier. split; [done|]. by rewrite Hnew, Hread, Hf.
Qed.

Lemma read_and_skip name m w x w' : readAndUpdateNode cfg GeneratedTimestamp now name m w = ((true, x), w') ->
  exists n, head (status_versions name w') = Some n /\ (fold_batch m (snConditions n)).2 = false.
Proof.
  unfold readAndUpdateNode. destruct (status_Get name w) as [[node|e] w1] eqn:Hg; [|done].
  destruct (fold_batch m (snConditions node)) as [updated changed] eqn:Hf. destruct changed; cbn [negb].
  - destruct (Nat.eqb _ 0); [by destruct (status_Update _ w1)|]. destruct (status_Patch name _ updated w1) as [err w2].
    by destruct (conditionTestFailedAsConflict _ _ err w2).
  - intros [= <- <-]. exists node. split; [by eapply status_Get_newest|]. by rewrite Hf.
Qed.

(** C16 (no lost condition).  A condition write that is reported as done replaced, in
    one step of the node's history, the conditions it found by the fold of the
    batch over exactly those conditions, whatever other writers did to the node
    meanwhile and however often it was retried; one that is reported as skipped
    saw a newest version whose conditions the batch leaves as they are. *)
Theorem condition_write_atomic (e : HealthEvent) (events : list HealthEvent) (w w' : W) (processed : bool) :
  let m := buildConditionEventsMap (e :: events) in
  updateNodeConditions cfg GeneratedTimestamp now Backoff ctx_err is_interrupted (e :: events) w = ((processed, None), w') ->
  if processed then committed_fold (NodeName e) m w'
  else m = ∅ \/ exists n, head (status_versions (NodeName e) w') = Some n /\ (fold_batch m (snConditions n)).2 = false.
Proof.
  intros m. unfold updateNodeConditions. fold m. destruct (Nat.eqb (size m) 0) eqn:Hs.
  { intros [= <- _]. left. apply Nat.eqb_eq in Hs. by apply map_size_empty_iff. }
  destruct (retryKubernetesAPIWrite _ _ _ _ _ _) as [err [w1 skipped]] eqn:Hr. destruct skipped.
  - intros [= <- <-]. right. destruct (retry_attempted _ _ _ Hlaw _ _ _ _ _ Hr) as (x & Hx & _).
    inversion Hx as [|x1 [w0 b] y s2 _ Hrun]; subst.
    destruct (readAndUpdateNode _ _ _ _ m w0) as [[sk er] w2] eqn:Hu. injection Hrun as _ <- ->. by eapply read_and_skip.
  - destruct err as [er|]; [done|]. intros [= <- <-]. destruct (retry_attempted _ _ _ Hlaw _ _ _ _ _ Hr) as (x & Hx & Hlast).
    rewrite (Hlast eq_refl) in Hx. inversion Hx as [|x1 [w0 b] y s2 _ Hrun]; subst.
    destruct (readAndUpdateNode _ _ _ _ m w0) as [[sk er] w2] eqn:Hu. injection Hrun as -> <- ->. by eapply read_and_update.
Qed.
End condition_theory.
