(* ===== verification/NodeEvents.v ===== *)
(** * Kubernetes Events of the connector

    Models the Event part of
    [platform-connectors/pkg/connectors/kubernetes/process_node_events.go] and the
    batch loop of [k8s_connector.go]: non-fatal faults are announced as Events named
    after the fault, repeats are skipped while the last write is remembered, and
    every write of a batch is retried on its own.

    [occurrence_counted_once]: along the history of an Event each commit counts a
    strictly later occurrence.  [batch_order]: what a batch does, in order. *)

From stdpp Require Import gmap strings list fin_maps sorting.
From Stdlib Require Import ZArith Lia Ascii.
From S2P Require Import Prelude HealthEvent KubeRetry GoText NodeCondition Connector.

#[local] Open Scope Z_scope.

(** ** The name of an Event *)

Definition byte_of (c : ascii) : Z := Z.of_nat (nat_of_ascii c).

(** [hash/fnv.New64a] *)
Definition fnv_offset : Z := 14695981039346656037.
Definition fnv_prime : Z := 1099511628211.
Definition fnv_write (h : Z) (s : string) : Z :=
  fold_left (fun h c => wrap_uint64 (Z.lxor h (byte_of c) * fnv_prime)) (chars s) h.

Definition hex_digit (d : Z) : ascii := if d <? 10 then ascii_of_nat (Z.to_nat d + 48) else ascii_of_nat (Z.to_nat d + 87).

(** ["%016x"] *)
Fixpoint hex (digits : nat) (z : Z) : string :=
  match digits with O => ""%string | S n => hex n (z / 16) +:+ String (hex_digit (z mod 16)) "" end.

Definition zero_byte : string := String zero "".

Definition nodeEventName (nodeName checkName reason message : string) : string :=
  let h := fold_left (fun h part => fnv_write (fnv_write h part) zero_byte) [nodeName; checkName; reason; message] fnv_offset in
  nodeName +:+ "." +:+ hex 16 h.

(** ** Events *)

Record ObjectReference := { refKind : string; refName : string; refUID : string }.
Record EventSource := { Component : string; Host : string }.

(** What identifies the fault an Event announces. *)
Record EventFault := {
  InvolvedObject : ObjectReference; Source : EventSource; evType : string; evReason : string; evMessage : string;
  ReportingController : string; ReportingInstance : string }.

#[export] Instance ObjectReference_eq_dec : EqDecision ObjectReference.
Proof. solve_decision. Defined.
#[export] Instance EventSource_eq_dec : EqDecision EventSource.
Proof. solve_decision. Defined.
#[export] Instance EventFault_eq_dec : EqDecision EventFault.
Proof. solve_decision. Defined.

(** Times in nanoseconds; the count is an [int32]. *)
Record Event := { evName : string; evFault : EventFault; Count : Z; FirstTimestamp : Z; LastTimestamp : Z; evVersion : Z }.

Definition sameNodeEventFault (existing expected : Event) : bool := bool_decide (evFault existing = evFault expected).

Definition Unix (t : Z) : Z := t / 1000000000.
Definition wrap_int32 (z : Z) : Z := (z + 2 ^ 31) mod 2 ^ 32 - 2 ^ 31.

Section events.
Context (GeneratedTimestamp : HealthEvent -> option Z) (now : Z).

Definition fetchHealthEventMessage (healthEvent : HealthEvent) : string :=
  if IsHealthy healthEvent then NoHealthFailureMsg else constructHealthEventMessage healthEvent.

Definition createK8sEvent (healthEvent : HealthEvent) : Event :=
  let ts := safeTimestamp now (GeneratedTimestamp healthEvent) in
  let reason := updateHealthEventReason (CheckName healthEvent) (IsHealthy healthEvent) in
  let message := fetchHealthEventMessage healthEvent in
  {| evName := nodeEventName (NodeName healthEvent) (CheckName healthEvent) reason message;
     evFault := {| InvolvedObject := {| refKind := "Node"; refName := NodeName healthEvent; refUID := NodeName healthEvent |};
                   Source := {| Component := Agent healthEvent; Host := NodeName healthEvent |};
                   evType := CheckName healthEvent; evReason := reason; evMessage := message;
                   ReportingController := Agent healthEvent; ReportingInstance := NodeName healthEvent |};
     Count := 1; FirstTimestamp := ts; LastTimestamp := ts; evVersion := 0 |}.

Definition entityKeys (healthEvent : HealthEvent) : list string := map EntityToken (EntitiesImpacted healthEvent).
End events.

(** ** The memory of written Events *)

Definition nodeEventRefreshInterval : Z := 10 * 60 * 1000000000.

Record rememberedEvent := { reEntities : list string; writtenAt : Z }.

(** [expirable.LRU] without a size: each entry with the time it was added. *)
Abbreviation memory := (gmap string (Z * gmap string rememberedEvent)).

Definition nodeCheckKey (nodeName checkName : string) : string := nodeName +:+ String zero checkName.

Definition sharesEntity (a b : list string) : bool := existsb (fun x => bool_decide (x ∈ b)) a.

Definition memory_Get (now : Z) (m : memory) (key : string) : option (Z * gmap string rememberedEvent) :=
  match m !! key with
  | Some (added, written) => if now <=? added + nodeEventRefreshInterval then Some (added, written) else None
  | None => None
  end.

(** [written] is shared with the memory: deleting from it changes the entry in
    place. *)
Definition set_written (m : memory) (key : string) (added : Z) (written : gmap string rememberedEvent) : memory :=
  if bool_decide (written = ∅) then delete key m else <[key := (added, written)]> m.

Definition rememberedNodeEvent (now : Z) (m : memory) (nodeName : string) (event : Event) : option rememberedEvent :=
  match memory_Get now m (nodeCheckKey nodeName (evType (evFault event))) with
  | Some (_, written) => written !! evMessage (evFault event)
  | None => None
  end.

Definition rememberNodeEvent (now : Z) (m : memory) (nodeName : string) (event : Event) (entities : list string) : memory :=
  let key := nodeCheckKey nodeName (evType (evFault event)) in
  let written := match memory_Get now m key with Some (_, w) => w | None => ∅ end in
  let fresh := filter (fun kv => time_sub now (writtenAt kv.2) < nodeEventRefreshInterval) written in
  <[key := (now, <[evMessage (evFault event) := {| reEntities := entities; writtenAt := now |}]> fresh)]> m.

Definition forgetNodeEvent (now : Z) (m : memory) (nodeName : string) (event : Event) : memory :=
  let key := nodeCheckKey nodeName (evType (evFault event)) in
  match memory_Get now m key with
  | Some (added, written) => set_written m key added (delete (evMessage (evFault event)) written)
  | None => m
  end.

Definition forgetNodeCheck (now : Z) (m : memory) (nodeName checkName : string) (recovered : list string) : memory :=
  let key := nodeCheckKey nodeName checkName in
  if Nat.eqb (length recovered) 0 then delete key m
  else match memory_Get now m key with
  | Some (added, written) => set_written m key added (filter (fun kv => sharesEntity (reEntities kv.2) recovered = false) written)
  | None => m
  end.

(** ** Writing an Event *)

Class EventsAPI (W : Type) := {
  events_Get : string -> W -> (Event + kerror) * W;
  events_Create : Event -> W -> option kerror * W;
  events_Update : Event -> W -> option kerror * W;
  IsAlreadyExists : kerror -> bool }.

Record nodeEventWrite := { nwEvent : Event; nwEntities : list string; createAttempted : bool }.

Section write.
Context `{ErrorKinds} {W : Type} `{EventsAPI W}.

Definition reconcileNodeEvent (event : Event) (w : W) : option kerror * W :=
  match events_Get (evName event) w with
  | (inr e, w) => (Some (kwrap "look up pending event" e), w)
  | (inl existing, w) =>
      if negb (sameNodeEventFault existing event) then (Some (plain_error "existing event does not match the pending write"), w)
      else if Unix (LastTimestamp event) <=? Unix (LastTimestamp existing) then (None, w)
      else
        match events_Update {| evName := evName existing; evFault := evFault existing; Count := wrap_int32 (Count existing + 1);
                               FirstTimestamp := FirstTimestamp existing; LastTimestamp := LastTimestamp event;
                               evVersion := evVersion existing |} w with
        | (Some e, w) => (Some (kwrap "refresh pending event" e), w)
        | (None, w) => (None, w)
        end
  end.

(** [false]: the Event disappeared, and is forgotten. *)
Definition refreshNodeEvent (now : Z) (event : Event) (nodeName : string) (mem : memory) (w : W) : (bool * option kerror) * (memory * W) :=
  match reconcileNodeEvent event w with
  | (Some e, w) => if IsNotFound e then ((false, None), (forgetNodeEvent now mem nodeName event, w)) else ((true, Some e), (mem, w))
  | (None, w) => ((true, None), (mem, w))
  end.

Definition createNodeEvent (event : Event) (w : W) : option kerror * W :=
  match events_Create event w with
  | (None, w) => (None, w)
  | (Some e, w) =>
      if negb (IsAlreadyExists e) then (Some e, w)
      else match reconcileNodeEvent event w with
      | (Some lookupErr, w) =>
          if IsNotFound lookupErr then (Some {| kreason := ReasonConflict; kmsg := kmsg lookupErr |}, w) else (Some lookupErr, w)
      | (None, w) => (None, w)
      end
  end.

(** With the flag of the write, which is set before the create. *)
Definition createOrReconcileNodeEvent (write : nodeEventWrite) (w : W) : option kerror * (nodeEventWrite * W) :=
  let attempted := {| nwEvent := nwEvent write; nwEntities := nwEntities write; createAttempted := true |} in
  if createAttempted write then
    match reconcileNodeEvent (nwEvent write) w with
    | (Some e, w) => if IsNotFound e then let '(r, w) := createNodeEvent (nwEvent write) w in (r, (attempted, w)) else (Some e, (write, w))
    | (None, w) => (None, (write, w))
    end
  else let '(r, w) := createNodeEvent (nwEvent write) w in (r, (attempted, w)).

Context (Backoff : forall S, backoff S) (ctx_err : W -> option kerror) (is_interrupted : kerror -> bool).

(** The variables one attempt changes: the server, the memory, the write and
    [known].  [now] is read at each step that needs it. *)
Definition writeAttempt (now : Z) (nodeName : string) (s : W * memory * nodeEventWrite * bool) :
    option kerror * (W * memory * nodeEventWrite * bool) :=
  let '(w, mem, write, known) := s in
  let create w mem := let '(r, (write, w)) := createOrReconcileNodeEvent write w in (r, (w, mem, write, false)) in
  if known then
    match refreshNodeEvent now (nwEvent write) nodeName mem w with
    | ((true, err), (mem, w)) => (err, (w, mem, write, true))
    | ((false, _), (mem, w)) => create w mem
    end
  else create w mem.

(** [skipped], the error, and what the write leaves. *)
Definition writeNodeEvent (now : Z) (nodeName : string) (write : nodeEventWrite) (mem : memory) (w : W) :
    (bool * option kerror) * (W * memory * nodeEventWrite) :=
  let remembered := rememberedNodeEvent now mem nodeName (nwEvent write) in
  if match remembered with Some r => time_sub now (writtenAt r) <? nodeEventRefreshInterval | None => false end
  then ((true, None), (w, mem, write))
  else
    let known := bool_decide (is_Some remembered) in
    let '(err, (w, mem, write, _)) := retryKubernetesAPIWrite (Backoff _) (fun s => ctx_err s.1.1.1) is_interrupted
      (fun e => IsConflict e || isTemporaryError e) (writeAttempt now nodeName) (w, mem, write, known) in
    match err with
    | Some e => ((false, Some (kwrap "failed to write event for node" e)), (w, mem, write))
    | None => ((false, None), (w, rememberNodeEvent now mem nodeName (nwEvent write) (nwEntities write), write))
    end.

End write.

(** ** Batches *)

Inductive kubernetesWrite :=
| ConditionWrite (nodeName : string) (isHealthy : bool) (events : list HealthEvent)
| ForgetWrite (nodeName checkName : string) (recovered : list string)
| EventWrite (nodeName : string) (write : nodeEventWrite).

Section batch.
Context `{MapRange} (GeneratedTimestamp : HealthEvent -> option Z) (now : Z).

Definition filterProcessableEvents (healthEvents : list HealthEvent) : list HealthEvent :=
  List.filter (fun e => negb (bool_decide (Strategy e = STORE_ONLY) || bool_decide (Strategy e = STORE_AND_ANALYSE))) healthEvents.

(** The comparison: nil before every time. *)
Definition earlier (a b : HealthEvent) : bool :=
  match GeneratedTimestamp a, GeneratedTimestamp b with
  | None, None => false
  | None, Some _ => true
  | Some _, None => false
  | Some ta, Some tb => ta <? tb
  end.

(** [slices.SortStableFunc]: an element goes before the first one that is not
    earlier. *)
Fixpoint insert_stable (e : HealthEvent) (l : list HealthEvent) : list HealthEvent :=
  match l with
  | [] => [e]
  | x :: l' => if earlier x e then x :: insert_stable e l' else e :: l
  end.
Definition sortHealthEventsByTimestamp (events : list HealthEvent) : list HealthEvent := fold_right insert_stable [] events.

Definition groupEventsByNode (events : list HealthEvent) : gmap string (list HealthEvent) :=
  fold_left (fun m e => <[NodeName e := default [] (m !! NodeName e) ++ [e]]> m) events ∅.

Definition prepareHealthEventWrites (healthEvents : list HealthEvent) : list kubernetesWrite :=
  let processableEvents := sortHealthEventsByTimestamp (filterProcessableEvents healthEvents) in
  let conditionEvents := List.filter (fun e => IsHealthy e || IsFatal e) processableEvents in
  let eventsByNode := groupEventsByNode conditionEvents in
  let nodeNames := merge_sort String.le (range eventsByNode).*1 in
  map (fun nodeName =>
    let nodeEvents := default [] (eventsByNode !! nodeName) in
    ConditionWrite nodeName (existsb IsHealthy nodeEvents) nodeEvents) nodeNames
  ++ concat (map (fun e =>
    if IsHealthy e then [ForgetWrite (NodeName e) (CheckName e) (entityKeys e)]
    else if IsFatal e then []
    else [EventWrite (NodeName e) {| nwEvent := createK8sEvent GeneratedTimestamp now e; nwEntities := entityKeys e; createAttempted := false |}])
    processableEvents).

End batch.

(** ** Retrying a batch *)

Definition DropReasonShutdown : string := "shutdown".
Definition DropReasonRetryTimeout : string := "retry_timeout".
Definition DropReasonRetryExhausted : string := "retry_exhausted".
Definition DropReasonPermanentError : string := "permanent_error".

Section batch_retry.
Context `{ErrorKinds} {S : Type}.

(** [ctx.Err()] of the batch, the stop channel, and the wait between attempts. *)
Context (ctx_err : S -> option kerror) (stopped : S -> bool) (wait : S -> option kerror * S) (canceled : kerror).

(** [n] retries are left. *)
Fixpoint processWriteWithRetry (run : S -> option kerror * S) (n : nat) (retries : Z) (s : S) : (Z * option kerror) * S :=
  match ctx_err s with
  | Some e => ((retries, Some e), s)
  | None =>
      if stopped s then ((retries, Some canceled), s)
      else match run s with
      | (None, s) => ((retries, None), s)
      | (Some err, s) =>
          match ctx_err s with
          | Some e => ((retries, Some e), s)
          | None =>
              match n with
              | O => ((retries, Some err), s)
              | Datatypes.S n =>
                  if negb (isKubernetesConnectorRetryableError err) then ((retries, Some err), s)
                  else match wait s with
                  | (Some e, s) => ((retries + 1, Some e), s)
                  | (None, s) => processWriteWithRetry run n (retries + 1) s
                  end
              end
          end
      end
  end.

(** Is the error [context.Canceled], [context.DeadlineExceeded]? *)
Context (is_canceled is_deadline : kerror -> bool) (parent_err : S -> option kerror).

Definition writeDropReason (s : S) (err : kerror) : string :=
  let parent p := match parent_err s with Some e => p e | None => false end in
  if parent is_canceled || is_canceled err then DropReasonShutdown
  else if is_deadline err || parent is_deadline then DropReasonRetryTimeout
  else if isKubernetesConnectorRetryableError err then DropReasonRetryExhausted
  else DropReasonPermanentError.

(** All writes of a batch, in order, with the failures and the retries. *)
Definition processOne (cfg : K8sConnectorConfig) (acc : Z * list (string * kerror) * S) (run : S -> option kerror * S) : Z * list (string * kerror) * S :=
  let '(totalRetries, failures, s) := acc in
  let '((retries, err), s) := processWriteWithRetry run (Z.to_nat (MaxRetries cfg)) 0 s in
  (totalRetries + retries, failures ++ match err with None => [] | Some e => [(writeDropReason s e, e)] end, s).

Definition processHealthEventsWithRetry (cfg : K8sConnectorConfig) (runs : list (S -> option kerror * S)) (s : S) :
    Z * list (string * kerror) * S := fold_left (processOne cfg) runs (0, [], s).

(** A write that completes: failed attempts worth a retry, each followed by a wait,
    then one without an error. *)
Inductive completes (run : S -> option kerror * S) : nat -> S -> S -> Prop :=
| completes_now s s' : run s = (None, s') -> completes run 0 s s'
| completes_later n s e s1 s2 s' : run s = (Some e, s1) -> isKubernetesConnectorRetryableError e = true -> wait s1 = (None, s2) ->
    completes run n s2 s' -> completes run (Datatypes.S n) s s'.

Lemma write_completes run n : forall retries s retries' s',
  processWriteWithRetry run n retries s = ((retries', None), s') ->
  exists k, (k <= n)%nat /\ retries' = retries + Z.of_nat k /\ completes run k s s'.
Proof.
  induction n as [|n IH]; intros retries s retries' s'; simpl; (destruct (ctx_err s); [done|]); (destruct (stopped s); [done|]);
    destruct (run s) as [[e|] s1] eqn:Hr.
  - by destruct (ctx_err s1).
  - intros [= <- <-]. exists 0%nat. split; [lia|]. split; [lia|by constructor].
  - destruct (ctx_err s1); [done|]. destruct (isKubernetesConnectorRetryableError e) eqn:He; [|done]. simpl.
    destruct (wait s1) as [[ew|] s2] eqn:Hw; [done|]. intros (k & Hk & -> & Hc)%IH. exists (Datatypes.S k). split; [lia|]. split; [lia|].
    by eapply completes_later.
  - intros [= <- <-]. exists 0%nat. split; [lia|]. split; [lia|by constructor].
Qed.

(** One write after the other. *)
Inductive completes_all (max : nat) : list (S -> option kerror * S) -> S -> S -> Prop :=
| completes_nil s : completes_all max [] s s
| completes_cons run runs k s s1 s' : (k <= max)%nat -> completes run k s s1 -> completes_all max runs s1 s' -> completes_all max (run :: runs) s s'.

Lemma failures_stay cfg runs : forall acc, acc.1.2 `prefix_of` (fold_left (processOne cfg) runs acc).1.2.
Proof.
  induction runs as [|run runs IH]; intros [[total failures] s]; [done|]. cbn [fold_left]. etrans; [|apply IH]. simpl.
  destruct (processWriteWithRetry _ _ _ _) as [[r err] s1]. by apply prefix_app_r.
Qed.

(** A batch without a reported failure completed all its writes, in order. *)
Lemma batch_completes cfg runs s retries s' :
  processHealthEventsWithRetry cfg runs s = (retries, [], s') -> completes_all (Z.to_nat (MaxRetries cfg)) runs s s'.
Proof.
  unfold processHealthEventsWithRetry. generalize 0 at 1. revert s. induction runs as [|run runs IH]; intros s total; cbn [fold_left].
  - intros [= _ <-]. constructor.
  - unfold processOne at 2. destruct (processWriteWithRetry run _ 0 s) as [[r err] s1] eqn:Hw. destruct err as [e|].
    + intros H0. pose proof (failures_stay cfg runs (total + r, [(writeDropReason s1 e, e)], s1)) as Hp. simpl in Hp, H0. rewrite H0 in Hp.
      by apply prefix_nil_inv in Hp.
    + intros H0%IH. apply write_completes in Hw as (k & Hk & _ & Hc). by eapply completes_cons.
Qed.

End batch_retry.

(** ** A batch *)

Section process_batch.
Context `{ErrorKinds} `{MapRange} {W : Type} `{StatusAPI W} `{EventsAPI W}.
Context (cfg : K8sConnectorConfig) (GeneratedTimestamp : HealthEvent -> option Z) (now : Z).
Context (Backoff : forall S, backoff S) (ctx_err : W -> option kerror) (is_interrupted : kerror -> bool).

(** The server, the memory, and for each pending Event whether its create was
    attempted. *)
Abbreviation batch_state := (W * memory * gmap nat bool)%type.

(** [write.run] of the [i]-th write. *)
Definition run_write (i : nat) (write : kubernetesWrite) (s : batch_state) : option kerror * batch_state :=
  let '(w, mem, pending) := s in
  match write with
  | ConditionWrite _ _ nodeEvents =>
      let '(err, w) := processNodeConditionUpdates cfg GeneratedTimestamp now Backoff ctx_err is_interrupted nodeEvents w in
      (err, (w, mem, pending))
  | ForgetWrite nodeName checkName recovered => (None, (w, forgetNodeCheck now mem nodeName checkName recovered, pending))
  | EventWrite nodeName nw =>
      let nw := {| nwEvent := nwEvent nw; nwEntities := nwEntities nw; createAttempted := default (createAttempted nw) (pending !! i) |} in
      let '((_, err), (w, mem, nw)) := writeNodeEvent Backoff ctx_err is_interrupted now nodeName nw mem w in
      (err, (w, mem, <[i := createAttempted nw]> pending))
  end.

Context (stopped : batch_state -> bool) (wait : batch_state -> option kerror * batch_state) (canceled : kerror).
Context (is_canceled is_deadline : kerror -> bool) (parent_err : batch_state -> option kerror).

Definition ProcessBatch (healthEvents : list HealthEvent) (w : W) (mem : memory) : Z * list (string * kerror) * batch_state :=
  processHealthEventsWithRetry (fun s => ctx_err s.1.1) stopped wait canceled is_canceled is_deadline parent_err cfg
    (imap run_write (prepareHealthEventWrites GeneratedTimestamp now healthEvents)) (w, mem, ∅).
End process_batch.

(** ** Ordering *)

Section batch_theory.
Context (GeneratedTimestamp : HealthEvent -> option Z).
#[local] Abbreviation earlier := (earlier GeneratedTimestamp).
#[local] Abbreviation sorted := (sortHealthEventsByTimestamp GeneratedTimestamp).

Lemma insert_stable_perm e l : insert_stable GeneratedTimestamp e l ≡ₚ e :: l.
Proof. induction l as [|x l IH]; [done|]. simpl. destruct (earlier x e); [|done]. rewrite IH. apply Permutation_swap. Qed.

Lemma sort_perm l : sorted l ≡ₚ l.
Proof. induction l as [|e l IH]; [done|]. simpl. rewrite insert_stable_perm. by f_equiv. Qed.

(** Nothing is followed by an earlier event. *)
Definition in_order : list HealthEvent -> Prop := StronglySorted (fun a b => earlier b a = false).

Lemma earlier_negtrans a b c : earlier b a = false -> earlier c b = false -> earlier c a = false.
Proof.
  unfold NodeEvents.earlier. destruct (GeneratedTimestamp a), (GeneratedTimestamp b), (GeneratedTimestamp c); try done. rewrite !Z.ltb_ge. lia.
Qed.

Lemma earlier_asym a b : earlier a b = true -> earlier b a = false.
Proof. unfold NodeEvents.earlier. destruct (GeneratedTimestamp a), (GeneratedTimestamp b); try done. rewrite Z.ltb_lt, Z.ltb_ge. lia. Qed.

Lemma insert_stable_order e l : in_order l -> in_order (insert_stable GeneratedTimestamp e l).
Proof.
  induction 1 as [|x l Hl IH Hx]; [repeat constructor|]. simpl. destruct (earlier x e) eqn:He.
  - constructor; [done|]. rewrite insert_stable_perm. constructor; [by apply earlier_asym|done].
  - constructor; [by constructor|]. constructor; [done|]. eapply Forall_impl; [exact Hx|]. intros y Hy. by eapply earlier_negtrans.
Qed.

Lemma sort_order l : in_order (sorted l).
Proof. induction l as [|e l IH]; [constructor|]. simpl. by apply insert_stable_order. Qed.

(** Events with equal times, and any events in order already, keep their order. *)
Lemma sort_stable l : in_order l -> sorted l = l.
Proof.
  induction 1 as [|e l Hl IH He]; [done|].
  change (sorted (e :: l)) with (insert_stable GeneratedTimestamp e (sorted l)). rewrite IH. destruct l as [|x l]; [done|].
  simpl. apply Forall_cons in He as [He _]. by rewrite He.
Qed.

#[local] Abbreviation of_node name := (List.filter (fun e => NodeName e ==s name)).

Lemma group_lookup events name :
  groupEventsByNode events !! name = match of_node name events with [] => None | l => Some l end.
Proof.
  unfold groupEventsByNode. induction events as [|e events IH] using rev_ind; [done|]. rewrite fold_left_app, List.filter_app. cbn [fold_left List.filter].
  destruct (NodeName e ==s name) eqn:He.
  - apply go_eqb_true in He. subst name. rewrite lookup_insert_eq, IH. by destruct (of_node (NodeName e) events).
  - apply go_eqb_false in He. by rewrite lookup_insert_ne, IH, app_nil_r by done.
Qed.

Lemma filter_order (p : HealthEvent -> bool) l : in_order l -> in_order (List.filter p l).
Proof.
  induction 1 as [|e l Hl IH He]; [constructor|]. simpl. destruct (p e); [|done]. constructor; [done|].
  rewrite Forall_forall in He |- *. intros x [Hx _]%list_elem_of_In%List.filter_In. apply He, list_elem_of_In, Hx.
Qed.

Lemma filter_perm (p : HealthEvent -> bool) l l' : l ≡ₚ l' -> List.filter p l ≡ₚ List.filter p l'.
Proof.
  induction 1 as [|x l l' _ IH|x y l|l1 l2 l3 _ IH1 _ IH2]; simpl; [done| | |by etrans].
  - by destruct (p x); [f_equiv|].
  - destruct (p x), (p y); try done. apply Permutation_swap.
Qed.

Context `{MRL : MapRangeLaws} (now : Z).

#[local] Abbreviation conditional := (List.filter (fun e => IsHealthy e || IsFatal e)).

(** The events that change the conditions of a node, as the batch holds them and
    in the order in which they are applied. *)
Definition condition_events (name : string) (events : list HealthEvent) : list HealthEvent :=
  of_node name (conditional (filterProcessableEvents events)).
Definition ordered_events (name : string) (events : list HealthEvent) : list HealthEvent :=
  of_node name (conditional (sorted (filterProcessableEvents events))).

Lemma ordered_perm name events : ordered_events name events ≡ₚ condition_events name events.
Proof. apply filter_perm, filter_perm, sort_perm. Qed.

(** The events announced by a write, if any. *)
Definition announced (w : kubernetesWrite) : list Event := match w with EventWrite _ nw => [nwEvent nw] | _ => [] end.

(** C40 (what a batch writes, in which order).  A batch writes the conditions of each
    node that has a healthy or a fatal event in it exactly once, in the order of
    the names; the write gets the events of that node, all of them and in the
    order of their times (nil first).  The other writes follow, with one Event for
    each non-fatal fault, in the order of the times. *)
Theorem batch_order (events : list HealthEvent) :
  exists names rest,
    prepareHealthEventWrites GeneratedTimestamp now events =
      map (fun n => ConditionWrite n (existsb IsHealthy (ordered_events n events)) (ordered_events n events)) names ++ rest /\
    NoDup names /\ StronglySorted String.le names /\
    (forall n, n ∈ names <-> condition_events n events <> []) /\
    (forall n, in_order (ordered_events n events) /\ ordered_events n events ≡ₚ condition_events n events) /\
    Forall (fun w => ~ exists n h es, w = ConditionWrite n h es) rest /\
    concat (map announced rest) = map (createK8sEvent GeneratedTimestamp now)
      (List.filter (fun e => negb (IsHealthy e || IsFatal e)) (sorted (filterProcessableEvents events))).
Proof.
  unfold prepareHealthEventWrites. set (all := sorted (filterProcessableEvents events)). set (g := groupEventsByNode _).
  assert (Hg : forall n, g !! n = match ordered_events n events with [] => None | l => Some l end) by (intros n; apply group_lookup).
  eexists (merge_sort String.le (range g).*1), _. split; [|split; [|split; [|split; [|split; [|split]]]]].
  - f_equal. apply map_ext. intros n. rewrite Hg. by destruct (ordered_events n events).
  - rewrite merge_sort_Permutation. apply NoDup_range.
  - apply (StronglySorted_merge_sort String.le).
  - intros n. rewrite merge_sort_Permutation, list_elem_of_fmap. transitivity (ordered_events n events <> []).
    + split; [intros [[k es] [-> Hk%elem_of_range]]|intros Hn].
      * rewrite Hg in Hk. simpl. by destruct (ordered_events k events).
      * exists (n, ordered_events n events). split; [done|]. apply elem_of_range. rewrite Hg. by destruct (ordered_events n events).
    + split; intros Hn He; apply Hn.
      * apply Permutation_nil_r. by rewrite <- He, ordered_perm.
      * apply Permutation_nil_r. by rewrite <- He, ordered_perm.
  - intros n. split; [apply filter_order, filter_order, sort_order|apply ordered_perm].
  - apply Forall_concat. apply Forall_map, Forall_true. intros e. destruct (IsHealthy e), (IsFatal e); repeat constructor; by intros (? & ? & ? & ?).
  - clearbody all. clear g Hg. induction all as [|e l IH]; [done|]. simpl. rewrite map_app, concat_app, IH. by destruct (IsHealthy e), (IsFatal e).
Qed.
End batch_theory.

(** ** Counting occurrences *)

(** The history of the object of one name, newest state first; [None] is its
    absence.  Every writer of the name runs this code: it creates an Event where
    there is none, or counts a later occurrence of the same fault. *)
Definition absent (h : list (option Event)) : Prop := match h with Some _ :: _ => False | _ => True end.

Definition first_occurrence (e : Event) : Prop := Count e = 1 /\ Unix (FirstTimestamp e) = Unix (LastTimestamp e).

Definition next_occurrence (old new : Event) : Prop :=
  evFault new = evFault old /\ Count new = wrap_int32 (Count old + 1) /\ Unix (FirstTimestamp new) = Unix (FirstTimestamp old) /\
  Unix (LastTimestamp old) < Unix (LastTimestamp new).

Inductive occurs : list (option Event) -> list (option Event) -> Prop :=
| occurs_expire h : occurs h (None :: h)
| occurs_first h e : absent h -> first_occurrence e -> occurs h (Some e :: h)
| occurs_next h old new : next_occurrence old new -> occurs (Some old :: h) (Some new :: Some old :: h).

(** The versions of the object that is there now. *)
Fixpoint incarnation (h : list (option Event)) : list Event :=
  match h with Some e :: h' => e :: incarnation h' | _ => [] end.

(** The count is the number of versions, each of a later second than the one
    before, and all of one fault. *)
Definition counted (h : list (option Event)) : Prop :=
  let l := incarnation h in
  StronglySorted (fun new old => Unix (LastTimestamp old) < Unix (LastTimestamp new)) l /\
  (forall e1 e2, e1 ∈ l -> e2 ∈ l -> evFault e1 = evFault e2) /\
  match l with [] => True | e :: _ => Count e = wrap_int32 (Z.of_nat (length l)) end.

Lemma wrap_int32_succ n : wrap_int32 (wrap_int32 n + 1) = wrap_int32 (n + 1).
Proof.
  unfold wrap_int32. f_equal. replace ((n + 2 ^ 31) mod 2 ^ 32 - 2 ^ 31 + 1 + 2 ^ 31) with ((n + 2 ^ 31) mod 2 ^ 32 + 1) by lia.
  rewrite Zplus_mod_idemp_l. f_equal. lia.
Qed.

Lemma occurs_counted h h' : occurs h h' -> counted h -> counted h'.
Proof.
  destruct 1 as [h|h e Ha [Hc _]|h old new (Hf & Hc & _ & Hu)]; unfold counted; simpl.
  - intros _. split; [constructor|]. split; [|done]. intros ? ? []%not_elem_of_nil.
  - intros _. destruct h as [|[x|] h]; [|done|]; simpl; (split; [repeat constructor|]; split; [set_solver|done]).
  - intros (Hs & Hsame & Hn). split; [|split].
    + constructor; [done|]. inversion Hs as [|? ? Hs' Hold]; subst. constructor; [done|]. eapply Forall_impl; [exact Hold|]. simpl. lia.
    + assert (Hall : forall e, e ∈ new :: old :: incarnation h -> evFault e = evFault old).
      { intros e [->|He]%elem_of_cons; [done|]. apply Hsame; [done|left]. }
      intros e1 e2 H1 H2. by rewrite (Hall _ H1), (Hall _ H2).
    + rewrite Hc, Hn, wrap_int32_succ. f_equal. simpl. lia.
Qed.

Lemma occurs_all_counted h h' : rtc occurs h h' -> counted h -> counted h'.
Proof. induction 1; eauto using occurs_counted. Qed.

Lemma occurs_suffix h h' : rtc occurs h h' -> h `suffix_of` h'.
Proof. induction 1 as [|h h1 h' Hs _ IH]; [done|]. etrans; [|exact IH]. destruct Hs; by apply suffix_cons_r. Qed.

Lemma occurs_elem h h' x : rtc occurs h h' -> x ∈ h -> x ∈ h'.
Proof. intros [l ->]%occurs_suffix ?. apply elem_of_app. by right. Qed.

(** The fault is announced with this occurrence or a later one. *)
Definition announced_by (event : Event) (h : list (option Event)) : Prop :=
  exists v, Some v ∈ h /\ evFault v = evFault event /\ Unix (LastTimestamp event) <= Unix (LastTimestamp v).

(** The server keeps times to the second. *)
Definition to_second (t : Z) : Z := Unix t * 1000000000.

Lemma Unix_to_second t : Unix (to_second t) = Unix t.
Proof. unfold to_second, Unix. by apply Z.div_mul. Qed.

Definition stored (e : Event) (version : Z) : Event :=
  {| evName := evName e; evFault := evFault e; Count := Count e; FirstTimestamp := to_second (FirstTimestamp e);
     LastTimestamp := to_second (LastTimestamp e); evVersion := version |}.

(** What a call does to the history of the name: the steps of other writers, and
    possibly its own commit between them; a call without an error commits. *)
Definition effect (commit : list (option Event) -> Event -> Prop) (r : option kerror) (h h' : list (option Event)) : Prop :=
  exists h1, rtc occurs h h1 /\
    (r <> None /\ rtc occurs h1 h' \/ exists e, commit h1 e /\ rtc occurs (Some e :: h1) h').

Class EventsAPILaws (W : Type) `{EventsAPI W} := {
  event_history : string -> W -> list (option Event);
  events_Get_others k w r w' : events_Get k w = (r, w') -> rtc occurs (event_history k w) (event_history k w');
  events_Get_newest k w e w' : events_Get k w = (inl e, w') -> head (event_history k w') = Some (Some e) /\ evName e = k;
  events_Create_effect e w r w' : events_Create e w = (r, w') ->
    effect (fun h new => absent h /\ exists v, new = stored e v) r (event_history (evName e) w) (event_history (evName e) w');
  events_Update_effect e w r w' : events_Update e w = (r, w') ->
    effect (fun h new => exists cur h1 v, h = Some cur :: h1 /\ evVersion cur = evVersion e /\ new = stored e v) r
      (event_history (evName e) w) (event_history (evName e) w');
  events_identified k w a b : Some a ∈ event_history k w -> Some b ∈ event_history k w -> evVersion a = evVersion b -> a = b }.

Section occurrence_theory.
Context `{ErrorKinds} {W : Type} `{EA : EventsAPI W, EL : !EventsAPILaws W}.
Context (Backoff : forall S, backoff S) (ctx_err : W -> option kerror) (is_interrupted : kerror -> bool).
Context (Hlaw : backoff_law (fun s : (W * memory * nodeEventWrite * bool) * option kerror => ctx_err s.1.1.1.1 <> None) (Backoff _)).

(** The history grows by occurrences, and a call without an error announced the
    fault. *)
Definition sound_write (event : Event) (r : option kerror) (w w' : W) : Prop :=
  let H := event_history (evName event) in rtc occurs (H w) (H w') /\ (r = None -> announced_by event (H w')).

Lemma announced_head event h h' e : evFault e = evFault event -> Unix (LastTimestamp event) <= Unix (LastTimestamp e) ->
  rtc occurs (Some e :: h) h' -> announced_by event h'.
Proof. intros ?? Hr. exists e. split; [|done]. apply (occurs_elem _ _ _ Hr). left. Qed.

Lemma reconcile_sound event w r w' : reconcileNodeEvent event w = (r, w') -> sound_write event r w w'.
Proof.
  unfold reconcileNodeEvent, sound_write. destruct (events_Get _ w) as [[old|e] w1] eqn:Hg; pose proof (events_Get_others _ _ _ _ Hg) as H1; [|by intros [= <- <-]].
  destruct (events_Get_newest _ _ _ _ Hg) as [Hhead Hname]. unfold sameNodeEventFault. case_bool_decide as Hf; [|by intros [= <- <-]]. cbn [negb].
  assert (Hin : Some old ∈ event_history (evName event) w1) by (destruct (event_history (evName event) w1); simplify_eq/=; left).
  destruct (Z.leb_spec (Unix (LastTimestamp event)) (Unix (LastTimestamp old))) as [Hle|Hlt]; [intros [= <- <-]; split; [done|by exists old]|].
  destruct (events_Update _ w1) as [er w2] eqn:Hu. destruct (events_Update_effect _ _ _ _ Hu) as (h1 & Hh1 & Hc). simpl in *. rewrite Hname in *.
  destruct Hc as [[Her Hr]|(new & (cur & h2 & v & -> & Hv & ->) & Hr)]; [destruct er; [|done]; intros [= <- <-]; split; [by etrans; [|etrans]|done]|].
  assert (cur = old) as ->.
  { apply (events_identified (evName event) w2); [| |done]; apply (occurs_elem _ _ _ Hr); right; [left|by apply (occurs_elem _ _ _ Hh1)]. }
  assert (Hres : sound_write event er w w2).
  { split; [|intros _; eapply announced_head; [| |exact Hr]; [done|simpl; by rewrite Unix_to_second]].
    etrans; [exact H1|]. etrans; [exact Hh1|]. eapply rtc_l; [|exact Hr]. apply occurs_next. unfold next_occurrence. simpl. by rewrite !Unix_to_second. }
  destruct er; intros [= <- <-]; destruct Hres; by split.
Qed.

Lemma sound_trans event r1 r2 w w1 w2 : sound_write event r1 w w1 -> sound_write event r2 w1 w2 -> sound_write event r2 w w2.
Proof. intros [H1 _] [H2 H3]. split; [by etrans|done]. Qed.

Lemma create_sound event w r w' : first_occurrence event -> createNodeEvent event w = (r, w') -> sound_write event r w w'.
Proof.
  intros Hfirst. unfold createNodeEvent. destruct (events_Create event w) as [er w1] eqn:Hc.
  assert (H1 : sound_write event er w w1).
  { destruct (events_Create_effect _ _ _ _ Hc) as (h1 & Hh1 & [[Her Hr]|(new & (Ha & v & ->) & Hr)]).
    - split; [by etrans|done].
    - split; [|intros _; eapply announced_head; [| |exact Hr]; [done|simpl; by rewrite Unix_to_second]].
      etrans; [exact Hh1|]. eapply rtc_l; [|exact Hr]. apply occurs_first; [done|]. destruct Hfirst. split; [done|]. simpl. by rewrite !Unix_to_second. }
  destruct er as [er|]; [|by intros [= <- <-]]. destruct (negb _); [by intros [= <- <-]|].
  destruct (reconcileNodeEvent event w1) as [lr w2] eqn:Hl. apply reconcile_sound in Hl. pose proof (sound_trans _ _ _ _ _ _ H1 Hl) as Hs.
  destruct lr; [destruct (IsNotFound _)|]; intros [= <- <-]; destruct Hs; by split.
Qed.

Lemma create_or_reconcile_sound write w r write' w' : first_occurrence (nwEvent write) ->
  createOrReconcileNodeEvent write w = (r, (write', w')) -> nwEvent write' = nwEvent write /\ sound_write (nwEvent write) r w w'.
Proof.
  intros Hfirst. unfold createOrReconcileNodeEvent. destruct (createAttempted write).
  - destruct (reconcileNodeEvent _ w) as [[e|] w1] eqn:Hr; apply reconcile_sound in Hr; [destruct (IsNotFound e)|]; [|by intros [= <- <- <-]..].
    destruct (createNodeEvent _ w1) as [r2 w2] eqn:Hc. apply create_sound in Hc; [|done]. intros [= <- <- <-]. split; [done|]. by eapply sound_trans.
  - destruct (createNodeEvent _ w) as [r2 w2] eqn:Hc. apply create_sound in Hc; [|done]. by intros [= <- <- <-].
Qed.

Lemma attempt_sound now name event s r s' : first_occurrence event -> nwEvent s.1.2 = event ->
  writeAttempt now name s = (r, s') -> nwEvent s'.1.2 = event /\ sound_write event r s.1.1.1 s'.1.1.1.
Proof.
  intros Hfirst Hev. destruct s as [[[w mem] write] known]. simpl in Hev. subst event. unfold writeAttempt. destruct known.
  - unfold refreshNodeEvent. destruct (reconcileNodeEvent (nwEvent write) w) as [[e|] w1] eqn:Hr; apply reconcile_sound in Hr; [|by intros [= <- <-]].
    destruct (IsNotFound e); [|by intros [= <- <-]]. destruct (createOrReconcileNodeEvent write w1) as [r2 [write2 w2]] eqn:Hc.
    apply create_or_reconcile_sound in Hc as [? ?]; [|done]. intros [= <- <-]. split; [done|]. by eapply sound_trans.
  - destruct (createOrReconcileNodeEvent write w) as [r2 [write2 w2]] eqn:Hc. apply create_or_reconcile_sound in Hc as [? ?]; [|done]. by intros [= <- <-].
Qed.

(** C17 (no occurrence is counted twice).  Whatever a write of an Event ends with,
    however often it was retried and whatever other replicas did meanwhile, the
    history of the Event stays one in which the count is the number of versions
    and each version is of a strictly later second than the one before, so that a
    repeated create or refresh of the same occurrence counts once; and a write that
    is reported as done announced the fault with this occurrence or a later one. *)
Theorem occurrence_counted_once (GeneratedTimestamp : HealthEvent -> option Z) (now : Z) (e : HealthEvent) (attempted : bool) (mem : memory)
    (w w' : W) (skipped : bool) (err : option kerror) (mem' : memory) (write' : nodeEventWrite) :
  let event := createK8sEvent GeneratedTimestamp now e in
  let hist := event_history (evName event) in
  writeNodeEvent Backoff ctx_err is_interrupted now (NodeName e)
    {| nwEvent := event; nwEntities := entityKeys e; createAttempted := attempted |} mem w = ((skipped, err), (w', mem', write')) ->
  counted (hist w) ->
  counted (hist w') /\ (skipped = false -> err = None -> announced_by event (hist w')).
Proof.
  intros event hist. unfold writeNodeEvent. cbn [nwEvent nwEntities]. set (known := bool_decide _).
  destruct (match rememberedNodeEvent _ _ _ _ with Some _ => _ | None => _ end); [by intros [= <- <- <- <- <-]|].
  destruct (retryKubernetesAPIWrite _ _ _ _ _ _) as [r [[[w1 mem1] write1] known1]] eqn:Hr. intros Hres Hc.
  destruct (retry_attempted _ _ _ Hlaw _ _ _ _ _ Hr) as (x & Hx & Hlast).
  assert (Hfirst : first_occurrence event) by done.
  pose (I := fun s : W * memory * nodeEventWrite * bool => nwEvent s.1.2 = event /\ rtc occurs (hist w) (hist s.1.1.1)).
  assert (Hkeep : forall s0 y s1, I s0 -> writeAttempt now (NodeName e) s0 = (y, s1) -> I s1).
  { intros s0 y s1 [He Ho] Ha. apply (attempt_sound _ _ event) in Ha as [? [? _]]; [|done|done]. split; [done|]. by etrans. }
  assert (w' = w1) as -> by (destruct r; by injection Hres).
  assert (Hinit : I (w, mem, {| nwEvent := event; nwEntities := entityKeys e; createAttempted := attempted |}, known)) by done.
  pose proof (attempted_keeps I _ _ _ _ Hkeep Hinit Hx) as [_ Ho]. split; [by eapply occurs_all_counted|].
  intros -> ->. assert (r = None) as Hrn by (by destruct r). rewrite (Hlast Hrn) in Hx. inversion Hx as [|x1 s1 y s2 Hx1 Hrun]; subst.
  pose proof (attempted_keeps I _ _ _ _ Hkeep Hinit Hx1) as [He1 _].
  apply (attempt_sound _ _ event) in Hrun as [_ [_ Hd]]; [|done|done]. by apply Hd.
Qed.
End occurrence_theory.
