(* ===== verification/ConnectorDemo.v ===== *)
(** * The Kubernetes connector on one node

    A server with one node and one Event, two GPU faults and a recovery.  The
    theorems of [ConditionSpec], [Connector] and [NodeEvents] are applied to it; the
    examples at the end show where they stop. *)

From stdpp Require Import gmap strings list fin_maps sorting.
From Stdlib Require Import ZArith Lia Ascii.
From S2P Require Import Prelude HealthEvent KubeRetry GoText NodeCondition ConditionSpec Connector NodeEvents.

#[local] Open Scope Z_scope.

Module ConnectorDemo.

#[local] Existing Instance list_range.
#[local] Existing Instance list_range_laws.

(** ** Events *)

Definition entity (type value : string) : Entity := {| EntityType := type; EntityValue := value |}.

Definition event (healthy fatal : bool) (codes : list string) (entities : list Entity) (text : string) (seconds : Z) : HealthEvent := {|
  Version := 1; Agent := "monitor"; ComponentClass := "GPU"; CheckName := "GpuXid"; IsFatal := fatal;
  IsHealthy := healthy; Message := text; Action := RESTART_BM; ErrorCode := codes;
  EntitiesImpacted := entities; Metadata := ∅; GeneratedSeconds := Some seconds; NodeName := "node-1";
  QuarantineOverrides := None; DrainOverrides := None; Strategy := EXECUTE_REMEDIATION; Id := "";
  CustomRecommendedAction := "" |}.

(** The times of these events are whole seconds. *)
Definition stamp (e : HealthEvent) : option Z := (fun s => s * 1000000000) <$> GeneratedSeconds e.

Definition gpu0 := [entity "GPU" "0"; entity "PCI" "0000:03:00"].
Definition gpu1 := [entity "GPU" "1"; entity "PCI" "0000:04:00"].
Definition fault0 := event false true ["79"] gpu0 "fell off the bus" 10.
Definition fault1 := event false true ["48"] gpu1 "double bit error" 11.
Definition recovered0 := event true false [] gpu0 "" 12.
Definition warned := event false false ["13"] gpu0 "graphics exception" 10.

Definition cfg : K8sConnectorConfig :=
  {| MaxNodeConditionMessageLength := 1024; CompactedHealthEventMsgLen := 72; MaxRetries := 25; MaxRetryDuration := 60 |}.

(** ** Conditions as lists of faults *)

(** What is decided by computation. *)
Ltac decided := match goal with |- ?P => refine (bool_decide_unpack P _); vm_compute; exact I end.

Lemma faults_wf : Forall wf_fault [fault_of fault0; fault_of fault1].
Proof. decided. Qed.

Definition batch : list HealthEvent := [fault0; fault1; recovered0; fault1].


Definition tight : K8sConnectorConfig :=
  {| MaxNodeConditionMessageLength := 60; CompactedHealthEventMsgLen := 72; MaxRetries := 25; MaxRetryDuration := 60 |}.

Definition entries : list string := map entry [fault_of fault0; fault_of fault1].


Lemma compaction_keeps_fault_witness :
  compactMessageField (entry (fault_of fault0)) 40 <> entry (fault_of fault0) /\
  messagesMatchByIdentity (compactMessageField (entry (fault_of fault0)) 40) (entry (fault_of fault1)) =
    messagesMatchByIdentity (entry (fault_of fault0)) (entry (fault_of fault1)).
Proof.
  split; [by vm_compute|]. refine (proj1 (compaction_keeps_fault (fault_of fault0) 40 _ _ _) _ _); [decided|done| |decided].
  vm_compute. set_solver.
Defined.

(** ** The waits *)

Definition timed_out : kerror := plain_error "timed out waiting for the condition".

(** At most [n] attempts. *)
Fixpoint tries {S} (n : nat) (f : S -> cond * S) (s : S) : wait_end * S :=
  match n with
  | O => (WaitInterrupted timed_out, s)
  | Datatypes.S n =>
      match f s with
      | (CondDone, s') => (WaitDone, s')
      | (CondErr e, s') => (WaitErr e, s')
      | (CondAgain, s') => tries n f s'
      end
  end.

Lemma tries_run {S} (P : S -> Prop) n f : forall b s, b = false \/ n <> 0%nat -> wait_run P f b s (tries n f s).1 (tries n f s).2.
Proof.
  induction n as [|n IH]; intros b s Hb; simpl; [apply wait_stop; left; by destruct Hb|].
  destruct (f s) as [[| |e] s'] eqn:Hf; simpl; [by apply wait_done| |by apply wait_err]. eapply wait_again; [exact Hf|]. apply IH. by left.
Qed.

Lemma tries_law {S} (P : S -> Prop) : backoff_law P (tries 4).
Proof. intros f s. apply tries_run. by right. Qed.

#[local] Instance kinds : ErrorKinds := {|
  IsInvalid e := kmsg e ==s "test failed"; isContextError _ := false; isKubernetesAPIError _ := false; isNetworkError _ := false;
  isSyscallError _ := false; isEOF _ := false |}.

(** ** A server with one node *)

#[local] Instance condition_eq_dec : EqDecision NodeCondition.
Proof. solve_decision. Defined.

(** The conditions the node had, newest first. *)
Definition node_server : Type := list (list NodeCondition).

Fixpoint unary (n : nat) : string := match n with O => "" | S n => String "I"%char (unary n) end.

Lemma unary_inj a b : unary a = unary b -> a = b.
Proof. revert b. induction a as [|a IH]; intros [|b]; simpl; [done..|]. intros [= ?%IH]. by subst. Qed.

Definition version (w : node_server) (c : list NodeCondition) : statusNode :=
  {| snName := "node-1"; snVersion := unary (length w); snConditions := c |}.
Fixpoint versions (w : node_server) : list statusNode := match w with [] => [] | c :: w => version w c :: versions w end.

Definition not_found : kerror := {| kreason := ReasonNotFound; kmsg := "not found" |}.
Definition conflict : kerror := {| kreason := ReasonConflict; kmsg := "modified" |}.

#[local] Instance node_api : StatusAPI node_server := {|
  status_Get k w := (if k ==s "node-1" then match versions w with n :: _ => inl n | [] => inr not_found end else inr not_found, w);
  status_Update n w :=
    match w with
    | c :: w1 => if (snName n ==s "node-1") && (snVersion n ==s unary (length w1)) then (None, snConditions n :: w) else (Some conflict, w)
    | [] => (Some not_found, w)
    end;
  status_Patch k read updated w :=
    match w with
    | c :: _ => if (k ==s "node-1") && bool_decide (c = read) then (None, updated :: w) else (Some (plain_error "test failed"), w)
    | [] => (Some not_found, w)
    end |}.

Definition node_history (k : string) (w : node_server) : list statusNode := if k ==s "node-1" then versions w else [].

Lemma version_bound n w : n ∈ versions w -> exists i, snVersion n = unary i /\ (i < length w)%nat.
Proof.
  induction w as [|c w IH]; [by intros ?%not_elem_of_nil|]. intros [->|Hn]%elem_of_cons; [exists (length w); split; [done|simpl; lia]|].
  destruct (IH Hn) as (i & ? & ?). exists i. split; [done|simpl; lia].
Qed.

Lemma version_identifies w n1 n2 : n1 ∈ versions w -> n2 ∈ versions w -> snVersion n1 = snVersion n2 -> n1 = n2.
Proof.
  induction w as [|c w IH]; [by intros ?%not_elem_of_nil|]. intros [->|H1]%elem_of_cons [->|H2]%elem_of_cons; [done| | |by apply IH];
    intros He; exfalso; [destruct (version_bound _ _ H2) as (i & Hi & ?)|destruct (version_bound _ _ H1) as (i & Hi & ?)];
    rewrite Hi in He; simpl in He; apply unary_inj in He; lia.
Qed.

Lemma history_push k c w : node_history k w `suffix_of` node_history k (c :: w).
Proof. unfold node_history. destruct (k ==s "node-1"); [by apply suffix_cons_r|done]. Qed.

#[local] Instance node_laws : StatusAPILaws node_server.
Proof.
  refine {| status_versions := node_history |}; unfold node_history; simpl.
  - intros k w n w' [= Hn <-]. destruct (k ==s "node-1"); [|done]. destruct (versions w); by simplify_eq/=.
  - by intros k w r w' [= <- <-].
  - intros k w n w' [= Hn <-]. destruct (k ==s "node-1") eqn:Hk; [|done]. apply go_eqb_true in Hk. subst k. destruct w; by simplify_eq/=.
  - intros n [|c w] r w' k Hu; [by injection Hu as _ <-|]. destruct (_ && _); injection Hu as _ <-; [apply (history_push k)|done].
  - intros n [|c w] w' Hu; [done|]. destruct (snName n ==s "node-1") eqn:Hn; [|done]. destruct (snVersion n ==s _) eqn:Hv; [|done].
    injection Hu as <-. apply go_eqb_true in Hv. by exists [], (version (c :: w) (snConditions n)), (version w c), (versions w).
  - intros k read updated [|c w] r w' Hu; [by injection Hu as _ <-|]. destruct (_ && _); injection Hu as _ <-; [apply (history_push k)|done].
  - intros k read updated [|c w] w' Hu; [done|]. destruct (k ==s "node-1"); [|done]. simpl in Hu. case_bool_decide as Hc; [|done].
    injection Hu as <-. by exists [], (version (c :: w) updated), (version w c), (versions w).
  - intros k w n1 n2. destruct (k ==s "node-1"); [apply version_identifies|by intros ?%not_elem_of_nil].
Defined.

Definition calm (w : node_server) : option kerror := None.
Definition no_interrupt (e : kerror) : bool := false.

Definition conditions_after (events : list HealthEvent) (w : node_server) : (bool * option kerror) * node_server :=
  updateNodeConditions cfg stamp 0 (fun _ => tries 4) calm no_interrupt events w.

(** The node starts with the condition of the kubelet. *)
Definition ready : NodeCondition :=
  {| cType := "Ready"; cStatus := "True"; cReason := "KubeletReady"; cMessage := "ready"; LastHeartbeatTime := 0; LastTransitionTime := 0 |}.

Lemma condition_write_atomic_witness :
  let w' := (conditions_after batch [[ready]]).2 in
  length w' = 2%nat /\ committed_fold cfg stamp 0 "node-1" (buildConditionEventsMap batch) w'.
Proof.
  split; [by vm_compute|].
  refine (condition_write_atomic cfg stamp 0 (fun _ => tries 4) calm no_interrupt (tries_law _) fault0 _ [[ready]] _ true _). by vm_compute.
Defined.

(** ** A server with one Event *)

Definition warning : Event := createK8sEvent stamp 0 warned.

(** What the Event of this name was, newest first. *)
Definition event_server : Type := list (option Event).

Definition numbered (w : event_server) (e : Event) : Event :=
  {| evName := evName warning; evFault := evFault e; Count := Count e; FirstTimestamp := to_second (FirstTimestamp e);
     LastTimestamp := to_second (LastTimestamp e); evVersion := Z.of_nat (length w) |}.
Fixpoint event_states (w : event_server) : list (option Event) :=
  match w with [] => [] | e :: w => option_map (numbered w) e :: event_states w end.

Definition already_exists : kerror := plain_error "already exists".

#[local] Instance events_api : EventsAPI event_server := {|
  events_Get k w := (if k ==s evName warning then match event_states w with Some e :: _ => inl e | _ => inr not_found end else inr not_found, w);
  events_Create e w :=
    if evName e ==s evName warning then match w with Some _ :: _ => (Some already_exists, w) | _ => (None, Some e :: w) end
    else (Some (plain_error "forbidden"), w);
  events_Update e w :=
    if evName e ==s evName warning then
      match w with
      | Some _ :: w1 => if evVersion e =? Z.of_nat (length w1) then (None, Some e :: w) else (Some conflict, w)
      | _ => (Some not_found, w)
      end
    else (Some (plain_error "forbidden"), w);
  IsAlreadyExists e := kmsg e ==s "already exists" |}.

Definition event_states_of (k : string) (w : event_server) : list (option Event) := if k ==s evName warning then event_states w else [].

Lemma event_bound e w : Some e ∈ event_states w -> evVersion e < Z.of_nat (length w).
Proof.
  induction w as [|x w IH]; [by intros ?%not_elem_of_nil|]. intros [Hx|He]%elem_of_cons; [destruct x as [x|]; simplify_eq/=; lia|].
  specialize (IH He). simpl. lia.
Qed.

Lemma event_identifies w e1 e2 : Some e1 ∈ event_states w -> Some e2 ∈ event_states w -> evVersion e1 = evVersion e2 -> e1 = e2.
Proof.
  induction w as [|x w IH]; [by intros ?%not_elem_of_nil|]. intros [H1|H1]%elem_of_cons [H2|H2]%elem_of_cons; [destruct x; by simplify_eq/=| | |by apply IH];
    intros He; exfalso; [apply event_bound in H2; destruct x; simplify_eq/=; lia|apply event_bound in H1; destruct x; simplify_eq/=; lia].
Qed.

Lemma no_commit commit e h : effect commit (Some e) h h.
Proof. exists h. split; [done|left]. by split. Qed.

Lemma own_commit commit r h e : (commit h e : Prop) -> effect commit r h (Some e :: h).
Proof. intros Hc. exists h. split; [done|right]. by exists e. Qed.

#[local] Instance events_laws : EventsAPILaws event_server.
Proof.
  refine {| event_history := event_states_of |}; unfold event_states_of; cbn [events_Get events_Create events_Update events_api].
  - by intros k w r w' [= _ <-].
  - intros k w e w'. destruct (k ==s evName warning) eqn:Hk; [|done]. intros [= He <-]. apply go_eqb_true in Hk. subst k.
    destruct w as [|[x|] w]; cbn [event_states option_map] in *; try done. injection He as <-. by split.
  - intros e w r w'. destruct (evName e ==s evName warning) eqn:Hk; [|intros [= <- <-]; apply no_commit]. apply go_eqb_true in Hk.
    assert (Hs : numbered w e = stored e (Z.of_nat (length w))) by (unfold numbered, stored; by rewrite <- Hk).
    destruct w as [|[x|] w]; intros [= <- <-]; [|apply no_commit|]; simpl event_states; rewrite Hs; apply own_commit; (split; [done|by eexists]).
  - intros e w r w'. destruct (evName e ==s evName warning) eqn:Hk; [|intros [= <- <-]; apply no_commit]. apply go_eqb_true in Hk.
    assert (Hs : numbered w e = stored e (Z.of_nat (length w))) by (unfold numbered, stored; by rewrite <- Hk).
    destruct w as [|[x|] w]; [intros [= <- <-]; apply no_commit| |intros [= <- <-]; apply no_commit].
    destruct (Z.eqb_spec (evVersion e) (Z.of_nat (length w))) as [Hv|]; intros [= <- <-]; [|apply no_commit].
    simpl event_states. simpl in Hs. rewrite Hs. apply own_commit. by eexists _, _, _.
  - intros k w a b. destruct (k ==s evName warning); [apply event_identifies|by intros ?%not_elem_of_nil].
Defined.

Definition announce (now : Z) (e : HealthEvent) (mem : memory) (w : event_server) :=
  writeNodeEvent (fun _ => tries 4) (fun _ => None) no_interrupt now (NodeName e)
    {| nwEvent := createK8sEvent stamp now e; nwEntities := entityKeys e; createAttempted := false |} mem w.

(** The same fault five seconds later, reported by a replica without the memory. *)
Definition warned_again : HealthEvent := event false false ["13"] gpu0 "graphics exception" 15.

Definition first_write : event_server := (announce 0 warned ∅ []).2.1.1.

Lemma counted_first : counted (event_history (evName warning) first_write).
Proof.
  assert (first_write = [Some warning]) as -> by (by vm_compute). change (counted (event_states_of (evName warning) [Some warning])).
  unfold event_states_of. rewrite go_eqb_refl. apply (occurs_counted []); [by apply occurs_first|]. split; [constructor|]. split; [|done].
  by intros ? ? ?%not_elem_of_nil.
Qed.

Lemma occurrence_counted_once_witness :
  let w' := (announce 0 warned_again ∅ first_write).2.1.1 in
  map (option_map Count) w' = [Some 2; Some 1] /\
  counted (event_history (evName warning) w').
Proof.
  split; [by vm_compute|].
  pose proof (occurrence_counted_once (fun _ => tries 4) (fun _ => None) no_interrupt (tries_law _) stamp 0 warned_again false ∅ first_write) as Ht.
  destruct (announce 0 warned_again ∅ first_write) as [[skipped err] [[w' mem'] write']] eqn:Ha. simpl.
  assert (Hn : evName (createK8sEvent stamp 0 warned_again) = evName warning) by (by vm_compute).
  specialize (Ht w' skipped err mem' write'). cbv zeta in Ht. rewrite Hn in Ht. exact (proj1 (Ht Ha counted_first)).
Defined.

(** The same occurrence again: nothing is counted. *)
Example repeated_occurrence : map (option_map Count) (announce 0 warned ∅ first_write).2.1.1 = [Some 1].
Proof. by vm_compute. Qed.

Example fnv_known : fnv_write fnv_offset "a" = 0xaf63dc4c8601ec8c.
Proof. by vm_compute. Qed.

Lemma batch_order_witness :
  exists names rest,
    prepareHealthEventWrites stamp 0 [recovered0; warned; fault1; fault0] =
      map (fun n => ConditionWrite n (existsb IsHealthy (ordered_events stamp n [recovered0; warned; fault1; fault0]))
                      (ordered_events stamp n [recovered0; warned; fault1; fault0])) names ++ rest /\
    ordered_events stamp "node-1" [recovered0; warned; fault1; fault0] = [fault0; fault1; recovered0].
Proof.
  destruct (batch_order stamp 0 [recovered0; warned; fault1; fault0]) as (names & rest & Hw & _). exists names, rest. split; [exact Hw|by vm_compute].
Defined.

(** ** Where the theorems stop *)

(** The cut mark does not fit: the text is three bytes too long. *)
Definition narrow : K8sConnectorConfig :=
  {| MaxNodeConditionMessageLength := 68; CompactedHealthEventMsgLen := 1000; MaxRetries := 25; MaxRetryDuration := 60 |}.

Example message_too_long : slen (truncateNodeConditionMessage narrow entries) = 71.
Proof. by vm_compute. Qed.

(** A recovery of GPU 1 clears the fault of GPU 0 whose diagnostic text names
    GPU 1. *)
Definition confusing : HealthEvent := event false true ["79"] gpu0 "peer GPU:1 lost" 10.
Definition recovered1 : HealthEvent := event true false [] [entity "GPU" "1"] "" 12.

Example recovery_of_another_gpu :
  fold_left fold_fault [confusing; recovered1] [] = [fault_of confusing] /\ aggregateEventMessages [] [confusing; recovered1] = [].
Proof. split; by vm_compute. Qed.

End ConnectorDemo.
