(* ===== verification/Interaction.v ===== *)
(** * Programs that call their surroundings

    A handler of a controller is a program of calls (to the API server, the event
    store, the clock) whose answers come from outside.  Such a program is a finite
    tree: a result, or a call with a continuation for every answer.  Since the tree
    is finite every handler ends, whatever the answers.

    [guarded P t p Q]: after the calls and answers [t], the program [p] only makes
    calls that [P] allows at that point, and ends in [Q], for every answer.  The
    rules below follow the structure of programs; [guarded_exec] connects it to
    runs. *)

From stdpp Require Import base list option strings.
From S2P Require Import Prelude KubeRetry.

Set Default Goal Selector "!".

Section program.
Context {Call : Type} {answer : Call -> Type}.

Inductive prog (A : Type) :=
| Return (a : A)
| Next (c : Call) (k : answer c -> prog A).
#[global] Arguments Return {A} a.
#[global] Arguments Next {A} c k.

Fixpoint prog_bind_def {A B} (f : A -> prog B) (p : prog A) : prog B :=
  match p with
  | Return a => f a
  | Next c k => Next c (fun x => prog_bind_def f (k x))
  end.

#[global] Instance prog_ret : MRet prog := @Return.
#[global] Instance prog_bind : MBind prog := @prog_bind_def.

Definition call (c : Call) : prog (answer c) := Next c Return.

(** ** Traces *)

Record event := Ev { ev_call : Call; ev_answer : answer ev_call }.

(** The newest event first. *)
Abbreviation trace := (list event).

Inductive exec {A} : prog A -> trace -> A -> trace -> Prop :=
| exec_ret a t : exec (Return a) t a t
| exec_next c k x t a t' : exec (k x) (Ev c x :: t) a t' -> exec (Next c k) t a t'.

(** ** Guarded programs *)

Fixpoint guarded (P : trace -> Call -> Prop) {A} (t : trace) (p : prog A) (Q : trace -> A -> Prop) : Prop :=
  match p with
  | Return a => Q t a
  | Next c k => P t c /\ forall x, guarded P (Ev c x :: t) (k x) Q
  end.

Lemma guarded_mono P P' {A} (p : prog A) : forall t (Q Q' : trace -> A -> Prop),
  guarded P t p Q -> (forall t c, P t c -> P' t c) -> (forall t a, Q t a -> Q' t a) -> guarded P' t p Q'.
Proof. induction p as [a|c k IH]; simpl; [auto|]. intros t Q Q' [HP Hk] H1 H2. split; [auto|]. intros x. by eapply IH. Qed.

Lemma guarded_conseq P {A} (p : prog A) t (Q Q' : trace -> A -> Prop) : guarded P t p Q -> (forall t a, Q t a -> Q' t a) -> guarded P t p Q'.
Proof. intros H1 H2. by eapply guarded_mono. Qed.

Lemma guarded_bind P {A B} (p : prog A) (f : A -> prog B) : forall t Q,
  guarded P t p (fun t' a => guarded P t' (f a) Q) -> guarded P t (p ≫= f) Q.
Proof. induction p as [a|c k IH]; intros t Q; simpl; [done|]. intros [HP Hk]. split; [done|]. intros x. apply IH, Hk. Qed.

Lemma guarded_ret P {A} (a : A) t (Q : trace -> A -> Prop) : Q t a -> guarded P t (mret a) Q.
Proof. done. Qed.

Lemma guarded_call P c t (Q : trace -> answer c -> Prop) : P t c -> (forall x, Q (Ev c x :: t) x) -> guarded P t (call c) Q.
Proof. by split. Qed.

(** A call followed by the rest, in one step. *)
Lemma guarded_step P {B} c (f : answer c -> prog B) t Q :
  P t c -> (forall x, guarded P (Ev c x :: t) (f x) Q) -> guarded P t (call c ≫= f) Q.
Proof. by split. Qed.

(** Both of two postconditions. *)
Lemma guarded_and P {A} (p : prog A) : forall t (Q1 Q2 : trace -> A -> Prop),
  guarded P t p Q1 -> guarded P t p Q2 -> guarded P t p (fun t a => Q1 t a /\ Q2 t a).
Proof. induction p as [a|c k IH]; simpl; [done|]. intros t Q1 Q2 [HP H1] [_ H2]. split; [done|]. intros x. by apply IH. Qed.

(** A postcondition that always holds. *)
Lemma guarded_any {A} (p : prog A) (Q : trace -> A -> Prop) : (forall t a, Q t a) -> forall t, guarded (fun _ _ => True) t p Q.
Proof. intros HQ. induction p as [a|c k IH]; intros t; simpl; [done|]. split; [done|]. intros x. apply IH. Qed.

(** Every call since [t0] was allowed by what was before it. *)
Inductive allowed (P : trace -> Call -> Prop) (t0 : trace) : trace -> Prop :=
| allowed_start : allowed P t0 t0
| allowed_event e t : allowed P t0 t -> P t (ev_call e) -> allowed P t0 (e :: t).

Lemma allowed_earlier P e t0 t : P t0 (ev_call e) -> allowed P (e :: t0) t -> allowed P t0 t.
Proof. intros HP. induction 1; repeat constructor; auto. Qed.

Lemma allowed_at P t : allowed P [] t -> forall t1 e t2, t = t1 ++ e :: t2 -> P t2 (ev_call e).
Proof. induction 1 as [|e0 t Ha IH HP]; intros [|x t1] e t2 Ht; simplify_eq/=; eauto. Qed.

Lemma guarded_exec P {A} (p : prog A) t a t' Q : guarded P t p Q -> exec p t a t' -> allowed P t t' /\ Q t' a.
Proof.
  intros Hg He. induction He as [a t|c k x t a t' He IH]; simpl in Hg; [by split; [constructor|]|].
  destruct Hg as [HP Hk]. destruct (IH (Hk x)) as [Ha HQ]. split; [|done]. by apply (allowed_earlier P (Ev c x)).
Qed.

(** ** Running against a state *)

(** The result, the state and the calls made. *)
Fixpoint traced {W A} (h : forall c : Call, W -> answer c * W) (p : prog A) (w : W) (t : trace) : A * W * trace :=
  match p with
  | Return a => (a, w, t)
  | Next c k => let '(x, w) := h c w in traced h (k x) w (Ev c x :: t)
  end.

Lemma traced_exec {W A} (h : forall c : Call, W -> answer c * W) (p : prog A) : forall w t, exec p t (traced h p w t).1.1 (traced h p w t).2.
Proof. induction p as [a|c k IH]; intros w t; simpl; [constructor|]. destruct (h c w) as [x w1]. eapply exec_next, IH. Qed.

(** ** Conflict retries *)

(** [retry.RetryOnConflict] with so many steps. *)
Fixpoint RetryOnConflict {A} (steps : nat) (body : prog (A + kerror)) : prog (A + kerror) :=
  match steps with
  | O => mret (inr (plain_error "timed out waiting for the condition"%string))
  | S n =>
      r ← body;
      match r with
      | inr e => if IsConflict e && negb (Nat.eqb n 0) then RetryOnConflict n body else mret r
      | inl _ => mret r
      end
  end.

(** What every attempt establishes when it starts from [I] and leads back to. *)
Lemma guarded_retry P {A} (body : prog (A + kerror)) (I : trace -> Prop) (Q : trace -> A + kerror -> Prop) :
  (forall t, I t -> guarded P t body (fun t r => Q t r /\ I t)) ->
  (forall t e, I t -> Q t (inr e)) ->
  forall n t, I t -> guarded P t (RetryOnConflict n body) Q.
Proof.
  intros Hb He n. induction n as [|n IH]; intros t HI; simpl; [by apply He|]. apply guarded_bind. eapply guarded_conseq; [by apply Hb|].
  simpl. intros t1 r [HQ HI1]. destruct r as [a|e]; [done|]. destruct (_ && _); [by apply IH|done].
Qed.

(** ** Footprints *)

Lemma guarded_combine P1 P2 {A} (p : prog A) : forall t (Q1 Q2 : trace -> A -> Prop),
  guarded P1 t p Q1 -> guarded P2 t p Q2 -> guarded (fun t c => P1 t c /\ P2 t c) t p (fun t a => Q1 t a /\ Q2 t a).
Proof. induction p as [a|c k IH]; simpl; [done|]. intros t Q1 Q2 [HP1 H1] [HP2 H2]. split; [done|]. intros x. by apply IH. Qed.

(** What a program added to the trace. *)
Lemma guarded_grows P {A} (p : prog A) t (Q : trace -> A -> Prop) :
  guarded P t p Q -> guarded P t p (fun t' a => t `suffix_of` t' /\ Q t' a).
Proof.
  revert t. induction p as [a|c k IH]; intros t; simpl; [done|]. intros [HP Hk]. split; [done|]. intros x.
  eapply guarded_conseq; [by apply IH|]. simpl. intros t' a [Hs HQ]. split; [|done]. etrans; [|exact Hs]. by apply suffix_cons_r.
Qed.

(** The program only makes calls of the kind [K]. *)
Definition only (K : Call -> bool) {A} (p : prog A) : Prop := forall t, guarded (fun _ c => K c = true) t p (fun _ _ => True).

Lemma only_ret K {A} (a : A) : only K (mret a).
Proof. done. Qed.

Lemma only_call K c : K c = true -> only K (call c).
Proof. intros H t. by apply guarded_call. Qed.

Lemma only_bind K {A B} (p : prog A) (f : A -> prog B) : only K p -> (forall a, only K (f a)) -> only K (p ≫= f).
Proof. intros Hp Hf t. apply guarded_bind. eapply guarded_conseq; [apply Hp|]. intros t' a _. apply Hf. Qed.

Lemma only_retry K {A} n (body : prog (A + kerror)) : only K body -> only K (RetryOnConflict n body).
Proof.
  intros Hb. induction n as [|n IH]; simpl; [done|]. apply only_bind; [done|]. intros [a|e]; [done|]. by destruct (_ && _).
Qed.

Lemma only_weaken (K K' : Call -> bool) {A} (p : prog A) : (forall c, K c = true -> K' c = true) -> only K p -> only K' p.
Proof. intros Hk Hp t. eapply guarded_mono; [apply Hp|naive_solver|done]. Qed.

(** What a program with a footprint adds to the trace. *)
Lemma only_adds K {A} (p : prog A) t : only K p ->
  guarded (fun _ _ => True) t p (fun t' _ => exists l, t' = l ++ t /\ Forall (fun e => K (ev_call e) = true) l).
Proof.
  intros Hp. specialize (Hp t). revert t Hp. induction p as [a|c k IH]; intros t Hp; simpl in *; [by exists []|]. destruct Hp as [Hc Hk].
  split; [done|]. intros x. eapply guarded_conseq; [apply IH, Hk|]. simpl. intros t' a (l & -> & Hl). exists (l ++ [Ev c x]).
  rewrite <- app_assoc. split; [done|]. apply Forall_app. by repeat constructor.
Qed.

(** A program with a footprint, in any guard its calls satisfy. *)
Lemma only_guarded K P {A} (p : prog A) t : only K p -> (forall t c, K c = true -> P t c) -> guarded P t p (fun t' _ => t `suffix_of` t').
Proof. intros Hp HP. eapply guarded_mono; [apply guarded_grows, Hp|auto|]. by intros ? ? [? _]. Qed.

(** A postcondition shown without a guard, for a program with a footprint. *)
Lemma only_post K P {A} (p : prog A) t (Q : trace -> A -> Prop) :
  only K p -> (forall t c, K c = true -> P t c) -> guarded (fun _ _ => True) t p Q -> guarded P t p (fun t' a => t `suffix_of` t' /\ Q t' a).
Proof.
  intros Hp HP HQ. eapply guarded_mono; [apply guarded_combine; [apply guarded_grows, Hp|exact HQ]| |].
  - intros t' c [Hk _]. auto.
  - by intros t' a [[Hs _] Hq].
Qed.

End program.
#[global] Arguments prog {Call} answer A.
#[global] Arguments event {Call} answer.
#[global] Arguments Ev {Call answer} ev_call ev_answer.
