(* ===== verification/RemediationState.v ===== *)
(** * Remediation state of a node

    Models fault-remediation's data: the configured actions with their validation
    ([pkg/config]), equivalence groups ([pkg/common]) and the annotation that
    records, per group, the maintenance resource in force and the attempts made
    ([pkg/annotation]), with the changes each operation makes to it. *)

From stdpp Require Import gmap strings list fin_maps sorting pretty.
From Stdlib Require Import ZArith Lia Ascii.
From S2P Require Import Prelude HealthEvent KubeRetry NodeSession DrainInformers.

#[local] Open Scope Z_scope.

(** ** Configuration *)

Record MaintenanceResource := {
  mrNamespace : string; mrVersion : string; ApiGroup : string; Kind : string; CompleteConditionType : string;
  Scope : string; TemplateFileName : string; EquivalenceGroup : string; ImpactedEntityScope : string;
  mrSuperseding : list string }.

Record TomlConfig := {
  MountPath : string; RemediationActions : gmap string MaintenanceResource; MaxRemediationAttempts : Z }.

(** [os.Stat] of a template. *)
Inductive file_stat := FileFound | FileMissing | FileError (e : error).

Section config.
Context `{MapRange} (stat : string -> string -> file_stat).

Definition sortedActionNames (actions : gmap string MaintenanceResource) : list string := merge_sort String.le (range actions).*1.

Definition validateTemplate (c : TomlConfig) : option error :=
  if MountPath c ==s "" then Some "template mountPath must be non-empty" else None.

Definition isBuiltinAction (actionName : string) : bool :=
  existsb (fun a => Action_String a ==s actionName)
    [NONE; COMPONENT_RESET; CONTACT_SUPPORT; RUN_FIELDDIAG; RESTART_VM; RESTART_BM; REPLACE_VM; RUN_DCGMEUD; CUSTOM; UNKNOWN].

Definition validateResourceImpactedEntityScope (actionName : string) (resource : MaintenanceResource) : option error :=
  if ImpactedEntityScope resource ==s "" then None
  else if isBuiltinAction actionName && (actionName <>s Action_String COMPONENT_RESET)
  then Some "built-in action cannot have an ImpactedEntityScope"
  else match EntityTypeToResourceNames (ImpactedEntityScope resource) with
       | None => Some "entity type does not support partial draining"
       | Some _ => None
       end.

Definition validateTemplateFileExists (c : TomlConfig) (templateFileName : string) : option error :=
  match stat (MountPath c) templateFileName with
  | FileFound => None
  | FileMissing => Some "template file does not exist"
  | FileError e => Some (wrapf "cannot access template file" e)
  end.

Definition validateScope (scope namespace : string) : option error :=
  if (scope ==s "") || (scope ==s "Cluster") then None
  else if scope ==s "Namespaced" then (if namespace ==s "" then Some "Namespaced but no namespace is specified" else None)
  else Some "invalid scope".

Definition orElse (r : option error) (k : option error) : option error := match r with Some e => Some e | None => k end.

Definition validateRemediationAction (c : TomlConfig) (actionName : string) (resource : MaintenanceResource) : option error :=
  if EquivalenceGroup resource ==s "" then Some "must have a non-empty EquivalenceGroup"
  else orElse (validateResourceImpactedEntityScope actionName resource)
    (if TemplateFileName resource ==s "" then Some "must have a non-empty templateFileName"
     else orElse (validateTemplateFileExists c (TemplateFileName resource)) (validateScope (Scope resource) (mrNamespace resource))).

(** The loop over the actions: a scoped one ends it, a plain one is noted. *)
Fixpoint findGroup (group : string) (actions : gmap string MaintenanceResource) (names : list string) (foundGroup : bool) : option error :=
  match names with
  | [] => if foundGroup then None else Some "superseding EquivalenceGroup must be defined in config"
  | name :: names =>
      match actions !! name with
      | Some r =>
          if group <>s EquivalenceGroup r then findGroup group actions names foundGroup
          else if ImpactedEntityScope r <>s "" then Some "superseding EquivalenceGroup cannot have an ImpactedEntityScope defined"
          else findGroup group actions names true
      | None => findGroup group actions names foundGroup
      end
  end.

Definition validateOneSupersedingGroup (group : string) (resource : MaintenanceResource) (actions : gmap string MaintenanceResource) : option error :=
  if group ==s EquivalenceGroup resource then Some "SupersedingEquivalenceGroup cannot include the EquivalenceGroup itself"
  else findGroup group actions (sortedActionNames actions) false.

Definition first_error {A} (f : A -> option error) (l : list A) : option error := fold_right (fun a k => orElse (f a) k) None l.

Definition validateSupersedingGroups (c : TomlConfig) (resource : MaintenanceResource) : option error :=
  first_error (fun group => validateOneSupersedingGroup group resource (RemediationActions c)) (mrSuperseding resource).

Definition Validate (c : TomlConfig) : option error :=
  if MaxRemediationAttempts c <? 0 then Some "maxRemediationAttempts must be non-negative"
  else
    let names := sortedActionNames (RemediationActions c) in
    let each f := first_error (fun name => match RemediationActions c !! name with Some r => f name r | None => None end) names in
    orElse (validateTemplate c) (orElse (each (validateRemediationAction c)) (each (fun _ r => validateSupersedingGroups c r))).
End config.

(** ** Equivalence groups *)

Record EquivalenceGroupConfig := {
  EffectiveEquivalenceGroup : string; ImpactedEntityScopeValue : string; SupersedingEquivalenceGroups : list string }.

(** The last entity of the type counts. *)
Definition GetGroupConfigForEvent (remediationActions : gmap string MaintenanceResource) (healthEvent : HealthEvent) :
    result (option EquivalenceGroupConfig) :=
  match remediationActions !! GetEffectiveActionName healthEvent with
  | None => Ok None
  | Some actionConfig =>
      let scope := ImpactedEntityScope actionConfig in
      if scope <>s "" then
        let '(name, value) := fold_left (fun acc entity =>
            if EntityType entity ==s scope then (EquivalenceGroup actionConfig +:+ "-" +:+ EntityValue entity, EntityValue entity) else acc)
          (EntitiesImpacted healthEvent) (""%string, ""%string) in
        if name ==s "" then Err "HealthEvent is missing impacted entity"
        else Ok (Some {| EffectiveEquivalenceGroup := name; ImpactedEntityScopeValue := value; SupersedingEquivalenceGroups := mrSuperseding actionConfig |})
      else Ok (Some {| EffectiveEquivalenceGroup := EquivalenceGroup actionConfig; ImpactedEntityScopeValue := "";
                       SupersedingEquivalenceGroups := mrSuperseding actionConfig |})
  end.

(** ** The annotation *)

Definition AnnotationKey : string := "latestFaultRemediationState".

(** Times count from the zero time. *)
Definition IsZeroTime (t : Z) : bool := t =? 0.

Record EquivalenceGroupState := { MaintenanceCR : string; CreatedAt : Z; ActionName : string; AttemptCount : Z }.

Record RemediationStateAnnotation := {
  EquivalenceGroups : gmap string EquivalenceGroupState;
  ValidationAttempts : gmap string Z;
  ValidationRequests : list string }.

Definition zero_group : EquivalenceGroupState := {| MaintenanceCR := ""; CreatedAt := 0; ActionName := ""; AttemptCount := 0 |}.
Definition empty_state : RemediationStateAnnotation := {| EquivalenceGroups := ∅; ValidationAttempts := ∅; ValidationRequests := [] |}.

(** [state.EquivalenceGroups[group]]: the zero state for a missing key. *)
Definition group_state (state : RemediationStateAnnotation) (group : string) : EquivalenceGroupState :=
  default zero_group (EquivalenceGroups state !! group).

Definition with_groups (state : RemediationStateAnnotation) (m : gmap string EquivalenceGroupState) : RemediationStateAnnotation :=
  {| EquivalenceGroups := m; ValidationAttempts := ValidationAttempts state; ValidationRequests := ValidationRequests state |}.

Definition with_count (g : EquivalenceGroupState) (n : Z) : EquivalenceGroupState :=
  {| MaintenanceCR := MaintenanceCR g; CreatedAt := CreatedAt g; ActionName := ActionName g; AttemptCount := n |}.

Definition FilterEquivalenceGroupStates (groupConfig : EquivalenceGroupConfig) (state : RemediationStateAnnotation) :
    gmap string EquivalenceGroupState :=
  fold_left (fun m currentGroup => match EquivalenceGroups state !! currentGroup with Some g => <[currentGroup := g]> m | None => m end)
    (EffectiveEquivalenceGroup groupConfig :: SupersedingEquivalenceGroups groupConfig) ∅.

(** ** The node *)

(** [None] is a nil map. *)
Record rnode := { rnName : string; rnVersion : string; rnLabels : option (gmap string string); rnAnnotations : option (gmap string string) }.

Definition annotation_of (n : rnode) (key : string) : option string := m ← rnAnnotations n; m !! key.

Definition with_annotations (n : rnode) (m : option (gmap string string)) : rnode :=
  {| rnName := rnName n; rnVersion := rnVersion n; rnLabels := rnLabels n; rnAnnotations := m |}.

Definition set_annotation (n : rnode) (key value : string) : rnode := with_annotations n (Some (<[key := value]> (default ∅ (rnAnnotations n)))).
Definition drop_annotation (n : rnode) (key : string) : rnode := with_annotations n (delete key <$> rnAnnotations n).

(** [ParseValidationSession] *)
Definition ValidationSessionKey : string := "nvsentinel.nvidia.com/validation-session".
Record ValidationSessionEntry := { vsName : string; vsTests : list string; vsFailed : bool }.

Section state.
Context `{JSON RemediationStateAnnotation} `{JSON (list ValidationSessionEntry)}.

Definition ParseValidationSession (value : string) : result (list ValidationSessionEntry) :=
  if value ==s "" then Ok [] else rwrap "unmarshal annotation" (json_unmarshal value).

Definition validationSessionRequests (node : rnode) : list string :=
  match ParseValidationSession (default ""%string (annotation_of node ValidationSessionKey)) with
  | Err _ => []
  | Ok entries => List.filter (fun n => n <>s "") (map vsName entries)
  end.

(** The state the annotation holds; one that cannot be read is empty. *)
Definition state_of (node : rnode) : RemediationStateAnnotation :=
  match annotation_of node AnnotationKey with
  | None => empty_state
  | Some value => match json_unmarshal value with Ok state => state | Err _ => empty_state end
  end.

Definition resumeValidationAttempts (state : RemediationStateAnnotation) (node : rnode) : RemediationStateAnnotation :=
  if bool_decide (ValidationAttempts state = ∅) then state
  else
    let session := validationSessionRequests node in
    let held := existsb (fun name => bool_decide (name ∈ session)) (ValidationRequests state) in
    let groups := if held
      then map_fold (fun group count m =>
             let g := default zero_group (m !! group) in <[group := with_count g (Z.max (AttemptCount g) count)]> m)
           (EquivalenceGroups state) (ValidationAttempts state)
      else EquivalenceGroups state in
    {| EquivalenceGroups := groups; ValidationAttempts := ∅; ValidationRequests := [] |}.

Definition endGroupSession (m : gmap string EquivalenceGroupState) (group : string) : gmap string EquivalenceGroupState :=
  match m !! group with
  | None => m
  | Some g => if AttemptCount g =? 0 then delete group m
              else <[group := {| MaintenanceCR := ""; CreatedAt := 0; ActionName := ""; AttemptCount := AttemptCount g |}]> m
  end.

Definition endGroupSessions (state : RemediationStateAnnotation) (groups : list string) : RemediationStateAnnotation :=
  with_groups state (fold_left endGroupSession groups (EquivalenceGroups state)).
End state.

(** ** Existing resources *)

Record namedEquivalenceGroupState := { nsName : string; nsState : EquivalenceGroupState }.

(** [sort.Slice], newest first; resources of one time come in the order in which
    the map was visited. *)
Fixpoint insert_newest (x : namedEquivalenceGroupState) (l : list namedEquivalenceGroupState) : list namedEquivalenceGroupState :=
  match l with
  | [] => [x]
  | y :: l' => if CreatedAt (nsState x) <? CreatedAt (nsState y) then y :: insert_newest x l' else x :: l
  end.

Definition sortedEquivalenceGroupStates `{MapRange} (groupStates : gmap string EquivalenceGroupState) : list namedEquivalenceGroupState :=
  fold_right insert_newest [] (map (fun kv => {| nsName := kv.1; nsState := kv.2 |}) (range groupStates)).

Definition eventCoveredByRemediationSession (eventCreatedAt remediationCreatedAt : Z) : bool :=
  if IsZeroTime eventCreatedAt || IsZeroTime remediationCreatedAt then false else negb (remediationCreatedAt <? eventCreatedAt).

Inductive CRState := CRStateNotFound | CRStateInProgress | CRStateSucceeded | CRStateFailed.

Record existingCRDecision := { shouldCreate : bool; crName : string; remediated : bool; removeGroup : bool; inProgress : bool }.

Definition allowCreate : existingCRDecision := {| shouldCreate := true; crName := ""; remediated := false; removeGroup := false; inProgress := false |}.
Definition removeAndCreate : existingCRDecision := {| shouldCreate := true; crName := ""; remediated := false; removeGroup := true; inProgress := false |}.

Definition evaluateSucceededCR (groupState : namedEquivalenceGroupState) (eventCreatedAt : Z) : existingCRDecision :=
  if eventCoveredByRemediationSession eventCreatedAt (CreatedAt (nsState groupState))
  then {| shouldCreate := false; crName := MaintenanceCR (nsState groupState); remediated := true; removeGroup := false; inProgress := false |}
  else removeAndCreate.

(** The decision for the state read; the code's default case has no state left. *)
Definition decisionFor (crState : CRState) (groupState : namedEquivalenceGroupState) (eventCreatedAt : Z) : existingCRDecision :=
  match crState with
  | CRStateInProgress => {| shouldCreate := false; crName := MaintenanceCR (nsState groupState); remediated := false; removeGroup := false; inProgress := true |}
  | CRStateSucceeded => evaluateSucceededCR groupState eventCreatedAt
  | CRStateNotFound | CRStateFailed => removeAndCreate
  end.

Definition groupConfigMatchesAny (groupConfig : EquivalenceGroupConfig) (groups : gset string) : bool :=
  bool_decide (EffectiveEquivalenceGroup groupConfig ∈ groups)
  || existsb (fun groupName => bool_decide (groupName ∈ groups)) (SupersedingEquivalenceGroups groupConfig).
