(* ===== verification/Remediation.v ===== *)
(** * fault-remediation

    Models [fault-remediation/pkg]: the annotation manager ([annotation]), the
    status of maintenance resources ([crstatus]), the client that creates them and
    runs the log collector ([remediation]), and the reconciler ([reconciler]).
    Every operation is a program over the calls below; their answers are arbitrary,
    so caches may lag, writes may conflict and any call may fail.  The text of a
    maintenance resource ([render]), the log collector's manifest, the decoding of
    stored documents and the JSON of annotations are parameters. *)

From stdpp Require Import gmap strings list fin_maps sorting pretty.
From Stdlib Require Import ZArith Lia Ascii.
From S2P Require Import Prelude HealthEvent KubeRetry StateManager AnnotationMap NodeSession DrainInformers Drain Interaction RemediationState.

#[local] Open Scope Z_scope.

(** ** Documents *)

(** What the reconciler reads of a stored event's status. *)
Record EventStatus := { esNodeQuarantined : option string; esFaultRemediated : option bool }.

(** [HealthEventDoc]: the identifier, the event, its status and its creation time. *)
Record HealthEventDoc := {
  docID : string; docEvent : HealthEvent; docNodeQuarantined : string; docFaultRemediated : option bool; docCreatedAt : Z }.

Definition with_id (doc : HealthEventDoc) (id : string) : HealthEventDoc :=
  {| docID := id; docEvent := docEvent doc; docNodeQuarantined := docNodeQuarantined doc;
     docFaultRemediated := docFaultRemediated doc; docCreatedAt := docCreatedAt doc |}.

(** The conditions of an unstructured object: [None] where the status, or its
    conditions, cannot be read; the type and the status of each that is a map. *)
Definition CRObject : Type := option (list (string * string)).

Record Job := {
  jobAnnotations : option (gmap string string); jobConditions : list (string * string); jobCreation : Z; jobKey : string * string }.

(** What the template of a resource is filled with, tracing left out. *)
Record TemplateData := {
  tdNodeName : string; tdHealthEventID : string; tdRecommendedAction : RecommendedAction; tdRecommendedActionName : string;
  tdImpactedEntityScopeValue : string; tdHealthEvent : HealthEvent; tdApiGroup : string; tdVersion : string; tdKind : string;
  tdNamespace : string }.

(** ** Calls *)

Section remediation.
Context {Raw : Type}.

Inductive Call :=
| GetNode (name : string)
| UpdateNode (n : rnode)
| ReadNode (name : string)
| GetCR (resource : MaintenanceResource) (name : string)
| CreateCR (data : TemplateData) (name : string)
| UpdateLabel (node value : string)
| RemoveLabelIfMatch (node : string) (values : list string)
| ListJobs (node event : string)
| CreateJob (node event : string)
| UpdateJob (job : Job)
| FindByID (id : string)
| FindUnresolved (node : string) (batchSize : Z)
| UpdateStatus (id : string) (remediated : bool) (timestamp : option Z)
| MarkProcessed (token : string)
| Now.

(** [UpdateLabel]: whether the node was modified, and the error. [FindByID]: the
    stored documents with their status. [FindUnresolved]: the batches of
    [unresolvedRemediationReadyEventsQuery], and the error that ends the scan. *)
Definition answer (c : Call) : Type :=
  match c with
  | GetNode _ | ReadNode _ => rnode + kerror
  | UpdateNode _ | CreateCR _ _ | CreateJob _ _ | UpdateJob _ | UpdateStatus _ _ _ | MarkProcessed _ => option kerror
  | GetCR _ _ => CRObject + kerror
  | UpdateLabel _ _ | RemoveLabelIfMatch _ _ => bool * option kerror
  | ListJobs _ _ => list Job + kerror
  | FindByID _ => list (Raw * EventStatus) + kerror
  | FindUnresolved _ _ => list (list Raw) * option kerror
  | Now => Z
  end.

#[local] Abbreviation prog := (prog answer).
#[local] Abbreviation call := (@call Call answer).

(** A result to requeue after, zero for none, or an error. *)
Definition outcome : Type := Z + kerror.
Definition ok : outcome := inl 0.

Context `{JSON RemediationStateAnnotation} `{JSON (list ValidationSessionEntry)} `{JSON (list HealthEvent)} `{JSON HealthEvent}.
Context `{MapRange} `{SlotCodec}.
Context (render : string -> TemplateData -> result string).
Context (ParseHealthEventFromEvent : Raw -> result HealthEventDoc) (ExtractDocumentID : Raw -> result string).

(** A marshalling error, as an error of a call. *)
Definition of_result {A} (r : result A) : A + kerror := match r with Ok a => inl a | Err e => inr (plain_error e) end.

(** ** The annotation manager *)

Definition conflictSteps : nat := 10.

Definition GetRemediationState (nodeName : string) : prog ((RemediationStateAnnotation * rnode) + kerror) :=
  r ← call (GetNode nodeName);
  mret (match r with
        | inr e => inr (kwrap "failed to get node" e)
        | inl node => inl (state_of node, node)
        end).

(** [m.client.Update]: its error, if any. *)
Definition write {A} (n : rnode) (a : A) : prog (A + kerror) :=
  r ← call (UpdateNode n); mret (match r with Some e => inr e | None => inl a end).

Definition write_state {A} (node : rnode) (state : RemediationStateAnnotation) (a : A) : prog (A + kerror) :=
  match json_marshal state with
  | Err e => mret (inr (plain_error e))
  | Ok stateJSON => write (set_annotation node AnnotationKey stateJSON) a
  end.

Definition wrap_error {A} (context : string) (p : prog (A + kerror)) : prog (A + kerror) :=
  r ← p; mret (match r with inr e => inr (kwrap context e) | inl a => inl a end).

Definition updateRemediationStateOnce (nodeName group crName actionName : string) : prog (unit + kerror) :=
  r ← GetRemediationState nodeName;
  match r with
  | inr e => mret (inr e)
  | inl (state, node) =>
      now ← call Now;
      write_state node (with_groups state (<[group :=
        {| MaintenanceCR := crName; CreatedAt := now; ActionName := actionName; AttemptCount := AttemptCount (group_state state group) |}]>
        (EquivalenceGroups state))) tt
  end.

Definition UpdateRemediationState (nodeName group crName actionName : string) : prog (unit + kerror) :=
  wrap_error "failed to update remediation state" (RetryOnConflict conflictSteps (updateRemediationStateOnce nodeName group crName actionName)).

Definition recordRemediationAttemptOnce (nodeName group : string) : prog (Z + kerror) :=
  r ← GetRemediationState nodeName;
  match r with
  | inr e => mret (inr e)
  | inl (state, node) =>
      let state := resumeValidationAttempts state node in
      let g := group_state state group in
      let attemptCount := AttemptCount g + 1 in
      write_state node (with_groups state (<[group := with_count g attemptCount]> (EquivalenceGroups state))) attemptCount
  end.

Definition RecordRemediationAttempt (nodeName group : string) : prog (Z + kerror) :=
  wrap_error "failed to record remediation attempt" (RetryOnConflict conflictSteps (recordRemediationAttemptOnce nodeName group)).

Definition removeStateAnnotation (node : rnode) : prog (unit + kerror) :=
  match rnAnnotations node with
  | None => mret (inl tt)
  | Some _ => write (drop_annotation node AnnotationKey) tt
  end.

Definition clearRemediationStateOnce (nodeName : string) : prog (unit + kerror) :=
  r ← call (GetNode nodeName);
  match r with
  | inr e => mret (inr e)
  | inl node => removeStateAnnotation node
  end.

Definition ClearRemediationState (nodeName : string) : prog (unit + kerror) :=
  wrap_error "failed to clear remediation state" (RetryOnConflict conflictSteps (clearRemediationStateOnce nodeName)).

Definition keepAttemptsOnce (nodeName : string) : prog (unit + kerror) :=
  r ← GetRemediationState nodeName;
  match r with
  | inr e => mret (inr e)
  | inl (state, node) =>
      let session := validationSessionRequests node in
      if Nat.eqb (length session) 0 then removeStateAnnotation node
      else if bool_decide (EquivalenceGroups state = ∅) then mret (inl tt)
      else
        let attempts := AttemptCount <$> filter (fun kv => 0 < AttemptCount kv.2) (EquivalenceGroups state) in
        if bool_decide (attempts = ∅) then write (drop_annotation node AnnotationKey) tt
        else write_state node {| EquivalenceGroups := ∅; ValidationAttempts := attempts; ValidationRequests := session |} tt
  end.

Definition KeepAttemptsForValidation (nodeName : string) : prog (unit + kerror) :=
  wrap_error "failed to keep remediation attempts" (RetryOnConflict conflictSteps (keepAttemptsOnce nodeName)).

Definition prepareRemediationAttemptOnce (nodeName : string) : prog (RemediationStateAnnotation + kerror) :=
  r ← GetRemediationState nodeName;
  match r with
  | inr e => mret (inr e)
  | inl (state, node) =>
      if bool_decide (ValidationAttempts state = ∅) then mret (inl state)
      else
        let state := resumeValidationAttempts state node in
        if bool_decide (EquivalenceGroups state = ∅) then write (drop_annotation node AnnotationKey) state
        else write_state node state state
  end.

Definition PrepareRemediationAttempt (nodeName : string) : prog (RemediationStateAnnotation + kerror) :=
  wrap_error "failed to prepare remediation attempt" (RetryOnConflict conflictSteps (prepareRemediationAttemptOnce nodeName)).

Definition removeGroupsOnce (nodeName : string) (groups : list string) : prog (unit + kerror) :=
  r ← GetRemediationState nodeName;
  match r with
  | inr e => mret (inr e)
  | inl (state, node) =>
      let state := endGroupSessions state groups in
      if bool_decide (EquivalenceGroups state = ∅) && bool_decide (ValidationAttempts state = ∅) then write (drop_annotation node AnnotationKey) tt
      else write_state node state tt
  end.

Definition RemoveGroupsFromState (nodeName : string) (groups : list string) : prog (unit + kerror) :=
  wrap_error "failed to remove groups from remediation state" (RetryOnConflict conflictSteps (removeGroupsOnce nodeName groups)).

(** ** The configuration of the controller *)

Record RemediationConfig := {
  rcConfig : TomlConfig; rcDryRun : bool; EnableLogCollector : bool; InProgressRequeueDelay : Z; logCollectorTimeout : Z }.

Context (cfg : RemediationConfig).
#[local] Abbreviation actions := (RemediationActions (rcConfig cfg)).
#[local] Abbreviation maxAttempts := (MaxRemediationAttempts (rcConfig cfg)).

(** ** The status of a maintenance resource *)

(** The status of the first condition of the type; empty when there is none. *)
Definition findConditionStatus (conditions : list (string * string)) (completeConditionType : string) : string :=
  match find (fun c => c.1 ==s completeConditionType) conditions with Some c => c.2 | None => "" end.

Definition checkCondition (obj : CRObject) (resource : MaintenanceResource) : CRState :=
  match obj with
  | None => CRStateInProgress
  | Some conditions =>
      let status := findConditionStatus conditions (CompleteConditionType resource) in
      if status ==s "True" then CRStateSucceeded else if status ==s "False" then CRStateFailed else CRStateInProgress
  end.

Definition GetCRState (actionName crName : string) : prog (CRState + kerror) :=
  match actions !! actionName with
  | None => mret (inl CRStateNotFound)
  | Some resource =>
      if rcDryRun cfg then mret (inl CRStateNotFound)
      else
        r ← call (GetCR resource crName);
        mret (match r with
              | inr e => if IsNotFound e then inl CRStateNotFound else inr (kwrap "failed to get CR" e)
              | inl obj => inl (checkCondition obj resource)
              end)
  end.

(** ** Creating a maintenance resource *)

Definition templateDataFromEvent (healthEvent : HealthEvent) (healthEventID recommendedActionName impactedEntityScopeValue : string)
    (r : MaintenanceResource) : TemplateData :=
  {| tdNodeName := NodeName healthEvent; tdHealthEventID := healthEventID; tdRecommendedAction := Action healthEvent;
     tdRecommendedActionName := recommendedActionName; tdImpactedEntityScopeValue := impactedEntityScopeValue;
     tdHealthEvent := healthEvent; tdApiGroup := ApiGroup r; tdVersion := mrVersion r; tdKind := Kind r; tdNamespace := mrNamespace r |}.

(** [apierrors.IsAlreadyExists]. *)
Context (IsAlreadyExists : kerror -> bool).

(** A template is loaded for every configured action, so only the action can be
    missing. *)
Definition selectRemediationActionAndTemplate (recommendedActionName : string) : MaintenanceResource + kerror :=
  match actions !! recommendedActionName with
  | None => inr (plain_error "no remediation config for action")
  | Some resource => inl resource
  end.

Definition getNodeForOwnerReference (nodeName : string) : prog (rnode + kerror) :=
  r ← call (GetNode nodeName);
  mret (match r with inl n => inl n | inr e => inr (kwrap (if IsNotFound e then "node not found" else "failed to get node") e) end).

Definition createMaintenanceCR (actionKey : string) (data : TemplateData) : prog (string + kerror) :=
  match render actionKey data with
  | Err e => mret (inr (plain_error (wrapf "error rendering maintenance template" e)))
  | Ok name =>
      r ← call (CreateCR data name);
      mret (match r with
            | None => inl name
            | Some e => if IsAlreadyExists e then inl name else inr (kwrap "failed to create maintenance CR" e)
            end)
  end.

Definition updateRemediationAnnotationIfNeeded (nodeName effectiveEquivalenceGroup actualCRName recommendedActionName : string) :
    prog (unit + kerror) :=
  if effectiveEquivalenceGroup ==s "" then mret (inl tt)
  else wrap_error "failed to update node annotation" (UpdateRemediationState nodeName effectiveEquivalenceGroup actualCRName recommendedActionName).

Definition CreateMaintenanceResource (healthEvent : HealthEvent) (healthEventID : string) (groupConfig : EquivalenceGroupConfig) :
    prog (string + kerror) :=
  if rcDryRun cfg then mret (inl ("maintenance-" +:+ NodeName healthEvent +:+ "-" +:+ healthEventID))
  else
    let recommendedActionName := GetEffectiveActionName healthEvent in
    match selectRemediationActionAndTemplate recommendedActionName with
    | inr e => mret (inr (kwrap "error selecting remediation action and template" e))
    | inl resource =>
        n ← getNodeForOwnerReference (NodeName healthEvent);
        match n with
        | inr e => mret (inr (kwrap "failed to get node for owner reference" e))
        | inl _ =>
            c ← createMaintenanceCR recommendedActionName
                  (templateDataFromEvent healthEvent healthEventID recommendedActionName (ImpactedEntityScopeValue groupConfig) resource);
            match c with
            | inr e => mret (inr e)
            | inl actualCRName =>
                u ← updateRemediationAnnotationIfNeeded (NodeName healthEvent) (EffectiveEquivalenceGroup groupConfig) actualCRName recommendedActionName;
                mret (match u with inr e => inr e | inl _ => inl actualCRName end)
            end
        end
    end.

(** ** The log collector *)

Definition jobMetricsAlreadyCountedAnnotation : string := "dgxc.nvidia.com/logcollector-metrics-recorded".
Definition controllerRequeueDuration : Z := 10 * Second.

(** The job's manifest, from its file. *)
Context (read_manifest : result unit).

(** A job, or the delay until it can be looked at. *)
Definition launchLogCollectorJob (nodeName eventUID : string) : prog ((Job + Z) + kerror) :=
  match read_manifest with
  | Err e => mret (inr (plain_error e))
  | Ok _ =>
      r ← call (ListJobs nodeName eventUID);
      match r with
      | inr e => mret (inr e)
      | inl (_ :: _ :: _) => mret (inr (plain_error "expecting zero or one log collector job per event per node"))
      | inl [job] => mret (inl (inl job))
      | inl [] =>
          c ← call (CreateJob nodeName eventUID);
          mret (match c with Some e => inr e | None => inl (inr controllerRequeueDuration) end)
      end
  end.

Definition counted_already (job : Job) : bool :=
  match jobAnnotations job ≫= (fun m => m !! jobMetricsAlreadyCountedAnnotation) with Some v => v ==s "true" | None => false end.

(** Whether the job ended, after its metrics are marked as counted. *)
Definition recordJobEnd (job : Job) : prog (bool + kerror) :=
  if counted_already job then mret (inl true)
  else
    u ← call (UpdateJob {| jobAnnotations := Some (<[jobMetricsAlreadyCountedAnnotation := "true"%string]> (default ∅ (jobAnnotations job)));
                           jobConditions := jobConditions job; jobCreation := jobCreation job; jobKey := jobKey job |});
    mret (match u with Some e => inr e | None => inl true end).

Definition job_condition (job : Job) (type : string) : bool :=
  match find (fun c => c.1 ==s type) (jobConditions job) with Some c => c.2 ==s "True" | None => false end.

Definition checkLogCollectorComplete (job : Job) : prog (bool + kerror) :=
  if job_condition job "Complete" then recordJobEnd job else mret (inl false).
Definition checkLogCollectorFailed (job : Job) : prog (bool + kerror) :=
  if job_condition job "Failed" then recordJobEnd job else mret (inl false).
Definition checkLogCollectorTimedOut (job : Job) : prog (bool + kerror) :=
  now ← call Now;
  if time_sub now (jobCreation job) <=? logCollectorTimeout cfg then mret (inl false) else recordJobEnd job.

Definition checkLogCollectorStatus (job : Job) : prog outcome :=
  let failed e := mret (inr (kwrap "failed to check log collector status" e)) in
  a ← checkLogCollectorComplete job;
  match a with
  | inr e => failed e
  | inl true => mret ok
  | inl false =>
      b ← checkLogCollectorFailed job;
      match b with
      | inr e => failed e
      | inl true => mret ok
      | inl false =>
          c ← checkLogCollectorTimedOut job;
          match c with
          | inr e => failed e
          | inl true => mret ok
          | inl false => mret (inl controllerRequeueDuration)
          end
      end
  end.

Definition RunLogCollectorJob (nodeName eventUID : string) : prog outcome :=
  if rcDryRun cfg then mret ok
  else
    r ← launchLogCollectorJob nodeName eventUID;
    match r with
    | inr e => mret (inr e)
    | inl (inr delay) => mret (inl delay)
    | inl (inl job) => checkLogCollectorStatus job
    end.

Definition runLogCollector (healthEvent : HealthEvent) (eventUID : string) : prog outcome :=
  if bool_decide (Action healthEvent = NONE) || negb (EnableLogCollector cfg) then mret ok
  else wrap_error "failed to launch log collector on node" (RunLogCollectorJob (NodeName healthEvent) eventUID).

(** ** The reconciler: finishing an event *)

Definition defaultInProgressRequeueDelay : Z := 30 * Second.

(** An event of the change stream; cold-start events have the empty token. *)
Record EventWithToken := { ewEvent : Raw; ResumeToken : string }.

Definition safeMarkProcessed (token : string) : prog (unit + kerror) :=
  if token ==s "" then mret (inl tt)
  else r ← call (MarkProcessed token); mret (match r with Some e => inr (kwrap "failed to mark event as processed" e) | None => inl tt end).

Definition markProcessedOrError (token : string) : prog outcome :=
  r ← safeMarkProcessed token; mret (match r with inr e => inr e | inl _ => ok end).

Definition updateNodeRemediatedStatus (e : EventWithToken) (nodeRemediatedStatus : bool) : prog (unit + kerror) :=
  match ExtractDocumentID (ewEvent e) with
  | Err err => mret (inr (plain_error err))
  | Ok documentID =>
      ts ← (if nodeRemediatedStatus then (now ← call Now; mret (Some now)) else mret None);
      r ← call (UpdateStatus documentID nodeRemediatedStatus ts);
      mret (match r with Some err => inr (kwrap "error updating document" err) | None => inl tt end)
  end.

Definition markEventTerminalAndProcessed (e : EventWithToken) (remediated : bool) : prog outcome :=
  r ← updateNodeRemediatedStatus e remediated;
  match r with inr err => mret (inr err) | inl _ => markProcessedOrError (ResumeToken e) end.

(** ** The active quarantine *)

(** The key of an event without an identifier. *)
Definition dedupeKey (key : HealthEventKey) (event : HealthEvent) : string :=
  if Id event <>s "" then Id event
  else kAgent key +:+ "/" +:+ kComponentClass key +:+ "/" +:+ kCheckName key +:+ "/" +:+ kEntityType key +:+ "/" +:+ kEntityValue key
       +:+ "/" +:+ pretty (kVersion key).

Definition dedupe (entries : list (HealthEventKey * Ref)) : list HealthEvent :=
  (fold_left (fun '(seen, active) kr =>
     let k := dedupeKey kr.1 (ev kr.2) in
     if bool_decide (k ∈ seen) then (seen, active) else ({[k]} ∪ seen, active ++ [ev kr.2])) entries (∅ : gset string, [])).2.

Definition activeQuarantineEvents (n : rnode) : result (list HealthEvent) :=
  match annotation_of n QuarantineHealthEventAnnotationKey with
  | None => Ok []
  | Some value =>
      if value ==s "" then Ok []
      else match json_unmarshal (A := list HealthEvent) value with
      | Ok events => Ok (dedupe (range (Events (UnmarshalJSON (NewHealthEventsAnnotationMap 0) events))))
      | Err e =>
          match json_unmarshal (A := HealthEvent) value with
          | Ok singleEvent => Ok [singleEvent]
          | Err _ => Err (wrapf "failed to parse quarantine annotation" e)
          end
      end
  end.

Definition isActiveMatch (activeEvent incomingEvent : HealthEvent) : bool :=
  if (Id activeEvent <>s "") && (Id incomingEvent <>s "") then Id activeEvent ==s Id incomingEvent
  else
    let m := (AddOrUpdateEvent (NewHealthEventsAnnotationMap 1) {| addr := 0; ev := activeEvent |}).1 in
    bool_decide (is_Some (GetEvent m incomingEvent)).

Definition activeQuarantineContainsEvent (n : rnode) (incomingEvent : HealthEvent) : result bool :=
  rbind (activeQuarantineEvents n) (fun active => Ok (existsb (fun a => isActiveMatch a incomingEvent) active)).

Definition readLiveNode (nodeName : string) : prog (rnode + kerror) := wrap_error "failed to read node from the API" (call (ReadNode nodeName)).

Definition nodeHasActiveQuarantine (healthEvent : HealthEvent) : prog (bool + kerror) :=
  r ← readLiveNode (NodeName healthEvent);
  mret (match r with
        | inr e => if IsNotFound e then inl false else inr (kwrap "failed to get live node state" e)
        | inl node => match activeQuarantineContainsEvent node healthEvent with
                      | Ok active => inl active
                      | Err e => inr (plain_error (wrapf "failed to read active quarantine events" e))
                      end
        end).

(** ** Skipping *)

Definition remediated_already (doc : HealthEventDoc) : bool := match docFaultRemediated doc with Some b => b | None => false end.

Definition shouldSkipEvent (doc : HealthEventDoc) (groupConfig : option EquivalenceGroupConfig) : prog (bool + kerror) :=
  let healthEvent := docEvent doc in
  if bool_decide (Action healthEvent = NONE) then mret (inl true)
  else if remediated_already doc then mret (inl true)
  else match groupConfig with
  | Some _ => mret (inl false)
  | None =>
      a ← nodeHasActiveQuarantine healthEvent;
      match a with
      | inr e => mret (inr e)
      | inl false => mret (inl true)
      | inl true =>
          u ← call (UpdateLabel (NodeName healthEvent) RemediationFailedLabelValue);
          mret (match u with
                | (false, Some e) => inr (kwrap "failed to label unsupported remediation action" e)
                | _ => inl true
                end)
      end
  end.

Definition shouldMarkSkippedEventUnsupported (doc : HealthEventDoc) (groupConfig : option EquivalenceGroupConfig) : bool :=
  match groupConfig with
  | Some _ => false
  | None => negb (bool_decide (Action (docEvent doc) = NONE)) && negb (remediated_already doc)
  end.

(** [None]: go on. *)
Definition trySkipEvent (doc : HealthEventDoc) (groupConfig : option EquivalenceGroupConfig) (e : EventWithToken) : prog (option outcome) :=
  s ← shouldSkipEvent doc groupConfig;
  match s with
  | inr err => mret (Some (inr err))
  | inl false => mret None
  | inl true =>
      u ← (if shouldMarkSkippedEventUnsupported doc groupConfig then updateNodeRemediatedStatus e false else mret (inl tt));
      match u with
      | inr err => mret (Some (inr err))
      | inl _ => r ← markProcessedOrError (ResumeToken e); mret (Some r)
      end
  end.

Definition findHealthEventStatusByID (eventID : string) : prog (option EventStatus + kerror) :=
  if eventID ==s "" then mret (inl None)
  else
    r ← call (FindByID eventID);
    mret (match r with
          | inr e => inr (kwrap "failed to query active health event" e)
          | inl [] => inl None
          | inl [d] => inl (Some d.2)
          | inl _ => inr (plain_error "unexpected number of events")
          end).

Definition session_over (status : string) : bool := (status ==s UnQuarantined) || (status ==s Cancelled).

Definition eventResolvedInStore (healthEvent : HealthEvent) (eventID : string) : prog (bool + kerror) :=
  r ← findHealthEventStatusByID eventID;
  match r with
  | inr e => mret (inr e)
  | inl None => mret (inl false)
  | inl (Some status) =>
      if bool_decide (esFaultRemediated status = Some true) then mret (inl true)
      else if match esNodeQuarantined status with Some q => session_over q | None => false end then mret (inl true)
      else match esFaultRemediated status with
      | None => mret (inl false)
      | Some _ => a ← nodeHasActiveQuarantine healthEvent; mret (match a with inr e => inr e | inl active => inl (negb active) end)
      end
  end.

Definition trySkipResolvedEvent (e : EventWithToken) (healthEvent : HealthEvent) (eventID : string) : prog (option outcome) :=
  r ← eventResolvedInStore healthEvent eventID;
  match r with
  | inr err => mret (Some (inr (kwrap "error re-reading event status" err)))
  | inl false => mret None
  | inl true => r ← markProcessedOrError (ResumeToken e); mret (Some r)
  end.

(** ** Existing resources *)

Definition evaluateExistingCR (groupState : namedEquivalenceGroupState) (eventCreatedAt : Z) : prog (existingCRDecision + kerror) :=
  r ← GetCRState (ActionName (nsState groupState)) (MaintenanceCR (nsState groupState));
  mret (match r with inr e => inr e | inl crState => inl (decisionFor crState groupState eventCreatedAt) end).

(** The first decision against a new resource, or the groups to clear. *)
Fixpoint evaluateExistingCRs (groupStates : list namedEquivalenceGroupState) (eventCreatedAt : Z) (groupsToRemove : list string) :
    prog ((existingCRDecision * list string) + kerror) :=
  match groupStates with
  | [] => mret (inl (allowCreate, groupsToRemove))
  | groupState :: rest =>
      if MaintenanceCR (nsState groupState) ==s "" then evaluateExistingCRs rest eventCreatedAt groupsToRemove
      else
        d ← evaluateExistingCR groupState eventCreatedAt;
        match d with
        | inr e => mret (inr e)
        | inl decision =>
            if negb (shouldCreate decision) then mret (inl (decision, []))
            else evaluateExistingCRs rest eventCreatedAt (if removeGroup decision then groupsToRemove ++ [nsName groupState] else groupsToRemove)
        end
  end.

Definition checkExistingCRStatus (healthEvent : HealthEvent) (eventCreatedAt : Z) (groupConfig : EquivalenceGroupConfig) :
    prog (existingCRDecision + kerror) :=
  s ← GetRemediationState (NodeName healthEvent);
  match s with
  | inr e => mret (inr (kwrap "error getting remediation state" e))
  | inl (state, _) =>
      d ← evaluateExistingCRs (sortedEquivalenceGroupStates (FilterEquivalenceGroupStates groupConfig state)) eventCreatedAt [];
      match d with
      | inr e => mret (inr e)
      | inl (decision, groupsToRemove) =>
          if negb (shouldCreate decision) then mret (inl decision)
          else
            u ← (if Nat.eqb (length groupsToRemove) 0 then mret (inl tt) else RemoveGroupsFromState (NodeName healthEvent) groupsToRemove);
            mret (match u with inr e => inr (kwrap "failed to remove groups from annotation" e) | inl _ => inl allowCreate end)
      end
  end.

Definition inProgressRequeueDelay : Z := if 0 <? InProgressRequeueDelay cfg then InProgressRequeueDelay cfg else defaultInProgressRequeueDelay.

Definition handleExistingCRInProgress : prog outcome := mret (inl inProgressRequeueDelay).

Definition handleExistingCRSkip (e : EventWithToken) (existingCRRemediated : bool) : prog outcome :=
  u ← (if existingCRRemediated then updateNodeRemediatedStatus e true else mret (inl tt));
  match u with
  | inr err => mret (inr err)
  | inl _ => markProcessedOrError (ResumeToken e)
  end.

Definition handleEventCoveredByExistingCR (decision : existingCRDecision) (e : EventWithToken) : prog outcome :=
  if inProgress decision then handleExistingCRInProgress else handleExistingCRSkip e (remediated decision).

Definition tryHandleExistingCR (doc : HealthEventDoc) (groupConfig : EquivalenceGroupConfig) (e : EventWithToken) : prog (option outcome) :=
  d ← checkExistingCRStatus (docEvent doc) (docCreatedAt doc) groupConfig;
  match d with
  | inr err =>
      if IsNotFound err then r ← markEventTerminalAndProcessed e false; mret (Some r)
      else mret (Some (inr (kwrap "error checking existing CR status" err)))
  | inl decision =>
      if negb (shouldCreate decision) then r ← handleEventCoveredByExistingCR decision e; mret (Some r)
      else mret None
  end.

(** ** Remediating *)

Definition giveUpAtMaxAttempts (nodeName : string) (e : EventWithToken) : prog outcome :=
  u ← call (UpdateLabel nodeName RemediationFailedLabelValue);
  match u.2 with
  | Some err => mret (inr (kwrap "failed to label node as remediation-failed" err))
  | None => markEventTerminalAndProcessed e false
  end.

Definition tryStopIfAlreadyCapped (nodeName effectiveEquivalenceGroup : string) (e : EventWithToken) : prog (option outcome) :=
  s ← PrepareRemediationAttempt nodeName;
  match s with
  | inr _ => mret None
  | inl state =>
      if AttemptCount (group_state state effectiveEquivalenceGroup) <? maxAttempts then mret None
      else r ← giveUpAtMaxAttempts nodeName e; mret (Some r)
  end.

Definition tryStopAtMaxAttempts (nodeName effectiveEquivalenceGroup : string) (e : EventWithToken) : prog (option outcome) :=
  a ← RecordRemediationAttempt nodeName effectiveEquivalenceGroup;
  match a with
  | inr err =>
      if IsNotFound err then r ← markEventTerminalAndProcessed e false; mret (Some r)
      else mret (Some (inr (kwrap "failed to record remediation attempt" err)))
  | inl attemptCount =>
      if attemptCount <=? maxAttempts then mret None
      else r ← giveUpAtMaxAttempts nodeName e; mret (Some r)
  end.

(** [errors.Join]: the first error gives the reason. *)
Definition join_errors (a : option kerror) (b : kerror) : kerror :=
  match a with Some x => {| kreason := kreason x; kmsg := kmsg x +:+ "; " +:+ kmsg b |} | None => b end.

Definition performRemediation (doc : HealthEventDoc) (groupConfig : EquivalenceGroupConfig) : prog (string + kerror) :=
  let nodeName := NodeName (docEvent doc) in
  u ← call (UpdateLabel nodeName RemediatingLabelValue);
  match u.2 with
  | Some e => mret (inr (kwrap "error updating node label to remediating" e))
  | None =>
      c ← CreateMaintenanceResource (docEvent doc) (docID doc) groupConfig;
      let createError := match c with inr e => Some e | inl _ => None end in
      u ← call (UpdateLabel nodeName (match createError with Some _ => RemediationFailedLabelValue | None => RemediationSucceededLabelValue end));
      mret (match u.2, c with
            | Some e, _ => inr (join_errors createError e)
            | None, inr e => inr (kwrap "error creating maintenance resource" e)
            | None, inl crName => inl crName
            end)
  end.

Definition runLogCollectorAndRemediate (doc : HealthEventDoc) (e : EventWithToken) (groupConfig : EquivalenceGroupConfig) : prog outcome :=
  let nodeName := NodeName (docEvent doc) in
  let group := EffectiveEquivalenceGroup groupConfig in
  capped ← (if 0 <? maxAttempts then tryStopIfAlreadyCapped nodeName group e else mret None);
  match capped with
  | Some r => mret r
  | None =>
      result ← runLogCollector (docEvent doc) (docID doc);
      match result with
      | inr err => mret (inr (kwrap "error running log collector" err))
      | inl delay =>
          if negb (delay =? 0) then mret (inl delay)
          else
            stop ← (if 0 <? maxAttempts then tryStopAtMaxAttempts nodeName group e else mret None);
            match stop with
            | Some r => mret r
            | None =>
                p ← performRemediation doc groupConfig;
                let performRemediationErr := match p with inr err => Some err | inl _ => None end in
                u ← updateNodeRemediatedStatus e (bool_decide (performRemediationErr = None));
                mret (match u, performRemediationErr with
                      | inr err, _ => inr (join_errors performRemediationErr err)
                      | inl _, Some err => inr err
                      | inl _, None => ok
                      end)
            end
      end
  end.

(** ** The end of a session *)

Definition covered_groups (state : RemediationStateAnnotation) : gset string :=
  dom (filter (fun kv => MaintenanceCR kv.2 <> ""%string) (EquivalenceGroups state)).

(** One event of a batch: skipped, or closed. *)
Definition closeStaleEvent (coveredGroups : gset string) (remediated : bool) (now : Z) (raw : Raw) : prog (unit + kerror) :=
  match ParseHealthEventFromEvent raw with
  | Err _ => mret (inl tt)
  | Ok parsed =>
      match GetGroupConfigForEvent actions (docEvent parsed) with
      | Ok (Some groupConfig) =>
          if negb (groupConfigMatchesAny groupConfig coveredGroups) then mret (inl tt)
          else match ExtractDocumentID raw with
          | Err _ => mret (inl tt)
          | Ok documentID =>
              r ← call (UpdateStatus documentID remediated (if remediated then Some now else None));
              mret (match r with Some e => inr (kwrap "failed to close stale equivalent event" e) | None => inl tt end)
          end
      | _ => mret (inl tt)
      end
  end.

Fixpoint each {A} (f : A -> prog (unit + kerror)) (l : list A) : prog (unit + kerror) :=
  match l with
  | [] => mret (inl tt)
  | a :: l => r ← f a; match r with inr e => mret (inr e) | inl _ => each f l end
  end.

Definition closeStaleEquivalentEventBatch (coveredGroups : gset string) (remediated : bool) (now : Z) (batch : list Raw) : prog (unit + kerror) :=
  each (closeStaleEvent coveredGroups remediated now) batch.

Definition coldStartBatchSize : Z := 1000.

Definition closeStaleEquivalentEvents (nodeName status : string) (state : RemediationStateAnnotation) : prog (unit + kerror) :=
  if bool_decide (EquivalenceGroups state = ∅) then mret (inl tt)
  else
    now ← call Now;
    found ← call (FindUnresolved nodeName coldStartBatchSize);
    r ← each (closeStaleEquivalentEventBatch (covered_groups state) (status ==s UnQuarantined) now) found.1;
    mret (match r, found.2 with
          | inr e, _ => inr e
          | inl _, Some e => inr e
          | inl _, None => inl tt
          end).

Definition clearFaultRemediationNodeLabel (nodeName : string) : prog (unit + kerror) :=
  r ← call (RemoveLabelIfMatch nodeName [RemediatingLabelValue; RemediationSucceededLabelValue; RemediationFailedLabelValue]);
  mret (match r.2 with Some e => inr (kwrap "failed to clear fault-remediation label" e) | None => inl tt end).

(** Go on with [k] unless there was an error, which is wrapped if [context] says so. *)
Definition then_ {A} (context : option string) (r : A + kerror) (k : A -> prog outcome) : prog outcome :=
  match r with
  | inr e => mret (inr (match context with Some c => kwrap c e | None => e end))
  | inl a => k a
  end.

Definition handleCancellationEvent (nodeName status : string) (e : EventWithToken) : prog outcome :=
  s ← GetRemediationState nodeName;
  match s with
  | inr err =>
      if IsNotFound err then markEventTerminalAndProcessed e true
      else mret (inr (kwrap "failed to get remediation state for node" err))
  | inl (remediationState, _) =>
      c ← closeStaleEquivalentEvents nodeName status remediationState;
      then_ None c (fun _ =>
        k ← (if (status ==s UnQuarantined) && (0 <? maxAttempts) then KeepAttemptsForValidation nodeName else ClearRemediationState nodeName);
        then_ (Some "failed to clear remediation state for node"%string) k (fun _ =>
          l ← clearFaultRemediationNodeLabel nodeName;
          then_ None l (fun _ =>
            u ← updateNodeRemediatedStatus e true;
            then_ (Some "failed to write completion marker for cancellation event"%string) u (fun _ => markProcessedOrError (ResumeToken e)))))
  end.

(** ** Partial recovery *)

Definition currentNodeStateLabel (n : rnode) : string := default ""%string (m ← rnLabels n; m !! NVSentinelStateLabelKey).
Definition isTerminalRemediationLabel (label : string) : bool := (label ==s RemediationFailedLabelValue) || (label ==s RemediationSucceededLabelValue).

Definition unsupportedRemediationAction (healthEvent : HealthEvent) (groupConfig : option EquivalenceGroupConfig) : bool :=
  negb (bool_decide (Action healthEvent = NONE)) && bool_decide (groupConfig = None).

(** [None]: unsupported. *)
Definition partialRecoveryGroupConfig (healthEvent : HealthEvent) : option (option EquivalenceGroupConfig) :=
  match GetGroupConfigForEvent actions healthEvent with
  | Err _ => None
  | Ok groupConfig => if unsupportedRemediationAction healthEvent groupConfig then None else Some groupConfig
  end.

(** A resource that covers the event wins over one that cannot be read. *)
Fixpoint anyActiveCR (states : list (string * EquivalenceGroupState)) (firstErr : option kerror) : prog (bool + kerror) :=
  match states with
  | [] => mret (match firstErr with Some e => inr e | None => inl false end)
  | (_, g) :: rest =>
      s ← GetCRState (ActionName g) (MaintenanceCR g);
      match s with
      | inr e => anyActiveCR rest (Some (default e firstErr))
      | inl CRStateInProgress | inl CRStateSucceeded => mret (inl true)
      | inl _ => anyActiveCR rest firstErr
      end
  end.

Definition coveredByActiveRemediationCR (groupConfig : option EquivalenceGroupConfig) (state : RemediationStateAnnotation) : prog (bool + kerror) :=
  match groupConfig with
  | None => mret (inl false)
  | Some groupConfig => anyActiveCR (range (FilterEquivalenceGroupStates groupConfig state)) None
  end.

(** What an active event says about the label. *)
Inductive verdict := ForcesFailed | Succeeded | Undecided.

Definition activeEventForcesRemediationFailed (activeEvent : HealthEvent) (state : RemediationStateAnnotation) : prog (verdict + kerror) :=
  s ← findHealthEventStatusByID (Id activeEvent);
  match s with
  | inr e => mret (inr (kwrap "failed to evaluate active event" e))
  | inl status =>
      match partialRecoveryGroupConfig activeEvent with
      | None => mret (inl ForcesFailed)
      | Some groupConfig =>
          match status ≫= esFaultRemediated with
          | Some false => mret (inl ForcesFailed)
          | Some true => mret (inl Succeeded)
          | None =>
              c ← coveredByActiveRemediationCR groupConfig state;
              mret (match c with
                    | inr e => inr (kwrap "failed to evaluate active event" e)
                    | inl covered => inl (if covered : bool then Succeeded else Undecided)
                    end)
          end
      end
  end.

(** The label to set, if any. *)
Fixpoint recomputeLabel (activeEvents : list HealthEvent) (state : RemediationStateAnnotation) (sawRemediationSuccess : bool) :
    prog (option string + kerror) :=
  match activeEvents with
  | [] => mret (inl (if sawRemediationSuccess then Some RemediationSucceededLabelValue else None))
  | activeEvent :: rest =>
      v ← activeEventForcesRemediationFailed activeEvent state;
      match v with
      | inr e => mret (inr e)
      | inl ForcesFailed => mret (inl (Some RemediationFailedLabelValue))
      | inl Succeeded => recomputeLabel rest state true
      | inl Undecided => recomputeLabel rest state sawRemediationSuccess
      end
  end.

Definition recomputePartialRecoveryNodeLabel (n : rnode) (state : RemediationStateAnnotation) : prog (option string + kerror) :=
  match activeQuarantineEvents n with
  | Err e => mret (inr (plain_error e))
  | Ok activeEvents => recomputeLabel activeEvents state false
  end.

Definition reconcilePartialRecoveryLabel (nodeName : string) (n : rnode) (state : RemediationStateAnnotation) : prog (unit + kerror) :=
  t ← recomputePartialRecoveryNodeLabel n state;
  match t with
  | inr e => mret (inr (kwrap "failed to recompute partial recovery label" e))
  | inl None => mret (inl tt)
  | inl (Some targetLabel) =>
      u ← call (UpdateLabel nodeName targetLabel);
      mret (match u with
            | (false, Some e) => inr (kwrap "failed to update partial recovery label" e)
            | _ => inl tt
            end)
  end.

Definition handlePartialRecoveryEvent (nodeName : string) (e : EventWithToken) : prog outcome :=
  s ← GetRemediationState nodeName;
  match s with
  | inr err =>
      if IsNotFound err then markEventTerminalAndProcessed e true
      else mret (inr (kwrap "failed to get remediation state for partial recovery" err))
  | inl (state, node) =>
      l ← (if isTerminalRemediationLabel (currentNodeStateLabel node) then reconcilePartialRecoveryLabel nodeName node state else mret (inl tt));
      then_ None l (fun _ =>
        u ← updateNodeRemediatedStatus e true;
        then_ (Some "failed to write completion marker for partial recovery event"%string) u (fun _ => markProcessedOrError (ResumeToken e)))
  end.

Definition isPartialRecoveryRemediationEvent (doc : HealthEventDoc) : bool :=
  IsHealthy (docEvent doc) && ((docNodeQuarantined doc ==s Quarantined) || (docNodeQuarantined doc ==s AlreadyQuarantined)).

(** ** Events *)

(** An event without a group is always skipped. *)
Definition handleRemediationEvent (doc : HealthEventDoc) (e : EventWithToken) : prog outcome :=
  let healthEvent := docEvent doc in
  if isPartialRecoveryRemediationEvent doc then handlePartialRecoveryEvent (NodeName healthEvent) e
  else
    let groupConfig := match GetGroupConfigForEvent actions healthEvent with Ok g => g | Err _ => None end in
    skipped ← trySkipEvent doc groupConfig e;
    match skipped, groupConfig with
    | Some r, _ => mret r
    | None, None => mret ok
    | None, Some groupConfig =>
        resolved ← trySkipResolvedEvent e healthEvent (docID doc);
        match resolved with
        | Some r => mret r
        | None =>
            existing ← tryHandleExistingCR doc groupConfig e;
            match existing with
            | Some r => mret r
            | None =>
                result ← runLogCollectorAndRemediate doc e groupConfig;
                match result with
                | inr err => mret (inr err)
                | inl delay => if negb (delay =? 0) then mret (inl delay) else markProcessedOrError (ResumeToken e)
                end
            end
        end
    end.

(** A document that cannot be read is passed over. *)
Definition parseHealthEvent (e : EventWithToken) : prog (option HealthEventDoc) :=
  match rbind (ParseHealthEventFromEvent (ewEvent e)) (fun doc => rbind (ExtractDocumentID (ewEvent e)) (fun id => Ok (with_id doc id))) with
  | Ok doc => mret (Some doc)
  | Err _ => _ ← safeMarkProcessed (ResumeToken e); mret None
  end.

Definition reconcileEvent (e : EventWithToken) : prog outcome :=
  p ← parseHealthEvent e;
  match p with
  | None => mret ok
  | Some doc =>
      if session_over (docNodeQuarantined doc) then handleCancellationEvent (NodeName (docEvent doc)) (docNodeQuarantined doc) e
      else handleRemediationEvent doc e
  end.

(** [hasRaw]: a stored record may lack its document. *)
Context (has_document : Raw -> bool).

Definition Reconcile (documentID resumeToken : string) : prog outcome :=
  if documentID ==s "" then mret ok
  else
    r ← call (FindByID documentID);
    match r with
    | inr e => mret (inr (kwrap "fetch health event" e))
    | inl [] => markProcessedOrError resumeToken
    | inl ((raw, _) :: _) =>
        if has_document raw then reconcileEvent {| ewEvent := raw; ResumeToken := resumeToken |} else markProcessedOrError resumeToken
    end.

End remediation.
