(* ===== verification/RemediationSpec.v ===== *)
(** * What fault-remediation guarantees

    Theorems about [Remediation], for every answer the cluster and the store may
    give. *)

From stdpp Require Import gmap strings list fin_maps sorting pretty.
From Stdlib Require Import ZArith Lia Ascii.
From S2P Require Import Prelude HealthEvent KubeRetry StateManager AnnotationMap NodeSession DrainInformers Drain Interaction RemediationState Remediation.

#[local] Open Scope Z_scope.

(** ** Footprints *)

(** Through the structure of a program. *)
Ltac headc t := lazymatch t with ?f _ => headc f | _ => t end.

Ltac foot_step := lazymatch goal with
  | |- only _ (mret _) => apply only_ret
  | |- only ?K (Interaction.call ?c) => apply (only_call K c); solve [reflexivity|auto]
  | |- only _ (RetryOnConflict _ _) => apply only_retry
  | |- only _ (_ ≫= _) => apply only_bind; [|intros ?]
  | |- only _ (let _ := _ in _) => cbv zeta
  | |- only _ _ => first [assumption | case_match]
  end.
Ltac foot := repeat foot_step.

Section footprints.
Context {Raw : Type}.
Context `{JR : JSON RemediationStateAnnotation} `{JV : JSON (list ValidationSessionEntry)} `{MR : MapRange}.
Context (cfg : RemediationConfig).
#[local] Abbreviation prog := (prog (answer (Raw := Raw))).

Lemma only_each (K : Call -> bool) {A} (f : A -> prog (unit + kerror)) l : (forall a, only K (f a)) -> only K (each f l).
Proof. intros Hf. induction l as [|a l IH]; simpl; [foot|]. apply only_bind; [done|]. intros [u|e]; foot. Qed.

Lemma only_GetCRState (K : Call -> bool) a n : (forall r m, K (GetCR r m) = true) -> only K (GetCRState (Raw := Raw) cfg a n).
Proof. intros HK. unfold GetCRState. foot. Qed.

Lemma only_evaluate (K : Call -> bool) l at_ : (forall r m, K (GetCR r m) = true) -> forall rem, only K (evaluateExistingCRs (Raw := Raw) cfg l at_ rem).
Proof.
  intros HK. induction l as [|x l IH]; intros rem; simpl; [foot|]. destruct (_ ==s _); [done|]. apply only_bind; [|intros ?; foot; apply IH].
  unfold evaluateExistingCR. apply only_bind; [by apply only_GetCRState|]. intros. foot.
Qed.

Lemma only_anyActive (K : Call -> bool) l : (forall r m, K (GetCR r m) = true) -> forall e, only K (anyActiveCR (Raw := Raw) cfg l e).
Proof.
  intros HK. induction l as [|[k g] l IH]; intros e; simpl; [foot|]. apply only_bind; [by apply only_GetCRState|]. intros ?. foot; apply IH.
Qed.

Lemma only_recompute (K : Call -> bool) l state : (forall r m, K (GetCR r m) = true) -> (forall id, K (FindByID id) = true) ->
  forall saw, only K (recomputeLabel (Raw := Raw) cfg l state saw).
Proof.
  intros HK HF. induction l as [|e l IH]; intros saw; simpl; [foot|]. apply only_bind; [|intros ?; foot; apply IH].
  unfold activeEventForcesRemediationFailed, findHealthEventStatusByID, coveredByActiveRemediationCR. foot; by apply only_anyActive.
Qed.

(** The calls that are not the creation of a resource. *)
Definition no_create (c : Call) : bool := match c with CreateCR _ _ => false | _ => true end.

(** The operations on the annotation. *)
Definition state_calls (K : Call -> bool) : Prop := (forall n, K (GetNode n) = true) /\ (forall n, K (UpdateNode n) = true) /\ K Now = true.

Ltac state_foot := intros (? & ? & ?);
  unfold UpdateRemediationState, RecordRemediationAttempt, ClearRemediationState, KeepAttemptsForValidation, PrepareRemediationAttempt, RemoveGroupsFromState,
    updateRemediationStateOnce, recordRemediationAttemptOnce, clearRemediationStateOnce, keepAttemptsOnce, prepareRemediationAttemptOnce, removeGroupsOnce,
    GetRemediationState, removeStateAnnotation, write_state, write, wrap_error; foot.

Lemma only_update K n g c a : state_calls K -> only K (UpdateRemediationState (Raw := Raw) n g c a).
Proof. state_foot. Qed.
Lemma only_record K n g : state_calls K -> only K (RecordRemediationAttempt (Raw := Raw) n g).
Proof. state_foot. Qed.
Lemma only_clear K n : state_calls K -> only K (ClearRemediationState (Raw := Raw) n).
Proof. state_foot. Qed.
Lemma only_keep K n : state_calls K -> only K (KeepAttemptsForValidation (Raw := Raw) n).
Proof. state_foot. Qed.
Lemma only_prepare K n : state_calls K -> only K (PrepareRemediationAttempt (Raw := Raw) n).
Proof. state_foot. Qed.
Lemma only_remove K n gs : state_calls K -> only K (RemoveGroupsFromState (Raw := Raw) n gs).
Proof. state_foot. Qed.
End footprints.

Ltac foot_op := lazymatch goal with |- only _ ?p => let h := headc p in
  lazymatch h with
  | @UpdateRemediationState => apply only_update; by split_and!
  | @RecordRemediationAttempt => apply only_record; by split_and!
  | @ClearRemediationState => apply only_clear; by split_and!
  | @KeepAttemptsForValidation => apply only_keep; by split_and!
  | @PrepareRemediationAttempt => apply only_prepare; by split_and!
  | @RemoveGroupsFromState => apply only_remove; by split_and!
  | @evaluateExistingCRs => by apply only_evaluate
  | @anyActiveCR => by apply only_anyActive
  | @recomputeLabel => by apply only_recompute
  | @each => apply only_each; intros ?
  end end.
Ltac footprint := repeat first [foot_op | foot_step].

Section spec.
Context {Raw : Type}.
Context `{JR : JSON RemediationStateAnnotation} `{JV : JSON (list ValidationSessionEntry)} `{JL : JSON (list HealthEvent)} `{JE : JSON HealthEvent}.
Context `{MR : MapRange, MRL : !MapRangeLaws} `{SC : SlotCodec}.
Context (render : string -> TemplateData -> result string).
Context (ParseHealthEventFromEvent : Raw -> result HealthEventDoc) (ExtractDocumentID : Raw -> result string).
Context (cfg : RemediationConfig) (IsAlreadyExists : kerror -> bool) (read_manifest : result unit).

#[local] Abbreviation prog := (prog (answer (Raw := Raw))).
#[local] Abbreviation trace := (list (event (answer (Raw := Raw)))).
#[local] Abbreviation actions := (RemediationActions (rcConfig cfg)).
#[local] Abbreviation maxAttempts := (MaxRemediationAttempts (rcConfig cfg)).

#[local] Abbreviation handleRemediationEvent := (handleRemediationEvent render ExtractDocumentID cfg IsAlreadyExists read_manifest).
#[local] Abbreviation reconcileEvent := (reconcileEvent render ParseHealthEventFromEvent ExtractDocumentID cfg IsAlreadyExists read_manifest).

Lemma finish_only (K : Call -> bool) (e : EventWithToken (Raw := Raw)) b : (forall i r x, K (UpdateStatus i r x) = true) -> (forall x, K (MarkProcessed x) = true) -> K Now = true ->
  only K (updateNodeRemediatedStatus ExtractDocumentID e b) /\ only K (markProcessedOrError (Raw := Raw) (ResumeToken e)) /\
  only K (markEventTerminalAndProcessed ExtractDocumentID e b).
Proof.
  intros H1 H2 H3. unfold markEventTerminalAndProcessed, markProcessedOrError, safeMarkProcessed, updateNodeRemediatedStatus.
  split_and!; footprint.
Qed.

Lemma skip_only doc g e : only no_create (trySkipEvent ExtractDocumentID doc g e).
Proof.
  unfold trySkipEvent, shouldSkipEvent, nodeHasActiveQuarantine, readLiveNode, wrap_error, updateNodeRemediatedStatus, markProcessedOrError, safeMarkProcessed.
  footprint.
Qed.

Lemma resolved_only e he id : only no_create (trySkipResolvedEvent (Raw := Raw) e he id).
Proof.
  unfold trySkipResolvedEvent, eventResolvedInStore, findHealthEventStatusByID, nodeHasActiveQuarantine, readLiveNode, wrap_error, markProcessedOrError, safeMarkProcessed.
  footprint.
Qed.

Lemma existing_only doc g e : only no_create (tryHandleExistingCR ExtractDocumentID cfg doc g e).
Proof.
  unfold tryHandleExistingCR, checkExistingCRStatus, GetRemediationState, handleEventCoveredByExistingCR, handleExistingCRInProgress, handleExistingCRSkip,
    markEventTerminalAndProcessed, updateNodeRemediatedStatus, markProcessedOrError, safeMarkProcessed.
  footprint.
Qed.

Lemma capped_only n g e : only no_create (tryStopIfAlreadyCapped ExtractDocumentID cfg n g e) /\ only no_create (tryStopAtMaxAttempts ExtractDocumentID cfg n g e).
Proof.
  unfold tryStopIfAlreadyCapped, tryStopAtMaxAttempts, giveUpAtMaxAttempts, markEventTerminalAndProcessed, updateNodeRemediatedStatus, markProcessedOrError, safeMarkProcessed.
  split; footprint.
Qed.

Lemma logs_only he id : only no_create (runLogCollector (Raw := Raw) cfg read_manifest he id).
Proof.
  unfold runLogCollector, RunLogCollectorJob, launchLogCollectorJob, checkLogCollectorStatus, checkLogCollectorComplete, checkLogCollectorFailed,
    checkLogCollectorTimedOut, recordJobEnd, wrap_error.
  footprint.
Qed.

Lemma partial_only n e : only no_create (handlePartialRecoveryEvent ExtractDocumentID cfg n e).
Proof.
  unfold handlePartialRecoveryEvent, GetRemediationState, reconcilePartialRecoveryLabel, recomputePartialRecoveryNodeLabel, then_,
    markEventTerminalAndProcessed, updateNodeRemediatedStatus, markProcessedOrError, safeMarkProcessed.
  footprint.
Qed.

Lemma cancel_only n st e : only no_create (handleCancellationEvent ParseHealthEventFromEvent ExtractDocumentID cfg n st e).
Proof.
  unfold handleCancellationEvent, GetRemediationState, closeStaleEquivalentEvents, closeStaleEquivalentEventBatch, closeStaleEvent, clearFaultRemediationNodeLabel, then_,
    markEventTerminalAndProcessed, updateNodeRemediatedStatus, markProcessedOrError, safeMarkProcessed.
  footprint.
Qed.

(** ** At most one remediation at a time *)

(** An answer that shows a recorded resource out of the way of an event: gone,
    failed, or successful before the event. *)
Definition out_of_the_way (resource : MaintenanceResource) (g : EquivalenceGroupState) (createdAt : Z) (x : CRObject + kerror) : Prop :=
  match x with
  | inr e => IsNotFound e = true
  | inl obj => checkCondition obj resource = CRStateFailed \/
      checkCondition obj resource = CRStateSucceeded /\ eventCoveredByRemediationSession createdAt (CreatedAt g) = false
  end.

(** The resource was looked at, and is out of the way; or its action is no longer
    configured. *)
Definition released (t : trace) (createdAt : Z) (g : EquivalenceGroupState) : Prop :=
  actions !! ActionName g = None \/
  exists resource x, actions !! ActionName g = Some resource /\
    Ev (answer := answer) (GetCR resource (MaintenanceCR g)) x ∈ t /\ out_of_the_way resource g createdAt x.

(** Every resource recorded on the node for the event's group, or for one that
    supersedes it, was seen out of the way. *)
Definition way_is_clear (doc : HealthEventDoc) (groupConfig : EquivalenceGroupConfig) (t : trace) : Prop :=
  exists node, Ev (answer := answer) (GetNode (NodeName (docEvent doc))) (inl node) ∈ t /\
    forall name g, name ∈ EffectiveEquivalenceGroup groupConfig :: SupersedingEquivalenceGroups groupConfig ->
      EquivalenceGroups (state_of node) !! name = Some g -> MaintenanceCR g <> ""%string -> released t (docCreatedAt doc) g.

Lemma released_mono t t' createdAt g : t `suffix_of` t' -> released t createdAt g -> released t' createdAt g.
Proof.
  intros [l ->] [?|(r & x & ? & Hin & ?)]; [by left|right]. exists r, x. split; [done|]. split; [|done]. apply elem_of_app. by right.
Qed.

Lemma way_mono doc gc t t' : t `suffix_of` t' -> way_is_clear doc gc t -> way_is_clear doc gc t'.
Proof.
  intros Hs (node & Hin & Hall). exists node. split; [destruct Hs as [l ->]; apply elem_of_app; by right|].
  intros name g H1 H2 H3. eapply released_mono; [done|]. by eapply Hall.
Qed.

(** Without a guard. *)
#[local] Abbreviation ensures := (guarded (fun _ _ => True)).

Lemma GetCRState_sees a n t :
  rcDryRun cfg = false ->
  ensures t (GetCRState (Raw := Raw) cfg a n) (fun t' r => forall st, r = inl st ->
    actions !! a = None /\ st = CRStateNotFound \/
    exists resource x, actions !! a = Some resource /\ Ev (answer := answer) (GetCR resource n) x ∈ t' /\
      match x with inr e => IsNotFound e = true /\ st = CRStateNotFound | inl obj => st = checkCondition obj resource end).
Proof.
  intros Hdry. unfold GetCRState. destruct (actions !! a) as [resource|] eqn:Ha; [|intros st [= <-]; by left].
  rewrite Hdry. split; [done|]. intros x st Hst. right. exists resource, x. split; [done|]. split; [left|].
  destruct x as [obj|e]; [by injection Hst|]. destruct (IsNotFound e); by simplify_eq.
Qed.

Lemma checkCondition_found obj resource : checkCondition obj resource <> CRStateNotFound.
Proof. unfold checkCondition. destruct obj; [|done]. destruct (_ ==s _); [done|]. by destruct (_ ==s _). Qed.

Lemma evaluate_one_sees x createdAt t :
  rcDryRun cfg = false ->
  ensures t (evaluateExistingCR (Raw := Raw) cfg x createdAt) (fun t' r => forall d, r = inl d -> shouldCreate d = true ->
    released t' createdAt (nsState x)).
Proof.
  intros Hdry. unfold evaluateExistingCR. apply guarded_bind. eapply guarded_conseq; [by apply GetCRState_sees|].
  simpl. intros t' [st|e] Hst d; [|done]. intros [= <-] Hd. destruct (Hst st eq_refl) as [[Ha _]|(resource & a & Ha & Hin & Hx)]; [by left|].
  right. exists resource, a. split; [done|]. split; [done|]. destruct a as [obj|e]; [|by destruct Hx]. simpl. subst st.
  pose proof (checkCondition_found obj resource). destruct (checkCondition obj resource); [done|done| |by left].
  right. split; [done|]. simpl in Hd. unfold evaluateSucceededCR in Hd. by destruct (eventCoveredByRemediationSession _ _).
Qed.

Lemma evaluate_sees l createdAt : rcDryRun cfg = false -> forall rem t,
  ensures t (evaluateExistingCRs (Raw := Raw) cfg l createdAt rem) (fun t' r => forall d gs, r = inl (d, gs) -> shouldCreate d = true ->
    forall x, x ∈ l -> MaintenanceCR (nsState x) <> ""%string -> released t' createdAt (nsState x)).
Proof.
  intros Hdry. induction l as [|y l IH]; intros rem t; simpl; [by intros d gs _ _ x ?%not_elem_of_nil|].
  destruct (MaintenanceCR (nsState y) ==s "") eqn:Hy.
  { eapply guarded_conseq; [apply IH|]. simpl. intros t' r Hr d gs Hd Hc x [->|Hx]%elem_of_cons Hne; [|by eapply Hr]. apply go_eqb_true in Hy. done. }
  apply guarded_bind. eapply guarded_conseq; [by apply evaluate_one_sees|]. simpl. intros t1 [d1|e] H1; [|done].
  destruct (shouldCreate d1) eqn:Hd1; simpl; [|intros d gs [= <- <-] Hd; congruence].
  eapply guarded_conseq; [apply guarded_grows, IH|]. simpl. intros t' r [Hs Hr] d gs Hd Hc x [->|Hx]%elem_of_cons Hne; [|by eapply Hr].
  eapply released_mono; [exact Hs|]. by eapply H1.
Qed.

Lemma insert_newest_perm x l : insert_newest x l ≡ₚ x :: l.
Proof. induction l as [|y l IH]; [done|]. simpl. destruct (_ <? _); [|done]. rewrite IH. apply Permutation_swap. Qed.

Lemma sorted_states m name g : m !! name = Some g -> {| nsName := name; nsState := g |} ∈ sortedEquivalenceGroupStates m.
Proof.
  intros Hm. unfold sortedEquivalenceGroupStates. assert (Hp : forall l, fold_right insert_newest [] l ≡ₚ l).
  { induction l as [|x l IH]; [done|]. simpl. by rewrite insert_newest_perm, IH. }
  rewrite Hp. apply list_elem_of_In, in_map_iff. exists (name, g). split; [done|]. apply list_elem_of_In. by apply elem_of_range.
Qed.

Lemma filter_states_lookup gc state name g : name ∈ EffectiveEquivalenceGroup gc :: SupersedingEquivalenceGroups gc ->
  EquivalenceGroups state !! name = Some g -> FilterEquivalenceGroupStates gc state !! name = Some g.
Proof.
  unfold FilterEquivalenceGroupStates. intros Hin Hg.
  assert (Hgen : forall l (m : gmap string EquivalenceGroupState), (name ∈ l \/ m !! name = Some g) ->
    fold_left (fun m c => match EquivalenceGroups state !! c with Some g => <[c := g]> m | None => m end) l m !! name = Some g).
  { induction l as [|c l IH]; intros m Hm; simpl; [by destruct Hm as [?%not_elem_of_nil|]|]. apply IH.
    destruct (decide (name = c)) as [<-|Hne]; [right; by rewrite Hg, lookup_insert_eq|].
    destruct Hm as [[->|Hm]%elem_of_cons|Hm]; [done|by left|right]. destruct (EquivalenceGroups state !! c); [by rewrite lookup_insert_ne|done]. }
  apply Hgen. by left.
Qed.

Lemma check_sees doc gc t : rcDryRun cfg = false ->
  ensures t (checkExistingCRStatus (Raw := Raw) cfg (docEvent doc) (docCreatedAt doc) gc) (fun t' r => forall d, r = inl d -> shouldCreate d = true ->
    way_is_clear doc gc t').
Proof.
  intros Hdry. unfold checkExistingCRStatus, GetRemediationState. split; [done|]. intros [node|e]; [|done]. simpl. apply guarded_bind.
  eapply guarded_conseq; [apply guarded_grows; by apply evaluate_sees|]. simpl. intros t1 [[d gs]|e] [Hs H1]; [|done].
  destruct (shouldCreate d) eqn:Hd; simpl; [|intros d' [= <-]; congruence].
  assert (Hclear : way_is_clear doc gc t1).
  { exists node. split; [destruct Hs as [l ->]; apply elem_of_app; right; left|]. intros name g Hn Hg Hne.
    apply (H1 d gs eq_refl Hd {| nsName := name; nsState := g |}); [|done]. by apply sorted_states, filter_states_lookup. }
  apply guarded_bind. eapply guarded_conseq; [apply (only_guarded (fun _ => true)); [|done]|].
  { destruct (Nat.eqb _ 0); [foot|]. by apply only_remove. }
  simpl. intros t2 u Hs2 d' _ _. by eapply way_mono.
Qed.

(** What allows a resource to be created for an event. *)
Definition may_create (doc : HealthEventDoc) (t : trace) (c : Call) : Prop :=
  match c with
  | CreateCR data _ => rcDryRun cfg = false /\ exists gc, GetGroupConfigForEvent actions (docEvent doc) = Ok (Some gc) /\ tdHealthEvent data = docEvent doc /\
      tdHealthEventID data = docID doc /\ tdImpactedEntityScopeValue data = ImpactedEntityScopeValue gc /\ way_is_clear doc gc t
  | _ => True
  end.

Lemma no_create_may doc t c : no_create c = true -> may_create doc t c.
Proof. by destruct c. Qed.

Lemma create_allowed doc gc t :
  GetGroupConfigForEvent actions (docEvent doc) = Ok (Some gc) -> (rcDryRun cfg = false -> way_is_clear doc gc t) ->
  guarded (may_create doc) t (performRemediation render cfg IsAlreadyExists doc gc) (fun _ _ => True).
Proof.
  intros Hgc Hclear. unfold performRemediation. split; [done|]. intros [b [u|]]; [done|]. simpl. apply guarded_bind.
  assert (Hend : forall t' r, guarded (may_create doc) t' (u ← call (answer := answer (Raw := Raw)) (UpdateLabel (NodeName (docEvent doc))
      (match (match r with inr e => Some e | inl _ => None end) with Some _ => RemediationFailedLabelValue | None => RemediationSucceededLabelValue end));
      mret (match u.2, r with
            | Some e, _ => inr (join_errors (match r with inr e => Some e | inl _ => None end) e)
            | None, inr e => inr (kwrap "error creating maintenance resource" e)
            | None, inl crName => inl crName
            end : string + kerror)) (fun _ _ => True)) by done.
  enough (Hc : guarded (may_create doc) (Ev (answer := answer) (UpdateLabel (NodeName (docEvent doc)) RemediatingLabelValue) (b, None) :: t)
    (CreateMaintenanceResource render cfg IsAlreadyExists (docEvent doc) (docID doc) gc) (fun _ _ => True)).
  { eapply guarded_conseq; [exact Hc|]. intros t' r _. apply (Hend t' r). }
  clear Hend. unfold CreateMaintenanceResource. destruct (rcDryRun cfg) eqn:Hdry; [done|]. specialize (Hclear eq_refl).
  destruct (selectRemediationActionAndTemplate _ _) as [resource|e]; [|done]. unfold getNodeForOwnerReference.
  split; [done|]. intros [nd|e]; simpl; [|done]. unfold createMaintenanceCR. destruct (render _ _) as [name|e]; [|done]. simpl. split.
  - split; [done|]. exists gc. split_and!; [done..|]. eapply way_mono; [|exact Hclear]. by apply suffix_cons_r, suffix_cons_r.
  - intros r. assert (Hann : forall v t', guarded (may_create doc) t' (updateRemediationAnnotationIfNeeded (Raw := Raw) (NodeName (docEvent doc))
      (EffectiveEquivalenceGroup gc) v (GetEffectiveActionName (docEvent doc)) ≫= (fun u => mret (match u with inr e => inr e | inl _ => inl v end : string + kerror)))
      (fun _ _ => True)).
    { intros v t'. eapply guarded_mono; [apply (only_guarded no_create (may_create doc))|done|done]; [|intros; by apply no_create_may].
      unfold updateRemediationAnnotationIfNeeded, wrap_error. footprint. }
    destruct r as [e|]; simpl; [destruct (IsAlreadyExists e); [|done]|]; apply Hann.
Qed.

(** Going on after a part that creates nothing. *)
Lemma pass_over doc {A B} (p : prog A) (f : A -> prog B) t Q :
  only no_create p -> (forall t' a, t `suffix_of` t' -> guarded (may_create doc) t' (f a) Q) -> guarded (may_create doc) t (p ≫= f) Q.
Proof.
  intros Hp Hf. apply guarded_bind. eapply guarded_conseq; [eapply only_guarded; [exact Hp|]|]; [intros; by apply no_create_may|]. simpl. auto.
Qed.

Lemma existing_clear doc gc e t : rcDryRun cfg = false ->
  guarded (may_create doc) t (tryHandleExistingCR ExtractDocumentID cfg doc gc e) (fun t' r => t `suffix_of` t' /\ (r = None -> way_is_clear doc gc t')).
Proof.
  intros Hdry. eapply only_post; [apply existing_only|intros; by apply no_create_may|]. unfold tryHandleExistingCR. apply guarded_bind.
  eapply guarded_conseq; [by apply check_sees|]. simpl. intros t1 [d|er] H1.
  - destruct (shouldCreate d) eqn:Hd; simpl; [intros _; by eapply H1|]. apply guarded_bind.
    eapply guarded_conseq; [apply (only_guarded (fun _ => true)); [|done]|done]. unfold handleEventCoveredByExistingCR, handleExistingCRInProgress, handleExistingCRSkip,
      markProcessedOrError, safeMarkProcessed, updateNodeRemediatedStatus. footprint.
  - destruct (IsNotFound er); [|done]. apply guarded_bind. eapply guarded_conseq; [apply (only_guarded (fun _ => true)); [|done]|done].
    unfold markEventTerminalAndProcessed, markProcessedOrError, safeMarkProcessed, updateNodeRemediatedStatus. footprint.
Qed.

Lemma remediate_may_create doc gc e t : GetGroupConfigForEvent actions (docEvent doc) = Ok (Some gc) -> (rcDryRun cfg = false -> way_is_clear doc gc t) ->
  guarded (may_create doc) t (runLogCollectorAndRemediate render ExtractDocumentID cfg IsAlreadyExists read_manifest doc e gc) (fun _ _ => True).
Proof.
  intros Hgc Hclear. unfold runLogCollectorAndRemediate. apply pass_over; [destruct (0 <? _); [apply capped_only|foot]|]. intros t1 [r|] Hs1; [done|].
  apply pass_over; [apply logs_only|]. intros t2 [delay|er] Hs2; [|done]. destruct (negb _); [done|].
  apply pass_over; [destruct (0 <? _); [apply capped_only|foot]|]. intros t3 [r|] Hs3; [done|].
  apply guarded_bind. eapply guarded_conseq; [apply create_allowed; [done|]|].
  { intros Hdry. eapply way_mono; [|by apply Hclear]. etrans; [exact Hs1|]. by etrans. }
  intros t4 p _. cbv zeta. apply pass_over; [|done]. unfold updateNodeRemediatedStatus. footprint.
Qed.

Lemma remediation_may_create doc e t : guarded (may_create doc) t (handleRemediationEvent doc e) (fun _ _ => True).
Proof.
  assert (Hquiet : forall {A} (p : prog A) t, only no_create p -> guarded (may_create doc) t p (fun _ _ => True)).
  { intros A p t0 Hp. eapply guarded_conseq; [eapply only_guarded; [exact Hp|intros; by apply no_create_may]|done]. }
  unfold Remediation.handleRemediationEvent. destruct (isPartialRecoveryRemediationEvent doc); [apply Hquiet, partial_only|].
  apply pass_over; [apply skip_only|]. intros t1 skipped _. destruct skipped as [r|]; [done|].
  destruct (GetGroupConfigForEvent actions (docEvent doc)) as [[gc|]|er] eqn:Hgc; [|done..].
  apply pass_over; [apply resolved_only|]. intros t2 [r|] _; [done|]. apply guarded_bind.
  assert (Hex : guarded (may_create doc) t2 (tryHandleExistingCR ExtractDocumentID cfg doc gc e)
    (fun t' r => r = None -> rcDryRun cfg = false -> way_is_clear doc gc t')).
  { destruct (rcDryRun cfg) eqn:Hdry; [eapply guarded_conseq; [apply Hquiet, existing_only|done]|].
    eapply guarded_conseq; [by apply existing_clear|]. naive_solver. }
  eapply guarded_conseq; [exact Hex|]. intros t3 [r|] H3; [done|]. apply guarded_bind.
  eapply guarded_conseq; [apply remediate_may_create; [done|by apply H3]|]. intros t4 [delay|er] _; [|done]. destruct (negb _); [done|].
  apply Hquiet. unfold markProcessedOrError, safeMarkProcessed. footprint.
Qed.

(** The document of a change-stream event. *)
Definition parsed (e : EventWithToken (Raw := Raw)) (doc : HealthEventDoc) : Prop :=
  exists d id, ParseHealthEventFromEvent (ewEvent e) = Ok d /\ ExtractDocumentID (ewEvent e) = Ok id /\ doc = with_id d id.

Lemma parse_cases (P : trace -> Call -> Prop) e {B} (f : option HealthEventDoc -> prog B) t Q :
  (forall t token, P t (MarkProcessed token)) -> (forall t, guarded P t (f None) Q) -> (forall t doc, parsed e doc -> guarded P t (f (Some doc)) Q) ->
  guarded P t (parseHealthEvent ParseHealthEventFromEvent ExtractDocumentID e ≫= f) Q.
Proof.
  intros HP Hn Hs. unfold parseHealthEvent. destruct (ParseHealthEventFromEvent (ewEvent e)) as [d|er] eqn:H1; simpl.
  - destruct (ExtractDocumentID (ewEvent e)) as [id|er] eqn:H2; simpl; [apply Hs; by exists d, id|].
    unfold safeMarkProcessed. destruct (_ ==s _); simpl; [apply Hn|]. split; [apply HP|intros; apply Hn].
  - unfold safeMarkProcessed. destruct (_ ==s _); simpl; [apply Hn|]. split; [apply HP|intros; apply Hn].
Qed.


(** ** Waiting *)

(** Some resource was seen in progress. *)
Definition sees_progress (t : trace) : Prop :=
  exists resource name obj, Ev (answer := answer) (GetCR resource name) (inl obj) ∈ t /\ checkCondition obj resource = CRStateInProgress.

Definition reading (c : Call) : bool :=
  match c with GetNode _ | ReadNode _ | GetCR _ _ | FindByID _ => true | _ => false end.
Definition no_look (c : Call) : bool := match c with GetCR _ _ => false | _ => true end.

(** Only reads since the start, and no resource in progress. *)
Definition idle_so_far (t : trace) : Prop := Forall (fun e => reading (ev_call e) = true) t /\ ~ sees_progress t.

Lemma no_look_progress l (t : trace) : Forall (fun e => no_look (ev_call e) = true) l -> sees_progress (l ++ t) -> sees_progress t.
Proof.
  intros Hl (resource & name & obj & Hin & Hp). exists resource, name, obj. split; [|done]. apply elem_of_app in Hin as [Hin|]; [|done].
  rewrite Forall_forall in Hl. by apply Hl in Hin.
Qed.

(** A part that looks at no resource keeps that none was seen in progress. *)
Lemma look_away {A B} (p : prog A) (f : A -> prog B) t Q :
  only no_look p -> ~ sees_progress t -> (forall t' a, ~ sees_progress t' -> ensures t' (f a) Q) -> ensures t (p ≫= f) Q.
Proof.
  intros Hp Ht Hf. apply guarded_bind. eapply guarded_conseq; [by apply only_adds|]. simpl. intros t' a (l & -> & Hl). apply Hf.
  intros H0. by apply Ht, (no_look_progress l).
Qed.

Lemma look_away_end {A} (p : prog A) t (Q : trace -> A -> Prop) : only no_look p -> ~ sees_progress t -> (forall t' a, ~ sees_progress t' -> Q t' a) -> ensures t p Q.
Proof.
  intros Hp Ht Hf. eapply guarded_conseq; [by apply only_adds|]. simpl. intros t' a (l & -> & Hl). apply Hf. intros H0. by apply Ht, (no_look_progress l).
Qed.

(** What the evaluation of the recorded resources ends with. *)
Definition evaluated (t : trace) (r : (existingCRDecision * list string) + kerror) : Prop :=
  Forall (fun e => reading (ev_call e) = true) t /\
  (sees_progress t -> exists d, r = inl (d, []) /\ shouldCreate d = false /\ inProgress d = true).

(** The answer of a look. *)
Definition looked (e : event (answer (Raw := Raw))) : option (MaintenanceResource * string * (CRObject + kerror)) :=
  match e with Ev c x => (match c return answer c -> option (MaintenanceResource * string * (CRObject + kerror)) with GetCR r n => fun x => Some (r, n, x) | _ => fun _ => None end) x end.

Lemma GetCRState_progress a n t : idle_so_far t ->
  ensures t (GetCRState (Raw := Raw) cfg a n) (fun t' r => Forall (fun e => reading (ev_call e) = true) t' /\ (sees_progress t' -> r = inl CRStateInProgress)).
Proof.
  intros [Hr Hn]. unfold GetCRState. destruct (actions !! a) as [resource|]; [|done]. destruct (rcDryRun cfg); [done|]. split; [done|].
  intros x. simpl. split; [by constructor|]. intros (res & name & obj & [Heq|Hin]%elem_of_cons & Hp); [|exfalso; apply Hn; by exists res, name, obj].
  apply (f_equal looked) in Heq. simpl in Heq. injection Heq as -> -> <-. by rewrite Hp.
Qed.

Lemma evaluate_progress l createdAt : forall rem t, idle_so_far t -> ensures t (evaluateExistingCRs (Raw := Raw) cfg l createdAt rem) evaluated.
Proof.
  induction l as [|y l IH]; intros rem t Ht; simpl; [by split; [apply Ht|intros ?; exfalso; apply Ht]|].
  destruct (_ ==s _); [by apply IH|]. unfold evaluateExistingCR. do 2 apply guarded_bind. eapply guarded_conseq; [by apply GetCRState_progress|].
  simpl. intros t1 [st|er] [Hr Hp]; [|split; [done|]; intros Hs; by apply Hp in Hs].
  destruct (shouldCreate (decisionFor st y createdAt)) eqn:Hd; simpl.
  - apply IH. split; [done|]. intros Hs. apply Hp in Hs. by simplify_eq/=.
  - split; [done|]. intros Hs. apply Hp in Hs. simplify_eq/=. by eexists.
Qed.

Lemma check_progress he createdAt gc t : idle_so_far t ->
  ensures t (checkExistingCRStatus (Raw := Raw) cfg he createdAt gc) (fun t' r => sees_progress t' ->
    Forall (fun e => reading (ev_call e) = true) t' /\ exists d, r = inl d /\ shouldCreate d = false /\ inProgress d = true).
Proof.
  intros [Hr Hn]. unfold checkExistingCRStatus, GetRemediationState. split; [done|]. intros x.
  assert (Ht1 : idle_so_far (Ev (answer := answer) (GetNode (NodeName he)) x :: t)).
  { split; [by constructor|]. intros Hs. apply Hn. by apply (no_look_progress [Ev (answer := answer) (GetNode (NodeName he)) x]); [repeat constructor|]. }
  destruct x as [node|er]; simpl; [|intros Hs; by apply Ht1 in Hs]. apply guarded_bind. eapply guarded_conseq; [by apply evaluate_progress|].
  simpl. intros t1 [[d gs]|er] [Hr1 Hp1]; [|intros Hs; destruct (Hp1 Hs) as (? & ? & _); done].
  destruct (shouldCreate d) eqn:Hd; simpl.
  - assert (Hn1 : ~ sees_progress t1) by (intros Hs; destruct (Hp1 Hs) as (? & ? & ? & _); simplify_eq; congruence).
    apply look_away; [destruct (Nat.eqb _ 0); [foot|by apply only_remove]|done|]. intros t' a Hs Hs'. by apply Hs in Hs'.
  - intros Hs. split; [done|]. exists d. split; [done|]. destruct (Hp1 Hs) as (? & ? & ? & ?). by simplify_eq.
Qed.

Lemma inProgress_delay : 0 < inProgressRequeueDelay cfg.
Proof. unfold inProgressRequeueDelay. destruct (Z.ltb_spec 0 (InProgressRequeueDelay cfg)); [done|]. by vm_compute. Qed.

(** Reads only, as far as the event is not settled. *)
Lemma resolved_idle e he id t : idle_so_far t ->
  ensures t (trySkipResolvedEvent (Raw := Raw) e he id) (fun t' r => ~ sees_progress t' /\ (r = None -> Forall (fun ev => reading (ev_call ev) = true) t')).
Proof.
  intros [Hr Hn]. apply guarded_and.
  - apply look_away_end; [|done|done]. unfold trySkipResolvedEvent, eventResolvedInStore, findHealthEventStatusByID, nodeHasActiveQuarantine, readLiveNode, wrap_error,
      markProcessedOrError, safeMarkProcessed. footprint.
  - assert (Hreads : ensures t (eventResolvedInStore (Raw := Raw) he id) (fun t' _ => Forall (fun ev => reading (ev_call ev) = true) t')).
    { eapply guarded_conseq; [apply (only_adds reading)|]; [|intros t' a (l & -> & Hl); by apply Forall_app].
      unfold eventResolvedInStore, findHealthEventStatusByID, nodeHasActiveQuarantine, readLiveNode, wrap_error. footprint. }
    unfold trySkipResolvedEvent. apply guarded_bind. eapply guarded_conseq; [exact Hreads|]. simpl. intros t1 [[]|er] H1; [|by intros _|done].
    unfold markProcessedOrError, safeMarkProcessed. destruct (_ ==s _); simpl; [done|]. by split.
Qed.

Lemma skip_no_look doc g e : only no_look (trySkipEvent ExtractDocumentID doc g e).
Proof.
  unfold trySkipEvent, shouldSkipEvent, nodeHasActiveQuarantine, readLiveNode, wrap_error, updateNodeRemediatedStatus, markProcessedOrError, safeMarkProcessed.
  footprint.
Qed.

Lemma remediate_no_look doc gc e : only no_look (runLogCollectorAndRemediate render ExtractDocumentID cfg IsAlreadyExists read_manifest doc e gc).
Proof.
  unfold runLogCollectorAndRemediate, tryStopIfAlreadyCapped, tryStopAtMaxAttempts, giveUpAtMaxAttempts, markEventTerminalAndProcessed, runLogCollector, RunLogCollectorJob,
    launchLogCollectorJob, checkLogCollectorStatus, checkLogCollectorComplete, checkLogCollectorFailed, checkLogCollectorTimedOut, recordJobEnd, performRemediation,
    CreateMaintenanceResource, getNodeForOwnerReference, createMaintenanceCR, updateRemediationAnnotationIfNeeded, wrap_error, updateNodeRemediatedStatus,
    markProcessedOrError, safeMarkProcessed.
  footprint.
Qed.

(** A waiting event is not lost: when a run of a remediation event finds a
    covering resource in progress, it ends with a requeue after a positive delay
    and has made no change at all: the event is neither finished nor checkpointed,
    no resource is created, no label and no annotation is written. *)
Theorem waiting_event_untouched (doc : HealthEventDoc) (e : EventWithToken) (r : outcome) (t : trace) :
  isPartialRecoveryRemediationEvent doc = false ->
  exec (handleRemediationEvent doc e) [] r t -> sees_progress t ->
  r = inl (inProgressRequeueDelay cfg) /\ 0 < inProgressRequeueDelay cfg /\ Forall (fun ev => reading (ev_call ev) = true) t.
Proof.
  intros Hpart He Hs.
  enough (Hg : ensures [] (handleRemediationEvent doc e)
    (fun t r => sees_progress t -> r = inl (inProgressRequeueDelay cfg) /\ Forall (fun ev => reading (ev_call ev) = true) t)).
  { destruct (guarded_exec _ _ _ _ _ _ Hg He) as [_ HQ]. destruct (HQ Hs) as [-> HF]. split; [done|]. split; [apply inProgress_delay|done]. }
  clear r t He Hs. unfold Remediation.handleRemediationEvent. rewrite Hpart.
  assert (H0 : idle_so_far []) by (split; [constructor|]; intros (? & ? & ? & []%not_elem_of_nil & _)).
  destruct (match GetGroupConfigForEvent actions (docEvent doc) with Ok g => g | Err _ => None end) as [gc|].
  2: { apply look_away; [apply skip_no_look|apply H0|]. intros t' [r|] Ht'; simpl; by intros. }
  assert (Hskip : ensures [] (trySkipEvent ExtractDocumentID doc (Some gc) e) (fun t' r => ~ sees_progress t' /\ (r = None -> t' = []))).
  { apply guarded_and; [apply look_away_end; [apply skip_no_look|apply H0|done]|]. unfold trySkipEvent, shouldSkipEvent.
    assert (Hmark : ensures [] (r ← markProcessedOrError (Raw := Raw) (ResumeToken e); mret (Some r)) (fun t' r => r = None -> t' = [])).
    { apply guarded_bind. eapply guarded_conseq; [apply (only_guarded (fun _ => true)); [unfold markProcessedOrError, safeMarkProcessed; footprint|done]|done]. }
    destruct (bool_decide _); simpl; [exact Hmark|]. by destruct (remediated_already doc); simpl. }
  apply guarded_bind. eapply guarded_conseq; [exact Hskip|]. intros t1 [r|] [Hn1 Ht1]; [done|]. rewrite (Ht1 eq_refl). clear t1 Hn1 Ht1 Hskip.
  apply guarded_bind. eapply guarded_conseq; [by apply resolved_idle|]. intros t2 [r|] [Hn2 Hr2]; [done|]. apply guarded_bind.
  unfold tryHandleExistingCR. apply guarded_bind. eapply guarded_conseq; [apply check_progress; by split; [apply Hr2|]|]. simpl. intros t3 d Hd.
  assert (Hend : forall (p : prog outcome), only no_look p -> ~ sees_progress t3 ->
    ensures t3 (r ← p; mret (Some r)) (fun t a => (exists r, a = Some r) /\ ~ sees_progress t)).
  { intros p Hp Hn. apply look_away; [done|done|]. intros t' a Hn'. split; [by eexists|done]. }
  destruct d as [d|er]; [destruct (shouldCreate d) eqn:Hc; simpl|].
  - assert (Hn3 : ~ sees_progress t3) by (intros Hs; destruct (Hd Hs) as (_ & ? & ? & ? & _); simplify_eq; congruence).
    apply look_away; [apply remediate_no_look|done|]. intros t4 [delay|er] Hn4; simpl; [|by intros Hs%Hn4]. destruct (negb _); [by intros Hs%Hn4|].
    apply look_away_end; [unfold markProcessedOrError, safeMarkProcessed; footprint|done|]. by intros t' a Hn' Hs%Hn'.
  - unfold handleEventCoveredByExistingCR. destruct (inProgress d) eqn:Hp; simpl; [intros Hs; split; [done|by apply Hd]|].
    eapply guarded_conseq; [apply Hend|]; [unfold handleExistingCRSkip, updateNodeRemediatedStatus, markProcessedOrError, safeMarkProcessed; footprint| |].
    + intros Hs. destruct (Hd Hs) as (_ & ? & ? & _ & ?). simplify_eq. congruence.
    + intros t' a [[r ->] Hn'] Hs. by apply Hn' in Hs.
  - assert (Hn3 : ~ sees_progress t3) by (intros Hs; destruct (Hd Hs) as (_ & ? & ? & _); done).
    destruct (IsNotFound er); simpl; [|by intros Hs%Hn3]. eapply guarded_conseq; [apply Hend|]; [|done|intros t' a [[r ->] Hn'] Hs; by apply Hn' in Hs].
    unfold markEventTerminalAndProcessed, updateNodeRemediatedStatus, markProcessedOrError, safeMarkProcessed; footprint.
Qed.
End spec.
