(* ===== verification/RemediationCheckpoint.v ===== *)
(** * When fault-remediation moves past an event

    The change stream is checkpointed with [MarkProcessed]; an event that was not
    checkpointed is delivered again after a restart. [checkpoint_after_outcome]: this
    happens only once the outcome of the event is in the store, or when there is
    nothing to do for it. *)

From stdpp Require Import gmap strings list fin_maps sorting pretty.
From Stdlib Require Import ZArith Lia Ascii.
From S2P Require Import Prelude HealthEvent KubeRetry StateManager AnnotationMap NodeSession DrainInformers Drain Interaction RemediationState Remediation RemediationSpec.

#[local] Open Scope Z_scope.

Section checkpoint.
Context {Raw : Type}.
Context `{JR : JSON RemediationStateAnnotation} `{JV : JSON (list ValidationSessionEntry)} `{JL : JSON (list HealthEvent)} `{JE : JSON HealthEvent}.
Context `{MR : MapRange} `{SC : SlotCodec}.
Context (render : string -> TemplateData -> result string).
Context (ParseHealthEventFromEvent : Raw -> result HealthEventDoc) (ExtractDocumentID : Raw -> result string).
Context (cfg : RemediationConfig) (IsAlreadyExists : kerror -> bool) (read_manifest : result unit).

#[local] Abbreviation prog := (prog (answer (Raw := Raw))).
#[local] Abbreviation trace := (list (event (answer (Raw := Raw)))).
#[local] Abbreviation actions := (RemediationActions (rcConfig cfg)).
#[local] Abbreviation reconcileEvent := (reconcileEvent render ParseHealthEventFromEvent ExtractDocumentID cfg IsAlreadyExists read_manifest).

Definition unmarked (c : Call) : bool := match c with MarkProcessed _ => false | _ => true end.

(** No checkpoint so far. *)
Definition fresh (t : trace) : Prop := Forall (fun ev => unmarked (ev_call ev) = true) t.

Context (e : EventWithToken (Raw := Raw)).

(** The outcome of the event is in the store. *)
Definition settled (t : trace) : Prop :=
  exists id outcome ts, ExtractDocumentID (ewEvent e) = Ok id /\ Ev (answer := answer) (UpdateStatus id outcome ts) None ∈ t.

(** The store shows the event closed: remediated, its session over, or failed and
    no longer among the node's active events. *)
Definition closed (doc : HealthEventDoc) (t : trace) : Prop :=
  exists raw st, Ev (answer := answer) (FindByID (docID doc)) (inl [(raw, st)]) ∈ t /\
    (esFaultRemediated st = Some true \/ (exists q, esNodeQuarantined st = Some q /\ session_over q = true) \/
     (exists b, esFaultRemediated st = Some b) /\
     exists x, Ev (answer := answer) (ReadNode (NodeName (docEvent doc))) x ∈ t /\
       match x with inr er => IsNotFound er = true | inl node => activeQuarantineContainsEvent node (docEvent doc) = Ok false end).

(** Nothing is left to do: the event cannot be read, recommends nothing, was
    remediated when it arrived, or is closed. *)
Definition nothing_to_do (t : trace) : Prop :=
  (forall doc, ~ parsed ParseHealthEventFromEvent ExtractDocumentID e doc) \/
  exists doc, parsed ParseHealthEventFromEvent ExtractDocumentID e doc /\
    (Action (docEvent doc) = NONE \/ docFaultRemediated doc = Some true \/ closed doc t).

Definition due (t : trace) : Prop := settled t \/ nothing_to_do t.

Definition in_order (t : trace) (c : Call) : Prop :=
  match c with MarkProcessed token => token = ResumeToken e /\ due t | _ => fresh t end.

(** ** Parts of a run *)

Lemma fresh_app l t : Forall (fun ev => unmarked (ev_call ev) = true) l -> fresh t -> fresh (l ++ t).
Proof. intros. by apply Forall_app. Qed.

Lemma unmarked_guarded {A} (p : prog A) : forall t, only unmarked p -> fresh t -> guarded in_order t p (fun t' _ => fresh t').
Proof.
  intros t Hp Ht. specialize (Hp t). revert t Hp Ht. induction p as [a|c k IH]; intros t; [done|]. simpl. intros [Hc Hk] Ht. split.
  - by destruct c.
  - intros x. apply IH; [done|by constructor].
Qed.

(** Such a part, with what it ends with. *)
Lemma unmarked_post {A} (p : prog A) t (Q : trace -> A -> Prop) : only unmarked p -> fresh t -> guarded (fun _ _ => True) t p Q ->
  guarded in_order t p (fun t' a => fresh t' /\ Q t' a).
Proof. intros Hp Ht HQ. eapply guarded_mono; [apply guarded_combine; [by apply unmarked_guarded|exact HQ]|by intros ? ? [? _]|done]. Qed.

Lemma unmarked_bind {A B} (p : prog A) (f : A -> prog B) t Q : only unmarked p -> fresh t -> (forall t' a, fresh t' -> guarded in_order t' (f a) Q) ->
  guarded in_order t (p ≫= f) Q.
Proof. intros Hp Ht Hf. apply guarded_bind. eapply guarded_conseq; [by apply unmarked_guarded|done]. Qed.

Lemma mark_when_due t (Q : trace -> outcome -> Prop) : due t -> (forall t' r, (r = ok -> settled t -> settled t') -> Q t' r) -> guarded in_order t (markProcessedOrError (ResumeToken e)) Q.
Proof.
  intros Hd HQ. unfold markProcessedOrError, safeMarkProcessed. destruct (_ ==s _); simpl; [by apply HQ|]. split; [done|]. intros x. apply HQ.
  intros _ (id & o & ts & H1 & H2). exists id, o, ts. split; [done|]. by right.
Qed.

Lemma status_settles b t : fresh t ->
  guarded in_order t (updateNodeRemediatedStatus ExtractDocumentID e b) (fun t' r => fresh t' /\ forall u, r = inl u -> settled t').
Proof.
  intros Ht. apply unmarked_post; [unfold updateNodeRemediatedStatus; footprint|done|]. unfold updateNodeRemediatedStatus.
  destruct (ExtractDocumentID (ewEvent e)) as [id|er] eqn:Hid; [|done]. apply guarded_bind.
  assert (Hts : forall t0 ts, guarded (fun _ _ => True) t0 (r ← call (UpdateStatus id b ts); mret (match r with Some err => inr (kwrap "error updating document" err) | None => inl tt end))
    (fun t' r => forall u : unit, r = inl u -> settled t')).
  { intros t0 ts. split; [done|]. intros [er|]; [done|]. intros u _. exists id, b, ts. split; [done|]. left. }
  destruct b; [|apply Hts]. split; [done|]. intros now. apply Hts.
Qed.

Lemma terminal_ordered b t : fresh t -> guarded in_order t (markEventTerminalAndProcessed ExtractDocumentID e b) (fun t' r => r = ok -> settled t').
Proof.
  intros Ht. unfold markEventTerminalAndProcessed. apply guarded_bind. eapply guarded_conseq; [by apply status_settles|]. intros t1 [u|er] [_ H1]; [|done].
  specialize (H1 u eq_refl). apply mark_when_due; [by left|]. auto.
Qed.

(** What a part that decides on the event leaves: a decision after which nothing
    more is done, or no checkpoint so far. *)
Definition undecided {A} (t : trace) (r : option A) : Prop := r = None -> fresh t.

Lemma resolved_closed doc t :
  guarded (fun _ _ => True) t (eventResolvedInStore (Raw := Raw) (docEvent doc) (docID doc)) (fun t' r => r = inl true -> closed doc t').
Proof.
  unfold eventResolvedInStore, findHealthEventStatusByID. destruct (docID doc ==s ""); [done|]. split; [done|]. intros [docs|er]; [|done].
  destruct docs as [|[raw st] [|? ?]]; [done| |done]. simpl. case_bool_decide as Hr.
  { intros _. exists raw, st. split; [left|by left]. }
  destruct (match esNodeQuarantined st with Some q => session_over q | None => false end) eqn:Hq.
  { intros _. exists raw, st. split; [left|]. right. left. destruct (esNodeQuarantined st) as [q|]; [by exists q|done]. }
  destruct (esFaultRemediated st) as [b|] eqn:Hb; [|done]. unfold nodeHasActiveQuarantine, readLiveNode, wrap_error. split; [done|]. intros x. simpl.
  intros Hx. exists raw, st. split; [right; left|]. right. right. split; [by exists b|]. exists x. split; [left|]. destruct x as [node|er]; simpl in Hx.
  - destruct (activeQuarantineContainsEvent node (docEvent doc)) as [[]|er] eqn:Ha; [|done|]; simpl in Hx; [by simplify_eq/=|by simplify_eq/=].
  - unfold IsNotFound, kwrap in *. simpl in Hx. by destruct (kreason er).
Qed.

Lemma skip_resolved_ordered doc t : parsed ParseHealthEventFromEvent ExtractDocumentID e doc -> fresh t ->
  guarded in_order t (trySkipResolvedEvent e (docEvent doc) (docID doc)) undecided.
Proof.
  intros Hdoc Ht. unfold trySkipResolvedEvent. apply guarded_bind. eapply guarded_conseq.
  - apply unmarked_post; [|done|apply resolved_closed]. unfold eventResolvedInStore, findHealthEventStatusByID, nodeHasActiveQuarantine, readLiveNode, wrap_error. footprint.
  - intros t1 [[]|er] [H1 H2]; [|by intros _|by intros ?]. apply guarded_bind. apply mark_when_due; [|by intros ??? ?]. right. right. exists doc. auto.
Qed.

Lemma skip_ordered doc gc t : parsed ParseHealthEventFromEvent ExtractDocumentID e doc -> fresh t ->
  guarded in_order t (trySkipEvent ExtractDocumentID doc gc e) undecided.
Proof.
  intros Hdoc Ht. unfold trySkipEvent.
  assert (Hskip : guarded in_order t (shouldSkipEvent doc gc) (fun t' r => fresh t' /\
    (r = inl true -> shouldMarkSkippedEventUnsupported doc gc = false -> Action (docEvent doc) = NONE \/ docFaultRemediated doc = Some true))).
  { apply unmarked_post; [unfold shouldSkipEvent, nodeHasActiveQuarantine, readLiveNode, wrap_error; footprint|done|].
    unfold shouldSkipEvent, shouldMarkSkippedEventUnsupported, remediated_already. case_bool_decide as Ha; [by left|].
    destruct (docFaultRemediated doc) as [[]|]; [by right| |]; (destruct gc; [done|]); by apply guarded_any. }
  apply guarded_bind. eapply guarded_conseq; [exact Hskip|]. intros t1 [[]|er] [H1 H2]; [|by intros _|by intros ?]. apply guarded_bind.
  destruct (shouldMarkSkippedEventUnsupported doc gc) eqn:Hm.
  - eapply guarded_conseq; [by apply status_settles|]. intros t2 [u|er] [_ H3]; [|done]. apply guarded_bind. apply mark_when_due; [left; by eapply H3|by intros ??? ?].
  - apply guarded_ret. apply guarded_bind. apply mark_when_due; [|by intros ??? ?]. right. right. exists doc. split; [done|]. destruct H2; auto.
Qed.

(** A decision against a new resource is to wait, or that the event is remediated. *)
Definition sound_decision (d : existingCRDecision) : Prop := shouldCreate d = false -> inProgress d = false -> remediated d = true.

Lemma evaluate_sound l createdAt : forall rem t,
  guarded (fun _ _ => True) t (evaluateExistingCRs (Raw := Raw) cfg l createdAt rem) (fun _ r => forall d gs, r = inl (d, gs) -> sound_decision d).
Proof.
  induction l as [|y l IH]; intros rem t; simpl; [by intros d gs [= <- <-]|]. destruct (_ ==s _); [by apply IH|]. unfold evaluateExistingCR.
  do 2 apply guarded_bind. apply guarded_any. clear t. intros t [st|er]; [|done]. simpl. destruct (shouldCreate (decisionFor st y createdAt)) eqn:Hc; simpl; [apply IH|].
  intros d gs [= <- <-]. unfold sound_decision, decisionFor, evaluateSucceededCR in *. by destruct st; [| |destruct (eventCoveredByRemediationSession _ _)|].
Qed.

Lemma check_sound he createdAt gc t :
  guarded (fun _ _ => True) t (checkExistingCRStatus (Raw := Raw) cfg he createdAt gc) (fun _ r => forall d, r = inl d -> sound_decision d).
Proof.
  unfold checkExistingCRStatus. apply guarded_bind. apply guarded_any. clear t. intros t [[state node]|er]; [|done]. apply guarded_bind.
  eapply guarded_conseq; [apply evaluate_sound|]. intros t1 [[d gs]|er] H1; [|done]. destruct (shouldCreate d) eqn:Hc; simpl.
  - apply guarded_bind, guarded_any. intros t2 [u|er]; [by intros d' [= <-]|done].
  - intros d' [= <-]. by eapply H1.
Qed.

Lemma existing_ordered doc gc t : fresh t -> guarded in_order t (tryHandleExistingCR ExtractDocumentID cfg doc gc e) undecided.
Proof.
  intros Ht. unfold tryHandleExistingCR. apply guarded_bind. eapply guarded_conseq.
  - apply unmarked_post; [unfold checkExistingCRStatus, GetRemediationState; footprint|done|apply check_sound].
  - intros t1 [d|er] [H1 H2].
    + destruct (shouldCreate d) eqn:Hc; simpl; [by intros _|]. apply guarded_bind. unfold handleEventCoveredByExistingCR. destruct (inProgress d) eqn:Hp; [by intros ?|].
      rewrite (H2 d eq_refl Hc Hp). unfold handleExistingCRSkip. apply guarded_bind. eapply guarded_conseq; [by apply status_settles|].
      intros t2 [u|er] [_ H3]; [|by intros ?]. apply mark_when_due; [left; by eapply H3|by intros ??? ?].
    + destruct (IsNotFound er); [|by intros ?]. apply guarded_bind. eapply guarded_conseq; [by apply terminal_ordered|by intros ????].
Qed.

(** Giving up at the limit checkpoints the event as well. *)
Definition ends_settled (t : trace) (r : outcome) : Prop := r = ok -> settled t.
Definition stops_settled (t : trace) (r : option outcome) : Prop := match r with None => fresh t | Some r => ends_settled t r end.

Lemma give_up_ordered n t : fresh t -> guarded in_order t (giveUpAtMaxAttempts ExtractDocumentID n e) ends_settled.
Proof.
  intros Ht. unfold giveUpAtMaxAttempts. apply unmarked_bind; [foot|done|]. intros t1 [b [er|]] H1; [done|]. by apply terminal_ordered.
Qed.

Lemma capped_ordered n h t : fresh t -> guarded in_order t (tryStopIfAlreadyCapped ExtractDocumentID cfg n h e) stops_settled.
Proof.
  intros Ht. unfold tryStopIfAlreadyCapped. apply unmarked_bind; [footprint|done|]. intros t1 [state|er] H1; [|done]. destruct (_ <? _); [done|].
  apply guarded_bind. eapply guarded_conseq; [by apply give_up_ordered|done].
Qed.

Lemma stop_ordered n h t : fresh t -> guarded in_order t (tryStopAtMaxAttempts ExtractDocumentID cfg n h e) stops_settled.
Proof.
  intros Ht. unfold tryStopAtMaxAttempts. apply unmarked_bind; [footprint|done|]. intros t1 [c|er] H1.
  - destruct (_ <=? _); [done|]. apply guarded_bind. eapply guarded_conseq; [by apply give_up_ordered|done].
  - destruct (IsNotFound er); [|done]. apply guarded_bind. eapply guarded_conseq; [by apply terminal_ordered|done].
Qed.

Lemma remediate_ordered doc gc t : fresh t -> guarded in_order t (runLogCollectorAndRemediate render ExtractDocumentID cfg IsAlreadyExists read_manifest doc e gc) ends_settled.
Proof.
  intros Ht. unfold runLogCollectorAndRemediate. apply guarded_bind.
  assert (Hopt : forall p t0, fresh t0 -> (forall t1, fresh t1 -> guarded in_order t1 p stops_settled) ->
    guarded in_order t0 (if 0 <? MaxRemediationAttempts (rcConfig cfg) then p else mret None) stops_settled) by (intros; destruct (_ <? _); auto).
  eapply guarded_conseq; [apply Hopt; [done|]; intros; by apply capped_ordered|]. intros t1 [r|] H1; [done|]. apply unmarked_bind; [|done|].
  { unfold runLogCollector, RunLogCollectorJob, launchLogCollectorJob, checkLogCollectorStatus, checkLogCollectorComplete, checkLogCollectorFailed,
      checkLogCollectorTimedOut, recordJobEnd, wrap_error. footprint. }
  intros t2 [delay|er] H2; [|done]. destruct (negb (delay =? 0)) eqn:Hd; [by intros [= ->]|]. apply guarded_bind. eapply guarded_conseq; [apply Hopt; [done|]; intros; by apply stop_ordered|]. intros t3 [r|] H3; [done|]. apply unmarked_bind; [|done|].
  { unfold performRemediation, CreateMaintenanceResource, getNodeForOwnerReference, createMaintenanceCR, updateRemediationAnnotationIfNeeded, wrap_error. footprint. }
  intros t4 p H4. cbv zeta. apply guarded_bind. eapply guarded_conseq; [by apply status_settles|]. intros t5 [u|er] [_ H5]; [|done].
  destruct p; [intros _; by eapply H5|done].
Qed.

Lemma remediation_ordered doc t : parsed ParseHealthEventFromEvent ExtractDocumentID e doc -> fresh t ->
  guarded in_order t (handleRemediationEvent render ExtractDocumentID cfg IsAlreadyExists read_manifest doc e) (fun _ _ => True).
Proof.
  intros Hdoc Ht. unfold handleRemediationEvent. destruct (isPartialRecoveryRemediationEvent doc).
  - unfold handlePartialRecoveryEvent, then_. apply unmarked_bind; [unfold GetRemediationState; foot|done|]. intros t1 [[state node]|er] H1.
    + apply unmarked_bind; [unfold reconcilePartialRecoveryLabel, recomputePartialRecoveryNodeLabel; footprint|done|]. intros t2 [u|er] H2; [|done].
      apply guarded_bind. eapply guarded_conseq; [by apply status_settles|]. intros t3 [u'|er] [_ H3]; [|done]. apply mark_when_due; [left; by eapply H3|done].
    + destruct (IsNotFound er); [|done]. eapply guarded_conseq; [by apply terminal_ordered|done].
  - apply guarded_bind. eapply guarded_conseq; [by apply skip_ordered|]. intros t1 [r|] H1; [done|]. specialize (H1 eq_refl).
    destruct (GetGroupConfigForEvent actions (docEvent doc)) as [[gc|]|er]; [|done..]. apply guarded_bind.
    eapply guarded_conseq; [by apply skip_resolved_ordered|]. intros t2 [r|] H2; [done|]. specialize (H2 eq_refl). apply guarded_bind.
    eapply guarded_conseq; [by apply existing_ordered|]. intros t3 [r|] H3; [done|]. specialize (H3 eq_refl). apply guarded_bind.
    eapply guarded_conseq; [by apply remediate_ordered|]. intros t4 [delay|er] H4; [|done]. destruct (Z.eqb_spec delay 0) as [->|Hd]; [|done].
    apply mark_when_due; [left; by apply H4|done].
Qed.

Lemma cancellation_ordered n st t : fresh t ->
  guarded in_order t (handleCancellationEvent ParseHealthEventFromEvent ExtractDocumentID cfg n st e) (fun _ _ => True).
Proof.
  intros Ht. unfold handleCancellationEvent, then_. apply unmarked_bind; [unfold GetRemediationState; foot|done|]. intros t1 [[state node]|er] H1.
  - apply unmarked_bind; [unfold closeStaleEquivalentEvents, closeStaleEquivalentEventBatch, closeStaleEvent; footprint|done|]. intros t2 [u|er] H2; [|done].
    apply unmarked_bind; [footprint|done|]. intros t3 [u1|er] H3; [|done].
    apply unmarked_bind; [unfold clearFaultRemediationNodeLabel; footprint|done|]. intros t4 [u2|er] H4; [|done]. apply guarded_bind.
    eapply guarded_conseq; [by apply status_settles|]. intros t5 [u3|er] [_ H5]; [|done]. apply mark_when_due; [left; by eapply H5|done].
  - destruct (IsNotFound er); [|done]. eapply guarded_conseq; [by apply terminal_ordered|done].
Qed.

Lemma unreadable_due : (forall d id, ParseHealthEventFromEvent (ewEvent e) = Ok d -> ExtractDocumentID (ewEvent e) = Ok id -> False) -> forall t, due t.
Proof. intros Hno t. right. left. intros doc (d & id & H1 & H2 & _). by eapply Hno. Qed.

Lemma reconcile_ordered : guarded in_order [] (reconcileEvent e) (fun _ _ => True).
Proof.
  unfold Remediation.reconcileEvent, parseHealthEvent. destruct (ParseHealthEventFromEvent (ewEvent e)) as [d|er] eqn:Hd; simpl.
  - destruct (ExtractDocumentID (ewEvent e)) as [id|er] eqn:Hid; simpl.
    + destruct (session_over _); [apply cancellation_ordered|apply remediation_ordered]; [constructor|by exists d, id|constructor].
    + unfold safeMarkProcessed. destruct (_ ==s _); simpl; [done|]. split; [|done]. split; [done|]. apply unreadable_due. congruence.
  - unfold safeMarkProcessed. destruct (_ ==s _); simpl; [done|]. split; [|done]. split; [done|]. apply unreadable_due. congruence.
Qed.

(** C7 (no event is lost).  The reconciler moves the change stream past an event only
    after, in the same run, the store accepted the event's outcome, or when there is
    nothing to do: the event cannot be read, recommends no action, was already
    remediated, or the store shows it closed.  Until then an interrupted run is
    repeated from the event; and after the checkpoint the run does nothing else. *)
Theorem checkpoint_after_outcome (r : outcome) (t t1 t2 : trace) (token : string) (x : option kerror) :
  exec (reconcileEvent e) [] r t -> t = t1 ++ Ev (answer := answer) (MarkProcessed token) x :: t2 ->
  token = ResumeToken e /\ (settled t2 \/ nothing_to_do t2) /\ Forall (fun ev => exists k, ev_call ev = MarkProcessed k) t1.
Proof.
  intros He ->. destruct (guarded_exec _ _ _ _ _ _ reconcile_ordered He) as [Ha _]. destruct (allowed_at _ _ Ha _ _ _ eq_refl) as [H1 H2].
  split; [done|]. split; [done|]. clear He H1 H2. apply Forall_forall. intros ev (l1 & l2 & ->)%list_elem_of_split.
  pose proof (allowed_at _ _ Ha l1 ev (l2 ++ Ev (answer := answer) (MarkProcessed token) x :: t2)) as Hev. rewrite <- app_assoc in Hev. specialize (Hev eq_refl).
  assert (Hmarked : ~ fresh (l2 ++ Ev (answer := answer) (MarkProcessed token) x :: t2)).
  { intros Hf. apply Forall_app in Hf as [_ Hf]. by inversion_clear Hf. }
  destruct (ev_call ev); try done. by eexists.
Qed.
End checkpoint.
