(* ===== verification/RemediationCap.v ===== *)
(** * The attempt limit of fault-remediation

    Any number of runs of the reconciler, interleaved call by call, with caches that
    return old versions of the node, writes that fail or seem to fail, and other
    writers of the node.  [attempts_capped]: between two resets of the counter at
    most [maxRemediationAttempts] resources are created for a group. *)

From stdpp Require Import gmap strings list fin_maps sorting pretty relations.
From Stdlib Require Import ZArith Lia Ascii.
From S2P Require Import Prelude HealthEvent KubeRetry StateManager AnnotationMap NodeSession DrainInformers Drain Interaction RemediationState Remediation RemediationSpec.

#[local] Open Scope Z_scope.

Section cap.
Context {Raw : Type}.
Context `{JR : JSON RemediationStateAnnotation, JRL : !JSONLaws RemediationStateAnnotation}.
Context `{JV : JSON (list ValidationSessionEntry)} `{JL : JSON (list HealthEvent)} `{JE : JSON HealthEvent}.
Context `{MR : MapRange} `{SC : SlotCodec}.
Context (render : string -> TemplateData -> result string).
Context (ParseHealthEventFromEvent : Raw -> result HealthEventDoc) (ExtractDocumentID : Raw -> result string).
Context (cfg : RemediationConfig) (IsAlreadyExists : kerror -> bool) (read_manifest : result unit).

#[local] Abbreviation prog := (prog (answer (Raw := Raw))).
#[local] Abbreviation event := (event (answer (Raw := Raw))).
#[local] Abbreviation trace := (list event).
#[local] Abbreviation actions := (RemediationActions (rcConfig cfg)).
#[local] Abbreviation maxAttempts := (MaxRemediationAttempts (rcConfig cfg)).
#[local] Abbreviation reconcileEvent := (reconcileEvent render ParseHealthEventFromEvent ExtractDocumentID cfg IsAlreadyExists read_manifest).

(** ** The counter of a node *)

Definition count (h : string) (n : rnode) : Z := AttemptCount (group_state (state_of n) h).

Lemma state_of_set n s state : json_marshal state = Ok s -> state_of (set_annotation n AnnotationKey s) = state.
Proof. intros Hs. unfold state_of, annotation_of, set_annotation. simpl. rewrite lookup_insert_eq. simpl. by rewrite (json_roundtrip _ _ Hs). Qed.

Lemma count_set h n s state : json_marshal state = Ok s -> count h (set_annotation n AnnotationKey s) = AttemptCount (group_state state h).
Proof. intros Hs. unfold count. by rewrite (state_of_set _ _ _ Hs). Qed.

Lemma count_drop h n : count h (drop_annotation n AnnotationKey) = 0.
Proof.
  unfold count, state_of, annotation_of, drop_annotation. simpl. destruct (rnAnnotations n); simpl; [|done]. by rewrite lookup_delete_eq.
Qed.

(** Every operation of a remediation keeps each counter or raises it. *)
Lemma resume_count h state node : AttemptCount (group_state state h) <= AttemptCount (group_state (resumeValidationAttempts state node) h).
Proof.
  unfold resumeValidationAttempts. case_bool_decide; [done|]. unfold group_state. cbn [EquivalenceGroups]. destruct (existsb _ _); [|done].
  apply (map_fold_weak_ind (fun m _ => AttemptCount (default zero_group (EquivalenceGroups state !! h)) <= AttemptCount (default zero_group (m !! h)))); [done|].
  intros k x m r _ IH. destruct (decide (h = k)) as [->|Hne]; [|by rewrite lookup_insert_ne].
  rewrite lookup_insert_eq. simpl. lia.
Qed.

Lemma end_session_count h state groups : AttemptCount (group_state (endGroupSessions state groups) h) = AttemptCount (group_state state h).
Proof.
  unfold endGroupSessions, group_state. cbn [EquivalenceGroups with_groups]. generalize (EquivalenceGroups state). induction groups as [|k groups IH]; intros m; [done|].
  simpl. rewrite IH. unfold endGroupSession. destruct (m !! k) as [x|] eqn:Hk; [|done]. destruct (decide (h = k)) as [->|Hne].
  - rewrite Hk. destruct (Z.eqb_spec (AttemptCount x) 0); [rewrite lookup_delete_eq|rewrite lookup_insert_eq]; simpl; lia.
  - destruct (_ =? 0); [by rewrite lookup_delete_ne|by rewrite lookup_insert_ne].
Qed.

Lemma insert_count h g x state : AttemptCount (group_state (with_groups state (<[g := x]> (EquivalenceGroups state))) h) =
  if decide (h = g) then AttemptCount x else AttemptCount (group_state state h).
Proof. unfold group_state, with_groups. simpl. case_decide as Hd; [subst; by rewrite lookup_insert_eq|by rewrite lookup_insert_ne]. Qed.

(** ** Traces *)

Context (N g : string).

(** A read of the node. *)
Definition read_of (e : event) : option rnode :=
  match e with Ev c x =>
    (match c return answer c -> option rnode with
     | GetNode name => fun x => match x with inl m => if name ==s N then Some m else None | inr _ => None end
     | _ => fun _ => None end) x end.

(** The answer of a read. *)
Definition read_at (e : event) : option (string * (rnode + kerror)) :=
  match e with Ev c x => (match c return answer c -> option (string * (rnode + kerror)) with GetNode name => fun x => Some (name, x) | _ => fun _ => None end) x end.

(** The resource belongs to the group and the node. *)
Definition for_group (data : TemplateData) : bool :=
  (NodeName (tdHealthEvent data) ==s N) &&
  match GetGroupConfigForEvent actions (tdHealthEvent data) with Ok (Some gc) => EffectiveEquivalenceGroup gc ==s g | _ => false end.

(** The write raises the counter of a version that was read, within the limit. *)
Definition counts_attempt (t : trace) (n : rnode) : bool :=
  existsb (fun e => match read_of e with
    | Some m => (rnName m ==s rnName n) && (rnVersion m ==s rnVersion n) && (count g m <? count g n) && (count g n <=? maxAttempts)
    | None => false end) t.

(** The run has counted an attempt and not used it. *)
Fixpoint armed (t : trace) : bool :=
  match t with
  | [] => false
  | Ev c x :: t' =>
      (match c return answer c -> bool with
       | UpdateNode n => fun r => armed t' || match r with None => counts_attempt t' n | Some _ => false end
       | CreateCR data _ => fun _ => if for_group data then false else armed t'
       | _ => fun _ => armed t' end) x
  end.

(** Whether the run may reset the counters. *)
Section run.
Context (resets : bool).

(** A write starts from a version that was read, and keeps or raises every counter,
    or, where it may, resets all of them. *)
Definition fair_write (t : trace) (n : rnode) : Prop :=
  exists name m, Ev (answer := answer) (GetNode name) (inl m) ∈ t /\ rnName n = rnName m /\ rnVersion n = rnVersion m /\
    ((forall h, count h m <= count h n) \/ resets = true /\ forall h, count h n = 0).

Definition within_limit (t : trace) (c : Call) : Prop :=
  match c with
  | CreateCR data _ => for_group data = true -> armed t = true
  | UpdateNode n => fair_write t n
  | _ => True
  end.

(** ** The operations *)

Definition plain (c : Call) : bool := match c with UpdateNode _ | CreateCR _ _ => false | _ => true end.

Lemma plain_within t c : plain c = true -> within_limit t c.
Proof. by destruct c. Qed.

Lemma plain_guarded {A} (p : prog A) t : only plain p -> guarded within_limit t p (fun t' _ => t `suffix_of` t').
Proof. intros Hp. eapply only_guarded; [exact Hp|]. intros. by apply plain_within. Qed.

Lemma plain_bind {A B} (p : prog A) (f : A -> prog B) t Q : only plain p -> (forall t' a, guarded within_limit t' (f a) Q) -> guarded within_limit t (p ≫= f) Q.
Proof. intros Hp Hf. apply guarded_bind. eapply guarded_conseq; [by apply plain_guarded|]. simpl. auto. Qed.

Lemma armed_app l t : Forall (fun e => no_create (ev_call e) = true) l -> armed t = true -> armed (l ++ t) = true.
Proof.
  intros Hl Ht. induction Hl as [|[c x] l Hc _ IH]; [done|]. simpl. destruct c; try done. by rewrite IH.
Qed.

(** Writes that keep or raise counters, and writes that reset them. *)
Lemma fair_state t name m s state : json_marshal state = Ok s -> (forall h, count h m <= AttemptCount (group_state state h)) ->
  fair_write (Ev (answer := answer) (GetNode name) (inl m) :: t) (set_annotation m AnnotationKey s).
Proof. intros Hs Hc. exists name, m. split; [left|]. split; [done|]. split; [done|]. left. intros h. by rewrite (count_set _ _ _ _ Hs). Qed.

Lemma fair_reset t name m n : resets = true -> rnName n = rnName m -> rnVersion n = rnVersion m -> (forall h, count h n = 0) ->
  fair_write (Ev (answer := answer) (GetNode name) (inl m) :: t) n.
Proof. intros. exists name, m. split; [left|]. split; [done|]. split; [done|]. by right. Qed.

(** Dropping the record of a node whose counters are all zero. *)
Lemma fair_drop t name m state : EquivalenceGroups state = ∅ -> (forall h, count h m <= AttemptCount (group_state state h)) ->
  fair_write (Ev (answer := answer) (GetNode name) (inl m) :: t) (drop_annotation m AnnotationKey).
Proof.
  intros He Hc. exists name, m. split; [left|]. split; [done|]. split; [done|]. left. intros h. rewrite count_drop. specialize (Hc h).
  unfold group_state in Hc. by rewrite He, lookup_empty in Hc.
Qed.

Lemma fair_later e t n : fair_write t n -> fair_write (e :: t) n.
Proof. intros (name & m & Hin & Hr). exists name, m. split; [by right|done]. Qed.

(** One attempt of an operation that only has to be fair. *)
Lemma retried {A} (body : prog (A + kerror)) n t context : (forall t, guarded within_limit t body (fun _ _ => True)) ->
  guarded within_limit t (wrap_error context (RetryOnConflict n body)) (fun _ _ => True).
Proof.
  intros Hb. apply guarded_bind. eapply guarded_conseq; [apply (guarded_retry _ _ (fun _ => True) (fun _ _ => True)); [|done|done]|done].
  intros t' _. eapply guarded_conseq; [apply Hb|done].
Qed.

Lemma update_fair n h c a t : guarded within_limit t (UpdateRemediationState (Raw := Raw) n h c a) (fun _ _ => True).
Proof.
  apply retried. clear t. intros t. split; [done|]. intros [m|e]; [|done]. simpl. split; [done|]. intros now. unfold write_state.
  destruct (json_marshal _) as [s|e] eqn:Hs; [|done]. split; [|done]. apply fair_later. eapply fair_state; [exact Hs|]. intros k. rewrite insert_count.
  unfold count. case_decide; subst; simpl; lia.
Qed.

Lemma remove_fair n gs t : guarded within_limit t (RemoveGroupsFromState (Raw := Raw) n gs) (fun _ _ => True).
Proof.
  apply retried. clear t. intros t. split; [done|]. intros [m|e]; [|done]. simpl.
  destruct (bool_decide _ && bool_decide _) eqn:Hb.
  { split; [|done]. apply andb_true_iff in Hb as [Hb%bool_decide_eq_true _]. apply (fair_drop _ _ _ (endGroupSessions (state_of m) gs)); [exact Hb|]. intros k. by rewrite end_session_count. }
  unfold write_state.
  destruct (json_marshal _) as [s|e] eqn:Hs; [|done]. split; [|done]. eapply fair_state; [exact Hs|]. intros k. by rewrite end_session_count.
Qed.

Lemma prepare_fair n t : guarded within_limit t (PrepareRemediationAttempt (Raw := Raw) n) (fun _ _ => True).
Proof.
  apply retried. clear t. intros t. split; [done|]. intros [m|e]; [|done]. simpl. case_bool_decide; [done|].
  case_bool_decide as He; [split; [eapply fair_drop; [exact He|intros k; apply resume_count]|done]|]. unfold write_state.
  destruct (json_marshal _) as [s|e] eqn:Hs; [|done]. split; [|done]. eapply fair_state; [exact Hs|]. intros k. apply resume_count.
Qed.

Lemma clear_fair n t : resets = true -> guarded within_limit t (ClearRemediationState (Raw := Raw) n) (fun _ _ => True).
Proof.
  intros Hr. apply retried. clear t. intros t. split; [done|]. intros [m|e]; [|done]. simpl. unfold removeStateAnnotation. destruct (rnAnnotations m); [|done].
  split; [|done]. apply fair_reset; [done..|]. intros. apply count_drop.
Qed.

Lemma keep_fair n t : resets = true -> guarded within_limit t (KeepAttemptsForValidation (Raw := Raw) n) (fun _ _ => True).
Proof.
  intros Hr. apply retried. clear t. intros t. split; [done|]. intros [m|e]; [|done]. simpl. destruct (Nat.eqb _ 0).
  { unfold removeStateAnnotation. destruct (rnAnnotations m); [|done]. split; [|done]. apply fair_reset; [done..|]. intros. apply count_drop. }
  case_bool_decide; [done|]. case_bool_decide; [split; [apply fair_reset; [done..|intros; apply count_drop]|done]|]. unfold write_state.
  destruct (json_marshal _) as [s|e] eqn:Hs; [|done]. split; [|done]. apply fair_reset; [done..|]. intros h. by rewrite (count_set _ _ _ _ Hs).
Qed.

(** A counted attempt arms the run. *)
Lemma record_arms n h t : guarded within_limit t (RecordRemediationAttempt (Raw := Raw) n h)
  (fun t' r => forall c, r = inl c -> c <= maxAttempts -> n = N -> h = g -> armed t' = true).
Proof.
  unfold RecordRemediationAttempt, wrap_error. apply guarded_bind.
  eapply guarded_conseq; [apply (guarded_retry _ _ (fun _ => True) (fun t' r => forall c, r = inl c -> c <= maxAttempts -> n = N -> h = g -> armed t' = true)); [|done|done]|].
  2: { simpl. intros t' [c|e] Hr; [|done]. intros c' [= <-]. by apply Hr. }
  clear t. intros t _. split; [done|]. intros [m|e]; [|done]. simpl. unfold write_state. destruct (json_marshal _) as [s|e] eqn:Hs; [|done].
  assert (Hcount : count h m < AttemptCount (group_state (resumeValidationAttempts (state_of m) m) h) + 1) by (pose proof (resume_count h (state_of m) m); unfold count; lia).
  split.
  - eapply fair_state; [exact Hs|]. intros k. rewrite insert_count. case_decide; [subst; simpl; lia|apply resume_count].
  - intros [e|]; simpl; [done|]. split; [|done]. intros c [= <-] Hc -> ->. rewrite go_eqb_refl. simpl. rewrite (count_set _ _ _ _ Hs), insert_count.
    rewrite decide_True by done. simpl. rewrite !go_eqb_refl. simpl. apply orb_true_iff. right. apply orb_true_iff. left.
    apply andb_true_iff. split; [by apply Z.ltb_lt|by apply Z.leb_le].
Qed.

(** ** The handlers *)

Definition settles {A} (p : prog A) : Prop := forall t, guarded within_limit t p (fun _ _ => True).

Lemma settles_plain {A} (p : prog A) : only plain p -> settles p.
Proof. intros Hp t. eapply guarded_conseq; [by apply plain_guarded|done]. Qed.

Lemma settles_bind {A B} (p : prog A) (f : A -> prog B) : settles p -> (forall a, settles (f a)) -> settles (p ≫= f).
Proof. intros Hp Hf t. apply guarded_bind. eapply guarded_conseq; [apply Hp|]. intros t' a _. apply Hf. Qed.

Lemma finish_settles (e : EventWithToken (Raw := Raw)) b :
  settles (updateNodeRemediatedStatus ExtractDocumentID e b) /\ settles (markProcessedOrError (Raw := Raw) (ResumeToken e)) /\
  settles (markEventTerminalAndProcessed ExtractDocumentID e b).
Proof. split_and!; apply settles_plain; by apply finish_only. Qed.

Lemma existing_settles doc gc e : settles (tryHandleExistingCR ExtractDocumentID cfg doc gc e).
Proof.
  unfold tryHandleExistingCR, checkExistingCRStatus. apply settles_bind.
  - apply settles_bind; [by apply settles_plain; unfold GetRemediationState; foot|]. intros [[state node]|er]; [|done].
    apply settles_bind; [by apply settles_plain, only_evaluate|]. intros [[d gs]|er]; [|done]. destruct (negb _); [done|].
    apply settles_bind; [destruct (Nat.eqb _ 0); [done|intros t; apply remove_fair]|done].
  - intros [d|er].
    + destruct (negb _); [|done]. apply settles_bind; [|done]. unfold handleEventCoveredByExistingCR. destruct (inProgress d); [done|]. unfold handleExistingCRSkip.
      apply settles_bind; [destruct (remediated d); [apply finish_settles|done]|]. intros [u|er]; [apply (finish_settles e true)|done].
    + destruct (IsNotFound er); [|done]. apply settles_bind; [apply finish_settles|done].
Qed.

Lemma cancel_settles n st e : resets = true -> settles (handleCancellationEvent ParseHealthEventFromEvent ExtractDocumentID cfg n st e).
Proof.
  intros Hr. unfold handleCancellationEvent, then_. apply settles_bind; [by apply settles_plain; unfold GetRemediationState; foot|].
  intros [[state node]|er]; [|destruct (IsNotFound er); [apply finish_settles|done]].
  apply settles_bind; [apply settles_plain; unfold closeStaleEquivalentEvents, closeStaleEquivalentEventBatch, closeStaleEvent; footprint|]. intros [u|er]; [|done].
  apply settles_bind; [destruct (_ && _); intros t; [by apply keep_fair|by apply clear_fair]|]. intros [u1|er]; [|done].
  apply settles_bind; [apply settles_plain; unfold clearFaultRemediationNodeLabel; footprint|]. intros [u2|er]; [|done].
  apply settles_bind; [apply finish_settles|]. intros [u3|er]; [apply (finish_settles e true)|done].
Qed.

Lemma give_up_settles n e : settles (giveUpAtMaxAttempts ExtractDocumentID n e).
Proof.
  unfold giveUpAtMaxAttempts. apply settles_bind; [by apply settles_plain; foot|]. intros [b [er|]]; [done|]. apply finish_settles.
Qed.

Lemma capped_settles n h e : settles (tryStopIfAlreadyCapped ExtractDocumentID cfg n h e).
Proof.
  unfold tryStopIfAlreadyCapped. apply settles_bind; [intros t; apply prepare_fair|]. intros [state|er]; [|done]. destruct (_ <? _); [done|].
  apply settles_bind; [apply give_up_settles|done].
Qed.

(** The run is armed when it goes on to remediate. *)
Lemma stop_arms n h e t : guarded within_limit t (tryStopAtMaxAttempts ExtractDocumentID cfg n h e) (fun t' r => r = None -> n = N -> h = g -> armed t' = true).
Proof.
  unfold tryStopAtMaxAttempts. apply guarded_bind. eapply guarded_conseq; [apply record_arms|]. intros t1 [c|er] H1.
  - destruct (Z.leb_spec c maxAttempts); [intros _ ??; by eapply H1|]. apply guarded_bind. eapply guarded_conseq; [apply give_up_settles|done].
  - destruct (IsNotFound er); [|done]. apply guarded_bind. eapply guarded_conseq; [apply finish_settles|done].
Qed.

Lemma perform_within doc gc t : GetGroupConfigForEvent actions (docEvent doc) = Ok (Some gc) ->
  (NodeName (docEvent doc) = N -> EffectiveEquivalenceGroup gc = g -> armed t = true) ->
  guarded within_limit t (performRemediation render cfg IsAlreadyExists doc gc) (fun _ _ => True).
Proof.
  intros Hgc Harm. unfold performRemediation. split; [done|]. intros [b [u|]]; [done|]. simpl. apply guarded_bind.
  enough (Hc : guarded within_limit (Ev (answer := answer) (UpdateLabel (NodeName (docEvent doc)) RemediatingLabelValue) (b, None) :: t)
    (CreateMaintenanceResource render cfg IsAlreadyExists (docEvent doc) (docID doc) gc) (fun _ _ => True)).
  { eapply guarded_conseq; [exact Hc|]. intros t' r _. by split. }
  unfold CreateMaintenanceResource. destruct (rcDryRun cfg); [done|].
  destruct (selectRemediationActionAndTemplate _ _) as [resource|e]; [|done]. unfold getNodeForOwnerReference.
  split; [done|]. intros [nd|e]; simpl; [|done]. unfold createMaintenanceCR. destruct (render _ _) as [name|e]; [|done]. simpl. split.
  - unfold for_group. simpl. rewrite Hgc. intros [Hn Hg]%andb_true_iff. apply go_eqb_true in Hn, Hg. by apply Harm.
  - intros r. assert (Hann : forall v, settles (updateRemediationAnnotationIfNeeded (Raw := Raw) (NodeName (docEvent doc))
      (EffectiveEquivalenceGroup gc) v (GetEffectiveActionName (docEvent doc)) ≫= (fun u => mret (match u with inr e => inr e | inl _ => inl v end : string + kerror)))).
    { intros v. apply settles_bind; [|done]. unfold updateRemediationAnnotationIfNeeded. destruct (_ ==s _); [done|]. unfold wrap_error at 1.
      apply settles_bind; [intros t'; apply update_fair|done]. }
    destruct r as [e|]; simpl; [destruct (IsAlreadyExists e); [|done]|]; apply Hann.
Qed.

Lemma remediation_within doc e t : 0 < maxAttempts -> guarded within_limit t (handleRemediationEvent render ExtractDocumentID cfg IsAlreadyExists read_manifest doc e) (fun _ _ => True).
Proof.
  intros Hmax. unfold handleRemediationEvent. destruct (isPartialRecoveryRemediationEvent doc).
  { apply settles_plain. unfold handlePartialRecoveryEvent, GetRemediationState, reconcilePartialRecoveryLabel, recomputePartialRecoveryNodeLabel, then_,
      markEventTerminalAndProcessed, updateNodeRemediatedStatus, markProcessedOrError, safeMarkProcessed. footprint. }
  apply plain_bind.
  { unfold trySkipEvent, shouldSkipEvent, nodeHasActiveQuarantine, readLiveNode, wrap_error, updateNodeRemediatedStatus, markProcessedOrError, safeMarkProcessed. footprint. }
  intros t1 [r|]; [done|]. destruct (GetGroupConfigForEvent actions (docEvent doc)) as [[gc|]|er] eqn:Hgc; [|done..].
  apply plain_bind.
  { unfold trySkipResolvedEvent, eventResolvedInStore, findHealthEventStatusByID, nodeHasActiveQuarantine, readLiveNode, wrap_error, markProcessedOrError, safeMarkProcessed. footprint. }
  intros t2 [r|]; [done|]. apply guarded_bind. eapply guarded_conseq; [apply existing_settles|]. intros t3 [r|] _; [done|]. apply guarded_bind.
  eapply guarded_conseq with (Q := fun _ _ => True); [|intros t4 [d|er] _; [destruct (negb _); [done|apply (finish_settles e true)]|done]].
  unfold runLogCollectorAndRemediate. rewrite (proj2 (Z.ltb_lt _ _) Hmax). apply guarded_bind. eapply guarded_conseq; [apply capped_settles|].
  intros t4 [r|] _; [done|]. apply plain_bind.
  { unfold runLogCollector, RunLogCollectorJob, launchLogCollectorJob, checkLogCollectorStatus, checkLogCollectorComplete, checkLogCollectorFailed,
      checkLogCollectorTimedOut, recordJobEnd, wrap_error. footprint. }
  intros t5 [delay|er]; [|done]. destruct (negb _); [done|]. apply guarded_bind. eapply guarded_conseq; [apply stop_arms|]. intros t6 [r|] H6; [done|].
  apply guarded_bind. eapply guarded_conseq; [apply perform_within; [done|by apply H6]|]. intros t7 p _. cbv zeta.
  apply guarded_bind. eapply guarded_conseq; [apply finish_settles|done].
Qed.
End run.

(** A run for an event whose quarantine session is over. *)
Definition cancelling (e : EventWithToken (Raw := Raw)) : bool :=
  match ParseHealthEventFromEvent (ewEvent e) with Ok d => session_over (docNodeQuarantined d) | Err _ => false end.

Lemma reconcile_within e : 0 < maxAttempts -> guarded (within_limit (cancelling e)) [] (reconcileEvent e) (fun _ _ => True).
Proof.
  intros Hmax. unfold Remediation.reconcileEvent. apply parse_cases; [done|done|]. intros t doc (d & id & Hd & _ & ->). unfold cancelling. rewrite Hd. simpl.
  destruct (session_over _); [by apply cancel_settles|by apply remediation_within].
Qed.

(** ** Runs in parallel *)

(** A run of the reconciler: its event, the calls it has made, and the rest. *)
Record thread := { thEvent : EventWithToken (Raw := Raw); thTrace : trace; thRest : prog outcome }.

(** The versions of the node, the newest first; the creations of resources of the
    group that were requested; how often its counter was lowered; the runs. *)
Record world := { hist : list rnode; made : nat; lowered : nat; pool : list thread }.

Definition with_version (n : rnode) (v : string) : rnode :=
  {| rnName := rnName n; rnVersion := v; rnLabels := rnLabels n; rnAnnotations := rnAnnotations n |}.

(** A new version of the node. *)
Definition commits (h : list rnode) (n : rnode) (h' : list rnode) : Prop :=
  exists v, h' = with_version n v :: h /\ Forall (fun m => rnVersion m <> v) h.

(** What the cluster may answer to a call, and the versions afterwards.  A read
    returns any version so far; a write commits when it is based on the newest one,
    even if the answer is lost. *)
Inductive answers (h : list rnode) : forall c : Call, answer (Raw := Raw) c -> list rnode -> Prop :=
| answer_read name m : rnName m = name -> (name = N -> m ∈ h) -> answers h (GetNode name) (inl m) h
| answer_read_error name e : answers h (GetNode name) (inr e) h
| answer_refused n e : answers h (UpdateNode n) (Some e) h
| answer_committed n cur h1 r h' : rnName n = N -> h = cur :: h1 -> rnVersion n = rnVersion cur -> commits h n h' -> answers h (UpdateNode n) r h'
| answer_unchanged n h1 : h = n :: h1 -> answers h (UpdateNode n) None h
| answer_other_node n r : rnName n <> N -> answers h (UpdateNode n) r h
| answer_else c x : (forall name, c <> GetNode name) -> (forall n, c <> UpdateNode n) -> answers h c x h.

(** The request is for a resource of the group. *)
Definition requests (c : Call) : nat := match c with CreateCR data _ => if for_group data then 1 else 0 | _ => 0 end.

(** Whether the newest version has a lower counter than the one it replaced. *)
Definition lowers (h h' : list rnode) : bool :=
  match h', h with n :: _, o :: _ => count g n <? count g o | _, _ => false end.

Inductive step (w : world) : world -> Prop :=
| step_start e : step w {| hist := hist w; made := made w; lowered := lowered w;
                          pool := {| thEvent := e; thTrace := []; thRest := reconcileEvent e |} :: pool w |}
| step_call l1 e t c k l2 x h' :
    pool w = l1 ++ {| thEvent := e; thTrace := t; thRest := Next c k |} :: l2 -> answers (hist w) c x h' ->
    step w {| hist := h'; made := requests c + made w;
              lowered := if cancelling e && lowers (hist w) h' then S (lowered w) else lowered w;
              pool := l1 ++ {| thEvent := e; thTrace := Ev c x :: t; thRest := k x |} :: l2 |}
| step_other n h' : rnName n = N -> 0 <= count g n -> commits (hist w) n h' ->
    step w {| hist := h'; made := made w; lowered := if lowers (hist w) h' then S (lowered w) else lowered w; pool := pool w |}.

Definition started (n0 : rnode) : world := {| hist := [n0]; made := 0; lowered := 0; pool := [] |}.

(** ** The invariant *)

(** The runs read versions of the node that it had. *)
Definition reads_known (h : list rnode) (t : trace) : Prop :=
  forall name m, Ev (answer := answer) (GetNode name) (inl m) ∈ t -> rnName m = name /\ (name = N -> m ∈ h).

Record history (h : list rnode) : Prop := {
  hist_some : h <> [];
  hist_ok : Forall (fun m => rnName m = N /\ 0 <= count g m) h;
  hist_versions : NoDup (map rnVersion h) }.

(** The creations still possible: full rounds for the times the counter was lowered
    and what the counter has used. *)
Definition budget (low : nat) (h : list rnode) : Z :=
  match h with [] => 0 | cur :: _ => maxAttempts * Z.of_nat low + Z.min maxAttempts (count g cur) end.

Definition bit (b : bool) : nat := if b then 1 else 0.
Definition armed_runs (l : list thread) : nat := length (List.filter (fun th => armed (thTrace th)) l).

Definition thread_ok (h : list rnode) (th : thread) : Prop :=
  guarded (within_limit (cancelling (thEvent th))) (thTrace th) (thRest th) (fun _ _ => True) /\ reads_known h (thTrace th).

Record inv (w : world) : Prop := {
  inv_hist : history (hist w);
  inv_threads : Forall (thread_ok (hist w)) (pool w);
  inv_made : Z.of_nat (made w + armed_runs (pool w)) <= budget (lowered w) (hist w) }.

Lemma same_version h m1 m2 : history h -> m1 ∈ h -> m2 ∈ h -> rnVersion m1 = rnVersion m2 -> m1 = m2.
Proof.
  intros [_ _ Hn]. induction h as [|x h IH]; [by intros ?%not_elem_of_nil|]. simpl in Hn. apply NoDup_cons in Hn as [Hx Hn].
  assert (Hout : forall m, m ∈ h -> rnVersion m <> rnVersion x) by (intros m Hm He; apply Hx; rewrite <- He; by apply list_elem_of_fmap_2).
  intros [->|H1]%elem_of_cons [->|H2]%elem_of_cons Hv; [done|by apply Hout in H2|by apply Hout in H1|by apply IH].
Qed.

Lemma commit_history h n h' : history h -> rnName n = N -> 0 <= count g n -> commits h n h' -> history h' /\ h ⊆ h'.
Proof.
  intros [_ Hok Hv] Hn Hc (v & -> & Hf). split; [|intros ? ?; by right]. split; [done|by constructor|]. simpl. constructor; [|done].
  intros (m & -> & Hm)%list_elem_of_fmap. rewrite Forall_forall in Hf. by apply Hf in Hm.
Qed.

(** A new version never costs more than what is left. *)
Lemma commit_budget h n h' low b (cur : rnode) h1 : h = cur :: h1 -> 0 < maxAttempts -> 0 <= count g n -> (count g cur <= count g n \/ b = true) -> commits h n h' ->
  budget low h <= budget (if b && lowers h h' then S low else low) h' /\
  (count g cur < count g n <= maxAttempts -> budget low h + 1 <= budget (if b && lowers h h' then S low else low) h').
Proof.
  intros -> Hmax Hc Hb (v & -> & _). simpl. unfold lowers. replace (count g (with_version n v)) with (count g n) by done.
  destruct (Z.ltb_spec (count g n) (count g cur)); destruct b; simpl; destruct Hb as [Hb|Hb]; try done; split; intros; lia.
Qed.

(** A successful write that counts is based on the newest version. *)
Lemma counts_newest h t n cur h1 : history h -> reads_known h t -> h = cur :: h1 -> rnVersion n = rnVersion cur -> counts_attempt t n = true ->
  count g cur < count g n <= maxAttempts.
Proof.
  intros Hh Hk -> Hv (e & Hin & He)%existsb_exists. destruct (read_of e) as [m|] eqn:Hr; [|done]. rewrite !andb_true_iff, Z.ltb_lt, Z.leb_le in He.
  destruct He as [[[_ Hmv%go_eqb_true] H1] H2]. assert (m = cur); [|by subst]. unfold read_of in Hr. destruct e as [c x]. destruct c; try done.
  destruct x as [m'|]; [|done]. destruct (name ==s N) eqn:Hname; [|done]. injection Hr as ->. apply go_eqb_true in Hname.
  apply (same_version (cur :: h1)); [done| |left|congruence]. by apply (Hk name); [apply list_elem_of_In|].
Qed.

Lemma counts_elsewhere h t n : reads_known h t -> rnName n <> N -> counts_attempt t n = false.
Proof.
  intros Hk Hn. apply not_true_iff_false. intros (e & Hin & He)%existsb_exists. destruct (read_of e) as [m|] eqn:Hr; [|done].
  rewrite !andb_true_iff in He. destruct He as [[[Hmn%go_eqb_true _] _] _]. unfold read_of in Hr. destruct e as [c x]. destruct c; try done.
  destruct x as [m'|]; [|done]. destruct (name ==s N) eqn:Hname; [|done]. injection Hr as ->. apply go_eqb_true in Hname.
  apply list_elem_of_In in Hin. destruct (Hk _ _ Hin) as [Hm _]. congruence.
Qed.

(** A fair write to the node, based on the newest version. *)
Lemma fair_newest h t n b cur h1 : history h -> reads_known h t -> h = cur :: h1 -> rnName n = N -> rnVersion n = rnVersion cur -> fair_write b t n ->
  0 <= count g n /\ (count g cur <= count g n \/ b = true).
Proof.
  intros Hh Hk -> Hn Hv (name & m & Hin & H1 & H2 & Hcase). destruct (Hk _ _ Hin) as [Hm HN].
  assert (m = cur) as -> by (apply (same_version (cur :: h1)); [done|apply HN; congruence|left|congruence]).
  assert (Hcur : 0 <= count g cur) by (destruct Hh as [_ Hok _]; by inversion_clear Hok as [|? ? [_ ?] _]).
  destruct Hcase as [Hge|[-> H0]]; [specialize (Hge g); split; [lia|by left]|rewrite H0; split; [done|by right]].
Qed.

(** What a call may do, given what the run has read. *)
Definition call_ok (h h' : list rnode) (t : trace) (c : Call) (x : answer (Raw := Raw) c) (b : bool) (low : nat) : Prop :=
  history h' /\ h ⊆ h' /\ reads_known h' (Ev c x :: t) /\
  Z.of_nat (requests c + bit (armed (Ev c x :: t))) + budget low h <=
    Z.of_nat (bit (armed t)) + budget (if b && lowers h h' then S low else low) h'.

Lemma knows_more h h' t c (x : answer (Raw := Raw) c) : reads_known h t -> h ⊆ h' ->
  (forall name m, Ev c x = Ev (answer := answer) (GetNode name) (inl m) -> rnName m = name /\ (name = N -> m ∈ h')) -> reads_known h' (Ev c x :: t).
Proof. intros Hk Hs Hnew name m [Heq|Hin]%elem_of_cons; [by apply Hnew|]. destruct (Hk _ _ Hin) as [H1 H2]. split; [done|]. intros Hn. by apply Hs, H2. Qed.

Lemma quiet_lowers h : lowers h h = false.
Proof. unfold lowers. destruct h; [done|]. apply Z.ltb_ge. done. Qed.

Lemma not_a_read c (x : answer (Raw := Raw) c) : (forall name, c <> GetNode name) -> forall name m, Ev c x = Ev (answer := answer) (GetNode name) (inl m) -> False.
Proof. intros Hc name m He. apply (f_equal ev_call) in He. by apply (Hc name). Qed.

(** Nothing is written. *)
Lemma quiet_ok h t c (x : answer (Raw := Raw) c) b low : history h -> reads_known h (Ev c x :: t) -> (requests c + bit (armed (Ev c x :: t)) <= bit (armed t))%nat ->
  call_ok h h t c x b low.
Proof. intros Hh Hk Ha. split; [done|]. split; [done|]. split; [done|]. rewrite quiet_lowers, andb_false_r. lia. Qed.

Lemma written_ok h t n (r : option kerror) : reads_known h t -> reads_known h (Ev (answer := answer) (UpdateNode n) r :: t).
Proof. intros Hk. apply (knows_more h); [done|done|]. intros name m Heq. by apply not_a_read in Heq. Qed.

Lemma call_step h h' t c (x : answer (Raw := Raw) c) b low : 0 < maxAttempts -> history h -> reads_known h t -> within_limit b t c -> answers h c x h' ->
  call_ok h h' t c x b low.
Proof.
  intros Hmax Hh Hk Hg Ha. destruct Ha as [name m Hm HN|name e|n e|n cur h1 r h' Hn Hc Hv Hcom|n h1 Hc|n r Hn|c x Hc1 Hc2].
  - apply quiet_ok; [done| |done]. apply (knows_more h); [done|done|]. intros name' m' Heq. apply (f_equal read_at) in Heq. by simplify_eq/=.
  - apply quiet_ok; [done| |done]. apply (knows_more h); [done|done|]. intros name' m' Heq. apply (f_equal read_at) in Heq. by simplify_eq/=.
  - apply quiet_ok; [done|by apply written_ok|]. simpl. rewrite orb_false_r. lia.
  - destruct (fair_newest h t n b cur h1) as [H0 Hcase]; [done..|]. destruct (commit_history h n h') as [Hh' Hsub]; [done..|].
    destruct (commit_budget h n h' low b cur h1) as [H1 H2]; [done..|]. split; [done|]. split; [done|]. split.
    { apply (knows_more h); [done|done|]. intros name m Heq. by apply not_a_read in Heq. }
    simpl. destruct (armed t); simpl; [lia|]. destruct r as [e|]; simpl; [lia|]. destruct (counts_attempt t n) eqn:Hca; simpl; [|lia].
    apply (counts_newest h t n cur h1) in Hca; [|done..]. specialize (H2 Hca). lia.
  - apply quiet_ok; [done|by apply written_ok|]. simpl. destruct (counts_attempt t n) eqn:Hca; [|rewrite orb_false_r; lia].
    apply (counts_newest h t n n h1) in Hca; [lia|done..].
  - apply quiet_ok; [done|by apply written_ok|]. simpl. rewrite (counts_elsewhere h); [|done..]. destruct r; rewrite orb_false_r; lia.
  - apply quiet_ok; [done| |].
    { apply (knows_more h); [done|done|]. intros name m Heq. by apply not_a_read in Heq. }
    destruct c; simpl; try lia; [by destruct (Hc2 n)|]. simpl in Hg. destruct (for_group data); [by rewrite Hg|simpl; lia].
Qed.

Lemma armed_runs_app l1 l2 : armed_runs (l1 ++ l2) = (armed_runs l1 + armed_runs l2)%nat.
Proof. unfold armed_runs. by rewrite List.filter_app, length_app. Qed.

Lemma armed_runs_cons th l : armed_runs (th :: l) = (bit (armed (thTrace th)) + armed_runs l)%nat.
Proof. unfold armed_runs. simpl. by destruct (armed _). Qed.

Lemma thread_later h h' th : h ⊆ h' -> thread_ok h th -> thread_ok h' th.
Proof. intros Hs [H1 Hk]. split; [done|]. intros name m Hin. destruct (Hk _ _ Hin) as [Hm HN]. split; [done|]. intros Hn. by apply Hs, HN. Qed.

Lemma inv_step w w' : 0 < maxAttempts -> inv w -> step w w' -> inv w'.
Proof.
  intros Hmax [Hh Ht Hm] Hs. destruct Hs as [e|l1 e t c k l2 x h' Hp Ha|n h' Hn Hc Hcom].
  - split; simpl; [done| |by rewrite armed_runs_cons]. constructor; [|done]. split; [by apply reconcile_within|]. by intros ? ? ?%not_elem_of_nil.
  - rewrite Hp in Ht, Hm. apply Forall_app in Ht as [Ht1 [[[Hg Hrest] Hk] Ht2]%Forall_cons]. simpl in *.
    destruct (call_step _ _ _ _ _ _ (lowered w) Hmax Hh Hk Hg Ha) as (Hh' & Hsub & Hk' & Hbudget). rewrite !armed_runs_app, !armed_runs_cons in *.
    cbn [thTrace] in *. split; cbn [hist pool made lowered]; [done| |rewrite armed_runs_app, armed_runs_cons; cbn [thTrace]; lia].
    apply Forall_app. split; [|constructor; [by split; [apply Hrest|]|]]; (eapply Forall_impl; [done|]); intros; by eapply thread_later.
  - destruct (hist w) as [|cur h1] eqn:Hw; [by destruct (hist_some _ Hh)|]. rewrite <- Hw in *.
    destruct (commit_history (hist w) n h') as [Hh' Hsub]; [done..|].
    destruct (commit_budget (hist w) n h' (lowered w) true cur h1) as [H1 _]; [done..|by right|done|].
    split; simpl; [done|eapply Forall_impl; [done|]; intros; by eapply thread_later|]. simpl in H1. lia.
Qed.

Definition nonneg (n : rnode) : Prop := rnName n = N /\ 0 <= count g n.

(** C6 (the attempt limit).  Let any number of runs of the reconciler proceed at the
    same time, one call at a time, with reads from caches that return any earlier
    version of the node, writes that commit only on the newest version (and may then
    still report a failure), runs that stop anywhere, and other clients that write the
    node.  When a limit is configured and no counter written by others is negative,
    the creations of resources requested for one node and group are at most the
    limit, times one more than the number of times its counter was lowered by the run
    of an event whose quarantine session is over or by another client. *)
Theorem attempts_capped (n0 : rnode) (w : world) :
  0 < maxAttempts -> nonneg n0 -> rtc step (started n0) w -> Z.of_nat (made w) <= maxAttempts * (1 + Z.of_nat (lowered w)).
Proof.
  intros Hmax [Hn Hc] Hr. assert (Hi : inv w).
  { assert (H0 : inv (started n0)).
    { split; simpl; [|by apply Forall_nil|unfold budget, armed_runs; simpl; lia]. split; [done|by repeat constructor|]. apply NoDup_singleton. }
    clear Hn Hc. induction Hr as [|w1 w2 w3 Hs _ IH]; [done|]. apply IH. by eapply inv_step. }
  destruct Hi as [_ _ Hm]. unfold budget in Hm. destruct (hist w); lia.
Qed.
End cap.
