(* ===== verification/RemediationDemo.v ===== *)
(** * fault-remediation on a concrete node

    A node with two recorded remediations, the events that meet them, and the
    theorems of [RemediationSpec], [RemediationCheckpoint] and [RemediationCap]
    applied to their runs. *)

From stdpp Require Import gmap strings list fin_maps relations pretty.
From Stdlib Require Import ZArith Lia Ascii.
From S2P Require Import Prelude HealthEvent KubeRetry StateManager AnnotationMap NodeSession DrainInformers Drain Interaction RemediationState Remediation RemediationSpec RemediationCheckpoint RemediationCap.

#[local] Open Scope Z_scope.

Module RemediationDemo.

#[local] Existing Instance list_range.
#[local] Existing Instance list_range_laws.
#[local] Existing Instance AnnotationDemo.bit_codec.

(** ** Texts *)

#[local] Instance group_eq_dec : EqDecision EquivalenceGroupState.
Proof. solve_decision. Defined.
#[local] Instance group_countable : Countable EquivalenceGroupState.
Proof.
  apply (inj_countable' (fun g => (MaintenanceCR g, CreatedAt g, ActionName g, AttemptCount g)) (fun '(a, b, c, d) => Build_EquivalenceGroupState a b c d)).
  by intros [].
Defined.
#[local] Instance state_eq_dec : EqDecision RemediationStateAnnotation.
Proof. solve_decision. Defined.
#[local] Instance state_countable : Countable RemediationStateAnnotation.
Proof.
  apply (inj_countable' (fun s => (EquivalenceGroups s, ValidationAttempts s, ValidationRequests s)) (fun '(a, b, c) => Build_RemediationStateAnnotation a b c)).
  by intros [].
Defined.

#[local] Instance state_text : JSON RemediationStateAnnotation := {|
  json_marshal s := Ok (AnnotationDemo.bits (encode s));
  json_unmarshal s := match AnnotationDemo.unbits s ≫= decode with Some l => Ok l | None => Err "not a state" end |}.
#[local] Instance state_text_laws : JSONLaws RemediationStateAnnotation.
Proof. intros l s [= <-]. simpl. rewrite AnnotationDemo.unbits_bits. simpl. by rewrite decode_encode. Qed.

(** Texts no run of this demonstration needs. *)
Definition no_text (A : Type) : JSON A := {| json_marshal _ := Err "unused"; json_unmarshal _ := Err "unused" |}.
#[local] Instance sessions_text : JSON (list ValidationSessionEntry) := no_text _.
#[local] Instance events_text : JSON (list HealthEvent) := no_text _.
#[local] Instance event_text : JSON HealthEvent := no_text _.

(** ** Configuration and events *)

Definition resource (group : string) (superseding : list string) : MaintenanceResource := {|
  mrNamespace := ""; mrVersion := "v1"; ApiGroup := "janitor"; Kind := "RebootNode"; CompleteConditionType := "Done"; Scope := "Cluster";
  TemplateFileName := "t"; EquivalenceGroup := group; ImpactedEntityScope := ""; mrSuperseding := superseding |}.

(** A restart of the machine supersedes a restart of the VM. *)
Definition config (dry : bool) : RemediationConfig := {|
  rcConfig := {| MountPath := "/t"; MaxRemediationAttempts := 1;
    RemediationActions := {["RESTART_BM"%string := resource "restart" []; "RESTART_VM"%string := resource "vm" ["restart"%string]]} |};
  rcDryRun := dry; EnableLogCollector := false; InProgressRequeueDelay := 0; logCollectorTimeout := 0 |}.

Definition fault (action : RecommendedAction) : HealthEvent := {|
  Version := 1; Agent := "monitor"; ComponentClass := "GPU"; CheckName := "xid"; IsFatal := true; IsHealthy := false; Message := "";
  Action := action; ErrorCode := []; EntitiesImpacted := []; Metadata := ∅; GeneratedSeconds := None; NodeName := "node-1";
  QuarantineOverrides := None; DrainOverrides := None; Strategy := EXECUTE_REMEDIATION; Id := "e1"; CustomRecommendedAction := "" |}.

Definition doc (action : RecommendedAction) : HealthEventDoc := {|
  docID := "1"; docEvent := fault action; docNodeQuarantined := Quarantined; docFaultRemediated := None; docCreatedAt := 50 |}.

Definition arrived (action : RecommendedAction) : EventWithToken := {| ewEvent := doc action; ResumeToken := "token" |}.

Definition render (action : string) (data : TemplateData) : result string := Ok ("maintenance-" +:+ tdHealthEventID data)%string.
Definition parse (d : HealthEventDoc) : result HealthEventDoc := Ok d.
Definition document_id (d : HealthEventDoc) : result string := Ok (docID d).
Definition exists_already (e : kerror) : bool := false.

(** A node with a record. *)
Definition node (state : RemediationStateAnnotation) : rnode := {|
  rnName := "node-1"; rnVersion := "0"; rnLabels := None; rnAnnotations := Some {[AnnotationKey := AnnotationDemo.bits (encode state)]} |}.

Definition recorded (group action cr : string) (at_ count : Z) : RemediationStateAnnotation := {|
  EquivalenceGroups := {[group := {| MaintenanceCR := cr; CreatedAt := at_; ActionName := action; AttemptCount := count |}]};
  ValidationAttempts := ∅; ValidationRequests := [] |}.

(** ** The cluster *)

Definition not_found : kerror := {| kreason := ReasonNotFound; kmsg := "not found" |}.

(** The versions of the node, and the condition every resource shows. *)
Record cluster := { cHist : list rnode; cCondition : string }.

Definition next_version (h : list rnode) : string := pretty (N.of_nat (length h)).

Definition update (h : list rnode) (n : rnode) : option (list rnode) :=
  match h with
  | cur :: _ =>
      if (rnName n ==s "node-1") && (rnVersion n ==s rnVersion cur) && forallb (fun m => rnVersion m <>s next_version h) h
      then Some (with_version n (next_version h) :: h) else None
  | [] => None
  end.

Definition serve (c : Call) (w : cluster) : answer (Raw := HealthEventDoc) c * cluster :=
  match c return answer c * cluster with
  | GetNode name | ReadNode name =>
      (match cHist w with n :: _ => if (name ==s "node-1") && (rnName n ==s name) then inl n else inr not_found | [] => inr not_found end, w)
  | UpdateNode n => match update (cHist w) n with Some h => (None, {| cHist := h; cCondition := cCondition w |}) | None => (Some (plain_error "refused"), w) end
  | GetCR _ _ => (inl (Some [("Done"%string, cCondition w)]), w)
  | CreateCR _ _ | CreateJob _ _ | UpdateJob _ | UpdateStatus _ _ _ | MarkProcessed _ => (None, w)
  | UpdateLabel _ _ | RemoveLabelIfMatch _ _ => ((true, None), w)
  | ListJobs _ _ => (inl [], w)
  | FindByID _ => (inl [], w)
  | FindUnresolved _ _ => (([], None), w)
  | Now => (100, w)
  end.

Definition reconcile (dry : bool) (action : RecommendedAction) : prog (answer (Raw := HealthEventDoc)) outcome :=
  reconcileEvent render parse document_id (config dry) exists_already (Ok tt) (arrived action).

Definition run_of (action : RecommendedAction) (state : RemediationStateAnnotation) (condition : string) :=
  traced serve (reconcile false action) {| cHist := [node state]; cCondition := condition |} [].

Lemma run_of_exec action state condition : exec (reconcile false action) [] (run_of action state condition).1.1 (run_of action state condition).2.
Proof. apply traced_exec. Qed.

(** The calls of a run, the first one first. *)
Definition kind (c : Call) : string :=
  match c with
  | GetNode _ => "get node" | UpdateNode _ => "update node" | ReadNode _ => "read node" | GetCR _ n => "get " +:+ n | CreateCR _ n => "create " +:+ n
  | UpdateLabel _ v => "label " +:+ v | RemoveLabelIfMatch _ _ => "remove label" | ListJobs _ _ => "list jobs" | CreateJob _ _ => "create job"
  | UpdateJob _ => "update job" | FindByID _ => "find" | FindUnresolved _ _ => "find unresolved"
  | UpdateStatus _ b _ => if b then "remediated" else "not remediated" | MarkProcessed _ => "checkpoint" | Now => "now"
  end.

Definition calls (action : RecommendedAction) (state : RemediationStateAnnotation) (condition : string) : list string :=
  rev (map (fun ev => kind (ev_call ev)) (run_of action state condition).2).

(** The runs below: the machine was restarted before the fault appeared, after it,
    or is being restarted; or the only attempt has failed. *)
Definition before := run_of RESTART_VM (recorded "restart" "RESTART_BM" "m0" 20 0) "True".
Definition handle := handleRemediationEvent render document_id (config false) exists_already (Ok tt) (doc RESTART_VM) (arrived RESTART_VM).
Definition during := traced serve handle {| cHist := [node (recorded "restart" "RESTART_BM" "m0" 20 0)]; cCondition := "Unknown" |} [].

Lemma before_exec : exec (reconcile false RESTART_VM) [] before.1.1 before.2.
Proof. unfold before. apply run_of_exec. Qed.
Lemma during_exec : exec handle [] during.1.1 during.2.
Proof. unfold during. apply traced_exec. Qed.

Example calls_after : calls RESTART_VM (recorded "restart" "RESTART_BM" "m0" 60 0) "True" = ["find"; "get node"; "get m0"; "now"; "remediated"; "checkpoint"]%string.
Proof. by vm_compute. Qed.

(** An event given up at the limit is checkpointed twice, and goes on to the count
    of created resources. *)
Example capped_twice : calls RESTART_VM (recorded "vm" "RESTART_VM" "m0" 20 1) "False" =
  ["find"; "get node"; "get m0"; "get node"; "update node"; "get node"; "label remediation-failed"; "not remediated"; "checkpoint"; "checkpoint"]%string.
Proof. by vm_compute. Qed.

(** ** The theorems on these runs *)

(** The position of the creation, from the newest call. *)
Definition created_at : nat := 7.


Lemma waiting_event_untouched_witness :
  sees_progress during.2 /\ during.1.1 = inl (30 * Second) /\ Forall (fun ev => reading (ev_call ev) = true) during.2.
Proof.
  assert (Hd : during.2 = Ev (answer := answer) (GetCR (resource "restart" []) "m0") (inl (Some [("Done"%string, "Unknown"%string)])) :: drop 1 during.2) by (by vm_compute).
  assert (Hs : sees_progress during.2).
  { exists (resource "restart" []), "m0"%string, (Some [("Done"%string, "Unknown"%string)]). split; [rewrite Hd; left|reflexivity]. }
  destruct (waiting_event_untouched render document_id (config false) exists_already (Ok tt) (doc RESTART_VM) (arrived RESTART_VM) during.1.1 during.2)
    as (Hr & _ & HF); [reflexivity|exact during_exec|exact Hs|].
  split; [exact Hs|]. split; [|exact HF]. rewrite Hr. reflexivity.
Defined.

Lemma checkpoint_after_outcome_witness :
  exists x, before.2 = [] ++ Ev (MarkProcessed "token") x :: drop 1 before.2 /\
    (settled document_id (arrived RESTART_VM) (drop 1 before.2) \/ nothing_to_do parse document_id (arrived RESTART_VM) (drop 1 before.2)).
Proof.
  assert (Ht : before.2 = [] ++ Ev (MarkProcessed "token") None :: drop 1 before.2) by (by vm_compute).
  exists None. split; [exact Ht|].
  by destruct (checkpoint_after_outcome render parse document_id (config false) exists_already (Ok tt) (arrived RESTART_VM) before.1.1 before.2 [] _ _ None before_exec Ht) as (_ & H & _).
Defined.

(** ** Two runs against the limit *)

#[local] Abbreviation step := (step render parse document_id (config false) exists_already (Ok tt) "node-1" "vm").
#[local] Abbreviation world := (world (Raw := HealthEventDoc)).

(** The server's answers are ones the cluster may give. *)
Lemma serve_answers c w : answers "node-1" (cHist w) c (serve c w).1 (cHist (serve c w).2).
Proof.
  destruct c; try (apply answer_else; by intros); simpl.
  - destruct (cHist w) as [|n h]; [apply answer_read_error|]. destruct (_ && _) eqn:Hn; [|apply answer_read_error].
    apply andb_true_iff in Hn as [H1%go_eqb_true H2%go_eqb_true]. apply answer_read; [done|]. intros _. left.
  - destruct (update (cHist w) n) as [h'|] eqn:Hu; simpl; [|apply answer_refused]. unfold update in Hu. destruct (cHist w) as [|cur h]; [done|].
    destruct (_ && forallb _ _) eqn:Hn; [|done]. injection Hu as <-. rewrite !andb_true_iff in Hn. destruct Hn as [[H1%go_eqb_true H2%go_eqb_true] H3].
    eapply answer_committed; [done|done|done|]. eexists. split; [done|]. rewrite forallb_forall in H3. apply Forall_forall. intros m Hm%list_elem_of_In Hv.
    apply H3 in Hm. rewrite Hv in Hm. by rewrite go_eqb_refl in Hm.
Qed.

(** A run to its end, in the model of parallel runs. *)
Fixpoint run_world (e : EventWithToken) (p : prog (answer (Raw := HealthEventDoc)) outcome) (t : list (event (answer (Raw := HealthEventDoc))))
    (c : cluster) (made lowered : nat) (rest : list thread) : world * cluster :=
  match p with
  | Return _ => ({| hist := cHist c; made := made; lowered := lowered; pool := {| thEvent := e; thTrace := t; thRest := p |} :: rest |}, c)
  | Next q k =>
      let '(x, c') := serve q c in
      run_world e (k x) (Ev q x :: t) c' (requests (config false) "node-1" "vm" q + made)
        (if cancelling parse e && lowers "vm" (cHist c) (cHist c') then S lowered else lowered) rest
  end.

Lemma run_world_steps e p : forall t c m l rest,
  rtc step {| hist := cHist c; made := m; lowered := l; pool := {| thEvent := e; thTrace := t; thRest := p |} :: rest |} (run_world e p t c m l rest).1.
Proof.
  induction p as [a|q k IH]; intros t c m l rest; [done|]. simpl. pose proof (serve_answers q c) as Ha. destruct (serve q c) as [x c'].
  eapply rtc_l; [|apply IH]. by apply (step_call _ _ _ _ _ _ _ _ {| hist := cHist c; made := m; lowered := l; pool := _ |} [] e t q k rest x (cHist c')).
Qed.

(** A new run, to its end. *)
Definition next_run (action : RecommendedAction) (wc : world * cluster) : world * cluster :=
  run_world (arrived action) (reconcile false action) [] wc.2 (made wc.1) (lowered wc.1) (pool wc.1).

Lemma next_run_steps action w c : hist w = cHist c -> rtc step w (next_run action (w, c)).1.
Proof.
  intros Hh. eapply rtc_l; [apply (step_start _ _ _ _ _ _ _ _ w (arrived action))|]. unfold next_run. simpl. rewrite Hh. apply run_world_steps.
Qed.

Lemma run_world_hist e p : forall t c m l rest, hist (run_world e p t c m l rest).1 = cHist (run_world e p t c m l rest).2.
Proof. induction p as [a|q k IH]; intros t c m l rest; [done|]. simpl. destruct (serve q c) as [x c']. apply IH. Qed.

(** Two events for the group, the first of whose resources fails. *)
Definition first_node : rnode := node empty_state.
Definition one_run := next_run RESTART_VM (started first_node, {| cHist := [first_node]; cCondition := "False" |}).
Definition two_runs := next_run RESTART_VM one_run.

Lemma two_runs_reachable : rtc step (started first_node) two_runs.1.
Proof.
  etrans; [by apply (next_run_steps RESTART_VM (started first_node) {| cHist := [first_node]; cCondition := "False" |})|].
  unfold two_runs. rewrite (surjective_pairing one_run). apply next_run_steps. apply run_world_hist.
Qed.

Lemma attempts_capped_witness : made two_runs.1 = 1%nat /\ Z.of_nat (made two_runs.1) <= 1 * (1 + Z.of_nat (lowered two_runs.1)).
Proof.
  split; [by vm_compute|]. apply (attempts_capped render parse document_id (config false) exists_already (Ok tt) "node-1" "vm" first_node two_runs.1).
  - reflexivity.
  - split; [reflexivity|]. by vm_compute.
  - apply two_runs_reachable.
Defined.
End RemediationDemo.
